(* ===== verification/_CoqProject ===== *)
-Q . S2P
Prelude.v
Abstractions.v
Numbers.v
Json.v
Ports.v
Client.v
TopicMatch.v
BusQueue.v
InMemoryBus.v
BusInvariants.v
BusSafety.v
BusProgress.v
BusDelivery.v
BusStore.v
BusLocal.v
BusSpec.v
BusAttempts.v
BusOrder.v
BusCost.v
BusService.v
BusGuarantee.v
InMemoryScheduler.v
SchedulerSpec.v
Resilience.v
Idempotency.v
EffectOnce.v
Sse.v
SseHttp.v
RabbitMq.v
RabbitMqProofs.v
Kafka.v
Emitter.v
Artemis.v
Isolation.v
EventLoop.v
Scenarios.v
BusScenarios.v
FeatureScenarios.v
Verdicts.v
LoopTheory.v
BusSuite.v
Simulation.v
Runner.v
Transparency.v
Console.v
FaultDemo.v
Interactive.v
SseServer.v
SseDocs.v
RepositoryTests.v
