(* ===== verification/Prelude.v ===== *)
(** * messaging-poc: a verification library

    The repository compares message brokers behind one small API.  Two ports describe
    what an application may ask for: [IMessageScheduler] (send now, send at a time,
    cancel, list, consume) and [IMessageBus] (topics, subscriber queues, explicit ack,
    dead letters, groups, retries, replay).  Adapters implement both ports over an
    in-process engine, RabbitMQ, Kafka and Artemis; decorators wrap any adapter
    (fault injection, retry and circuit breaker, idempotent handlers); scenarios run
    against any adapter and a runner turns their results into reports; a cluster of
    SSE servers uses the bus to push events to browsers.  This library models the
    TypeScript implementation (src/typescript/src; all source paths below are relative
    to it).

    ** Files

    Foundations
    - Prelude.v: this header, tactics, hint databases, JS [Map] and [Set] as lists.
    - Abstractions.v: abstractions/types.ts, message-bus.ts, errors.ts.  Option records,
      messages, capabilities, errors, dead-letter addresses.
    - Numbers.v: the parts of the language the programs compute with: doubles, [Number(s)]
      and printing, 32-bit operations, UTF-16 code units, ISO times.
    - Json.v: [JSON.stringify] and [JSON.parse] of the language, with their round trip;
      strings are UTF-8 (a lone surrogate as its three bytes), numbers are doubles.
    - Ports.v: abstractions/message-scheduler.ts and message-bus.ts as type classes over
      an adapter state, the error monad [M], and [SchedulerContract]: an operation whose
      capability is not declared throws NotSupportedError.
    - Client.v: what the three remote adapters share: a client library whose calls may be
      rejected, the log of the completed calls, settle-once delivery handles.

    The in-process engine
    - TopicMatch.v: [topicMatch] of adapters/in-memory-bus.ts.
    - BusQueue.v: [class BusQueue], one subscriber queue: free consumer, best message by
      priority, next message of a free group.
    - InMemoryBus.v: [class InMemoryBus]: [publish], [subscribe], the pump, [settle],
      [deadLetter], timers, [dispose]; [BusOp] lists the operations of the environment
      (the application, the handlers, Node's timers) and [exec] runs one.
    - BusInvariants.v, BusSafety.v, BusProgress.v, BusDelivery.v, BusStore.v (references
      and handles), BusSpec.v (an abstract broker the bus refines), BusLocal.v (an
      interface for invariants of single queues) with its instances BusAttempts.v (delivery counts) and BusOrder.v (order), BusCost.v (a
      potential: the work that is left), BusService.v (termination, completion) and
      BusGuarantee.v (at-least-once delivery, end to end): its theory.
    - InMemoryScheduler.v: [class InMemoryScheduler] of adapters/in-memory.ts;
      SchedulerSpec.v: an abstract calendar it refines.

    The decorators
    - Resilience.v: fault/fault-injecting-bus.ts and resilience/resilient-scheduler.ts,
      over any instance of the ports.
    - Idempotency.v: idempotency/: the store interface, two stores, the wrapper;
      EffectOnce.v: consumers of the in-memory bus wrapped by it.

    The remote brokers
    - RabbitMq.v and RabbitMqProofs.v (adapters/rabbitmq.ts), Kafka.v (adapters/kafka.ts),
      Artemis.v (adapters/artemis.ts, artemis-jolokia.ts): every operation of the ports
      and every consumer callback, as the client library calls it makes.  Emitter.v:
      [once] of artemis.ts over Node's EventEmitter.  Isolation.v: the delivery callbacks
      of all three as instances of one interface.

    The programs on top
    - Sse.v: sse/domain and sse/adapters/bus-message-port.ts; SseHttp.v:
      sse/adapters/http-server.ts; SseDocs.v: sse/docs/generate.ts;
      SseServer.v: sse/server.ts and sse/cluster.ts.
    - EventLoop.v: the Node event loop the programs run in: turns, timers, and handlers as
      programs over the variables their closures share; LoopTheory.v: its laws, over any
      adapter that obeys those of a host.
    - Scenarios.v: scenarios/scenario.ts and s1 to s4; BusScenarios.v: s5 to s10 and
      AckCollector; FeatureScenarios.v: s11 to s20; Verdicts.v: what their checks accept;
      BusSuite.v: the bus suite and the in-memory adapter as a host.
    - Simulation.v: a relational logic, one program over two adapters that answer alike;
      Transparency.v: the scenarios, the runner and the resilience decorator in it.
    - Runner.v: runner.ts, index.ts, adapters/index.ts; Console.v: ansi.ts, the report
      runner.ts prints, fault/fault-narrator.ts; FaultDemo.v: fault.ts; Interactive.v:
      interactive/.
    - RepositoryTests.v: test/bus.test.ts, fault.test.ts and scenarios.test.ts: the tests
      of the repository, run on the model.

    ** How state and operations correspond

    A class of the source is a Record of its fields; a method is a Definition that takes
    and returns it, in the order of the source's statements.  Objects the source shares
    by reference (bus messages, subscriber queues, handler sets, timers) live in heaps
    and are passed as references.  A handler is an identity: the source only compares
    handlers and calls them.  A call of a handler is recorded (a delivery handle of the
    bus, an entry of [sc_calls]) and what its body then does (ack, nack, throw) is an
    operation of the environment.  A run is a list of operations, and a theorem on runs
    quantifies over all of them, so over every interleaving of callers, handlers and
    timers between the statements that await.  The programs on top (scenarios, demos) are
    run the other way round: there a handler is a program ([Body]) the event loop
    interleaves with the others, first in first out, one turn per await.  Code of
    packages (amqplib, kafkajs, rhea, cockatiel, redis) is a type class; the laws a
    theorem needs are fields of the class and every class that carries laws has an
    instance that satisfies them.

    ** The theorems

    - The in-memory bus as an at-least-once broker: step-by-step refinement of a
      deterministic broker that knows which message it owes to which queue and which
      event discharges it ([bus_implements_broker]); nothing lost silently, work
      conservation, one place per message, prefetch, groups, single active consumer,
      references that resolve; attempts bounded by the limit ([attempts_bounded]); first
      deliveries in the order of publication ([first_deliveries_in_order]); what
      publish, dead-lettering, a crash, deduplication and replay deliver; and, once the
      application stops calling, at most [work st] further events whatever the handlers
      answer ([service_terminates]), after which every handler has settled and nothing
      deliverable waits ([service_drains]): a publication has then been handled in every
      matching queue, or waits there for a consumer to come back ([at_least_once]).
    - The in-memory scheduler: refinement of an abstract calendar
      ([scheduler_refines_calendar]); never early, at most once, never after a cancel,
      and a due schedule reaches every handler.
    - [topicMatch] decides the declarative reading of wildcards.
    - The decorators: transient faults are absorbed, an outage opens the circuit, a
      publish survives a blip exactly once; suppression of repeats over any lawful store;
      on the in-memory bus the wrapped handler runs exactly once for a published body
      ([processed_exactly_once]).
    - The remote adapters: a handler's failure is contained by all three
      ([handler_faults_contained]); RabbitMQ declares what it uses, rejects a message
      towards the retry queue within its budget, given what x-death counts, and makes one
      copy per queue; after a restart Kafka skips no unfinished record
      ([restart_skips_nothing], over any cursor with the laws of [Fetching]); an Artemis
      selector accepts what the pattern matches (patterns without quotes).
    - The SSE servers: a publish reaches the streams it addresses over the in-memory bus
      ([publish_reaches_streams]), isolation of connections for any target strings,
      validation of requests, teardown of streams, framing; the committed documents are
      what the generator renders; shutdown waits for the clients and a second signal cuts
      it short ([shutdown_waits]).
    - The scenarios and the runner: a bus scenario keeps any lawful host in step with the
      loop, reports an honest gap without touching it, and the checks of S9 and S12 accept
      exactly the histories they describe; the in-memory adapter passes all twenty
      scenarios from the command line; what the exit code says of the
      runs, for every platform, suite and argument ([process_outcome]); behind the
      resilience decorator a dependable adapter gets the report of the bare adapter
      ([decorator_transparent], by simulation in [par]).
    - The repository's tests of the bus, of fault tolerance and of the suite hold of the
      model ([bus_tests_hold], [fault_tests_hold], [degradation_tests_hold]).
    - The demos: the three fault demos succeed; the grammar of the command lines, the
      worker's hash and its settlements, the publisher's count.
    Beside these, theorems such as [stale_handle_settles], [inflight_expiry_stalls] or
    [queue_names_collide] exhibit behaviours of the code that depart from its intent.

    ** Fuel and bounds

    - [pumpQ] loops at most once per pending message ([pumpQ_fuel_S]: more fuel changes
      nothing).
    - [Json.parse] gets twice the length of its input and two more, which is enough on
      every input ([parse_fuel]).
    - [waitUntil] gets the rounds that fit in its timeout; [waitUntil_decides] shows that
      the deadline, not the fuel, ends it, as each round advances the clock.
    - [base36] divides by 36 once per bit at most.
    - The event loop runs at most [loop_fuel] (1000) events per pause and throws beyond,
      so a scenario that passes shows that they were enough; a law of the loop holds
      whether they are or not.  [publish_loop] needs one round more than it publishes
      ([publishes_count]).
    - Numbers are Z, except where width shows: a Node timer delay above 2^31 - 1, a
      Kafka offset incremented as an IEEE double (above 2^53), the numbers of the command
      lines (doubles) and the worker's hash (32 bits).
    - Retry limits and circuit thresholds are the values of the options record.

    ** Not modelled

    [isMessageBus], which no code calls; the backoff durations of the retry policy, which
    belong to the package; the tests that need a running broker (sse.test.ts); sockets,
    URL parsing and file access of the HTTP adapter; the .NET twin and infra/ (another
    language, configuration).

    The remote adapters are modelled up to the calls of their client libraries.  What a
    RabbitMQ, Kafka or Artemis broker does with those calls is not in the repository, so
    no scenario is run against them: a platform gives each of them a host as a parameter,
    and the theorems on the suite hold of any host that obeys the stated laws.  In an
    interactive session a crashing subscriber records its exit code and settles nothing
    more, but its timers are not taken away: the end of a process is not modelled. *)

From Stdlib Require Export ZArith Lia.
From stdpp Require Export base gmap sets strings pretty option.
From stdpp Require Export prelude list.

(** ** Tactics and hint databases of the development *)

(** Facts about the bus components, used by [eauto with bus]. *)
Create HintDb bus discriminated.
#[export] Hint Constants Opaque : bus.
#[export] Hint Variables Transparent : bus.

(** Split every conjunction, existential and let-pair in the context. *)
Ltac crush_hyps :=
  repeat match goal with
    | H : _ ∧ _ |- _ => destruct H
    | H : ∃ _, _ |- _ => destruct H
    | H : (_, _) = (_, _) |- _ => injection H as H; subst
    | H : Some _ = Some _ |- _ => injection H as H; subst
    end.

(** Case analysis on every [match]/[if] scrutinee of the goal, closing the easy
    branches. *)
Ltac case_all :=
  repeat (case_match; simplify_eq/=); try done.

(** Close a decidable goal on concrete data by evaluation. *)
Ltac by_compute := refine (bool_decide_unpack _ _); vm_compute; exact I.

(** ** JavaScript collections

    A JS [Map] iterates its entries in insertion order; it is modelled by an
    association list without repeated keys.  [Map.set] on a present key keeps
    the entry's position. *)
Section js_map.
Context {K V : Type} `{EqDecision K}.
Implicit Types (m : list (K * V)) (k : K) (v : V).

Fixpoint map_get m k : option V :=
  match m with
  | [] => None
  | (k', v) :: m' => if decide (k = k') then Some v else map_get m' k
  end.

Fixpoint map_set m k v : list (K * V) :=
  match m with
  | [] => [(k, v)]
  | (k', v') :: m' =>
      if decide (k = k') then (k', v) :: m' else (k', v') :: map_set m' k v
  end.

Definition map_delete m k : list (K * V) :=
  filter (λ e, e.1 ≠ k) m.

Definition map_has m k : bool := bool_decide (is_Some (map_get m k)).

Lemma map_get_Some_elem m k v : map_get m k = Some v → (k, v) ∈ m.
Proof.
  induction m as [|[k' v'] m IH]; simpl; [done|].
  case_decide; intros ?; simplify_eq; set_solver.
Qed.

Lemma map_get_elem m k v :
  NoDup m.*1 → (k, v) ∈ m → map_get m k = Some v.
Proof.
  induction m as [|[k' v'] m IH]; simpl; [by rewrite elem_of_nil|].
  rewrite NoDup_cons, elem_of_cons. intros [Hnin Hnd] [?|Hin]; simplify_eq.
  - by rewrite decide_True.
  - rewrite decide_False; [by apply IH|]. intros ->.
    apply Hnin, list_elem_of_fmap. by exists (k', v).
Qed.

Lemma map_get_None m k : map_get m k = None ↔ k ∉ m.*1.
Proof.
  induction m as [|[k' v'] m IH]; simpl; [by split; [intros _; apply not_elem_of_nil|]|].
  rewrite not_elem_of_cons. case_decide; naive_solver.
Qed.

Lemma map_set_fresh m k v : k ∉ m.*1 → map_set m k v = m ++ [(k, v)].
Proof.
  induction m as [|[k' v'] m IH]; simpl; [done|].
  rewrite not_elem_of_cons. intros [? ?]. rewrite decide_False by done.
  by rewrite IH.
Qed.

Lemma elem_of_map_delete m k e : e ∈ map_delete m k ↔ e ∈ m ∧ e.1 ≠ k.
Proof. unfold map_delete. rewrite list_elem_of_filter. naive_solver. Qed.

Lemma map_get_is_Some m k : is_Some (map_get m k) ↔ k ∈ m.*1.
Proof.
  rewrite <- not_eq_None_Some, map_get_None. split; [|naive_solver].
  intros Hn. destruct (decide (k ∈ m.*1)); [done|by destruct Hn].
Qed.

Lemma map_get_set_eq m k v : map_get (map_set m k v) k = Some v.
Proof.
  induction m as [|[k' v'] m IH]; simpl; [by rewrite decide_True|].
  case_decide; simpl; [by rewrite decide_True|by rewrite decide_False].
Qed.

Lemma map_get_set_ne m k v k' : k ≠ k' → map_get (map_set m k v) k' = map_get m k'.
Proof.
  intros Hne. induction m as [|[k2 v2] m IH]; simpl; [by rewrite decide_False|].
  case_decide; simpl; subst; case_decide; congruence.
Qed.

Lemma map_set_keys m k v : (map_set m k v).*1 = m.*1 ∨ (k ∉ m.*1) ∧ (map_set m k v).*1 = m.*1 ++ [k].
Proof.
  induction m as [|[k' v'] m IH]; [right; split; [set_solver|done]|]. cbn [map_set].
  case_decide as E; rewrite !fmap_cons; cbn [fst]; [subst; by left|].
  destruct IH as [->|[Hk ->]]; [by left|right]. split; [set_solver|done].
Qed.

Lemma elem_of_map_set m k v e : e ∈ map_set m k v → e ∈ m ∨ e = (k, v).
Proof. induction m as [|[k' v'] m IH]; cbn [map_set]; [set_solver|]. case_decide; set_solver. Qed.

Lemma map_set_NoDup m k v : NoDup m.*1 → NoDup (map_set m k v).*1.
Proof.
  intros Hn. destruct (map_set_keys m k v) as [->|[Hk ->]]; [done|].
  apply NoDup_app. split; [done|]. split; [set_solver|by apply NoDup_singleton].
Qed.

Lemma map_delete_notin m k : k ∉ (map_delete m k).*1.
Proof.
  rewrite list_elem_of_fmap. intros ([k' v'] & -> & Hin).
  by apply elem_of_map_delete in Hin as [_ ?].
Qed.

Lemma map_delete_fresh m k : k ∉ m.*1 → map_delete m k = m.
Proof.
  induction m as [|[k' v'] m IH]; simpl; [done|].
  rewrite not_elem_of_cons. intros [? ?]. unfold map_delete in *.
  rewrite filter_cons_True by done. by rewrite IH.
Qed.

Lemma map_delete_split m1 m2 k v :
  k ∉ m1.*1 → k ∉ m2.*1 → map_delete (m1 ++ (k, v) :: m2) k = m1 ++ m2.
Proof.
  intros H1 H2. unfold map_delete. rewrite filter_app, filter_cons_False by naive_solver.
  f_equal; by apply map_delete_fresh.
Qed.

Lemma map_get_delete_eq m k : map_get (map_delete m k) k = None.
Proof. apply map_get_None, map_delete_notin. Qed.

Lemma map_get_delete_ne m k k' :
  k ≠ k' → map_get (map_delete m k) k' = map_get m k'.
Proof.
  intros Hne. unfold map_delete. induction m as [|[j w] m IH]; [done|].
  rewrite filter_cons. simpl. case_decide as Hjk; simpl in *.
  - case_decide; [done|]. apply IH.
  - rewrite decide_False; [apply IH|]. intros ->. naive_solver.
Qed.

Lemma map_delete_sublist m k : map_delete m k `sublist_of` m.
Proof.
  unfold map_delete. induction m as [|e m IH]; [constructor|].
  rewrite filter_cons. case_decide; by constructor.
Qed.

Lemma map_get_split m k v :
  NoDup m.*1 → map_get m k = Some v →
  ∃ m1 m2, m = m1 ++ (k, v) :: m2 ∧ map_delete m k = m1 ++ m2.
Proof.
  intros Hnd Hget. apply map_get_Some_elem, list_elem_of_split in Hget as (m1 & m2 & ->).
  exists m1, m2. split; [done|]. rewrite fmap_app in Hnd. simpl in Hnd.
  apply NoDup_app in Hnd as (_ & Hd & Hnd2). apply NoDup_cons in Hnd2 as [? _].
  apply map_delete_split; [|done]. intros Hin. apply (Hd _ Hin). set_solver.
Qed.
End js_map.

(** JS [Array.prototype.splice(i, 1)] for an index in range, and [indexOf]. *)
Section js_array.
Context {A : Type} `{EqDecision A}.
Implicit Types l : list A.

Fixpoint index_of (x : A) l : option nat :=
  match l with
  | [] => None
  | y :: l' => if decide (x = y) then Some 0 else S <$> index_of x l'
  end.

(** Remove the first occurrence of [x]: [splice(indexOf(x), 1)] when found. *)
Definition splice_first (x : A) l : list A :=
  match index_of x l with Some i => delete i l | None => l end.

Lemma index_of_Some x l i : index_of x l = Some i → l !! i = Some x.
Proof.
  revert i. induction l as [|y l IH]; intros i; simpl; [done|].
  case_decide; intros Hi; simplify_eq/=; [done|].
  apply fmap_Some in Hi as (j & Hj & ->). by apply IH.
Qed.

Lemma index_of_None x l : index_of x l = None ↔ x ∉ l.
Proof.
  induction l as [|y l IH]; simpl; [by split; [intros _; apply not_elem_of_nil|]|].
  rewrite not_elem_of_cons. case_decide; [naive_solver|].
  rewrite fmap_None, IH. naive_solver.
Qed.

Lemma delete_lookup_Permutation l i x : l !! i = Some x → l ≡ₚ x :: delete i l.
Proof. intros H. by apply delete_Permutation. Qed.

Lemma splice_first_Permutation x l : x ∈ l → l ≡ₚ x :: splice_first x l.
Proof.
  unfold splice_first. destruct (index_of x l) as [i|] eqn:Hi.
  - intros _. by apply delete_lookup_Permutation, index_of_Some.
  - by apply index_of_None in Hi.
Qed.

Lemma elem_of_splice_first x y l : y ∈ splice_first x l → y ∈ l.
Proof.
  unfold splice_first. destruct (index_of x l) as [i|] eqn:Hi; [|done].
  apply index_of_Some, delete_lookup_Permutation in Hi. intros ?.
  rewrite Hi. set_solver.
Qed.

Lemma elem_of_splice_first_ne x y l : y ≠ x → y ∈ l → y ∈ splice_first x l.
Proof.
  intros Hne Hy. unfold splice_first. destruct (index_of x l) as [i|] eqn:Hi; [|done].
  apply index_of_Some, delete_lookup_Permutation in Hi. rewrite Hi in Hy. set_solver.
Qed.
End js_array.

(** Removing the entries with the key of position [k] removes exactly position [k]. *)
Lemma filter_key_delete {A B} `{EqDecision B} (f : A → B) (l : list A) k x :
  NoDup (f <$> l) → l !! k = Some x → filter (λ y, f y ≠ f x) l = delete k l.
Proof.
  revert k. induction l as [|y l IH]; intros k Hnd Hk; [done|]. simpl in Hnd.
  apply NoDup_cons in Hnd as [Hy Hnd]. destruct k as [|k]; simplify_eq/=.
  - rewrite filter_cons_False by naive_solver. clear IH Hnd.
    induction l as [|z l IH]; [done|]. simpl in Hy. apply not_elem_of_cons in Hy as [? ?].
    rewrite filter_cons_True by done. f_equal. by apply IH.
  - rewrite filter_cons_True; [f_equal; by apply IH|]. intros E. apply Hy. rewrite E.
    apply list_elem_of_fmap. exists x. split; [done|]. by eapply list_elem_of_lookup_2.
Qed.

Lemma delete_fmap_list {A B} (f : A → B) (l : list A) k : f <$> delete k l = delete k (f <$> l).
Proof. revert k. induction l as [|x l IH]; intros [|k]; simpl; [done..|]. by rewrite IH. Qed.

Lemma NoDup_delete {A} (l : list A) k : NoDup l → NoDup (delete k l).
Proof. intros. eapply sublist_NoDup; [done|apply sublist_delete]. Qed.

(** ** Strings *)

Lemma string_app_length (s t : string) :
  String.length (s +:+ t) = String.length s + String.length t.
Proof. induction s; simpl; auto. Qed.

Lemma string_app_inj_r (s t u : string) : s +:+ u = t +:+ u → s = t.
Proof.
  intros H.
  assert (Hl : String.length s = String.length t).
  { apply (f_equal String.length) in H. rewrite !string_app_length in H. lia. }
  revert t Hl H. induction s as [|a s IH]; intros [|b t] Hl H; simplify_eq/=; try done.
  f_equal. by apply IH.
Qed.

Lemma string_app_cons c (s t : string) : String c s +:+ t = String c (s +:+ t).
Proof. done. Qed.

Lemma string_app_nil (s : string) : "" +:+ s = s.
Proof. done. Qed.

(** Concatenation nests to the right. *)
Lemma string_app_assoc (s t u : string) : (s +:+ t) +:+ u = s +:+ (t +:+ u).
Proof. induction s as [|a s IH]; [done|]. by rewrite !string_app_cons, IH. Qed.

Lemma string_app_empty_r (s : string) : s +:+ "" = s.
Proof. induction s as [|a s IH]; [done|]. by rewrite string_app_cons, IH. Qed.

(** Bring a concatenation of strings into normal form. *)
Ltac sapp :=
  repeat first [rewrite string_app_assoc | rewrite string_app_cons | rewrite string_app_nil].

Lemma alter_insert {A} (f : A → A) i (l : list A) :
  alter f i l = match l !! i with Some x => <[i := f x]> l | None => l end.
Proof.
  revert i. induction l as [|y l IH]; intros [|i]; [done..|].
  change (y :: alter f i l = match l !! i with Some x => y :: <[i := f x]> l | None => y :: l end).
  rewrite IH. by destruct (l !! i).
Qed.

(** ** Lists side by side *)

Lemma Forall2_imap_same {A X Y} (R : X → Y → Prop) (f : nat → A → X) (g : nat → A → Y) l :
  (∀ i x, R (f i x) (g i x)) → Forall2 R (imap f l) (imap g l).
Proof.
  revert f g. induction l as [|x l IH]; intros f g Hfg; [constructor|].
  constructor; [done|]. apply IH. intros. apply Hfg.
Qed.

(** ** Sums and maxima over a list *)

Lemma sum_ext {A} (f g : A → nat) l : (∀ x, x ∈ l → f x = g x) → sum_list_with f l = sum_list_with g l.
Proof.
  intros H. induction l as [|x l IH]; [done|]. simpl. rewrite IH; [|intros; apply H; by right].
  by rewrite H by left.
Qed.

Lemma sum_insert {A} (f : A → nat) (l : list A) i x y :
  l !! i = Some x → sum_list_with f (<[i := y]> l) + f x = sum_list_with f l + f y.
Proof.
  revert i. induction l as [|z l IH]; intros [|i] Hi; simplify_eq/=; [lia|].
  specialize (IH _ Hi). lia.
Qed.

Lemma sum_delete {A} (f : A → nat) (l : list A) i x :
  l !! i = Some x → sum_list_with f (delete i l) + f x = sum_list_with f l.
Proof. intros Hi. rewrite (delete_Permutation _ _ _ Hi) at 2. simpl. lia. Qed.

Definition max_over {A} (f : A → nat) (l : list A) : nat := foldr (λ x, Nat.max (f x)) 0 l.

Lemma max_over_le {A} (f : A → nat) l i x : l !! i = Some x → f x ≤ max_over f l.
Proof.
  unfold max_over. revert i. induction l as [|y l IH]; intros [|i] Hi; simplify_eq/=; [lia|].
  specialize (IH _ Hi). lia.
Qed.
