(* ===== verification/Abstractions.v ===== *)
(** The ports' data types ([typescript/src/abstractions/]): the option records a
    publisher or subscriber passes, the message a handler receives, the declared
    capabilities, and the address conventions every adapter shares.

    A JS optional field is an [option]; JS numbers that carry counts, delays and
    priorities are integers of type [Z]; a handler (a JS function object) is
    represented by its identity, since the code only compares handlers and calls
    them asynchronously. *)

From S2P Require Import Prelude.

Abbreviation Destination := string.

(** Identity of a handler function object. *)
Abbreviation AckHandler := nat.

Inductive TopologyKind := topic | fanout.
#[export] Instance TopologyKind_eq_dec : EqDecision TopologyKind.
Proof. solve_decision. Defined.

Record PublishOptions := {
  po_priority : option Z;
  po_groupId : option string;
  po_dedupId : option string;
  po_replyTo : option string;
  po_correlationId : option string;
  po_ttlMs : option Z;
  po_headers : option (gmap string string)
}.

Record SubscribeOptions := {
  so_kind : option TopologyKind;
  so_routingKey : option string;
  so_subscriberId : option string;
  so_deadLetter : option bool;
  so_maxDeliveries : option Z;
  so_retryDelayMs : option Z;
  so_partitionByGroup : option bool;
  so_singleActiveConsumer : option bool;
  so_streamReplay : option bool;
  so_transient : option bool;
  so_priorityQueue : option bool;
  so_ttlMs : option Z
}.

(** The empty option object [{}]. *)
Definition no_publish_options : PublishOptions := {|
  po_priority := None; po_groupId := None; po_dedupId := None; po_replyTo := None;
  po_correlationId := None; po_ttlMs := None; po_headers := None |}.

Definition no_subscribe_options : SubscribeOptions := {|
  so_kind := None; so_routingKey := None; so_subscriberId := None; so_deadLetter := None;
  so_maxDeliveries := None; so_retryDelayMs := None; so_partitionByGroup := None;
  so_singleActiveConsumer := None; so_streamReplay := None; so_transient := None;
  so_priorityQueue := None; so_ttlMs := None |}.

(** The data fields of [IncomingMessage]; its [ack]/[nack] closures are modelled
    by each adapter. *)
Record IncomingMessage := {
  im_id : string;
  im_destination : Destination;
  im_body : string;
  im_headers : gmap string string;
  im_deliveryCount : option Z;
  im_replyTo : option string;
  im_correlationId : option string;
  im_groupId : option string;
  im_priority : option Z
}.

(** Identity of a scheduler-port handler. *)
Abbreviation MessageHandler := nat.

Record ReceivedMessage := {
  rm_id : string;
  rm_destination : Destination;
  rm_body : string;
  rm_headers : gmap string string
}.

Record ScheduleHandle := {
  sh_id : string;
  sh_destination : Destination;
  sh_deliverAt : Z  (* milliseconds since the epoch *)
}.

Record ScheduledInfo := {
  si_id : string;
  si_destination : Destination;
  si_deliverAt : option Z
}.

Record BusCapabilities := {
  supportsTopic : bool;
  supportsFanout : bool;
  supportsManualAck : bool;
  supportsDeadLetter : bool;
  reportsDeliveryCount : bool;
  supportsDedup : bool;
  supportsStreamReplay : bool;
  supportsMessageGroups : option bool
}.

Record Capabilities := {
  protocol : string;
  nativeScheduling : bool;
  supportsCancel : bool;
  supportsList : bool;
  cap_bus : option BusCapabilities
}.

(** Errors thrown across the ports: the typed contract outcomes, a transient
    fault, and any other error with its message. *)
Inductive Error :=
  | NotSupportedError (operation broker : string) (reason : option string)
  | IdempotencyStoreDownError (store : string) (reason : option string)
  | TransientFault (message : string)
  | OtherError (message : string).

Definition is_NotSupported (e : Error) : bool :=
  match e with NotSupportedError _ _ _ => true | _ => false end.

(** [reason ? `: ${reason}` : '']. *)
Definition reason_suffix (reason : option string) : string :=
  match reason with
  | Some r => if decide (r = "") then "" else ": " +:+ r
  | None => ""
  end.

(** The messages the constructors pass to [super]. *)
Definition not_supported_message (operation broker : string) (reason : option string) : string :=
  "Operation '" +:+ operation +:+ "' is not supported by " +:+ broker +:+ reason_suffix reason.

Definition store_down_message (store : string) (reason : option string) : string :=
  "'" +:+ store +:+ "' Idempotency Store is down or not present" +:+ reason_suffix reason.

(** [(err as Error).message]. *)
Definition error_message (e : Error) : string :=
  match e with
  | NotSupportedError operation broker reason => not_supported_message operation broker reason
  | IdempotencyStoreDownError store reason => store_down_message store reason
  | TransientFault m => m
  | OtherError m => m
  end.

Definition DEFAULT_MAX_DELIVERIES : Z := 3.

Definition deadLetterAddress (t : Destination) : Destination := t +:+ ".dlq".

Definition expiryAddress (t : Destination) : Destination := t +:+ ".expiry".

(** ** Lemmas *)

Lemma deadLetterAddress_ne t : deadLetterAddress t ≠ t.
Proof.
  intros H. apply (f_equal String.length) in H. unfold deadLetterAddress in H.
  rewrite string_app_length in H. simpl in H. lia.
Qed.

Lemma expiryAddress_ne t : expiryAddress t ≠ t.
Proof.
  intros H. apply (f_equal String.length) in H. unfold expiryAddress in H.
  rewrite string_app_length in H. simpl in H. lia.
Qed.

Lemma deadLetterAddress_inj t u : deadLetterAddress t = deadLetterAddress u → t = u.
Proof. apply string_app_inj_r. Qed.

#[export] Hint Resolve deadLetterAddress_ne expiryAddress_ne : bus.
