(* ===== verification/Numbers.v ===== *)
(** The numbers of the command lines: ECMAScript numbers (binary64, the Standard
    Library's [spec_float] at precision 53), their conversion from and to strings, the
    32-bit integer operations, and times of day.

    White space is that of ASCII.  Strings are UTF-8, as in the other files; the code
    units of [charCodeAt] are decoded from them. *)

From stdpp Require Import pretty.
From S2P Require Import Prelude.
From Stdlib Require Import Ascii SpecFloat.

(** ** Binary64 *)

Abbreviation Number := spec_float.

Definition of_Z (n : Z) : Number := binary_normalize 53 1024 n 0 false.

(** The double nearest to [a / b]. *)
Definition of_ratio (a b : positive) : Number :=
  SFdiv 53 1024 (S754_finite false a 0) (S754_finite false b 0).

(** The double nearest to [m * 10 ^ e]. *)
Definition of_decimal (m e : Z) : Number :=
  match m with
  | Z.pos p => if decide (0 ≤ e)%Z then of_Z (m * 10 ^ e) else of_ratio p (Z.to_pos (10 ^ (- e)))
  | _ => S754_zero false
  end.

Definition lt_num (x y : Number) : bool := SFltb x y.
Definition le_num (x y : Number) : bool := SFleb x y.

(** [Math.trunc], as an integer; [None] for NaN and the infinities. *)
Definition trunc (x : Number) : option Z :=
  match x with
  | S754_zero _ => Some 0%Z
  | S754_finite s m e =>
      let v := if decide (0 ≤ e)%Z then (Z.pos m * 2 ^ e)%Z else (Z.pos m / 2 ^ (- e))%Z in
      Some (if s then - v else v)%Z
  | _ => None
  end.

#[export] Instance Number_eq_dec : EqDecision Number.
Proof. solve_decision. Defined.

(** ** From strings *)

Definition is_space (a : ascii) : bool :=
  let n := nat_of_ascii a in bool_decide (n = 32 ∨ (9 ≤ n ∧ n ≤ 13)).

Fixpoint trim_start (s : string) : string :=
  match s with String a s' => if is_space a then trim_start s' else s | "" => "" end.

Fixpoint trim_end (s : string) : string :=
  match s with
  | "" => ""
  | String a s' =>
      let t := trim_end s' in
      if is_space a && bool_decide (t = "") then "" else String a t
  end.

(** [s.trim()]. *)
Definition trim (s : string) : string := trim_end (trim_start s).

(** The value of a digit, below the base. *)
Definition digit_value (base : Z) (a : ascii) : option Z :=
  let n := Z.of_nat (nat_of_ascii a) in
  let v := (if decide (48 ≤ n ≤ 57) then n - 48
            else if decide (97 ≤ n ≤ 122) then n - 87
            else if decide (65 ≤ n ≤ 90) then n - 55 else base)%Z in
  if decide (v < base)%Z then Some v else None.

(** The digits at the front: their value, how many they are, and the rest. *)
Fixpoint take_digits (base acc : Z) (n : nat) (s : string) : Z * nat * string :=
  match s with
  | "" => (acc, n, "")
  | String a s' =>
      match digit_value base a with
      | Some v => take_digits base (acc * base + v) (S n) s'
      | None => (acc, n, s)
      end
  end.

Definition all_digits (base : Z) (s : string) : option Z :=
  match take_digits base 0 0 s with (v, S _, "") => Some v | _ => None end.

(** The exponent part: nothing, or [e], a sign and digits. *)
Definition exponent (s : string) : option Z :=
  match s with
  | "" => Some 0%Z
  | String a s' =>
      if decide (a = "e"%char ∨ a = "E"%char) then
        match s' with
        | String "+" t => all_digits 10 t
        | String "-" t => Z.opp <$> all_digits 10 t
        | _ => all_digits 10 s'
        end
      else None
  end.

(** Digits, a fraction and an exponent. *)
Definition unsigned_decimal (s : string) : Number :=
  let '(v, n, rest) := take_digits 10 0 0 s in
  let '(v, n, fraction, rest) :=
    match rest with
    | String "." t => let '(v', n', t') := take_digits 10 v n t in (v', n', n' - n, t')
    | _ => (v, n, 0, rest)
    end in
  match n, exponent rest with
  | S _, Some e => of_decimal v (e - Z.of_nat fraction)
  | _, _ => S754_nan
  end.

Definition unsigned_number (s : string) : Number :=
  if decide (s = "Infinity") then S754_infinity false else unsigned_decimal s.

Definition of_digits (base : Z) (s : string) : Number :=
  match all_digits base s with Some v => of_Z v | None => S754_nan end.

(** [Number(s)]. *)
Definition to_number (s : string) : Number :=
  match trim s with
  | "" => S754_zero false
  | String "0" (String "x" t) | String "0" (String "X" t) => of_digits 16 t
  | String "0" (String "o" t) | String "0" (String "O" t) => of_digits 8 t
  | String "0" (String "b" t) | String "0" (String "B" t) => of_digits 2 t
  | String "+" t => unsigned_number t
  | String "-" t => SFopp (unsigned_number t)
  | t => unsigned_number t
  end.

(** ** To strings *)

Fixpoint zeros (n : nat) : string := match n with 0 => "" | S n => String "0" (zeros n) end.

(** The least [j] at most [fuel] with [p j]. *)
Fixpoint least (fuel j : nat) (p : nat → bool) : nat :=
  match fuel with 0 => j | S fuel => if p j then j else least fuel (S j) p end.

(** The [n] with [10 ^ (n - 1) <= a / b < 10 ^ n]; a double is below [10 ^ 309] and
    not below [10 ^ -324]. *)
Definition magnitude (a b : Z) : Z :=
  if decide (b ≤ a)%Z then Z.of_nat (least 310 1 (λ j, bool_decide (a < b * 10 ^ Z.of_nat j)%Z))
  else (1 - Z.of_nat (least 330 1 (λ j, bool_decide (b ≤ a * 10 ^ Z.of_nat j)%Z)))%Z.

(** The [k]-digit decimals next to [a / b] that read back as [x], the nearer first. *)
Definition decimals (x : Number) (a b n : Z) (k : nat) : list Z :=
  let p := (Z.of_nat k - n)%Z in
  let a := (a * 10 ^ Z.max p 0)%Z in
  let b := (b * 10 ^ Z.max (- p) 0)%Z in
  let lo := (a / b)%Z in
  let both := if decide (2 * (a - lo * b) ≤ b)%Z then [lo; lo + 1]%Z else [lo + 1; lo]%Z in
  filter (λ s, SFeqb (of_decimal s (- p)) x = true) both.

(** The fewest digits that read back as [x], and the place of the decimal point, which
    moves when the digits round up to a power of ten; seventeen digits always do. *)
Fixpoint shortest (fuel : nat) (x : Number) (a b n : Z) (k : nat) : Z * nat * Z :=
  match fuel with
  | 0 => (0%Z, k, n)
  | S fuel =>
      match decimals x a b n k with
      | s :: _ => if decide (s = 10 ^ Z.of_nat k)%Z then (1%Z, 1, (n + 1)%Z) else (s, k, n)
      | [] => shortest fuel x a b n (S k)
      end
  end.

(** Digits [s] with the decimal point after the [n]-th. *)
Definition layout (s : Z) (k : nat) (n : Z) : string :=
  let digits := pretty s in
  if decide (Z.of_nat k ≤ n ≤ 21)%Z then digits +:+ zeros (Z.to_nat n - k)
  else if decide (0 < n ≤ 21)%Z then
    String.substring 0 (Z.to_nat n) digits +:+ "." +:+ String.substring (Z.to_nat n) k digits
  else if decide (-6 < n ≤ 0)%Z then "0." +:+ zeros (Z.to_nat (- n)) +:+ digits
  else
    String.substring 0 1 digits +:+ (if decide (k = 1) then "" else "." +:+ String.substring 1 k digits) +:+
    "e" +:+ (if decide (n < 1)%Z then "-" else "+") +:+ pretty (Z.abs (n - 1)).

(** [String(x)]. *)
Definition show_number (x : Number) : string :=
  match x with
  | S754_nan => "NaN"
  | S754_zero _ => "0"
  | S754_infinity s => if s then "-Infinity" else "Infinity"
  | S754_finite s m e =>
      let a := (Z.pos m * 2 ^ Z.max e 0)%Z in
      let b := (2 ^ Z.max (- e) 0)%Z in
      let '(d, k, n) := shortest 17 (S754_finite false m e) a b (magnitude a b) 1 in
      (if s then "-" else "") +:+ layout d k n
  end.

(** ** 32-bit integers *)

Definition ushr0 (z : Z) : Z := z mod 2 ^ 32.   (* [z >>> 0] *)

(** ToInt32. *)
Definition to_int32 (z : Z) : Z :=
  let u := (z mod 2 ^ 32)%Z in if decide (u < 2 ^ 31)%Z then u else (u - 2 ^ 32)%Z.

(** [x ^ y] and [Math.imul(x, y)]. *)
Definition xor32 (x y : Z) : Z := Z.lxor (to_int32 x) (to_int32 y).
Definition imul (x y : Z) : Z := to_int32 (to_int32 x * to_int32 y).

(** ** Code units *)

(** The code units of a code point. *)
Definition units_of (c : Z) : list Z :=
  if decide (c < 65536)%Z then [c]
  else [55296 + (c - 65536) / 1024; 56320 + (c - 65536) mod 1024]%Z.

(** The UTF-16 code units of a UTF-8 string; [c] is the code point being decoded and
    [n] how many of its bytes are to come. *)
Fixpoint units_from (c : Z) (n : nat) (s : string) : list Z :=
  match s with
  | "" => []
  | String a s' =>
      let b := Z.of_nat (nat_of_ascii a) in
      match n with
      | S n =>
          let c := (c * 64 + b mod 64)%Z in
          match n with 0 => units_of c ++ units_from 0 0 s' | S _ => units_from c n s' end
      | 0 =>
          if decide (b < 128)%Z then b :: units_from 0 0 s'
          else if decide (b < 224)%Z then units_from (b mod 32) 1 s'
          else if decide (b < 240)%Z then units_from (b mod 16) 2 s'
          else units_from (b mod 8) 3 s'
      end
  end.

Definition code_units (s : string) : list Z := units_from 0 0 s.

(** ** Times of day *)

(** A number in decimal, with at least [w] digits. *)
Definition pad (w : nat) (n : Z) : string :=
  let s := pretty n in zeros (w - String.length s) +:+ s.

(** [new Date(t).toISOString().slice(11, 19)], for the years 0 to 9999. *)
Definition iso_seconds (t : Z) : string :=
  let s := (t / 1000)%Z in
  pad 2 (s / 3600 mod 24) +:+ ":" +:+ pad 2 (s / 60 mod 60) +:+ ":" +:+ pad 2 (s mod 60).

(** [.slice(11, 23)]. *)
Definition iso_time (t : Z) : string := iso_seconds t +:+ "." +:+ pad 3 (t mod 1000).

(** A reader of times: the milliseconds since midnight. *)
Definition read_time (s : string) : option Z :=
  h ← all_digits 10 (String.substring 0 2 s); m ← all_digits 10 (String.substring 3 2 s);
  sec ← all_digits 10 (String.substring 6 2 s); ms ← all_digits 10 (String.substring 9 3 s);
  Some (((h * 60 + m) * 60 + sec) * 1000 + ms)%Z.

Definition MS_PER_DAY : Z := 24 * 60 * 60 * 1000.

(** ** Lemmas: numerals *)

Fixpoint digits_only (s : string) : bool :=
  match s with "" => true | String a s' => bool_decide (is_Some (digit_value 10 a)) && digits_only s' end.

Lemma digit_value_char x : (x < 10)%N → digit_value 10 (pretty_N_char x) = Some (Z.of_N x).
Proof.
  intros Hx. assert (Hin : In x [0;1;2;3;4;5;6;7;8;9]%N) by (simpl; lia).
  simpl in Hin. repeat (destruct Hin as [<-|Hin]; [reflexivity|]). done.
Qed.

Lemma take_digits_go x : ∀ s acc n, ∃ k,
  take_digits 10 acc n (pretty_N_go x s) = take_digits 10 (acc * 10 ^ Z.of_nat k + Z.of_N x) (n + k) s
  ∧ ((0 < x)%N → 0 < k).
Proof.
  induction (N.lt_wf_0 x) as [x _ IH]. intros s acc n.
  assert (x = 0 ∨ 0 < x)%N as [->|Hx] by lia.
  { exists 0. rewrite pretty_N_go_0. split; [f_equal; lia|lia]. }
  rewrite pretty_N_go_step by done.
  destruct (IH (x `div` 10)%N (N.div_lt x 10 Hx eq_refl) (String (pretty_N_char (x `mod` 10)) s) acc n)
    as (k & E & _).
  exists (S k). split; [|lia]. rewrite E. cbn [take_digits].
  rewrite digit_value_char by (apply N.mod_lt; lia). f_equal; [|lia].
  rewrite Nat2Z.inj_succ, Z.pow_succ_r, N2Z.inj_div, N2Z.inj_mod by lia.
  pose proof (Z.div_mod (Z.of_N x) 10). lia.
Qed.

Lemma digits_only_go x : ∀ s, digits_only s = true → digits_only (pretty_N_go x s) = true.
Proof.
  induction (N.lt_wf_0 x) as [x _ IH]. intros s Hs.
  assert (x = 0 ∨ 0 < x)%N as [->|Hx] by lia; [by rewrite pretty_N_go_0|].
  rewrite pretty_N_go_step by done. apply IH; [by apply N.div_lt|]. cbn [digits_only].
  rewrite digit_value_char by (apply N.mod_lt; lia). by rewrite bool_decide_true by by eexists.
Qed.

Lemma digit_chars a : is_Some (digit_value 10 a) → In a (String.list_ascii_of_string "0123456789").
Proof.
  intros Ha. destruct a as [[] [] [] [] [] [] [] []]; simpl; try tauto;
    exfalso; destruct Ha as [x Hx]; vm_compute in Hx; discriminate.
Qed.

Lemma digits_only_trim s : digits_only s = true → trim s = s.
Proof.
  assert (Hsp : ∀ a, is_Some (digit_value 10 a) → is_space a = false).
  { intros a Ha. apply digit_chars in Ha. simpl in Ha. by repeat (destruct Ha as [<-|Ha]; [reflexivity|]). }
  intros Hs. assert (E1 : trim_start s = s).
  { destruct s as [|a s]; [done|]. simpl in *. apply andb_prop in Hs as [Ha _].
    by rewrite Hsp by by apply bool_decide_eq_true in Ha. }
  unfold trim. rewrite E1. clear E1. induction s as [|a s IH]; [done|]. simpl in *.
  apply andb_prop in Hs as [Ha Hs]. rewrite IH by done. by rewrite Hsp by by apply bool_decide_eq_true in Ha.
Qed.

(** A numeral. *)
Lemma to_number_digits s v n :
  digits_only s = true → take_digits 10 0 0 s = (v, S n, "") → (0 ≤ v)%Z → to_number s = of_Z v.
Proof.
  intros Hs Ht Hv. assert (Hu : unsigned_number s = of_Z v).
  { unfold unsigned_number. rewrite decide_False by (intros ->; discriminate).
    unfold unsigned_decimal. rewrite Ht. simpl. unfold of_decimal. destruct v as [|p|p]; [done| |lia].
    simpl. by rewrite Pos.mul_1_r. }
  unfold to_number. rewrite digits_only_trim by done.
  destruct s as [|a s]; [discriminate|]. simpl in Hs. apply andb_prop in Hs as [Ha Hs].
  apply bool_decide_eq_true, digit_chars in Ha. simpl in Ha.
  repeat (destruct Ha as [<-|Ha]; [|]); try done.
  destruct s as [|b s]; [done|]. simpl in Hs. apply andb_prop in Hs as [Hb _].
  apply bool_decide_eq_true, digit_chars in Hb. simpl in Hb.
  by repeat (destruct Hb as [<-|Hb]; [done|]).
Qed.

(** [Number(String(n))] of a natural number. *)
Lemma to_number_pretty n : (0 ≤ n)%Z → to_number (pretty n) = of_Z n.
Proof.
  intros Hn. destruct n as [|p|p]; [reflexivity| |lia].
  change (pretty (Z.pos p)) with (pretty_N_go (N.pos p) "").
  destruct (take_digits_go (N.pos p) "" 0 0) as (k & E & Hk). destruct k as [|k]; [lia|].
  eapply (to_number_digits _ _ k); [by apply digits_only_go| |done]. rewrite E. simpl. do 2 f_equal.
Qed.

(** ** Lemmas: integers as doubles *)

(** The double of an integer, whose mantissa has 53 digits. *)
Definition exactly (n : Z) (x : Number) : Prop :=
  match n with
  | Z.pos _ => ∃ m e, x = S754_finite false m (- e) ∧ (0 ≤ e)%Z ∧ Z.pos m = (n * 2 ^ e)%Z ∧ (2 ^ 52 ≤ Z.pos m < 2 ^ 53)%Z
  | Z0 => x = S754_zero false
  | Z.neg _ => False
  end.

Lemma digits2_bounds p : (2 ^ (Z.pos (digits2_pos p) - 1) ≤ Z.pos p < 2 ^ Z.pos (digits2_pos p))%Z.
Proof.
  induction p as [p IH|p IH|]; [| |done]; cbn [digits2_pos];
    rewrite Pos2Z.inj_succ, (Z.pow_succ_r 2 (Z.pos _)) by lia;
    replace (Z.succ (Z.pos (digits2_pos p)) - 1)%Z with (Z.succ (Z.pos (digits2_pos p) - 1)) by lia;
    rewrite Z.pow_succ_r by lia; lia.
Qed.

Lemma iter_xO m d : Z.pos (Pos.iter xO m d) = (Z.pos m * 2 ^ Z.pos d)%Z.
Proof.
  induction d as [|d IH] using Pos.peano_ind; [simpl; lia|].
  rewrite Pos.iter_succ, Pos2Z.inj_xO, IH, Pos2Z.inj_succ, Z.pow_succ_r by lia. lia.
Qed.

Lemma digits2_iter m d : digits2_pos (Pos.iter xO m d) = (digits2_pos m + d)%positive.
Proof.
  induction d as [|d IH] using Pos.peano_ind; [simpl; lia|].
  rewrite Pos.iter_succ. cbn [digits2_pos]. rewrite IH. lia.
Qed.

Lemma round_exact m e :
  digits2_pos m = 53%positive → (-1074 ≤ e ≤ 0)%Z →
  binary_round_aux 53 1024 false (Z.pos m) e loc_Exact = S754_finite false m e.
Proof.
  intros Hm He. assert (Hs : shr_fexp 53 1024 (Z.pos m) e loc_Exact = ({| shr_m := Z.pos m; shr_r := false; shr_s := false |}, e)).
  { unfold shr_fexp, fexp, emin, Zdigits2. rewrite Hm.
    replace (Z.max (53 + e - 53) (3 - 1024 - 53) - e)%Z with 0%Z by lia. done. }
  unfold binary_round_aux. rewrite Hs. cbn [shr_m loc_of_shr_record round_nearest_even]. rewrite Hs. cbn [shr_m].
  by rewrite (proj2 (Z.leb_le e (1024 - 53))) by lia.
Qed.

Lemma of_Z_exactly n : (0 ≤ n < 2 ^ 53)%Z → exactly n (of_Z n).
Proof.
  intros [H0 Hn]. destruct n as [|p|p]; [done| |lia]. unfold exactly.
  pose proof (digits2_bounds p) as [Hlo Hhi].
  assert (Hd : (Z.pos (digits2_pos p) ≤ 53)%Z).
  { assert (Z.pos (digits2_pos p) - 1 < 53)%Z; [|lia]. apply (Z.pow_lt_mono_r_iff 2); lia. }
  unfold of_Z, binary_normalize, binary_round, fexp, emin.
  replace (Z.max (Z.pos (digits2_pos p) + 0 - 53) (3 - 1024 - 53))%Z with (Z.pos (digits2_pos p) - 53)%Z by lia.
  destruct (decide (Z.pos (digits2_pos p) = 53)%Z) as [E|Hne].
  - rewrite E. simpl. rewrite round_exact by lia.
    exists p, 0%Z. rewrite E in Hlo, Hhi. split_and!; try done; lia.
  - unfold shl_align. destruct (Z.pos (digits2_pos p) - 53 - 0)%Z as [|d|d] eqn:Ed; [lia|lia|].
    replace (Z.pos (digits2_pos p) - 53)%Z with (- Z.pos d)%Z by lia.
    assert (E53 : digits2_pos (Pos.iter xO p d) = 53%positive) by (rewrite digits2_iter; lia).
    pose proof (digits2_bounds (Pos.iter xO p d)) as [Hl Hh]. rewrite E53 in Hl, Hh.
    rewrite round_exact by (try done; lia).
    eexists _, (Z.pos d). split_and!; [done|lia|apply iter_xO|exact Hl|exact Hh].
Qed.

Lemma of_Z_compare a b :
  (0 ≤ a < 2 ^ 53)%Z → (0 ≤ b < 2 ^ 53)%Z → SFcompare (of_Z a) (of_Z b) = Some (a ?= b)%Z.
Proof.
  intros Ha Hb. pose proof (of_Z_exactly a Ha) as Ea. pose proof (of_Z_exactly b Hb) as Eb.
  destruct a as [|p|p]; [| |lia]; destruct b as [|q|q]; try lia; unfold exactly in Ea, Eb.
  - by rewrite Ea.
  - destruct Eb as (m & e & -> & _). by rewrite Ea.
  - destruct Ea as (m & e & -> & _). by rewrite Eb.
  - destruct Ea as (m & e & -> & He & Em & Hm), Eb as (m' & e' & -> & He' & Em' & Hm').
    cbn [SFcompare]. f_equal. symmetry.
    change (Pos.compare_cont Eq m m') with (Z.pos m ?= Z.pos m')%Z.
    destruct (Z.compare_spec (- e) (- e')) as [E|Hlt|Hgt].
    + assert (e' = e) as -> by lia. destruct (Z.compare_spec (Z.pos m) (Z.pos m')) as [E'|E'|E'].
      * apply Z.compare_eq_iff. nia.
      * apply Z.compare_lt_iff. nia.
      * apply Z.compare_gt_iff. nia.
    + apply Z.compare_lt_iff. assert (2 ^ e = 2 ^ e' * 2 ^ (e - e'))%Z as E2 by (rewrite <- Z.pow_add_r; [f_equal; lia|lia|lia]).
      assert (2 ≤ 2 ^ (e - e'))%Z. { change 2%Z with (2 ^ 1)%Z at 1. apply Z.pow_le_mono_r; lia. }
      assert (0 < 2 ^ e')%Z by (apply Z.pow_pos_nonneg; lia). nia.
    + apply Z.compare_gt_iff. assert (2 ^ e' = 2 ^ e * 2 ^ (e' - e))%Z as E2 by (rewrite <- Z.pow_add_r; [f_equal; lia|lia|lia]).
      assert (2 ≤ 2 ^ (e' - e))%Z. { change 2%Z with (2 ^ 1)%Z at 1. apply Z.pow_le_mono_r; lia. }
      assert (0 < 2 ^ e)%Z by (apply Z.pow_pos_nonneg; lia). nia.
Qed.

Lemma lt_of_Z a b : (0 ≤ a < 2 ^ 53)%Z → (0 ≤ b < 2 ^ 53)%Z → lt_num (of_Z a) (of_Z b) = bool_decide (a < b)%Z.
Proof.
  intros Ha Hb. unfold lt_num, SFltb. rewrite of_Z_compare by done.
  destruct (Z.compare_spec a b); symmetry; [apply bool_decide_eq_false|apply bool_decide_eq_true|apply bool_decide_eq_false]; lia.
Qed.

Lemma le_of_Z a b : (0 ≤ a < 2 ^ 53)%Z → (0 ≤ b < 2 ^ 53)%Z → le_num (of_Z a) (of_Z b) = bool_decide (a ≤ b)%Z.
Proof.
  intros Ha Hb. unfold le_num, SFleb. rewrite of_Z_compare by done.
  destruct (Z.compare_spec a b); symmetry; [apply bool_decide_eq_true|apply bool_decide_eq_true|apply bool_decide_eq_false]; lia.
Qed.

(** ** Lemmas: 32-bit integers and code units *)

Lemma to_int32_mod z : (to_int32 z mod 2 ^ 32 = z mod 2 ^ 32)%Z.
Proof.
  unfold to_int32. case_decide; [by rewrite Z.mod_mod|].
  replace (z mod 2 ^ 32 - 2 ^ 32)%Z with (z mod 2 ^ 32 + (-1) * 2 ^ 32)%Z by lia.
  by rewrite Z.mod_add, Z.mod_mod.
Qed.

Lemma to_int32_range z : (- 2 ^ 31 ≤ to_int32 z < 2 ^ 31)%Z.
Proof. unfold to_int32. pose proof (Z.mod_pos_bound z (2 ^ 32)). case_decide; lia. Qed.

Lemma lxor_mod_pow2 a b n : (0 ≤ n → Z.lxor a b mod 2 ^ n = Z.lxor (a mod 2 ^ n) (b mod 2 ^ n))%Z.
Proof.
  intros Hn. apply Z.bits_inj'. intros i Hi. rewrite Z.lxor_spec.
  destruct (decide (i < n)%Z).
  - by rewrite !Z.mod_pow2_bits_low, Z.lxor_spec by lia.
  - by rewrite !Z.mod_pow2_bits_high by lia.
Qed.

Lemma xor32_mod x y : (xor32 x y mod 2 ^ 32 = Z.lxor (x mod 2 ^ 32) (y mod 2 ^ 32))%Z.
Proof. unfold xor32. by rewrite lxor_mod_pow2, !to_int32_mod by lia. Qed.

Lemma imul_mod x y : (imul x y mod 2 ^ 32 = (x mod 2 ^ 32) * (y mod 2 ^ 32) mod 2 ^ 32)%Z.
Proof.
  unfold imul. by rewrite to_int32_mod, Z.mul_mod, !to_int32_mod by lia.
Qed.

(** A code unit has sixteen bits, whatever the bytes. *)
Lemma units_from_bounded s : ∀ c n,
  n ≤ 3 → (0 ≤ c)%Z → (c * 64 ^ Z.of_nat n < 2 ^ 21)%Z → Forall (λ u, 0 ≤ u < 2 ^ 16)%Z (units_from c n s).
Proof.
  assert (Hof : ∀ c, (0 ≤ c < 2 ^ 21)%Z → Forall (λ u, 0 ≤ u < 2 ^ 16)%Z (units_of c)).
  { intros c Hc. unfold units_of. case_decide; [apply Forall_singleton; lia|].
    pose proof (Z.mod_pos_bound (c - 65536) 1024).
    assert ((c - 65536) / 1024 < 2048)%Z by (apply Z.div_lt_upper_bound; lia).
    assert (0 ≤ (c - 65536) / 1024)%Z by (apply Z.div_pos; lia).
    repeat (apply Forall_cons; split); [lia|lia|by apply Forall_nil]. }
  induction s as [|a s IH]; intros c n Hn Hc Hb; [by apply Forall_nil|]. cbn [units_from].
  assert (H0 : (0 ≤ Z.of_nat (nat_of_ascii a))%Z) by lia. revert H0.
  generalize (Z.of_nat (nat_of_ascii a)). intros b H0.
  pose proof (Z.mod_pos_bound b 64). pose proof (Z.mod_pos_bound b 32).
  pose proof (Z.mod_pos_bound b 16). pose proof (Z.mod_pos_bound b 8).
  destruct n as [|[|n]].
  - repeat case_decide; [apply Forall_cons; split; [lia|apply IH; lia]|..]; apply IH; simpl; lia.
  - simpl in Hb. apply Forall_app. split; [apply Hof; lia|apply IH; lia].
  - apply IH; [lia|lia|].
    rewrite (Nat2Z.inj_succ (S n)), Z.pow_succ_r in Hb by lia.
    assert (n = 0 ∨ n = 1) as [-> | ->] by lia; simpl in *; lia.
Qed.

Lemma code_units_bounded s : Forall (λ u, 0 ≤ u < 2 ^ 16)%Z (code_units s).
Proof. apply units_from_bounded; simpl; lia. Qed.

(** ** Lemmas: times *)

Lemma pad_read w n : w = 2 ∨ w = 3 → (0 ≤ n < 10 ^ Z.of_nat w)%Z →
  String.length (pad w n) = w ∧ all_digits 10 (pad w n) = Some n.
Proof.
  intros Hw Hn.
  assert (Hall : ∀ w, w = 2 ∨ w = 3 → forallb (λ i, bool_decide (String.length (pad w (Z.of_nat i)) = w ∧
      all_digits 10 (pad w (Z.of_nat i)) = Some (Z.of_nat i))) (seq 0 (Z.to_nat (10 ^ Z.of_nat w))) = true)
    by (intros ? [ -> | -> ]; vm_compute; reflexivity).
  specialize (Hall w Hw). rewrite forallb_forall in Hall.
  specialize (Hall (Z.to_nat n)). rewrite Z2Nat.id in Hall by lia.
  eapply bool_decide_eq_true, Hall. apply in_seq. lia.
Qed.

(** ** Properties *)

(** times of day read back.  The time the live logs print has twelve characters and is
    that of the instant, to the millisecond, within its day. *)
Theorem iso_time_reads_back (t : Z) : String.length (iso_time t) = 12 ∧ read_time (iso_time t) = Some (t mod MS_PER_DAY)%Z.
Proof.
  unfold iso_time, iso_seconds, read_time.
  pose proof (Z.mod_pos_bound (t / 1000 / 3600) 24) as B1. pose proof (Z.mod_pos_bound (t / 1000 / 60) 60) as B2.
  pose proof (Z.mod_pos_bound (t / 1000) 60) as B3. pose proof (Z.mod_pos_bound t 1000) as B4.
  destruct (pad_read 2 (t / 1000 / 3600 mod 24)) as [L1 R1]; [by left|simpl; lia|].
  destruct (pad_read 2 (t / 1000 / 60 mod 60)) as [L2 R2]; [by left|simpl; lia|].
  destruct (pad_read 2 (t / 1000 mod 60)) as [L3 R3]; [by left|simpl; lia|].
  destruct (pad_read 3 (t mod 1000)) as [L4 R4]; [by right|simpl; lia|].
  revert L1 L2 L3 L4 R1 R2 R3 R4. generalize (pad 2 (t / 1000 / 3600 mod 24)) (pad 2 (t / 1000 / 60 mod 60)) (pad 2 (t / 1000 mod 60)) (pad 3 (t mod 1000)).
  intros [|a [|b [|? ?]]] [|c [|d [|? ?]]] [|e [|f [|? ?]]] [|g [|h [|i [|? ?]]]]; try discriminate.
  intros _ _ _ _ R1 R2 R3 R4. split; [done|].
  cbv [String.append String.substring]. rewrite R1, R2, R3, R4. simpl. f_equal. unfold MS_PER_DAY.
  Z.to_euclidean_division_equations. lia.
Qed.

(** whole numbers survive.  An integer below 2^53 written on a command line is read as
    the double of that value: comparisons of two such doubles are those of the
    integers. *)
Theorem integers_read_exactly (a b : Z) :
  (0 ≤ a < 2 ^ 53)%Z → (0 ≤ b < 2 ^ 53)%Z →
  SFcompare (to_number (pretty a)) (to_number (pretty b)) = Some (a ?= b)%Z.
Proof. intros. rewrite !to_number_pretty by lia. by apply of_Z_compare. Qed.

Lemma integers_read_exactly_witness : SFcompare (to_number (pretty 250%Z)) (to_number (pretty 1000%Z)) = Some Lt.
Proof. apply (integers_read_exactly 250 1000); split; [done|reflexivity|done|reflexivity]. Defined.
