(* ===== verification/Json.v ===== *)
(** The part of the language's [JSON] object the program uses: values,
    [JSON.stringify] of a value without indentation, and [JSON.parse].

    Strings are UTF-8, as in the other files; a surrogate that has no partner, which only
    an escape can write, is kept as its three-byte form.  Numbers are doubles. *)

From S2P Require Import Prelude Numbers.
From Stdlib Require Import Ascii SpecFloat.

Inductive Json :=
  | JNull
  | JBool (b : bool)
  | JNum (x : Number)
  | JStr (s : string)
  | JArr (l : list Json)
  | JObj (fields : list (string * Json)).

(** Induction with the nested lists opened up. *)
Section json_ind.
Context (P : Json → Prop).
Context (Hnull : P JNull) (Hbool : ∀ b, P (JBool b)) (Hnum : ∀ n, P (JNum n)) (Hstr : ∀ s, P (JStr s)).
Context (Harr : ∀ l, Forall P l → P (JArr l)).
Context (Hobj : ∀ fs, Forall (λ f, P f.2) fs → P (JObj fs)).

Fixpoint Json_ind' (v : Json) : P v :=
  match v with
  | JNull => Hnull
  | JBool b => Hbool b
  | JNum n => Hnum n
  | JStr s => Hstr s
  | JArr l =>
      Harr l ((fix go l : Forall P l :=
        match l with [] => Forall_nil_2 _ | x :: l' => Forall_cons_2 _ _ _ (Json_ind' x) (go l') end) l)
  | JObj fs =>
      Hobj fs ((fix go fs : Forall (λ f, P f.2) fs :=
        match fs with
        | [] => Forall_nil_2 _
        | f :: fs' => Forall_cons_2 _ _ _ (Json_ind' f.2) (go fs')
        end) fs)
  end.
End json_ind.

(** ** Characters *)

Definition quote : ascii := ascii_of_nat 34.
Definition backslash : ascii := ascii_of_nat 92.
Definition newline : ascii := ascii_of_nat 10.

Definition code (a : ascii) : nat := nat_of_ascii a.

Definition hex_digit (n : nat) : ascii :=
  if decide (n < 10) then ascii_of_nat (48 + n) else ascii_of_nat (87 + n).

Definition hex_value (a : ascii) : option nat :=
  let c := code a in
  if decide (48 ≤ c ∧ c ≤ 57) then Some (c - 48)
  else if decide (97 ≤ c ∧ c ≤ 102) then Some (c - 87)
  else if decide (65 ≤ c ∧ c ≤ 70) then Some (c - 55)
  else None.

(** The letter of a two-character escape. *)
Definition short_escape (a : ascii) : option ascii :=
  match code a with
  | 8 => Some "b"%char
  | 9 => Some "t"%char
  | 10 => Some "n"%char
  | 12 => Some "f"%char
  | 13 => Some "r"%char
  | 34 => Some quote
  | 92 => Some backslash
  | _ => None
  end.

Definition unescape (a : ascii) : option ascii :=
  match code a with
  | 34 => Some quote
  | 92 => Some backslash
  | 47 => Some "/"%char
  | 98 => Some (ascii_of_nat 8)
  | 102 => Some (ascii_of_nat 12)
  | 110 => Some newline
  | 114 => Some (ascii_of_nat 13)
  | 116 => Some (ascii_of_nat 9)
  | _ => None
  end.

(** *** Code units *)

Definition byte (n : N) : ascii := ascii_of_N n.

(** The UTF-8 text of a code point. *)
Definition utf8 (c : N) : string :=
  if decide (c < 128)%N then String (byte c) ""
  else if decide (c < 2048)%N then String (byte (192 + c / 64)) (String (byte (128 + c mod 64)) "")
  else if decide (c < 65536)%N then
    String (byte (224 + c / 4096)) (String (byte (128 + c / 64 mod 64)) (String (byte (128 + c mod 64)) ""))
  else
    String (byte (240 + c / 262144)) (String (byte (128 + c / 4096 mod 64))
      (String (byte (128 + c / 64 mod 64)) (String (byte (128 + c mod 64)) ""))).

Definition is_high (u : N) : bool := bool_decide (0xD800 ≤ u < 0xDC00)%N.
Definition is_low (u : N) : bool := bool_decide (0xDC00 ≤ u < 0xE000)%N.

(** The code point of a surrogate pair. *)
Definition pair_point (u v : N) : N := (0x10000 + (u - 0xD800) * 1024 + (v - 0xDC00))%N.

(** A string literal is read into bytes and escaped code units. *)
Abbreviation Piece := (ascii + N)%type.

Fixpoint assemble (l : list Piece) : string :=
  match l with
  | [] => ""
  | inl a :: l => String a (assemble l)
  | inr u :: l =>
      if is_high u then
        match l with
        | inr v :: l' => if is_low v then utf8 (pair_point u v) +:+ assemble l' else utf8 u +:+ assemble l
        | _ => utf8 u +:+ assemble l
        end
      else utf8 u +:+ assemble l
  end.

(** The code unit of a surrogate without partner, from its three bytes. *)
Definition surrogate_unit (a b c : ascii) : option nat :=
  if decide (code a = 237 ∧ 160 ≤ code b < 192 ∧ 128 ≤ code c < 192)
  then Some (16 * 16 * 16 * 13 + (code b - 128) * 64 + (code c - 128)) else None.

Fixpoint has_surrogate (s : string) : bool :=
  match s with
  | String a s' =>
      match s' with
      | String b (String c _) => bool_decide (is_Some (surrogate_unit a b c)) || has_surrogate s'
      | _ => false
      end
  | "" => false
  end.

(** ** [JSON.stringify] *)

(** The escape of a code unit. *)
Definition unicode_escape (u : nat) : string :=
  String backslash (String "u" (String (hex_digit (u / 4096 mod 16)) (String (hex_digit (u / 256 mod 16))
    (String (hex_digit (u / 16 mod 16)) (String (hex_digit (u mod 16)) ""))))).

Definition escape_char (a : ascii) : string :=
  match short_escape a with
  | Some e => String backslash (String e "")
  | None =>
      if decide (code a < 32) then unicode_escape (code a) else String a ""
  end.

Fixpoint escape (s : string) : string :=
  match s with
  | "" => ""
  | String a s' =>
      match s' with
      | String b (String c s'') =>
          match surrogate_unit a b c with
          | Some u => unicode_escape u +:+ escape s''
          | None => escape_char a +:+ escape s'
          end
      | _ => escape_char a +:+ escape s'
      end
  end.

Definition stringify_string (s : string) : string := String quote (escape s +:+ String quote "").

(** Texts separated by commas. *)
Fixpoint commas (l : list string) : string :=
  match l with
  | [] => ""
  | [x] => x
  | x :: l' => x +:+ "," +:+ commas l'
  end.

(** A number; the infinities have no literal. *)
Definition stringify_number (x : Number) : string :=
  match x with S754_nan | S754_infinity _ => "null" | _ => show_number x end.

Fixpoint stringify (v : Json) : string :=
  match v with
  | JNull => "null"
  | JBool true => "true"
  | JBool false => "false"
  | JNum x => stringify_number x
  | JStr s => stringify_string s
  | JArr l => "[" +:+ commas (map stringify l) +:+ "]"
  | JObj fs => "{" +:+ commas (map (λ f, stringify_string f.1 +:+ ":" +:+ stringify f.2) fs) +:+ "}"
  end.

(** ** [JSON.parse] *)

Definition is_ws (a : ascii) : bool := bool_decide (code a = 32 ∨ code a = 9 ∨ code a = 10 ∨ code a = 13).

Fixpoint skip_ws (s : string) : string :=
  match s with
  | String a s' => if is_ws a then skip_ws s' else s
  | "" => ""
  end.

Definition hex4 (h1 h2 h3 h4 : ascii) : option N :=
  a ← hex_value h1; b ← hex_value h2; c ← hex_value h3; d ← hex_value h4;
  Some (((N.of_nat a * 16 + N.of_nat b) * 16 + N.of_nat c) * 16 + N.of_nat d)%N.

(** The rest of a string literal after its opening quote. *)
Fixpoint parse_chars (s : string) : option (list Piece * string) :=
  match s with
  | "" => None
  | String a s1 =>
      if decide (a = quote) then Some ([], s1)
      else if decide (a = backslash) then
        match s1 with
        | String e s2 =>
            if decide (e = "u"%char) then
              match s2 with
              | String h1 (String h2 (String h3 (String h4 s3))) =>
                  u ← hex4 h1 h2 h3 h4;
                  '(r, s') ← parse_chars s3; Some (inr u :: r, s')
              | _ => None
              end
            else
              c ← unescape e;
              '(r, s') ← parse_chars s2; Some (inl c :: r, s')
        | "" => None
        end
      else if decide (code a < 32) then None
      else '(r, s') ← parse_chars s1; Some (inl a :: r, s')
  end.

Definition is_digit (a : ascii) : bool := bool_decide (48 ≤ code a ∧ code a ≤ 57).

(** The longest run of digits. *)
Fixpoint digits (s : string) : string * string :=
  match s with
  | String a s' => if is_digit a then let '(d, r) := digits s' in (String a d, r) else ("", s)
  | "" => ("", "")
  end.

Definition starts (a : ascii) (s : string) : option string :=
  match s with String b s' => if decide (a = b) then Some s' else None | "" => None end.

(** An integer part is not empty and has no leading zero. *)
Definition bad_int (d : string) : bool :=
  match d with
  | "" => true
  | String a (String _ _) => bool_decide (a = "0"%char)
  | _ => false
  end.

(** A number literal: sign, integer part, fraction, exponent. *)
Definition parse_number (s : string) : option (string * string) :=
  let '(sign, s) := match starts "-" s with Some s' => ("-", s') | None => ("", s) end in
  let '(int, s) := digits s in
  if bad_int int then None
  else
    r1 ← match starts "." s with
         | Some s' =>
             let '(d, s'') := digits s' in
             if decide (d = "") then None else Some (String "." d, s'')
         | None => Some ("", s)
         end;
    let '(frac, s) := r1 in
    r2 ← match s with
         | String e s' =>
             if decide (e = "e"%char ∨ e = "E"%char) then
               let '(sg, s') :=
                 match starts "+" s', starts "-" s' with
                 | Some s2, _ => ("+", s2)
                 | _, Some s2 => ("-", s2)
                 | _, _ => ("", s')
                 end in
               let '(d, s'') := digits s' in
               if decide (d = "") then None else Some (String e (sg +:+ d), s'')
             else Some ("", s)
         | "" => Some ("", s)
         end;
    let '(exp, s) := r2 in
    Some (sign +:+ int +:+ frac +:+ exp, s).

(** The value of a key that is an array index: decimal, without leading zero, below
    2^32 - 1. *)
Definition array_index (k : string) : option Z :=
  match k with
  | String "0" (String _ _) => None
  | _ => n ← all_digits 10 k; if decide (n < 2 ^ 32 - 1)%Z then Some n else None
  end.

(** Before the first key that is not a smaller index. *)
Fixpoint insert_index (n : Z) (f : string * Json) (fs : list (string * Json)) : list (string * Json) :=
  match fs with
  | g :: fs' =>
      match array_index g.1 with
      | Some n' => if decide (n' < n)%Z then g :: insert_index n f fs' else f :: fs
      | None => f :: fs
      end
  | [] => [f]
  end.

(** The properties of a parsed object: a later duplicate replaces the value, and array
    indices come first, in order. *)
Definition obj_set (fs : list (string * Json)) (k : string) (v : Json) : list (string * Json) :=
  match array_index k with
  | Some n => if map_has fs k then map_set fs k v else insert_index n (k, v) fs
  | None => map_set fs k v
  end.

(** Strip a literal word. *)
Fixpoint strip (w s : string) : option string :=
  match w, s with
  | "", _ => Some s
  | String a w', String b s' => if decide (a = b) then strip w' s' else None
  | _, "" => None
  end.

Fixpoint parse_value (fuel : nat) (s : string) : option (Json * string) :=
  match fuel with
  | 0 => None
  | S fuel =>
      let s := skip_ws s in
      match s with
      | "" => None
      | String a s' =>
          if decide (a = quote) then '(r, s') ← parse_chars s'; Some (JStr (assemble r), s')
          else if decide (a = "["%char) then
            match starts "]" (skip_ws s') with
            | Some s' => Some (JArr [], s')
            | None => '(l, s') ← parse_elems fuel s'; Some (JArr l, s')
            end
          else if decide (a = "{"%char) then
            match starts "}" (skip_ws s') with
            | Some s' => Some (JObj [], s')
            | None => '(fs, s') ← parse_fields fuel [] s'; Some (JObj fs, s')
            end
          else
            match strip "null" s, strip "true" s, strip "false" s with
            | Some s', _, _ => Some (JNull, s')
            | _, Some s', _ => Some (JBool true, s')
            | _, _, Some s' => Some (JBool false, s')
            | _, _, _ => '(n, s') ← parse_number s; Some (JNum (to_number n), s')
            end
      end
  end
with parse_elems (fuel : nat) (s : string) : option (list Json * string) :=
  match fuel with
  | 0 => None
  | S fuel =>
      '(v, s) ← parse_value fuel s;
      let s := skip_ws s in
      match starts "," s, starts "]" s with
      | Some s', _ => '(l, s') ← parse_elems fuel s'; Some (v :: l, s')
      | _, Some s' => Some ([v], s')
      | _, _ => None
      end
  end
with parse_fields (fuel : nat) (acc : list (string * Json)) (s : string) :
    option (list (string * Json) * string) :=
  match fuel with
  | 0 => None
  | S fuel =>
      s ← starts quote (skip_ws s);
      '(k, s) ← parse_chars s;
      s ← starts ":" (skip_ws s);
      '(v, s) ← parse_value fuel s;
      let acc := obj_set acc (assemble k) v in
      let s := skip_ws s in
      match starts "," s, starts "}" s with
      | Some s', _ => parse_fields fuel acc s'
      | _, Some s' => Some (acc, s')
      | _, _ => None
      end
  end.

(** [JSON.parse]; [None] is a thrown SyntaxError.  The fuel is enough ([parse_fuel]). *)
Definition parse (s : string) : option Json :=
  '(v, rest) ← parse_value (2 * String.length s + 2) s;
  if decide (skip_ws rest = "") then Some v else None.

(** A property of an object, as a string. *)
Definition get_field (k : string) (v : Json) : option Json :=
  match v with JObj fs => map_get fs k | _ => None end.

Example parse_demo :
  parse ("{ " +:+ stringify_string "a" +:+ " : [1, -2.5e3, true], " +:+ stringify_string "b" +:+ ":{}}") =
  Some (JObj [("a", JArr [JNum (of_Z 1); JNum (of_Z (-2500)); JBool true]); ("b", JObj [])]).
Proof. vm_compute. reflexivity. Qed.

(** ** The parser consumes its input, so its fuel is enough *)

#[local] Abbreviation slen := String.length.

Lemma skip_ws_length s : slen (skip_ws s) ≤ slen s.
Proof. induction s as [|a s IH]; simpl; [done|]. case_match; simpl; lia. Qed.

Lemma starts_length a s r : starts a s = Some r → slen s = S (slen r).
Proof. destruct s; simpl; [done|]. case_match; naive_solver. Qed.

Lemma strip_length w s r : strip w s = Some r → slen r + slen w = slen s.
Proof.
  revert s. induction w as [|a w IH]; intros [|b s]; simpl; intros E; try (simplify_eq; simpl; lia).
  case_match; [|done]. apply IH in E. lia.
Qed.

Lemma digits_length s : slen (digits s).2 + slen (digits s).1 = slen s.
Proof. induction s as [|a s IH]; simpl; [done|]. case_match; [|simpl; lia]. destruct (digits s). simpl in *. lia. Qed.

Lemma digits_eq_length s d r : digits s = (d, r) → slen r + slen d = slen s.
Proof. intros E. pose proof (digits_length s) as H. by rewrite E in H. Qed.

Lemma parse_chars_length s r s' : parse_chars s = Some (r, s') → slen s' < slen s.
Proof.
  remember (slen s) as n eqn:Hn. revert s r s' Hn.
  induction (lt_wf n) as [n _ IH]; intros s r s' Hn E. destruct s as [|a s1]; [done|].
  assert (Hrec : ∀ t r s', parse_chars t = Some (r, s') → slen t < n → slen s' < n).
  { intros t r0 s0 Et Hlt. pose proof (IH (slen t) Hlt t r0 s0 eq_refl Et). lia. }
  cbn [parse_chars] in E. simpl in Hn.
  repeat (case_match; try done); simplify_option_eq;
    repeat match goal with x : _ * _ |- _ => destruct x end; simplify_eq/=; try lia;
    (eapply Hrec; [eassumption|simpl in *; lia]).
Qed.
#[local] Ltac length_facts :=
  repeat match goal with
    | H : starts _ _ = Some _ |- _ => apply starts_length in H
    | H : strip _ _ = Some _ |- _ => apply strip_length in H; simpl in H
    | H : digits _ = (_, _) |- _ => apply digits_eq_length in H
    | H : parse_chars _ = Some (_, _) |- _ => apply parse_chars_length in H
    end.

Lemma bad_int_length d : bad_int d = false → 0 < slen d.
Proof. destruct d; simpl; [done|lia]. Qed.

Lemma parse_number_length s n r : parse_number s = Some (n, r) → slen r < slen s.
Proof.
  unfold parse_number. intros E.
  destruct (match starts "-" s with Some s' => ("-", s') | None => ("", s) end) as [sign s1] eqn:E1.
  assert (slen s1 ≤ slen s) by (destruct (starts "-" s) eqn:?; simplify_eq; length_facts; lia).
  destruct (digits s1) as [int s2] eqn:E2. apply digits_eq_length in E2.
  destruct (bad_int int) eqn:E3; [done|]. apply bad_int_length in E3.
  apply bind_Some in E as ([frac s3] & E4 & E).
  assert (slen s3 ≤ slen s2).
  { destruct (starts "." s2) as [t|] eqn:Et; [|by simplify_eq].
    destruct (digits t) eqn:Ed. case_decide; simplify_eq. length_facts. lia. }
  apply bind_Some in E as ([ex s4] & E5 & E). simplify_eq.
  assert (slen r ≤ slen s3); [|lia].
  destruct s3 as [|e t]; [by simplify_eq|].
  case_decide; [|by simplify_eq].
  destruct (match starts "+" t, starts "-" t with
            | Some s2, _ => ("+", s2) | _, Some s2 => ("-", s2) | _, _ => ("", t) end) as [sg t'] eqn:Esg.
  assert (slen t' ≤ slen t) by (destruct (starts "+" t) eqn:?, (starts "-" t) eqn:?; simplify_eq; length_facts; lia).
  destruct (digits t') eqn:Ed. case_decide; simplify_eq. length_facts. simpl. lia.
Qed.

(** Every parser of the group consumes input. *)
Lemma parse_shrinks fuel :
  (∀ s v r, parse_value fuel s = Some (v, r) → slen r < slen s) ∧
  (∀ s l r, parse_elems fuel s = Some (l, r) → slen r < slen s) ∧
  (∀ s acc l r, parse_fields fuel acc s = Some (l, r) → slen r < slen s).
Proof.
  induction fuel as [|fuel (IHv & IHe & IHf)]; [done|]. repeat split.
  - intros s v r E. cbn [parse_value] in E. pose proof (skip_ws_length s) as Hs.
    destruct (skip_ws s) as [|a t] eqn:Es; [done|]. pose proof (skip_ws_length t).
    assert (Hlt : slen r < S (slen t)); [|simpl in Hs; lia].
    repeat (case_match; simplify_option_eq; try done);
      repeat match goal with x : _ * _ |- _ => destruct x end; simplify_eq/=;
      repeat match goal with
        | H : parse_elems fuel _ = Some _ |- _ => apply IHe in H
        | H : parse_fields fuel _ _ = Some _ |- _ => apply IHf in H
        | H : parse_number _ = Some _ |- _ => apply parse_number_length in H; simpl in H
        | H : (if _ then strip _ _ else None) = Some _ |- _ => case_match; [|done]
        end; length_facts; lia.
  - intros s l r E. cbn [parse_elems] in E. apply bind_Some in E as ([v t] & Ev & E).
    apply IHv in Ev. pose proof (skip_ws_length t).
    repeat (case_match; simplify_option_eq; try done);
      repeat match goal with x : _ * _ |- _ => destruct x end; simplify_eq/=;
      repeat match goal with H : parse_elems fuel _ = Some _ |- _ => apply IHe in H end;
      length_facts; lia.
  - intros s acc l r E. cbn [parse_fields] in E. pose proof (skip_ws_length s).
    apply bind_Some in E as (t & Et & E). apply bind_Some in E as ([k t2] & Ek & E).
    apply bind_Some in E as (t3 & Et3 & E). apply bind_Some in E as ([v t4] & Ev & E).
    apply IHv in Ev. pose proof (skip_ws_length t2). pose proof (skip_ws_length t4).
    repeat (case_match; simplify_option_eq; try done); simplify_eq/=;
      repeat match goal with H : parse_fields fuel _ _ = Some _ |- _ => apply IHf in H end;
      length_facts; lia.
Qed.

(** Fuel beyond twice the length of the input changes nothing. *)
Lemma parse_fuel_enough f f' :
  (∀ s, 2 * slen s + 1 ≤ f → 2 * slen s + 1 ≤ f' → parse_value f s = parse_value f' s) ∧
  (∀ s, 2 * slen s + 2 ≤ f → 2 * slen s + 2 ≤ f' → parse_elems f s = parse_elems f' s) ∧
  (∀ s acc, 2 * slen s + 2 ≤ f → 2 * slen s + 2 ≤ f' → parse_fields f acc s = parse_fields f' acc s).
Proof.
  revert f'. induction f as [|f IH]; intros [|f']; [split_and!; intros; lia..|].
  destruct (IH f') as (IHv & IHe & IHf). split_and!.
  - intros s Hf Hf'. cbn [parse_value]. pose proof (skip_ws_length s) as Hs.
    destruct (skip_ws s) as [|a t]; [done|]. simpl in Hs.
    by rewrite (IHe t), (IHf t) by lia.
  - intros s Hf Hf'. cbn [parse_elems]. rewrite (IHv s) by lia.
    destruct (parse_value f' s) as [[v t]|] eqn:Ev; [|done]. simpl.
    apply parse_shrinks in Ev. pose proof (skip_ws_length t).
    destruct (starts "," (skip_ws t)) as [t'|] eqn:Et; [|done].
    apply starts_length in Et. by rewrite (IHe t') by lia.
  - intros s acc Hf Hf'. cbn [parse_fields]. pose proof (skip_ws_length s).
    destruct (starts quote (skip_ws s)) as [t|] eqn:Et; [|done]. simpl.
    destruct (parse_chars t) as [[k t2]|] eqn:Ek; [|done]. simpl. pose proof (skip_ws_length t2).
    destruct (starts ":" (skip_ws t2)) as [t3|] eqn:Et3; [|done]. simpl. length_facts.
    rewrite (IHv t3) by lia.
    destruct (parse_value f' t3) as [[v t4]|] eqn:Ev; [|done]. simpl.
    apply parse_shrinks in Ev. pose proof (skip_ws_length t4).
    destruct (starts "," (skip_ws t4)) as [t5|] eqn:Et5; [|done].
    apply starts_length in Et5. by rewrite (IHf t5) by lia.
Qed.

(** A text that [parse] refuses has no reading however much fuel is spent. *)
Lemma parse_fuel s n :
  parse s =
  ('(v, rest) ← parse_value (2 * slen s + 2 + n) s; if decide (skip_ws rest = "") then Some v else None).
Proof.
  unfold parse. by rewrite (proj1 (parse_fuel_enough (2 * slen s + 2) (2 * slen s + 2 + n)) s) by lia.
Qed.
(** ** Round trip *)

(** A key that is no array index, without surrogates that have no partner. *)
Definition simple_key (k : string) : Prop := has_surrogate k = false ∧ array_index k = None.

(** Values without numbers, of texts without lone surrogates, whose objects have no
    repeated key and no array index as key. *)
Inductive plain : Json → Prop :=
  | plain_null : plain JNull
  | plain_bool b : plain (JBool b)
  | plain_str s : has_surrogate s = false → plain (JStr s)
  | plain_arr l : Forall plain l → plain (JArr l)
  | plain_obj fs : NoDup fs.*1 → Forall simple_key fs.*1 → Forall (λ f, plain f.2) fs → plain (JObj fs).

(** Recursion depth the parser needs. *)
Fixpoint need (v : Json) : nat :=
  match v with
  | JArr l => S (list_sum (map (λ x, S (need x)) l))
  | JObj fs => S (list_sum (map (λ f, S (need f.2)) fs))
  | _ => 1
  end.

Lemma parse_escaped_char (a : ascii) :
  ∃ x : Piece, (∀ l, assemble (x :: l) = String a (assemble l)) ∧
    ∀ t, parse_chars (escape_char a +:+ t) = '(r, s') ← parse_chars t; Some (x :: r, s').
Proof.
  exists (if short_escape a is Some _ then inl a else if decide (code a < 32) then inr (N.of_nat (code a)) else inl a).
  destruct a as [[] [] [] [] [] [] [] []]; split; reflexivity.
Qed.

Lemma escape_cons a s :
  has_surrogate (String a s) = false →
  escape (String a s) = escape_char a +:+ escape s ∧ has_surrogate s = false.
Proof.
  cbn [has_surrogate escape]. destruct s as [|b [|c s]]; [done|done|].
  intros [Hs Hr]%orb_false_iff. apply bool_decide_eq_false in Hs.
  destruct (surrogate_unit a b c); [|done]. by destruct Hs.
Qed.

Lemma parse_escaped (s rest : string) :
  has_surrogate s = false →
  ∃ l, parse_chars (escape s +:+ String quote rest) = Some (l, rest) ∧ assemble l = s.
Proof.
  induction s as [|a s IH]; intros Hs; [by exists []|].
  apply escape_cons in Hs as [-> Hs]. destruct (IH Hs) as (l & E & El).
  destruct (parse_escaped_char a) as (x & Hx & Hp). exists (x :: l).
  by rewrite string_app_assoc, Hp, E, Hx, El.
Qed.

Lemma parse_string_value fuel s rest :
  has_surrogate s = false → parse_value (S fuel) (stringify_string s +:+ rest) = Some (JStr s, rest).
Proof.
  intros Hs. destruct (parse_escaped s rest Hs) as (l & E & <-).
  unfold stringify_string. sapp. simpl. by rewrite E.
Qed.

(** What may follow a value inside an array or object. *)
Definition fields_text (fs : list (string * Json)) : list string :=
  map (λ f, stringify_string f.1 +:+ ":" +:+ stringify f.2) fs.

Lemma commas_cons x l rest :
  commas (x :: l) +:+ rest = x +:+ match l with [] => rest | _ => String "," (commas l +:+ rest) end.
Proof. destruct l as [|y l]; [done|]. simpl. by sapp. Qed.

Lemma starts_ne a b s : a ≠ b → starts a (String b s) = None.
Proof. intros H. unfold starts. by rewrite decide_False. Qed.

(** The first character of a printed plain value is not white space and closes nothing. *)
Lemma stringify_first v : plain v →
  ∃ a s, stringify v = String a s ∧ is_ws a = false ∧ a ≠ "]"%char ∧ a ≠ "}"%char.
Proof.
  intros Hv. destruct Hv as [|[]|s _|l _|fs _ _ _]; simpl; unfold stringify_string; sapp;
    eexists _, _; (split; [reflexivity|]); split; [vm_compute; done| |vm_compute; done|..|];
    repeat split; try (vm_compute; done); discriminate.
Qed.

Lemma skip_ws_stringify v rest : plain v → skip_ws (stringify v +:+ rest) = stringify v +:+ rest.
Proof.
  intros Hv. destruct (stringify_first v Hv) as (a & s & -> & Hws & _). sapp. simpl. by rewrite Hws.
Qed.

Lemma starts_stringify b v rest :
  plain v → (b = "]"%char ∨ b = "}"%char) → starts b (stringify v +:+ rest) = None.
Proof.
  intros Hv Hb. destruct (stringify_first v Hv) as (a & s & -> & _ & H1 & H2). sapp.
  apply starts_ne. by destruct Hb as [->| ->].
Qed.

Lemma parse_elems_S fuel s :
  parse_elems (S fuel) s =
  '(v, s) ← parse_value fuel s;
  match starts "," (skip_ws s), starts "]" (skip_ws s) with
  | Some s', _ => '(l, s') ← parse_elems fuel s'; Some (v :: l, s')
  | _, Some s' => Some ([v], s')
  | _, _ => None
  end.
Proof. done. Qed.

(** One field whose key and colon have been read. *)
Lemma parse_fields_S fuel acc k s :
  simple_key k →
  parse_fields (S fuel) acc (stringify_string k +:+ String ":" s) =
  '(v, s) ← parse_value fuel s;
  match starts "," (skip_ws s), starts "}" (skip_ws s) with
  | Some s', _ => parse_fields fuel (map_set acc k v) s'
  | _, Some s' => Some (map_set acc k v, s')
  | _, _ => None
  end.
Proof.
  intros [Hs Hi]. destruct (parse_escaped k (String ":" s) Hs) as (l & E & El).
  unfold stringify_string. sapp. cbn [parse_fields]. simpl starts. cbn [mbind option_bind].
  rewrite E. cbn. rewrite El. unfold obj_set. by rewrite Hi.
Qed.

(** What the induction hypothesis gives for a nested value. *)
Definition parses (v : Json) : Prop :=
  ∀ fuel rest, need v ≤ fuel → parse_value fuel (stringify v +:+ rest) = Some (v, rest).

Lemma parse_elems_stringify l x fuel rest :
  Forall parses (x :: l) → list_sum (map (λ x, S (need x)) (x :: l)) ≤ fuel →
  parse_elems fuel (commas (map stringify (x :: l)) +:+ String "]" rest) = Some (x :: l, rest).
Proof.
  revert x fuel. induction l as [|y l IH]; intros x fuel Hl Hn;
    apply Forall_cons in Hl as [Hx Hl]; destruct fuel as [|fuel]; simpl in Hn; try lia;
    rewrite map_cons, commas_cons, parse_elems_S, Hx by lia; [done|].
  change (parse_elems fuel (commas (map stringify (y :: l)) +:+ String "]" rest)
            ≫= (λ '(l0, s'), Some (x :: l0, s')) = Some (x :: y :: l, rest)).
  by rewrite (IH y fuel Hl) by (simpl in *; lia).
Qed.

Lemma parse_fields_stringify fs f fuel acc rest :
  Forall (λ f, parses f.2) (f :: fs) → Forall simple_key (f :: fs).*1 → NoDup (acc.*1 ++ (f :: fs).*1) →
  list_sum (map (λ f, S (need f.2)) (f :: fs)) ≤ fuel →
  parse_fields fuel acc (commas (fields_text (f :: fs)) +:+ String "}" rest) =
  Some (acc ++ f :: fs, rest).
Proof.
  revert f fuel acc. induction fs as [|g fs IH]; intros [k v] fuel acc Hl Hsk Hnd Hn;
    apply Forall_cons in Hl as [Hx Hl]; rewrite fmap_cons in Hsk; apply Forall_cons in Hsk as [Hs Hsk]; destruct fuel as [|fuel]; simpl in Hn; try lia;
    assert (Hk : k ∉ acc.*1) by
      (intros Hin; apply NoDup_app in Hnd as (_ & Hd & _); apply (Hd _ Hin); left);
    unfold fields_text; rewrite map_cons, commas_cons; simpl fst; simpl snd;
    rewrite !string_app_assoc, string_app_cons, string_app_nil, parse_fields_S, Hx by (simpl in *; done || lia);
    simpl mbind; rewrite map_set_fresh by done; [done|].
  change (parse_fields fuel (acc ++ [(k, v)]) (commas (fields_text (g :: fs)) +:+ String "}" rest) =
    Some (acc ++ (k, v) :: g :: fs, rest)).
  rewrite (IH g fuel); [by rewrite <- app_assoc|done|done| |simpl in *; lia].
  by rewrite fmap_app, <- app_assoc.
Qed.

Lemma parse_value_arr fuel s :
  parse_value (S fuel) (String "[" s) =
  match starts "]" (skip_ws s) with
  | Some s' => Some (JArr [], s')
  | None => '(l, s') ← parse_elems fuel s; Some (JArr l, s')
  end.
Proof. done. Qed.

Lemma parse_value_obj fuel s :
  parse_value (S fuel) (String "{" s) =
  match starts "}" (skip_ws s) with
  | Some s' => Some (JObj [], s')
  | None => '(fs, s') ← parse_fields fuel [] s; Some (JObj fs, s')
  end.
Proof. done. Qed.

Lemma stringify_arr l rest :
  stringify (JArr l) +:+ rest = String "[" (commas (map stringify l) +:+ String "]" rest).
Proof. simpl. by sapp. Qed.

Lemma stringify_obj fs rest :
  stringify (JObj fs) +:+ rest = String "{" (commas (fields_text fs) +:+ String "}" rest).
Proof. simpl. by sapp. Qed.

Lemma parse_value_stringify v : plain v → parses v.
Proof.
  induction v as [|b|n|s|l IH|fs IH] using Json_ind'; intros Hv [|fuel] rest Hn;
    try (simpl in Hn; lia); try (by inversion Hv).
  - by destruct b.
  - inversion Hv; subst. by apply parse_string_value.
  - inversion Hv as [| | |? Hl|]; subst. rewrite stringify_arr, parse_value_arr.
    destruct l as [|x l]; [done|].
    assert (Hx : plain x) by by apply Forall_cons in Hl as [? _].
    pose proof (commas_cons (stringify x) (map stringify l) (String "]" rest)) as Hc.
    change (stringify x :: map stringify l) with (map stringify (x :: l)) in Hc.
    rewrite Hc at 1. rewrite (skip_ws_stringify x _ Hx), (starts_stringify _ x _ Hx) by (by left).
    rewrite parse_elems_stringify; [done| |simpl in *; lia].
    rewrite Forall_forall in IH, Hl |- *. intros y Hy. by apply IH, Hl.
  - inversion Hv as [| | | |? Hnd Hsk Hl]; subst. rewrite stringify_obj, parse_value_obj.
    destruct fs as [|[k x] fs]; [done|].
    pose proof (commas_cons (stringify_string k +:+ ":" +:+ stringify x) (fields_text fs) (String "}" rest)) as Hc.
    change (_ :: fields_text fs) with (fields_text ((k, x) :: fs)) in Hc.
    rewrite Hc at 1. rewrite string_app_assoc.
    change (stringify_string k) with (stringify (JStr k)) at 1.
    assert (Hk : plain (JStr k)).
    { apply plain_str. rewrite fmap_cons in Hsk. by apply Forall_cons in Hsk as [[? _] _]. }
    rewrite (skip_ws_stringify (JStr k)), (starts_stringify _ (JStr k)) by first [by right|exact Hk].
    rewrite parse_fields_stringify; [done| |done|done|simpl in *; lia].
    rewrite Forall_forall in IH, Hl |- *. intros f Hf. by apply IH, Hl.
Qed.

(** The parser's fuel is enough for every printed value. *)
Lemma need_bound v : plain v → S (need v) ≤ 2 * String.length (stringify v).
Proof.
  assert (Hc : ∀ l x, list_sum (map String.length (x :: l)) ≤ String.length (commas (x :: l))).
  { induction l as [|y l IH]; intros x; [simpl; lia|].
    change (commas (x :: y :: l)) with (x +:+ "," +:+ commas (y :: l)).
    rewrite !string_app_length. specialize (IH y). simpl in *. lia. }
  induction v as [|b|n|s|l IH|fs IH] using Json_ind'; intros Hv; try (simpl; lia); try (by inversion Hv).
  - destruct b; simpl; lia.
  - inversion Hv as [| | |? Hl|]; subst. simpl. rewrite !string_app_length. simpl.
    assert (Hs : list_sum (map (λ x, S (need x)) l) ≤ 2 * String.length (commas (map stringify l))).
    { assert (Hs : list_sum (map (λ x, S (need x)) l) ≤ 2 * list_sum (map String.length (map stringify l))).
      { clear Hv. induction l as [|x l IHl]; [simpl; lia|].
        apply Forall_cons in IH as [Hx IH], Hl as [Hxp Hl]. specialize (Hx Hxp). specialize (IHl IH Hl).
        simpl in *. lia. }
      destruct l as [|x l]; [simpl; lia|]. specialize (Hc (map stringify l) (stringify x)).
      simpl map in *. lia. }
    lia.
  - inversion Hv as [| | | |? Hnd _ Hl]; subst. simpl. rewrite !string_app_length. simpl.
    fold (fields_text fs).
    assert (Hs : list_sum (map (λ f, S (need f.2)) fs) ≤ 2 * String.length (commas (fields_text fs))).
    { assert (Hs : list_sum (map (λ f, S (need f.2)) fs) ≤ 2 * list_sum (map String.length (fields_text fs))).
      { clear Hv Hnd. induction fs as [|[k x] fs IHl]; [simpl; lia|].
        apply Forall_cons in IH as [Hx IH], Hl as [Hxp Hl]. specialize (Hx Hxp). specialize (IHl IH Hl).
        simpl in *. rewrite !string_app_length. simpl. lia. }
      destruct fs as [|f fs]; [simpl; lia|]. etrans; [exact Hs|].
      apply Nat.mul_le_mono_l, (Hc (fields_text fs) (stringify_string f.1 +:+ ":" +:+ stringify f.2)). }
    lia.
Qed.

(** [JSON.parse(JSON.stringify(v))] is [v]. *)
Lemma parse_stringify v : plain v → parse (stringify v) = Some v.
Proof.
  intros Hv. unfold parse. pose proof (need_bound v Hv).
  pose proof (parse_value_stringify v Hv (2 * String.length (stringify v) + 2) "" ltac:(lia)) as E.
  rewrite string_app_empty_r in E. by rewrite E.
Qed.

(** ** Printed text holds no line break *)

Fixpoint has_char (c : ascii) (s : string) : bool :=
  match s with
  | "" => false
  | String a s' => bool_decide (a = c) || has_char c s'
  end.

Lemma has_char_app c s t : has_char c (s +:+ t) = has_char c s || has_char c t.
Proof.
  induction s as [|a s IH]; [done|]. rewrite string_app_cons. simpl. by rewrite IH, orb_assoc.
Qed.

Lemma hex_no_newline n : n < 16 → hex_digit n ≠ newline.
Proof.
  intros Hn. do 16 (destruct n as [|n]; [vm_compute; discriminate|]). lia.
Qed.

Lemma unicode_escape_no_newline u : has_char newline (unicode_escape u) = false.
Proof.
  unfold unicode_escape. cbn [has_char]. rewrite !(bool_decide_eq_false_2 (hex_digit _ = newline)); [done|..];
    apply hex_no_newline, Nat.mod_upper_bound; lia.
Qed.

Lemma escape_char_no_newline a : has_char newline (escape_char a) = false.
Proof. by destruct a as [[] [] [] [] [] [] [] []]. Qed.

Lemma escape_no_newline s : has_char newline (escape s) = false.
Proof.
  remember (slen s) as n eqn:Hn. revert s Hn. induction (lt_wf n) as [n _ IH]. intros s ->.
  destruct s as [|a s]; [done|].
  assert (Hs : ∀ t, slen t < slen (String a s) → has_char newline (escape t) = false) by (intros; by eapply IH).
  cbn [escape]. destruct s as [|b [|c s]]; [| |destruct (surrogate_unit a b c)];
    rewrite has_char_app, ?unicode_escape_no_newline, ?escape_char_no_newline, Hs; simpl; try done; lia.
Qed.

Lemma stringify_string_no_newline s : has_char newline (stringify_string s) = false.
Proof.
  unfold stringify_string. simpl. by rewrite has_char_app, escape_no_newline.
Qed.

Lemma digits_no_newline s : digits_only s = true → has_char newline s = false.
Proof.
  induction s as [|a s IH]; [done|]. simpl. intros [Ha Hs]%andb_prop. rewrite IH by done.
  apply bool_decide_eq_true, digit_chars in Ha. simpl in Ha. by repeat (destruct Ha as [<-|Ha]; [done|]).
Qed.

Lemma pretty_no_newline (n : Z) : has_char newline (pretty n) = false.
Proof.
  destruct n as [|p|p]; [done|by apply digits_no_newline, digits_only_go|].
  change (pretty (Z.neg p)) with ("-" +:+ pretty_N_go (N.pos p) "").
  by rewrite has_char_app, (digits_no_newline (pretty_N_go _ _)) by by apply digits_only_go.
Qed.

Lemma zeros_no_newline n : has_char newline (zeros n) = false.
Proof. by induction n. Qed.

Lemma substring_no_newline i n s :
  has_char newline s = false → has_char newline (String.substring i n s) = false.
Proof.
  revert i n. induction s as [|a s IH]; intros [|i] [|n]; try done; simpl; intros [Ha Hs]%orb_false_iff;
    rewrite ?Ha; by apply IH.
Qed.

Lemma layout_no_newline d k n : has_char newline (layout d k n) = false.
Proof.
  unfold layout. repeat case_decide; rewrite ?has_char_app, ?zeros_no_newline, ?pretty_no_newline,
    ?substring_no_newline by apply pretty_no_newline; try done; by repeat case_decide.
Qed.

Lemma stringify_number_no_newline x : has_char newline (stringify_number x) = false.
Proof.
  destruct x as [s|s| |s m e]; try done. unfold stringify_number, show_number.
  destruct (shortest _ _ _ _ _ _) as [[d k] n]. rewrite has_char_app, layout_no_newline. by destruct s.
Qed.

Lemma commas_no_newline l :
  Forall (λ t, has_char newline t = false) l → has_char newline (commas l) = false.
Proof.
  induction l as [|x [|y l] IH]; intros Hl; [done|by apply Forall_cons in Hl as [? _]|].
  apply Forall_cons in Hl as [Hx Hl].
  change (commas (x :: y :: l)) with (x +:+ "," +:+ commas (y :: l)).
  by rewrite !has_char_app, Hx, (IH Hl).
Qed.

Lemma stringify_no_newline v : has_char newline (stringify v) = false.
Proof.
  induction v as [|b|n|s|l IH|fs IH] using Json_ind'.
  - done.
  - by destruct b.
  - apply stringify_number_no_newline.
  - apply stringify_string_no_newline.
  - simpl. rewrite !has_char_app, commas_no_newline; [done|].
    rewrite Forall_forall in IH. apply Forall_forall. intros t (x & -> & Hx)%list_elem_of_fmap. by apply IH.
  - simpl. rewrite !has_char_app, commas_no_newline; [done|].
    rewrite Forall_forall in IH. apply Forall_forall. intros t (f & -> & Hf)%list_elem_of_fmap.
    rewrite !has_char_app, stringify_string_no_newline. simpl. by apply IH.
Qed.
