(* ===== verification/Ports.v ===== *)
(** The two ports every adapter implements ([IMessageScheduler] of
    abstractions/message-scheduler.ts, [IMessageBus] of abstractions/message-bus.ts)
    as type classes over the state [W] of an adapter, the error monad their methods
    run in, and the contract their clients rely on.

    An async method is a state transformer that returns a value or throws: the
    methods of the adapters modelled against these classes do not interleave inside
    one call. *)

From S2P Require Import Prelude Abstractions.

(** ** The effect of a port method *)

Definition M (W A : Type) : Type := W → (Error + A) * W.

#[export] Instance M_ret W : MRet (M W) := λ A a w, (inr a, w).
#[export] Instance M_bind W : MBind (M W) := λ A B k m w,
  match m w with
  | (inr a, w') => k a w'
  | (inl e, w') => (inl e, w')
  end.

Definition throw {W A} (e : Error) : M W A := λ w, (inl e, w).

(** A call that cannot throw. *)
Definition pure_step {W} (f : W → W) : M W unit := λ w, (inr tt, f w).

(** [try { return await m } catch (err) { h(err) }]. *)
Definition try_catch {W A} (m : M W A) (h : Error → M W A) : M W A := λ w,
  match m w with
  | (inr a, w') => (inr a, w')
  | (inl e, w') => h e w'
  end.

(** [try { return await m } finally { await f }]: an error of [f] wins. *)
Definition finally {W A} (m : M W A) (f : M W unit) : M W A := λ w,
  let '(r, w') := m w in
  match f w' with
  | (inr _, w'') => (r, w'')
  | (inl e, w'') => (inl e, w'')
  end.

(** Run a method of a component of the state. *)
Definition lift {W V A} (get : V → W) (put : W → V → V) (m : M W A) : M V A := λ v,
  let '(r, w') := m (get v) in (r, put w' v).

(** ** The ports *)

Class IMessageScheduler (W : Type) := {
  sched_sub : Type;
  sched_name : string;
  sched_capabilities : Capabilities;
  sched_connect : M W unit;
  sched_sendNow : Destination → string → M W unit;
  sched_schedule : Destination → string → Z → M W ScheduleHandle;
  sched_cancel : ScheduleHandle → M W unit;
  sched_listScheduled : Destination → M W (list ScheduledInfo);
  sched_consume : Destination → MessageHandler → M W sched_sub;
  sched_unsubscribe : sched_sub → M W unit;
  sched_dispose : M W unit
}.

Class IMessageBus (W : Type) := {
  bus_sub : Type;
  bus_capabilities : BusCapabilities;
  bus_connectBus : M W unit;
  bus_publish : Destination → string → option string → PublishOptions → M W unit;
  bus_subscribe : Destination → AckHandler → SubscribeOptions → M W bus_sub;
  bus_unsubscribe : bus_sub → M W unit
}.

(** ** The contract

    [cancel] and [listScheduled] throw [NotSupportedError], never silently do
    nothing, when the capabilities say they are unsupported. *)

Definition refuses {W A} (m : M W A) : Prop :=
  ∀ w, ∃ e, (m w).1 = inl e ∧ is_NotSupported e = true.

Class SchedulerContract (W : Type) `{IMessageScheduler W} := {
  contract_cancel : supportsCancel sched_capabilities = false → ∀ h, refuses (sched_cancel h);
  contract_list : supportsList sched_capabilities = false → ∀ d, refuses (sched_listScheduled d)
}.

(** ** Lemmas *)

Create HintDb ports discriminated.
#[export] Hint Constants Opaque : ports.
#[export] Hint Resolve contract_cancel contract_list : ports.

Lemma bind_ret {W A B} (a : A) (k : A → M W B) w : (mret a ≫= k) w = k a w.
Proof. done. Qed.

Lemma bind_throw {W A B} e (k : A → M W B) w : (throw e ≫= k) w = (inl e, w).
Proof. done. Qed.

Lemma bind_inr {W A B} (m : M W A) (k : A → M W B) w a w' :
  m w = (inr a, w') → (m ≫= k) w = k a w'.
Proof. unfold mbind, M_bind. by intros ->. Qed.

Lemma bind_inl {W A B} (m : M W A) (k : A → M W B) w e w' :
  m w = (inl e, w') → (m ≫= k) w = (inl e, w').
Proof. unfold mbind, M_bind. by intros ->. Qed.

Lemma throw_refuses {W A} op broker reason :
  refuses (throw (NotSupportedError op broker reason) : M W A).
Proof. intros w. by eexists. Qed.

Lemma lift_refuses {W V A} get put (m : M W A) :
  refuses m → refuses (lift get put m : M V A).
Proof.
  intros Hm v. destruct (Hm (get v)) as (e & He & Hn). exists e. unfold lift.
  by destruct (m (get v)).
Qed.

#[export] Hint Resolve throw_refuses lift_refuses : ports.

(** A caught error never escapes its handler. *)
Lemma try_catch_total {W A} (m : M W A) h w :
  (∀ e w', is_Some (match (h e w').1 with inr a => Some a | inl _ => None end)) →
  ∃ a w', try_catch m h w = (inr a, w').
Proof.
  intros Hh. unfold try_catch. destruct (m w) as [[e|a] w']; [|by exists a, w'].
  specialize (Hh e w'). destruct (h e w') as [[e'|a'] w'']; [by destruct Hh|by exists a', w''].
Qed.
