(* ===== verification/Client.v ===== *)
(** What the adapters of the remote brokers (adapters/rabbitmq.ts, kafka.ts,
    artemis.ts) share: calls of a broker's client library, the JS values of message
    headers, and the settle-once handles of a delivered message.

    The client libraries and the brokers are not part of the repository.  An adapter
    runs against the class [Client]: whether the library completes or rejects a call,
    given the calls completed before it, and the random ids drawn.  The state of an
    adapter is its own fields and the log of completed calls, so a theorem about the
    log says which calls the adapter makes, in which order, whatever the broker
    answers. *)

From S2P Require Import Prelude Abstractions Ports.
From stdpp Require Import pretty.

(** ** Values of message headers *)

(** A JS value read from a message; every number the adapters read is an integer. *)
Inductive JsVal :=
  | VNull
  | VBool (b : bool)
  | VNum (n : Z)
  | VStr (s : string)
  | VArr (l : list JsVal)
  | VObj (fields : list (string * JsVal)).

(** [String(v)]. *)
Fixpoint js_String (v : JsVal) : string :=
  match v with
  | VNull => "null"
  | VBool b => if b then "true" else "false"
  | VNum n => pretty n
  | VStr s => s
  | VArr l =>
      (fix join (l : list JsVal) : string :=
         match l with
         | [] => ""
         | [x] => match x with VNull => "" | _ => js_String x end
         | x :: l' => match x with VNull => "" | _ => js_String x end +:+ "," +:+ join l'
         end) l
  | VObj _ => "[object Object]"
  end.

(** A non-empty string option: [if (x)] on a [string | undefined]. *)
Definition nonempty (x : option string) : option string :=
  match x with Some "" => None | _ => x end.

(** ** Calls of a client library *)

Class Client (Cmd : Type) := {
  answer : list Cmd → Cmd → option Error;  (* [None]: the call completes *)
  random6 : nat → string                   (* [Math.random().toString(36).slice(2, 8)], n-th draw *)
}.

Record Remote (Cmd S : Type) := {
  re_self : S;          (* the adapter's own fields *)
  re_log : list Cmd;    (* the calls completed so far *)
  re_now : Z;           (* [Date.now()] *)
  re_draws : nat
}.
Arguments re_self {Cmd S}.
Arguments re_log {Cmd S}.
Arguments re_now {Cmd S}.
Arguments re_draws {Cmd S}.

Section calls.
Context {Cmd S : Type} `{Client Cmd}.

Definition push (c : Cmd) (w : Remote Cmd S) : Remote Cmd S := {|
  re_self := re_self w; re_log := re_log w ++ [c]; re_now := re_now w; re_draws := re_draws w |}.

Definition put_self (s : S) (w : Remote Cmd S) : Remote Cmd S := {|
  re_self := s; re_log := re_log w; re_now := re_now w; re_draws := re_draws w |}.

(** [await client.call(...)]. *)
Definition call (c : Cmd) : M (Remote Cmd S) unit := λ w,
  match answer (re_log w) c with
  | Some e => (inl e, w)
  | None => (inr tt, push c w)
  end.

(** Read and write fields of [this]. *)
Definition asks {A} (f : S → A) : M (Remote Cmd S) A := λ w, (inr (f (re_self w)), w).
Definition update (f : S → S) : M (Remote Cmd S) unit := λ w, (inr tt, put_self (f (re_self w)) w).

Definition now : M (Remote Cmd S) Z := λ w, (inr (re_now w), w).

Definition draw : M (Remote Cmd S) string := λ w,
  (inr (random6 (re_draws w)),
   {| re_self := re_self w; re_log := re_log w; re_now := re_now w; re_draws := Datatypes.S (re_draws w) |}).

Definition when {W} (b : bool) (m : M W unit) : M W unit := if b then m else mret tt.
End calls.

(** ** Settling a delivered message once *)

Inductive Settlement := Ack | Nack (requeue : bool).

(** What a handler does with one message: await [ack]/[nack] calls, continuing with
    the error a call throws if any, then return or throw. *)
Inductive HandlerRun :=
  | Returns
  | Throws (e : Error)
  | Settles (s : Settlement) (k : option Error → HandlerRun).

Section settling.
Context {W : Type} (act : Settlement → M W unit).

(** The [settled] flag of a message and the adapter's state. *)
Definition settle_call (s : Settlement) : M (bool * W) unit := λ sw,
  if sw.1 then (inr tt, sw)
  else let '(r, w) := act s sw.2 in (r, (true, w)).

Fixpoint run_handler (h : HandlerRun) : M (bool * W) unit := λ sw,
  match h with
  | Returns => (inr tt, sw)
  | Throws e => (inl e, sw)
  | Settles s k =>
      let '(r, sw) := settle_call s sw in
      run_handler (k (match r with inl e => Some e | inr _ => None end)) sw
  end.

(** [try { await handler(m) } catch { try { await m.nack(true) } catch {} }]. *)
Definition deliver_isolated (h : HandlerRun) : M (bool * W) unit :=
  try_catch (run_handler h) (λ _, try_catch (settle_call (Nack true)) (λ _, mret tt)).

(** The settlement a run of the handler amounts to. *)
Definition first_settlement (h : HandlerRun) : option Settlement :=
  match h with
  | Returns => None
  | Throws _ => Some (Nack true)
  | Settles s _ => Some s
  end.

Lemma settle_call_settled s w : settle_call s (true, w) = (inr tt, (true, w)).
Proof. done. Qed.

Lemma run_handler_settled h w : (run_handler h (true, w)).2 = (true, w).
Proof. induction h as [| |s k IH]; [done..|]. simpl. apply IH. Qed.

Lemma settle_call_fresh s w :
  settle_call s (false, w) = ((act s w).1, (true, (act s w).2)).
Proof. unfold settle_call. simpl. by destruct (act s w). Qed.

(** The delivery wrapper never throws, and the state it leaves is that of exactly one
    settlement: the handler's first, or a requeue when it throws without one. *)
Lemma deliver_isolated_eq h w :
  deliver_isolated h (false, w) =
  (inr tt, match first_settlement h with
           | Some s => (true, (act s w).2)
           | None => (false, w)
           end).
Proof.
  unfold deliver_isolated, try_catch. destruct h as [|e|s k]; [done| |].
  - cbn [run_handler first_settlement]. rewrite settle_call_fresh. simpl. by destruct (act (Nack true) w) as [[?|[]] ?].
  - cbn [run_handler first_settlement]. rewrite settle_call_fresh. simpl.
    set (h := k _). pose proof (run_handler_settled h (act s w).2) as Hs.
    by destruct (run_handler h _) as [[e|[]] sw]; simpl in Hs; subst sw.
Qed.
End settling.

(** What a delivery callback owes its consumer (S20): whatever the handler does, the
    callback returns, what it does to the broker is the handler's first settlement, or
    a requeue when it throws without one, and a settlement settles at most once. *)
Record isolated {Cmd S} (callback : HandlerRun → M (Remote Cmd S) unit)
    (settle : Settlement → M (Remote Cmd S) unit) (settles : Cmd → bool) : Prop := {
  iso_outcome : ∀ run w,
    callback run w = (inr tt, match first_settlement run with Some s => (settle s w).2 | None => w end);
  iso_once : ∀ s w, ∃ calls, re_log (settle s w).2 = re_log w ++ calls ∧
    length (filter (λ c, settles c = true) calls) ≤ 1
}.

(** One call settles at most once. *)
Lemma call_settles_once {Cmd S} `{Client Cmd} (settles : Cmd → bool) (c : Cmd) (w : Remote Cmd S) :
  ∃ calls, re_log (call c w).2 = re_log w ++ calls ∧ length (filter (λ c, settles c = true) calls) ≤ 1.
Proof.
  unfold call. destruct (answer _ c); [exists []|exists [c]]; simpl; rewrite ?app_nil_r; (split; [done|]); [simpl; lia|].
  rewrite filter_cons, filter_nil. case_decide; simpl; lia.
Qed.

(** ** Reasoning about the log

    [triple P m Q R]: from a state satisfying [P], [m] returns in a state satisfying
    [Q], or throws in a state satisfying [R]. *)

Definition triple {W A} (P : W → Prop) (m : M W A) (Q : A → W → Prop) (R : W → Prop) : Prop :=
  ∀ w, P w → match m w with (inr a, w') => Q a w' | (inl _, w') => R w' end.

(** [m] keeps [I], whether it returns or throws. *)
Definition keeps {W A} (I : W → Prop) (m : M W A) : Prop := triple I m (λ _, I) I.

Section triples.
Context {Cmd S : Type} `{Client Cmd}.
Implicit Types I : Remote Cmd S → Prop.

Lemma triple_ret {W A} (a : A) (Q : A → W → Prop) R : triple (Q a) (mret a) Q R.
Proof. by intros w Hw. Qed.

Lemma triple_throw {W A} e (Q : A → W → Prop) R : triple R (throw e) Q R.
Proof. by intros w Hw. Qed.

Lemma triple_bind {W A B} P (m : M W A) (k : A → M W B) Q' Q R :
  triple P m Q' R → (∀ a, triple (Q' a) (k a) Q R) → triple P (m ≫= k) Q R.
Proof.
  intros Hm Hk w Hw. specialize (Hm w Hw). unfold mbind, M_bind.
  destruct (m w) as [[e|a] w']; [done|]. by apply Hk.
Qed.

Lemma triple_conseq {W A} (P P' : W → Prop) (m : M W A) (Q Q' : A → W → Prop) (R R' : W → Prop) :
  triple P' m Q' R' → (∀ w, P w → P' w) → (∀ a w, Q' a w → Q a w) → (∀ w, R' w → R w) →
  triple P m Q R.
Proof.
  intros Hm HP HQ HR w Hw. specialize (Hm w (HP w Hw)). destruct (m w) as [[e|a] w']; auto.
Qed.

Lemma triple_post {W A} (P : W → Prop) (m : M W A) (Q Q' : A → W → Prop) R :
  triple P m Q R → (∀ a w, Q a w → Q' a w) → triple P m Q' R.
Proof. intros Hm HQ w Hw. specialize (Hm w Hw). destruct (m w) as [[e|a] w']; auto. Qed.

Lemma triple_call (c : Cmd) (P : Remote Cmd S → Prop) (Q : unit → Remote Cmd S → Prop) R :
  (∀ w, P w → answer (re_log w) c = None → Q tt (push c w)) → (∀ w, P w → R w) →
  triple P (call c) Q R.
Proof. intros HQ HR w Hw. unfold call. destruct (answer (re_log w) c) eqn:E; auto. Qed.

Lemma triple_asks {A} (f : S → A) (P : Remote Cmd S → Prop) (Q : A → Remote Cmd S → Prop) R :
  (∀ w, P w → Q (f (re_self w)) w) → triple P (asks f) Q R.
Proof. intros HQ w Hw. by apply HQ. Qed.

Lemma triple_update (f : S → S) (P : Remote Cmd S → Prop) (Q : unit → Remote Cmd S → Prop) R :
  (∀ w, P w → Q tt (put_self (f (re_self w)) w)) → triple P (update f) Q R.
Proof. intros HQ w Hw. by apply HQ. Qed.

Lemma triple_if {W A} (b : bool) P (m1 m2 : M W A) Q R :
  (b = true → triple P m1 Q R) → (b = false → triple P m2 Q R) →
  triple P (if b then m1 else m2) Q R.
Proof. destruct b; auto. Qed.

Lemma triple_try {W A} P (m : M W A) h Q R R' :
  triple P m Q R' → (∀ e, triple R' (h e) Q R) → triple P (try_catch m h) Q R.
Proof.
  intros Hm Hh w Hw. specialize (Hm w Hw). unfold try_catch.
  destruct (m w) as [[e|a] w']; [|done]. by apply Hh.
Qed.
End triples.
