(* ===== verification/TopicMatch.v ===== *)
(** Topic matching ([topicMatch]/[match] of adapters/in-memory-bus.ts): the
    RabbitMQ-style wildcard match of a routing-key pattern against a published
    key.  The recursive matcher is related to a declarative reading of patterns:
    the key's words split into one segment per pattern word. *)

From S2P Require Import Prelude.
From Stdlib Require Import Ascii.

(** ** Definitions *)

(** JS [s.split(c)] for a one-character separator: never the empty array. *)
Fixpoint split_on (c : ascii) (s : string) : list string :=
  match s with
  | EmptyString => [""]
  | String a s' =>
      if decide (a = c) then "" :: split_on c s'
      else match split_on c s' with
           | w :: ws => String a w :: ws
           | [] => [String a ""]
           end
  end.

(** [ws.join(c)] for a one-character separator. *)
Fixpoint join_with (c : ascii) (ws : list string) : string :=
  match ws with
  | [] => ""
  | [w] => w
  | w :: ws' => w +:+ String c (join_with c ws')
  end.

Definition dot : ascii := "."%char.

(** The matcher on the words from [pi] of the pattern and from [ki] of the key;
    the inner loop tries every split point [n = ki, ..., k.length] for ['#']. *)
Fixpoint match_ (p k : list string) : bool :=
  match p with
  | [] => match k with [] => true | _ :: _ => false end
  | w :: p' =>
      if decide (w = "#") then
        (fix consume (k : list string) : bool :=
           if match_ p' k then true
           else match k with [] => false | _ :: k' => consume k' end) k
      else
        match k with
        | [] => false
        | x :: k' => if decide (w = "*" ∨ w = x) then match_ p' k' else false
        end
  end.

Definition topicMatch (pattern key : string) : bool :=
  match_ (split_on dot pattern) (split_on dot key).

(** ** The declarative reading of a pattern *)

(** The key words one pattern word stands for. *)
Definition segment_ok (w : string) (seg : list string) : Prop :=
  if decide (w = "#") then True
  else if decide (w = "*") then length seg = 1
  else seg = [w].

Definition pattern_matches (p k : list string) : Prop :=
  ∃ segs, k = concat segs ∧ Forall2 segment_ok p segs.

(** Words that are not wildcards. *)
Definition plain_word (w : string) : Prop := w ≠ "#" ∧ w ≠ "*".

(** A pattern none of whose words is a wildcard. *)
Definition plain_key (s : string) : Prop := Forall plain_word (split_on dot s).

(** ** Splitting and joining *)

Lemma split_on_not_nil c s : split_on c s ≠ [].
Proof. destruct s as [|a s]; simpl; case_all. Qed.

Lemma join_cons c w ws : ws ≠ [] → join_with c (w :: ws) = w +:+ String c (join_with c ws).
Proof. by destruct ws. Qed.

Lemma join_split c s : join_with c (split_on c s) = s.
Proof.
  induction s as [|a s IH]; [done|]. simpl.
  pose proof (split_on_not_nil c s) as Hne. case_decide; subst.
  - by rewrite join_cons, IH.
  - destruct (split_on c s) as [|w ws]; [done|].
    destruct ws; simpl in *; by rewrite <- IH.
Qed.

Lemma split_on_inj c s t : split_on c s = split_on c t → s = t.
Proof. intros H. by rewrite <- (join_split c s), <- (join_split c t), H. Qed.

(** Splitting after a separator-free prefix. *)
Lemma split_on_app c s t :
  Forall (λ a, a ≠ c) (String.list_ascii_of_string s) →
  split_on c (s +:+ String c t) = s :: split_on c t.
Proof.
  induction s as [|a s IH]; simpl; intros Hs.
  - by rewrite decide_True.
  - apply Forall_cons in Hs as [Ha Hs]. rewrite decide_False by done.
    by rewrite IH.
Qed.

(** ** The matcher decides the declarative reading *)

Lemma match_hash p k :
  match_ ("#" :: p) k = true ↔ ∃ k1 k2, k = k1 ++ k2 ∧ match_ p k2 = true.
Proof.
  simpl. split.
  - induction k as [|x k IH].
    + case_match; [|done]. intros _. by exists [], [].
    + case_match; [intros _; by exists [], (x :: k)|].
      intros (k1 & k2 & -> & ?)%IH. by exists (x :: k1), k2.
  - intros (k1 & k2 & -> & Hm). induction k1 as [|x k1 IH]; simpl.
    + destruct k2; by rewrite Hm.
    + by case_match.
Qed.

Lemma match_plain w p x k :
  w ≠ "#" → match_ (w :: p) (x :: k) = true ↔ (w = "*" ∨ w = x) ∧ match_ p k = true.
Proof. intros Hw. simpl. rewrite (decide_False (P := w = "#")) by done. case_all; naive_solver. Qed.

Lemma match_plain_nil w p : w ≠ "#" → match_ (w :: p) [] = false.
Proof. intros Hw. simpl. by rewrite decide_False. Qed.

Lemma segment_word w seg :
  w ≠ "#" → segment_ok w seg ↔ ∃ x, seg = [x] ∧ (w = "*" ∨ w = x).
Proof.
  intros Hw. unfold segment_ok. rewrite (decide_False (P := w = "#")) by done.
  case_decide as Hs.
  - split; [|naive_solver]. destruct seg as [|x [|]]; naive_solver.
  - naive_solver.
Qed.

Lemma pattern_matches_cons w p k :
  pattern_matches (w :: p) k ↔
  ∃ seg k', k = seg ++ k' ∧ segment_ok w seg ∧ pattern_matches p k'.
Proof.
  split.
  - intros (segs & -> & HF). apply Forall2_cons_inv_l in HF as (seg & segs' & ? & ? & ->).
    exists seg, (concat segs'). by repeat split; [..|exists segs'].
  - intros (seg & k' & -> & ? & segs & -> & ?). exists (seg :: segs). by repeat constructor.
Qed.

Lemma match_correct p k : match_ p k = true ↔ pattern_matches p k.
Proof.
  revert k. induction p as [|w p IH]; intros k.
  - split.
    + destruct k; [|done]. intros _. exists []. by repeat constructor.
    + intros (segs & -> & HF). by apply Forall2_nil_inv_l in HF as ->.
  - rewrite pattern_matches_cons. destruct (decide (w = "#")) as [->|Hw].
    + rewrite match_hash. setoid_rewrite IH. unfold segment_ok. simpl. naive_solver.
    + destruct k as [|x k].
      * rewrite match_plain_nil by done. split; [done|].
        intros (seg & k' & Heq & Hs & _). apply segment_word in Hs as (y & -> & _); done.
      * rewrite match_plain, IH by done. setoid_rewrite (segment_word w) at 1; [|done].
        split; [|naive_solver]. intros [? ?]. exists [x], k. naive_solver.
Qed.

(** Without wildcards a pattern matches the equal key only. *)
Lemma match_plain_eq p k : Forall plain_word p → match_ p k = true ↔ p = k.
Proof.
  revert k. induction p as [|w p IH]; intros k Hp; [by destruct k|].
  apply Forall_cons in Hp as [[Hh Hs] Hp]. destruct k as [|x k].
  - by rewrite match_plain_nil.
  - rewrite match_plain, IH by done. naive_solver.
Qed.

Lemma match_refl p : match_ p p = true.
Proof.
  induction p as [|w p IH]; [done|]. destruct (decide (w = "#")) as [->|Hw].
  - apply match_hash. exists ["#"], p. done.
  - apply match_plain; naive_solver.
Qed.

(** ** Properties *)

(** C22: [topicMatch] decides the documented wildcard semantics: the pattern
    matches exactly when the key's dot-separated words can be cut into one segment
    per pattern word, where ['*'] takes one word, ['#'] any number (zero included)
    and every other word itself.  In particular it terminates on every input. *)
Theorem topicMatch_correct (pattern key : string) :
  topicMatch pattern key = true ↔
  pattern_matches (split_on dot pattern) (split_on dot key).
Proof. apply match_correct. Qed.

(** a wildcard-free pattern matches the identical key and no other. *)
Theorem topicMatch_exact (pattern key : string) :
  plain_key pattern → topicMatch pattern key = true ↔ pattern = key.
Proof.
  intros Hp. unfold topicMatch. rewrite match_plain_eq by done.
  split; [apply split_on_inj|by intros ->].
Qed.

Lemma topicMatch_exact_witness :
  plain_key "order.created" ∧
  (topicMatch "order.created" "order.created" = true ↔ "order.created" = "order.created").
Proof.
  assert (H : plain_key "order.created") by (vm_compute; repeat constructor; done).
  split; [exact H|]. apply (topicMatch_exact "order.created" "order.created" H).
Defined.

(** The repository's own unit tests (test/bus.test.ts). *)
Example topicMatch_tests :
  topicMatch "order.*" "order.created" = true ∧
  topicMatch "order.*" "order.created.eu" = false ∧
  topicMatch "order.#" "order.created.eu" = true ∧
  topicMatch "order.#" "order" = true ∧
  topicMatch "order.created" "order.shipped" = false.
Proof. vm_compute. done. Qed.
