(* ===== verification/BusQueue.v ===== *)
(** One logical subscriber queue of the in-memory bus ([class BusQueue] of
    adapters/in-memory-bus.ts): its state, the consumer and message selection
    methods, and their correctness.

    Message objects are shared by reference in the source (a message sits in
    [pending], is a key of the [inflight] map, and is captured by timers and by the
    handle given to the handler), so they live in a heap, and a queue holds
    references.  A handler is its identity. *)

From S2P Require Import Prelude Abstractions TopicMatch.

(** ** Data *)

Abbreviation MsgRef := nat.

Record BusMessage := {
  bm_id : string;
  bm_topic : Destination;
  bm_body : string;
  bm_routingKey : string;
  bm_deliveryCount : Z;
  bm_priority : option Z;
  bm_groupId : option string;
  bm_dedupId : option string;
  bm_replyTo : option string;
  bm_correlationId : option string;
  bm_ttlMs : option Z;
  bm_headers : option (gmap string string)
}.

(** The heap of message objects; a reference is an index. *)
Abbreviation Heap := (list BusMessage).

(** The constructor's [readonly] parameters. *)
Record QueueConfig := {
  qc_topic : Destination;
  qc_kind : TopologyKind;
  qc_routingKey : option string;
  qc_maxDeliveries : Z;
  qc_deadLetter : bool;
  qc_retryDelayMs : option Z;
  qc_partitionByGroup : bool;
  qc_singleActiveConsumer : bool
}.

Record BusQueue := {
  bq_cfg : QueueConfig;
  bq_pending : list MsgRef;
  bq_inflight : list (MsgRef * AckHandler);
  bq_consumers : list AckHandler;
  bq_rr : nat;
  bq_groupAffinity : list (string * AckHandler)
}.

(** [new BusQueue(...)] with the class's field initialisers. *)
Definition new_BusQueue (cfg : QueueConfig) : BusQueue := {|
  bq_cfg := cfg; bq_pending := []; bq_inflight := []; bq_consumers := [];
  bq_rr := 0; bq_groupAffinity := [] |}.

Definition set_pending (p : list MsgRef) (q : BusQueue) : BusQueue := {|
  bq_cfg := bq_cfg q; bq_pending := p; bq_inflight := bq_inflight q;
  bq_consumers := bq_consumers q; bq_rr := bq_rr q; bq_groupAffinity := bq_groupAffinity q |}.

Definition set_inflight (f : list (MsgRef * AckHandler)) (q : BusQueue) : BusQueue := {|
  bq_cfg := bq_cfg q; bq_pending := bq_pending q; bq_inflight := f;
  bq_consumers := bq_consumers q; bq_rr := bq_rr q; bq_groupAffinity := bq_groupAffinity q |}.

Definition set_consumers (c : list AckHandler) (q : BusQueue) : BusQueue := {|
  bq_cfg := bq_cfg q; bq_pending := bq_pending q; bq_inflight := bq_inflight q;
  bq_consumers := c; bq_rr := bq_rr q; bq_groupAffinity := bq_groupAffinity q |}.

Definition set_rr (r : nat) (q : BusQueue) : BusQueue := {|
  bq_cfg := bq_cfg q; bq_pending := bq_pending q; bq_inflight := bq_inflight q;
  bq_consumers := bq_consumers q; bq_rr := r; bq_groupAffinity := bq_groupAffinity q |}.

Definition set_affinity (a : list (string * AckHandler)) (q : BusQueue) : BusQueue := {|
  bq_cfg := bq_cfg q; bq_pending := bq_pending q; bq_inflight := bq_inflight q;
  bq_consumers := bq_consumers q; bq_rr := bq_rr q; bq_groupAffinity := a |}.

(** ** Methods *)

(** [matches]: does a published routing key reach this queue?  An absent or empty
    (falsy) filter is an unfiltered topic subscriber. *)
Definition matches (cfg : QueueConfig) (messageKey : string) : bool :=
  match qc_kind cfg with
  | fanout => true
  | topic =>
      match qc_routingKey cfg with
      | None => true
      | Some rk => if decide (rk = "") then true else topicMatch rk messageKey
      end
  end.

(** [new Set(this.inflight.values())]. *)
Definition busy (q : BusQueue) : list AckHandler := (bq_inflight q).*2.

(** The round-robin loop: at most [n] attempts, each advancing [rr]. *)
Fixpoint scanFree (consumers busy : list AckHandler) (n rr : nat) : option AckHandler * nat :=
  match n with
  | 0 => (None, rr)
  | S n' =>
      match consumers !! (rr mod length consumers) with
      | Some c =>
          if decide (c ∈ busy) then scanFree consumers busy n' (S rr)
          else (Some c, S rr)
      | None => (None, rr)
      end
  end.

Definition pickFreeConsumer (busyset : list AckHandler) (q : BusQueue) :
    option AckHandler * BusQueue :=
  let '(c, rr) := scanFree (bq_consumers q) busyset (length (bq_consumers q)) (bq_rr q) in
  (c, set_rr rr q).

Definition nextConsumer (q : BusQueue) : option AckHandler * BusQueue :=
  match bq_consumers q with
  | [] => (None, q)
  | active :: _ =>
      if qc_singleActiveConsumer (bq_cfg q) then
        (if decide (length (bq_inflight q) = 0) then Some active else None, q)
      else
        let '(c, rr) :=
          scanFree (bq_consumers q) (busy q) (length (bq_consumers q)) (bq_rr q) in
        (c, set_rr rr q)
  end.

(** [message.priority ?? 0]. *)
Definition prio (h : Heap) (m : MsgRef) : Z := default 0%Z (h !! m ≫= bm_priority).

(** [message.groupId ?? '']. *)
Definition group_of (h : Heap) (m : MsgRef) : string := default "" (h !! m ≫= bm_groupId).

(** The scan for the best index, from index [i] with the current best. *)
Fixpoint bestIndex (h : Heap) (rest : list MsgRef) (i best : nat) (bestp : Z) : nat :=
  match rest with
  | [] => best
  | m :: rest' =>
      if decide (prio h m > bestp)%Z then bestIndex h rest' (S i) i (prio h m)
      else bestIndex h rest' (S i) best bestp
  end.

Definition nextPending (h : Heap) (q : BusQueue) : option MsgRef * BusQueue :=
  match bq_pending q with
  | [] => (None, q)
  | m0 :: rest =>
      let best := bestIndex h rest 1 0 (prio h m0) in
      (bq_pending q !! best, set_pending (delete best (bq_pending q)) q)
  end.

(** The scan of [nextGroupDelivery] over [pending] from index [i]. *)
Fixpoint groupScan (h : Heap) (busyset : list AckHandler) (rest : list MsgRef) (i : nat)
    (q : BusQueue) : option (MsgRef * AckHandler) * BusQueue :=
  match rest with
  | [] => (None, q)
  | msg :: rest' =>
      let group := group_of h msg in
      let owner := map_get (bq_groupAffinity q) group in
      let '(owner, q) :=
        match owner with
        | Some o =>
            if decide (o ∈ bq_consumers q) then (Some o, q)
            else (None, set_affinity (map_delete (bq_groupAffinity q) group) q)
        | None => (None, q)
        end in
      match owner with
      | Some o =>
          if decide (o ∈ busyset) then groupScan h busyset rest' (S i) q
          else (Some (msg, o), set_pending (delete i (bq_pending q)) q)
      | None =>
          let '(free, q) := pickFreeConsumer busyset q in
          match free with
          | None => groupScan h busyset rest' (S i) q
          | Some c =>
              (Some (msg, c),
               set_pending (delete i (bq_pending q))
                 (set_affinity (map_set (bq_groupAffinity q) group c) q))
          end
      end
  end.

Definition nextGroupDelivery (h : Heap) (q : BusQueue) :
    option (MsgRef * AckHandler) * BusQueue :=
  match bq_consumers q, bq_pending q with
  | [], _ => (None, q)
  | _, [] => (None, q)
  | _, _ => groupScan h (busy q) (bq_pending q) 0 q
  end.

(** ** The round-robin scan *)

(** The consumer the cyclic scan meets [j] steps after [rr]. *)
Definition rr_at (consumers : list AckHandler) (rr j : nat) : option AckHandler :=
  consumers !! ((rr + j) mod length consumers).

(** [c] is the first non-busy consumer of the cyclic order starting at [rr], met
    after [j] busy ones. *)
Definition first_free (consumers busyset : list AckHandler) (rr j : nat) (c : AckHandler) : Prop :=
  rr_at consumers rr j = Some c ∧ (c ∉ busyset) ∧
  ∀ i c', i < j → rr_at consumers rr i = Some c' → c' ∈ busyset.

Section scanFree.
Context (consumers busyset : list AckHandler).
Hypothesis Hne : consumers ≠ [].

Lemma rr_at_Some rr j : is_Some (rr_at consumers rr j).
Proof.
  apply lookup_lt_is_Some, Nat.mod_upper_bound. by destruct consumers.
Qed.

Lemma rr_at_S rr j : rr_at consumers (S rr) j = rr_at consumers rr (S j).
Proof. unfold rr_at. by rewrite Nat.add_succ_r. Qed.

Lemma first_free_S rr j c c0 :
  rr_at consumers rr 0 = Some c0 → c0 ∈ busyset →
  first_free consumers busyset (S rr) j c → first_free consumers busyset rr (S j) c.
Proof.
  intros H0 Hb (Hj & Hc & Hlt). repeat split; [by rewrite <- rr_at_S|done|].
  intros [|i] c' Hi Hat; [naive_solver|].
  apply (Hlt i); [lia|by rewrite rr_at_S].
Qed.

Lemma scanFree_spec n rr :
  match scanFree consumers busyset n rr with
  | (Some c, rr') => ∃ j, j < n ∧ rr' = rr + j + 1 ∧ first_free consumers busyset rr j c
  | (None, rr') =>
      rr' = rr + n ∧ ∀ j c, j < n → rr_at consumers rr j = Some c → c ∈ busyset
  end.
Proof.
  revert rr. induction n as [|n IH]; intros rr; simpl; [split; [lia|intros; lia]|].
  destruct (rr_at_Some rr 0) as [c0 H0]. pose proof H0 as H0'.
  unfold rr_at in H0'. rewrite Nat.add_0_r in H0'. rewrite H0'. case_decide as Hb.
  - specialize (IH (S rr)). destruct (scanFree consumers busyset n (S rr)) as [[c|] rr'].
    + destruct IH as (j & ? & -> & Hf). exists (S j). repeat split; try lia.
      all: eapply first_free_S in Hf; [|done..]; apply Hf.
    + destruct IH as [-> Hall]. split; [lia|]. intros [|j] c Hj Hc; [naive_solver|].
      apply (Hall j); [lia|by rewrite rr_at_S].
  - exists 0. repeat split; [lia..|done|done|intros; lia].
Qed.

(** One full turn meets every consumer. *)
Lemma rr_at_covers rr c :
  c ∈ consumers → ∃ j, j < length consumers ∧ rr_at consumers rr j = Some c.
Proof.
  intros (i & Hi)%list_elem_of_lookup. assert (Hlt : i < length consumers).
  { by eapply lookup_lt_Some. }
  set (n := length consumers) in *.
  exists ((i + (n - rr mod n)) mod n). split; [apply Nat.mod_upper_bound; lia|].
  unfold rr_at. fold n. rewrite <- Hi. f_equal.
  rewrite Nat.Div0.add_mod_idemp_r.
  assert (Hrr : rr = n * (rr / n) + rr mod n) by apply Nat.div_mod_eq.
  pose proof (Nat.mod_upper_bound rr n ltac:(lia)).
  replace (rr + (i + (n - rr mod n))) with (i + (rr / n + 1) * n) by nia.
  rewrite Nat.Div0.mod_add. by apply Nat.mod_small.
Qed.

Lemma scanFree_turn rr :
  match scanFree consumers busyset (length consumers) rr with
  | (Some c, _) => c ∈ consumers ∧ c ∉ busyset
  | (None, _) => ∀ c, c ∈ consumers → c ∈ busyset
  end.
Proof.
  pose proof (scanFree_spec (length consumers) rr) as Hs.
  destruct (scanFree _ _ _ _) as [[c|] rr'].
  - destruct Hs as (j & _ & _ & Hat & Hc & _). split; [|done].
    by eapply list_elem_of_lookup_2.
  - destruct Hs as [_ Hall]. intros c Hc. destruct (rr_at_covers rr c Hc) as (j & ? & ?).
    by eapply Hall.
Qed.
End scanFree.

(** ** The priority scan *)

(** Index [b] of [l] holds the highest priority, and is the first to do so. *)
Definition is_best (h : Heap) (l : list MsgRef) (b : nat) : Prop :=
  ∃ m, l !! b = Some m ∧
    (∀ j m', l !! j = Some m' → (prio h m' ≤ prio h m)%Z) ∧
    (∀ j m', j < b → l !! j = Some m' → (prio h m' < prio h m)%Z).

Lemma bestIndex_spec h done_ rest best mb :
  done_ !! best = Some mb → is_best h done_ best →
  is_best h (done_ ++ rest) (bestIndex h rest (length done_) best (prio h mb)).
Proof.
  revert done_ best mb. induction rest as [|m rest IH]; intros dn best mb Hb Hbest; simpl.
  { by rewrite app_nil_r. }
  rewrite cons_middle, app_assoc.
  destruct Hbest as (mb' & Hb' & Hmax & Hfirst). simplify_eq.
  pose proof (lookup_lt_Some _ _ _ Hb) as Hlt.
  replace (S (length dn)) with (length (dn ++ [m])) by (rewrite length_app; simpl; lia).
  case_decide as Hp; apply IH.
  - apply list_lookup_middle; lia.
  - exists m. split; [apply list_lookup_middle; lia|]. split.
    + intros j m' Hj. apply lookup_app_Some in Hj as [Hj|[? Hj]].
      * specialize (Hmax _ _ Hj). lia.
      * apply list_lookup_singleton_Some in Hj as [_ ->]. lia.
    + intros j m' Hlt' Hj. rewrite lookup_app_l in Hj by lia. specialize (Hmax _ _ Hj). lia.
  - by rewrite lookup_app_l.
  - exists mb. split; [by rewrite lookup_app_l|]. split.
    + intros j m' Hj. apply lookup_app_Some in Hj as [Hj|[? Hj]]; [eauto|].
      apply list_lookup_singleton_Some in Hj as [_ ->]. lia.
    + intros j m' Hj Hl. rewrite lookup_app_l in Hl by lia. eauto.
Qed.

Lemma nextPending_spec h q :
  match nextPending h q with
  | (None, q') => bq_pending q = [] ∧ q' = q
  | (Some m, q') =>
      ∃ b, is_best h (bq_pending q) b ∧ bq_pending q !! b = Some m ∧
           q' = set_pending (delete b (bq_pending q)) q
  end.
Proof.
  unfold nextPending. destruct (bq_pending q) as [|m0 rest] eqn:Hp; [done|].
  assert (Hb : is_best h ([m0] ++ rest) (bestIndex h rest 1 0 (prio h m0))).
  { apply (bestIndex_spec h [m0] rest 0 m0); [done|].
    exists m0. split; [done|]. split; [|intros; lia].
    intros j m' Hj. apply list_lookup_singleton_Some in Hj as [_ ->]. lia. }
  destruct Hb as (m & Hm & Hb). simpl in Hm. rewrite Hm.
  exists (bestIndex h rest 1 0 (prio h m0)). split; [by exists m|done].
Qed.

(** ** The group scan *)

(** The consumer a group is pinned to, when it is still attached. *)
Definition live_owner (q : BusQueue) (g : string) : option AckHandler :=
  match map_get (bq_groupAffinity q) g with
  | Some o => if decide (o ∈ bq_consumers q) then Some o else None
  | None => None
  end.

(** The group of [m] cannot be served now: its live owner is busy, or it has none
    and every consumer is busy. *)
Definition blocked (q : BusQueue) (busyset : list AckHandler) (g : string) : Prop :=
  match live_owner q g with
  | Some o => o ∈ busyset
  | None => ∀ c, c ∈ bq_consumers q → c ∈ busyset
  end.

(** Everything but [pending], [rr] and the affinity map agrees. *)
Definition same_frame (q q' : BusQueue) : Prop :=
  bq_cfg q' = bq_cfg q ∧ bq_inflight q' = bq_inflight q ∧ bq_consumers q' = bq_consumers q.

(** What one scan over the messages [rest] (the queue's pending list from index
    [i]) returns. *)
Definition group_scan_result (h : Heap) (busyset : list AckHandler) (rest : list MsgRef)
    (i : nat) (q : BusQueue) (r : option (MsgRef * AckHandler)) (q' : BusQueue) : Prop :=
  same_frame q q' ∧
  match r with
  | None =>
      bq_pending q' = bq_pending q ∧
      (∀ m, m ∈ rest → blocked q busyset (group_of h m)) ∧
      (∀ g, live_owner q' g = live_owner q g)
  | Some (m, c) =>
      ∃ j, rest !! j = Some m ∧
        (∀ j' m', j' < j → rest !! j' = Some m' → blocked q busyset (group_of h m')) ∧
        c ∈ bq_consumers q ∧ (c ∉ busyset) ∧
        (live_owner q (group_of h m) = Some c ∨ live_owner q (group_of h m) = None) ∧
        bq_pending q' = delete (i + j) (bq_pending q) ∧
        live_owner q' (group_of h m) = Some c ∧
        (∀ g, g ≠ group_of h m → live_owner q' g = live_owner q g)
  end.

(** Dropping a stale pin, or advancing [rr], changes no live owner. *)
Lemma live_owner_drop_stale q g o :
  map_get (bq_groupAffinity q) g = Some o → o ∉ bq_consumers q →
  ∀ g', live_owner (set_affinity (map_delete (bq_groupAffinity q) g) q) g' = live_owner q g'.
Proof.
  intros Hg Ho g'. unfold live_owner. simpl. destruct (decide (g = g')) as [->|Hne].
  - by rewrite map_get_delete_eq, Hg, decide_False.
  - by rewrite map_get_delete_ne.
Qed.

Lemma live_owner_pin q g c :
  c ∈ bq_consumers q →
  let q' := set_affinity (map_set (bq_groupAffinity q) g c) q in
  live_owner q' g = Some c ∧ ∀ g', g' ≠ g → live_owner q' g' = live_owner q g'.
Proof.
  intros Hc q'. unfold live_owner, q'. simpl. split.
  - by rewrite map_get_set_eq, decide_True.
  - intros g' Hne. by rewrite map_get_set_ne.
Qed.

(** Two queues that differ only in stale pins and [rr] give the same results. *)
Lemma group_scan_result_proper h B rest i q0 q r q' :
  same_frame q0 q → bq_pending q = bq_pending q0 →
  (∀ g, live_owner q g = live_owner q0 g) →
  group_scan_result h B rest i q r q' → group_scan_result h B rest i q0 r q'.
Proof.
  intros (Hc & Hi & Hk) Hp Hl [(Hc' & Hi' & Hk') Hr].
  assert (Hbl : ∀ g, blocked q B g ↔ blocked q0 B g).
  { intros g. unfold blocked. by rewrite Hl, Hk. }
  split; [unfold same_frame; by rewrite Hc', Hi', Hk', Hc, Hi, Hk|].
  destruct r as [[m c]|].
  - destruct Hr as (j & ? & Hbs & ? & ? & Hlo & Hpd & ? & Hg). exists j.
    setoid_rewrite Hl in Hg. rewrite Hl in Hlo. rewrite Hp in Hpd. rewrite Hk in *.
    setoid_rewrite Hbl in Hbs. by repeat split.
  - destruct Hr as (? & Hbs & Hg). setoid_rewrite Hl in Hg. setoid_rewrite Hbl in Hbs.
    rewrite <- Hp. by repeat split.
Qed.

(** Skipping a blocked message. *)
Lemma group_scan_result_skip h B m rest i q r q' :
  blocked q B (group_of h m) →
  group_scan_result h B rest (S i) q r q' → group_scan_result h B (m :: rest) i q r q'.
Proof.
  intros Hb [Hf Hr]. split; [done|]. destruct r as [[m' c]|].
  - destruct Hr as (j & ? & Hbs & ? & ? & ? & Hpd & ?). exists (S j).
    split; [done|]. split; [|rewrite Hpd; replace (i + S j) with (S i + j) by lia; naive_solver].
    intros [|j'] m'' Hj Hl; [naive_solver|]. apply (Hbs j' m''); [lia|done].
  - destruct Hr as (? & Hbs & ?). repeat split; [done| |done].
    intros m' [->|?]%elem_of_cons; auto.
Qed.

Lemma groupScan_spec h B rest i q :
  bq_consumers q ≠ [] →
  group_scan_result h B rest i q (groupScan h B rest i q).1 (groupScan h B rest i q).2.
Proof.
  revert i q. induction rest as [|m rest IH]; intros i q Hne; simpl.
  { split; [done|]. repeat split; try done. intros m Hm. by apply elem_of_nil in Hm. }
  set (g := group_of h m).
  (* the queue after the stale pin has been dropped *)
  assert (∃ ow q1, (match map_get (bq_groupAffinity q) g with
      | Some o => if decide (o ∈ bq_consumers q) then (Some o, q)
                  else (None, set_affinity (map_delete (bq_groupAffinity q) g) q)
      | None => (None, q) end) = (ow, q1) ∧ ow = live_owner q g ∧ same_frame q q1 ∧
      bq_pending q1 = bq_pending q ∧ ∀ g', live_owner q1 g' = live_owner q g')
    as (ow & q1 & -> & How & Hf1 & Hp1 & Hl1).
  { unfold live_owner at 1. destruct (map_get _ g) as [o|] eqn:Hg; [case_decide|].
    - by eexists _, _.
    - eexists _, _. split; [done|]. split; [done|]. split; [done|]. split; [done|].
      by eapply live_owner_drop_stale.
    - by eexists _, _. }
  destruct Hf1 as (Hc1 & Hi1 & Hk1).
  apply (group_scan_result_proper h B (m :: rest) i q q1); [done..|].
  rewrite <- Hk1 in Hne. rewrite <- (Hl1 g) in How. clear q Hc1 Hi1 Hk1 Hp1 Hl1.
  destruct ow as [o|].
  - case_decide as Ho.
    + apply group_scan_result_skip; [|by apply IH]. unfold blocked. fold g. by rewrite <- How.
    + simpl. split; [done|]. exists 0. rewrite Nat.add_0_r.
      assert (o ∈ bq_consumers q1).
      { unfold live_owner in How. repeat case_match; naive_solver. }
      repeat split; auto. intros; lia.
  - unfold pickFreeConsumer.
    pose proof (scanFree_turn (bq_consumers q1) B Hne (bq_rr q1)) as Hs.
    destruct (scanFree _ _ _ _) as [[c|] rr'].
    + destruct Hs as [Hc Hcb]. simpl. split; [done|]. exists 0. rewrite Nat.add_0_r.
      destruct (live_owner_pin q1 g c Hc) as [? ?].
      repeat split; auto. intros; lia.
    + apply group_scan_result_skip; [unfold blocked; fold g; by rewrite <- How|].
      apply (group_scan_result_proper h B rest (S i) q1 (set_rr rr' q1)); [done..|].
      by apply IH.
Qed.

Lemma nextGroupDelivery_spec h q :
  bq_consumers q ≠ [] →
  group_scan_result h (busy q) (bq_pending q) 0 q
    (nextGroupDelivery h q).1 (nextGroupDelivery h q).2.
Proof.
  intros Hne. unfold nextGroupDelivery.
  destruct (bq_consumers q) as [|c cs] eqn:Hc; [done|].
  destruct (bq_pending q) as [|m ms] eqn:Hp.
  - split; [done|]. repeat split; try done. intros m Hm. by apply elem_of_nil in Hm.
  - rewrite <- Hp. apply groupScan_spec. by rewrite Hc.
Qed.

(** Splitting a list at an index. *)
Lemma delete_split {A} (l : list A) i x :
  l !! i = Some x → l = take i l ++ x :: drop (S i) l ∧ delete i l = take i l ++ drop (S i) l.
Proof.
  intros Hi. split; [symmetry; by apply take_drop_middle|]. apply delete_take_drop.
Qed.

Lemma elem_of_take_lt {A} (l : list A) i x : x ∈ take i l → ∃ j, j < i ∧ l !! j = Some x.
Proof.
  intros (j & Hj)%list_elem_of_lookup. apply lookup_take_Some in Hj as [? ?]. eauto.
Qed.

(** A served group is not blocked, so no earlier pending message shares it. *)
Lemma blocked_served q B g c :
  c ∈ bq_consumers q → (c ∉ B) → live_owner q g = Some c ∨ live_owner q g = None →
  ¬ blocked q B g.
Proof. unfold blocked. intros Hc HB [->| ->]; naive_solver. Qed.

(** ** Properties *)

(** priority selection (S14).  On a non-empty queue [nextPending] removes one
    message of the highest priority; the messages before it all have a strictly
    lower priority (so it is the first of its priority: FIFO on ties), and the order
    of the others is unchanged. *)
Theorem nextPending_highest_first (h : Heap) (q : BusQueue) :
  bq_pending q ≠ [] →
  ∃ pre m post,
    bq_pending q = pre ++ m :: post ∧
    nextPending h q = (Some m, set_pending (pre ++ post) q) ∧
    (∀ m', m' ∈ pre → (prio h m' < prio h m)%Z) ∧
    (∀ m', m' ∈ post → (prio h m' ≤ prio h m)%Z).
Proof.
  intros Hne. pose proof (nextPending_spec h q) as Hs.
  destruct (nextPending h q) as [[m|] q']; [|by destruct Hs].
  destruct Hs as (b & (mb & Hb & Hmax & Hfirst) & Hm & ->).
  rewrite Hb in Hm. injection Hm as ->. destruct (delete_split _ _ _ Hb) as [Hl Hd].
  exists (take b (bq_pending q)), m, (drop (S b) (bq_pending q)). rewrite Hd.
  split; [done|]. split; [done|]. split.
  - intros m' (j & ? & ?)%elem_of_take_lt. eauto.
  - intros m' (j & Hj)%list_elem_of_lookup. rewrite lookup_drop in Hj. eauto.
Qed.

(** Three messages of priorities absent (0), 9 and 9: the first 9 overtakes. *)
Definition demo_message (p : option Z) (g : option string) : BusMessage := {|
  bm_id := "m"; bm_topic := "t"; bm_body := "b"; bm_routingKey := "t";
  bm_deliveryCount := 0; bm_priority := p; bm_groupId := g; bm_dedupId := None;
  bm_replyTo := None; bm_correlationId := None; bm_ttlMs := None; bm_headers := None |}.

Definition demo_cfg (group single : bool) : QueueConfig := {|
  qc_topic := "t"; qc_kind := topic; qc_routingKey := None; qc_maxDeliveries := 3;
  qc_deadLetter := false; qc_retryDelayMs := None; qc_partitionByGroup := group;
  qc_singleActiveConsumer := single |}.

Definition demo_heap : Heap :=
  [demo_message None (Some "a"); demo_message (Some 9%Z) (Some "a");
   demo_message (Some 9%Z) (Some "b")].

Lemma nextPending_highest_first_witness :
  ∃ pre m post,
    [0; 1; 2] = pre ++ m :: post ∧
    nextPending demo_heap (set_pending [0; 1; 2] (new_BusQueue (demo_cfg false false))) =
      (Some m, set_pending (pre ++ post) (new_BusQueue (demo_cfg false false))) ∧
    (∀ m', m' ∈ pre → (prio demo_heap m' < prio demo_heap m)%Z) ∧
    (∀ m', m' ∈ post → (prio demo_heap m' ≤ prio demo_heap m)%Z).
Proof.
  apply (nextPending_highest_first demo_heap
           (set_pending [0; 1; 2] (new_BusQueue (demo_cfg false false)))).
  discriminate.
Defined.

(** fair work sharing (S9).  [nextConsumer] returns the first consumer, in cyclic
    order from [rr], that holds no message, and moves [rr] just past it; it returns
    nothing exactly when every consumer holds a message. *)
Theorem nextConsumer_round_robin (q : BusQueue) :
  bq_consumers q ≠ [] → qc_singleActiveConsumer (bq_cfg q) = false →
  match nextConsumer q with
  | (Some c, q') =>
      ∃ j, j < length (bq_consumers q) ∧
        first_free (bq_consumers q) (busy q) (bq_rr q) j c ∧
        q' = set_rr (bq_rr q + j + 1) q
  | (None, q') =>
      (∀ c, c ∈ bq_consumers q → c ∈ busy q) ∧
      q' = set_rr (bq_rr q + length (bq_consumers q)) q
  end.
Proof.
  intros Hne Hs. unfold nextConsumer. rewrite Hs.
  destruct (bq_consumers q) as [|c0 cs] eqn:Hc; [done|]. rewrite <- Hc in *. clear c0 cs Hc.
  pose proof (scanFree_spec (bq_consumers q) (busy q) Hne (length (bq_consumers q)) (bq_rr q)) as H1.
  pose proof (scanFree_turn (bq_consumers q) (busy q) Hne (bq_rr q)) as H2.
  destruct (scanFree _ _ _ _) as [[c|] rr'].
  - destruct H1 as (j & ? & -> & ?). by exists j.
  - destruct H1 as [-> _]. done.
Qed.

Definition demo_two : BusQueue :=
  set_rr 1 (set_inflight [(7, 11)] (set_consumers [10; 11] (new_BusQueue (demo_cfg false false)))).

Lemma nextConsumer_round_robin_witness :
  match nextConsumer demo_two with
  | (Some c, q') =>
      ∃ j, j < 2 ∧ first_free [10; 11] (busy demo_two) 1 j c ∧ q' = set_rr (1 + j + 1) demo_two
  | (None, q') => (∀ c, c ∈ [10; 11] → c ∈ busy demo_two) ∧ q' = set_rr (1 + 2) demo_two
  end.
Proof. apply (nextConsumer_round_robin demo_two); [discriminate|reflexivity]. Defined.

(** single active consumer (S18).  On such a queue [nextConsumer] only ever hands
    out the first attached consumer, and only while nothing at all is in flight. *)
Theorem nextConsumer_single_active (q : BusQueue) (c : AckHandler) (q' : BusQueue) :
  qc_singleActiveConsumer (bq_cfg q) = true →
  nextConsumer q = (Some c, q') ↔
  head (bq_consumers q) = Some c ∧ bq_inflight q = [] ∧ q' = q.
Proof.
  intros Hs. unfold nextConsumer. rewrite Hs.
  destruct (bq_consumers q) as [|a cs]; simpl; [naive_solver|].
  case_decide as Hl; [apply length_zero_iff_nil in Hl|]; [naive_solver|].
  split; [done|]. intros (_ & Hi & _). by rewrite Hi in Hl.
Qed.

Definition demo_sac : BusQueue :=
  set_consumers [10; 11] (new_BusQueue (demo_cfg false true)).

Lemma nextConsumer_single_active_witness :
  nextConsumer demo_sac = (Some 10, demo_sac) ↔
  head [10; 11] = Some 10 ∧ bq_inflight demo_sac = [] ∧ demo_sac = demo_sac.
Proof. apply (nextConsumer_single_active demo_sac 10 demo_sac). reflexivity. Defined.

(** ordered message groups (S12).  Whatever [nextGroupDelivery] hands out is the
    earliest pending message of its group; it goes to a free attached consumer, to
    the group's owner when that one is still attached, and the group is pinned to
    that consumer afterwards. *)
Theorem nextGroupDelivery_fifo_pinned (h : Heap) (q : BusQueue) m c q' :
  nextGroupDelivery h q = (Some (m, c), q') →
  ∃ pre post,
    bq_pending q = pre ++ m :: post ∧ bq_pending q' = pre ++ post ∧
    (∀ m', m' ∈ pre → group_of h m' ≠ group_of h m) ∧
    c ∈ bq_consumers q ∧ (c ∉ busy q) ∧
    (∀ o, live_owner q (group_of h m) = Some o → c = o) ∧
    live_owner q' (group_of h m) = Some c.
Proof.
  intros Heq. assert (Hne : bq_consumers q ≠ []).
  { intros Hn. unfold nextGroupDelivery in Heq. by rewrite Hn in Heq. }
  pose proof (nextGroupDelivery_spec h q Hne) as [_ Hr]. rewrite Heq in Hr. simpl in Hr.
  destruct Hr as (j & Hj & Hbs & Hc & Hcb & Hlo & Hpd & Hpin & _).
  destruct (delete_split _ _ _ Hj) as [Hl Hd]. rewrite Hd in Hpd.
  exists (take j (bq_pending q)), (drop (S j) (bq_pending q)).
  repeat split; [done..| |done|done|naive_solver|done].
  intros m' (j' & ? & Hj')%elem_of_take_lt Hg.
  apply (blocked_served q (busy q) (group_of h m) c); [done..|].
  rewrite <- Hg. by eapply Hbs.
Qed.

(** Group "a" is pinned to the busy consumer 10, so "b" is served by 11. *)
Definition demo_groups : BusQueue :=
  set_affinity [("a", 10)] (set_pending [0; 1; 2]
    (set_inflight [(7, 10)] (set_consumers [10; 11] (new_BusQueue (demo_cfg true false))))).

Lemma nextGroupDelivery_fifo_pinned_witness :
  ∃ pre post,
    bq_pending demo_groups = pre ++ 2 :: post ∧
    bq_pending (nextGroupDelivery demo_heap demo_groups).2 = pre ++ post ∧
    (∀ m', m' ∈ pre → group_of demo_heap m' ≠ group_of demo_heap 2) ∧
    11 ∈ bq_consumers demo_groups ∧ (11 ∉ busy demo_groups) ∧
    (∀ o, live_owner demo_groups (group_of demo_heap 2) = Some o → 11 = o) ∧
    live_owner (nextGroupDelivery demo_heap demo_groups).2 (group_of demo_heap 2) = Some 11.
Proof.
  apply (nextGroupDelivery_fifo_pinned demo_heap demo_groups 2 11). vm_compute. reflexivity.
Defined.
