(* ===== verification/InMemoryBus.v ===== *)
(** The in-process pub/sub engine ([class InMemoryBus] of
    adapters/in-memory-bus.ts): publish, subscribe and unsubscribe, the delivery
    pump, settlement, dead-lettering, the expiry and retry timers, and dispose.

    The state holds the class's fields, the heaps of queue and message objects its
    closures share, the armed timers, the delivery handles created so far and the
    microtask queue.  A handler's body is code of the application: what it can do
    to the bus (settle its delivery, throw) are operations of the environment. *)

From S2P Require Import Prelude Abstractions TopicMatch BusQueue.

(** ** State *)

Abbreviation QRef := nat.

(** One call of [pump]'s body: the closure state of [wrap] and of the microtask. *)
Record Delivery := {
  dl_queue : QRef;
  dl_msg : MsgRef;
  dl_consumer : AckHandler;
  dl_incoming : IncomingMessage;
  dl_started : bool;  (* the microtask ran: the handler was called *)
  dl_settled : bool   (* the microtask's [settled] flag *)
}.

(** The two [setTimeout] callbacks. *)
Inductive TimerAction :=
  | TtlTimer (q : QRef) (m : MsgRef)
  | RetryTimer (q : QRef) (m : MsgRef).

Record Bus := {
  b_queues : gmap string QRef;
  b_byTopic : gmap string (list QRef);
  b_seenDedupIds : gset string;
  b_streamLog : gmap string (list BusMessage);
  b_seq : nat;
  b_qheap : list BusQueue;
  b_heap : Heap;
  b_timers : list (Z * TimerAction);
  b_deliveries : list Delivery;
  b_microtasks : list nat
}.

Definition new_InMemoryBus : Bus := {|
  b_queues := ∅; b_byTopic := ∅; b_seenDedupIds := ∅; b_streamLog := ∅; b_seq := 0;
  b_qheap := []; b_heap := []; b_timers := []; b_deliveries := []; b_microtasks := [] |}.

(** Mutations of single fields. *)
Definition with_index (qs : gmap string QRef) (bt : gmap string (list QRef)) (st : Bus) : Bus := {|
  b_queues := qs; b_byTopic := bt; b_seenDedupIds := b_seenDedupIds st;
  b_streamLog := b_streamLog st; b_seq := b_seq st; b_qheap := b_qheap st; b_heap := b_heap st;
  b_timers := b_timers st; b_deliveries := b_deliveries st; b_microtasks := b_microtasks st |}.

Definition with_seen (s : gset string) (st : Bus) : Bus := {|
  b_queues := b_queues st; b_byTopic := b_byTopic st; b_seenDedupIds := s;
  b_streamLog := b_streamLog st; b_seq := b_seq st; b_qheap := b_qheap st; b_heap := b_heap st;
  b_timers := b_timers st; b_deliveries := b_deliveries st; b_microtasks := b_microtasks st |}.

Definition with_log (l : gmap string (list BusMessage)) (st : Bus) : Bus := {|
  b_queues := b_queues st; b_byTopic := b_byTopic st; b_seenDedupIds := b_seenDedupIds st;
  b_streamLog := l; b_seq := b_seq st; b_qheap := b_qheap st; b_heap := b_heap st;
  b_timers := b_timers st; b_deliveries := b_deliveries st; b_microtasks := b_microtasks st |}.

Definition with_seq (n : nat) (st : Bus) : Bus := {|
  b_queues := b_queues st; b_byTopic := b_byTopic st; b_seenDedupIds := b_seenDedupIds st;
  b_streamLog := b_streamLog st; b_seq := n; b_qheap := b_qheap st; b_heap := b_heap st;
  b_timers := b_timers st; b_deliveries := b_deliveries st; b_microtasks := b_microtasks st |}.

Definition with_qheap (qs : list BusQueue) (st : Bus) : Bus := {|
  b_queues := b_queues st; b_byTopic := b_byTopic st; b_seenDedupIds := b_seenDedupIds st;
  b_streamLog := b_streamLog st; b_seq := b_seq st; b_qheap := qs; b_heap := b_heap st;
  b_timers := b_timers st; b_deliveries := b_deliveries st; b_microtasks := b_microtasks st |}.

Definition with_heap (h : Heap) (st : Bus) : Bus := {|
  b_queues := b_queues st; b_byTopic := b_byTopic st; b_seenDedupIds := b_seenDedupIds st;
  b_streamLog := b_streamLog st; b_seq := b_seq st; b_qheap := b_qheap st; b_heap := h;
  b_timers := b_timers st; b_deliveries := b_deliveries st; b_microtasks := b_microtasks st |}.

Definition with_timers (t : list (Z * TimerAction)) (st : Bus) : Bus := {|
  b_queues := b_queues st; b_byTopic := b_byTopic st; b_seenDedupIds := b_seenDedupIds st;
  b_streamLog := b_streamLog st; b_seq := b_seq st; b_qheap := b_qheap st; b_heap := b_heap st;
  b_timers := t; b_deliveries := b_deliveries st; b_microtasks := b_microtasks st |}.

Definition with_deliveries (d : list Delivery) (mt : list nat) (st : Bus) : Bus := {|
  b_queues := b_queues st; b_byTopic := b_byTopic st; b_seenDedupIds := b_seenDedupIds st;
  b_streamLog := b_streamLog st; b_seq := b_seq st; b_qheap := b_qheap st; b_heap := b_heap st;
  b_timers := b_timers st; b_deliveries := d; b_microtasks := mt |}.

(** Mutate the queue object at a reference. *)
Definition with_queue (qr : QRef) (q : BusQueue) (st : Bus) : Bus :=
  with_qheap (<[qr := q]> (b_qheap st)) st.

(** [new] on a message object: its reference and the state. *)
Definition alloc (m : BusMessage) (st : Bus) : MsgRef * Bus :=
  (length (b_heap st), with_heap (b_heap st ++ [m]) st).

(** ** The pump *)

(** The message object with [deliveryCount += 1]. *)
Definition bump (m : BusMessage) : BusMessage := {|
  bm_id := bm_id m; bm_topic := bm_topic m; bm_body := bm_body m;
  bm_routingKey := bm_routingKey m; bm_deliveryCount := bm_deliveryCount m + 1;
  bm_priority := bm_priority m; bm_groupId := bm_groupId m; bm_dedupId := bm_dedupId m;
  bm_replyTo := bm_replyTo m; bm_correlationId := bm_correlationId m;
  bm_ttlMs := bm_ttlMs m; bm_headers := bm_headers m |}.

(** The data fields of the object [wrap] returns. *)
Definition wrap (m : BusMessage) : IncomingMessage := {|
  im_id := bm_id m; im_destination := bm_topic m; im_body := bm_body m;
  im_headers := default ∅ (bm_headers m);
  im_deliveryCount := Some (bm_deliveryCount m);
  im_replyTo := bm_replyTo m; im_correlationId := bm_correlationId m;
  im_groupId := bm_groupId m; im_priority := bm_priority m |}.

(** The choice of the next (message, consumer) pair in one pump iteration. *)
Definition pickDelivery (h : Heap) (q : BusQueue) : option (MsgRef * AckHandler) * BusQueue :=
  if qc_partitionByGroup (bq_cfg q) then nextGroupDelivery h q
  else
    match nextConsumer q with
    | (None, q) => (None, q)
    | (Some consumer, q) =>
        match nextPending h q with
        | (Some msg, q) => (Some (msg, consumer), q)
        | (None, q) => (None, q)
        end
    end.

(** The pump loop on one queue: the heap and queue it leaves, and the deliveries it
    hands to microtasks, in order.  A dangling reference, which no reachable state
    holds, stops the loop. *)
Fixpoint pumpQ (fuel : nat) (h : Heap) (q : BusQueue) :
    Heap * BusQueue * list (MsgRef * AckHandler * IncomingMessage) :=
  match fuel with
  | 0 => (h, q, [])
  | S fuel' =>
      match bq_pending q, bq_consumers q with
      | [], _ => (h, q, [])
      | _, [] => (h, q, [])
      | _, _ =>
          match pickDelivery h q with
          | (None, q) => (h, q, [])
          | (Some (msg, consumer), q) =>
              match h !! msg with
              | None => (h, q, [])
              | Some m =>
                  let '(h', q', ds) :=
                    pumpQ fuel' (<[msg := bump m]> h)
                      (set_inflight (map_set (bq_inflight q) msg consumer) q) in
                  (h', q', (msg, consumer, wrap (bump m)) :: ds)
              end
          end
      end
  end.

Definition mk_delivery (qr : QRef) (d : MsgRef * AckHandler * IncomingMessage) : Delivery := {|
  dl_queue := qr; dl_msg := d.1.1; dl_consumer := d.1.2; dl_incoming := d.2;
  dl_started := false; dl_settled := false |}.

(** Each iteration removes one pending message, so [length pending] iterations are
    enough ([pumpQ_fuel_S]). *)
Definition pump (qr : QRef) (st : Bus) : Bus :=
  match b_qheap st !! qr with
  | None => st
  | Some q =>
      let '(h, q', ds) := pumpQ (length (bq_pending q)) (b_heap st) q in
      let n := length (b_deliveries st) in
      with_deliveries (b_deliveries st ++ map (mk_delivery qr) ds)
        (b_microtasks st ++ seq n (length ds))
        (with_queue qr q' (with_heap h st))
  end.

(** ** Publish *)

(** The object literal both message pushes build. *)
Definition mk_message (id : string) (topic : Destination) (body key : string)
    (options : PublishOptions) : BusMessage := {|
  bm_id := id; bm_topic := topic; bm_body := body; bm_routingKey := key;
  bm_deliveryCount := 0; bm_priority := po_priority options;
  bm_groupId := po_groupId options; bm_dedupId := po_dedupId options;
  bm_replyTo := po_replyTo options; bm_correlationId := po_correlationId options;
  bm_ttlMs := po_ttlMs options; bm_headers := po_headers options |}.

(** The loop body of [publish] for one queue of the topic. *)
Definition publish_to (topic : Destination) (body key : string) (options : PublishOptions)
    (st : Bus) (qr : QRef) : Bus :=
  match b_qheap st !! qr with
  | None => st
  | Some q =>
      if matches (bq_cfg q) key then
        let st := with_seq (S (b_seq st)) st in
        let id := "mem-bus-" +:+ pretty (b_seq st) in
        let '(m, st) := alloc (mk_message id topic body key options) st in
        let st := with_queue qr (set_pending (bq_pending q ++ [m]) q) st in
        let st :=
          match po_ttlMs options with
          | Some ttl =>
              if decide (0 ≤ ttl)%Z then with_timers (b_timers st ++ [(ttl, TtlTimer qr m)]) st
              else st
          | None => st
          end in
        pump qr st
      else st
  end.

(** The append to the topic's stream log. *)
Definition log_publish (topic : Destination) (body key : string) (options : PublishOptions)
    (st : Bus) : Bus :=
  let st := with_seq (S (b_seq st)) st in
  let entry := mk_message ("mem-stream-" +:+ pretty (b_seq st)) topic body key options in
  with_log (<[topic := default [] (b_streamLog st !! topic) ++ [entry]]> (b_streamLog st)) st.

Definition publish (topic : Destination) (body : string) (routingKey : option string)
    (options : PublishOptions) (st : Bus) : Bus :=
  let repeated :=
    match po_dedupId options with
    | Some d => bool_decide (d ∈ b_seenDedupIds st)
    | None => false
    end in
  if repeated then st
  else
    let st :=
      match po_dedupId options with
      | Some d => with_seen ({[d]} ∪ b_seenDedupIds st) st
      | None => st
      end in
    let key := default topic routingKey in
    let st := log_publish topic body key options st in
    foldl (publish_to topic body key options) st (default [] (b_byTopic st !! topic)).

(** ** Subscribe and unsubscribe *)

Record Subscription := { sub_queue : QRef; sub_handler : AckHandler }.

Definition nul : Ascii.ascii := Ascii.zero.

(** [InMemoryBus.key]: the separator of the template literal is a NUL character. *)
Definition key (topic : Destination) (subscriberId : string) : string :=
  topic +:+ String nul subscriberId.

Definition mk_config (topic : Destination) (options : SubscribeOptions) : QueueConfig := {|
  qc_topic := topic;
  qc_kind := default Abstractions.topic (so_kind options);
  qc_routingKey := so_routingKey options;
  qc_maxDeliveries := default DEFAULT_MAX_DELIVERIES (so_maxDeliveries options);
  qc_deadLetter := default false (so_deadLetter options);
  qc_retryDelayMs := so_retryDelayMs options;
  qc_partitionByGroup := default false (so_partitionByGroup options);
  qc_singleActiveConsumer := default false (so_singleActiveConsumer options) |}.

(** [{ ...logged, deliveryCount: 0 }]. *)
Definition reset_count (m : BusMessage) : BusMessage := {|
  bm_id := bm_id m; bm_topic := bm_topic m; bm_body := bm_body m;
  bm_routingKey := bm_routingKey m; bm_deliveryCount := 0;
  bm_priority := bm_priority m; bm_groupId := bm_groupId m; bm_dedupId := bm_dedupId m;
  bm_replyTo := bm_replyTo m; bm_correlationId := bm_correlationId m;
  bm_ttlMs := bm_ttlMs m; bm_headers := bm_headers m |}.

(** Push one logged message onto a fresh stream-replay queue. *)
Definition replay_one (qr : QRef) (st : Bus) (logged : BusMessage) : Bus :=
  match b_qheap st !! qr with
  | None => st
  | Some q =>
      if matches (bq_cfg q) (bm_routingKey logged) then
        let '(m, st) := alloc (reset_count logged) st in
        with_queue qr (set_pending (bq_pending q ++ [m]) q) st
      else st
  end.

(** The queue for [(topic, subscriberId)], created and indexed when absent. *)
Definition ensure_queue (topic : Destination) (subscriberId : string)
    (options : SubscribeOptions) (st : Bus) : QRef * Bus :=
  let k := key topic subscriberId in
  match b_queues st !! k with
  | Some qr => (qr, st)
  | None =>
      let qr := length (b_qheap st) in
      let st := with_qheap (b_qheap st ++ [new_BusQueue (mk_config topic options)]) st in
      let st :=
        with_index (<[k := qr]> (b_queues st))
          (<[topic := default [] (b_byTopic st !! topic) ++ [qr]]> (b_byTopic st)) st in
      (qr,
       if default false (so_streamReplay options)
       then foldl (replay_one qr) st (default [] (b_streamLog st !! topic))
       else st)
  end.

(** [queue.consumers.push(handler); this.pump(queue)]. *)
Definition attach (handler : AckHandler) (qr : QRef) (st : Bus) : Bus :=
  match b_qheap st !! qr with
  | None => st
  | Some q => pump qr (with_queue qr (set_consumers (bq_consumers q ++ [handler]) q) st)
  end.

Definition subscribe (topic : Destination) (handler : AckHandler) (options : SubscribeOptions)
    (st : Bus) : Subscription * Bus :=
  let '(subscriberId, st) :=
    match so_subscriberId options with
    | Some id => (id, st)
    | None =>
        let st := with_seq (S (b_seq st)) st in ("sub-" +:+ pretty (b_seq st), st)
    end in
  let '(qr, st) := ensure_queue topic subscriberId options st in
  ({| sub_queue := qr; sub_handler := handler |}, attach handler qr st).

(** One iteration of the loop returning the un-settled messages of [handler]. *)
Definition return_one (handler : AckHandler) (q : BusQueue) (e : MsgRef * AckHandler) : BusQueue :=
  if decide (e.2 = handler) then
    set_pending (e.1 :: bq_pending q) (set_inflight (map_delete (bq_inflight q) e.1) q)
  else q.

(** The queue effect of [unsubscribe]: drop the handler's first attachment and
    return its un-settled messages to the front of [pending]. *)
Definition detach (handler : AckHandler) (q : BusQueue) : BusQueue :=
  let q := set_consumers (splice_first handler (bq_consumers q)) q in
  foldl (return_one handler) q (bq_inflight q).

Definition unsubscribe (sub : Subscription) (st : Bus) : Bus :=
  match b_qheap st !! sub_queue sub with
  | None => st
  | Some q => pump (sub_queue sub) (with_queue (sub_queue sub) (detach (sub_handler sub) q) st)
  end.

(** ** Settlement *)

Inductive Resolution := RAck | RRequeue | RDead.

Definition deadLetter (qr : QRef) (m : MsgRef) (st : Bus) : Bus :=
  match b_qheap st !! qr, b_heap st !! m with
  | Some q, Some msg =>
      if qc_deadLetter (bq_cfg q)
      then publish (deadLetterAddress (qc_topic (bq_cfg q))) (bm_body msg)
             (Some (bm_routingKey msg)) no_publish_options st
      else st
  | _, _ => st
  end.

(** [queue.retryDelayMs && queue.retryDelayMs > 0]. *)
Definition retry_delay (cfg : QueueConfig) : option Z :=
  match qc_retryDelayMs cfg with
  | Some d => if decide (0 < d)%Z then Some d else None
  | None => None
  end.

(** The [settle] closure of [wrap]. *)
Definition settle (qr : QRef) (m : MsgRef) (consumer : AckHandler) (resolved : Resolution)
    (st : Bus) : Bus :=
  match b_qheap st !! qr with
  | None => st
  | Some q =>
      if decide (map_get (bq_inflight q) m = Some consumer) then
        let q := set_inflight (map_delete (bq_inflight q) m) q in
        let st := with_queue qr q st in
        let count := default 0%Z (bm_deliveryCount <$> b_heap st !! m) in
        match resolved with
        | RAck => pump qr st
        | RDead => pump qr (deadLetter qr m st)
        | RRequeue =>
            if decide (qc_maxDeliveries (bq_cfg q) ≤ count)%Z then pump qr (deadLetter qr m st)
            else
              match retry_delay (bq_cfg q) with
              | Some delay => pump qr (with_timers (b_timers st ++ [(delay, RetryTimer qr m)]) st)
              | None => pump qr (with_queue qr (set_pending (bq_pending q ++ [m]) q) st)
              end
        end
      else st
  end.

(** ** Timers, microtasks, dispose *)

(** The callback of a TTL timer. *)
Definition expire (qr : QRef) (m : MsgRef) (st : Bus) : Bus :=
  match b_qheap st !! qr, b_heap st !! m with
  | Some q, Some msg =>
      let '(removed, q) :=
        match index_of m (bq_pending q) with
        | Some i => (true, set_pending (delete i (bq_pending q)) q)
        | None =>
            if map_has (bq_inflight q) m
            then (true, set_inflight (map_delete (bq_inflight q) m) q)
            else (false, q)
        end in
      let st := with_queue qr q st in
      if removed : bool
      then publish (expiryAddress (qc_topic (bq_cfg q))) (bm_body msg)
             (Some (bm_routingKey msg)) no_publish_options st
      else st
  | _, _ => st
  end.

(** The callback of a retry timer. *)
Definition unpark (qr : QRef) (m : MsgRef) (st : Bus) : Bus :=
  match b_qheap st !! qr with
  | None => st
  | Some q => pump qr (with_queue qr (set_pending (bq_pending q ++ [m]) q) st)
  end.

Definition run_timer (t : TimerAction) (st : Bus) : Bus :=
  match t with
  | TtlTimer qr m => expire qr m st
  | RetryTimer qr m => unpark qr m st
  end.

Definition mark_started (d : Delivery) : Delivery := {|
  dl_queue := dl_queue d; dl_msg := dl_msg d; dl_consumer := dl_consumer d;
  dl_incoming := dl_incoming d; dl_started := true; dl_settled := dl_settled d |}.

Definition mark_settled (d : Delivery) : Delivery := {|
  dl_queue := dl_queue d; dl_msg := dl_msg d; dl_consumer := dl_consumer d;
  dl_incoming := dl_incoming d; dl_started := dl_started d; dl_settled := true |}.

Definition with_delivery (i : nat) (d : Delivery) (st : Bus) : Bus :=
  with_deliveries (<[i := d]> (b_deliveries st)) (b_microtasks st) st.

(** The guarded [ack]/[nack] the handler sees: set [settled], then settle. *)
Definition guarded (i : nat) (resolved : Resolution) (st : Bus) : Bus :=
  match b_deliveries st !! i with
  | Some d =>
      if dl_started d then
        settle (dl_queue d) (dl_msg d) (dl_consumer d) resolved
          (with_delivery i (mark_settled d) st)
      else st
  | None => st
  end.

Definition ack (i : nat) : Bus → Bus := guarded i RAck.

Definition nack (i : nat) (requeue : bool) : Bus → Bus :=
  guarded i (if requeue then RRequeue else RDead).

(** The handler's promise rejects: [if (!settled) void incoming.nack(true)]. *)
Definition handler_throws (i : nat) (st : Bus) : Bus :=
  match b_deliveries st !! i with
  | Some d => if dl_settled d then st else nack i true st
  | None => st
  end.

(** The next microtask runs: the handler is called with its message. *)
Definition run_microtask (st : Bus) : Bus :=
  match b_microtasks st with
  | [] => st
  | i :: rest =>
      with_deliveries (alter mark_started i (b_deliveries st)) rest st
  end.

Definition fire_timer (i : nat) (st : Bus) : Bus :=
  match b_timers st !! i with
  | Some (_, t) => run_timer t (with_timers (delete i (b_timers st)) st)
  | None => st
  end.

Definition dispose (st : Bus) : Bus := with_log ∅ (with_index ∅ ∅ st).

(** ** The bus as a transition system *)

(** Everything that can happen to a bus: calls of its methods by the application,
    settlement and failure of handlers, and the event loop running a microtask or
    an armed timer.  Timers may fire in any order, which includes the event loop's. *)
Inductive BusOp :=
  | OpPublish (topic : Destination) (body : string) (routingKey : option string)
      (options : PublishOptions)
  | OpSubscribe (topic : Destination) (handler : AckHandler) (options : SubscribeOptions)
  | OpUnsubscribe (sub : Subscription)
  | OpAck (delivery : nat)
  | OpNack (delivery : nat) (requeue : bool)
  | OpThrow (delivery : nat)
  | OpMicrotask
  | OpTimer (timer : nat)
  | OpDispose.

Definition exec (op : BusOp) (st : Bus) : Bus :=
  match op with
  | OpPublish t b rk o => publish t b rk o st
  | OpSubscribe t h o => (subscribe t h o st).2
  | OpUnsubscribe sub => unsubscribe sub st
  | OpAck d => ack d st
  | OpNack d r => nack d r st
  | OpThrow d => handler_throws d st
  | OpMicrotask => run_microtask st
  | OpTimer i => fire_timer i st
  | OpDispose => dispose st
  end.

Definition run (ops : list BusOp) (st : Bus) : Bus := foldl (λ st op, exec op st) st ops.

Inductive reachable : Bus → Prop :=
  | reachable_init : reachable new_InMemoryBus
  | reachable_step st op : reachable st → reachable (exec op st).
