(* ===== verification/BusInvariants.v ===== *)
(** Invariants of the in-memory bus.

    - the pump: what one call does to a queue, that its fuel is enough, and that it
      leaves nothing deliverable behind ([quiescent]);
    - [bus_wf]: every message object is in at most one place (a queue's pending
      list or in-flight map, or parked on a retry timer), every consumer holds at most one
      message per queue, a single-active queue has at most one message in flight, and
      a partitioned queue's in-flight messages are pinned to their holder;
    - [evolves]: the footprint of an operation on the outstanding messages, from
      which preservation and the "nothing is silently lost" theorems follow. *)

From S2P Require Import Prelude Abstractions TopicMatch BusQueue InMemoryBus.

(** ** Heaps that differ in delivery counts and new allocations only *)

Definition heap_le (h h' : Heap) : Prop :=
  ∀ i m, h !! i = Some m → ∃ m', h' !! i = Some m' ∧ reset_count m' = reset_count m.

#[export] Instance heap_le_preorder : PreOrder heap_le.
Proof.
  split; [by intros h i m ?; exists m|].
  intros h1 h2 h3 H12 H23 i m (m' & Hm' & E1)%H12.
  apply H23 in Hm' as (m'' & ? & E2). exists m''. by rewrite E2.
Qed.

Lemma heap_le_length h h' : heap_le h h' → length h ≤ length h'.
Proof.
  intros Hle. destruct (decide (length h = 0)) as [|Hl]; [lia|].
  destruct (lookup_lt_is_Some_2 h (length h - 1) ltac:(lia)) as [m Hm].
  apply Hle in Hm as (m' & Hm'%lookup_lt_Some & _). lia.
Qed.

Lemma heap_le_alloc h m : heap_le h (h ++ [m]).
Proof.
  intros i m' Hi. exists m'. split; [|done]. rewrite lookup_app_l; [done|].
  by eapply lookup_lt_Some.
Qed.

Lemma heap_le_bump h i m : h !! i = Some m → heap_le h (<[i := bump m]> h).
Proof.
  intros Hi j m' Hj. destruct (decide (i = j)) as [->|Hne].
  - rewrite Hi in Hj. injection Hj as ->. exists (bump m'). split; [|done].
    apply list_lookup_insert_eq. by eapply lookup_lt_Some.
  - exists m'. by rewrite list_lookup_insert_ne.
Qed.

Lemma reset_count_fields m m' :
  reset_count m' = reset_count m →
  bm_groupId m' = bm_groupId m ∧ bm_priority m' = bm_priority m ∧
  bm_topic m' = bm_topic m ∧ bm_body m' = bm_body m ∧ bm_routingKey m' = bm_routingKey m.
Proof. unfold reset_count. intros H. by injection H. Qed.

Lemma group_of_heap_le h h' m : heap_le h h' → m < length h → group_of h' m = group_of h m.
Proof.
  intros Hle [b Hb]%lookup_lt_is_Some_2. unfold group_of.
  apply Hle in Hb as Hb'. destruct Hb' as (b' & -> & E). rewrite Hb. simpl.
  by destruct (reset_count_fields _ _ E) as [-> _].
Qed.

#[export] Hint Resolve heap_le_alloc heap_le_bump : bus.

(** ** Queues at rest *)

(** No message of the queue can be handed out now. *)
Definition undeliverable (h : Heap) (q : BusQueue) (m : MsgRef) : Prop :=
  if qc_partitionByGroup (bq_cfg q) then blocked q (busy q) (group_of h m)
  else if qc_singleActiveConsumer (bq_cfg q) then bq_inflight q ≠ [] ∨ bq_consumers q = []
  else ∀ c, c ∈ bq_consumers q → c ∈ busy q.

Definition quiescent (h : Heap) (q : BusQueue) : Prop :=
  ∀ m, m ∈ bq_pending q → undeliverable h q m.

(** ** One choice of the pump *)

(** What the consumers, the in-flight messages and the pins must satisfy. *)
Record queue_ok (h : Heap) (q : BusQueue) : Prop := {
  ok_prefetch : NoDup (busy q);
  ok_attached : ∀ c, c ∈ busy q → c ∈ bq_consumers q;
  ok_single :
    qc_singleActiveConsumer (bq_cfg q) = true → qc_partitionByGroup (bq_cfg q) = false →
    length (bq_inflight q) ≤ 1;
  ok_pinned :
    qc_partitionByGroup (bq_cfg q) = true →
    ∀ m c, (m, c) ∈ bq_inflight q → live_owner q (group_of h m) = Some c
}.

Definition queue_places (q : BusQueue) : list MsgRef := bq_pending q ++ (bq_inflight q).*1.

Lemma live_owner_ext q q' g :
  bq_groupAffinity q' = bq_groupAffinity q → bq_consumers q' = bq_consumers q →
  live_owner q' g = live_owner q g.
Proof. unfold live_owner. by intros -> ->. Qed.

(** The chosen pair: one pending message, one free attached consumer; on a
    partitioned queue the pins of the other groups are kept. *)
Record picked (h : Heap) (q : BusQueue) (m : MsgRef) (c : AckHandler) (q' : BusQueue) : Prop := {
  pk_pending : ∃ pre post, bq_pending q = pre ++ m :: post ∧ bq_pending q' = pre ++ post;
  pk_consumer : c ∈ bq_consumers q;
  pk_free : c ∉ busy q;
  pk_single :
    qc_singleActiveConsumer (bq_cfg q) = true → qc_partitionByGroup (bq_cfg q) = false →
    bq_inflight q = [];
  pk_pin :
    qc_partitionByGroup (bq_cfg q) = true → live_owner q' (group_of h m) = Some c;
  pk_owner :
    qc_partitionByGroup (bq_cfg q) = true →
    live_owner q (group_of h m) = Some c ∨ live_owner q (group_of h m) = None;
  pk_other : ∀ g, g ≠ group_of h m → live_owner q' g = live_owner q g
}.

Lemma nextConsumer_frame q c q' :
  nextConsumer q = (c, q') → ∃ r, q' = set_rr r q.
Proof.
  unfold nextConsumer. destruct (bq_consumers q); [|case_match; [|destruct (scanFree _ _ _ _)]];
    intros [= <- <-]; eauto; exists (bq_rr q); by destruct q.
Qed.

Lemma pickDelivery_spec h q :
  bq_consumers q ≠ [] → bq_pending q ≠ [] →
  match pickDelivery h q with
  | (Some (m, c), q') => same_frame q q' ∧ picked h q m c q'
  | (None, q') =>
      same_frame q q' ∧ bq_pending q' = bq_pending q ∧
      (∀ g, live_owner q' g = live_owner q g) ∧ quiescent h q
  end.
Proof.
  intros Hne Hpe. unfold pickDelivery, quiescent, undeliverable.
  destruct (qc_partitionByGroup (bq_cfg q)) eqn:Hpart.
  { pose proof (nextGroupDelivery_spec h q Hne) as [Hf Hr].
    destruct (nextGroupDelivery h q) as [[[m c]|] q']; simpl in *; [|naive_solver].
    destruct Hr as (j & Hj & _ & ? & ? & ? & Hpd & ? & ?). split; [done|].
    destruct (delete_split _ _ _ Hj) as [Hl Hd]. rewrite Hd in Hpd.
    split; try done; [by eexists _, _|congruence|auto..]. }
  destruct (nextConsumer q) as [[c|] q1] eqn:Hnc;
    destruct (nextConsumer_frame _ _ _ Hnc) as [r ->].
  - assert (Hc : c ∈ bq_consumers q ∧ (c ∉ busy q) ∧
        (qc_singleActiveConsumer (bq_cfg q) = true → bq_inflight q = [])).
    { unfold nextConsumer in Hnc. destruct (bq_consumers q) as [|a cs] eqn:Hcs; [done|].
      rewrite <- Hcs in *. case_match.
      - case_decide as Hl; [|done]. apply length_zero_iff_nil in Hl. simplify_eq.
        unfold busy. rewrite Hl, Hcs. set_solver.
      - pose proof (scanFree_turn (bq_consumers q) (busy q) Hne (bq_rr q)) as Ht.
        destruct (scanFree _ _ _ _) as [o r']. simplify_eq. naive_solver. }
    destruct Hc as (Hc & Hb & Hs).
    pose proof (nextPending_spec h (set_rr r q)) as Hs2.
    destruct (nextPending h (set_rr r q)) as [[m|] q2]; [|by destruct Hs2].
    destruct Hs2 as (b & _ & Hm & ->). simpl in *. split; [done|].
    destruct (delete_split _ _ _ Hm) as [Hl Hd].
    split; simpl; try done; try congruence; try (by auto).
    rewrite Hd. by eexists _, _.
  - split; [done|]. split; [done|]. split; [intros g; by apply live_owner_ext|]. intros m _.
    unfold nextConsumer in Hnc. destruct (bq_consumers q) as [|a cs] eqn:Hcs; [done|].
    rewrite <- Hcs in *. case_match.
    + case_decide as Hl; [done|]. left. intros Hi. by rewrite Hi in Hl.
    + pose proof (scanFree_turn (bq_consumers q) (busy q) Hne (bq_rr q)) as Ht.
      destruct (scanFree _ _ _ _) as [[o|] r']; [done|]. naive_solver.
Qed.

(** ** The pump loop on one queue *)

Definition allocated (h : Heap) (ms : list MsgRef) : Prop := ∀ m, m ∈ ms → m < length h.

#[export] Instance allocated_proper h : Proper ((≡ₚ) ==> iff) (allocated h).
Proof. intros l k Hlk. unfold allocated. by setoid_rewrite Hlk. Qed.

Lemma allocated_mono h h' ms : heap_le h h' → allocated h ms → allocated h' ms.
Proof. intros Hle%heap_le_length Ha m Hm. specialize (Ha _ Hm). lia. Qed.

Lemma queue_ok_heap_le h h' q :
  heap_le h h' → allocated h (queue_places q) → queue_ok h q → queue_ok h' q.
Proof.
  intros Hle Ha [? ? ? Hpin]. split; try done. intros Hp m c Hin.
  rewrite (group_of_heap_le h h'); [by apply Hpin|done|].
  apply Ha, elem_of_app. right. apply list_elem_of_fmap. by exists (m, c).
Qed.

Lemma quiescent_heap_le h h' q :
  heap_le h h' → allocated h (queue_places q) → quiescent h q → quiescent h' q.
Proof.
  intros Hle Ha Hq m Hm. specialize (Hq m Hm). unfold undeliverable in *.
  rewrite (group_of_heap_le h h'); [done..|]. apply Ha, elem_of_app. by left.
Qed.

(** Handing [m] to [c]: the state right after [queue.inflight.set(msg, consumer)]. *)
Definition hand_out (m : MsgRef) (c : AckHandler) (q : BusQueue) : BusQueue :=
  set_inflight (map_set (bq_inflight q) m c) q.

Lemma hand_out_spec h q m c q' :
  same_frame q q' → picked h q m c q' → NoDup (queue_places q) →
  bq_inflight (hand_out m c q') = bq_inflight q ++ [(m, c)] ∧
  queue_places (hand_out m c q') ≡ₚ queue_places q ∧
  bq_pending q ≡ₚ m :: bq_pending q'.
Proof.
  intros (Hc & Hi & Hk) Hpk Hnd. destruct (pk_pending _ _ _ _ _ Hpk) as (pre & post & Hp & Hp').
  assert (Hm : m ∉ (bq_inflight q).*1).
  { intros Hin. unfold queue_places in Hnd. apply NoDup_app in Hnd as (_ & Hd & _).
    apply (Hd m); [rewrite Hp; set_solver|done]. }
  assert (E : bq_inflight (hand_out m c q') = bq_inflight q ++ [(m, c)]).
  { simpl. by rewrite Hi, map_set_fresh. }
  assert (Hperm : bq_pending q ≡ₚ m :: bq_pending q') by (rewrite Hp, Hp'; solve_Permutation).
  split; [done|]. split; [|done]. unfold queue_places. rewrite E, Hperm, fmap_app. simpl.
  solve_Permutation.
Qed.

Lemma hand_out_ok h q m c q' bm :
  same_frame q q' → picked h q m c q' → NoDup (queue_places q) →
  allocated h (queue_places q) → h !! m = Some bm → queue_ok h q →
  queue_ok (<[m := bump bm]> h) (hand_out m c q').
Proof.
  intros Hf Hpk Hnd Ha Hm [Hpre Hatt Hsin Hpin].
  destruct (hand_out_spec _ _ _ _ _ Hf Hpk Hnd) as (E & Hperm & _).
  destruct Hf as (Hc & Hi & Hk). destruct Hpk as [_ Hcc Hfree Hs Hown How Hoth].
  assert (Hbusy : busy (hand_out m c q') = busy q ++ [c]).
  { unfold busy. by rewrite E, fmap_app. }
  assert (Hle : heap_le h (<[m := bump bm]> h)) by eauto with bus.
  split; rewrite ?Hbusy; unfold hand_out; simpl; rewrite ?Hc, ?Hk.
  - apply NoDup_app. repeat split; [done| |apply NoDup_singleton]. set_solver.
  - intros c' [?|?%list_elem_of_singleton]%elem_of_app; subst; auto.
  - intros H1 H2. rewrite Hi, Hs by done. done.
  - intros Hp m' c' Hin. simpl in E. rewrite E in Hin.
    assert (Hg : ∀ x, x ∈ queue_places q → group_of (<[m := bump bm]> h) x = group_of h x).
    { intros x Hx. apply group_of_heap_le; [done|by apply Ha]. }
    apply elem_of_app in Hin as [Hin|Hin%list_elem_of_singleton].
    + rewrite Hg by (apply elem_of_app; right; apply list_elem_of_fmap; by exists (m', c')).
      destruct (decide (group_of h m' = group_of h m)) as [Eg|Eg].
      * exfalso. specialize (Hpin Hp _ _ Hin). rewrite Eg in Hpin.
        destruct (How Hp) as [Ho|Ho]; [|congruence]. rewrite Ho in Hpin. injection Hpin as ->.
        apply Hfree. apply list_elem_of_fmap. by exists (m', c').
      * change (live_owner q' (group_of h m') = Some c'). rewrite Hoth by done. by apply Hpin.
    + injection Hin as -> ->. rewrite group_of_heap_le with (h := h); [by apply Hown|done|].
      by eapply lookup_lt_Some.
Qed.

(** The effect of the loop: it moves the delivered messages from [pending] to
    [inflight], in delivery order, each with its count bumped once. *)
Record pumped (h : Heap) (q : BusQueue) (h' : Heap) (q' : BusQueue)
    (ds : list (MsgRef * AckHandler * IncomingMessage)) : Prop := {
  pp_cfg : bq_cfg q' = bq_cfg q;
  pp_consumers : bq_consumers q' = bq_consumers q;
  pp_heap : heap_le h h';
  pp_length : length h' = length h;
  pp_untouched : ∀ m, m ∉ ds.*1.*1 → h' !! m = h !! m;
  pp_bumped : ∀ m c im, (m, c, im) ∈ ds →
    ∃ bm, h !! m = Some bm ∧ h' !! m = Some (bump bm) ∧ im = wrap (bump bm);
  pp_pending : bq_pending q ≡ₚ ds.*1.*1 ++ bq_pending q';
  pp_inflight : bq_inflight q' = bq_inflight q ++ ds.*1;
  pp_ok : queue_ok h' q'
}.

Lemma pumped_refl h q : queue_ok h q → pumped h q h q [].
Proof.
  intros Hok. split; try done; [intros ? ? ? H; by apply elem_of_nil in H|].
  simpl. by rewrite app_nil_r.
Qed.

Lemma queue_ok_frame h q q' :
  same_frame q q' → (∀ g, live_owner q' g = live_owner q g) → queue_ok h q → queue_ok h q'.
Proof.
  intros (Hc & Hi & Hk) Hl [H1 H2 H3 H4]. unfold busy in *.
  split; unfold busy; rewrite ?Hc, ?Hi, ?Hk; try done.
  intros. rewrite Hl. eauto.
Qed.

Lemma quiescent_frame h q q' :
  same_frame q q' → bq_pending q' = bq_pending q →
  (∀ g, live_owner q' g = live_owner q g) → quiescent h q → quiescent h q'.
Proof.
  intros (Hc & Hi & Hk) Hp Hl Hq m Hm. rewrite Hp in Hm. specialize (Hq m Hm).
  unfold undeliverable, blocked, busy in *. by rewrite Hc, Hi, Hk, Hl.
Qed.

Lemma pumped_cons h q m c q1 bm h' q' ds :
  same_frame q q1 → picked h q m c q1 → NoDup (queue_places q) → h !! m = Some bm →
  pumped (<[m := bump bm]> h) (hand_out m c q1) h' q' ds →
  pumped h q h' q' ((m, c, wrap (bump bm)) :: ds).
Proof.
  intros Hf Hpk Hnd Hm Hpp. destruct (hand_out_spec _ _ _ _ _ Hf Hpk Hnd) as (E & Hperm & Hpm).
  destruct Hf as (Hc & Hi & Hk). pose proof Hpp as [Rc Rk Rh Rl Ru Rb Rp Ri Ro].
  assert (Hnot : m ∉ ds.*1.*1).
  { intros Hin. assert (Hnd' : NoDup (queue_places (hand_out m c q1))) by by rewrite Hperm.
    unfold queue_places in Hnd'. apply NoDup_app in Hnd' as (_ & Hd & _). apply (Hd m).
    - rewrite Rp. apply elem_of_app. by left.
    - rewrite E, fmap_app. set_solver. }
  split; [by rewrite Rc|by rewrite Rk| | | | | | |done].
  - etrans; [|exact Rh]. eauto with bus.
  - by rewrite Rl, length_insert.
  - intros m'. simpl. rewrite not_elem_of_cons. intros [? ?].
    by rewrite Ru, list_lookup_insert_ne.
  - intros m' c' im [Heq|Hin]%elem_of_cons.
    + injection Heq as -> -> ->. exists bm. split; [done|]. split; [|done].
      rewrite Ru by done. apply list_lookup_insert_eq. by eapply lookup_lt_Some.
    + destruct (Rb _ _ _ Hin) as (b & Hb & ? & ?). exists b. split; [|done].
      rewrite list_lookup_insert_ne in Hb; [done|]. intros ->. apply Hnot.
      apply list_elem_of_fmap. exists (m', c'). split; [done|].
      apply list_elem_of_fmap. by exists (m', c', im).
  - rewrite Hpm. simpl in Rp |- *. by rewrite Rp.
  - rewrite Ri, E. simpl. by rewrite <- app_assoc.
Qed.

Lemma pumpQ_spec fuel h q :
  queue_ok h q → NoDup (queue_places q) → allocated h (queue_places q) →
  let '(h', q', ds) := pumpQ fuel h q in
  pumped h q h' q' ds ∧ (length (bq_pending q) ≤ fuel → quiescent h' q').
Proof.
  revert h q. induction fuel as [|fuel IH]; intros h q Hok Hnd Ha; simpl.
  { split; [by apply pumped_refl|]. intros Hl m Hm.
    destruct (bq_pending q); [by apply elem_of_nil in Hm|simpl in Hl; lia]. }
  destruct (bq_pending q) as [|m0 ms] eqn:Hp; rewrite <- ?Hp.
  { split; [by apply pumped_refl|]. intros _ m Hm. rewrite Hp in Hm. by apply elem_of_nil in Hm. }
  destruct (bq_consumers q) as [|c0 cs] eqn:Hcs; rewrite <- ?Hcs.
  { split; [by apply pumped_refl|]. intros _ m _. unfold undeliverable, blocked, live_owner.
    rewrite Hcs. repeat case_match; try (by right); intros; set_solver. }
  pose proof (pickDelivery_spec h q ltac:(by rewrite Hcs) ltac:(by rewrite Hp)) as Hpick.
  destruct (pickDelivery h q) as [[[m c]|] q1].
  - destruct Hpick as [Hf Hpk].
    destruct (hand_out_spec _ _ _ _ _ Hf Hpk Hnd) as (E & Hperm & Hpm).
    assert (Hlt : m < length h).
    { apply Ha, elem_of_app. left. rewrite Hpm. set_solver. }
    destruct (lookup_lt_is_Some_2 h m Hlt) as [bm Hm]. rewrite Hm.
    specialize (IH (<[m := bump bm]> h) (hand_out m c q1)).
    unfold hand_out in IH at 4. destruct (pumpQ fuel _ _) as [[h' q'] ds].
    destruct IH as [Hpp Hq].
    + by eapply hand_out_ok.
    + by rewrite Hperm.
    + intros x Hx. rewrite Hperm in Hx. rewrite length_insert. by apply Ha.
    + split; [by eapply pumped_cons|]. intros Hl. apply Hq.
      apply Permutation_length in Hpm. simpl in *. lia.
  - destruct Hpick as (Hf & Hpe & Hl & Hq). split.
    + assert (queue_ok h q1) by by eapply queue_ok_frame. destruct Hf as (Hc & Hi & Hk).
      split; try done; [intros ? ? ? H'; by apply elem_of_nil in H'|by rewrite Hpe|].
      simpl. by rewrite app_nil_r.
    + intros _. by eapply quiescent_frame.
Qed.

Lemma pumpQ_S fuel h q :
  pumpQ (S fuel) h q =
  match bq_pending q, bq_consumers q with
  | [], _ => (h, q, [])
  | _, [] => (h, q, [])
  | _, _ =>
      match pickDelivery h q with
      | (None, q) => (h, q, [])
      | (Some (msg, consumer), q) =>
          match h !! msg with
          | None => (h, q, [])
          | Some m =>
              let '(h', q', ds) := pumpQ fuel (<[msg := bump m]> h) (hand_out msg consumer q) in
              (h', q', (msg, consumer, wrap (bump m)) :: ds)
          end
      end
  end.
Proof. done. Qed.

(** [length pending] iterations are enough: more fuel changes nothing, so the
    model's pump is the source's unbounded [while] loop, which terminates. *)
Lemma pumpQ_fuel_S fuel h q :
  queue_ok h q → NoDup (queue_places q) → allocated h (queue_places q) →
  length (bq_pending q) ≤ fuel → pumpQ (S fuel) h q = pumpQ fuel h q.
Proof.
  revert h q. induction fuel as [|fuel IH]; intros h q Hok Hnd Ha Hl.
  { simpl. destruct (bq_pending q); [done|simpl in Hl; lia]. }
  rewrite (pumpQ_S (S fuel)), (pumpQ_S fuel).
  destruct (bq_pending q) as [|m0 ms] eqn:Hp; [done|].
  destruct (bq_consumers q) as [|c0 cs] eqn:Hcs; [done|].
  pose proof (pickDelivery_spec h q ltac:(by rewrite Hcs) ltac:(by rewrite Hp)) as Hpick.
  destruct (pickDelivery h q) as [[[m c]|] q1]; [|done].
  destruct Hpick as [Hf Hpk]. destruct (hand_out_spec _ _ _ _ _ Hf Hpk Hnd) as (E & Hperm & Hpm).
  destruct (h !! m) as [bm|] eqn:Hm; [|done].
  rewrite IH; [done|by eapply hand_out_ok|by rewrite Hperm| |].
  - intros x Hx. rewrite Hperm in Hx. rewrite length_insert. by apply Ha.
  - apply Permutation_length in Hpm. rewrite Hp in Hpm. simpl in *. lia.
Qed.

(** ** The outstanding messages of a bus *)

Definition parked_ref (t : Z * TimerAction) : option MsgRef :=
  match t.2 with RetryTimer _ m => Some m | TtlTimer _ _ => None end.

Definition timer_queue (t : TimerAction) : QRef :=
  match t with TtlTimer qr _ => qr | RetryTimer qr _ => qr end.

(** The messages waiting on a retry timer. *)
Definition parked (st : Bus) : list MsgRef := omap parked_ref (b_timers st).

(** Every message a queue still owes a settlement for. *)
Definition places (st : Bus) : list MsgRef :=
  concat (queue_places <$> b_qheap st) ++ parked st.

Record bus_wf (st : Bus) : Prop := {
  wf_nodup : NoDup (places st);
  wf_alloc : allocated (b_heap st) (places st);
  wf_queues : ∀ i q, b_qheap st !! i = Some q → queue_ok (b_heap st) q;
  wf_timers : ∀ t, t ∈ b_timers st → timer_queue t.2 < length (b_qheap st)
}.

Lemma places_split st qr q :
  b_qheap st !! qr = Some q →
  ∃ rest, concat (queue_places <$> b_qheap st) ≡ₚ queue_places q ++ rest ∧
    ∀ q', concat (queue_places <$> <[qr := q']> (b_qheap st)) ≡ₚ queue_places q' ++ rest.
Proof.
  intros Hq. destruct (delete_split _ _ _ Hq) as [Hl _].
  exists (concat (queue_places <$> take qr (b_qheap st)) ++
          concat (queue_places <$> drop (S qr) (b_qheap st))).
  assert (Hlt : qr < length (b_qheap st)) by by eapply lookup_lt_Some.
  split; [|intros q'].
  - rewrite Hl at 1. rewrite fmap_app, concat_app. simpl. solve_Permutation.
  - rewrite insert_take_drop by done. rewrite fmap_app, concat_app. simpl. solve_Permutation.
Qed.

Lemma places_queue st qr q :
  b_qheap st !! qr = Some q → ∃ rest, places st ≡ₚ queue_places q ++ rest.
Proof.
  intros (rest & Hp & _)%places_split. exists (rest ++ parked st). unfold places.
  rewrite Hp. solve_Permutation.
Qed.

Section queue_facts.
Context (st : Bus) (Hwf : bus_wf st) (qr : QRef) (q : BusQueue).
Context (Hq : b_qheap st !! qr = Some q).

Lemma wf_queue_nodup : NoDup (queue_places q).
Proof.
  destruct (places_queue _ _ _ Hq) as [rest Hp]. pose proof (wf_nodup _ Hwf) as Hnd.
  rewrite Hp in Hnd. by apply NoDup_app in Hnd as [? _].
Qed.

Lemma wf_queue_alloc : allocated (b_heap st) (queue_places q).
Proof.
  destruct (places_queue _ _ _ Hq) as [rest Hp]. intros m Hm.
  apply (wf_alloc _ Hwf). rewrite Hp. set_solver.
Qed.

Lemma wf_queue_ok : queue_ok (b_heap st) q.
Proof. by eapply wf_queues. Qed.
End queue_facts.

#[export] Hint Resolve wf_queue_nodup wf_queue_alloc wf_queue_ok : bus.

(** ** The footprint of an operation *)

(** [st'] continues [st]: existing messages keep their data, the queues stay ok, and
    the outstanding messages are those of [st] without [lost], plus freshly
    allocated ones. *)
Record footprint (lost : list MsgRef) (st st' : Bus) : Prop := {
  fp_heap : heap_le (b_heap st) (b_heap st');
  fp_places : ∃ news, lost ++ places st' ≡ₚ news ++ places st ∧ NoDup news ∧
    ∀ m, m ∈ news → length (b_heap st) ≤ m < length (b_heap st');
  fp_queues : ∀ i q, b_qheap st' !! i = Some q → queue_ok (b_heap st') q;
  fp_timers : ∀ t, t ∈ b_timers st' → timer_queue t.2 < length (b_qheap st')
}.

Definition evolves (lost : list MsgRef) (st st' : Bus) : Prop :=
  bus_wf st → footprint lost st st'.

Lemma evolves_wf lost st st' : bus_wf st → evolves lost st st' → bus_wf st'.
Proof.
  intros Hwf He. destruct (He Hwf) as [Hh (news & Hp & Hnd & Hfresh) Hqs Hts].
  assert (Hall : NoDup (lost ++ places st') ∧ allocated (b_heap st') (lost ++ places st')).
  { rewrite Hp. split.
    - apply NoDup_app. repeat split; [done| |by apply wf_nodup].
      intros m Hm Hm'. apply Hfresh in Hm. apply (wf_alloc _ Hwf) in Hm'. lia.
    - intros m [Hm|Hm]%elem_of_app; [by apply Hfresh|].
      by apply (allocated_mono _ _ _ Hh (wf_alloc _ Hwf)). }
  destruct Hall as [Hnd' Ha]. split; [|intros m Hm; apply Ha; set_solver|done|done].
  by apply NoDup_app in Hnd' as (_ & _ & ?).
Qed.

Lemma evolves_trans l1 l2 st1 st2 st3 :
  evolves l1 st1 st2 → evolves l2 st2 st3 → evolves (l2 ++ l1) st1 st3.
Proof.
  intros H12 H23 Hwf. pose proof (evolves_wf _ _ _ Hwf H12) as Hwf2.
  destruct (H12 Hwf) as [Hh1 (n1 & P1 & N1 & F1) _ _], (H23 Hwf2) as [Hh2 (n2 & P2 & N2 & F2) Q2 T2].
  pose proof (heap_le_length _ _ Hh1). pose proof (heap_le_length _ _ Hh2).
  split; [by etrans| |done|done]. exists (n2 ++ n1). split; [|split].
  - rewrite <- !app_assoc, <- P1. rewrite (app_assoc n2), (Permutation_app_comm n2), <- !app_assoc.
    rewrite <- P2. solve_Permutation.
  - apply NoDup_app. repeat split; [done| |done]. intros m Hm2%F2 Hm1%F1. lia.
  - intros m [Hm%F2|Hm%F1]%elem_of_app; lia.
Qed.

(** An update of one queue, the heap and the timers; the other fields are free. *)
Lemma evolves_local lost news st st' qr q q' :
  b_qheap st !! qr = Some q →
  b_qheap st' = <[qr := q']> (b_qheap st) →
  (∀ t, t ∈ b_timers st' → t ∈ b_timers st ∨ timer_queue t.2 = qr) →
  (bus_wf st →
    heap_le (b_heap st) (b_heap st') ∧
    lost ++ queue_places q' ++ parked st' ≡ₚ news ++ queue_places q ++ parked st ∧
    NoDup news ∧ (∀ m, m ∈ news → length (b_heap st) ≤ m < length (b_heap st')) ∧
    queue_ok (b_heap st') q') →
  evolves lost st st'.
Proof.
  intros Hq Hqs Hts H Hwf. destruct (H Hwf) as (Hh & Hp & Hnd & Hfresh & Hok).
  split; [done| | |].
  - exists news. split; [|done]. unfold places. rewrite Hqs.
    destruct (places_split _ _ _ Hq) as (rest & -> & Hr). rewrite Hr.
    transitivity (rest ++ (lost ++ queue_places q' ++ parked st')); [solve_Permutation|].
    rewrite Hp. solve_Permutation.
  - intros i qi Hi. rewrite Hqs in Hi.
    apply list_lookup_insert_Some in Hi as [(-> & -> & _)|[Hne Hi]]; [done|].
    eapply queue_ok_heap_le; eauto with bus.
  - intros t Ht. rewrite Hqs, length_insert.
    destruct (Hts t Ht) as [Ht'| ->]; [by apply (wf_timers _ Hwf)|by eapply lookup_lt_Some].
Qed.

(** Nothing the invariant reads changes. *)
Lemma evolves_same st st' :
  b_qheap st' = b_qheap st → b_heap st' = b_heap st → parked st' ≡ₚ parked st →
  (∀ t, t ∈ b_timers st' → t ∈ b_timers st) → evolves [] st st'.
Proof.
  intros Hq Hh Ht Hts Hwf. split.
  - by rewrite Hh.
  - exists []. unfold places. rewrite Hq, Ht. split; [done|]. split; [apply NoDup_nil_2|].
    intros m Hm. by apply elem_of_nil in Hm.
  - intros i q. rewrite Hq, Hh. apply (wf_queues _ Hwf).
  - intros t Hin%Hts. rewrite Hq. by apply (wf_timers _ Hwf).
Qed.

Lemma evolves_refl st : evolves [] st st.
Proof. by apply evolves_same. Qed.

#[export] Hint Resolve evolves_refl : bus.

(** A sequence of loss-free steps. *)
Lemma evolves_foldl {A} (f : Bus → A → Bus) (l : list A) st :
  (∀ st x, evolves [] st (f st x)) → evolves [] st (foldl f st l).
Proof.
  intros Hf. revert st. induction l as [|x l IH]; intros st; simpl; [apply evolves_refl|].
  change (@nil MsgRef) with (@nil MsgRef ++ []). eapply evolves_trans; [apply Hf|apply IH].
Qed.

Lemma evolves_then lost st1 st2 st3 :
  evolves lost st1 st2 → evolves [] st2 st3 → evolves lost st1 st3.
Proof. intros H1 H2. pose proof (evolves_trans _ _ _ _ _ H1 H2) as H. done. Qed.

Lemma evolves_after lost st1 st2 st3 :
  evolves [] st1 st2 → evolves lost st2 st3 → evolves lost st1 st3.
Proof. intros H1 H2. pose proof (evolves_trans _ _ _ _ _ H1 H2) as H. by rewrite app_nil_r in H. Qed.

(** ** Footprints of the operations *)

Lemma NoDup_nil_fresh (P : MsgRef → Prop) : NoDup (@nil MsgRef) ∧ ∀ m, m ∈ @nil MsgRef → P m.
Proof. split; [apply NoDup_nil_2|]. intros m Hm. by apply elem_of_nil in Hm. Qed.

Lemma queue_ok_pending h p q : queue_ok h q → queue_ok h (set_pending p q).
Proof. by intros [? ? ? ?]. Qed.

Lemma queue_ok_delete h m q :
  queue_ok h q → queue_ok h (set_inflight (map_delete (bq_inflight q) m) q).
Proof.
  intros [Hpre Hatt Hs Hp]. pose proof (map_delete_sublist (bq_inflight q) m) as Hsub.
  assert (Hb : (map_delete (bq_inflight q) m).*2 `sublist_of` busy q) by by apply fmap_sublist.
  split; unfold busy; simpl.
  - by eapply sublist_NoDup.
  - intros c Hc. apply Hatt. by eapply elem_of_sublist.
  - intros H1 H2. specialize (Hs H1 H2). apply sublist_length in Hsub. lia.
  - intros H m' c [Hin _]%elem_of_map_delete. by apply Hp.
Qed.

Lemma queue_places_settle q m c :
  NoDup (queue_places q) → map_get (bq_inflight q) m = Some c →
  queue_places q ≡ₚ m :: queue_places (set_inflight (map_delete (bq_inflight q) m) q).
Proof.
  intros Hnd Hg. apply NoDup_app in Hnd as (_ & _ & Hnd).
  destruct (map_get_split _ _ _ Hnd Hg) as (m1 & m2 & Hi & Hd).
  unfold queue_places. simpl. rewrite Hd, Hi, !fmap_app. simpl. solve_Permutation.
Qed.

Lemma pump_evolves qr st : evolves [] st (pump qr st).
Proof.
  intros Hwf. unfold pump. destruct (b_qheap st !! qr) as [q|] eqn:Hq; [|by apply evolves_refl].
  pose proof (pumpQ_spec (length (bq_pending q)) (b_heap st) q) as Hs.
  destruct (pumpQ _ _ _) as [[h q'] ds].
  destruct Hs as [Hpp _]; eauto with bus.
  revert Hwf. apply (evolves_local [] [] _ _ qr q q'); [done|done|by left|].
  intros Hwf. destruct Hpp as [_ _ Hh _ _ _ Hp Hi Hok]. split; [done|].
  split; [|by split; [apply NoDup_nil_2|split; [apply NoDup_nil_fresh|]]].
  simpl. unfold queue_places. rewrite Hp, Hi, fmap_app. unfold parked. simpl. solve_Permutation.
Qed.

(** A fresh message object pushed on a queue's pending list. *)
Lemma push_new_evolves st st' qr q m :
  b_qheap st !! qr = Some q →
  b_qheap st' = <[qr := set_pending (bq_pending q ++ [length (b_heap st)]) q]> (b_qheap st) →
  b_heap st' = b_heap st ++ [m] → parked st' = parked st →
  (∀ t, t ∈ b_timers st' → t ∈ b_timers st ∨ timer_queue t.2 = qr) →
  evolves [] st st'.
Proof.
  intros Hq Hqs Hh Hp Hts.
  eapply (evolves_local [] [length (b_heap st)]); [done|done|done|].
  intros Hwf. rewrite Hh, Hp. split; [auto with bus|]. split; [|split; [apply NoDup_singleton|split]].
  - unfold queue_places. simpl. solve_Permutation.
  - intros m' ->%list_elem_of_singleton. rewrite length_app. simpl. lia.
  - apply queue_ok_pending. apply (queue_ok_heap_le (b_heap st)); eauto with bus.
Qed.

Lemma parked_app st t : omap parked_ref (b_timers st ++ [t]) = parked st ++ omap parked_ref [t].
Proof. apply omap_app. Qed.

Lemma publish_to_evolves topic body key options st qr :
  evolves [] st (publish_to topic body key options st qr).
Proof.
  unfold publish_to. destruct (b_qheap st !! qr) as [q|] eqn:Hq; [|apply evolves_refl].
  destruct (matches _ _); [|apply evolves_refl].
  eapply evolves_then; [|apply pump_evolves].
  eapply push_new_evolves; [done|..]; repeat case_match; simpl; try done; auto;
    try (unfold parked; simpl; by rewrite omap_app, app_nil_r).
  all: intros t' Ht; apply elem_of_app in Ht as [|Ht%list_elem_of_singleton]; [by left|subst; by right].
Qed.

Lemma publish_evolves topic body rk options st : evolves [] st (publish topic body rk options st).
Proof.
  unfold publish. set (repeated := match po_dedupId options with Some _ => _ | None => _ end).
  destruct repeated; [apply evolves_refl|].
  eapply evolves_then; [|apply evolves_foldl; intros; apply publish_to_evolves].
  apply evolves_same; by case_match.
Qed.

Lemma deadLetter_evolves qr m st : evolves [] st (deadLetter qr m st).
Proof.
  unfold deadLetter. repeat case_match; auto using publish_evolves, evolves_refl.
Qed.

(** The loop of [unsubscribe] in closed form. *)
Lemma return_all_spec handler l done_ q :
  NoDup (done_ ++ l).*1 → bq_inflight q = done_ ++ l →
  foldl (return_one handler) q l =
  set_pending ((reverse (filter (λ e, e.2 = handler) l)).*1 ++ bq_pending q)
    (set_inflight (done_ ++ filter (λ e, e.2 ≠ handler) l) q).
Proof.
  revert done_ q. induction l as [|[m c] l IH]; intros dn q Hnd Hi; simpl.
  { rewrite !filter_nil, <- Hi. by destruct q. }
  unfold return_one at 2. simpl. rewrite !filter_cons. simpl. case_decide as Hc.
  - rewrite (decide_False (P := c ≠ handler)) by naive_solver.
    rewrite fmap_app in Hnd. simpl in Hnd.
    assert (Hd : map_delete (bq_inflight q) m = dn ++ l).
    { rewrite Hi. apply NoDup_app in Hnd as (_ & H1 & H2). apply NoDup_cons in H2 as [? _].
      apply map_delete_split; [|done]. intros Hin. apply (H1 m Hin). set_solver. }
    rewrite (IH dn).
    + unfold set_pending, set_inflight. simpl. f_equal.
      rewrite reverse_cons, fmap_app, <- app_assoc. done.
    + rewrite fmap_app. apply NoDup_app in Hnd as (? & H1 & H2). apply NoDup_cons in H2 as [? ?].
      apply NoDup_app. repeat split; [done| |done]. set_solver.
    + simpl. by rewrite Hd.
  - rewrite (decide_True (P := c ≠ handler)) by done.
    rewrite (IH (dn ++ [(m, c)])); rewrite <- ?app_assoc; done.
Qed.

Lemma filter_split_Permutation (l : list (MsgRef * AckHandler)) h :
  l ≡ₚ filter (λ e, e.2 = h) l ++ filter (λ e, e.2 ≠ h) l.
Proof.
  induction l as [|e l IH]; [done|]. rewrite !filter_cons.
  destruct (decide (e.2 = h)) as [Hh|Hh].
  - rewrite (decide_False (P := e.2 ≠ h)) by naive_solver. simpl. by rewrite <- IH.
  - rewrite (decide_True (P := e.2 ≠ h)) by done. rewrite IH at 1. solve_Permutation.
Qed.

(** [detach] in closed form. *)
Lemma detach_spec handler q :
  NoDup (bq_inflight q).*1 →
  detach handler q =
  set_pending ((reverse (filter (λ e, e.2 = handler) (bq_inflight q))).*1 ++ bq_pending q)
    (set_inflight (filter (λ e, e.2 ≠ handler) (bq_inflight q))
       (set_consumers (splice_first handler (bq_consumers q)) q)).
Proof. intros Hnd. unfold detach. by rewrite (return_all_spec handler _ []). Qed.

Lemma queue_places_inflight_nodup q : NoDup (queue_places q) → NoDup (bq_inflight q).*1.
Proof. intros Hnd. by apply NoDup_app in Hnd as (_ & _ & ?). Qed.

Lemma detach_places handler q :
  NoDup (queue_places q) → queue_places (detach handler q) ≡ₚ queue_places q.
Proof.
  intros Hnd%queue_places_inflight_nodup. rewrite (detach_spec _ _ Hnd).
  unfold queue_places. simpl. rewrite reverse_Permutation.
  rewrite (filter_split_Permutation (bq_inflight q) handler) at 3.
  rewrite fmap_app. solve_Permutation.
Qed.

Lemma detach_ok h handler q :
  NoDup (queue_places q) → queue_ok h q → queue_ok h (detach handler q).
Proof.
  intros Hnd%queue_places_inflight_nodup Hok. rewrite (detach_spec _ _ Hnd).
  destruct Hok as [Hpre Hatt Hs Hp].
  assert (Hsub : filter (λ e, e.2 ≠ handler) (bq_inflight q) `sublist_of` bq_inflight q).
  { generalize (bq_inflight q). induction l as [|e l IH]; [constructor|].
    rewrite filter_cons. case_decide; by constructor. }
  assert (Hkeep : ∀ m c, (m, c) ∈ filter (λ e, e.2 ≠ handler) (bq_inflight q) →
      (m, c) ∈ bq_inflight q ∧ c ∈ splice_first handler (bq_consumers q)).
  { intros m c [Hne Hin]%list_elem_of_filter. split; [done|].
    apply elem_of_splice_first_ne; [done|]. apply Hatt. apply list_elem_of_fmap. by exists (m, c). }
  split; unfold busy; simpl.
  - eapply sublist_NoDup; [exact Hpre|]. by apply fmap_sublist.
  - intros c ((m & c') & -> & Hin)%list_elem_of_fmap. by apply (Hkeep m).
  - intros H1 H2. specialize (Hs H1 H2). apply sublist_length in Hsub. lia.
  - intros H m c [Hin Hc]%Hkeep. specialize (Hp H m c Hin). unfold live_owner in *. simpl.
    destruct (map_get _ _) as [o|]; [|done]. case_decide; simplify_eq. by rewrite decide_True.
Qed.

Lemma unsubscribe_evolves sub st : evolves [] st (unsubscribe sub st).
Proof.
  unfold unsubscribe. destruct (b_qheap st !! sub_queue sub) as [q|] eqn:Hq; [|apply evolves_refl].
  eapply evolves_then; [|apply pump_evolves].
  eapply (evolves_local [] []); [done|done|by left|].
  intros Hwf. split; [done|]. split; [|split; [apply NoDup_nil_2|split; [apply NoDup_nil_fresh|]]].
  - rewrite detach_places by eauto with bus. done.
  - simpl. apply detach_ok; eauto with bus.
Qed.

Lemma attach_ok h handler q :
  queue_ok h q → queue_ok h (set_consumers (bq_consumers q ++ [handler]) q).
Proof.
  intros [Hpre Hatt Hs Hp]. split; try done; simpl.
  - intros c Hc. apply elem_of_app. left. by apply Hatt.
  - intros H m c Hin. specialize (Hp H m c Hin). unfold live_owner in *. simpl.
    destruct (map_get _ _) as [o|]; [|done]. case_decide; simplify_eq.
    rewrite decide_True; [done|]. set_solver.
Qed.

Lemma attach_evolves handler qr st : evolves [] st (attach handler qr st).
Proof.
  unfold attach. destruct (b_qheap st !! qr) as [q|] eqn:Hq; [|apply evolves_refl].
  eapply evolves_then; [|apply pump_evolves].
  eapply (evolves_local [] []); [done|done|by left|].
  intros Hwf. split; [done|]. split; [|split; [apply NoDup_nil_2|split; [apply NoDup_nil_fresh|]]].
  - done.
  - simpl. apply attach_ok; eauto with bus.
Qed.

Lemma replay_one_evolves qr st m : evolves [] st (replay_one qr st m).
Proof.
  unfold replay_one. destruct (b_qheap st !! qr) as [q|] eqn:Hq; [|apply evolves_refl].
  destruct (matches _ _); [|apply evolves_refl].
  eapply push_new_evolves; [done..|by left].
Qed.

Lemma new_queue_evolves cfg qs bt st :
  evolves [] st (with_index qs bt (with_qheap (b_qheap st ++ [new_BusQueue cfg]) st)).
Proof.
  intros Hwf. split; simpl; [done| | |].
  - exists []. split; [|split; [apply NoDup_nil_2|apply NoDup_nil_fresh]].
    unfold places, parked. simpl. rewrite fmap_app, concat_app. simpl.
    by rewrite app_nil_r.
  - intros i q Hi. apply lookup_app_Some in Hi as [Hi|[_ Hi]]; [by eapply wf_queues|].
    apply list_lookup_singleton_Some in Hi as [_ <-].
    split; simpl; [apply NoDup_nil_2| |lia|]; intros; set_solver.
  - intros t Ht. rewrite length_app. simpl. pose proof (wf_timers _ Hwf t Ht). lia.
Qed.

Lemma ensure_queue_evolves topic id options st : evolves [] st (ensure_queue topic id options st).2.
Proof.
  unfold ensure_queue. destruct (b_queues st !! key topic id); [apply evolves_refl|]. simpl.
  eapply evolves_then; [apply new_queue_evolves|].
  case_match; [|apply evolves_refl]. apply evolves_foldl. intros. apply replay_one_evolves.
Qed.

Lemma subscribe_evolves topic h options st : evolves [] st (subscribe topic h options st).2.
Proof.
  unfold subscribe. destruct (so_subscriberId options) as [id|].
  - pose proof (ensure_queue_evolves topic id options st) as H.
    destruct (ensure_queue _ _ _ _) as [qr st']. eapply evolves_then; [done|apply attach_evolves].
  - set (st1 := with_seq _ st).
    pose proof (ensure_queue_evolves topic ("sub-" +:+ pretty (b_seq st1)) options st1) as H.
    destruct (ensure_queue _ _ _ _) as [qr st'].
    eapply evolves_after; [|eapply evolves_then; [done|apply attach_evolves]].
    by apply evolves_same.
Qed.

(** The message a settlement takes out of the bus for good. *)
Definition settle_lost (qr : QRef) (m : MsgRef) (consumer : AckHandler) (resolved : Resolution)
    (st : Bus) : list MsgRef :=
  match b_qheap st !! qr with
  | None => []
  | Some q =>
      if decide (map_get (bq_inflight q) m = Some consumer) then
        match resolved with
        | RAck | RDead => [m]
        | RRequeue =>
            if decide (qc_maxDeliveries (bq_cfg q) ≤
                       default 0 (bm_deliveryCount <$> b_heap st !! m))%Z
            then [m] else []
        end
      else []
  end.

(** Taking a message out of a queue's in-flight map and putting it at [back]. *)
Lemma take_out_evolves lost back st st' qr q m c :
  b_qheap st !! qr = Some q → map_get (bq_inflight q) m = Some c →
  b_heap st' = b_heap st →
  b_qheap st' = <[qr := set_pending (bq_pending q ++ back)
    (set_inflight (map_delete (bq_inflight q) m) q)]> (b_qheap st) →
  lost ++ back ++ parked st' ≡ₚ m :: parked st →
  (∀ t, t ∈ b_timers st' → t ∈ b_timers st ∨ timer_queue t.2 = qr) →
  evolves lost st st'.
Proof.
  intros Hq Hg Hh Hqs Hp Hts. eapply (evolves_local lost []); [done|done|done|].
  intros Hwf. rewrite Hh. split; [done|].
  split; [|split; [apply NoDup_nil_2|split; [apply NoDup_nil_fresh|]]].
  - pose proof (queue_places_settle q m c) as E. rewrite E by eauto with bus.
    unfold queue_places. simpl.
    transitivity (bq_pending q ++ (map_delete (bq_inflight q) m).*1 ++ (lost ++ back ++ parked st'));
      [solve_Permutation|]. rewrite Hp. solve_Permutation.
  - apply queue_ok_pending, queue_ok_delete. eauto with bus.
Qed.

Lemma settle_evolves qr m c resolved st :
  evolves (settle_lost qr m c resolved st) st (settle qr m c resolved st).
Proof.
  unfold settle, settle_lost. destruct (b_qheap st !! qr) as [q|] eqn:Hq; [|apply evolves_refl].
  case_decide as Hg; [|apply evolves_refl]. simpl.
  assert (Hout : evolves [m] st
    (with_queue qr (set_inflight (map_delete (bq_inflight q) m) q) st)).
  { eapply (take_out_evolves [m] []); [done|done|done| |done|by left].
    simpl. by rewrite app_nil_r; destruct q. }
  destruct resolved.
  - eapply evolves_then; [exact Hout|apply pump_evolves].
  - case_decide.
    + eapply evolves_then; [exact Hout|].
      eapply evolves_then; [apply deadLetter_evolves|apply pump_evolves].
    + destruct (retry_delay _) as [d|]; (eapply evolves_then; [|apply pump_evolves]).
      * eapply (take_out_evolves [] []); [done|done|done| | |].
        -- simpl. by rewrite app_nil_r; destruct q.
        -- unfold parked. simpl. rewrite omap_app. simpl. solve_Permutation.
        -- intros t [|Ht%list_elem_of_singleton]%elem_of_app; [by left|right; by subst].
      * eapply (take_out_evolves [] [m]); [done|done|done| |done|by left].
        simpl. by rewrite list_insert_insert_eq.
  - eapply evolves_then; [exact Hout|].
    eapply evolves_then; [apply deadLetter_evolves|apply pump_evolves].
Qed.

(** The message an expiry takes out of its queue. *)
Definition expire_lost (qr : QRef) (m : MsgRef) (st : Bus) : list MsgRef :=
  match b_qheap st !! qr, b_heap st !! m with
  | Some q, Some _ =>
      if decide (m ∈ bq_pending q) then [m]
      else if map_has (bq_inflight q) m then [m] else []
  | _, _ => []
  end.

Lemma expire_evolves qr m st : evolves (expire_lost qr m st) st (expire qr m st).
Proof.
  unfold expire, expire_lost. destruct (b_qheap st !! qr) as [q|] eqn:Hq; [|apply evolves_refl].
  destruct (b_heap st !! m) as [msg|]; [|apply evolves_refl].
  destruct (index_of m (bq_pending q)) as [i|] eqn:Hi.
  - apply index_of_Some in Hi.
    rewrite decide_True by (by eapply list_elem_of_lookup_2).
    eapply evolves_then; [|apply publish_evolves].
    eapply (evolves_local [m] []); [done|done|by left|].
    intros Hwf. split; [done|]. split; [|split; [apply NoDup_nil_2|split; [apply NoDup_nil_fresh|]]].
    + unfold queue_places, parked. simpl. rewrite (delete_Permutation _ _ _ Hi) at 2. done.
    + simpl. apply queue_ok_pending. eauto with bus.
  - apply index_of_None in Hi. rewrite decide_False by done. unfold map_has.
    case_bool_decide as Hg.
    + destruct Hg as [c Hg]. eapply evolves_then; [|apply publish_evolves].
      eapply (take_out_evolves [m] []); [done|done|done| |done|by left].
      simpl. by rewrite app_nil_r; destruct q.
    + apply evolves_same; try done. simpl. by apply list_insert_id.
Qed.

Lemma parked_delete st i t :
  b_timers st !! i = Some t →
  parked st ≡ₚ omap parked_ref [t] ++ parked (with_timers (delete i (b_timers st)) st).
Proof.
  intros Hi. destruct (delete_split _ _ _ Hi) as [Hl Hd]. unfold parked. simpl.
  rewrite Hd, Hl at 1. rewrite (cons_middle t), !omap_app. solve_Permutation.
Qed.

Lemma elem_of_list_delete {A} (l : list A) i x : x ∈ delete i l → x ∈ l.
Proof.
  rewrite delete_take_drop, elem_of_app. intros [Hx|Hx].
  - eapply elem_of_sublist; [done|apply sublist_take].
  - eapply elem_of_sublist; [done|apply sublist_drop].
Qed.

Definition timer_lost (t : TimerAction) (st : Bus) : list MsgRef :=
  match t with TtlTimer qr m => expire_lost qr m st | RetryTimer _ _ => [] end.

(** A retry timer's message moves to its queue. *)
Lemma unparked_evolves i d qr m q st :
  b_timers st !! i = Some (d, RetryTimer qr m) → b_qheap st !! qr = Some q →
  evolves [] st (with_queue qr (set_pending (bq_pending q ++ [m]) q) (with_timers (delete i (b_timers st)) st)).
Proof.
  intros Hi Hq. pose proof (parked_delete _ _ _ Hi) as Hp. simpl in Hp.
  eapply (evolves_local [] []); [done|done|intros t Ht; left; simpl in Ht; by apply elem_of_list_delete in Ht|].
  intros Hwf. split; [done|]. split; [|split; [apply NoDup_nil_2|split; [apply NoDup_nil_fresh|]]].
  - unfold queue_places. simpl. rewrite Hp. unfold parked. simpl. solve_Permutation.
  - simpl. apply queue_ok_pending. eauto with bus.
Qed.

Lemma run_timer_evolves i d t st :
  b_timers st !! i = Some (d, t) →
  evolves (timer_lost t st) st (run_timer t (with_timers (delete i (b_timers st)) st)).
Proof.
  intros Hi. pose proof (parked_delete _ _ _ Hi) as Hp. destruct t as [qr m|qr m]; simpl in *.
  - eapply evolves_after; [|apply (expire_evolves qr m (with_timers _ st))].
    apply evolves_same; try done. intros t. apply elem_of_list_delete.
  - intros Hwf. assert (Hlt : qr < length (b_qheap st)).
    { apply (wf_timers _ Hwf (d, RetryTimer qr m)). by eapply list_elem_of_lookup_2. }
    destruct (lookup_lt_is_Some_2 _ _ Hlt) as [q Hq]. revert Hwf.
    unfold unpark. simpl. rewrite Hq. eapply evolves_then; [|apply pump_evolves].
    by eapply unparked_evolves.
Qed.

Definition guarded_lost (i : nat) (resolved : Resolution) (st : Bus) : list MsgRef :=
  match b_deliveries st !! i with
  | Some d =>
      if dl_started d then settle_lost (dl_queue d) (dl_msg d) (dl_consumer d) resolved st else []
  | None => []
  end.

Lemma guarded_evolves i resolved st :
  evolves (guarded_lost i resolved st) st (guarded i resolved st).
Proof.
  unfold guarded, guarded_lost. destruct (b_deliveries st !! i) as [d|]; [|apply evolves_refl].
  destruct (dl_started d); [|apply evolves_refl].
  eapply evolves_after; [|apply (settle_evolves _ _ _ _ (with_delivery i (mark_settled d) st))].
  by apply evolves_same.
Qed.

(** The outstanding messages an operation takes out of the bus: those acked,
    dead-lettered or dropped by a settlement, and those that expire. *)
Definition op_lost (op : BusOp) (st : Bus) : list MsgRef :=
  match op with
  | OpAck i => guarded_lost i RAck st
  | OpNack i requeue => guarded_lost i (if requeue then RRequeue else RDead) st
  | OpThrow i =>
      match b_deliveries st !! i with
      | Some d => if dl_settled d then [] else guarded_lost i RRequeue st
      | None => []
      end
  | OpTimer i => match b_timers st !! i with Some (_, t) => timer_lost t st | None => [] end
  | _ => []
  end.

Lemma exec_evolves op st : evolves (op_lost op st) st (exec op st).
Proof.
  destruct op as [| | |i|i r|i| |i|]; simpl.
  - apply publish_evolves.
  - apply subscribe_evolves.
  - apply unsubscribe_evolves.
  - apply guarded_evolves.
  - apply guarded_evolves.
  - unfold handler_throws. destruct (b_deliveries st !! i) as [d|] eqn:Hd; [|apply evolves_refl].
    destruct (dl_settled d); [apply evolves_refl|]. apply guarded_evolves.
  - unfold run_microtask. destruct (b_microtasks st); [apply evolves_refl|]. by apply evolves_same.
  - unfold fire_timer. destruct (b_timers st !! i) as [[d t]|] eqn:Ht; [|apply evolves_refl].
    by eapply run_timer_evolves.
  - by apply evolves_same.
Qed.

Lemma new_bus_wf : bus_wf new_InMemoryBus.
Proof.
  split; simpl.
  - apply NoDup_nil_2.
  - intros m Hm. by apply elem_of_nil in Hm.
  - done.
  - intros t Ht. by apply elem_of_nil in Ht.
Qed.

Lemma reachable_wf st : reachable st → bus_wf st.
Proof.
  induction 1 as [|st op _ IH]; [apply new_bus_wf|]. by eapply evolves_wf, exec_evolves.
Qed.

#[export] Hint Resolve reachable_wf : bus.

Lemma run_reachable ops st : reachable st → reachable (run ops st).
Proof.
  revert st. induction ops as [|op ops IH]; intros st Hst; [done|].
  apply IH. by constructor.
Qed.
