(* ===== verification/BusSafety.v ===== *)
(** Safety of the in-memory bus over all its reachable states: the invariants as
    properties, and a ledger of issued and outstanding messages under which a settled
    message never comes back. *)

From S2P Require Import Prelude Abstractions TopicMatch BusQueue InMemoryBus BusInvariants.

(** ** The ledger

    A broker that has issued the message ids below [issued] and still owes a
    settlement for the [outstanding] ones. *)
Module Spec.
Record broker := { outstanding : gset nat; issued : nat }.

Inductive step : broker → broker → Prop :=
  | accept b news n :
      issued b ≤ n → (∀ m, m ∈ news → issued b ≤ m < n) →
      step b {| outstanding := news ∪ outstanding b; issued := n |}
  | settle b m :
      m ∈ outstanding b →
      step b {| outstanding := outstanding b ∖ {[m]}; issued := issued b |}.

(** A settled message is never outstanding again. *)
Lemma settled_stable b b' m :
  rtc step b b' → m < issued b → m ∉ outstanding b → m < issued b' ∧ m ∉ outstanding b'.
Proof.
  induction 1 as [|b1 b2 b3 Hstep _ IH]; [done|]. intros Hi Ho. apply IH.
  - inversion Hstep; simpl; lia.
  - inversion Hstep as [? news n ? Hn|]; subst; simpl; [|set_solver].
    rewrite not_elem_of_union. split; [|done]. intros Hm%Hn. lia.
Qed.
End Spec.

Definition abs (st : Bus) : Spec.broker :=
  {| Spec.outstanding := list_to_set (places st); Spec.issued := length (b_heap st) |}.

Lemma op_lost_small op st : op_lost op st = [] ∨ ∃ m, op_lost op st = [m].
Proof.
  assert (Hs : ∀ qr m c r st, settle_lost qr m c r st = [] ∨ ∃ x, settle_lost qr m c r st = [x]).
  { intros. unfold settle_lost. repeat case_match; eauto. }
  assert (Hg : ∀ i r st, guarded_lost i r st = [] ∨ ∃ x, guarded_lost i r st = [x]).
  { intros. unfold guarded_lost. repeat case_match; eauto. }
  destruct op; simpl; eauto.
  - repeat case_match; eauto.
  - case_match; [|eauto]. destruct p as [? [|]]; simpl; [|eauto].
    unfold expire_lost. repeat case_match; eauto.
Qed.

Lemma exec_refines op st : bus_wf st → rtc Spec.step (abs st) (abs (exec op st)).
Proof.
  intros Hwf. destruct (exec_evolves op st Hwf) as [Hh (news & Hp & Hnd & Hf) _ _].
  apply heap_le_length in Hh.
  assert (Hwf' : bus_wf (exec op st)) by (eapply evolves_wf; [done|apply exec_evolves]).
  eapply rtc_l.
  { apply (Spec.accept (abs st) (list_to_set news) (length (b_heap (exec op st)))); [done|].
    intros m Hm%elem_of_list_to_set. by apply Hf. }
  assert (Hset : list_to_set news ∪ list_to_set (places st) =@{gset nat}
            list_to_set (op_lost op st) ∪ list_to_set (places (exec op st))).
  { apply set_eq. intros m. rewrite !elem_of_union, !elem_of_list_to_set, <- !elem_of_app.
    by rewrite Hp. }
  assert (Hnd' : NoDup (op_lost op st ++ places (exec op st))).
  { rewrite Hp. apply NoDup_app. repeat split; [done| |by apply wf_nodup].
    intros m Hm Hm'. apply Hf in Hm. apply (wf_alloc _ Hwf) in Hm'. lia. }
  simpl. rewrite Hset. destruct (op_lost_small op st) as [E|[m E]]; rewrite E in *.
  - replace (list_to_set [] ∪ list_to_set (places (exec op st)) : gset nat)
      with (list_to_set (places (exec op st)) : gset nat) by set_solver. apply rtc_refl.
  - eapply rtc_l; [apply (Spec.settle _ m); simpl; set_solver|]. simpl.
    apply NoDup_app in Hnd' as (_ & Hd & _).
    assert (m ∉ places (exec op st)) by (apply Hd; set_solver).
    replace ((({[m]} ∪ ∅) ∪ list_to_set (places (exec op st))) ∖ {[m]} : gset nat)
      with (list_to_set (places (exec op st)) : gset nat); [apply rtc_refl|].
    apply set_eq. intros x. rewrite !elem_of_difference, !elem_of_union, elem_of_list_to_set.
    set_solver.
Qed.

Lemma run_refines ops st : reachable st → rtc Spec.step (abs st) (abs (run ops st)).
Proof.
  revert st. induction ops as [|op ops IH]; intros st Hst; [done|]. simpl.
  etrans; [apply exec_refines; auto with bus|]. apply IH. by constructor.
Qed.

(** ** Concrete runs used by the witnesses *)

Definition sub_options (id : string) (dl : bool) (max : Z) : SubscribeOptions := {|
  so_kind := None; so_routingKey := None; so_subscriberId := Some id;
  so_deadLetter := Some dl; so_maxDeliveries := Some max; so_retryDelayMs := None;
  so_partitionByGroup := None; so_singleActiveConsumer := None; so_streamReplay := None;
  so_transient := None; so_priorityQueue := None; so_ttlMs := None |}.

(** Two competing consumers 1 and 2 on one queue, three messages, the first two handed
    out and their handlers called. *)
Definition demo_run : list BusOp :=
  [OpSubscribe "t" 1 (sub_options "w" true 3); OpSubscribe "t" 2 (sub_options "w" true 3);
   OpPublish "t" "a" None no_publish_options; OpPublish "t" "b" None no_publish_options;
   OpPublish "t" "c" None no_publish_options; OpMicrotask; OpMicrotask].

Definition demo_bus : Bus := run demo_run new_InMemoryBus.

Lemma demo_bus_reachable : reachable demo_bus.
Proof. apply run_reachable, reachable_init. Qed.

(** ** Properties *)

(** an acknowledged (or dead-lettered, or expired) message is gone for good: once
    an issued message is in no queue and on no retry timer, no sequence of operations
    ever puts it back, so it is never delivered again. *)
Theorem settled_never_returns (st : Bus) (ops : list BusOp) (m : MsgRef) :
  reachable st → m < length (b_heap st) → m ∉ places st → m ∉ places (run ops st).
Proof.
  intros Hst Hm Hp. pose proof (run_refines ops st Hst) as Hr.
  destruct (Spec.settled_stable _ _ m Hr) as [_ Hout]; simpl; [done| |].
  - by rewrite elem_of_list_to_set.
  - simpl in Hout. by rewrite elem_of_list_to_set in Hout.
Qed.

Lemma settled_never_returns_witness :
  0 ∉ places (run [OpUnsubscribe {| sub_queue := 0; sub_handler := 1 |}; OpNack 0 true]
                (exec (OpAck 0) demo_bus)).
Proof.
  apply (settled_never_returns (exec (OpAck 0) demo_bus) _ 0).
  - apply reachable_step, demo_bus_reachable.
  - by_compute.
  - by_compute.
Defined.

(** every message object is in exactly one place: no reachable state holds the
    same message twice among all pending lists, in-flight maps and retry timers. *)
Theorem one_place (st : Bus) : reachable st → NoDup (places st).
Proof. intros Hst. apply wf_nodup. auto with bus. Qed.

Lemma one_place_witness : NoDup (places demo_bus).
Proof. apply (one_place demo_bus demo_bus_reachable). Defined.

(** prefetch 1.  In every reachable state each consumer of a queue holds at most
    one un-settled message of that queue, and only attached consumers hold any. *)
Theorem prefetch_one (st : Bus) (qr : QRef) (q : BusQueue) :
  reachable st → b_qheap st !! qr = Some q →
  NoDup (busy q) ∧ ∀ c, c ∈ busy q → c ∈ bq_consumers q.
Proof.
  intros Hst Hq. destruct (wf_queue_ok st (reachable_wf _ Hst) qr q Hq). done.
Qed.

Definition demo_queue : BusQueue := default (new_BusQueue (demo_cfg false false)) (b_qheap demo_bus !! 0).

Lemma prefetch_one_witness :
  NoDup (busy demo_queue) ∧ ∀ c, c ∈ busy demo_queue → c ∈ bq_consumers demo_queue.
Proof. apply (prefetch_one demo_bus 0 demo_queue demo_bus_reachable).
  vm_compute. reflexivity.
Defined.

(** C14: single active consumer.  On a single-active queue that is not partitioned by
    group at most one message is in flight, in every reachable state. *)
Theorem single_active_serial (st : Bus) (qr : QRef) (q : BusQueue) :
  reachable st → b_qheap st !! qr = Some q →
  qc_singleActiveConsumer (bq_cfg q) = true → qc_partitionByGroup (bq_cfg q) = false →
  length (bq_inflight q) ≤ 1.
Proof.
  intros Hst Hq. destruct (wf_queue_ok st (reachable_wf _ Hst) qr q Hq). auto.
Qed.

Definition mode_options (id : string) (group single : bool) : SubscribeOptions := {|
  so_kind := None; so_routingKey := None; so_subscriberId := Some id;
  so_deadLetter := None; so_maxDeliveries := None; so_retryDelayMs := None;
  so_partitionByGroup := Some group; so_singleActiveConsumer := Some single;
  so_streamReplay := None; so_transient := None; so_priorityQueue := None; so_ttlMs := None |}.

Definition group_options (g : string) : PublishOptions := {|
  po_priority := None; po_groupId := Some g; po_dedupId := None; po_replyTo := None;
  po_correlationId := None; po_ttlMs := None; po_headers := None |}.

(** Two consumers, four messages of the groups a, a, b, b. *)
Definition mode_bus (group single : bool) : Bus :=
  run [OpSubscribe "t" 1 (mode_options "w" group single);
       OpSubscribe "t" 2 (mode_options "w" group single);
       OpPublish "t" "a1" None (group_options "a"); OpPublish "t" "a2" None (group_options "a");
       OpPublish "t" "b1" None (group_options "b"); OpPublish "t" "b2" None (group_options "b")]
    new_InMemoryBus.

Definition mode_queue (group single : bool) : BusQueue :=
  default (new_BusQueue (demo_cfg false false)) (b_qheap (mode_bus group single) !! 0).

Lemma mode_bus_reachable group single : reachable (mode_bus group single).
Proof. apply run_reachable, reachable_init. Qed.

Lemma single_active_serial_witness : length (bq_inflight (mode_queue false true)) ≤ 1.
Proof.
  apply (single_active_serial (mode_bus false true) 0 (mode_queue false true)
           (mode_bus_reachable false true)); vm_compute; reflexivity.
Defined.

(** C16: ordered groups are never split.  In every reachable state of a partitioned
    queue, a group has at most one message in flight, and it is held by the consumer
    the group is pinned to. *)
Theorem group_never_split (st : Bus) (qr : QRef) (q : BusQueue) m1 c1 m2 c2 :
  reachable st → b_qheap st !! qr = Some q → qc_partitionByGroup (bq_cfg q) = true →
  (m1, c1) ∈ bq_inflight q → (m2, c2) ∈ bq_inflight q →
  group_of (b_heap st) m1 = group_of (b_heap st) m2 →
  m1 = m2 ∧ c1 = c2 ∧ live_owner q (group_of (b_heap st) m1) = Some c1.
Proof.
  intros Hst Hq Hpart H1 H2 Hg.
  destruct (wf_queue_ok st (reachable_wf _ Hst) qr q Hq) as [Hpre _ _ Hpin].
  pose proof (Hpin Hpart _ _ H1) as P1. pose proof (Hpin Hpart _ _ H2) as P2.
  rewrite Hg, P2 in P1. injection P1 as ->. rewrite Hg. split; [|done].
  apply list_elem_of_lookup in H1 as [i Hi], H2 as [j Hj].
  assert (i = j) as ->.
  { eapply (NoDup_lookup (busy q)); [done|..]; unfold busy; rewrite list_lookup_fmap;
      [by rewrite Hi|by rewrite Hj]. }
  congruence.
Qed.

Lemma group_never_split_witness :
  0 = 0 ∧ 1 = 1 ∧
  live_owner (mode_queue true false) (group_of (b_heap (mode_bus true false)) 0) = Some 1.
Proof.
  apply (group_never_split (mode_bus true false) 0 (mode_queue true false) 0 1 0 1
           (mode_bus_reachable true false)).
  - vm_compute. reflexivity.
  - vm_compute. reflexivity.
  - by_compute.
  - by_compute.
  - reflexivity.
Defined.
