(* ===== verification/BusProgress.v ===== *)
(** Loss and progress of the in-memory bus: the only ways a message leaves the bus,
    and work conservation (a queue never sits on a message it could hand out),
    with the one operation that breaks it. *)

From S2P Require Import Prelude Abstractions TopicMatch BusQueue InMemoryBus BusInvariants BusSafety.

(** ** Why a message left *)

(** [deliveryCount] of a message object. *)
Definition delivery_count (st : Bus) (m : MsgRef) : Z :=
  default 0%Z (bm_deliveryCount <$> b_heap st !! m).

(** The causes for which operation [op] takes [m] out of the bus: its handler acked
    it, nacked it without requeue, nacked it or threw on the last allowed attempt, or
    its TTL timer fired. *)
Definition lost_cause (st : Bus) (op : BusOp) (m : MsgRef) : Prop :=
  (∃ i d, b_deliveries st !! i = Some d ∧ dl_msg d = m ∧ dl_started d = true ∧
     (op = OpAck i ∨ op = OpNack i false ∨
      ((op = OpNack i true ∨ op = OpThrow i) ∧
       ∃ q, b_qheap st !! dl_queue d = Some q ∧
            (qc_maxDeliveries (bq_cfg q) ≤ delivery_count st m)%Z))) ∨
  (∃ i ttl qr, b_timers st !! i = Some (ttl, TtlTimer qr m) ∧ op = OpTimer i).

Lemma settle_lost_elem qr m c r st x :
  x ∈ settle_lost qr m c r st →
  x = m ∧ (r = RRequeue → ∃ q, b_qheap st !! qr = Some q ∧
           (qc_maxDeliveries (bq_cfg q) ≤ delivery_count st m)%Z).
Proof.
  unfold settle_lost, delivery_count. repeat case_match; intros Hx;
    try (by apply elem_of_nil in Hx); apply list_elem_of_singleton in Hx as ->;
    (split; [done|]); intros; try done; eauto.
Qed.

Lemma guarded_lost_elem i r st x :
  x ∈ guarded_lost i r st →
  ∃ d, b_deliveries st !! i = Some d ∧ dl_msg d = x ∧ dl_started d = true ∧
    (r = RRequeue → ∃ q, b_qheap st !! dl_queue d = Some q ∧
     (qc_maxDeliveries (bq_cfg q) ≤ delivery_count st x)%Z).
Proof.
  unfold guarded_lost. destruct (b_deliveries st !! i) as [d|] eqn:Hd;
    [|intros Hx; by apply elem_of_nil in Hx].
  destruct (dl_started d) eqn:Hs; [|intros Hx; by apply elem_of_nil in Hx].
  intros [-> Hr]%settle_lost_elem. by exists d.
Qed.

Lemma op_lost_cause op st m : m ∈ op_lost op st → lost_cause st op m.
Proof.
  unfold lost_cause. destruct op as [| | |i|i r|i| |i|]; simpl;
    try (intros Hx; by apply elem_of_nil in Hx).
  - intros (d & ? & ? & ? & _)%guarded_lost_elem. left. exists i, d. auto.
  - intros (d & ? & ? & ? & Hr)%guarded_lost_elem. left. exists i, d.
    destruct r; naive_solver.
  - destruct (b_deliveries st !! i) as [d|] eqn:Hd; [|intros Hx; by apply elem_of_nil in Hx].
    destruct (dl_settled d); [intros Hx; by apply elem_of_nil in Hx|].
    intros (d' & ? & ? & ? & Hr)%guarded_lost_elem. left. exists i, d'. naive_solver.
  - destruct (b_timers st !! i) as [[ttl [qr m'|]]|] eqn:Ht; simpl;
      try (intros Hx; by apply elem_of_nil in Hx).
    unfold expire_lost. repeat case_match; intros Hx; try (by apply elem_of_nil in Hx);
      apply list_elem_of_singleton in Hx as ->; right; by exists i, ttl, qr.
Qed.

(** ** Work conservation *)

(** Every queue whose reference satisfies [P] is at rest. *)
Definition quiet_on (P : QRef → Prop) (st : Bus) : Prop :=
  ∀ i q, b_qheap st !! i = Some q → P i → quiescent (b_heap st) q.

Definition quiet : Bus → Prop := quiet_on (λ _, True).

Lemma quiet_on_weaken (P Q : QRef → Prop) st :
  (∀ i, Q i → P i) → quiet_on P st → quiet_on Q st.
Proof. intros HPQ Hq i q Hi HQ. eauto. Qed.

(** Changing one queue keeps the others at rest. *)
Lemma quiet_on_other P qr q' st st' :
  bus_wf st → heap_le (b_heap st) (b_heap st') →
  b_qheap st' = <[qr := q']> (b_qheap st) →
  quiet_on P st → quiet_on (λ i, P i ∧ i ≠ qr) st'.
Proof.
  intros Hwf Hh Hqs Hq i q Hi [HP Hne]. rewrite Hqs, list_lookup_insert_ne in Hi by done.
  eapply quiescent_heap_le; eauto with bus.
Qed.

Lemma quiet_on_same P st st' :
  b_qheap st' = b_qheap st → b_heap st' = b_heap st → quiet_on P st → quiet_on P st'.
Proof. intros Hq Hh H i q. rewrite Hq, Hh. apply H. Qed.

Lemma pump_quiet P qr st :
  bus_wf st → quiet_on (λ i, P i ∧ i ≠ qr) st → quiet_on P (pump qr st).
Proof.
  intros Hwf Hq. unfold pump. destruct (b_qheap st !! qr) as [q|] eqn:Hqr.
  - pose proof (pumpQ_spec (length (bq_pending q)) (b_heap st) q) as Hs.
    destruct (pumpQ _ _ _) as [[h q'] ds].
    destruct Hs as [Hpp Hqq]; eauto with bus. specialize (Hqq ltac:(done)).
    destruct Hpp as [_ _ Hh _ _ _ _ _ _].
    intros i qi Hi HP. simpl in Hi |- *.
    apply list_lookup_insert_Some in Hi as [(-> & -> & _)|[Hne Hi]]; [done|].
    eapply quiescent_heap_le; eauto with bus.
  - intros i qi Hi HP. apply (Hq i qi Hi). split; [done|congruence].
Qed.

Lemma publish_to_quiet P topic body key options st qr :
  bus_wf st → quiet_on P st → quiet_on P (publish_to topic body key options st qr).
Proof.
  intros Hwf Hq. unfold publish_to. destruct (b_qheap st !! qr) as [q|] eqn:Hqr; [|done].
  destruct (matches _ _); [|done]. simpl.
  set (st2 := match po_ttlMs options with Some _ => _ | None => _ end).
  assert (Hst2 : b_heap st2 = b_heap st ++
      [mk_message ("mem-bus-" +:+ pretty (S (b_seq st))) topic body key options] ∧
    b_qheap st2 = <[qr := set_pending (bq_pending q ++ [length (b_heap st)]) q]> (b_qheap st) ∧
    parked st2 = parked st ∧
    ∀ t, t ∈ b_timers st2 → t ∈ b_timers st ∨ timer_queue t.2 = qr).
  { unfold st2. repeat case_match; simpl; repeat split; auto.
    - unfold parked. simpl. by rewrite omap_app, app_nil_r.
    - intros t [| ->%list_elem_of_singleton]%elem_of_app; auto. }
  destruct Hst2 as (Hh & Hqs & Hp & Hts).
  apply pump_quiet.
  - eapply evolves_wf; [exact Hwf|]. by eapply push_new_evolves.
  - eapply quiet_on_other; [done| |exact Hqs|done]. rewrite Hh. auto with bus.
Qed.

Lemma foldl_quiet {A} P (f : Bus → A → Bus) (l : list A) st :
  (∀ st x, evolves [] st (f st x)) →
  (∀ st x, bus_wf st → quiet_on P st → quiet_on P (f st x)) →
  bus_wf st → quiet_on P st → quiet_on P (foldl f st l).
Proof.
  intros He Hf. revert st. induction l as [|x l IH]; intros st Hwf Hq; [done|].
  apply IH; [by eapply evolves_wf|by apply Hf].
Qed.

Lemma publish_quiet P topic body rk options st :
  bus_wf st → quiet_on P st → quiet_on P (publish topic body rk options st).
Proof.
  intros Hwf Hq. unfold publish.
  set (repeated := match po_dedupId options with Some _ => _ | None => _ end).
  destruct repeated; [done|]. apply foldl_quiet.
  - intros. apply publish_to_evolves.
  - intros. by apply publish_to_quiet.
  - eapply evolves_wf; [exact Hwf|]. apply evolves_same; by case_match.
  - eapply quiet_on_same; [..|exact Hq]; by case_match.
Qed.

Lemma deadLetter_quiet P qr m st :
  bus_wf st → quiet_on P st → quiet_on P (deadLetter qr m st).
Proof. intros. unfold deadLetter. repeat case_match; auto using publish_quiet. Qed.

(** Update one queue, then pump it. *)
Lemma pump_after P qr q' st st' :
  bus_wf st → bus_wf st' → heap_le (b_heap st) (b_heap st') →
  b_qheap st' = <[qr := q']> (b_qheap st) → quiet_on P st → quiet_on P (pump qr st').
Proof. intros. apply pump_quiet; [done|]. by apply (quiet_on_other P qr q' st). Qed.

Lemma settle_quiet P qr m c r st :
  bus_wf st → quiet_on P st → quiet_on P (settle qr m c r st).
Proof.
  intros Hwf Hq. unfold settle. destruct (b_qheap st !! qr) as [q|] eqn:Hqr; [|done].
  case_decide as Hg; [|done]. simpl.
  set (q1 := set_inflight (map_delete (bq_inflight q) m) q).
  assert (Hout : evolves [m] st (with_queue qr q1 st)).
  { eapply (take_out_evolves [m] []); [done|done|done| |done|by left].
    simpl. by rewrite app_nil_r; destruct q. }
  assert (Hwf1 : bus_wf (with_queue qr q1 st)) by by eapply evolves_wf.
  assert (Hq1 : quiet_on (λ i, P i ∧ i ≠ qr) (with_queue qr q1 st)).
  { by apply (quiet_on_other P qr q1 st). }
  assert (Hdead : quiet_on P (pump qr (deadLetter qr m (with_queue qr q1 st)))).
  { apply pump_quiet; [by eapply evolves_wf, deadLetter_evolves|]. by apply deadLetter_quiet. }
  destruct r; [by apply pump_quiet| |done].
  case_decide as Hmax; [done|].
  pose proof (settle_evolves qr m c RRequeue st) as He.
  destruct (retry_delay _) as [d|].
  - apply pump_quiet; [|done]. eapply evolves_wf; [exact Hwf|].
    eapply (take_out_evolves [] []); [done|done|done| | |].
    + simpl. unfold q1. by rewrite app_nil_r; destruct q.
    + unfold parked. simpl. rewrite omap_app. simpl. solve_Permutation.
    + intros t [|Ht%list_elem_of_singleton]%elem_of_app; [by left|right; by subst].
  - eapply (pump_after P qr _ st); [done| |done| |done].
    + eapply evolves_wf; [exact Hwf|].
      eapply (take_out_evolves [] [m]); [done|done|done| |done|by left].
      simpl. by rewrite list_insert_insert_eq.
    + simpl. by rewrite list_insert_insert_eq.
Qed.

Lemma guarded_quiet P i r st :
  bus_wf st → quiet_on P st → quiet_on P (guarded i r st).
Proof.
  intros Hwf Hq. unfold guarded. destruct (b_deliveries st !! i) as [d|]; [|done].
  destruct (dl_started d); [|done]. apply settle_quiet; [|done].
  eapply evolves_wf; [exact Hwf|]. by apply evolves_same.
Qed.

Lemma unsubscribe_quiet P sub st :
  bus_wf st → quiet_on P st → quiet_on P (unsubscribe sub st).
Proof.
  intros Hwf Hq. unfold unsubscribe.
  destruct (b_qheap st !! sub_queue sub) as [q|] eqn:Hqr; [|done].
  eapply (pump_after P _ _ st); [done| |done|done|done].
  eapply evolves_wf; [exact Hwf|]. eapply (evolves_local [] []); [done|done|by left|].
  intros _. split; [done|]. split; [|split; [apply NoDup_nil_2|split; [apply NoDup_nil_fresh|]]].
  - by rewrite detach_places by eauto with bus.
  - simpl. apply detach_ok; eauto with bus.
Qed.

Lemma attach_quiet P handler qr st :
  bus_wf st → quiet_on (λ i, P i ∧ i ≠ qr) st → quiet_on P (attach handler qr st).
Proof.
  intros Hwf Hq. unfold attach. destruct (b_qheap st !! qr) as [q|] eqn:Hqr.
  - apply pump_quiet.
    + eapply evolves_wf; [exact Hwf|]. eapply (evolves_local [] []); [done|done|by left|].
      intros _. split; [done|]. split; [done|split; [apply NoDup_nil_2|split; [apply NoDup_nil_fresh|]]].
      simpl. apply attach_ok; eauto with bus.
    + apply (quiet_on_weaken (λ i, (P i ∧ i ≠ qr) ∧ i ≠ qr)); [naive_solver|].
      by eapply (quiet_on_other _ qr _ st).
  - intros i q Hi HP. apply (Hq i q Hi). split; [done|congruence].
Qed.

Lemma replay_one_quiet P qr st m :
  bus_wf st → quiet_on (λ i, P i ∧ i ≠ qr) st → quiet_on (λ i, P i ∧ i ≠ qr) (replay_one qr st m).
Proof.
  intros Hwf Hq. unfold replay_one. destruct (b_qheap st !! qr) as [q|] eqn:Hqr; [|done].
  destruct (matches _ _); [|done]. simpl.
  apply (quiet_on_weaken (λ i, (P i ∧ i ≠ qr) ∧ i ≠ qr)); [naive_solver|].
  eapply (quiet_on_other _ qr _ st); [done|simpl; auto with bus|done|done].
Qed.

Lemma new_queue_quiet P cfg qs bt st :
  bus_wf st → quiet_on P st →
  quiet_on P (with_index qs bt (with_qheap (b_qheap st ++ [new_BusQueue cfg]) st)).
Proof.
  intros Hwf Hq i q Hi HP. simpl in *.
  apply lookup_app_Some in Hi as [Hi|[_ Hi]]; [eauto|].
  apply list_lookup_singleton_Some in Hi as [_ <-]. intros m Hm. by apply elem_of_nil in Hm.
Qed.

Lemma ensure_queue_quiet P topic id options st :
  bus_wf st → quiet_on P st →
  quiet_on (λ i, P i ∧ i ≠ (ensure_queue topic id options st).1)
    (ensure_queue topic id options st).2.
Proof.
  intros Hwf Hq. unfold ensure_queue. destruct (b_queues st !! key topic id) as [qr|]; simpl.
  { by apply (quiet_on_weaken P); [naive_solver|]. }
  match goal with |- context [with_index ?qs ?bt (with_qheap _ st)] =>
    pose proof (new_queue_quiet P (mk_config topic options) qs bt st Hwf Hq) as Hn;
    pose proof (evolves_wf _ _ _ Hwf (new_queue_evolves (mk_config topic options) qs bt st)) as Hw
  end.
  apply (quiet_on_weaken _ (λ i, P i ∧ i ≠ length (b_qheap st))) in Hn; [|naive_solver].
  case_match; [|done]. apply foldl_quiet; [intros; apply replay_one_evolves| |done|done].
  intros. by apply replay_one_quiet.
Qed.

Lemma subscribe_quiet P topic h options st :
  bus_wf st → quiet_on P st → quiet_on P (subscribe topic h options st).2.
Proof.
  intros Hwf Hq. unfold subscribe.
  destruct (match so_subscriberId options with Some _ => _ | None => _ end) as [id st1] eqn:Hid.
  assert (H1 : bus_wf st1 ∧ quiet_on P st1).
  { destruct (so_subscriberId options); simplify_eq; [done|]. split.
    - eapply evolves_wf; [exact Hwf|]. by apply evolves_same.
    - by eapply quiet_on_same. }
  destruct H1 as [Hwf1 Hq1].
  pose proof (ensure_queue_quiet P topic id options st1 Hwf1 Hq1) as Hq2.
  pose proof (evolves_wf _ _ _ Hwf1 (ensure_queue_evolves topic id options st1)) as Hwf2.
  destruct (ensure_queue _ _ _ _) as [qr st2]. by apply attach_quiet.
Qed.

Lemma quiescent_remove h q p :
  (∀ m, m ∈ p → m ∈ bq_pending q) → quiescent h q → quiescent h (set_pending p q).
Proof. intros Hsub Hq m Hm. apply (Hq m). by apply Hsub. Qed.

(** The TTL timer fires for a message a handler currently holds. *)
Definition inflight_expiry (st : Bus) (op : BusOp) : Prop :=
  ∃ i ttl qr m q, op = OpTimer i ∧ b_timers st !! i = Some (ttl, TtlTimer qr m) ∧
    b_qheap st !! qr = Some q ∧ map_has (bq_inflight q) m = true.

Lemma expire_quiet qr m st :
  bus_wf st → quiet st →
  (∀ q, b_qheap st !! qr = Some q → map_has (bq_inflight q) m = false) →
  quiet (expire qr m st).
Proof.
  intros Hwf Hq Hno. unfold expire. destruct (b_qheap st !! qr) as [q|] eqn:Hqr; [|done].
  destruct (b_heap st !! m) as [msg|]; [|done].
  destruct (index_of m (bq_pending q)) as [i|] eqn:Hi.
  - apply index_of_Some in Hi. simpl. apply publish_quiet.
    + eapply (evolves_wf [m]); [exact Hwf|]. eapply (evolves_local [m] []); [done|done|by left|].
      intros _. split; [done|]. split; [|split; [apply NoDup_nil_2|split; [apply NoDup_nil_fresh|]]].
      * unfold queue_places, parked. simpl. rewrite (delete_Permutation _ _ _ Hi) at 2. done.
      * simpl. apply queue_ok_pending. eauto with bus.
    + intros j qj Hj _. simpl in *.
      apply list_lookup_insert_Some in Hj as [(-> & <- & _)|[_ Hj]]; [|eauto].
      apply quiescent_remove; [intros x; apply elem_of_list_delete|by apply (Hq j)].
  - rewrite (Hno q) by done. intros j qj Hj _. simpl in *.
    rewrite list_insert_id in Hj by done. by apply (Hq j).
Qed.

Lemma run_timer_quiet i d t st :
  bus_wf st → quiet st → b_timers st !! i = Some (d, t) → ¬ inflight_expiry st (OpTimer i) →
  quiet (run_timer t (with_timers (delete i (b_timers st)) st)).
Proof.
  intros Hwf Hq Hi Hno. destruct t as [qr m|qr m]; simpl.
  - assert (Hev : evolves [] st (with_timers (delete i (b_timers st)) st)).
    { apply evolves_same; try done; [|intros t; apply elem_of_list_delete].
      pose proof (parked_delete _ _ _ Hi) as Hp. by symmetry. }
    apply expire_quiet; [by eapply evolves_wf|by eapply quiet_on_same|].
    intros q Hqr. apply not_true_is_false. intros Hin. apply Hno. simpl in Hqr.
    by exists i, d, qr, m, q.
  - pose proof (evolves_wf _ _ _ Hwf (run_timer_evolves _ _ _ _ Hi)) as Hw. simpl in Hw.
    unfold unpark. simpl. destruct (b_qheap st !! qr) as [q|] eqn:Hqr.
    2: { by eapply quiet_on_same. }
    eapply (pump_after _ qr _ st); [done| |done|done|done].
    eapply evolves_wf; [exact Hwf|by eapply unparked_evolves].
Qed.

Lemma exec_quiet op st :
  bus_wf st → quiet st → ¬ inflight_expiry st op → quiet (exec op st).
Proof.
  intros Hwf Hq Hno. destruct op as [| | |i|i r|i| |i|]; simpl.
  - by apply publish_quiet.
  - by apply subscribe_quiet.
  - by apply unsubscribe_quiet.
  - by apply guarded_quiet.
  - by apply guarded_quiet.
  - unfold handler_throws. repeat case_match; try done. by apply guarded_quiet.
  - unfold run_microtask. case_match; [done|]. by eapply quiet_on_same.
  - unfold fire_timer. destruct (b_timers st !! i) as [[d t]|] eqn:Ht; [|done].
    by eapply run_timer_quiet.
  - by eapply quiet_on_same.
Qed.

(** No operation of the run expires a message in flight. *)
Fixpoint no_inflight_expiry (st : Bus) (ops : list BusOp) : Prop :=
  match ops with
  | [] => True
  | op :: ops' => ¬ inflight_expiry st op ∧ no_inflight_expiry (exec op st) ops'
  end.

Lemma no_inflight_expiry_app ops ops' st :
  no_inflight_expiry st (ops ++ ops') ↔ no_inflight_expiry st ops ∧ no_inflight_expiry (run ops st) ops'.
Proof.
  revert st. induction ops as [|op ops IH]; intros st; [split; [done|by intros [_ ?]]|].
  change (no_inflight_expiry st ((op :: ops) ++ ops')) with
    (¬ inflight_expiry st op ∧ no_inflight_expiry (exec op st) (ops ++ ops')). rewrite IH.
  change (no_inflight_expiry st (op :: ops)) with (¬ inflight_expiry st op ∧ no_inflight_expiry (exec op st) ops).
  change (run (op :: ops) st) with (run ops (exec op st)). tauto.
Qed.

Lemma run_quiet ops st : bus_wf st → quiet st → no_inflight_expiry st ops → quiet (run ops st).
Proof.
  revert st. induction ops as [|op ops IH]; intros st Hwf Hq Hno; [done|]. destruct Hno as [H1 H2].
  apply IH; [by eapply evolves_wf, exec_evolves|by apply exec_quiet|done].
Qed.

Lemma new_bus_quiet : quiet new_InMemoryBus.
Proof. by intros i q Hi. Qed.

(** ** Properties *)

(** C5: no silent loss.  From any reachable state, a message leaves the bus in one
    operation only for an explicit cause: its handler acked it, nacked it without
    requeue, failed its last allowed attempt, or its TTL timer fired.  Publishing,
    subscribing, unsubscribing, microtasks, retry timers and dispose lose nothing. *)
Theorem no_silent_loss (st : Bus) (op : BusOp) (m : MsgRef) :
  reachable st → m ∈ places st → m ∉ places (exec op st) → lost_cause st op m.
Proof.
  intros Hst Hin Hout. apply op_lost_cause.
  destruct (exec_evolves op st (reachable_wf _ Hst)) as [_ (news & Hp & _) _ _].
  assert (Hx : m ∈ op_lost op st ++ places (exec op st)) by (rewrite Hp; set_solver).
  by apply elem_of_app in Hx as [|].
Qed.

Lemma no_silent_loss_witness : lost_cause demo_bus (OpAck 0) 0.
Proof. apply (no_silent_loss demo_bus (OpAck 0) 0 demo_bus_reachable); by_compute. Defined.

(** C6: work conservation.  As long as no TTL expires a message that is in flight, no
    queue ever holds a pending message it could hand to a free consumer: after every
    operation, each pending message is blocked (plain queue: every attached consumer
    holds a message; single-active: something is in flight or nobody is attached;
    partitioned: its group's owner, or every consumer, is busy). *)
Theorem work_conserving (ops : list BusOp) :
  no_inflight_expiry new_InMemoryBus ops → quiet (run ops new_InMemoryBus).
Proof.
  apply run_quiet; [apply new_bus_wf|apply new_bus_quiet].
Qed.

Lemma work_conserving_witness : quiet (run demo_run new_InMemoryBus).
Proof.
  apply (work_conserving demo_run).
  repeat split; try (intros (i & ttl & qr & m & q & Hop & _); discriminate Hop).
Defined.

Definition ttl_options (ttl : Z) : PublishOptions := {|
  po_priority := None; po_groupId := None; po_dedupId := None; po_replyTo := None;
  po_correlationId := None; po_ttlMs := Some ttl; po_headers := None |}.

(** One consumer holds message "a" (TTL 5 ms), "b" waits; "a" expires while its
    handler runs, and the handler then acks it. *)
Definition stall_run : list BusOp :=
  [OpSubscribe "t" 1 (sub_options "w" false 3); OpPublish "t" "a" None (ttl_options 5);
   OpPublish "t" "b" None no_publish_options; OpMicrotask; OpTimer 0; OpAck 0].

(** an in-flight expiry stalls its queue.  The TTL callback frees the consumer's slot
    without pumping, and the handler's later ack is ignored: "b" stays pending next
    to an idle attached consumer, with no microtask or timer left that would ever
    deliver it. *)
Theorem inflight_expiry_stalls :
  let st := run stall_run new_InMemoryBus in
  ∃ q, b_qheap st !! 0 = Some q ∧ bq_pending q = [1] ∧ bq_inflight q = [] ∧
    bq_consumers q = [1] ∧ b_microtasks st = [] ∧ b_timers st = [] ∧ ¬ quiet st.
Proof.
  intros st.
  assert (H : b_qheap st !! 0 = Some (default (new_BusQueue (demo_cfg false false)) (b_qheap st !! 0)))
    by (vm_compute; reflexivity).
  exists (default (new_BusQueue (demo_cfg false false)) (b_qheap st !! 0)).
  split; [exact H|]. do 5 (split; [vm_compute; reflexivity|]).
  intros Hq. specialize (Hq 0 _ H I 1). vm_compute in Hq.
  specialize (Hq ltac:(left) 1 ltac:(left)). by apply elem_of_nil in Hq.
Qed.
