(* ===== verification/BusDelivery.v ===== *)
(** What each operation of the in-memory bus delivers: publish fans one copy out to
    every matching queue, deduplication makes a repeat a no-op, a dropped consumer's
    message goes to a survivor, an exhausted message goes to the dead-letter
    address, and a replaying subscriber sees the retained log. *)

From S2P Require Import Prelude Abstractions TopicMatch BusQueue InMemoryBus.
From S2P Require Import BusInvariants BusSafety BusProgress.

(** ** The subscription index *)

(** The queues [publish] visits for a topic, in order. *)
Definition subscribers (st : Bus) (t : Destination) : list QRef := default [] (b_byTopic st !! t).

Definition configs (st : Bus) : list QueueConfig := bq_cfg <$> b_qheap st.

(** The index and the queues' constructor parameters are those of [st]. *)
Definition same_index (st st' : Bus) : Prop :=
  b_byTopic st' = b_byTopic st ∧ b_queues st' = b_queues st ∧ configs st' = configs st.

#[export] Instance same_index_preorder : PreOrder same_index.
Proof. split; unfold same_index; [done|]. intros ? ? ? (?&?&?) (?&?&?). naive_solver congruence. Qed.

(** Every indexed reference is a queue of its topic, and no topic lists one twice. *)
Record index_wf (st : Bus) : Prop := {
  iw_nodup : ∀ t, NoDup (subscribers st t);
  iw_topic : ∀ t qr, qr ∈ subscribers st t →
    ∃ cfg, configs st !! qr = Some cfg ∧ qc_topic cfg = t;
  iw_queues : ∀ k qr, b_queues st !! k = Some qr →
    ∃ cfg id, configs st !! qr = Some cfg ∧ k = key (qc_topic cfg) id
}.

Lemma same_index_wf st st' : same_index st st' → index_wf st → index_wf st'.
Proof.
  intros (Ht & Hq & Hc) [H1 H2 H3]. unfold subscribers in *.
  split; unfold subscribers; rewrite ?Ht, ?Hq, ?Hc; done.
Qed.

Lemma same_index_queue st st' qr q q' :
  b_qheap st !! qr = Some q → b_qheap st' = <[qr := q']> (b_qheap st) →
  bq_cfg q' = bq_cfg q → b_byTopic st' = b_byTopic st → b_queues st' = b_queues st →
  same_index st st'.
Proof.
  intros Hq Hqs Hcfg Ht Hi. split; [done|split; [done|]]. unfold configs.
  rewrite Hqs, list_fmap_insert, Hcfg, list_insert_id; [done|].
  by rewrite list_lookup_fmap, Hq.
Qed.

Lemma pumpQ_cfg fuel h q : bq_cfg (pumpQ fuel h q).1.2 = bq_cfg q.
Proof.
  revert h q. induction fuel as [|fuel IH]; intros h q; [done|]. rewrite pumpQ_S.
  destruct (bq_pending q) as [|m0 ms] eqn:Hp; [done|].
  destruct (bq_consumers q) as [|c0 cs] eqn:Hc; [done|].
  pose proof (pickDelivery_spec h q ltac:(by rewrite Hc) ltac:(by rewrite Hp)) as Hs.
  destruct (pickDelivery h q) as [[[m c]|] q1].
  - destruct Hs as [(Hcfg & _ & _) _]. destruct (h !! m) as [bm|]; [|done].
    specialize (IH (<[m := bump bm]> h) (hand_out m c q1)).
    destruct (pumpQ _ _ _) as [[h' q'] ds]. simpl in *. by rewrite IH, <- Hcfg.
  - by destruct Hs as [(Hcfg & _ & _) _].
Qed.

Lemma pump_index qr st : same_index st (pump qr st).
Proof.
  unfold pump. destruct (b_qheap st !! qr) as [q|] eqn:Hq; [|done].
  pose proof (pumpQ_cfg (length (bq_pending q)) (b_heap st) q) as Hc.
  destruct (pumpQ _ _ _) as [[h q'] ds]. by eapply same_index_queue.
Qed.

Lemma foldl_index {A} (f : Bus → A → Bus) l st :
  (∀ st x, same_index st (f st x)) → same_index st (foldl f st l).
Proof.
  intros Hf. revert st. induction l as [|x l IH]; intros st; [done|]. simpl.
  etrans; [apply Hf|apply IH].
Qed.

Lemma publish_to_index topic body key options st qr :
  same_index st (publish_to topic body key options st qr).
Proof.
  unfold publish_to. destruct (b_qheap st !! qr) as [q|] eqn:Hq; [|done].
  destruct (matches _ _); [|done]. simpl. etrans; [|apply pump_index].
  eapply same_index_queue; [done|..]; repeat case_match; done.
Qed.

Lemma publish_index topic body rk options st : same_index st (publish topic body rk options st).
Proof.
  unfold publish. set (repeated := match po_dedupId options with Some _ => _ | None => _ end).
  destruct repeated; [done|]. etrans; [|apply foldl_index; intros; apply publish_to_index].
  by case_match.
Qed.

Lemma deadLetter_index qr m st : same_index st (deadLetter qr m st).
Proof. unfold deadLetter. repeat case_match; auto using publish_index; done. Qed.

Lemma settle_index qr m c r st : same_index st (settle qr m c r st).
Proof.
  unfold settle. destruct (b_qheap st !! qr) as [q|] eqn:Hq; [|done].
  case_decide; [|done]. simpl. set (q1 := set_inflight _ q).
  assert (Hout : same_index st (with_queue qr q1 st)) by by eapply same_index_queue.
  repeat case_match; (etrans; [|apply pump_index]); (etrans; [apply Hout|]);
    auto using deadLetter_index; try done.
  eapply (same_index_queue _ _ qr q1); [|done..].
  apply list_lookup_insert_eq. by eapply lookup_lt_Some.
Qed.

Lemma return_all_cfg h l q : bq_cfg (foldl (return_one h) q l) = bq_cfg q.
Proof.
  revert q. induction l as [|e l IH]; intros q; [done|]. simpl. rewrite IH.
  unfold return_one. by case_decide.
Qed.

Lemma detach_cfg h q : bq_cfg (detach h q) = bq_cfg q.
Proof. unfold detach. by rewrite return_all_cfg. Qed.

Lemma expire_index qr m st : same_index st (expire qr m st).
Proof.
  unfold expire. destruct (b_qheap st !! qr) as [q|] eqn:Hq; [|done].
  destruct (b_heap st !! m); [|done].
  repeat case_match; simplify_eq; try (etrans; [|apply publish_index]); by eapply same_index_queue.
Qed.

Lemma guarded_index i r st : same_index st (guarded i r st).
Proof.
  unfold guarded. repeat case_match; try done.
  by etrans; [|apply (settle_index _ _ _ _ (with_delivery _ _ _))].
Qed.

Lemma attach_index h qr st : same_index st (attach h qr st).
Proof.
  unfold attach. destruct (b_qheap st !! qr) as [q|] eqn:Hq; [|done].
  etrans; [|apply pump_index]. by eapply same_index_queue.
Qed.

Lemma run_timer_index t st : same_index st (run_timer t st).
Proof.
  destruct t as [qr m|qr m]; [apply expire_index|]. simpl. unfold unpark.
  destruct (b_qheap st !! qr) as [q|] eqn:Hq; [|done].
  etrans; [|apply pump_index]. by eapply same_index_queue.
Qed.

Lemma unsubscribe_index sub st : same_index st (unsubscribe sub st).
Proof.
  unfold unsubscribe. destruct (b_qheap st !! sub_queue sub) as [q|] eqn:Hq; [|done].
  etrans; [|apply pump_index]. eapply same_index_queue; [done|done|apply detach_cfg|done..].
Qed.

(** Indexing a fresh queue. *)
Lemma new_queue_index_wf topic id cfg st :
  qc_topic cfg = topic → index_wf st →
  index_wf (with_index (<[key topic id := length (b_qheap st)]> (b_queues st))
    (<[topic := subscribers st topic ++ [length (b_qheap st)]]> (b_byTopic st))
    (with_qheap (b_qheap st ++ [new_BusQueue cfg]) st)).
Proof.
  intros <- [H1 H2 H3]. set (n := length (b_qheap st)).
  assert (Hlen : length (configs st) = n) by (unfold configs; by rewrite length_fmap).
  assert (Hnew : (configs st ++ [cfg]) !! n = Some cfg).
  { rewrite lookup_app_r by lia. by rewrite Hlen, Nat.sub_diag. }
  assert (Hold : ∀ i c, configs st !! i = Some c → (configs st ++ [cfg]) !! i = Some c).
  { intros i c Hi. rewrite lookup_app_l; [done|]. by eapply lookup_lt_Some. }
  split; unfold subscribers, configs; simpl; rewrite ?fmap_app; simpl.
  - intros t. destruct (decide (t = qc_topic cfg)) as [->|Hne].
    + rewrite lookup_insert_eq. simpl. apply NoDup_app. repeat split; [apply H1| |apply NoDup_singleton].
      intros qr (c & Hc%lookup_lt_Some & _)%H2 ->%list_elem_of_singleton. rewrite Hlen in Hc. lia.
    + rewrite lookup_insert_ne by done. apply H1.
  - intros t qr. destruct (decide (t = qc_topic cfg)) as [->|Hne].
    + rewrite lookup_insert_eq. simpl.
      intros [(c & Hc & Ht)%H2| ->%list_elem_of_singleton]%elem_of_app; eauto.
    + rewrite lookup_insert_ne by done. intros (c & Hc & Ht)%H2. eauto.
  - intros k qr [[<- <-]|[_ Hk]]%lookup_insert_Some; [eauto|].
    apply H3 in Hk as (c & i & Hc & Ht). eauto 6.
Qed.

Lemma ensure_queue_index_wf topic id options st :
  index_wf st → index_wf (ensure_queue topic id options st).2.
Proof.
  intros Hwf. unfold ensure_queue. destruct (b_queues st !! key topic id); [done|]. simpl.
  pose proof (new_queue_index_wf topic id (mk_config topic options) st eq_refl Hwf) as H.
  case_match; [|done]. eapply same_index_wf; [|exact H]. apply foldl_index. intros st' m.
  unfold replay_one. destruct (b_qheap st' !! _) as [q|] eqn:Hq; [|done].
  destruct (matches _ _); [|done]. simpl. by eapply same_index_queue.
Qed.

Lemma exec_index_wf op st : index_wf st → index_wf (exec op st).
Proof.
  intros Hwf. destruct op as [| | |i|i r|i| |i|]; simpl;
    try (eapply same_index_wf; [|exact Hwf];
         first [apply publish_index|apply unsubscribe_index|apply guarded_index]).
  - unfold subscribe. destruct (so_subscriberId options) as [id|].
    + pose proof (ensure_queue_index_wf topic id options st Hwf) as H.
      destruct (ensure_queue _ _ _ _). eapply same_index_wf; [apply attach_index|done].
    + set (st1 := with_seq _ st). set (id := _ +:+ _).
      assert (Hwf1 : index_wf st1) by (by apply (same_index_wf st)).
      pose proof (ensure_queue_index_wf topic id options st1 Hwf1) as H.
      destruct (ensure_queue _ _ _ _). eapply same_index_wf; [apply attach_index|done].
  - eapply same_index_wf; [|exact Hwf]. unfold handler_throws. repeat case_match; try done.
    apply guarded_index.
  - eapply same_index_wf; [|exact Hwf]. unfold run_microtask. by case_match.
  - eapply same_index_wf; [|exact Hwf]. unfold fire_timer.
    destruct (b_timers st !! i) as [[d t]|]; [|done]. by etrans; [|apply run_timer_index].
  - split; unfold subscribers; simpl; intros t.
    + rewrite lookup_empty. apply NoDup_nil_2.
    + intros qr. rewrite lookup_empty. intros H. by apply elem_of_nil in H.
    + intros qr. by rewrite lookup_empty.
Qed.

Lemma reachable_index_wf st : reachable st → index_wf st.
Proof.
  induction 1 as [|st op _ IH]; [|by apply exec_index_wf].
  split; unfold subscribers; simpl; intros t.
  - rewrite lookup_empty. apply NoDup_nil_2.
  - intros qr. rewrite lookup_empty. intros H. by apply elem_of_nil in H.
  - intros qr. by rewrite lookup_empty.
Qed.

#[export] Hint Resolve reachable_index_wf : bus.

(** ** Publish: one copy per matching queue *)

(** [st'] gave the queue [q] exactly one new message, carrying what was published. *)
Definition got_copy (topic : Destination) (body key : string) (options : PublishOptions)
    (st st' : Bus) (q q' : BusQueue) : Prop :=
  ∃ m msg, length (b_heap st) ≤ m ∧ queue_places q' ≡ₚ m :: queue_places q ∧
    b_heap st' !! m = Some msg ∧
    reset_count msg = mk_message (bm_id msg) topic body key options.

Lemma pump_queue qr st q :
  bus_wf st → b_qheap st !! qr = Some q →
  ∃ q', b_qheap (pump qr st) = <[qr := q']> (b_qheap st) ∧ bq_cfg q' = bq_cfg q ∧
    bq_consumers q' = bq_consumers q ∧ queue_places q' ≡ₚ queue_places q.
Proof.
  intros Hwf Hq. unfold pump. rewrite Hq.
  pose proof (pumpQ_spec (length (bq_pending q)) (b_heap st) q) as Hs.
  destruct (pumpQ _ _ _) as [[h q'] ds]. destruct Hs as [[Hc Hk _ _ _ _ Hp Hi _] _]; eauto with bus.
  exists q'. split; [done|]. split; [done|]. split; [done|].
  unfold queue_places. rewrite Hp, Hi, fmap_app. solve_Permutation.
Qed.

Lemma heap_le_copy h h' m msg :
  heap_le h h' → h !! m = Some msg → ∃ msg', h' !! m = Some msg' ∧
    reset_count msg' = reset_count msg ∧ bm_id msg' = bm_id msg.
Proof.
  intros Hle Hm. destruct (Hle _ _ Hm) as (msg' & ? & E). exists msg'. split; [done|]. split; [done|].
  by apply (f_equal bm_id) in E.
Qed.

Lemma publish_to_other topic body key options st qr i :
  i ≠ qr → b_qheap (publish_to topic body key options st qr) !! i = b_qheap st !! i.
Proof.
  intros Hne. unfold publish_to. destruct (b_qheap st !! qr) as [q|] eqn:Hq; [|done].
  destruct (matches _ _); [|done]. simpl. unfold pump.
  assert (E : ∀ ts st1, b_qheap (match po_ttlMs options with
     | Some ttl => if decide (0 ≤ ttl)%Z then with_timers (ts ttl) st1 else st1
     | None => st1 end) = b_qheap st1) by (intros; repeat case_match; done).
  rewrite E. simpl. rewrite list_lookup_insert_eq by (by eapply lookup_lt_Some).
  destruct (pumpQ _ _ _) as [[h q'] ds]. simpl. rewrite E. simpl.
  by rewrite !list_lookup_insert_ne by done.
Qed.

Lemma publish_to_copy topic body key options st qr q :
  bus_wf st → b_qheap st !! qr = Some q → matches (bq_cfg q) key = true →
  ∃ q', b_qheap (publish_to topic body key options st qr) !! qr = Some q' ∧
    bq_cfg q' = bq_cfg q ∧
    got_copy topic body key options st (publish_to topic body key options st qr) q q'.
Proof.
  intros Hwf Hq Hm.
  assert (Hlt : qr < length (b_qheap st)) by by eapply lookup_lt_Some.
  unfold publish_to. rewrite Hq, Hm. simpl.
  set (msg := mk_message _ topic body key options).
  set (q1 := set_pending (bq_pending q ++ [length (b_heap st)]) q).
  set (st2 := match po_ttlMs options with Some _ => _ | None => _ end).
  assert (H2 : b_heap st2 = b_heap st ++ [msg] ∧ b_qheap st2 = <[qr := q1]> (b_qheap st) ∧
    parked st2 = parked st ∧ ∀ t, t ∈ b_timers st2 → t ∈ b_timers st ∨ timer_queue t.2 = qr).
  { unfold st2. repeat case_match; simpl; repeat split; auto.
    - unfold parked. simpl. by rewrite omap_app, app_nil_r.
    - intros t [| ->%list_elem_of_singleton]%elem_of_app; auto. }
  destruct H2 as (Hh & Hqs & Hp & Ht).
  assert (Hwf2 : bus_wf st2) by (eapply evolves_wf; [exact Hwf|by eapply push_new_evolves]).
  assert (Hq2 : b_qheap st2 !! qr = Some q1) by (rewrite Hqs; by apply list_lookup_insert_eq).
  destruct (pump_queue qr st2 q1 Hwf2 Hq2) as (q' & Eq & Hc & _ & Hpl).
  exists q'. rewrite Eq, list_lookup_insert_eq by (by eapply lookup_lt_Some).
  split; [done|]. split; [done|].
  assert (Hmsg : b_heap st2 !! length (b_heap st) = Some msg) by (rewrite Hh; by apply list_lookup_middle).
  destruct (pump_evolves qr st2 Hwf2) as [Hle _ _ _].
  destruct (heap_le_copy _ _ _ _ Hle Hmsg) as (msg' & Hm' & E & Eid).
  exists (length (b_heap st)), msg'. split; [lia|]. split; [|split; [done|]].
  - rewrite Hpl. unfold queue_places, q1. simpl. solve_Permutation.
  - by rewrite E, Eid.
Qed.

Lemma got_copy_later topic body key options st0 st st1 st2 q q' :
  length (b_heap st0) ≤ length (b_heap st) → heap_le (b_heap st1) (b_heap st2) →
  got_copy topic body key options st st1 q q' → got_copy topic body key options st0 st2 q q'.
Proof.
  intros Hl Hle (m & msg & Hm & Hp & Hh & Hr).
  destruct (heap_le_copy _ _ _ _ Hle Hh) as (msg' & Hm' & E & Eid).
  exists m, msg'. split; [lia|]. split; [done|]. split; [done|]. by rewrite E, Eid.
Qed.

Lemma publish_all_copies topic body key options qrs st qr q :
  NoDup qrs → bus_wf st → b_qheap st !! qr = Some q →
  let st' := foldl (publish_to topic body key options) st qrs in
  ∃ q', b_qheap st' !! qr = Some q' ∧ bq_cfg q' = bq_cfg q ∧
    (qr ∈ qrs ∧ matches (bq_cfg q) key = true → got_copy topic body key options st st' q q') ∧
    (¬ (qr ∈ qrs ∧ matches (bq_cfg q) key = true) → q' = q).
Proof.
  intros Hnd. revert st q. induction qrs as [|i qrs IH]; intros st q Hwf Hq; simpl.
  { exists q. split; [done|]. split; [done|]. split; [|done]. intros [H _]. by apply elem_of_nil in H. }
  apply NoDup_cons in Hnd as [Hi Hnd].
  pose proof (publish_to_evolves topic body key options st i) as Hev.
  assert (Hwf1 : bus_wf (publish_to topic body key options st i)) by by eapply evolves_wf.
  assert (Hle : ∀ l s, bus_wf s → heap_le (b_heap s) (b_heap (foldl (publish_to topic body key options) s l))).
  { intros l s Hs. eapply fp_heap, (evolves_foldl _ _ _ (publish_to_evolves topic body key options)). done. }
  destruct (Hev Hwf) as [Hle1%heap_le_length _ _ _].
  destruct (decide (i = qr ∧ matches (bq_cfg q) key = true)) as [[-> Hm]|Hno].
  - destruct (publish_to_copy topic body key options st qr q Hwf Hq Hm) as (q1 & Hq1 & Hc & Hcopy).
    destruct (IH Hnd _ _ Hwf1 Hq1) as (q' & Hq' & Hc' & _ & Hsame).
    rewrite (Hsame ltac:(naive_solver)) in *. exists q1. split; [done|]. split; [done|].
    split; [|set_solver]. intros _. eapply got_copy_later; [| |exact Hcopy]; [done|]. by apply Hle.
  - assert (Hq1 : b_qheap (publish_to topic body key options st i) !! qr = Some q).
    { destruct (decide (qr = i)) as [->|]; [|by rewrite publish_to_other].
      unfold publish_to. rewrite Hq. destruct (matches _ _) eqn:?; [naive_solver|done]. }
    destruct (IH Hnd _ _ Hwf1 Hq1) as (q' & Hq' & Hc' & Hin & Hout).
    exists q'. split; [done|]. split; [done|]. split.
    + intros [Hin' Hm]. eapply got_copy_later; [exact Hle1|reflexivity|]. apply Hin. split; [set_solver|done].
    + intros H. apply Hout. set_solver.
Qed.

(** Is this publish dropped as a repeat? *)
Definition is_repeat (st : Bus) (options : PublishOptions) : Prop :=
  ∃ d, po_dedupId options = Some d ∧ d ∈ b_seenDedupIds st.

#[export] Instance is_repeat_dec st options : Decision (is_repeat st options).
Proof.
  refine (match po_dedupId options as o return po_dedupId options = o → _ with
          | Some d => λ E, cast_if (decide (d ∈ b_seenDedupIds st))
          | None => λ E, right _
          end eq_refl); unfold is_repeat; naive_solver.
Defined.

Lemma publish_fresh topic body rk options st :
  ¬ is_repeat st options →
  publish topic body rk options st =
  let st1 := match po_dedupId options with
             | Some d => with_seen ({[d]} ∪ b_seenDedupIds st) st
             | None => st
             end in
  foldl (publish_to topic body (default topic rk) options)
    (log_publish topic body (default topic rk) options st1) (subscribers st topic).
Proof.
  intros Hno. unfold publish, subscribers. destruct (po_dedupId options) as [d|] eqn:Hd; [|done].
  rewrite bool_decide_eq_false_2; [done|]. intros Hin. apply Hno. by exists d.
Qed.

Lemma publish_repeat topic body rk options st :
  is_repeat st options → publish topic body rk options st = st.
Proof. intros (d & Hd & Hin). unfold publish. by rewrite Hd, bool_decide_eq_true_2. Qed.

Lemma publish_copies topic body rk options st qr q :
  bus_wf st → NoDup (subscribers st topic) → ¬ is_repeat st options → b_qheap st !! qr = Some q →
  let st' := publish topic body rk options st in
  let hit := qr ∈ subscribers st topic ∧ matches (bq_cfg q) (default topic rk) = true in
  ∃ q', b_qheap st' !! qr = Some q' ∧ bq_cfg q' = bq_cfg q ∧
    (hit → got_copy topic body (default topic rk) options st st' q q') ∧ (¬ hit → q' = q).
Proof.
  intros Hwf Hnd Hfresh Hq. rewrite publish_fresh by done. simpl.
  set (st1 := log_publish _ _ _ _ _).
  assert (H1 : b_heap st1 = b_heap st ∧ b_qheap st1 = b_qheap st) by (by unfold st1; case_match).
  destruct H1 as [Hh Hqs].
  assert (Hwf1 : bus_wf st1).
  { eapply evolves_wf; [exact Hwf|]. apply evolves_same; unfold st1; by case_match. }
  assert (Hq1 : b_qheap st1 !! qr = Some q) by (by rewrite Hqs).
  destruct (publish_all_copies topic body (default topic rk) options (subscribers st topic)
    st1 qr q Hnd Hwf1 Hq1) as (q' & ? & ? & Hin & Hout).
  exists q'. split; [done|]. split; [done|]. split; [|done].
  intros Hhit. eapply got_copy_later; [|reflexivity|by apply Hin]. by rewrite Hh.
Qed.

(** C10: publish fan-out.  In a reachable bus, a publish that is not a repeated dedup id
    gives every queue of the topic whose filter matches the routing key (the topic
    itself by default) exactly one new message with the published body, key and
    options, and leaves every other queue as it was. *)
Theorem publish_fans_out (st : Bus) (topic : Destination) (body : string)
    (rk : option string) (options : PublishOptions) (qr : QRef) (q : BusQueue) :
  reachable st → ¬ is_repeat st options → b_qheap st !! qr = Some q →
  let st' := publish topic body rk options st in
  let hit := qr ∈ subscribers st topic ∧ matches (bq_cfg q) (default topic rk) = true in
  ∃ q', b_qheap st' !! qr = Some q' ∧
    (hit → got_copy topic body (default topic rk) options st st' q q') ∧ (¬ hit → q' = q).
Proof.
  intros Hst Hno Hq.
  destruct (publish_copies topic body rk options st qr q) as (q' & ? & _ & ? & ?); auto with bus.
  { by apply iw_nodup; auto with bus. }
  by exists q'.
Qed.

Lemma publish_fans_out_witness :
  ∃ q', b_qheap (publish "t" "x" None no_publish_options demo_bus) !! 0 = Some q' ∧
    got_copy "t" "x" "t" no_publish_options demo_bus
      (publish "t" "x" None no_publish_options demo_bus) demo_queue q'.
Proof.
  destruct (publish_fans_out demo_bus "t" "x" None no_publish_options 0 demo_queue demo_bus_reachable)
    as (q' & Hq' & Hin & _).
  - intros (d & Hd & _). discriminate Hd.
  - vm_compute. reflexivity.
  - exists q'. split; [exact Hq'|]. apply Hin. split; [by_compute|vm_compute; reflexivity].
Defined.

(** ** Deduplication *)

(** The ids seen so far only grow. *)
Definition seen_grows (st st' : Bus) : Prop := b_seenDedupIds st ⊆ b_seenDedupIds st'.

Lemma pump_seen qr st : b_seenDedupIds (pump qr st) = b_seenDedupIds st.
Proof. unfold pump. destruct (b_qheap st !! qr); [|done]. by destruct (pumpQ _ _ _) as [[? ?] ?]. Qed.

Lemma publish_to_seen topic body key options st qr :
  b_seenDedupIds (publish_to topic body key options st qr) = b_seenDedupIds st.
Proof.
  unfold publish_to. destruct (b_qheap st !! qr); [|done]. destruct (matches _ _); [|done].
  simpl. rewrite pump_seen. by repeat case_match.
Qed.

Lemma publish_seen topic body rk options st :
  b_seenDedupIds (publish topic body rk options st) =
  match po_dedupId options with Some d => {[d]} | None => ∅ end ∪ b_seenDedupIds st.
Proof.
  assert (Hf : ∀ qrs s, b_seenDedupIds (foldl (publish_to topic body (default topic rk) options) s qrs)
     = b_seenDedupIds s).
  { induction qrs as [|qr qrs IH]; intros s; [done|]. simpl. by rewrite IH, publish_to_seen. }
  destruct (decide (is_repeat st options)) as [Hr|Hr].
  - rewrite publish_repeat by done. destruct Hr as (d & -> & Hd). set_solver.
  - rewrite publish_fresh by done. simpl. rewrite Hf. case_match; simpl; set_solver.
Qed.

Lemma settle_seen qr m c r st : seen_grows st (settle qr m c r st).
Proof.
  unfold settle, seen_grows, deadLetter.
  repeat case_match; simpl; rewrite ?pump_seen, ?publish_seen; simpl; try done; set_solver.
Qed.

Lemma guarded_seen i r st : seen_grows st (guarded i r st).
Proof.
  unfold guarded, seen_grows. repeat case_match; try done.
  apply (settle_seen _ _ _ _ (with_delivery _ _ _)).
Qed.

Lemma subscribe_seen topic h options st :
  b_seenDedupIds (subscribe topic h options st).2 = b_seenDedupIds st.
Proof.
  assert (Ha : ∀ qr s, b_seenDedupIds (attach h qr s) = b_seenDedupIds s).
  { intros. unfold attach. case_match; [|done]. by rewrite pump_seen. }
  assert (Hr : ∀ qr l s, b_seenDedupIds (foldl (replay_one qr) s l) = b_seenDedupIds s).
  { intros qr. induction l as [|m l IH]; intros s; [done|]. simpl. rewrite IH.
    unfold replay_one. destruct (b_qheap s !! qr); [|done]. by destruct (matches _ _). }
  assert (He : ∀ id s, b_seenDedupIds (ensure_queue topic id options s).2 = b_seenDedupIds s).
  { intros. unfold ensure_queue. case_match; [done|]. simpl. case_match; [by rewrite Hr|done]. }
  unfold subscribe. destruct (so_subscriberId options) as [id|].
  - specialize (He id st). destruct (ensure_queue _ _ _ _). simpl in *. by rewrite Ha.
  - set (st1 := with_seq _ st). specialize (He ("sub-" +:+ pretty (b_seq st1)) st1).
    destruct (ensure_queue _ _ _ _). simpl in *. by rewrite Ha, He.
Qed.

Lemma exec_seen op st : seen_grows st (exec op st).
Proof.
  unfold seen_grows. destruct op as [| |sub|i|i r|i| |i|]; simpl; try done.
  - rewrite publish_seen. set_solver.
  - by rewrite subscribe_seen.
  - unfold unsubscribe. case_match; [|done]. by rewrite pump_seen.
  - apply guarded_seen.
  - apply guarded_seen.
  - unfold handler_throws. repeat case_match; try done. apply guarded_seen.
  - unfold run_microtask. by case_match.
  - unfold fire_timer. destruct (b_timers st !! i) as [[d [qr m|qr m]]|]; [| |done]; simpl.
    + unfold expire. repeat case_match; simpl; rewrite ?publish_seen; simpl; try done; set_solver.
    + unfold unpark. case_match; [|done]. by rewrite pump_seen.
Qed.

Lemma run_seen ops st : seen_grows st (run ops st).
Proof.
  unfold seen_grows. revert st. induction ops as [|op ops IH]; intros st; [done|]. simpl.
  etrans; [apply exec_seen|apply IH].
Qed.

(** C11: producer deduplication.  Once a message with a dedup id was published, every
    later publish with that id, to any topic and after any operations (dispose
    included), changes nothing. *)
Theorem dedup_once (st : Bus) (ops : list BusOp) (d : string)
    topic body rk options topic' body' rk' options' :
  po_dedupId options = Some d → po_dedupId options' = Some d →
  let st' := run ops (publish topic body rk options st) in
  publish topic' body' rk' options' st' = st'.
Proof.
  intros Hd Hd' st'. apply publish_repeat. exists d. split; [done|].
  apply (run_seen ops). rewrite publish_seen, Hd. set_solver.
Qed.

Definition dedup_options (d : string) : PublishOptions := {|
  po_priority := None; po_groupId := None; po_dedupId := Some d; po_replyTo := None;
  po_correlationId := None; po_ttlMs := None; po_headers := None |}.

Lemma dedup_once_witness :
  let st' := run [OpDispose] (publish "t" "a" None (dedup_options "k") demo_bus) in
  publish "t" "b" None (dedup_options "k") st' = st'.
Proof.
  apply (dedup_once demo_bus [OpDispose] "k" "t" "a" None (dedup_options "k") "t" "b" None
    (dedup_options "k")); reflexivity.
Defined.

(** ** Crash redelivery *)

(** The first message the pump hands out. *)
Lemma pumpQ_first fuel h q m c q1 bm :
  bq_consumers q ≠ [] → bq_pending q ≠ [] → pickDelivery h q = (Some (m, c), q1) →
  h !! m = Some bm → ∃ ds, (pumpQ (S fuel) h q).2 = (m, c, wrap (bump bm)) :: ds.
Proof.
  intros Hc Hp Hpick Hm. rewrite pumpQ_S, Hpick, Hm.
  destruct (bq_pending q); [done|]. destruct (bq_consumers q); [done|].
  destruct (pumpQ fuel _ _) as [[h' q'] ds]. by exists ds.
Qed.

(** When the head of [pending] has maximal priority and some consumer may take it,
    it is what a plain queue hands out. *)
Lemma pickDelivery_head h q m ms :
  bq_pending q = m :: ms → (∀ m', m' ∈ ms → (prio h m' ≤ prio h m)%Z) →
  qc_partitionByGroup (bq_cfg q) = false →
  (if qc_singleActiveConsumer (bq_cfg q) then bq_inflight q = [] ∧ bq_consumers q ≠ []
   else ∃ c, c ∈ bq_consumers q ∧ c ∉ busy q) →
  ∃ c q1, pickDelivery h q = (Some (m, c), q1) ∧ c ∈ bq_consumers q.
Proof.
  intros Hp Hmax Hpart Hfree. unfold pickDelivery. rewrite Hpart.
  assert (Hnext : ∃ c r, nextConsumer q = (Some c, set_rr r q) ∧ c ∈ bq_consumers q).
  { unfold nextConsumer. destruct (bq_consumers q) as [|c0 cs] eqn:Hcs.
    { destruct (qc_singleActiveConsumer _); [by destruct Hfree|].
      destruct Hfree as (c & Hc & _). by apply elem_of_nil in Hc. }
    destruct (qc_singleActiveConsumer _).
    - destruct Hfree as [-> _]. exists c0, (bq_rr q). split; [by destruct q|left].
    - destruct Hfree as (c & Hc & Hb).
      pose proof (scanFree_turn (c0 :: cs) (busy q) ltac:(done) (bq_rr q)) as Hs.
      destruct (scanFree _ _ _ _) as [[c1|] r]; [|by apply Hs in Hc].
      exists c1, r. naive_solver. }
  destruct Hnext as (c & r & -> & Hc).
  pose proof (nextPending_spec h (set_rr r q)) as Hs.
  destruct (nextPending h (set_rr r q)) as [[m1|] q1].
  - destruct Hs as (b & (mb & Hb & _ & Hfirst) & Hm1 & _). simpl in *. rewrite Hm1 in Hb.
    simplify_eq. exists c, q1. split; [|done]. repeat f_equal.
    destruct b as [|b]; [rewrite Hp in Hm1; by simplify_eq/=|].
    specialize (Hfirst 0 m ltac:(lia)). rewrite Hp in Hfirst, Hm1. simpl in *.
    specialize (Hfirst eq_refl). apply list_elem_of_lookup_2, Hmax in Hm1. lia.
  - destruct Hs as [Hs _]. simpl in Hs. by rewrite Hp in Hs.
Qed.

(** The queue of a consumer that drops while holding [m]. *)
Lemma detach_holder q m h :
  NoDup (queue_places q) → NoDup (busy q) → (m, h) ∈ bq_inflight q →
  detach h q = set_pending (m :: bq_pending q)
    (set_inflight (filter (λ e, e.2 ≠ h) (bq_inflight q))
       (set_consumers (splice_first h (bq_consumers q)) q)).
Proof.
  intros Hnd Hb Hin. rewrite (detach_spec _ _ (queue_places_inflight_nodup _ Hnd)).
  f_equal. apply list_elem_of_split in Hin as (l1 & l2 & Hl). unfold busy in Hb. rewrite Hl in Hb |- *.
  rewrite fmap_app in Hb. simpl in Hb. apply NoDup_app in Hb as (_ & Hd & Hb2).
  apply NoDup_cons in Hb2 as [Hn2 _].
  assert (Hnil : ∀ l : list (MsgRef * AckHandler), h ∉ l.*2 → filter (λ e, e.2 = h) l = []).
  { induction l as [|e l IH]; [done|]. simpl. rewrite not_elem_of_cons. intros [? ?].
    rewrite filter_cons_False by naive_solver. by apply IH. }
  rewrite filter_app, filter_cons_True by done.
  rewrite (Hnil l1), (Hnil l2); [done|done|]. intros H1. apply (Hd _ H1). set_solver.
Qed.

(** C15: crash recovery.  When a consumer unsubscribes while holding a message, and
    another consumer is attached and may take one (it is free, or the queue is
    single-active), the message is handed to a surviving consumer at once, with its
    delivery count increased, provided no waiting message has a higher priority. *)
Theorem crash_redelivers (st : Bus) (qr : QRef) (q : BusQueue) (m : MsgRef) (h c : AckHandler) :
  reachable st → b_qheap st !! qr = Some q → qc_partitionByGroup (bq_cfg q) = false →
  (m, h) ∈ bq_inflight q → h ∉ splice_first h (bq_consumers q) →
  c ∈ bq_consumers q → c ≠ h → (qc_singleActiveConsumer (bq_cfg q) = true ∨ c ∉ busy q) →
  (∀ m', m' ∈ bq_pending q → (prio (b_heap st) m' ≤ prio (b_heap st) m)%Z) →
  let st' := unsubscribe {| sub_queue := qr; sub_handler := h |} st in
  ∃ q' c', b_qheap st' !! qr = Some q' ∧ (m, c') ∈ bq_inflight q' ∧ c' ≠ h ∧
    delivery_count st' m = (delivery_count st m + 1)%Z.
Proof.
  intros Hst Hq Hpart Hin Honce Hc Hne Hfree Hmax. pose proof (reachable_wf _ Hst) as Hwf.
  pose proof (wf_queue_ok st Hwf qr q Hq) as Hok. pose proof Hok as [Hpre Hatt Hsin _].
  pose proof (wf_queue_nodup st Hwf qr q Hq) as Hnd. pose proof (wf_queue_alloc st Hwf qr q Hq) as Ha.
  assert (Hlt : m < length (b_heap st)).
  { apply Ha, elem_of_app. right. apply list_elem_of_fmap. by exists (m, h). }
  destruct (lookup_lt_is_Some_2 _ _ Hlt) as [bm Hm].
  pose proof (detach_holder q m h Hnd Hpre Hin) as Hd.
  set (q0 := detach h q) in *.
  destruct (pickDelivery_head (b_heap st) q0 m (bq_pending q)) as (c' & q1 & Hpick & Hc').
  { by rewrite Hd. } { done. } { by rewrite Hd. }
  { rewrite Hd. simpl. destruct (qc_singleActiveConsumer (bq_cfg q)) eqn:Hs.
    - specialize (Hsin eq_refl Hpart). destruct (bq_inflight q) as [|[m0 h0] [|? ?]]; simpl in *; [set_solver| |lia].
      apply list_elem_of_singleton in Hin. injection Hin as <- <-. rewrite filter_cons_False by naive_solver.
      split; [done|]. intros E. assert (c ∈ splice_first h (bq_consumers q)) as H0
        by by apply elem_of_splice_first_ne. rewrite E in H0. by apply elem_of_nil in H0.
    - exists c. split; [by apply elem_of_splice_first_ne|]. destruct Hfree as [|Hfree]; [done|].
      intros (e & -> & [_ He]%list_elem_of_filter)%list_elem_of_fmap. apply Hfree.
      apply list_elem_of_fmap. by exists e. }
  simpl. unfold unsubscribe. simpl. rewrite Hq. fold q0. unfold pump. simpl.
  rewrite list_lookup_insert_eq by (by eapply lookup_lt_Some).
  assert (Hpend : bq_pending q0 = m :: bq_pending q) by (by rewrite Hd).
  pose proof (pumpQ_spec (length (bq_pending q0)) (b_heap st) q0) as Hs.
  destruct (pumpQ_first (length (bq_pending q)) (b_heap st) q0 m c' q1 bm) as [ds Hds];
    [by intros E; rewrite E in Hc'; apply elem_of_nil in Hc'|by rewrite Hpend|done|done|].
  rewrite Hpend in *. simpl length in *. destruct (pumpQ _ _ _) as [[h' q'] ds'].
  simpl in Hds. subst ds'. destruct Hs as [[_ _ _ _ _ Hb _ Hi _] _].
  { by apply detach_ok. } { unfold q0. by rewrite detach_places. }
  { unfold q0. by rewrite detach_places. }
  exists q', c'. simpl. rewrite list_insert_insert_eq, list_lookup_insert_eq by (by eapply lookup_lt_Some).
  split; [done|]. split; [rewrite Hi; set_solver|].
  split; [intros Heq; apply Honce; by rewrite Hd, Heq in Hc'|].
  destruct (Hb m c' (wrap (bump bm)) ltac:(left)) as (bm' & Hm' & Hh' & _).
  unfold delivery_count. simpl. rewrite Hh', Hm'. simpl. lia.
Qed.

(** Consumer 1 holds "a", consumer 2 is free. *)
Definition crash_bus : Bus :=
  run [OpSubscribe "t" 1 (sub_options "w" true 3); OpSubscribe "t" 2 (sub_options "w" true 3);
       OpPublish "t" "a" None no_publish_options; OpMicrotask] new_InMemoryBus.

Definition crash_queue : BusQueue := default (new_BusQueue (demo_cfg false false)) (b_qheap crash_bus !! 0).

Lemma crash_redelivers_witness :
  ∃ q' c', b_qheap (unsubscribe {| sub_queue := 0; sub_handler := 1 |} crash_bus) !! 0 = Some q' ∧
    (0, c') ∈ bq_inflight q' ∧ c' ≠ 1 ∧
    delivery_count (unsubscribe {| sub_queue := 0; sub_handler := 1 |} crash_bus) 0 =
    (delivery_count crash_bus 0 + 1)%Z.
Proof.
  apply (crash_redelivers crash_bus 0 crash_queue 0 1 2).
  - apply run_reachable, reachable_init.
  - vm_compute. reflexivity.
  - reflexivity.
  - by_compute.
  - by_compute.
  - by_compute.
  - lia.
  - right. by_compute.
  - intros m' Hm'. vm_compute in Hm'. by apply elem_of_nil in Hm'.
Defined.

(** ** Dead-lettering *)

(** Operations by which the handler of delivery [i] gives the message up for good:
    nack without requeue, or a nack with requeue or a throw on the last attempt. *)
Definition gives_up (i : nat) (d : Delivery) (max count : Z) (op : BusOp) : Prop :=
  op = OpNack i false ∨
  ((max ≤ count)%Z ∧ (op = OpNack i true ∨ (op = OpThrow i ∧ dl_settled d = false))).

Lemma gives_up_exec i d q st op :
  b_deliveries st !! i = Some d → dl_started d = true → b_qheap st !! dl_queue d = Some q →
  map_get (bq_inflight q) (dl_msg d) = Some (dl_consumer d) →
  gives_up i d (qc_maxDeliveries (bq_cfg q)) (delivery_count st (dl_msg d)) op →
  exec op st =
  let q1 := set_inflight (map_delete (bq_inflight q) (dl_msg d)) q in
  let st1 := with_queue (dl_queue d) q1 (with_delivery i (mark_settled d) st) in
  pump (dl_queue d) (deadLetter (dl_queue d) (dl_msg d) st1).
Proof.
  intros Hd Hs Hq Hg Hop. unfold delivery_count in Hop.
  assert (Hgu : ∀ r, r = RDead ∨ (r = RRequeue ∧
      (qc_maxDeliveries (bq_cfg q) ≤ delivery_count st (dl_msg d))%Z) →
    guarded i r st = let q1 := set_inflight (map_delete (bq_inflight q) (dl_msg d)) q in
      let st1 := with_queue (dl_queue d) q1 (with_delivery i (mark_settled d) st) in
      pump (dl_queue d) (deadLetter (dl_queue d) (dl_msg d) st1)).
  { intros r Hr. unfold guarded. rewrite Hd, Hs. unfold settle. simpl. rewrite Hq, Hg.
    rewrite decide_True by done. destruct Hr as [-> |[-> Hmax]]; [done|].
    unfold delivery_count in Hmax. by rewrite decide_True. }
  destruct Hop as [-> |[Hmax [-> |[-> Hns]]]]; simpl.
  - apply Hgu. by left.
  - apply Hgu. by right.
  - unfold handler_throws. rewrite Hd, Hns. apply Hgu. by right.
Qed.

(** C12: dead-lettering.  When a handler gives a message up (nack without requeue, or
    failure of the last allowed attempt) on a dead-letter queue, the message leaves the
    bus, and every queue of the dead-letter address whose filter matches gets exactly
    one new message with the same body and routing key. *)
Theorem exhausted_dead_letters (st : Bus) (i : nat) (d : Delivery) (q : BusQueue) (msg : BusMessage)
    (op : BusOp) (r : QRef) (qd : BusQueue) :
  reachable st → b_deliveries st !! i = Some d → dl_started d = true →
  b_qheap st !! dl_queue d = Some q → b_heap st !! dl_msg d = Some msg →
  map_get (bq_inflight q) (dl_msg d) = Some (dl_consumer d) → qc_deadLetter (bq_cfg q) = true →
  gives_up i d (qc_maxDeliveries (bq_cfg q)) (delivery_count st (dl_msg d)) op →
  let dlq := deadLetterAddress (qc_topic (bq_cfg q)) in
  b_qheap st !! r = Some qd → r ∈ subscribers st dlq →
  matches (bq_cfg qd) (bm_routingKey msg) = true →
  (dl_msg d ∉ places (exec op st)) ∧
  ∃ qd', b_qheap (exec op st) !! r = Some qd' ∧
    got_copy dlq (bm_body msg) (bm_routingKey msg) no_publish_options st (exec op st) qd qd'.
Proof.
  intros Hst Hd Hs Hq Hm Hg Hdl Hop dlq Hr Hsub Hmatch. pose proof (reachable_wf _ Hst) as Hwf.
  split.
  { destruct (exec_evolves op st Hwf) as [_ (news & Hp & Hnd & Hf) _ _].
    assert (Hlost : dl_msg d ∈ op_lost op st).
    { unfold gives_up, delivery_count in Hop. unfold op_lost, guarded_lost, settle_lost.
      destruct Hop as [-> |[Hmax [-> |[-> Hns]]]]; rewrite Hd, ?Hns, Hs, Hq, decide_True by done;
        rewrite ?decide_True by done; left. }
    assert (Hnd' : NoDup (op_lost op st ++ places (exec op st))).
    { rewrite Hp. apply NoDup_app. repeat split; [done| |by apply wf_nodup].
      intros x Hx%Hf Hx'%(wf_alloc _ Hwf). lia. }
    apply NoDup_app in Hnd' as (_ & Hdis & _). by apply Hdis. }
  rewrite (gives_up_exec i d q st op) by done. simpl.
  set (q1 := set_inflight _ q). set (st1 := with_queue _ q1 _).
  assert (Hlt : dl_queue d < length (b_qheap st)) by by eapply lookup_lt_Some.
  assert (Hrne : r ≠ dl_queue d).
  { intros ->. destruct (iw_topic st (reachable_index_wf _ Hst) _ _ Hsub) as (cfg & Hc & Ht).
    unfold configs in Hc. rewrite list_lookup_fmap, Hq in Hc. simplify_eq/=.
    by apply (deadLetterAddress_ne (qc_topic (bq_cfg q))). }
  assert (Hwf1 : bus_wf st1).
  { eapply (evolves_wf [dl_msg d]); [exact Hwf|]. eapply (take_out_evolves [dl_msg d] []);
      [exact Hq|done|done| |done|by left]. simpl. by rewrite app_nil_r; destruct q. }
  unfold deadLetter. simpl. rewrite list_lookup_insert_eq, Hm by done. simpl. rewrite Hdl. fold dlq.
  destruct (publish_copies dlq (bm_body msg) (Some (bm_routingKey msg)) no_publish_options st1 r qd)
    as (qd' & Hqd' & _ & Hcopy & _); [done| | | |].
  { apply (iw_nodup st (reachable_index_wf _ Hst)). }
  { intros (x & Hx & _). discriminate Hx. }
  { simpl. by rewrite list_lookup_insert_ne. }
  set (st2 := publish dlq _ _ _ st1) in *.
  assert (Hwf2 : bus_wf st2) by (eapply evolves_wf; [exact Hwf1|apply publish_evolves]).
  exists qd'. split.
  { destruct (b_qheap st2 !! dl_queue d) as [q2|] eqn:Hq2.
    - destruct (pump_queue (dl_queue d) st2 q2 Hwf2 Hq2) as (q3 & E & _).
      rewrite E. by rewrite list_lookup_insert_ne.
    - unfold pump. by rewrite Hq2. }
  destruct (pump_evolves (dl_queue d) st2 Hwf2) as [Hle _ _ _].
  eapply got_copy_later; [|exact Hle|by apply Hcopy]. done.
Qed.

(** A worker with two attempts, its dead-letter subscriber, and a message on its last
    attempt. *)
Definition poison_bus : Bus :=
  run [OpSubscribe "t" 1 (sub_options "w" true 2); OpSubscribe "t.dlq" 2 (sub_options "d" false 3);
       OpPublish "t" "boom" None no_publish_options; OpMicrotask; OpThrow 0; OpMicrotask]
    new_InMemoryBus.

Definition poison_delivery : Delivery :=
  default (mk_delivery 0 (0, 0, wrap (mk_message "" "" "" "" no_publish_options)))
    (b_deliveries poison_bus !! 1).

Definition poison_message : BusMessage :=
  default (mk_message "" "" "" "" no_publish_options) (b_heap poison_bus !! 0).

Definition bus_queue (st : Bus) (r : QRef) : BusQueue :=
  default (new_BusQueue (demo_cfg false false)) (b_qheap st !! r).

Lemma exhausted_dead_letters_witness :
  (0 ∉ places (exec (OpThrow 1) poison_bus)) ∧
  ∃ qd', b_qheap (exec (OpThrow 1) poison_bus) !! 1 = Some qd' ∧
    got_copy "t.dlq" "boom" "t" no_publish_options poison_bus (exec (OpThrow 1) poison_bus)
      (bus_queue poison_bus 1) qd'.
Proof.
  apply (exhausted_dead_letters poison_bus 1 poison_delivery (bus_queue poison_bus 0) poison_message
    (OpThrow 1) 1 (bus_queue poison_bus 1)); try (vm_compute; reflexivity).
  - apply run_reachable, reachable_init.
  - right. split; [by_compute|]. right. split; reflexivity.
  - by_compute.
Defined.

(** ** Stream replay *)

(** The retained log of a topic. *)
Definition stream_log (st : Bus) (t : Destination) : list BusMessage := default [] (b_streamLog st !! t).

Definition at_refs (h : Heap) (ms : list MsgRef) : list (option BusMessage) := (λ m, h !! m) <$> ms.

Lemma at_refs_app h m ms : allocated h ms → at_refs (h ++ [m]) ms = at_refs h ms.
Proof.
  intros Ha. apply list_fmap_ext. intros i x Hx. apply lookup_app_l, Ha. by eapply list_elem_of_lookup_2.
Qed.

Lemma replay_all qr (l : list BusMessage) st q :
  b_qheap st !! qr = Some q → allocated (b_heap st) (bq_pending q) →
  let st' := foldl (replay_one qr) st l in
  ∃ q', b_qheap st' !! qr = Some q' ∧ bq_cfg q' = bq_cfg q ∧ bq_inflight q' = bq_inflight q ∧
    at_refs (b_heap st') (bq_pending q') = at_refs (b_heap st) (bq_pending q) ++
      (Some ∘ reset_count <$> filter (λ m, matches (bq_cfg q) (bm_routingKey m) = true) l).
Proof.
  revert st q. induction l as [|m l IH]; intros st q Hq Ha; simpl.
  { exists q. by rewrite app_nil_r. }
  assert (Hlt : qr < length (b_qheap st)) by by eapply lookup_lt_Some.
  set (n := length (b_heap st)). rewrite filter_cons.
  set (st1 := with_queue qr (set_pending (bq_pending q ++ [n]) q) (with_heap (b_heap st ++ [reset_count m]) st)).
  assert (E : replay_one qr st m = if matches (bq_cfg q) (bm_routingKey m) then st1 else st)
    by (unfold replay_one; by rewrite Hq).
  rewrite E. destruct (matches (bq_cfg q) (bm_routingKey m)) eqn:Hm; simpl.
  - destruct (IH st1 (set_pending (bq_pending q ++ [n]) q)) as (q' & Hq' & Hc & Hi & Hp).
    { simpl. by apply list_lookup_insert_eq. }
    { simpl. intros x [Hx%Ha| ->%list_elem_of_singleton]%elem_of_app; rewrite length_app; simpl; unfold n; lia. }
    exists q'. split; [done|]. split; [done|]. split; [done|]. etrans; [exact Hp|]. simpl.
    unfold at_refs at 1. rewrite fmap_app. simpl. fold (at_refs (b_heap st ++ [reset_count m]) (bq_pending q)).
    rewrite at_refs_app by done. unfold n. rewrite list_lookup_middle by done.
    by rewrite <- app_assoc.
  - by apply IH.
Qed.

(** C19: stream replay.  The first subscription of a streaming subscriber id creates a
    queue whose pending messages are exactly the topic's retained log, in publish
    order, filtered by the subscription's pattern, each with a fresh delivery count. *)
Theorem stream_replay (st : Bus) (t : Destination) (id : string) (options : SubscribeOptions) :
  b_queues st !! key t id = None → so_streamReplay options = Some true →
  let '(qr, st') := ensure_queue t id options st in
  ∃ q, b_qheap st' !! qr = Some q ∧ bq_inflight q = [] ∧
    at_refs (b_heap st') (bq_pending q) =
    Some ∘ reset_count <$>
      filter (λ m, matches (mk_config t options) (bm_routingKey m) = true) (stream_log st t).
Proof.
  intros Hk Hr. unfold ensure_queue. rewrite Hk, Hr. simpl. set (n := length (b_qheap st)).
  match goal with |- context [foldl _ ?s _] => set (st1 := s) end.
  destruct (replay_all n (stream_log st t) st1 (new_BusQueue (mk_config t options)))
    as (q' & Hq' & Hc & Hi & Hp).
  { by apply list_lookup_middle. }
  { intros x Hx. by apply elem_of_nil in Hx. }
  exists q'. done.
Qed.

(** The log of topic [t] only grows. *)
Definition log_grows (t : Destination) (st st' : Bus) : Prop :=
  stream_log st t `prefix_of` stream_log st' t.

#[export] Instance log_grows_preorder t : PreOrder (log_grows t).
Proof. split; [intros st|intros st1 st2 st3]; unfold log_grows; [done|]. intros H1 H2. by etrans. Qed.

Lemma same_log t st st' : b_streamLog st' = b_streamLog st → log_grows t st st'.
Proof. unfold log_grows, stream_log. by intros ->. Qed.

Lemma pump_log qr st : b_streamLog (pump qr st) = b_streamLog st.
Proof. unfold pump. destruct (b_qheap st !! qr); [|done]. by destruct (pumpQ _ _ _) as [[? ?] ?]. Qed.

Lemma publish_to_log topic body key options st qr :
  b_streamLog (publish_to topic body key options st qr) = b_streamLog st.
Proof.
  unfold publish_to. destruct (b_qheap st !! qr); [|done]. destruct (matches _ _); [|done].
  simpl. rewrite pump_log. by repeat case_match.
Qed.

(** A fresh publish appends one entry to its topic's log and to no other. *)
Lemma publish_log topic body rk options st t :
  ¬ is_repeat st options →
  stream_log (publish topic body rk options st) t =
  stream_log st t ++
    (if decide (t = topic)
     then [mk_message ("mem-stream-" +:+ pretty (S (b_seq st))) topic body (default topic rk) options]
     else []).
Proof.
  intros Hno. rewrite publish_fresh by done. simpl.
  assert (Hf : ∀ qrs s, b_streamLog (foldl (publish_to topic body (default topic rk) options) s qrs)
     = b_streamLog s).
  { induction qrs as [|qr qrs IH]; intros s; [done|]. simpl. by rewrite IH, publish_to_log. }
  unfold stream_log. rewrite Hf. unfold log_publish.
  assert (E : ∀ o : option string, b_streamLog (match o with Some d =>
     with_seen ({[d]} ∪ b_seenDedupIds st) st | None => st end) = b_streamLog st ∧
     b_seq (match o with Some d => with_seen ({[d]} ∪ b_seenDedupIds st) st | None => st end) = b_seq st)
    by (by intros []).
  destruct (E (po_dedupId options)) as [E1 E2]. simpl. rewrite E1, E2.
  destruct (decide (t = topic)) as [->|Hne].
  - by rewrite lookup_insert_eq.
  - by rewrite lookup_insert_ne, app_nil_r.
Qed.

Lemma publish_log_grows topic body rk options st t :
  log_grows t st (publish topic body rk options st).
Proof.
  destruct (decide (is_repeat st options)) as [Hr|Hr]; [by rewrite publish_repeat|].
  unfold log_grows. rewrite publish_log by done. by apply prefix_app_r.
Qed.

Lemma settle_log_grows t qr m c r st : log_grows t st (settle qr m c r st).
Proof.
  assert (Hp : ∀ qr s s', log_grows t s s' → log_grows t s (pump qr s')).
  { intros i s s' H. etrans; [exact H|]. apply same_log, pump_log. }
  assert (Hdl : ∀ s s', log_grows t s s' → log_grows t s (deadLetter qr m s')).
  { intros s s' H. etrans; [exact H|]. unfold deadLetter. repeat case_match; auto using publish_log_grows; done. }
  unfold settle. repeat case_match; try done; repeat first [apply Hp|apply Hdl]; by apply same_log.
Qed.

Lemma guarded_log_grows t i r st : log_grows t st (guarded i r st).
Proof.
  unfold guarded. repeat case_match; try done.
  etrans; [|apply settle_log_grows]. by apply same_log.
Qed.

Lemma subscribe_log topic h options st :
  b_streamLog (subscribe topic h options st).2 = b_streamLog st.
Proof.
  assert (Ha : ∀ qr s, b_streamLog (attach h qr s) = b_streamLog s).
  { intros. unfold attach. case_match; [|done]. by rewrite pump_log. }
  assert (Hr : ∀ qr l s, b_streamLog (foldl (replay_one qr) s l) = b_streamLog s).
  { intros qr. induction l as [|m l IH]; intros s; [done|]. simpl. rewrite IH.
    unfold replay_one. destruct (b_qheap s !! qr); [|done]. by destruct (matches _ _). }
  assert (He : ∀ id s, b_streamLog (ensure_queue topic id options s).2 = b_streamLog s).
  { intros. unfold ensure_queue. case_match; [done|]. simpl. case_match; [by rewrite Hr|done]. }
  unfold subscribe. destruct (so_subscriberId options) as [id|].
  - specialize (He id st). destruct (ensure_queue _ _ _ _). simpl in *. by rewrite Ha.
  - set (st1 := with_seq _ st). specialize (He ("sub-" +:+ pretty (b_seq st1)) st1).
    destruct (ensure_queue _ _ _ _). simpl in *. by rewrite Ha, He.
Qed.

Lemma exec_log_grows t op st : op ≠ OpDispose → log_grows t st (exec op st).
Proof.
  intros Hop. destruct op as [| |sub|i|i r|i| |i|]; simpl; try done.
  - apply publish_log_grows.
  - apply same_log, subscribe_log.
  - unfold unsubscribe. case_match; [|done]. apply same_log. by rewrite pump_log.
  - apply guarded_log_grows.
  - apply guarded_log_grows.
  - unfold handler_throws. repeat case_match; try done. apply guarded_log_grows.
  - unfold run_microtask. case_match; [done|]. by apply same_log.
  - unfold fire_timer. destruct (b_timers st !! i) as [[d [qr m|qr m]]|]; [| |done]; simpl.
    + unfold expire. repeat case_match; simpl; try (by apply same_log);
        (etrans; [|apply publish_log_grows]; by apply same_log).
    + unfold unpark. case_match; [|by apply same_log]. apply same_log. by rewrite pump_log.
Qed.

Lemma run_log_grows t ops st : OpDispose ∉ ops → log_grows t st (run ops st).
Proof.
  revert st. induction ops as [|op ops IH]; intros st Hno; [done|].
  apply not_elem_of_cons in Hno as [Hop Hno]. simpl.
  etrans; [by apply exec_log_grows|by apply IH].
Qed.

(** full history.  A message published to a topic stays in the topic's retained log
    at its position until dispose, whatever happens to its copies, so every later
    replaying subscription gets it. *)
Theorem history_retained (st : Bus) (ops : list BusOp) (t : Destination) (body : string)
    (rk : option string) (options : PublishOptions) :
  ¬ is_repeat st options → OpDispose ∉ ops →
  ∃ msg, stream_log (run ops (publish t body rk options st)) t !! length (stream_log st t) = Some msg ∧
    msg = mk_message (bm_id msg) t body (default t rk) options.
Proof.
  intros Hno Hops. eexists. split; [|by instantiate (1 := mk_message _ _ _ _ _)].
  eapply prefix_lookup_Some; [|by apply run_log_grows].
  rewrite publish_log, decide_True by done. by apply list_lookup_middle.
Qed.

Lemma history_retained_witness :
  ∃ msg, stream_log (run demo_run (publish "t" "first" None no_publish_options new_InMemoryBus)) "t" !! 0
      = Some msg ∧ msg = mk_message (bm_id msg) "t" "first" "t" no_publish_options.
Proof.
  apply (history_retained new_InMemoryBus demo_run "t" "first" None no_publish_options).
  - intros (d & Hd & _). discriminate Hd.
  - unfold demo_run. rewrite !not_elem_of_cons. repeat split; try discriminate. apply not_elem_of_nil.
Defined.

Definition replay_options (id pattern : string) : SubscribeOptions := {|
  so_kind := None; so_routingKey := Some pattern; so_subscriberId := Some id;
  so_deadLetter := None; so_maxDeliveries := None; so_retryDelayMs := None;
  so_partitionByGroup := None; so_singleActiveConsumer := None; so_streamReplay := Some true;
  so_transient := None; so_priorityQueue := None; so_ttlMs := None |}.

Definition log_bus : Bus :=
  run [OpPublish "t" "a" (Some "k.1") no_publish_options; OpPublish "t" "b" (Some "l.1") no_publish_options;
       OpPublish "t" "c" (Some "k.2") no_publish_options] new_InMemoryBus.

Lemma stream_replay_witness :
  let '(qr, st') := ensure_queue "t" "s" (replay_options "s" "k.*") log_bus in
  ∃ q, b_qheap st' !! qr = Some q ∧ bq_inflight q = [] ∧
    at_refs (b_heap st') (bq_pending q) =
    Some ∘ reset_count <$>
      filter (λ m, matches (mk_config "t" (replay_options "s" "k.*")) (bm_routingKey m) = true)
        (stream_log log_bus "t").
Proof. apply (stream_replay log_bus "t" "s" (replay_options "s" "k.*")); vm_compute; reflexivity. Defined.

(** The replayed bodies of the witness, evaluated. *)
Example replay_bodies :
  let '(qr, st') := ensure_queue "t" "s" (replay_options "s" "k.*") log_bus in
  omap (fmap bm_body) (at_refs (b_heap st') (bq_pending (bus_queue st' qr))) = ["a"; "c"].
Proof. vm_compute. reflexivity. Qed.

(** ** Settlement handles of earlier attempts *)

(** One consumer, "a" handed out twice: its first attempt was nacked with requeue. *)
Definition stale_run : list BusOp :=
  [OpSubscribe "t" 1 (sub_options "w" false 5); OpPublish "t" "a" None no_publish_options;
   OpMicrotask; OpNack 0 true].

(** a stale handle settles a later attempt.  After nack-requeue the message is
    redelivered to the same consumer, and an ack on the FIRST attempt's handle (which
    the code calls already settled) removes the redelivered message from the bus
    before its second attempt has even reached the handler. *)
Theorem stale_handle_settles :
  let st := run stale_run new_InMemoryBus in
  let st' := exec (OpAck 0) st in
  places st = [0] ∧ b_microtasks st = [1] ∧ dl_settled <$> b_deliveries st !! 0 = Some true ∧
  dl_settled <$> b_deliveries st !! 1 = Some false ∧ places st' = [].
Proof. vm_compute. done. Qed.

(** The TTL of a message parked for a retry delay fires unseen: the message is
    redelivered after it expired. *)
Definition parked_ttl_run : list BusOp :=
  [OpSubscribe "t" 1 {| so_kind := None; so_routingKey := None; so_subscriberId := Some "w";
     so_deadLetter := None; so_maxDeliveries := None; so_retryDelayMs := Some 50%Z;
     so_partitionByGroup := None; so_singleActiveConsumer := None; so_streamReplay := None;
     so_transient := None; so_priorityQueue := None; so_ttlMs := None |};
   OpSubscribe "t.expiry" 2 (sub_options "e" false 3);
   OpPublish "t" "a" None (ttl_options 10); OpMicrotask; OpNack 0 true; OpTimer 0; OpTimer 0].

Theorem parked_message_outlives_ttl :
  let st := run parked_ttl_run new_InMemoryBus in
  b_timers st = [] ∧ bq_inflight (bus_queue st 0) = [(0, 1)] ∧
  queue_places (bus_queue st 1) = [] ∧ stream_log st "t.expiry" = [].
Proof. vm_compute. done. Qed.

(** A group's requeued message goes behind the later messages of its group. *)
Definition group_requeue_run : list BusOp :=
  [OpSubscribe "t" 1 (mode_options "w" true false);
   OpPublish "t" "a1" None (group_options "a"); OpPublish "t" "a2" None (group_options "a");
   OpMicrotask; OpNack 0 true].

Theorem requeue_reorders_group :
  let st := run group_requeue_run new_InMemoryBus in
  bq_inflight (bus_queue st 0) = [(1, 1)] ∧ bq_pending (bus_queue st 0) = [0].
Proof. vm_compute. done. Qed.
