(* ===== verification/BusStore.v ===== *)
(** Well-formedness of the in-memory bus's store: every reference the class and its
    closures hold leads to an object, every timer and handle included, and the handler
    of a delivery is called once.

    The calls of the bus only append to its heaps, timers and microtasks ([grows]). *)

From S2P Require Import Prelude Abstractions TopicMatch BusQueue InMemoryBus.
From S2P Require Import BusInvariants BusSafety BusDelivery.

(** The message a timer's callback works on. *)
Definition timer_msg (t : TimerAction) : MsgRef :=
  match t with TtlTimer _ m => m | RetryTimer _ m => m end.

Definition ttl_ref (t : Z * TimerAction) : option MsgRef :=
  match t.2 with TtlTimer _ m => Some m | RetryTimer _ _ => None end.

(** ** Growth *)

(** A delivery as [pump] makes it, of an existing queue and message. *)
Record new_delivery (queues messages : nat) (d : Delivery) : Prop := {
  nd_queue : dl_queue d < queues;
  nd_msg : dl_msg d < messages;
  nd_started : dl_started d = false;
  nd_settled : dl_settled d = false
}.

Record grows (st st' : Bus) : Prop := {
  gr_queues : length (b_qheap st) ≤ length (b_qheap st');
  gr_heap : length (b_heap st) ≤ length (b_heap st');
  gr_deliveries : ∃ ds, b_deliveries st' = b_deliveries st ++ ds ∧
    b_microtasks st' = b_microtasks st ++ seq (length (b_deliveries st)) (length ds) ∧
    Forall (new_delivery (length (b_qheap st')) (length (b_heap st'))) ds;
  gr_timers : ∃ ts, b_timers st' = b_timers st ++ ts ∧
    ∀ m, m ∈ omap ttl_ref ts → m < length (b_heap st')
}.

Lemma new_delivery_mono a b a' b' d : a ≤ a' → b ≤ b' → new_delivery a b d → new_delivery a' b' d.
Proof. intros ? ? [? ? ? ?]. split; [lia|lia|done|done]. Qed.

#[export] Instance grows_preorder : PreOrder grows.
Proof.
  split.
  - intros st. split; [done|done|exists []; by rewrite !app_nil_r|].
    exists []. rewrite app_nil_r. split; [done|]. intros m Hm. by apply elem_of_nil in Hm.
  - intros a b c [Q1 H1 (d1 & D1 & M1 & N1) (t1 & T1 & L1)] [Q2 H2 (d2 & D2 & M2 & N2) (t2 & T2 & L2)].
    split; [lia|lia| |].
    + exists (d1 ++ d2). rewrite D2, M2, D1, M1, !length_app, seq_app, <- !app_assoc.
      split; [done|]. split; [done|]. apply Forall_app. split; [|done].
      eapply Forall_impl; [exact N1|]. intros d. by apply new_delivery_mono.
    + exists (t1 ++ t2). rewrite T2, T1, <- app_assoc, omap_app. split; [done|].
      intros m [Hm%L1|Hm]%elem_of_app; [lia|by apply L2].
Qed.

(** Only the queues' contents, or the heaps, grow. *)
Lemma grows_same st st' :
  length (b_qheap st) ≤ length (b_qheap st') → length (b_heap st) ≤ length (b_heap st') →
  b_deliveries st' = b_deliveries st → b_microtasks st' = b_microtasks st →
  b_timers st' = b_timers st → grows st st'.
Proof.
  intros Hq Hh Hd Hm Ht. split; [done|done|exists []; by rewrite !app_nil_r|].
  exists []. rewrite app_nil_r. split; [done|]. intros m Hin. by apply elem_of_nil in Hin.
Qed.

Lemma grows_timer st t :
  (∀ m, ttl_ref t = Some m → m < length (b_heap st)) → grows st (with_timers (b_timers st ++ [t]) st).
Proof.
  intros Hm. split; [done|done|exists []; by rewrite !app_nil_r|].
  exists [t]. split; [done|]. intros m (x & ->%list_elem_of_singleton & E)%list_elem_of_omap.
  by apply Hm.
Qed.

Lemma grows_foldl {A} (f : Bus → A → Bus) l st :
  (∀ st x, grows st (f st x)) → grows st (foldl f st l).
Proof.
  intros Hf. revert st. induction l as [|x l IH]; intros st; simpl; [done|].
  etrans; [apply Hf|apply IH].
Qed.

Ltac same_store := apply grows_same; simpl; rewrite ?length_insert, ?length_app; simpl; lia || done.

(** The loop hands out messages of the heap and allocates none. *)
Lemma pumpQ_in_heap fuel h q :
  let '(h', _, ds) := pumpQ fuel h q in
  length h' = length h ∧ Forall (λ d, d.1.1 < length h) ds.
Proof.
  revert h q. induction fuel as [|fuel IH]; intros h q; simpl; [done|].
  destruct (bq_pending q); [done|]. destruct (bq_consumers q); [done|].
  destruct (pickDelivery h q) as [[[msg c]|] q1]; [|done].
  destruct (h !! msg) as [m|] eqn:Hm; [|done].
  specialize (IH (<[msg := bump m]> h) (set_inflight (map_set (bq_inflight q1) msg c) q1)).
  destruct (pumpQ fuel _ _) as [[h' q'] ds]. destruct IH as [Hl Hds].
  rewrite length_insert in Hl, Hds. split; [done|]. constructor; [|done].
  by apply lookup_lt_Some in Hm.
Qed.

Lemma pump_grows qr st : grows st (pump qr st).
Proof.
  unfold pump. destruct (b_qheap st !! qr) as [q|] eqn:Hq; [|done].
  pose proof (pumpQ_in_heap (length (bq_pending q)) (b_heap st) q) as Hp.
  destruct (pumpQ _ _ q) as [[h q'] ds]. destruct Hp as [Hl Hds].
  split; simpl; rewrite ?length_insert; [done|lia| |].
  - exists (map (mk_delivery qr) ds). split; [done|]. split; [by rewrite length_map|].
    apply Forall_forall. intros d (x & -> & Hx)%list_elem_of_fmap.
    apply lookup_lt_Some in Hq. rewrite Forall_forall in Hds.
    by split; simpl; [|rewrite Hl; apply Hds|..].
  - exists []. rewrite app_nil_r. split; [done|]. intros m Hm. by apply elem_of_nil in Hm.
Qed.

#[local] Hint Resolve pump_grows : core.

Lemma publish_to_grows t b k o st qr : grows st (publish_to t b k o st qr).
Proof.
  unfold publish_to. destruct (b_qheap st !! qr) as [q|]; [|done].
  destruct (matches _ k); [|done]. simpl. etrans; [|apply pump_grows].
  match goal with |- grows _ (match _ with Some _ => _ | None => ?s end) => trans s; [same_store|] end.
  destruct (po_ttlMs o) as [ttl|]; [|done]. case_decide; [|done].
  match goal with |- grows ?s _ => apply (grows_timer s) end. simpl. intros m [= <-]. rewrite length_app. simpl. lia.
Qed.

Lemma publish_grows t b rk o st : grows st (publish t b rk o st).
Proof.
  unfold publish. case_match; [done|].
  etrans; [|apply grows_foldl; intros; apply publish_to_grows]. destruct (po_dedupId o); same_store.
Qed.

Lemma deadLetter_grows qr m st : grows st (deadLetter qr m st).
Proof. unfold deadLetter. repeat case_match; try done. apply publish_grows. Qed.

Lemma attach_grows h qr st : grows st (attach h qr st).
Proof. unfold attach. case_match; [|done]. etrans; [|apply pump_grows]. same_store. Qed.

Lemma replay_one_grows qr st m : grows st (replay_one qr st m).
Proof. unfold replay_one, alloc. repeat case_match; simplify_eq/=; try done; same_store. Qed.

Lemma ensure_queue_grows t id o st : grows st (ensure_queue t id o st).2.
Proof.
  unfold ensure_queue. destruct (b_queues st !! _); [done|]. simpl.
  match goal with |- grows _ (if _ then foldl _ ?s _ else _) => trans s; [same_store|] end.
  case_match; [|done]. apply grows_foldl. intros. apply replay_one_grows.
Qed.

Lemma subscribe_grows t h o st : grows st (subscribe t h o st).2.
Proof.
  unfold subscribe. destruct (so_subscriberId o) as [id|].
  - pose proof (ensure_queue_grows t id o st). destruct (ensure_queue _ _ _ _) as [qr st2]. simpl in *.
    etrans; [done|apply attach_grows].
  - trans (with_seq (S (b_seq st)) st); [same_store|]. simpl. set (id := "sub-" +:+ _).
    pose proof (ensure_queue_grows t id o (with_seq (S (b_seq st)) st)) as H.
    destruct (ensure_queue _ _ _ _) as [qr st2]. simpl in *. etrans; [done|apply attach_grows].
Qed.

Lemma unsubscribe_grows s st : grows st (unsubscribe s st).
Proof. unfold unsubscribe. case_match; [|done]. etrans; [|apply pump_grows]. same_store. Qed.

Lemma settle_grows qr m c r st : grows st (settle qr m c r st).
Proof.
  unfold settle. destruct (b_qheap st !! qr) as [q|]; [|done]. case_decide; [|done]. simpl.
  match goal with |- context [deadLetter qr m ?s] => trans s; [same_store|] end.
  repeat case_match; (etrans; [|apply pump_grows]); auto using deadLetter_grows; try done.
  - match goal with |- grows ?s _ => by apply (grows_timer s) end.
  - same_store.
Qed.

Lemma run_timer_grows t st : grows st (run_timer t st).
Proof.
  destruct t as [qr m|qr m]; simpl.
  - unfold expire. repeat case_match; simplify_eq; try done;
      try (etrans; [|apply publish_grows]); same_store.
  - unfold unpark. case_match; [|done]. etrans; [|apply pump_grows]. same_store.
Qed.

(** ** Handles and microtasks *)

Record handles_wf (st : Bus) : Prop := {
  hw_deliveries : ∀ i d, b_deliveries st !! i = Some d →
    dl_queue d < length (b_qheap st) ∧ dl_msg d < length (b_heap st) ∧
    (i ∈ b_microtasks st ↔ dl_started d = false);
  hw_microtasks : ∀ i, i ∈ b_microtasks st → i < length (b_deliveries st);
  hw_once : NoDup (b_microtasks st);
  hw_timers : ∀ m, m ∈ omap ttl_ref (b_timers st) → m < length (b_heap st)
}.

Lemma grows_handles st st' : grows st st' → handles_wf st → handles_wf st'.
Proof.
  intros [Hq Hh (ds & D & M & N) (ts & T & L)] [W1 W2 W3 W4].
  set (n := length (b_deliveries st)) in *. split.
  - intros i d Hd. rewrite M. rewrite elem_of_app, elem_of_seq. rewrite D in Hd.
    apply lookup_app_Some in Hd as [Hd|[Hi Hd]].
    + destruct (W1 _ _ Hd) as (? & ? & <-). split; [lia|]. split; [lia|].
      apply lookup_lt_Some in Hd. fold n in Hd. split; [intros [|?]; [done|lia]|by left].
    + fold n in Hi, Hd. rewrite Forall_lookup in N. destruct (N _ _ Hd) as [? ? -> _].
      split; [done|]. split; [done|]. split; [done|]. intros _. right.
      apply lookup_lt_Some in Hd. lia.
  - intros i. rewrite M, D, elem_of_app, elem_of_seq, length_app. fold n. intros [Hi%W2|?]; lia.
  - rewrite M. apply NoDup_app. split; [done|]. split; [|apply NoDup_seq].
    intros i Hi%W2. rewrite elem_of_seq. fold n in Hi. lia.
  - intros m. rewrite T, omap_app. intros [Hm%W4|Hm]%elem_of_app; [lia|by apply L].
Qed.

(** Settling marks a delivery whose handler was called. *)
Lemma mark_settled_handles i d st :
  b_deliveries st !! i = Some d → dl_started d = true → handles_wf st →
  handles_wf (with_delivery i (mark_settled d) st).
Proof.
  intros Hd Hs [W1 W2 W3 W4]. split; simpl; rewrite ?length_insert; [|done..].
  intros j e [(-> & <- & _)|[_ He]]%list_lookup_insert_Some; [|by apply W1].
  by apply (W1 _ _ Hd).
Qed.

Lemma guarded_handles i r st : handles_wf st → handles_wf (guarded i r st).
Proof.
  intros Hwf. unfold guarded. destruct (b_deliveries st !! i) as [d|] eqn:Hd; [|done].
  destruct (dl_started d) eqn:Hs; [|done].
  eapply grows_handles; [apply settle_grows|by apply mark_settled_handles].
Qed.

(** Running a microtask calls the handler of its delivery. *)
Lemma microtask_handles st : handles_wf st → handles_wf (run_microtask st).
Proof.
  intros [W1 W2 W3 W4]. unfold run_microtask. destruct (b_microtasks st) as [|i rest] eqn:E; [by split; rewrite ?E|].
  apply NoDup_cons in W3 as [Hi Hnd]. split; simpl; rewrite ?length_alter; [|by set_solver|done|done].
  intros j d Hd. destruct (decide (i = j)) as [<-|Hne].
  - rewrite list_lookup_alter_eq in Hd. apply fmap_Some in Hd as (e & He & ->).
    destruct (W1 _ _ He) as (? & ? & _). simpl. by split_and!.
  - rewrite list_lookup_alter_ne in Hd by done. destruct (W1 _ _ Hd) as (? & ? & <-).
    split; [done|]. split; [done|]. set_solver.
Qed.

Lemma fire_timer_handles i st : handles_wf st → handles_wf (fire_timer i st).
Proof.
  intros [W1 W2 W3 W4]. unfold fire_timer. destruct (b_timers st !! i) as [[delay t]|]; [|done].
  eapply grows_handles; [apply run_timer_grows|]. split; simpl; try done.
  intros m (x & Hx & E)%list_elem_of_omap. apply W4, list_elem_of_omap. exists x. split; [|done].
  eapply elem_of_sublist; [exact Hx|]. apply sublist_delete.
Qed.

Lemma exec_handles op st : handles_wf st → handles_wf (exec op st).
Proof.
  intros Hwf. destruct op as [| | |i|i r|i| |i|]; simpl.
  - eapply grows_handles; [apply publish_grows|done].
  - eapply grows_handles; [apply subscribe_grows|done].
  - eapply grows_handles; [apply unsubscribe_grows|done].
  - by apply guarded_handles.
  - by apply guarded_handles.
  - unfold handler_throws. repeat case_match; try done. by apply guarded_handles.
  - by apply microtask_handles.
  - by apply fire_timer_handles.
  - by destruct Hwf.
Qed.

Lemma reachable_handles st : reachable st → handles_wf st.
Proof.
  induction 1 as [|st op _ IH]; [|by apply exec_handles].
  split; simpl; [done| |apply NoDup_nil_2|]; intros m Hm; by apply elem_of_nil in Hm.
Qed.

(** ** The store is well typed *)

(** a well-typed store.  In every reachable state the indexes lead to queues, a topic's
    to queues of that topic; every message of a queue and every queue and message a
    timer or a delivery's handle refers to exists; and the microtasks are, each once,
    the deliveries whose handler has not been called. *)
Theorem references_resolve (st : Bus) :
  reachable st →
  (∀ k qr, b_queues st !! k = Some qr → is_Some (b_qheap st !! qr)) ∧
  (∀ t qr, qr ∈ subscribers st t → ∃ q, b_qheap st !! qr = Some q ∧ qc_topic (bq_cfg q) = t) ∧
  (∀ qr q m, b_qheap st !! qr = Some q → m ∈ queue_places q → is_Some (b_heap st !! m)) ∧
  (∀ delay t, (delay, t) ∈ b_timers st →
    is_Some (b_qheap st !! timer_queue t) ∧ is_Some (b_heap st !! timer_msg t)) ∧
  (∀ i d, b_deliveries st !! i = Some d →
    is_Some (b_qheap st !! dl_queue d) ∧ is_Some (b_heap st !! dl_msg d)) ∧
  NoDup (b_microtasks st) ∧
  (∀ i, i ∈ b_microtasks st ↔ ∃ d, b_deliveries st !! i = Some d ∧ dl_started d = false).
Proof.
  intros Hst. pose proof (reachable_wf _ Hst) as Hwf. pose proof (reachable_index_wf _ Hst) as [_ I2 I3].
  pose proof (reachable_handles _ Hst) as [W1 W2 W3 W4]. unfold configs in *.
  split_and!; [| | | | |done|].
  - intros k qr (c & id & Hc & _)%I3. rewrite list_lookup_fmap in Hc.
    by destruct (b_qheap st !! qr).
  - intros t qr (c & Hc & Ht)%I2. rewrite list_lookup_fmap in Hc.
    destruct (b_qheap st !! qr) as [q|]; [|done]. injection Hc as <-. by exists q.
  - intros qr q m Hq Hm. apply lookup_lt_is_Some. by apply (wf_queue_alloc _ Hwf _ _ Hq).
  - intros delay t Ht. split; apply lookup_lt_is_Some; [by apply (wf_timers _ Hwf (delay, t))|].
    destruct t as [qr m|qr m]; simpl.
    + apply W4, list_elem_of_omap. by eexists.
    + apply (wf_alloc _ Hwf). apply elem_of_app. right. apply list_elem_of_omap. by eexists.
  - intros i d Hd. destruct (W1 _ _ Hd) as (? & ? & _). by split; apply lookup_lt_is_Some.
  - intros i. split.
    + intros Hi. pose proof (W2 _ Hi) as [d Hd]%lookup_lt_is_Some. exists d. split; [done|].
      by apply (W1 _ _ Hd).
    + intros (d & Hd & Hs). by apply (W1 _ _ Hd).
Qed.
