(* ===== verification/BusLocal.v ===== *)
(** Invariants of single queues, over all the operations of the in-memory bus.

    An invariant [I] of one queue says something about its contents and about what it has
    handed out so far.  The interface [queue_law] lists what [I] owes: to survive the
    pump, a new message, the loss of messages and the return of one.  In exchange every
    operation of the bus keeps it on every queue ([exec_lawful]). *)

From S2P Require Import Prelude Abstractions TopicMatch BusQueue InMemoryBus BusInvariants BusSafety BusDelivery.

(** [message.deliveryCount]. *)
Definition attempts (h : Heap) (m : MsgRef) : Z := default 0%Z (bm_deliveryCount <$> h !! m).

Lemma attempts_untouched h h' m : h' !! m = h !! m → attempts h' m = attempts h m.
Proof. unfold attempts. by intros ->. Qed.

Lemma attempts_push h m x : x < length h → attempts (h ++ [m]) x = attempts h x.
Proof. intros Hx. apply attempts_untouched. by apply lookup_app_l. Qed.

Lemma attempts_pushed h m : attempts (h ++ [m]) (length h) = bm_deliveryCount m.
Proof. unfold attempts. by rewrite list_lookup_middle. Qed.

Lemma attempts_bump h m bm x :
  h !! m = Some bm → attempts (<[m := bump bm]> h) x = (attempts h x + if decide (x = m) then 1 else 0)%Z.
Proof.
  intros Hm. unfold attempts. case_decide as E.
  - subst. rewrite list_lookup_insert_eq, Hm by (by eapply lookup_lt_Some). done.
  - rewrite list_lookup_insert_ne by done. lia.
Qed.

(** ** Messages of one place are in no other *)

Lemma elsewhere st qr q i q' m :
  bus_wf st → b_qheap st !! qr = Some q → b_qheap st !! i = Some q' → i ≠ qr →
  m ∈ queue_places q' → m ∉ queue_places q.
Proof.
  intros Hwf Hq Hi Hne Hm Hm'. destruct (places_split _ _ _ Hq) as (rest & Hp & Hr).
  pose proof (wf_nodup _ Hwf) as Hnd. unfold places in Hnd. rewrite Hp in Hnd.
  apply NoDup_app in Hnd as (Hnd & _ & _). apply NoDup_app in Hnd as (_ & Hd & _).
  apply (Hd m Hm'). specialize (Hr (new_BusQueue (bq_cfg q))). simpl in Hr. rewrite <- Hr.
  apply list_elem_of_In, in_concat. exists (queue_places q'). split; [|by apply list_elem_of_In].
  apply list_elem_of_In, list_elem_of_fmap. exists q'. split; [done|]. apply list_elem_of_lookup. exists i.
  by rewrite list_lookup_insert_ne.
Qed.

Lemma parked_elsewhere st qr q m :
  bus_wf st → b_qheap st !! qr = Some q → m ∈ parked st → m ∉ queue_places q.
Proof.
  intros Hwf Hq Hm Hm'. destruct (places_split _ _ _ Hq) as (rest & Hp & _).
  pose proof (wf_nodup _ Hwf) as Hnd. unfold places in Hnd. rewrite Hp in Hnd.
  apply NoDup_app in Hnd as (_ & Hd & _). apply (Hd m); [|done]. set_solver.
Qed.

Lemma parked_intro st d qr m : (d, RetryTimer qr m) ∈ b_timers st → m ∈ parked st.
Proof. intros Hin. apply list_elem_of_omap. by exists (d, RetryTimer qr m). Qed.

(** ** What a queue has handed out *)

Definition handed_by (qr : QRef) (d : Delivery) : option (MsgRef * IncomingMessage) :=
  if decide (dl_queue d = qr) then Some (dl_msg d, dl_incoming d) else None.

Definition handed (qr : QRef) (ds : list Delivery) : list (MsgRef * IncomingMessage) := omap (handed_by qr) ds.

Lemma handed_app qr ds ds' : handed qr (ds ++ ds') = handed qr ds ++ handed qr ds'.
Proof. apply omap_app. Qed.

Lemma handed_other qr ds : (∀ d, d ∈ ds → dl_queue d ≠ qr) → handed qr ds = [].
Proof.
  induction ds as [|d ds IH]; intros H; [done|]. unfold handed, handed_by in *. simpl.
  rewrite decide_False by (apply H; by left). apply IH. intros. apply H. by right.
Qed.

Lemma handed_pump qr l : handed qr (map (mk_delivery qr) l) = (λ x, (x.1.1, x.2)) <$> l.
Proof.
  induction l as [|x l IH]; [done|]. unfold handed, handed_by in *. simpl. rewrite decide_True by done. by f_equal.
Qed.

Lemma elem_of_handed d ds : d ∈ ds → (dl_msg d, dl_incoming d) ∈ handed (dl_queue d) ds.
Proof. intros Hd. apply list_elem_of_omap. exists d. split; [done|]. unfold handed_by. by rewrite decide_True. Qed.

(** Starting and settling a delivery changes nothing of it. *)
Lemma handed_change qr i d d' ds :
  ds !! i = Some d → dl_queue d' = dl_queue d → dl_msg d' = dl_msg d → dl_incoming d' = dl_incoming d →
  handed qr (<[i := d']> ds) = handed qr ds.
Proof.
  intros Hi Hq Hm Hin. revert i Hi. induction ds as [|e ds IH]; intros [|i] Hi; simplify_eq/=.
  - unfold handed, handed_by. simpl. by rewrite Hq, Hm, Hin.
  - specialize (IH _ Hi). unfold handed in *. simpl. by rewrite IH.
Qed.

(** ** The interface *)

Section local.
Context (I : Heap → BusQueue → list (MsgRef * IncomingMessage) → Prop).
(** What holds of a message that may come back to a queue of the configuration. *)
Context (R : Heap → QueueConfig → MsgRef → Prop).

Record queue_law : Prop := {
  ql_heap : ∀ h h' q l, heap_le h h' → allocated h (queue_places q) →
    (∀ m, m ∈ queue_places q → attempts h' m = attempts h m) → I h q l → I h' q l;
  ql_counts : ∀ h h' cfg m, attempts h' m = attempts h m → R h cfg m → R h' cfg m;
  ql_new : ∀ h cfg, I h (new_BusQueue cfg) [];
  ql_pump : ∀ h q l, queue_ok h q → NoDup (queue_places q) → allocated h (queue_places q) → I h q l →
    let '(h', q', ds) := pumpQ (length (bq_pending q)) h q in I h' q' (l ++ ((λ x, (x.1.1, x.2)) <$> ds));
  ql_push : ∀ h q l m, allocated h (queue_places q) → bm_deliveryCount m = 0%Z → I h q l →
    I (h ++ [m]) (set_pending (bq_pending q ++ [length h]) q) l;
  ql_drop : ∀ h q q' l, bq_cfg q' = bq_cfg q → bq_pending q' `sublist_of` bq_pending q →
    (∀ m, m ∈ (bq_inflight q').*1 → m ∈ (bq_inflight q).*1) → I h q l → I h q' l;
  ql_return : ∀ h q l m, I h q l → R h (bq_cfg q) m → I h (set_pending (bq_pending q ++ [m]) q) l;
  ql_retry : ∀ h q l m, I h q l → m ∈ (bq_inflight q).*1 → (attempts h m < qc_maxDeliveries (bq_cfg q))%Z →
    R h (bq_cfg q) m
}.
Context (law : queue_law).

Record lawful (st : Bus) : Prop := {
  lw_wf : bus_wf st;
  lw_deliveries : ∀ d, d ∈ b_deliveries st → dl_queue d < length (b_qheap st);
  lw_queues : ∀ qr q, b_qheap st !! qr = Some q → I (b_heap st) q (handed qr (b_deliveries st));
  lw_parked : ∀ d qr m q, (d, RetryTimer qr m) ∈ b_timers st → b_qheap st !! qr = Some q →
    R (b_heap st) (bq_cfg q) m
}.

(** A step that keeps the invariant. *)
Definition keeps (st st' : Bus) : Prop := lawful st → lawful st'.

#[local] Instance keeps_preorder : PreOrder keeps.
Proof. split; [intros st H; exact H|]. intros a b c Hab Hbc H. by apply Hbc, Hab. Qed.

Lemma keeps_foldl {A} (f : Bus → A → Bus) (l : list A) st :
  (∀ st x, keeps st (f st x)) → keeps st (foldl f st l).
Proof. intros Hf. revert st. induction l as [|x l IH]; intros st; simpl; [done|]. etrans; [apply Hf|apply IH]. Qed.

(** ** Changes of one queue *)

(** An update of one queue: only its own messages' counts change, its deliveries are
    appended, and its new timers park messages that may come back. *)
Lemma keeps_local lost st st' qr q q' ds :
  evolves lost st st' →
  b_qheap st !! qr = Some q → b_qheap st' = <[qr := q']> (b_qheap st) → bq_cfg q' = bq_cfg q →
  b_deliveries st' = b_deliveries st ++ ds → (∀ d, d ∈ ds → dl_queue d = qr) →
  (lawful st →
    (∀ m, m < length (b_heap st) → m ∉ queue_places q → attempts (b_heap st') m = attempts (b_heap st) m) ∧
    I (b_heap st') q' (handed qr (b_deliveries st) ++ handed qr ds) ∧
    (∀ d r m, (d, RetryTimer r m) ∈ b_timers st' → (d, RetryTimer r m) ∈ b_timers st ∨
       r = qr ∧ R (b_heap st') (bq_cfg q) m)) →
  keeps st st'.
Proof.
  intros Hev Hq Hqs Hcfg Hd Hds H Ht. destruct (H Ht) as (Hsame & HI & Htimers). clear H.
  destruct Ht as [Hwf Hdl HQ Hp]. pose proof (lookup_lt_Some _ _ _ Hq) as Hlt.
  assert (Hold : ∀ i qi, b_qheap st' !! i = Some qi →
      (i = qr ∧ qi = q') ∨ (i ≠ qr ∧ b_qheap st !! i = Some qi)).
  { intros i qi. rewrite Hqs. intros [(-> & -> & _)|[Hne Hi]]%list_lookup_insert_Some; [by left|by right]. }
  split; [by eapply evolves_wf|..].
  - intros d. rewrite Hd, Hqs, length_insert. intros [Hin|Hin]%elem_of_app; [by apply Hdl|by rewrite (Hds d)].
  - intros i qi. rewrite Hd, handed_app. intros [[-> ->]|[Hne Hi]]%Hold; [done|].
    rewrite (handed_other i ds), app_nil_r by (intros d Hin; rewrite (Hds d Hin); congruence).
    eapply (ql_heap law (b_heap st)); [by apply (Hev Hwf)|by eapply wf_queue_alloc| |by apply HQ].
    intros m Hm. apply Hsame; [by eapply wf_queue_alloc|by eapply elsewhere].
  - intros d r m qi Hin Hqi. destruct (Htimers d r m Hin) as [Hin'|[-> HR]].
    + eapply (ql_counts law).
      * apply Hsame; [|by eapply parked_elsewhere, parked_intro].
        apply (wf_alloc _ Hwf). apply elem_of_app. right. by eapply parked_intro.
      * destruct (Hold _ _ Hqi) as [[-> ->]|[_ Hi]]; [|by eapply Hp]. rewrite Hcfg. by eapply Hp.
    + destruct (Hold _ _ Hqi) as [[_ ->]|[? _]]; [by rewrite Hcfg|done].
Qed.

(** Nothing the invariant reads changes. *)
Lemma keeps_same st st' :
  b_qheap st' = b_qheap st → b_heap st' = b_heap st → b_timers st' = b_timers st →
  (∀ d', d' ∈ b_deliveries st' → ∃ d, d ∈ b_deliveries st ∧ dl_queue d' = dl_queue d) →
  (∀ qr, handed qr (b_deliveries st') = handed qr (b_deliveries st)) → keeps st st'.
Proof.
  intros Hq Hh Ht Hd Hhd [Hwf Hdl HQ Hp]. split.
  - eapply evolves_wf; [exact Hwf|]. apply evolves_same; [done|done|by unfold parked; rewrite Ht|intros t; by rewrite Ht].
  - intros d (d0 & Hin & ->)%Hd. rewrite Hq. by apply Hdl.
  - intros i q. rewrite Hq, Hh, Hhd. apply HQ.
  - intros d qr m q. rewrite Hq, Hh, Ht. apply Hp.
Qed.

Lemma keeps_fields st st' :
  b_qheap st' = b_qheap st → b_heap st' = b_heap st → b_timers st' = b_timers st →
  b_deliveries st' = b_deliveries st → keeps st st'.
Proof. intros Hq Hh Ht Hd. apply keeps_same; [done..| |]; rewrite Hd; [|done]. intros d Hin. by exists d. Qed.

(** The contents of one queue change, the messages do not. *)
Lemma keeps_contents lost st st' qr q q' :
  evolves lost st st' →
  b_qheap st !! qr = Some q → b_qheap st' = <[qr := q']> (b_qheap st) → bq_cfg q' = bq_cfg q →
  b_heap st' = b_heap st → b_deliveries st' = b_deliveries st →
  (∀ l, lawful st → I (b_heap st) q l → I (b_heap st) q' l) →
  (lawful st → ∀ d r m, (d, RetryTimer r m) ∈ b_timers st' → (d, RetryTimer r m) ∈ b_timers st ∨
     r = qr ∧ R (b_heap st) (bq_cfg q) m) →
  keeps st st'.
Proof.
  intros Hev Hq Hqs Hc Hh Hd HI HR. eapply (keeps_local _ _ _ qr q q' []); [exact Hev|exact Hq|exact Hqs|exact Hc| | |].
  - by rewrite app_nil_r.
  - intros d Hin. by apply elem_of_nil in Hin.
  - intros Hl. rewrite Hh, app_nil_r. split_and!; [done| |by apply HR]. apply HI; [done|]. by apply (lw_queues _ Hl).
Qed.

(** ** The operations *)

Lemma pump_keeps qr st : keeps st (pump qr st).
Proof.
  destruct (b_qheap st !! qr) as [q|] eqn:Hq; [|by unfold pump; rewrite Hq].
  pose proof (pump_evolves qr st) as Hev. unfold pump in *. rewrite Hq in *.
  pose proof (pumpQ_spec (length (bq_pending q)) (b_heap st) q) as Hs.
  pose proof (ql_pump law (b_heap st) q (handed qr (b_deliveries st))) as HI.
  destruct (pumpQ _ _ _) as [[h q'] ds]. intros Ht. pose proof (lw_wf _ Ht) as Hwf.
  destruct Hs as [[Hc _ _ _ Hu _ Hp _ _] _]; eauto with bus.
  specialize (HI ltac:(by apply (wf_queues _ Hwf qr)) ltac:(by eapply wf_queue_nodup) ltac:(by eapply wf_queue_alloc)
    ltac:(by apply (lw_queues _ Ht))).
  revert Ht. eapply (keeps_local _ _ _ qr q q' (map (mk_delivery qr) ds)); [exact Hev|done..| |].
  - intros d (x & -> & _)%list_elem_of_fmap. done.
  - intros _. simpl. rewrite handed_pump. split_and!; [|done|by left].
    intros m _ Hm. apply attempts_untouched, Hu. intros Hin. apply Hm, elem_of_app. left. rewrite Hp. set_solver.
Qed.

Lemma push_new_keeps st st' qr q m :
  b_qheap st !! qr = Some q → bm_deliveryCount m = 0%Z →
  b_qheap st' = <[qr := set_pending (bq_pending q ++ [length (b_heap st)]) q]> (b_qheap st) →
  b_heap st' = b_heap st ++ [m] → b_deliveries st' = b_deliveries st →
  (∃ extra, b_timers st' = b_timers st ++ extra ∧ Forall (λ t, ∃ x, t.2 = TtlTimer qr x) extra) →
  keeps st st'.
Proof.
  intros Hq Hm Hqs Hh Hd (extra & Hts & Hex).
  assert (Hom : omap parked_ref extra = []).
  { clear -Hex. induction Hex as [|[d t] l (x & E) _ IH]; [done|]. simpl in *. by subst. }
  eapply (keeps_local _ _ _ qr q _ []); [|exact Hq|exact Hqs|done|by rewrite app_nil_r|intros d Hin; by apply elem_of_nil in Hin|].
  - eapply push_new_evolves; [done|done|done| |].
    + unfold parked. by rewrite Hts, omap_app, Hom, app_nil_r.
    + rewrite Hts. intros t [|Ht]%elem_of_app; [by left|right]. rewrite Forall_forall in Hex.
      destruct (Hex t Ht) as (x & ->). done.
  - intros Ht. rewrite Hh, Hts, app_nil_r. split_and!.
    + intros x Hx _. by apply attempts_push.
    + apply (ql_push law); [by eapply (wf_queue_alloc _ (lw_wf _ Ht))|done|by apply (lw_queues _ Ht)].
    + intros d r x [|Hin]%elem_of_app; [by left|]. rewrite Forall_forall in Hex.
      destruct (Hex _ Hin) as (y & E). discriminate.
Qed.

Lemma publish_to_keeps topic body key options st qr : keeps st (publish_to topic body key options st qr).
Proof.
  unfold publish_to. destruct (b_qheap st !! qr) as [q|] eqn:Hq; [|done].
  destruct (matches _ _); [|done]. cbv zeta. unfold alloc. cbn [fst snd].
  etrans; [|apply pump_keeps].
  eapply (push_new_keeps _ _ qr q (mk_message _ topic body key options)); [exact Hq|done|..].
  all: destruct (po_ttlMs options) as [ttl|]; [case_decide|]; try done.
  all: try (exists []; split; [by rewrite app_nil_r|by apply Forall_nil]).
  eexists [_]. split; [done|]. apply Forall_singleton. by eexists.
Qed.

Lemma publish_keeps topic body rk options st : keeps st (publish topic body rk options st).
Proof.
  unfold publish. set (repeated := match po_dedupId options with Some _ => _ | None => _ end).
  destruct repeated; [done|]. etrans; [|apply keeps_foldl; intros; apply publish_to_keeps].
  by apply keeps_fields; case_match.
Qed.

Lemma deadLetter_keeps qr m st : keeps st (deadLetter qr m st).
Proof. unfold deadLetter. repeat case_match; try done. apply publish_keeps. Qed.

Lemma attach_keeps handler qr st : keeps st (attach handler qr st).
Proof.
  unfold attach. destruct (b_qheap st !! qr) as [q|] eqn:Hq; [|done]. etrans; [|apply pump_keeps].
  eapply (keeps_contents [] _ _ qr q); [|exact Hq|done..| |by left].
  - eapply (evolves_local [] []); [exact Hq|done|by left|].
    intros Hwf. split; [done|]. split; [done|split; [apply NoDup_nil_2|split; [apply NoDup_nil_fresh|]]].
    simpl. apply attach_ok; eauto with bus.
  - intros l _. by apply (ql_drop law).
Qed.

Lemma replay_one_keeps qr st m : keeps st (replay_one qr st m).
Proof.
  unfold replay_one. destruct (b_qheap st !! qr) as [q|] eqn:Hq; [|done]. destruct (matches _ _); [|done].
  eapply (push_new_keeps _ _ qr q (reset_count m)); [exact Hq|done..|].
  exists []. split; [by rewrite app_nil_r|by apply Forall_nil].
Qed.

Lemma new_queue_keeps cfg qs bt st :
  keeps st (with_index qs bt (with_qheap (b_qheap st ++ [new_BusQueue cfg]) st)).
Proof.
  intros [Hwf Hd HQ Hp]. split; simpl.
  - eapply evolves_wf; [exact Hwf|]. apply new_queue_evolves.
  - intros d ?%Hd. rewrite length_app. lia.
  - intros i q [Hi|[Hlt Hi]]%lookup_app_Some; [by eapply HQ|].
    apply list_lookup_singleton_Some in Hi as [E <-]. rewrite handed_other; [apply (ql_new law)|].
    intros d ?%Hd. lia.
  - intros d qr m q Hin Hq. pose proof (wf_timers _ Hwf _ Hin) as Hlt. simpl in Hlt.
    rewrite lookup_app_l in Hq by done. by eapply Hp.
Qed.

Lemma subscribe_keeps topic h options st : keeps st (subscribe topic h options st).2.
Proof.
  assert (He : ∀ id st, keeps st (ensure_queue topic id options st).2).
  { intros id s. unfold ensure_queue. destruct (b_queues s !! key topic id); [done|]. simpl.
    etrans; [apply new_queue_keeps|]. case_match; [|done]. apply keeps_foldl. intros. apply replay_one_keeps. }
  unfold subscribe. destruct (so_subscriberId options) as [id|].
  - specialize (He id st). destruct (ensure_queue _ _ _ _) as [qr st']. etrans; [exact He|apply attach_keeps].
  - set (st1 := with_seq _ st). specialize (He ("sub-" +:+ pretty (b_seq st1)) st1).
    destruct (ensure_queue _ _ _ _) as [qr st']. simpl in *. etrans; [|etrans; [exact He|apply attach_keeps]].
    by apply keeps_fields.
Qed.

Lemma map_delete_keys (l : list (MsgRef * AckHandler)) m x : x ∈ (map_delete l m).*1 → x ∈ l.*1.
Proof.
  intros ([x' c'] & -> & [Hin _]%elem_of_map_delete)%list_elem_of_fmap. apply list_elem_of_fmap. by exists (x', c').
Qed.

(** Taking a message out of the in-flight map. *)
Lemma take_out_keeps qr q m c st :
  b_qheap st !! qr = Some q → map_get (bq_inflight q) m = Some c →
  keeps st (with_queue qr (set_inflight (map_delete (bq_inflight q) m) q) st).
Proof.
  intros Hq Hg. eapply (keeps_contents [m] _ _ qr q); [|exact Hq|done..| |by left].
  - eapply (take_out_evolves [m] []); [exact Hq|exact Hg|done| |done|by left].
    simpl. by rewrite app_nil_r; destruct q.
  - intros l _. apply (ql_drop law); [done|done|]. intros x. apply map_delete_keys.
Qed.

Lemma settle_keeps qr m c resolved st : keeps st (settle qr m c resolved st).
Proof.
  unfold settle. destruct (b_qheap st !! qr) as [q|] eqn:Hq; [|done]. case_decide as Hg; [|done]. cbv zeta.
  set (q1 := set_inflight _ q). set (st1 := with_queue qr q1 st).
  assert (Hgone : keeps st (pump qr (deadLetter qr m st1))).
  { etrans; [by eapply take_out_keeps|]. etrans; [apply deadLetter_keeps|apply pump_keeps]. }
  assert (Hdrop : ∀ l, I (b_heap st) q l → I (b_heap st) q1 l)
    by (intros l; apply (ql_drop law); [done|done|intros x; apply map_delete_keys]).
  destruct resolved; [etrans; [by eapply take_out_keeps|apply pump_keeps]|case_decide as Hc; [exact Hgone|]|exact Hgone].
  assert (HR : lawful st → R (b_heap st) (bq_cfg q) m).
  { intros Hl. eapply (ql_retry law); [by apply (lw_queues _ Hl)| |by apply Z.nle_gt].
    apply map_get_Some_elem in Hg. apply list_elem_of_fmap. by exists (m, c). }
  destruct (retry_delay _) as [d|]; (etrans; [|apply pump_keeps]).
  - eapply (keeps_contents [] _ _ qr q q1); [|exact Hq|done..|by intros l _; apply Hdrop|].
    + eapply (take_out_evolves [] []); [exact Hq|exact Hg|done| | |].
      * simpl. by rewrite app_nil_r; destruct q.
      * unfold parked. simpl. rewrite omap_app. simpl. solve_Permutation.
      * intros t [|Ht%list_elem_of_singleton]%elem_of_app; [by left|right; by subst].
    + intros Hl d' r x [|Hin%list_elem_of_singleton]%elem_of_app; [by left|]. simplify_eq. right. auto.
  - eapply (keeps_contents [] _ _ qr q (set_pending (bq_pending q1 ++ [m]) q1)); [|exact Hq| |done|done|done| |by left].
    + eapply (take_out_evolves [] [m]); [exact Hq|exact Hg|done| |done|by left].
      simpl. by rewrite list_insert_insert_eq.
    + simpl. by rewrite list_insert_insert_eq.
    + intros l Hl HI. apply (ql_return law); [by apply Hdrop|by apply HR].
Qed.

Lemma expire_keeps qr m st : keeps st (expire qr m st).
Proof.
  unfold expire. destruct (b_qheap st !! qr) as [q|] eqn:Hq; [|done]. destruct (b_heap st !! m); [|done].
  destruct (index_of m (bq_pending q)) as [i|] eqn:Hi.
  - etrans; [|apply publish_keeps]. apply index_of_Some in Hi.
    eapply (keeps_contents [m] _ _ qr q); [|exact Hq|done..| |by left].
    + eapply (evolves_local [m] []); [exact Hq|done|by left|].
      intros Hwf. split; [done|]. split; [|split; [apply NoDup_nil_2|split; [apply NoDup_nil_fresh|]]].
      * unfold queue_places, parked. simpl. rewrite (delete_Permutation _ _ _ Hi) at 2. done.
      * simpl. apply queue_ok_pending. eauto with bus.
    + intros l _. apply (ql_drop law); [done| |done]. apply sublist_delete.
  - unfold map_has. case_bool_decide as Hg.
    + destruct Hg as [c Hg]. etrans; [by eapply take_out_keeps|apply publish_keeps].
    + apply keeps_fields; try done. by apply list_insert_id.
Qed.

(** Firing a retry timer moves the message from the timer to the queue. *)
Lemma unpark_keeps i d qr m st :
  b_timers st !! i = Some (d, RetryTimer qr m) →
  keeps st (unpark qr m (with_timers (delete i (b_timers st)) st)).
Proof.
  intros Hi Ht. assert (Hin : (d, RetryTimer qr m) ∈ b_timers st) by by eapply list_elem_of_lookup_2.
  pose proof (wf_timers _ (lw_wf _ Ht) _ Hin) as Hlt. destruct (lookup_lt_is_Some_2 _ _ Hlt) as [q Hq]. simpl in Hq.
  pose proof (lw_parked _ Ht _ _ _ _ Hin Hq) as HR. revert Ht.
  change (keeps st (unpark qr m (with_timers (delete i (b_timers st)) st))). unfold unpark. simpl. rewrite Hq.
  etrans; [|apply pump_keeps].
  eapply (keeps_contents [] _ _ qr q); [by eapply unparked_evolves|exact Hq|done..| |].
  - intros l _ HI. by apply (ql_return law).
  - simpl. intros _ d' r x Hx%elem_of_list_delete. by left.
Qed.

Lemma delivery_keeps i d d' ms st :
  b_deliveries st !! i = Some d → dl_queue d' = dl_queue d → dl_msg d' = dl_msg d → dl_incoming d' = dl_incoming d →
  keeps st (with_deliveries (<[i := d']> (b_deliveries st)) ms st).
Proof.
  intros Hd Hq Hm Hin. apply keeps_same; try done; simpl.
  - intros e (j & Hj)%list_elem_of_lookup. apply list_lookup_insert_Some in Hj as [(_ & <- & _)|[_ Hj]].
    + exists d. split; [by eapply list_elem_of_lookup_2|done].
    + exists e. split; [by eapply list_elem_of_lookup_2|done].
  - intros qr. by eapply handed_change.
Qed.

Lemma guarded_keeps i r st : keeps st (guarded i r st).
Proof.
  unfold guarded. destruct (b_deliveries st !! i) as [d|] eqn:Hd; [|done]. destruct (dl_started d); [|done].
  etrans; [|apply settle_keeps]. by eapply delivery_keeps.
Qed.

Lemma microtask_keeps st : keeps st (run_microtask st).
Proof.
  unfold run_microtask. destruct (b_microtasks st) as [|i rest]; [done|].
  rewrite alter_insert. destruct (b_deliveries st !! i) as [d|] eqn:Hd; [by eapply delivery_keeps|by apply keeps_fields].
Qed.

Lemma timer_keeps i st : keeps st (fire_timer i st).
Proof.
  unfold fire_timer. destruct (b_timers st !! i) as [[d [qr m|qr m]]|] eqn:Hi; [| |done].
  - etrans; [|apply expire_keeps]. intros [Hwf Hd HQ Hp]. split; [|done|done|].
    + eapply evolves_wf; [exact Hwf|]. apply evolves_same; [done|done| |intros t; apply elem_of_list_delete].
      by rewrite (parked_delete _ _ _ Hi).
    + simpl. intros d1 qr1 m1 q1 Hin%elem_of_list_delete. by apply (Hp d1 qr1 m1 q1).
  - by eapply unpark_keeps.
Qed.

(** What an operation that returns the messages of a consumer that goes away needs. *)
Definition survives_departure : Prop :=
  ∀ h q l handler, NoDup (queue_places q) → I h q l → I h (detach handler q) l.

Lemma unsubscribe_keeps sub st : survives_departure → keeps st (unsubscribe sub st).
Proof.
  intros Hdep. unfold unsubscribe. destruct (b_qheap st !! sub_queue sub) as [q|] eqn:Hq; [|done].
  etrans; [|apply pump_keeps].
  eapply (keeps_contents [] _ _ (sub_queue sub) q); [|exact Hq|done| |done|done| |by left].
  - eapply (evolves_local [] []); [done|done|by left|].
    intros Hwf. split; [done|]. split; [|split; [apply NoDup_nil_2|split; [apply NoDup_nil_fresh|]]].
    + by rewrite detach_places by eauto with bus.
    + simpl. apply detach_ok; eauto with bus.
  - apply detach_cfg.
  - intros l Hl. apply Hdep. by eapply (wf_queue_nodup _ (lw_wf _ Hl)).
Qed.

(** Every operation keeps the invariant on every queue; the departure of a consumer does
    when the invariant survives it. *)
Lemma exec_keeps op st : (∀ sub, op = OpUnsubscribe sub → survives_departure) → keeps st (exec op st).
Proof.
  intros Hop. destruct op as [| |sub|i|i r|i| |i|]; simpl.
  - apply publish_keeps.
  - apply subscribe_keeps.
  - by eapply unsubscribe_keeps, Hop.
  - apply guarded_keeps.
  - apply guarded_keeps.
  - unfold handler_throws. destruct (b_deliveries st !! i) as [d|]; [|done].
    destruct (dl_settled d); [done|]. apply guarded_keeps.
  - apply microtask_keeps.
  - apply timer_keeps.
  - by apply keeps_fields.
Qed.

Lemma new_lawful : lawful new_InMemoryBus.
Proof.
  split; [apply new_bus_wf|..]; simpl; [intros ? H; by apply elem_of_nil in H|done|intros ? ? ? ? H; by apply elem_of_nil in H].
Qed.

Lemma run_lawful ops :
  (∀ sub, OpUnsubscribe sub ∈ ops → survives_departure) → lawful (run ops new_InMemoryBus).
Proof.
  intros Hops. enough (H : ∀ st, lawful st → lawful (run ops st)) by apply H, new_lawful.
  induction ops as [|op ops IH]; intros st Hst; [done|]. simpl. apply IH.
  - intros sub Hin. apply (Hops sub). by right.
  - apply exec_keeps; [|done]. intros sub ->. apply (Hops sub). by left.
Qed.
End local.
