(* ===== verification/BusSpec.v ===== *)
(** The abstract broker the in-memory bus implements: a deterministic machine that
    knows the queues, the messages it still owes to each of them, and which events
    issue or discharge a message.  It has no consumers, no pump, no in-flight map, no
    groups and no retry timers; the refinement says that none of these can lose,
    duplicate, alter or misroute an owed message. *)

From S2P Require Import Prelude Abstractions TopicMatch BusQueue InMemoryBus.
From S2P Require Import BusInvariants BusSafety BusProgress BusDelivery BusLocal.

(** ** The abstract broker *)

Module Broker.
Record broker := {
  index : gmap string (list QRef);   (* topic: its queues, in subscription order *)
  names : gmap string QRef;          (* (topic, subscriber): its queue *)
  queues : list QueueConfig;
  issued : list BusMessage;          (* every message ever issued, by reference *)
  owed : gmap MsgRef QRef;           (* the queue each unsettled message is owed to *)
  seen : gset string;
  log : gmap string (list BusMessage);
  seq : nat
}.

Definition empty : broker := {|
  index := ∅; names := ∅; queues := []; issued := []; owed := ∅; seen := ∅; log := ∅; seq := 0 |}.

(** Record update, one per field the events write. *)
Definition set_index ix ns b := {| index := ix; names := ns; queues := queues b; issued := issued b;
  owed := owed b; seen := seen b; log := log b; seq := seq b |}.
Definition set_queues qs b := {| index := index b; names := names b; queues := qs; issued := issued b;
  owed := owed b; seen := seen b; log := log b; seq := seq b |}.
Definition set_owed ms ow b := {| index := index b; names := names b; queues := queues b; issued := ms;
  owed := ow; seen := seen b; log := log b; seq := seq b |}.
Definition set_seen s b := {| index := index b; names := names b; queues := queues b;
  issued := issued b; owed := owed b; seen := s; log := log b; seq := seq b |}.
Definition set_log l n b := {| index := index b; names := names b; queues := queues b;
  issued := issued b; owed := owed b; seen := seen b; log := l; seq := n |}.

(** Issue a message to a queue; discharge one. *)
Definition issue (qr : QRef) (x : BusMessage) (b : broker) : broker :=
  set_owed (issued b ++ [x]) (<[length (issued b) := qr]> (owed b)) b.

Definition discharge (m : MsgRef) (b : broker) : broker := set_owed (issued b) (delete m (owed b)) b.

(** A publish issues one message to each queue of the topic that accepts the key. *)
Definition copy (topic : Destination) (body key : string) (o : PublishOptions)
    (b : broker) (qr : QRef) : broker :=
  match queues b !! qr with
  | Some cfg =>
      if matches cfg key then
        issue qr (mk_message ("mem-bus-" +:+ pretty (S (seq b))) topic body key o)
          (set_log (log b) (S (seq b)) b)
      else b
  | None => b
  end.

Definition append (topic : Destination) (x : BusMessage) (l : gmap string (list BusMessage)) :=
  <[topic := default [] (l !! topic) ++ [x]]> l.

Definition repeated (o : PublishOptions) (b : broker) : bool :=
  match po_dedupId o with Some d => bool_decide (d ∈ seen b) | None => false end.

Definition publish (topic : Destination) (body key : string) (o : PublishOptions)
    (b : broker) : broker :=
  if repeated o b then b
  else
    let b := match po_dedupId o with Some d => set_seen ({[d]} ∪ seen b) b | None => b end in
    let entry := mk_message ("mem-stream-" +:+ pretty (S (seq b))) topic body key o in
    let b := set_log (append topic entry (log b)) (S (seq b)) b in
    foldl (copy topic body key o) b (default [] (index b !! topic)).

(** A subscription creates its queue if it is new, and a replaying one is issued the
    retained log. *)
Definition replay (cfg : QueueConfig) (qr : QRef) (b : broker) (x : BusMessage) : broker :=
  if matches cfg (bm_routingKey x) then issue qr (reset_count x) b else b.

Definition enlist (topic : Destination) (id : string) (o : SubscribeOptions) (b : broker) : broker :=
  match names b !! key topic id with
  | Some _ => b
  | None =>
      let qr := length (queues b) in
      let cfg := mk_config topic o in
      let b := set_queues (queues b ++ [cfg]) b in
      let b := set_index (<[topic := default [] (index b !! topic) ++ [qr]]> (index b))
                 (<[key topic id := qr]> (names b)) b in
      if default false (so_streamReplay o)
      then foldl (replay cfg qr) b (default [] (log b !! topic)) else b
  end.

Definition subscribe (topic : Destination) (o : SubscribeOptions) (b : broker) : broker :=
  match so_subscriberId o with
  | Some id => enlist topic id o b
  | None => enlist topic ("sub-" +:+ pretty (S (seq b))) o (set_log (log b) (S (seq b)) b)
  end.

(** Discharge [m], and publish its body and key at the address its queue names. *)
Definition forward (address : QueueConfig → option Destination) (m : MsgRef) (b : broker) : broker :=
  match owed b !! m ≫= (λ qr, queues b !! qr), issued b !! m with
  | Some cfg, Some x =>
      match address cfg with
      | Some a => publish a (bm_body x) (bm_routingKey x) no_publish_options (discharge m b)
      | None => discharge m b
      end
  | _, _ => b
  end.

Definition dead_address (cfg : QueueConfig) : option Destination :=
  if qc_deadLetter cfg then Some (deadLetterAddress (qc_topic cfg)) else None.

Definition expired_address (cfg : QueueConfig) : option Destination :=
  Some (expiryAddress (qc_topic cfg)).

Inductive event :=
  | Publish (topic : Destination) (body key : string) (o : PublishOptions)
  | Subscribe (topic : Destination) (o : SubscribeOptions)
  | Finish (m : MsgRef)   (* acknowledged *)
  | GiveUp (m : MsgRef)   (* rejected for good, or out of deliveries *)
  | Expire (m : MsgRef)
  | Dispose
  | Silent.

Definition step (b : broker) (e : event) : broker :=
  match e with
  | Publish t body k o => publish t body k o b
  | Subscribe t o => subscribe t o b
  | Finish m => discharge m b
  | GiveUp m => forward dead_address m b
  | Expire m => forward expired_address m b
  | Dispose => set_log ∅ (seq b) (set_index ∅ ∅ b)
  | Silent => b
  end.

Definition run (es : list event) (b : broker) : broker := foldl step b es.
End Broker.

(** ** The event an operation of the bus is *)

(** The message of delivery [i], if its handler was called and still holds it, with
    its delivery count and its queue's limit. *)
Definition unsettled (i : nat) (st : Bus) : option (MsgRef * Z * Z) :=
  d ← b_deliveries st !! i;
  q ← b_qheap st !! dl_queue d;
  if dl_started d && bool_decide (map_get (bq_inflight q) (dl_msg d) = Some (dl_consumer d))
  then Some (dl_msg d, attempts (b_heap st) (dl_msg d), qc_maxDeliveries (bq_cfg q))
  else None.

(** A requeue discharges its message only at the delivery limit. *)
Definition resolution (r : Resolution) (m : MsgRef) (count max : Z) : Broker.event :=
  match r with
  | RAck => Broker.Finish m
  | RDead => Broker.GiveUp m
  | RRequeue => if decide (max ≤ count)%Z then Broker.GiveUp m else Broker.Silent
  end.

Definition settlement (i : nat) (r : Resolution) (st : Bus) : Broker.event :=
  match unsettled i st with
  | Some (m, count, max) => resolution r m count max
  | None => Broker.Silent
  end.

Definition queued (qr : QRef) (st : Bus) : list MsgRef := default [] (queue_places <$> b_qheap st !! qr).

Definition event_of (op : BusOp) (st : Bus) : Broker.event :=
  match op with
  | OpPublish t body rk o => Broker.Publish t body (default t rk) o
  | OpSubscribe t _ o => Broker.Subscribe t o
  | OpUnsubscribe _ => Broker.Silent
  | OpAck i => settlement i RAck st
  | OpNack i requeue => settlement i (if requeue then RRequeue else RDead) st
  | OpThrow i =>
      match b_deliveries st !! i with
      | Some d => if dl_settled d then Broker.Silent else settlement i RRequeue st
      | None => Broker.Silent
      end
  | OpMicrotask => Broker.Silent
  | OpTimer i =>
      match b_timers st !! i with
      | Some (_, TtlTimer qr m) =>
          if decide (m ∈ queued qr st) then Broker.Expire m else Broker.Silent
      | _ => Broker.Silent
      end
  | OpDispose => Broker.Dispose
  end.

Fixpoint events (ops : list BusOp) (st : Bus) : list Broker.event :=
  match ops with
  | [] => []
  | op :: ops => event_of op st :: events ops (exec op st)
  end.

(** ** What the bus holds for a queue *)

Definition parked_for (qr : QRef) (t : Z * TimerAction) : option MsgRef :=
  match t.2 with
  | RetryTimer qr' m => if decide (qr' = qr) then Some m else None
  | TtlTimer _ _ => None
  end.

(** The messages in the queue's pending list and in-flight map, and those waiting on
    its retry timers. *)
Definition held (st : Bus) (qr : QRef) : list MsgRef := queued qr st ++ omap (parked_for qr) (b_timers st).

Definition contents (st : Bus) : list BusMessage := reset_count <$> b_heap st.

Record models (st : Bus) (b : Broker.broker) : Prop := {
  mo_index : Broker.index b = b_byTopic st;
  mo_names : Broker.names b = b_queues st;
  mo_queues : Broker.queues b = configs st;
  mo_issued : Broker.issued b = contents st;
  mo_owed : ∀ m qr, Broker.owed b !! m = Some qr ↔ m ∈ held st qr;
  mo_seen : Broker.seen b = b_seenDedupIds st;
  mo_log : Broker.log b = b_streamLog st;
  mo_seq : Broker.seq b = b_seq st
}.

(** ** Changes the broker does not see *)

Record view (st st' : Bus) : Prop := {
  vw_index : same_index st st';
  vw_contents : contents st' = contents st;
  vw_held : ∀ m qr, m ∈ held st' qr ↔ m ∈ held st qr;
  vw_seen : b_seenDedupIds st' = b_seenDedupIds st;
  vw_log : b_streamLog st' = b_streamLog st;
  vw_seq : b_seq st' = b_seq st
}.

#[export] Instance view_preorder : PreOrder view.
Proof.
  split; [by intros st; split|]. intros s1 s2 s3 [] []. split; try congruence; [by etrans|].
  intros m qr. naive_solver.
Qed.

Lemma view_models st st' b : view st st' → models st b → models st' b.
Proof. intros [(Ht & Hq & Hc) Hm Hh Hs Hl Hn] []. split; try congruence. intros m qr. by rewrite Hh. Qed.

Lemma heap_le_contents h h' : heap_le h h' → length h' = length h → reset_count <$> h' = reset_count <$> h.
Proof.
  intros Hle Hl. apply list_eq_same_length with (length h); rewrite ?length_fmap; [done..|].
  intros i x y _ Hx Hy. rewrite list_lookup_fmap in Hx, Hy.
  destruct (h !! i) as [m|] eqn:Hi; [|done]. destruct (Hle _ _ Hi) as (m' & Hm' & E).
  rewrite Hm' in Hx. simpl in *. congruence.
Qed.

Lemma queued_at st qr q : b_qheap st !! qr = Some q → queued qr st = queue_places q.
Proof. unfold queued. by intros ->. Qed.

Lemma queued_local st st' qr q q' i :
  b_qheap st !! qr = Some q → b_qheap st' = <[qr := q']> (b_qheap st) →
  queued i st' = if decide (i = qr) then queue_places q' else queued i st.
Proof.
  intros Hq Hqs. unfold queued. rewrite Hqs. case_decide as Hi.
  - subst. by rewrite list_lookup_insert_eq by by eapply lookup_lt_Some.
  - by rewrite list_lookup_insert_ne by done.
Qed.

(** An update of one queue that only rearranges what it and its timers hold. *)
Lemma view_local st st' qr q q' :
  b_qheap st !! qr = Some q → b_qheap st' = <[qr := q']> (b_qheap st) → bq_cfg q' = bq_cfg q →
  b_byTopic st' = b_byTopic st → b_queues st' = b_queues st →
  contents st' = contents st →
  (∀ m i, i ≠ qr → m ∈ omap (parked_for i) (b_timers st') ↔ m ∈ omap (parked_for i) (b_timers st)) →
  (∀ m, m ∈ queue_places q' ++ omap (parked_for qr) (b_timers st') ↔
        m ∈ queue_places q ++ omap (parked_for qr) (b_timers st)) →
  b_seenDedupIds st' = b_seenDedupIds st → b_streamLog st' = b_streamLog st →
  b_seq st' = b_seq st → view st st'.
Proof.
  intros Hq Hqs Hc Ht Hn Hm Hother Hown Hs Hl Hsq. split; try done; [by eapply same_index_queue|].
  intros m i. unfold held. rewrite (queued_local _ _ _ _ _ i Hq Hqs). case_decide as Hi.
  - subst. rewrite (queued_at _ _ _ Hq). apply Hown.
  - rewrite !elem_of_app. by rewrite Hother.
Qed.

Lemma pump_seq qr st : b_seq (pump qr st) = b_seq st.
Proof. unfold pump. destruct (b_qheap st !! qr); [|done]. by destruct (pumpQ _ _ _) as [[??]?]. Qed.

Lemma pump_arms_none qr st : b_timers (pump qr st) = b_timers st.
Proof. unfold pump. destruct (b_qheap st !! qr); [|done]. by destruct (pumpQ _ _ _) as [[??]?]. Qed.

Lemma pump_contents qr st : bus_wf st → contents (pump qr st) = contents st.
Proof.
  intros Hwf. unfold pump. destruct (b_qheap st !! qr) as [q|] eqn:Hq; [|done].
  pose proof (pumpQ_spec (length (bq_pending q)) (b_heap st) q) as Hs.
  destruct (pumpQ _ _ _) as [[h q'] ds]. destruct Hs as [[] _]; eauto with bus.
  by apply heap_le_contents.
Qed.

Lemma pump_view qr st : bus_wf st → view st (pump qr st).
Proof.
  intros Hwf. destruct (b_qheap st !! qr) as [q|] eqn:Hq.
  - destruct (pump_queue qr st q Hwf Hq) as (q' & Hqs & Hc & _ & Hp).
    destruct (pump_index qr st) as (? & ? & _).
    eapply view_local; [done|done|done|done|done|by apply pump_contents| | | | |].
    + intros. by rewrite pump_arms_none.
    + intros m. by rewrite pump_arms_none, Hp.
    + apply pump_seen.
    + apply pump_log.
    + apply pump_seq.
  - unfold pump. by rewrite Hq.
Qed.

(** ** Issuing *)

Lemma contents_push h m : reset_count <$> (h ++ [m]) = (reset_count <$> h) ++ [reset_count m].
Proof. by rewrite fmap_app. Qed.

Lemma held_allocated st m qr : bus_wf st → m ∈ held st qr → m < length (b_heap st).
Proof.
  intros Hwf [Hm|Hm]%elem_of_app; apply (wf_alloc _ Hwf); unfold places; apply elem_of_app.
  - left. unfold queued in Hm. destruct (b_qheap st !! qr) as [q|] eqn:Hq; [|by apply elem_of_nil in Hm].
    destruct (places_split _ _ _ Hq) as (rest & -> & _). set_solver.
  - right. apply list_elem_of_omap in Hm as ([d [|i x]] & Hin & E); [done|]. unfold parked_for in E.
    simpl in E. case_decide; [|done]. injection E as ->. by eapply parked_intro.
Qed.

(** A fresh message pushed on a queue is an issue. *)
Lemma push_models st st' qr q x b :
  bus_wf st → models st b → b_qheap st !! qr = Some q →
  b_qheap st' = <[qr := set_pending (bq_pending q ++ [length (b_heap st)]) q]> (b_qheap st) →
  b_heap st' = b_heap st ++ [x] →
  (∀ i, omap (parked_for i) (b_timers st') = omap (parked_for i) (b_timers st)) →
  b_byTopic st' = b_byTopic st → b_queues st' = b_queues st →
  b_seenDedupIds st' = b_seenDedupIds st → b_streamLog st' = b_streamLog st → b_seq st' = b_seq st →
  models st' (Broker.issue qr (reset_count x) b).
Proof.
  intros Hwf [] Hq Hqs Hh Hts Ht Hn Hs Hl Hsq.
  assert (Hlen : length (Broker.issued b) = length (b_heap st))
    by (rewrite mo_issued0; apply length_fmap).
  split; simpl; try congruence.
  - rewrite mo_queues0. unfold configs. rewrite Hqs, list_fmap_insert. simpl.
    rewrite list_insert_id; [done|]. by rewrite list_lookup_fmap, Hq.
  - unfold contents. by rewrite Hh, contents_push, mo_issued0.
  - intros m i. rewrite Hlen. unfold held. rewrite (queued_local _ _ _ _ _ i Hq Hqs), Hts.
    destruct (decide (m = length (b_heap st))) as [->|Hne].
    + rewrite lookup_insert_eq. split.
      * intros [= ->]. rewrite decide_True by done. unfold queue_places. simpl. set_solver.
      * case_decide as Hi; [by subst|]. intros Hm.
        pose proof (held_allocated st (length (b_heap st)) i Hwf ltac:(set_solver)). lia.
    + rewrite lookup_insert_ne by done. rewrite mo_owed0. unfold held.
      case_decide as Hi; [|done]. subst. rewrite (queued_at _ _ _ Hq). unfold queue_places. simpl.
      set_solver.
Qed.

Lemma set_seq_models n st b :
  models st b → models (with_seq n st) (Broker.set_log (Broker.log b) n b).
Proof. by intros []. Qed.

Lemma publish_to_models topic body key o st qr b :
  bus_wf st → models st b → models (publish_to topic body key o st qr) (Broker.copy topic body key o b qr).
Proof.
  intros Hwf Hb. unfold Broker.copy. rewrite (mo_queues _ _ Hb), (mo_seq _ _ Hb). unfold configs.
  rewrite list_lookup_fmap.
  pose proof (publish_to_evolves topic body key o st qr) as Hev. unfold publish_to in *.
  destruct (b_qheap st !! qr) as [q|] eqn:Hq; [|done]. simpl.
  destruct (matches _ _); [|done]. simpl in *.
  set (x := mk_message _ _ _ _ _). set (st2 := match po_ttlMs o with Some _ => _ | None => _ end).
  set (q1 := set_pending _ q) in *.
  assert (H2 : b_heap st2 = b_heap st ++ [x] ∧ b_qheap st2 = <[qr := q1]> (b_qheap st) ∧
    (∀ i, omap (parked_for i) (b_timers st2) = omap (parked_for i) (b_timers st)) ∧
    b_byTopic st2 = b_byTopic st ∧ b_queues st2 = b_queues st ∧
    b_seenDedupIds st2 = b_seenDedupIds st ∧ b_streamLog st2 = b_streamLog st ∧
    b_seq st2 = S (b_seq st) ∧ parked st2 = parked st ∧
    ∀ t, t ∈ b_timers st2 → t ∈ b_timers st ∨ timer_queue t.2 = qr).
  { unfold st2, parked. repeat case_match; simpl; repeat split; auto.
    - intros i. by rewrite omap_app, app_nil_r.
    - by rewrite omap_app, app_nil_r.
    - intros t [| ->%list_elem_of_singleton]%elem_of_app; auto. }
  destruct H2 as (Hh & Hqs & Hts & Ht & Hn & Hs & Hl & Hsq & Hp & Htm).
  apply (view_models st2).
  - apply pump_view. eapply evolves_wf; [exact Hwf|]. by eapply push_new_evolves.
  - apply (push_models (with_seq (S (b_seq st)) st) st2 qr q x); try done.
    + eapply evolves_wf; [exact Hwf|by apply evolves_same].
    + by apply set_seq_models.
Qed.

Lemma foldl_models {A} (f : Bus → A → Bus) (g : Broker.broker → A → Broker.broker) l st b :
  (∀ st x, evolves [] st (f st x)) →
  (∀ st b x, x ∈ l → bus_wf st → models st b → models (f st x) (g b x)) →
  bus_wf st → models st b → models (foldl f st l) (foldl g b l).
Proof.
  intros He. revert st b. induction l as [|x l IH]; intros st b Hfg Hwf Hb; [done|]. simpl.
  apply IH; [set_solver|by eapply evolves_wf|]. apply Hfg; [set_solver|done|done].
Qed.

Lemma publish_models topic body rk o st b :
  bus_wf st → models st b →
  models (publish topic body rk o st) (Broker.publish topic body (default topic rk) o b).
Proof.
  intros Hwf Hb. unfold publish, Broker.publish, Broker.repeated. rewrite (mo_seen _ _ Hb).
  set (rep := match po_dedupId o with Some _ => _ | None => _ end). destruct rep; [done|].
  set (st1 := match po_dedupId o with Some _ => _ | None => _ end).
  set (b1 := match po_dedupId o with Some _ => _ | None => _ end).
  assert (H1 : bus_wf st1 ∧ models st1 b1).
  { unfold st1, b1. destruct (po_dedupId o) as [d|]; [|done]. split.
    - eapply evolves_wf; [exact Hwf|by apply evolves_same].
    - by destruct Hb. }
  destruct H1 as [Hwf1 Hb1]. unfold log_publish. simpl.
  rewrite (mo_index _ _ Hb1), (mo_log _ _ Hb1), (mo_seq _ _ Hb1).
  apply foldl_models.
  - intros. apply publish_to_evolves.
  - intros. by apply publish_to_models.
  - eapply evolves_wf; [exact Hwf1|by apply evolves_same].
  - destruct Hb1. by split.
Qed.

(** ** Subscribing *)

Lemma replay_models qr st b x q :
  bus_wf st → models st b → b_qheap st !! qr = Some q →
  models (replay_one qr st x) (Broker.replay (bq_cfg q) qr b x).
Proof.
  intros Hwf Hb Hq. unfold replay_one, Broker.replay. rewrite Hq.
  destruct (matches _ _); [|done]. simpl.
  replace (reset_count x) with (reset_count (reset_count x)) by done.
  by eapply push_models.
Qed.

Lemma replay_one_index qr st x : same_index st (replay_one qr st x).
Proof.
  unfold replay_one. destruct (b_qheap st !! qr) as [q|] eqn:Hq; [|done].
  destruct (matches _ _); [|done]. by eapply same_index_queue.
Qed.

Lemma replay_all_models qr l cfg st b :
  bus_wf st → models st b → configs st !! qr = Some cfg →
  models (foldl (replay_one qr) st l) (foldl (Broker.replay cfg qr) b l).
Proof.
  revert st b. induction l as [|x l IH]; intros st b Hwf Hb Hc; [done|]. simpl.
  apply IH.
  - eapply evolves_wf; [exact Hwf|apply replay_one_evolves].
  - unfold configs in Hc. rewrite list_lookup_fmap in Hc.
    destruct (b_qheap st !! qr) as [q|] eqn:Hq; [|done]. injection Hc as <-. by apply replay_models.
  - by destruct (replay_one_index qr st x) as (_ & _ & ->).
Qed.

Lemma new_queue_models cfg ix ns st b :
  models st b →
  models (with_index ns ix (with_qheap (b_qheap st ++ [new_BusQueue cfg]) st))
    (Broker.set_index ix ns (Broker.set_queues (Broker.queues b ++ [cfg]) b)).
Proof.
  intros []. split; simpl; try done.
  - rewrite mo_queues0. unfold configs. simpl. by rewrite fmap_app.
  - intros m qr. rewrite mo_owed0. unfold held, queued. simpl.
    destruct (decide (qr < length (b_qheap st))) as [Hlt|Hge].
    + by rewrite lookup_app_l.
    + rewrite lookup_app_r by lia. rewrite (lookup_ge_None_2 (b_qheap st)) by lia.
      by destruct (qr - length (b_qheap st)) as [|[|]].
Qed.

Lemma attach_view h qr st : bus_wf st → view st (attach h qr st).
Proof.
  intros Hwf. unfold attach. destruct (b_qheap st !! qr) as [q|] eqn:Hq; [|done].
  etrans; [|apply pump_view].
  - eapply view_local; [done|done|done|done|done|done|done| |done|done|done]. done.
  - eapply evolves_wf; [exact Hwf|]. eapply (evolves_local [] []); [done|done|by left|].
    intros _. split; [done|]. split; [done|]. split; [apply NoDup_nil_2|]. split; [apply NoDup_nil_fresh|].
    simpl. apply attach_ok. eauto with bus.
Qed.

Lemma ensure_queue_models topic id o st b :
  bus_wf st → models st b →
  models (ensure_queue topic id o st).2 (Broker.enlist topic id o b).
Proof.
  intros Hwf Hb. unfold ensure_queue, Broker.enlist.
  rewrite (mo_names _ _ Hb). destruct (b_queues st !! key topic id) as [qr|]; [done|]. simpl.
  assert (Hlen : length (Broker.queues b) = length (b_qheap st))
    by (rewrite (mo_queues _ _ Hb); apply length_fmap).
  rewrite Hlen, (mo_index _ _ Hb), (mo_log _ _ Hb).
  match goal with |- models _ (if _ then _ else ?b1) =>
    pose proof (new_queue_models (mk_config topic o) (Broker.index b1) (Broker.names b1) st b Hb) as H1
  end.
  simpl in H1. rewrite (mo_names _ _ Hb) in *.
  destruct (default false (so_streamReplay o)); [|exact H1].
  apply replay_all_models.
  - eapply evolves_wf; [exact Hwf|apply new_queue_evolves].
  - exact H1.
  - unfold configs. simpl. rewrite fmap_app. by apply list_lookup_middle; rewrite length_fmap.
Qed.

Lemma subscribe_models topic h o st b :
  bus_wf st → models st b → models (subscribe topic h o st).2 (Broker.subscribe topic o b).
Proof.
  intros Hwf Hb. unfold subscribe, Broker.subscribe. rewrite (mo_seq _ _ Hb).
  destruct (so_subscriberId o) as [id|].
  - pose proof (ensure_queue_models topic id o st b Hwf Hb) as H.
    pose proof (evolves_wf _ _ _ Hwf (ensure_queue_evolves topic id o st)) as Hwf1.
    destruct (ensure_queue topic id o st) as [qr st1]. simpl in *.
    eapply view_models; [by apply attach_view|done].
  - set (st0 := with_seq _ st). set (id := "sub-" +:+ _).
    assert (Hwf0 : bus_wf st0) by (eapply evolves_wf; [exact Hwf|by apply evolves_same]).
    pose proof (ensure_queue_models topic id o st0 _ Hwf0 (set_seq_models (S (b_seq st)) st b Hb)) as H.
    pose proof (evolves_wf _ _ _ Hwf0 (ensure_queue_evolves topic id o st0)) as Hwf1.
    change ("sub-" +:+ pretty (b_seq st0)) with id.
    destruct (ensure_queue topic id o st0) as [qr st1]. simpl in *.
    eapply view_models; [by apply attach_view|done].
Qed.

(** ** Discharging *)

(** A queue gives up one of its messages: nothing holds it any more. *)
Lemma take_models st st' qr q q' m b :
  bus_wf st → models st b → b_qheap st !! qr = Some q →
  b_qheap st' = <[qr := q']> (b_qheap st) → bq_cfg q' = bq_cfg q →
  queue_places q ≡ₚ m :: queue_places q' →
  b_heap st' = b_heap st → b_timers st' = b_timers st →
  b_byTopic st' = b_byTopic st → b_queues st' = b_queues st →
  b_seenDedupIds st' = b_seenDedupIds st → b_streamLog st' = b_streamLog st → b_seq st' = b_seq st →
  models st' (Broker.discharge m b).
Proof.
  intros Hwf Hb Hq Hqs Hc Hp Hh Hts Ht Hn Hs Hl Hsq.
  assert (Hm : m ∈ queue_places q) by (rewrite Hp; set_solver).
  pose proof (wf_queue_nodup st Hwf qr q Hq) as Hnd. rewrite Hp in Hnd.
  apply NoDup_cons in Hnd as [Hnot _].
  assert (Hidx : same_index st st') by by eapply same_index_queue.
  destruct Hb, Hidx as (_ & _ & Hcfg). split; simpl; try congruence.
  - unfold contents. by rewrite Hh.
  - assert (Hself : Broker.owed b !! m = Some qr).
    { apply mo_owed0. unfold held. rewrite (queued_at _ _ _ Hq). set_solver. }
    assert (Hpk : m ∉ omap (parked_for qr) (b_timers st)).
    { intros Hin%list_elem_of_omap. destruct Hin as ([d [|i x]] & Hin & E); [done|].
      unfold parked_for in E. simpl in E. case_decide; [|done]. injection E as ->.
      by eapply (parked_elsewhere st qr q m); [..|eapply parked_intro|]. }
    intros x i. rewrite lookup_delete_Some, mo_owed0. unfold held at 2.
    rewrite (queued_local _ _ _ _ _ i Hq Hqs), Hts. case_decide as Hi.
    + subst. unfold held. rewrite (queued_at _ _ _ Hq), !elem_of_app, Hp, elem_of_cons.
      split; [naive_solver|]. intros H. split; [|naive_solver]. intros <-. naive_solver.
    + split; [by intros [_ ?]|]. intros H. split; [|done]. intros <-.
      apply mo_owed0 in H. congruence.
Qed.

(** Publishing a message that was just given up, at an address its queue names. *)
Lemma forward_models address st st' qr q q' m x b :
  bus_wf st → models st b → b_qheap st !! qr = Some q → m ∈ queue_places q →
  b_heap st !! m = Some x → bq_cfg q' = bq_cfg q →
  bus_wf st' → models st' (Broker.discharge m b) →
  models
    match address (bq_cfg q') with
    | Some a => publish a (bm_body x) (Some (bm_routingKey x)) no_publish_options st'
    | None => st'
    end (Broker.forward address m b).
Proof.
  intros Hwf Hb Hq Hm Hx Hc Hwf' Hb'. unfold Broker.forward.
  assert (Ho : Broker.owed b !! m = Some qr).
  { apply (mo_owed _ _ Hb). unfold held. rewrite (queued_at _ _ _ Hq). set_solver. }
  rewrite Ho, (mo_queues _ _ Hb), (mo_issued _ _ Hb). simpl. unfold configs, contents.
  rewrite !list_lookup_fmap, Hq, Hx, Hc. simpl.
  destruct (address (bq_cfg q)) as [a|]; [|done].
  by apply (publish_models a (bm_body x) (Some (bm_routingKey x)) no_publish_options).
Qed.

Definition taken (qr : QRef) (q : BusQueue) (m : MsgRef) (st : Bus) : Bus :=
  with_queue qr (set_inflight (map_delete (bq_inflight q) m) q) st.

Section settle.
Context (st : Bus) (b : Broker.broker) (qr : QRef) (q : BusQueue) (m : MsgRef) (c : AckHandler).
Context (Hwf : bus_wf st) (Hb : models st b).
Context (Hq : b_qheap st !! qr = Some q) (Hg : map_get (bq_inflight q) m = Some c).

Lemma held_inflight : m ∈ queue_places q.
Proof. rewrite (queue_places_settle q m c) by eauto with bus. set_solver. Qed.

Lemma taken_models : models (taken qr q m st) (Broker.discharge m b).
Proof.
  eapply (take_models st); [done..|apply (queue_places_settle q m c)| | | | | | |];
    eauto with bus.
Qed.

Lemma taken_wf : bus_wf (taken qr q m st).
Proof.
  eapply evolves_wf; [exact Hwf|].
  eapply (take_out_evolves [m] []); [done|done|done| |done|by left].
  simpl. by rewrite app_nil_r; destruct q.
Qed.

Lemma give_up_models :
  models (pump qr (deadLetter qr m (taken qr q m st))) (Broker.forward Broker.dead_address m b).
Proof.
  pose proof held_inflight as Hm.
  destruct (lookup_lt_is_Some_2 (b_heap st) m) as [x Hx].
  { by apply (wf_queue_alloc st Hwf qr q Hq). }
  eapply view_models; [apply pump_view; eapply evolves_wf; [apply taken_wf|apply deadLetter_evolves]|].
  set (q' := set_inflight (map_delete (bq_inflight q) m) q).
  pose proof (forward_models Broker.dead_address st (taken qr q m st) qr q q' m x b Hwf Hb Hq Hm Hx
    eq_refl taken_wf taken_models) as H.
  unfold deadLetter. unfold taken at 1 2. simpl.
  rewrite list_lookup_insert_eq by (by eapply lookup_lt_Some). rewrite Hx. fold q'.
  unfold Broker.dead_address in H. by destruct (qc_deadLetter (bq_cfg q')).
Qed.

Lemma settle_models r :
  models (settle qr m c r st)
    (Broker.step b (resolution r m (attempts (b_heap st) m) (qc_maxDeliveries (bq_cfg q)))).
Proof.
  unfold settle. rewrite Hq, decide_True by done. fold (taken qr q m st).
  destruct r; simpl.
  - eapply view_models; [apply pump_view, taken_wf|apply taken_models].
  - unfold attempts. case_decide; [apply give_up_models|].
    eapply view_models; [|exact Hb]. pose proof (queue_places_settle q m c) as Hp.
    destruct (retry_delay _) as [d|].
    + etrans; [|apply pump_view; eapply evolves_wf; [exact Hwf|]].
      * eapply view_local; [done|done|done|done|done|done| | |done|done|done].
        -- intros x i Hi. simpl. rewrite omap_app. simpl. unfold parked_for at 2. simpl.
           rewrite decide_False by done. by rewrite app_nil_r.
        -- intros x. simpl. rewrite omap_app. simpl. unfold parked_for at 2. simpl.
           rewrite decide_True by done. rewrite Hp by eauto with bus. set_solver.
      * eapply (take_out_evolves [] []); [done|done|done| | |].
        -- simpl. by rewrite app_nil_r; destruct q.
        -- unfold parked. simpl. rewrite omap_app. simpl. solve_Permutation.
        -- intros t [|Ht%list_elem_of_singleton]%elem_of_app; [by left|right; by subst].
    + etrans; [|apply pump_view; eapply evolves_wf; [exact Hwf|]].
      * eapply (view_local _ _ _ _ (set_pending (bq_pending q ++ [m])
          (set_inflight (map_delete (bq_inflight q) m) q)));
          [done| |done|done|done|done|done| |done|done|done].
        -- unfold taken. simpl. by rewrite list_insert_insert_eq.
        -- intros x. rewrite Hp by eauto with bus. unfold queue_places. simpl. set_solver.
      * eapply (take_out_evolves [] [m]); [done|done|done| |done|by left].
        unfold taken. simpl. by rewrite list_insert_insert_eq.
  - apply give_up_models.
Qed.
End settle.

Lemma with_delivery_models i d st b : models st b → models (with_delivery i d st) b.
Proof. by intros []. Qed.

Lemma guarded_models i r st b :
  bus_wf st → models st b → models (guarded i r st) (Broker.step b (settlement i r st)).
Proof.
  intros Hwf Hb. unfold guarded, settlement, unsettled.
  destruct (b_deliveries st !! i) as [d|] eqn:Hd; [|done]. simpl.
  set (st1 := with_delivery i (mark_settled d) st).
  assert (Hwf1 : bus_wf st1) by (eapply evolves_wf; [exact Hwf|by apply evolves_same]).
  pose proof (with_delivery_models i (mark_settled d) st b Hb) as Hb1.
  destruct (b_qheap st !! dl_queue d) as [q|] eqn:Hq; simpl.
  - destruct (dl_started d); [|done]. simpl. case_bool_decide as Hg.
    + by apply (settle_models st1 b (dl_queue d) q (dl_msg d) (dl_consumer d)).
    + unfold settle. simpl. rewrite Hq, decide_False by done. done.
  - destruct (dl_started d); [|done]. unfold settle. simpl. by rewrite Hq.
Qed.

(** ** Timers and unsubscribe *)

Lemma timers_split i t st :
  b_timers st !! i = Some t →
  ∀ qr, omap (parked_for qr) (b_timers st) ≡ₚ
    omap (parked_for qr) [t] ++ omap (parked_for qr) (delete i (b_timers st)).
Proof.
  intros Hi qr. destruct (delete_split _ _ _ Hi) as [Hl Hd].
  rewrite Hd, Hl at 1. rewrite (cons_middle t), !omap_app. solve_Permutation.
Qed.

Lemma drop_timer_models i t st b :
  b_timers st !! i = Some t → (∀ qr, parked_for qr t = None) → models st b →
  models (with_timers (delete i (b_timers st)) st) b.
Proof.
  intros Hi Ht. apply view_models. split; try done. intros m qr. unfold held. simpl.
  rewrite (timers_split i t st Hi qr). simpl. by rewrite Ht.
Qed.

Lemma expire_models qr m st b :
  bus_wf st → models st b →
  models (expire qr m st)
    (Broker.step b (if decide (m ∈ queued qr st) then Broker.Expire m else Broker.Silent)).
Proof.
  intros Hwf Hb. pose proof (expire_evolves qr m st) as Hev. unfold expire.
  destruct (b_qheap st !! qr) as [q|] eqn:Hq.
  2: { unfold queued. rewrite Hq. by rewrite decide_False by apply not_elem_of_nil. }
  rewrite (queued_at _ _ _ Hq). case_decide as Hin.
  - destruct (lookup_lt_is_Some_2 (b_heap st) m) as [x Hx].
    { by apply (wf_queue_alloc st Hwf qr q Hq). }
    rewrite Hx. simpl.
    pose proof (λ st' q', forward_models Broker.expired_address st st' qr q q' m x b Hwf Hb Hq Hin Hx) as H.
    destruct (index_of m (bq_pending q)) as [i|] eqn:Hi.
    + apply index_of_Some in Hi. apply (H _ (set_pending (delete i (bq_pending q)) q)); [done|..].
      * eapply evolves_wf; [exact Hwf|]. eapply (evolves_local [m] []); [done|done|by left|].
        intros _. split; [done|]. split; [|split; [apply NoDup_nil_2|split; [apply NoDup_nil_fresh|]]].
        -- unfold queue_places, parked. simpl. rewrite (delete_Permutation _ _ _ Hi) at 2. done.
        -- simpl. apply queue_ok_pending. eauto with bus.
      * eapply (take_models st); [done|done|done|done|done| |done..].
        unfold queue_places. simpl. by rewrite (delete_Permutation _ _ _ Hi) at 1.
    + apply index_of_None in Hi. unfold map_has. unfold queue_places in Hin.
      assert (Hg : is_Some (map_get (bq_inflight q) m)).
      { apply map_get_is_Some. set_solver. }
      rewrite bool_decide_eq_true_2 by done. destruct Hg as [c Hg].
      apply (H _ (set_inflight (map_delete (bq_inflight q) m) q)); [done|..].
      * by eapply taken_wf.
      * by eapply taken_models.
  - destruct (b_heap st !! m) as [x|]; [|done]. unfold queue_places in Hin.
    destruct (index_of m (bq_pending q)) as [i|] eqn:Hi.
    { apply index_of_Some, list_elem_of_lookup_2 in Hi. set_solver. }
    unfold map_has. rewrite bool_decide_eq_false_2.
    + simpl. eapply view_models; [|exact Hb].
      apply (view_local _ _ qr q q); done || (simpl; by rewrite list_insert_id).
    + intros Hg%map_get_is_Some. set_solver.
Qed.

Lemma unpark_models i d qr m st b :
  bus_wf st → b_timers st !! i = Some (d, RetryTimer qr m) → models st b →
  models (unpark qr m (with_timers (delete i (b_timers st)) st)) b.
Proof.
  intros Hwf Hi. apply view_models.
  assert (Hlt : qr < length (b_qheap st)).
  { apply (wf_timers _ Hwf (d, RetryTimer qr m)). by eapply list_elem_of_lookup_2. }
  destruct (lookup_lt_is_Some_2 _ _ Hlt) as [q Hq]. unfold unpark. simpl. rewrite Hq.
  etrans; [|apply pump_view; eapply evolves_wf; [exact Hwf|by eapply unparked_evolves]].
  pose proof (timers_split _ _ _ Hi) as Hp.
  eapply view_local; [done|done|done|done|done|done| | |done|done|done].
  - intros x j Hj. rewrite Hp. simpl. unfold parked_for at 2. simpl. by rewrite decide_False.
  - intros x. rewrite Hp. simpl. unfold parked_for at 2. simpl. rewrite decide_True by done.
    unfold queue_places. simpl. set_solver.
Qed.

Lemma timer_models i st b :
  bus_wf st → models st b → models (fire_timer i st) (Broker.step b (event_of (OpTimer i) st)).
Proof.
  intros Hwf Hb. unfold fire_timer. simpl.
  destruct (b_timers st !! i) as [[d [qr m|qr m]]|] eqn:Hi; [| |done]; simpl.
  - apply (expire_models qr m (with_timers (delete i (b_timers st)) st)).
    + eapply evolves_wf; [exact Hwf|]. apply evolves_same; try done.
      * pose proof (parked_delete _ _ _ Hi) as Hp. simpl in Hp. by rewrite Hp.
      * intros t. apply elem_of_list_delete.
    + by eapply drop_timer_models.
  - by eapply unpark_models.
Qed.

Lemma unsubscribe_view sub st : bus_wf st → view st (unsubscribe sub st).
Proof.
  intros Hwf. unfold unsubscribe. destruct (b_qheap st !! sub_queue sub) as [q|] eqn:Hq; [|done].
  pose proof (detach_places (sub_handler sub) q (wf_queue_nodup st Hwf _ q Hq)) as Hp.
  etrans; [|apply pump_view; eapply evolves_wf; [exact Hwf|]].
  - eapply view_local; [done|done|apply detach_cfg|done|done|done|done| |done|done|done].
    intros m. simpl. by rewrite Hp.
  - eapply (evolves_local [] []); [done|done|by left|].
    intros _. split; [done|]. split; [|split; [apply NoDup_nil_2|split; [apply NoDup_nil_fresh|]]].
    + by rewrite Hp.
    + simpl. apply detach_ok; eauto with bus.
Qed.

(** ** The refinement *)

Lemma exec_models op st b :
  bus_wf st → models st b → models (exec op st) (Broker.step b (event_of op st)).
Proof.
  intros Hwf Hb. destruct op as [t body rk o|t h o|sub|i|i r|i| |i|].
  - by apply publish_models.
  - by apply subscribe_models.
  - eapply view_models; [by apply unsubscribe_view|done].
  - by apply guarded_models.
  - by apply guarded_models.
  - simpl. unfold handler_throws. destruct (b_deliveries st !! i) as [d|]; [|done].
    destruct (dl_settled d); [done|]. by apply guarded_models.
  - simpl. unfold run_microtask. destruct (b_microtasks st); [done|]. by destruct Hb.
  - by apply timer_models.
  - by destruct Hb.
Qed.

Lemma run_models ops st b :
  reachable st → models st b → models (run ops st) (Broker.run (events ops st) b).
Proof.
  revert st b. induction ops as [|op ops IH]; intros st b Hst Hb; [done|]. simpl.
  apply IH; [by constructor|]. apply exec_models; auto with bus.
Qed.

Lemma new_bus_models : models new_InMemoryBus Broker.empty.
Proof. split; try done. intros m qr. unfold held, queued. simpl. by rewrite elem_of_nil. Qed.


(** The events of a run with a live acknowledgement, a requeue below the limit, a
    stale acknowledgement, a rejection and a departure. *)
Lemma demo_events :
  drop 7 (events (demo_run ++ [OpAck 0; OpNack 1 true; OpAck 0; OpMicrotask; OpNack 2 false;
                               OpUnsubscribe {| sub_queue := 0; sub_handler := 1 |}])
            new_InMemoryBus) =
  [Broker.Finish 0; Broker.Silent; Broker.Silent; Broker.Silent; Broker.GiveUp 2; Broker.Silent].
Proof. vm_compute. reflexivity. Qed.
