(* ===== verification/BusAttempts.v ===== *)
(** Delivery attempts of the in-memory bus: how often a message is handed to a handler,
    against the [maxDeliveries] of its subscription.

    Requeueing respects the limit; returning the messages of a consumer that goes away
    does not look at it. *)

From S2P Require Import Prelude Abstractions TopicMatch BusQueue InMemoryBus BusInvariants BusSafety BusLocal.

(** The first attempt is always made. *)
Definition attempt_limit (cfg : QueueConfig) : Z := Z.max 1 (qc_maxDeliveries cfg).

Record room (h : Heap) (q : BusQueue) : Prop := {
  rm_pending : ∀ m, m ∈ bq_pending q → (attempts h m < attempt_limit (bq_cfg q))%Z;
  rm_inflight : ∀ m, m ∈ (bq_inflight q).*1 → (attempts h m ≤ attempt_limit (bq_cfg q))%Z
}.

(** A delivery number within a limit. *)
Definition within (limit : Z) (m : IncomingMessage) : Prop :=
  ∃ n, im_deliveryCount m = Some n ∧ (n ≤ limit)%Z.

(** The invariant of a queue: room for its messages, and what it has handed out. *)
Definition tempered (h : Heap) (q : BusQueue) (l : list (MsgRef * IncomingMessage)) : Prop :=
  room h q ∧ ∀ x, x ∈ l → within (attempt_limit (bq_cfg q)) x.2.

(** A message that may come back has attempts left. *)
Definition below_limit (h : Heap) (cfg : QueueConfig) (m : MsgRef) : Prop :=
  (attempts h m < attempt_limit cfg)%Z.

Lemma tempered_pump h q l :
  queue_ok h q → NoDup (queue_places q) → allocated h (queue_places q) → tempered h q l →
  let '(h', q', ds) := pumpQ (length (bq_pending q)) h q in tempered h' q' (l ++ ((λ x, (x.1.1, x.2)) <$> ds)).
Proof.
  intros Hok Hnd Ha [[Hr1 Hr2] Hl]. pose proof (pumpQ_spec (length (bq_pending q)) h q Hok Hnd Ha) as Hs.
  destruct (pumpQ _ _ _) as [[h' q'] ds]. destruct Hs as [[Hc _ _ _ Hu Hb Hp Hi _] _]. unfold queue_places in Hnd.
  assert (Hds : ∀ m, m ∈ ds.*1.*1 → m ∈ bq_pending q) by (intros m Hm; rewrite Hp; set_solver).
  assert (Hbump : ∀ x, x ∈ ds →
      (attempts h' x.1.1 ≤ attempt_limit (bq_cfg q))%Z ∧ within (attempt_limit (bq_cfg q)) x.2).
  { intros [[m c] im] Hin. destruct (Hb _ _ _ Hin) as (bm & E & E' & ->). simpl.
    assert (Hm : m ∈ bq_pending q)
      by (apply Hds, list_elem_of_fmap; exists (m, c); split; [done|]; apply list_elem_of_fmap; by exists (m, c, wrap (bump bm))).
    specialize (Hr1 m Hm). unfold attempts in *. rewrite E in Hr1. rewrite E'. simpl in *.
    split; [lia|]. exists (bm_deliveryCount bm + 1)%Z. split; [done|lia]. }
  split; [split|]; rewrite Hc.
  - intros m Hm. rewrite (attempts_untouched h).
    + apply Hr1. rewrite Hp. set_solver.
    + apply Hu. intros Hin. apply NoDup_app in Hnd as (Hnd & _ & _). rewrite Hp in Hnd.
      apply NoDup_app in Hnd as (_ & Hd & _). by apply (Hd m).
  - intros m. rewrite Hi, fmap_app, elem_of_app. intros [Hm|Hm].
    + rewrite (attempts_untouched h); [by apply Hr2|]. apply Hu. intros Hin%Hds.
      apply NoDup_app in Hnd as (_ & Hd & _). by apply (Hd m).
    + apply list_elem_of_fmap in Hm as (y & -> & Hm). apply list_elem_of_fmap in Hm as (x & -> & Hx). by apply Hbump.
  - intros y [Hy|(x & -> & Hx)%list_elem_of_fmap]%elem_of_app; [by apply Hl|by apply Hbump].
Qed.

(** A fresh message has been attempted zero times. *)
Lemma tempered_push h q l m :
  allocated h (queue_places q) → bm_deliveryCount m = 0%Z → tempered h q l →
  tempered (h ++ [m]) (set_pending (bq_pending q ++ [length h]) q) l.
Proof.
  intros Ha Hm [[H1 H2] Hl]. unfold queue_places in Ha. split; [split; simpl|done].
  - intros x [Hx|Hx%list_elem_of_singleton]%elem_of_app.
    + rewrite attempts_push; [by apply H1|]. apply Ha. set_solver.
    + subst x. rewrite attempts_pushed. unfold attempt_limit. lia.
  - intros x Hx. rewrite attempts_push; [by apply H2|]. apply Ha. set_solver.
Qed.

Lemma tempered_law : queue_law tempered below_limit.
Proof.
  split.
  - intros h h' q l _ _ Hs [[H1 H2] Hl]. unfold queue_places in Hs.
    split; [split|done]; intros m Hm; rewrite Hs by set_solver; eauto.
  - intros h h' cfg m E. unfold below_limit. by rewrite E.
  - intros h cfg. split; [split|]; simpl; intros m Hm; by apply elem_of_nil in Hm.
  - apply tempered_pump.
  - apply tempered_push.
  - intros h q q' l Hc Hp Hi [[H1 H2] Hl]. split; [split|]; rewrite Hc; [|eauto..].
    intros m Hm. apply H1. by eapply elem_of_sublist.
  - intros h q l m [[H1 H2] Hl] HR. split; [split; simpl|done]; [|done].
    intros x [Hx|Hx%list_elem_of_singleton]%elem_of_app; [by apply H1|by subst].
  - intros h q l m _ _ Hlt. unfold below_limit, attempt_limit. lia.
Qed.

(** ** Crashes *)

(** A subscription of one attempt with a dead-letter topic. *)
Definition once_only : SubscribeOptions := {|
  so_kind := None; so_routingKey := None; so_subscriberId := Some "worker"; so_deadLetter := Some true;
  so_maxDeliveries := Some 1%Z; so_retryDelayMs := None; so_partitionByGroup := None;
  so_singleActiveConsumer := None; so_streamReplay := None; so_transient := None;
  so_priorityQueue := None; so_ttlMs := None |}.

(** The consumer goes away with the message and comes back, [n] times. *)
Fixpoint crashes (n : nat) : list BusOp :=
  match n with
  | 0 => []
  | S n => OpUnsubscribe {| sub_queue := 1; sub_handler := 7 |} :: OpSubscribe "jobs" 7 once_only :: crashes n
  end.

Definition crash_ops (n : nat) : list BusOp :=
  OpSubscribe (deadLetterAddress "jobs") 9 no_subscribe_options :: OpSubscribe "jobs" 7 once_only ::
  OpPublish "jobs" "job-1" None no_publish_options :: crashes n.

(** The one message is with the consumer after [k] attempts; the dead-letter topic is empty. *)
Definition held (k : Z) (st : Bus) : Prop :=
  b_queues st !! key "jobs" "worker" = Some 1 ∧
  (∃ q bm, b_qheap st !! 1 = Some q ∧ bq_cfg q = mk_config "jobs" once_only ∧ bq_pending q = [] ∧
    bq_inflight q = [(0, 7)] ∧ bq_consumers q = [7] ∧ b_heap st !! 0 = Some bm ∧ bm_deliveryCount bm = k) ∧
  (∃ dlq, b_qheap st !! 0 = Some dlq ∧ queue_places dlq = []).

Lemma crash_held k st :
  held k st →
  held (k + 1) (exec (OpSubscribe "jobs" 7 once_only) (exec (OpUnsubscribe {| sub_queue := 1; sub_handler := 7 |}) st)).
Proof.
  intros (Hk & (q & bm & Hq & Hc & Hp & Hi & Hcs & Hm & Hcount) & (dlq & Hd & He)).
  cbn [exec]. unfold unsubscribe. cbn [sub_queue sub_handler]. rewrite Hq.
  assert (Hdet : detach 7 q = set_pending [0] (set_inflight [] (set_consumers [] q))).
  { unfold detach. rewrite Hcs. simpl. rewrite Hi. simpl. unfold return_one. simpl. rewrite Hi, Hp. done. }
  rewrite Hdet. set (q1 := set_pending _ _).
  assert (Hlt : 1 < length (b_qheap st)) by by eapply lookup_lt_Some.
  assert (Hpump : pump 1 (with_queue 1 q1 st) = with_deliveries (b_deliveries st ++ []) (b_microtasks st ++ [])
            (with_queue 1 q1 (with_heap (b_heap st) (with_queue 1 q1 st)))).
  { unfold pump. simpl. rewrite list_lookup_insert_eq by done. done. }
  rewrite Hpump. set (st1 := with_deliveries _ _ _).
  unfold subscribe. cbn [so_subscriberId once_only]. unfold ensure_queue.
  change (b_queues st1) with (b_queues st). rewrite Hk. cbn [snd]. unfold attach.
  assert (Hq1 : b_qheap st1 !! 1 = Some q1) by (simpl; rewrite list_insert_insert_eq, list_lookup_insert_eq; done).
  rewrite Hq1. unfold pump. simpl. rewrite !list_insert_insert_eq, list_lookup_insert_eq by done. simpl.
  assert (Hpick : ∃ r, pickDelivery (b_heap st) (set_consumers [7] q1) =
            (Some (0, 7), set_pending [] (set_rr r (set_consumers [7] q1)))).
  { assert (Hscan : ∀ r, scanFree [7] [] 1 r = (Some 7, S r)).
    { intros r. cbn [scanFree length]. rewrite Nat.mod_1_r. done. }
    unfold pickDelivery, nextConsumer. cbn -[scanFree]. rewrite Hc. cbn -[scanFree]. rewrite Hscan. by eexists. }
  destruct Hpick as [r ->]. rewrite Hm. simpl. split_and!.
  - exact Hk.
  - eexists _, (bump bm). simpl. rewrite list_lookup_insert_eq by (rewrite ?length_insert; exact Hlt).
    split_and!; try done.
    + apply list_lookup_insert_eq. by eapply lookup_lt_Some.
    + simpl. by rewrite Hcount.
  - exists dlq. split; [|done]. simpl. by rewrite !list_lookup_insert_ne.
Qed.

Lemma run_app l1 l2 st : run (l1 ++ l2) st = run l2 (run l1 st).
Proof. apply foldl_app. Qed.

Lemma crashes_held n k st : held k st → held (k + Z.of_nat n) (run (crashes n) st).
Proof.
  revert k st. induction n as [|n IH]; intros k st Hst; [by rewrite Z.add_0_r|].
  cbn [crashes run foldl]. replace (k + Z.of_nat (S n))%Z with ((k + 1) + Z.of_nat n)%Z by lia.
  apply IH. by apply crash_held.
Qed.

(** ** Properties *)

(** C9: attempts are bounded.  As long as no consumer goes away, a message is handed to a
    handler at most [maxDeliveries] times (and once if the limit is lower): each delivery
    carries a number within the limit of its queue, and so does the count of every
    message that waits in a queue or is with a consumer. *)
Theorem attempts_bounded (ops : list BusOp) (d : Delivery) :
  let st := run ops new_InMemoryBus in
  (∀ sub, OpUnsubscribe sub ∉ ops) → d ∈ b_deliveries st →
  ∃ q n, b_qheap st !! dl_queue d = Some q ∧ im_deliveryCount (dl_incoming d) = Some n ∧
    (n ≤ Z.max 1 (qc_maxDeliveries (bq_cfg q)))%Z ∧
    ∀ m, m ∈ queue_places q → (attempts (b_heap st) m ≤ Z.max 1 (qc_maxDeliveries (bq_cfg q)))%Z.
Proof.
  intros st Hops Hd.
  assert (Ht : lawful tempered below_limit st) by (apply (run_lawful _ _ tempered_law); intros sub Hin; by destruct (Hops sub)).
  destruct (lookup_lt_is_Some_2 _ _ (lw_deliveries _ _ _ Ht d Hd)) as [q Hq].
  destruct (lw_queues _ _ _ Ht _ _ Hq) as [[H1 H2] Hl].
  destruct (Hl (dl_msg d, dl_incoming d)) as (n & Hn & Hle); [by apply elem_of_handed|].
  exists q, n. split_and!; try done. unfold attempt_limit in *.
  intros m [Hm|Hm]%elem_of_app; [specialize (H1 m Hm); lia|by apply H2].
Qed.

(** a crash is no attempt.  With a limit of one attempt and a dead-letter topic, a
    consumer that goes away with its message, and comes back, is handed it again any
    number of times: the count passes the limit and nothing is dead-lettered. *)
Theorem crashes_uncounted (n : nat) :
  let st := run (crash_ops n) new_InMemoryBus in
  ∃ q dlq, b_qheap st !! 1 = Some q ∧ qc_maxDeliveries (bq_cfg q) = 1%Z ∧ qc_deadLetter (bq_cfg q) = true ∧
    bq_inflight q = [(0, 7)] ∧ attempts (b_heap st) 0 = Z.of_nat (S n) ∧
    b_qheap st !! 0 = Some dlq ∧ queue_places dlq = [].
Proof.
  assert (H0 : held 1 (run (crash_ops 0) new_InMemoryBus)).
  { unfold held. split; [vm_compute; reflexivity|]. split; [eexists _, _|eexists]; vm_compute; split_and!; reflexivity. }
  apply (crashes_held n) in H0.
  rewrite <- run_app in H0. change (crash_ops 0 ++ crashes n) with (crash_ops n) in H0.
  destruct H0 as (_ & (q & bm & Hq & Hc & _ & Hi & _ & Hm & Hcount) & (dlq & Hd & He)).
  exists q, dlq. rewrite Hc. split_and!; try done. unfold attempts. rewrite Hm. simpl. rewrite Hcount. lia.
Qed.

(** A limit of two, a failed attempt and a second one. *)
Definition retried_ops : list BusOp :=
  [OpSubscribe "t" 1 (sub_options "w" true 2); OpPublish "t" "a" None no_publish_options; OpMicrotask;
   OpNack 0 true; OpMicrotask].

Definition second_delivery : Delivery := {|
  dl_queue := 0; dl_msg := 0; dl_consumer := 1;
  dl_incoming := default (wrap (mk_message "" "" "" "" no_publish_options))
    (dl_incoming <$> b_deliveries (run retried_ops new_InMemoryBus) !! 1);
  dl_started := true; dl_settled := false |}.

Lemma attempts_bounded_witness :
  let st := run retried_ops new_InMemoryBus in
  ∃ q n, b_qheap st !! dl_queue second_delivery = Some q ∧
    im_deliveryCount (dl_incoming second_delivery) = Some n ∧
    (n ≤ Z.max 1 (qc_maxDeliveries (bq_cfg q)))%Z ∧
    ∀ m, m ∈ queue_places q → (attempts (b_heap st) m ≤ Z.max 1 (qc_maxDeliveries (bq_cfg q)))%Z.
Proof.
  apply (attempts_bounded retried_ops second_delivery).
  - intros sub. unfold retried_ops. set_solver.
  - apply list_elem_of_lookup_2 with (i := 1). vm_compute. reflexivity.
Defined.
