(* ===== verification/BusOrder.v ===== *)
(** Ordering in the in-memory bus: within its lane (its group on a partitioned queue, its
    priority on any other), a message is first delivered after every message that was
    published to the queue before it.

    Message references are given out in the order of publication; a retry, or the
    departure of a consumer, puts back only messages that have been attempted. *)

From S2P Require Import Prelude Abstractions TopicMatch BusQueue InMemoryBus BusInvariants BusSafety BusDelivery BusLocal.

(** ** Order of a list *)

(** Of two elements that [P] relates, the earlier one has the smaller reference. *)
Definition ordered_by (P : MsgRef → MsgRef → Prop) (l : list MsgRef) : Prop :=
  ∀ a b, [a; b] `sublist_of` l → P a b → a < b.

Lemma pair_sublist_app (a b : MsgRef) l1 l2 :
  [a; b] `sublist_of` l1 ++ l2 → [a; b] `sublist_of` l1 ∨ [a; b] `sublist_of` l2 ∨ a ∈ l1 ∧ b ∈ l2.
Proof.
  intros (k1 & k2 & E & H1 & H2)%sublist_app_r. destruct k1 as [|x [|y k1]]; simpl in E.
  - subst. auto.
  - injection E as <- <-. right. right. by rewrite <- !singleton_sublist_l.
  - injection E as <- <- E. symmetry in E. apply app_eq_nil in E as [-> ->]. auto.
Qed.

Lemma ordered_by_sublist P l k : l `sublist_of` k → ordered_by P k → ordered_by P l.
Proof. intros Hs Ho a b Hab. apply Ho. by etrans. Qed.

Lemma ordered_by_app P l1 l2 :
  ordered_by P l1 → ordered_by P l2 → (∀ a b, a ∈ l1 → b ∈ l2 → P a b → a < b) → ordered_by P (l1 ++ l2).
Proof. intros H1 H2 H a b [?|[?|[? ?]]]%pair_sublist_app; auto. Qed.

Lemma ordered_by_impl (P Q : MsgRef → MsgRef → Prop) l :
  (∀ a b, a ∈ l → b ∈ l → Q a b → P a b) → ordered_by P l → ordered_by Q l.
Proof.
  intros HPQ Ho a b Hab HQ. apply Ho; [done|]. apply HPQ; [| |done]; eapply elem_of_sublist; [|exact Hab| |exact Hab]; set_solver.
Qed.

Lemma ordered_by_one P x : ordered_by P [x].
Proof. intros a b Hab%sublist_length. simpl in Hab. lia. Qed.

(** ** Lanes *)

(** The messages whose order a queue keeps. *)
Definition same_lane (h : Heap) (cfg : QueueConfig) (a b : MsgRef) : Prop :=
  if qc_partitionByGroup cfg then group_of h a = group_of h b else prio h a = prio h b.

(** Not yet attempted. *)
Definition fresh (h : Heap) (m : MsgRef) : Prop := attempts h m = 0%Z.

#[export] Instance fresh_dec h m : Decision (fresh h m) := decide (attempts h m = 0%Z).

Lemma same_lane_heap_le h h' cfg a b :
  heap_le h h' → a < length h → b < length h → same_lane h' cfg a b ↔ same_lane h cfg a b.
Proof.
  intros Hle Ha Hb. unfold same_lane. rewrite !(group_of_heap_le h h') by done.
  assert (Hp : ∀ x, x < length h → prio h' x = prio h x).
  { intros x [m Hm]%lookup_lt_is_Some. destruct (Hle _ _ Hm) as (m' & Hm' & E). unfold prio. rewrite Hm, Hm'. simpl.
    by destruct (reset_count_fields _ _ E) as (_ & -> & _). }
  by rewrite !Hp.
Qed.

(** The first delivery of a message carries the number one. *)
Definition first_of (x : MsgRef * IncomingMessage) : option MsgRef :=
  if decide (im_deliveryCount x.2 = Some 1%Z) then Some x.1 else None.

Definition firsts (l : list (MsgRef * IncomingMessage)) : list MsgRef := omap first_of l.

(** The invariant of a queue: what waits unattempted is in order, and after every first
    delivery of its lane; the first deliveries of a lane are in order. *)
Record lanes_ok (h : Heap) (q : BusQueue) (l : list (MsgRef * IncomingMessage)) : Prop := {
  ln_alloc : allocated h (firsts l);
  ln_counts : ∀ m, m ∈ queue_places q → (0 ≤ attempts h m)%Z;
  ln_inflight : ∀ m, m ∈ (bq_inflight q).*1 → (1 ≤ attempts h m)%Z;
  ln_waiting : ordered_by (λ a b, fresh h a ∧ fresh h b) (bq_pending q);
  ln_ahead : ∀ a b, a ∈ firsts l → b ∈ bq_pending q → fresh h b → same_lane h (bq_cfg q) a b → a < b;
  ln_firsts : ordered_by (same_lane h (bq_cfg q)) (firsts l)
}.

Lemma lanes_drop h q q' l :
  bq_cfg q' = bq_cfg q → bq_pending q' `sublist_of` bq_pending q →
  (∀ m, m ∈ (bq_inflight q').*1 → m ∈ (bq_inflight q).*1) → lanes_ok h q l → lanes_ok h q' l.
Proof.
  intros Hc Hp Hi [H1 H2 H3 H4 H5 H6]. split; rewrite ?Hc; [done| |auto|by eapply ordered_by_sublist| |done].
  - intros m [Hm|Hm]%elem_of_app; apply H2, elem_of_app; [left; by eapply elem_of_sublist|right; auto].
  - intros a b Ha Hb. apply H5; [done|]. by eapply elem_of_sublist.
Qed.

(** A message that was attempted comes back. *)
Lemma lanes_return h q l m :
  lanes_ok h q l → (1 ≤ attempts h m)%Z → lanes_ok h (set_pending (bq_pending q ++ [m]) q) l.
Proof.
  intros [H1 H2 H3 H4 H5 H6] Hm. assert (Hnf : ¬ fresh h m) by (unfold fresh; lia).
  split; simpl; [done| |done| | |done].
  - intros x. unfold queue_places. simpl. rewrite !elem_of_app, list_elem_of_singleton.
    intros [[Hx| ->]|Hx]; [apply H2, elem_of_app; by left|lia|apply H2, elem_of_app; by right].
  - apply ordered_by_app; [done|apply ordered_by_one|]. by intros a b _ ->%list_elem_of_singleton [_ ?].
  - intros a b Ha [Hb| ->%list_elem_of_singleton]%elem_of_app Hf; [by apply H5|done].
Qed.

(** A new message has the greatest reference. *)
Lemma lanes_push h q l m :
  allocated h (queue_places q) → bm_deliveryCount m = 0%Z → lanes_ok h q l →
  lanes_ok (h ++ [m]) (set_pending (bq_pending q ++ [length h]) q) l.
Proof.
  intros Ha Hm [H1 H2 H3 H4 H5 H6]. unfold queue_places in Ha.
  assert (Hle : heap_le h (h ++ [m])) by auto with bus.
  assert (Hpend : ∀ x, x ∈ bq_pending q → x < length h) by (intros x Hx; apply Ha, elem_of_app; by left).
  assert (Hinf : ∀ x, x ∈ (bq_inflight q).*1 → x < length h) by (intros x Hx; apply Ha, elem_of_app; by right).
  split; simpl.
  - by eapply allocated_mono.
  - intros x. unfold queue_places. simpl. rewrite !elem_of_app, list_elem_of_singleton. intros [[Hx| ->]|Hx].
    + rewrite attempts_push by auto. apply H2, elem_of_app. by left.
    + by rewrite attempts_pushed, Hm.
    + rewrite attempts_push by auto. apply H2, elem_of_app. by right.
  - intros x Hx. rewrite attempts_push by auto. by apply H3.
  - apply ordered_by_app; [|apply ordered_by_one|].
    + eapply ordered_by_impl; [|exact H4]. intros a b Hin Hin'. unfold fresh. by rewrite !attempts_push by auto.
    + intros a b Hin ->%list_elem_of_singleton _. auto.
  - intros a b Hin [Hb| ->%list_elem_of_singleton]%elem_of_app Hf Hs; [|by apply H1].
    rewrite (same_lane_heap_le h) in Hs by auto. apply H5; [done..| |done].
    unfold fresh in *. by rewrite attempts_push in Hf by auto.
  - eapply ordered_by_impl; [|exact H6]. intros a b Hin Hin'. rewrite (same_lane_heap_le h) by auto. done.
Qed.

(** ** The pump *)

(** Whatever is handed out is the earliest waiting message of its lane. *)
Lemma pickDelivery_first h q m c q' :
  bq_consumers q ≠ [] → bq_pending q ≠ [] → pickDelivery h q = (Some (m, c), q') →
  ∃ pre post, bq_pending q = pre ++ m :: post ∧ bq_pending q' = pre ++ post ∧
    ∀ a, a ∈ pre → ¬ same_lane h (bq_cfg q) a m.
Proof.
  intros Hk Hp. unfold pickDelivery, same_lane. destruct (qc_partitionByGroup (bq_cfg q)).
  - intros (pre & post & E & E' & Hpre & _)%nextGroupDelivery_fifo_pinned. by exists pre, post.
  - destruct (nextConsumer q) as [[k|] q1] eqn:Hn; [|done].
    apply nextConsumer_frame in Hn as [r ->].
    destruct (nextPending_highest_first h (set_rr r q) Hp) as (pre & x & post & E & -> & Hpre & _).
    intros [= -> -> <-]. exists pre, post. split; [done|]. split; [done|]. intros a Ha Hs. specialize (Hpre a Ha). lia.
Qed.

Lemma same_lane_bump h m bm cfg a b :
  h !! m = Some bm → same_lane (<[m := bump bm]> h) cfg a b ↔ same_lane h cfg a b.
Proof.
  intros Hm. assert (Hsame : ∀ x, prio (<[m := bump bm]> h) x = prio h x ∧ group_of (<[m := bump bm]> h) x = group_of h x).
  { intros x. unfold prio, group_of. destruct (decide (m = x)) as [->|Hne].
    - rewrite list_lookup_insert_eq by (by eapply lookup_lt_Some). by rewrite Hm.
    - by rewrite list_lookup_insert_ne. }
  unfold same_lane. destruct (Hsame a) as [-> ->], (Hsame b) as [-> ->]. done.
Qed.

(** One message is handed out. *)
Lemma lanes_hand_out h q l m c q1 bm :
  same_frame q q1 → h !! m = Some bm →
  (∃ pre post, bq_pending q = pre ++ m :: post ∧ bq_pending q1 = pre ++ post ∧
    ∀ a, a ∈ pre → ¬ same_lane h (bq_cfg q) a m) →
  lanes_ok h q l → lanes_ok (<[m := bump bm]> h) (hand_out m c q1) (l ++ [(m, wrap (bump bm))]).
Proof.
  intros (Hc & Hi & _) Hm (pre & post & Hp & Hp1 & Hpre) [H1 H2 H3 H4 H5 H6].
  assert (Hin : m ∈ bq_pending q) by (rewrite Hp; set_solver).
  assert (Hsub : bq_pending q1 `sublist_of` bq_pending q) by (rewrite Hp, Hp1; by apply sublist_app, sublist_cons).
  assert (Hmem : ∀ x, x ∈ bq_pending q1 → x ∈ bq_pending q) by (intros x Hx; by eapply elem_of_sublist).
  assert (Hcnt : (0 ≤ attempts h m)%Z) by (apply H2, elem_of_app; by left).
  assert (Hinfl : ∀ x, x ∈ (bq_inflight (hand_out m c q1)).*1 → x ∈ (bq_inflight q).*1 ∨ x = m).
  { intros x (e & -> & He)%list_elem_of_fmap. simpl in He. rewrite Hi in He.
    apply elem_of_map_set in He as [He| ->]; [left; by apply list_elem_of_fmap_2|by right]. }
  assert (Hfresh : ∀ x, x ∈ bq_pending q → fresh (<[m := bump bm]> h) x → x ≠ m ∧ fresh h x).
  { intros x Hx. unfold fresh. rewrite (attempts_bump _ _ _ _ Hm). case_decide; [subst; lia|].
    split; [done|lia]. }
  assert (Hnew : firsts (l ++ [(m, wrap (bump bm))]) = firsts l ++ (if decide (fresh h m) then [m] else [])).
  { unfold firsts. rewrite omap_app. f_equal. simpl. unfold first_of. simpl.
    assert (Hf : fresh h m ↔ Some (bm_deliveryCount bm + 1)%Z = Some 1%Z).
    { unfold fresh, attempts. rewrite Hm. simpl. split; [intros ->; done|intros [= E]; lia]. }
    by destruct (decide (fresh h m)) as [?%Hf|Hn]; [rewrite decide_True|rewrite decide_False; [|by rewrite <- Hf]]. }
  split; rewrite ?Hnew.
  - intros x [Hx|Hx]%elem_of_app; rewrite length_insert; [by apply H1|].
    destruct (decide (fresh h m)); [|by apply elem_of_nil in Hx]. apply list_elem_of_singleton in Hx as ->. by eapply lookup_lt_Some.
  - intros x Hx. rewrite (attempts_bump _ _ _ _ Hm).
    enough (0 ≤ attempts h x)%Z by (destruct (decide (x = m)); lia).
    apply elem_of_app in Hx as [Hx%Hmem|[Hx| ->]%Hinfl]; [|apply H2, elem_of_app; by right|done].
    apply H2, elem_of_app. by left.
  - intros x [Hx| ->]%Hinfl; rewrite (attempts_bump _ _ _ _ Hm); [specialize (H3 x Hx); destruct (decide (x = m)); lia|].
    rewrite decide_True by done. lia.
  - apply (ordered_by_sublist _ _ _ Hsub). eapply ordered_by_impl; [|exact H4]. naive_solver.
  - simpl. rewrite Hc. intros a b Ha Hb [_ Hf]%Hfresh Hs%same_lane_bump; [|done|by apply Hmem].
    apply elem_of_app in Ha as [Ha|Ha]; [by apply (H5 a b); auto|].
    destruct (decide (fresh h m)) as [Hfm|]; [|by apply elem_of_nil in Ha]. apply list_elem_of_singleton in Ha as ->.
    apply H4; [|done]. rewrite Hp. rewrite Hp1 in Hb. apply elem_of_app in Hb as [Hb|Hb].
    + destruct (Hpre b Hb). unfold same_lane in *. by destruct (qc_partitionByGroup _).
    + apply sublist_inserts_l, sublist_skip. by apply singleton_sublist_l.
  - simpl. rewrite Hc. eapply (ordered_by_impl (same_lane h (bq_cfg q))); [intros a b _ _; by apply same_lane_bump|].
    apply ordered_by_app; [done|destruct (decide (fresh h m)); [apply ordered_by_one|intros a b Hs%sublist_nil_r; discriminate]|].
    intros a b Ha Hb Hs. destruct (decide (fresh h m)) as [Hfm|]; [|by apply elem_of_nil in Hb]. apply list_elem_of_singleton in Hb as ->.
    by apply H5.
Qed.

Lemma lanes_pump fuel h q l :
  lanes_ok h q l →
  let '(h', q', ds) := pumpQ fuel h q in lanes_ok h' q' (l ++ ((λ x, (x.1.1, x.2)) <$> ds)).
Proof.
  revert h q l. induction fuel as [|fuel IH]; intros h q l Hl; [simpl; by rewrite app_nil_r|]. rewrite pumpQ_S.
  destruct (bq_pending q) as [|m0 ms] eqn:Hp; [simpl; by rewrite app_nil_r|].
  destruct (bq_consumers q) as [|c0 cs] eqn:Hk; [simpl; by rewrite app_nil_r|].
  assert (Hne : bq_consumers q ≠ []) by (by rewrite Hk). assert (Hpe : bq_pending q ≠ []) by (by rewrite Hp).
  pose proof (pickDelivery_spec h q Hne Hpe) as Hs.
  pose proof (pickDelivery_first h q) as Hf. destruct (pickDelivery h q) as [[[m c]|] q1].
  - destruct Hs as [Hfr _]. specialize (Hf m c q1 Hne Hpe eq_refl). destruct (h !! m) as [bm|] eqn:Hm.
    + specialize (IH _ _ _ (lanes_hand_out h q l m c q1 bm Hfr Hm Hf Hl)).
      destruct (pumpQ _ _ _) as [[h' q'] ds]. rewrite <- app_assoc in IH. exact IH.
    + simpl. rewrite app_nil_r. destruct Hfr as (Hc & Hi & _), Hf as (pre & post & E & E' & _).
      apply (lanes_drop h q); [done| |by rewrite Hi|done]. rewrite E, E'. by apply sublist_app, sublist_cons.
  - simpl. rewrite app_nil_r. destruct Hs as [(Hc & Hi & _) [E _]]. apply (lanes_drop h q); [done|by rewrite E|by rewrite Hi|done].
Qed.

(** ** The bus *)

Definition attempted (h : Heap) (cfg : QueueConfig) (m : MsgRef) : Prop := (1 ≤ attempts h m)%Z.

Lemma lanes_law : queue_law lanes_ok attempted.
Proof.
  split.
  - intros h h' q l Hle Ha Hs [H1 H2 H3 H4 H5 H6]. unfold queue_places, allocated in *. split.
    + by eapply allocated_mono.
    + intros m Hm. rewrite Hs by done. by apply H2.
    + intros m Hm. rewrite Hs by (apply elem_of_app; by right). by apply H3.
    + eapply ordered_by_impl; [|exact H4]. intros a b Hin Hin'. unfold fresh. rewrite !Hs by (apply elem_of_app; by left). done.
    + intros a b Hin Hb Hf Hl. assert (Hb' : b ∈ bq_pending q ++ (bq_inflight q).*1) by (apply elem_of_app; by left).
      rewrite (same_lane_heap_le h) in Hl by auto. apply H5; [done..| |done]. unfold fresh in *. by rewrite Hs in Hf.
    + eapply ordered_by_impl; [|exact H6]. intros a b Hin Hin'. rewrite (same_lane_heap_le h) by auto. done.
  - intros h h' cfg m E. unfold attempted. by rewrite E.
  - intros h cfg. split; simpl; try (intros m Hm; by apply elem_of_nil in Hm); [|intros a b Ha; by apply elem_of_nil in Ha|];
      intros a b Hs%sublist_nil_r; discriminate.
  - intros h q l _ _ _. apply lanes_pump.
  - apply lanes_push.
  - intros h q q' l. apply lanes_drop.
  - intros h q l m Hl. by apply lanes_return.
  - intros h q l m Hl Hm _. by apply (ln_inflight _ _ _ Hl).
Qed.

(** Even a consumer that goes away returns only messages that were attempted. *)
Lemma lanes_departure : survives_departure lanes_ok.
Proof.
  intros h q l handler Hnd Hl. rewrite (detach_spec _ _ (queue_places_inflight_nodup _ Hnd)).
  destruct Hl as [H1 H2 H3 H4 H5 H6].
  set (back := (reverse (filter (λ e, e.2 = handler) (bq_inflight q))).*1).
  assert (Hback : ∀ m, m ∈ back → m ∈ (bq_inflight q).*1).
  { intros m (e & -> & He)%list_elem_of_fmap. rewrite elem_of_reverse in He.
    apply list_elem_of_filter in He as [_ He]. by apply list_elem_of_fmap_2. }
  assert (Hkeep : ∀ m, m ∈ (filter (λ e, e.2 ≠ handler) (bq_inflight q)).*1 → m ∈ (bq_inflight q).*1).
  { intros m (e & -> & He)%list_elem_of_fmap. apply list_elem_of_filter in He as [_ He]. by apply list_elem_of_fmap_2. }
  assert (Hnf : ∀ m, m ∈ back → ¬ fresh h m) by (intros m Hm%Hback%H3; unfold fresh; lia).
  split; simpl; [done| |intros m Hm; by apply H3, Hkeep| | |done].
  - intros m. unfold queue_places. simpl. rewrite !elem_of_app. intros [[Hm%Hback|Hm]|Hm%Hkeep];
      apply H2, elem_of_app; auto.
  - apply ordered_by_app; [|done|].
    + intros a b Hs [Hf _]. destruct (Hnf a); [|done]. eapply elem_of_sublist; [|exact Hs]. by left.
    + intros a b Ha _ [Hf _]. by destruct (Hnf a).
  - intros a b Ha [Hb|Hb]%elem_of_app Hf; [by destruct (Hnf b)|by apply H5].
Qed.

(** ** Properties *)

Lemma omap_pair {A} (f : A → option MsgRef) (l : list A) i j x y a b :
  i < j → l !! i = Some x → l !! j = Some y → f x = Some a → f y = Some b → [a; b] `sublist_of` omap f l.
Proof.
  revert i j. induction l as [|z l IH]; intros [|i] [|j] Hij Hi Hj Hx Hy; simplify_eq/=; try lia.
  - rewrite Hx. apply sublist_skip, singleton_sublist_l. apply list_elem_of_omap. exists y.
    split; [by eapply list_elem_of_lookup_2|done].
  - specialize (IH i j ltac:(lia) Hi Hj Hx Hy). destruct (f z); [by apply sublist_cons|done].
Qed.

Lemma omap_omap {A B C} (f : A → option B) (g : B → option C) (l : list A) :
  omap g (omap f l) = omap (λ x, f x ≫= g) l.
Proof.
  induction l as [|x l IH]; [done|]. simpl. destruct (f x) as [y|]; simpl; [|exact IH].
  destruct (g y); [f_equal|]; exact IH.
Qed.

(** C13: first deliveries are in order.  In every reachable state, of two messages of one
    queue that were each delivered for the first time, in one lane (one group on a
    partitioned queue, one priority on any other), the one delivered first was published
    first: retries, dead letters, crashes, competing consumers and replay never let a
    message overtake an earlier one of its lane.  Later attempts are not ordered
    ([requeue_reorders_group]). *)
Theorem first_deliveries_in_order (st : Bus) (i j : nat) (d e : Delivery) (q : BusQueue) :
  reachable st → i < j → b_deliveries st !! i = Some d → b_deliveries st !! j = Some e →
  dl_queue d = dl_queue e → b_qheap st !! dl_queue d = Some q →
  im_deliveryCount (dl_incoming d) = Some 1%Z → im_deliveryCount (dl_incoming e) = Some 1%Z →
  same_lane (b_heap st) (bq_cfg q) (dl_msg d) (dl_msg e) → dl_msg d < dl_msg e.
Proof.
  intros Hst Hij Hd He Hqq Hq H1 H2 Hs.
  assert (Hl : lawful lanes_ok attempted st).
  { clear -Hst. induction Hst as [|st op _ IH]; [apply new_lawful|].
    apply (exec_keeps _ _ lanes_law); [|done]. intros _ _. apply lanes_departure. }
  apply (ln_firsts _ _ _ (lw_queues _ _ _ Hl _ _ Hq)); [|done].
  unfold firsts, handed. rewrite omap_omap.
  eapply (omap_pair _ _ i j d e); [done..| |].
  - unfold handed_by. rewrite decide_True by done. unfold first_of. simpl. by rewrite decide_True.
  - unfold handed_by. rewrite decide_True by done. unfold first_of. simpl. by rewrite decide_True.
Qed.

(** Two consumers of a partitioned queue; the first message of group "a" fails once while
    group "b" proceeds. *)
Definition lanes_ops : list BusOp :=
  [OpSubscribe "t" 1 (mode_options "w" true false); OpSubscribe "t" 2 (mode_options "w" true false);
   OpPublish "t" "a1" None (group_options "a"); OpPublish "t" "b1" None (group_options "b");
   OpPublish "t" "a2" None (group_options "a"); OpPublish "t" "b2" None (group_options "b");
   OpMicrotask; OpMicrotask; OpNack 0 true; OpAck 1; OpMicrotask; OpMicrotask; OpAck 2].

Definition lanes_bus : Bus := run lanes_ops new_InMemoryBus.

Definition lanes_delivery (i : nat) : Delivery :=
  default {| dl_queue := 0; dl_msg := 0; dl_consumer := 0;
             dl_incoming := wrap (mk_message "" "" "" "" no_publish_options);
             dl_started := false; dl_settled := false |} (b_deliveries lanes_bus !! i).

Definition lanes_queue : BusQueue := default (new_BusQueue (demo_cfg true false)) (b_qheap lanes_bus !! 0).

Lemma first_deliveries_in_order_witness : dl_msg (lanes_delivery 0) < dl_msg (lanes_delivery 2).
Proof.
  apply (first_deliveries_in_order lanes_bus 0 2 (lanes_delivery 0) (lanes_delivery 2) lanes_queue);
    [apply run_reachable, reachable_init|lia|vm_compute; reflexivity..].
Defined.
