(* ===== verification/BusCost.v ===== *)
(** A bound on the work the in-memory bus has left: a potential that no operation of the
    bus raises, that every further event lowers, and that pays in advance for the
    remaining attempts of each message, its timers and the chain of its dead letters.

    Dead letters go to the address of their topic with a suffix, so a chain of them ends
    with the longest topic that is subscribed to. *)

From S2P Require Import Prelude Abstractions TopicMatch BusQueue InMemoryBus.
From S2P Require Import BusInvariants BusSafety BusDelivery BusLocal.

(** ** The potential *)

Section potential.
(** More queues, longer topics and higher limits than the bus has. *)
Context (queues depth limit : nat).

(** What a message published to a topic [d] below the bound on lengths may still cost in
    one of its queues. *)
Fixpoint fresh_cost (d : nat) : nat :=
  match d with 0 => 0 | S d => 1 + 4 * limit + queues * fresh_cost d end.

Definition depth_of (t : Destination) : nat := depth - String.length t.

(** The message is published once more, under a longer address. *)
Definition abandon (cfg : QueueConfig) : nat := queues * fresh_cost (pred (depth_of (qc_topic cfg))).

(** The attempts left before the next one, and after it. *)
Definition left_ (cfg : QueueConfig) (h : Heap) (m : MsgRef) : nat :=
  Z.to_nat (Z.max 1 (qc_maxDeliveries cfg - attempts h m)).
Definition again (cfg : QueueConfig) (h : Heap) (m : MsgRef) : nat :=
  Z.to_nat (qc_maxDeliveries cfg - attempts h m).

Definition waiting (cfg : QueueConfig) (h : Heap) (m : MsgRef) : nat := 1 + abandon cfg + 4 * left_ cfg h m.
Definition held (cfg : QueueConfig) (h : Heap) (m : MsgRef) : nat := 3 + abandon cfg + 4 * again cfg h m.

Definition queue_cost (h : Heap) (q : BusQueue) : nat :=
  sum_list_with (waiting (bq_cfg q) h) (bq_pending q) + sum_list_with (held (bq_cfg q) h) (bq_inflight q).*1.

Definition timer_cost (h : Heap) (cfgs : list QueueConfig) (t : Z * TimerAction) : nat :=
  match t.2 with
  | RetryTimer qr m => default 1 ((λ cfg, 1 + waiting cfg h m) <$> cfgs !! qr)
  | TtlTimer qr _ => default 1 ((λ cfg, 1 + abandon cfg) <$> cfgs !! qr)
  end.

(** A handler that has not settled its message yet. *)
Definition unsettled (d : Delivery) : nat := if dl_settled d then 0 else 1.

Definition cost (st : Bus) : nat :=
  sum_list_with (queue_cost (b_heap st)) (b_qheap st) +
  sum_list_with (timer_cost (b_heap st) (configs st)) (b_timers st) +
  length (b_microtasks st) + sum_list_with unsettled (b_deliveries st).

(** The queues the bounds cover. *)
Record within_bounds (st : Bus) : Prop := {
  wb_queues : length (b_qheap st) ≤ queues;
  wb_configs : ∀ qr cfg, configs st !! qr = Some cfg →
    String.length (qc_topic cfg) < depth ∧ Z.to_nat (Z.max 1 (qc_maxDeliveries cfg)) ≤ limit
}.

(** ** One queue *)

Lemma fresh_cost_mono d d' : d ≤ d' → fresh_cost d ≤ fresh_cost d'.
Proof.
  revert d'. induction d as [|d IH]; intros [|d'] Hd; simpl; try lia.
  specialize (IH d' ltac:(lia)). nia.
Qed.

Lemma queue_cost_same h h' q :
  (∀ m, m ∈ queue_places q → attempts h' m = attempts h m) → queue_cost h' q = queue_cost h q.
Proof.
  intros H. unfold queue_cost. f_equal; apply sum_ext; intros m Hm; unfold waiting, held, left_, again;
    rewrite H; try done; apply elem_of_app; auto.
Qed.

(** Only the messages of queue [qr] change their counts. *)
Definition only_counts (qr : QRef) (st : Bus) (h' : Heap) : Prop :=
  ∀ m q, b_qheap st !! qr = Some q → m < length (b_heap st) → m ∉ queue_places q → attempts h' m = attempts (b_heap st) m.

Lemma timers_cost_same qr q st h' :
  bus_wf st → b_qheap st !! qr = Some q → only_counts qr st h' →
  sum_list_with (timer_cost h' (configs st)) (b_timers st) =
  sum_list_with (timer_cost (b_heap st) (configs st)) (b_timers st).
Proof.
  intros Hwf Hq Hc. apply sum_ext. intros [z [r m|r m]] Hin; [done|]. unfold timer_cost. simpl.
  destruct (configs st !! r) as [cfg|]; [|done]. simpl. unfold waiting, left_. rewrite (Hc m q); [done|done|..].
  - apply (wf_alloc _ Hwf). apply elem_of_app. right. by eapply parked_intro.
  - eapply parked_elsewhere; [done..|]. by eapply parked_intro.
Qed.

(** The cost of a state in which one queue is replaced. *)
Lemma cost_local st st' qr q q' :
  bus_wf st → b_qheap st !! qr = Some q → b_qheap st' = <[qr := q']> (b_qheap st) → bq_cfg q' = bq_cfg q →
  only_counts qr st (b_heap st') →
  cost st' + queue_cost (b_heap st) q +
    sum_list_with (timer_cost (b_heap st) (configs st)) (b_timers st) + length (b_microtasks st) +
    sum_list_with unsettled (b_deliveries st) =
  cost st + queue_cost (b_heap st') q' +
    sum_list_with (timer_cost (b_heap st') (configs st)) (b_timers st') + length (b_microtasks st') +
    sum_list_with unsettled (b_deliveries st').
Proof.
  intros Hwf Hq Hqs Hcfg Hc. unfold cost.
  assert (Hcs : configs st' = configs st).
  { unfold configs. rewrite Hqs, list_fmap_insert, list_insert_id; [done|]. by rewrite list_lookup_fmap, Hq, Hcfg. }
  assert (Hsum : sum_list_with (queue_cost (b_heap st')) (b_qheap st') + queue_cost (b_heap st) q =
                 sum_list_with (queue_cost (b_heap st)) (b_qheap st) + queue_cost (b_heap st') q').
  { rewrite Hqs. pose proof (sum_insert (queue_cost (b_heap st)) _ qr q q' Hq) as H1.
    pose proof (sum_insert (queue_cost (b_heap st')) (b_qheap st) qr q q' Hq) as H2.
    pose proof (sum_delete (queue_cost (b_heap st)) _ _ _ Hq) as D1.
    pose proof (sum_delete (queue_cost (b_heap st')) _ _ _ Hq) as D2.
    enough (E : sum_list_with (queue_cost (b_heap st')) (delete qr (b_qheap st)) =
                sum_list_with (queue_cost (b_heap st)) (delete qr (b_qheap st))) by lia.
    apply sum_ext. intros q1 Hin. apply list_elem_of_lookup in Hin as [j Hj].
    rewrite list_lookup_delete in Hj.
    assert (∃ i, b_qheap st !! i = Some q1 ∧ i ≠ qr) as (i & Hi & Hne).
    { case_decide; [exists j|exists (S j)]; (split; [done|lia]). }
    apply queue_cost_same. intros m Hm. apply (Hc m q); [done|by eapply wf_queue_alloc|by eapply elsewhere]. }
  rewrite Hcs. lia.
Qed.

Lemma cost_same st st' :
  b_qheap st' = b_qheap st → b_heap st' = b_heap st → b_timers st' = b_timers st →
  b_microtasks st' = b_microtasks st → b_deliveries st' = b_deliveries st → cost st' = cost st.
Proof. unfold cost, configs. by intros -> -> -> -> ->. Qed.

(** ** The pump *)

(** Handing out a message turns one of its waiting attempts into a held message, a
    microtask and a handler that has to settle. *)
Lemma hand_out_cost cfg h h' m bm :
  h !! m = Some bm → h' !! m = Some (bump bm) → held cfg h' m + 2 = waiting cfg h m.
Proof.
  intros Hm Hm'. unfold held, waiting, again, left_, attempts. rewrite Hm, Hm'. simpl. lia.
Qed.

Lemma pump_cost qr st : bus_wf st → cost (pump qr st) = cost st.
Proof.
  intros Hwf. destruct (b_qheap st !! qr) as [q|] eqn:Hq; [|unfold pump; by rewrite Hq].
  unfold pump. rewrite Hq.
  pose proof (pumpQ_spec (length (bq_pending q)) (b_heap st) q) as Hs.
  destruct (pumpQ _ _ _) as [[h q'] ds]. destruct Hs as [[Hc _ _ _ Hu Hb Hp Hi _] _]; eauto with bus.
  pose proof (wf_queue_nodup _ Hwf _ _ Hq) as Hnd. unfold queue_places in Hnd.
  set (st' := with_deliveries _ _ _).
  assert (Hds : ∀ m, m ∈ ds.*1.*1 → m ∈ bq_pending q) by (intros m Hm; rewrite Hp; set_solver).
  assert (Hsame : ∀ m, m ∉ ds.*1.*1 → attempts h m = attempts (b_heap st) m)
    by (intros m Hm; by apply attempts_untouched, Hu).
  assert (Hloc := cost_local st st' qr q q' Hwf Hq eq_refl Hc).
  assert (Ho : only_counts qr st (b_heap st')).
  { intros m q0 Hq0 _ Hm. simplify_eq. apply Hsame. intros Hin%Hds. apply Hm, elem_of_app. by left. }
  specialize (Hloc Ho). pose proof (timers_cost_same qr q st (b_heap st') Hwf Hq Ho) as Ht.
  assert (Hq' : queue_cost h q' + 2 * length ds = queue_cost (b_heap st) q).
  { unfold queue_cost. rewrite Hi, Hc, fmap_app, sum_list_with_app.
    assert (E1 : sum_list_with (waiting (bq_cfg q) h) (bq_pending q') = sum_list_with (waiting (bq_cfg q) (b_heap st)) (bq_pending q')).
    { apply sum_ext. intros m Hm. unfold waiting, left_. rewrite Hsame; [done|]. intros Hin.
      apply NoDup_app in Hnd as (Hnd & _ & _). rewrite Hp in Hnd. apply NoDup_app in Hnd as (_ & Hd & _). by apply (Hd m). }
    assert (E2 : sum_list_with (held (bq_cfg q) h) (bq_inflight q).*1 = sum_list_with (held (bq_cfg q) (b_heap st)) (bq_inflight q).*1).
    { apply sum_ext. intros m Hm. unfold held, again. rewrite Hsame; [done|]. intros Hin%Hds.
      apply NoDup_app in Hnd as (_ & Hd & _). by apply (Hd m). }
    assert (E3 : sum_list_with (held (bq_cfg q) h) ds.*1.*1 + 2 * length ds = sum_list_with (waiting (bq_cfg q) (b_heap st)) ds.*1.*1).
    { clear -Hb. induction ds as [|[[m c] im] ds IH]; [done|].
      destruct (Hb m c im ltac:(left)) as (bm & E & E' & _). pose proof (hand_out_cost (bq_cfg q) _ _ _ _ E E').
      specialize (IH ltac:(intros; apply (Hb m0 c0 im0); by right)).
      rewrite !fmap_cons. cbn [sum_list_with length fst]. lia. }
    rewrite E1, E2, Hp. rewrite sum_list_with_app. lia. }
  assert (Hn : sum_list_with unsettled (map (mk_delivery qr) ds) = length ds)
    by (clear; induction ds as [|d ds IH]; [done|]; simpl; by rewrite IH).
  simpl in Hloc, Ht. rewrite length_app, length_seq, sum_list_with_app, Hn in Hloc. lia.
Qed.

(** ** Publishing *)

Lemma publish_to_cost topic body key st qr cfg :
  bus_wf st → within_bounds st → configs st !! qr = Some cfg → qc_topic cfg = topic →
  cost (publish_to topic body key no_publish_options st qr) ≤ cost st + fresh_cost (depth_of topic).
Proof.
  intros Hwf [_ Hb] Hcfg Ht. unfold publish_to. unfold configs in Hcfg. rewrite list_lookup_fmap in Hcfg.
  apply fmap_Some in Hcfg as (q & Hq & ->). rewrite Hq.
  destruct (matches _ _); [|lia]. simpl. set (m := mk_message _ _ _ _ _). set (st1 := with_queue _ _ _).
  assert (Hev : bus_wf st1).
  { eapply evolves_wf; [exact Hwf|]. apply (push_new_evolves st st1 qr q m); try done. by left. }
  rewrite pump_cost by done.
  assert (Hold : ∀ x, x < length (b_heap st) → attempts (b_heap st1) x = attempts (b_heap st) x)
    by (intros x Hx; apply attempts_untouched; by apply lookup_app_l).
  assert (Ho : only_counts qr st (b_heap st1)) by (intros x q0 _ Hx _; by apply Hold).
  pose proof (cost_local st st1 qr q _ Hwf Hq eq_refl eq_refl Ho) as Hloc.
  pose proof (timers_cost_same qr q st (b_heap st1) Hwf Hq Ho) as Hts.
  assert (Hq' : queue_cost (b_heap st1) (set_pending (bq_pending q ++ [length (b_heap st)]) q) =
                queue_cost (b_heap st) q + waiting (bq_cfg q) (b_heap st1) (length (b_heap st))).
  { pose proof (wf_queue_alloc _ Hwf _ _ Hq) as Ha.
    rewrite <- (queue_cost_same (b_heap st) (b_heap st1) q) by (intros x Hx; by apply Hold, Ha).
    unfold queue_cost. cbn [set_pending bq_pending bq_cfg bq_inflight]. rewrite sum_list_with_app. cbn [sum_list_with]. lia. }
  assert (Hw : waiting (bq_cfg q) (b_heap st1) (length (b_heap st)) ≤ fresh_cost (depth_of topic)).
  { destruct (Hb qr (bq_cfg q)) as [Hlen Hlim]; [unfold configs; by rewrite list_lookup_fmap, Hq|].
    unfold waiting, abandon, left_, attempts, depth_of. simpl. rewrite list_lookup_middle by done.
    cbn [fmap option_fmap option_map default bm_deliveryCount m mk_message]. rewrite <- Ht.
    destruct (depth - String.length (qc_topic (bq_cfg q))) as [|d] eqn:E; [lia|]. simpl. rewrite Z.sub_0_r. lia. }
  change (b_timers st1) with (b_timers st) in Hloc. change (b_microtasks st1) with (b_microtasks st) in Hloc.
  change (b_deliveries st1) with (b_deliveries st) in Hloc. lia.
Qed.

Lemma same_index_bounds st st' : same_index st st' → within_bounds st → within_bounds st'.
Proof.
  intros (_ & _ & Hc) [H1 H2]. split; [|by rewrite Hc]. apply (f_equal length) in Hc.
  unfold configs in Hc. rewrite !length_fmap in Hc. lia.
Qed.

Lemma publish_all_cost topic body key l st :
  bus_wf st → within_bounds st →
  (∀ qr, qr ∈ l → ∃ cfg, configs st !! qr = Some cfg ∧ qc_topic cfg = topic) →
  cost (foldl (publish_to topic body key no_publish_options) st l) ≤ cost st + length l * fresh_cost (depth_of topic).
Proof.
  revert st. induction l as [|qr l IH]; intros st Hwf Hb Hl; simpl; [lia|].
  destruct (Hl qr ltac:(left)) as (cfg & Hcfg & Ht).
  pose proof (publish_to_cost topic body key st qr cfg Hwf Hb Hcfg Ht) as H1.
  pose proof (publish_to_index topic body key no_publish_options st qr) as Hi.
  specialize (IH (publish_to topic body key no_publish_options st qr)).
  assert (cost (foldl (publish_to topic body key no_publish_options) (publish_to topic body key no_publish_options st qr) l) ≤
          cost (publish_to topic body key no_publish_options st qr) + length l * fresh_cost (depth_of topic)); [|lia].
  apply IH; [by eapply evolves_wf, publish_to_evolves|by eapply same_index_bounds|].
  destruct Hi as (_ & _ & ->). intros r Hr. apply Hl. by right.
Qed.

Lemma publish_cost topic body rk st :
  bus_wf st → index_wf st → within_bounds st →
  cost (publish topic body rk no_publish_options st) ≤ cost st + queues * fresh_cost (depth_of topic).
Proof.
  intros Hwf [Hnd Ht _] Hb. unfold publish. simpl.
  set (st1 := log_publish _ _ _ _ _). fold (subscribers st topic).
  assert (E : cost st1 = cost st) by by apply cost_same. rewrite <- E.
  etrans; [apply publish_all_cost|].
  - eapply evolves_wf; [exact Hwf|]. by apply evolves_same.
  - by eapply (same_index_bounds st).
  - apply Ht.
  - apply Nat.add_le_mono_l, Nat.mul_le_mono_r. etrans; [|apply (wb_queues _ Hb)].
    specialize (Hnd topic). change (default [] (b_byTopic st !! topic)) with (subscribers st topic).
    rewrite <- (length_seq (length (b_qheap st)) 0). apply submseteq_length, NoDup_submseteq; [done|].
    intros r (cfg & Hc%lookup_lt_Some & _)%Ht. apply elem_of_seq. unfold configs in Hc. rewrite length_fmap in Hc. lia.
Qed.

(** A dead letter, or an expired message, is published under a longer address. *)
Lemma longer_address_cost cfg suffix :
  0 < String.length suffix → queues * fresh_cost (depth_of (qc_topic cfg +:+ suffix)) ≤ abandon cfg.
Proof.
  intros Hs. unfold abandon, depth_of. apply Nat.mul_le_mono_l, fresh_cost_mono.
  rewrite string_app_length. lia.
Qed.

Lemma deadLetter_cost qr m q st :
  bus_wf st → index_wf st → within_bounds st → b_qheap st !! qr = Some q →
  cost (deadLetter qr m st) ≤ cost st + abandon (bq_cfg q).
Proof.
  intros Hwf Hi Hb Hq. unfold deadLetter. rewrite Hq. repeat case_match; try lia.
  etrans; [by apply publish_cost|]. apply Nat.add_le_mono_l, longer_address_cost. simpl. lia.
Qed.

(** ** Settlement *)

(** Taking a held message out of its queue. *)
Lemma take_out_cost qr q m c st :
  bus_wf st → b_qheap st !! qr = Some q → map_get (bq_inflight q) m = Some c →
  cost (with_queue qr (set_inflight (map_delete (bq_inflight q) m) q) st) + held (bq_cfg q) (b_heap st) m = cost st.
Proof.
  intros Hwf Hq Hg. set (q' := set_inflight _ q). set (st' := with_queue qr q' st).
  assert (Ho : only_counts qr st (b_heap st')) by done.
  pose proof (cost_local st st' qr q q' Hwf Hq eq_refl eq_refl Ho) as Hloc.
  assert (Hq' : queue_cost (b_heap st) q' + held (bq_cfg q) (b_heap st) m = queue_cost (b_heap st) q).
  { pose proof (wf_queue_nodup _ Hwf _ _ Hq) as Hnd. apply NoDup_app in Hnd as (_ & _ & Hnd).
    destruct (map_get_split _ _ _ Hnd Hg) as (m1 & m2 & Hi & Hd). unfold queue_cost, q'.
    cbn [set_inflight bq_pending bq_cfg bq_inflight]. rewrite Hd, Hi, !fmap_app, fmap_cons, !sum_list_with_app.
    cbn [sum_list_with fst]. lia. }
  change (b_timers st') with (b_timers st) in Hloc. change (b_microtasks st') with (b_microtasks st) in Hloc.
  change (b_deliveries st') with (b_deliveries st) in Hloc.
  change (b_heap st') with (b_heap st) in Hloc. lia.
Qed.

(** Putting a message on a queue. *)
Lemma put_back_cost qr q m st :
  bus_wf st → b_qheap st !! qr = Some q →
  cost (with_queue qr (set_pending (bq_pending q ++ [m]) q) st) = cost st + waiting (bq_cfg q) (b_heap st) m.
Proof.
  intros Hwf Hq. set (q' := set_pending _ q). set (st' := with_queue qr q' st).
  assert (Ho : only_counts qr st (b_heap st')) by done.
  pose proof (cost_local st st' qr q q' Hwf Hq eq_refl eq_refl Ho) as Hloc.
  assert (Hq' : queue_cost (b_heap st) q' = queue_cost (b_heap st) q + waiting (bq_cfg q) (b_heap st) m).
  { unfold queue_cost, q'. cbn [set_pending bq_pending bq_cfg bq_inflight]. rewrite sum_list_with_app.
    cbn [sum_list_with]. lia. }
  change (b_timers st') with (b_timers st) in Hloc. change (b_microtasks st') with (b_microtasks st) in Hloc.
  change (b_deliveries st') with (b_deliveries st) in Hloc.
  change (b_heap st') with (b_heap st) in Hloc. lia.
Qed.

Lemma new_timer_cost t st :
  cost (with_timers (b_timers st ++ [t]) st) = cost st + timer_cost (b_heap st) (configs st) t.
Proof. unfold cost. simpl. rewrite sum_list_with_app. simpl. unfold configs. simpl. lia. Qed.

Lemma lookup_config st qr q : b_qheap st !! qr = Some q → configs st !! qr = Some (bq_cfg q).
Proof. intros Hq. unfold configs. by rewrite list_lookup_fmap, Hq. Qed.

(** The states a settlement goes through. *)
Lemma taken_out_evolves qr q m c st :
  b_qheap st !! qr = Some q → map_get (bq_inflight q) m = Some c →
  evolves [m] st (with_queue qr (set_inflight (map_delete (bq_inflight q) m) q) st).
Proof.
  intros Hq Hg. eapply (take_out_evolves [m] []); [exact Hq|exact Hg|done| |done|by left].
  simpl. by rewrite app_nil_r; destruct q.
Qed.

Lemma requeued_evolves qr q m c st :
  b_qheap st !! qr = Some q → map_get (bq_inflight q) m = Some c →
  let q1 := set_inflight (map_delete (bq_inflight q) m) q in
  evolves [] st (with_queue qr (set_pending (bq_pending q1 ++ [m]) q1) (with_queue qr q1 st)).
Proof.
  intros Hq Hg q1. eapply (take_out_evolves [] [m]); [exact Hq|exact Hg|done| |done|by left].
  simpl. by rewrite list_insert_insert_eq.
Qed.

Lemma parked_evolves qr q m c d st :
  b_qheap st !! qr = Some q → map_get (bq_inflight q) m = Some c →
  let st1 := with_queue qr (set_inflight (map_delete (bq_inflight q) m) q) st in
  evolves [] st (with_timers (b_timers st1 ++ [(d, RetryTimer qr m)]) st1).
Proof.
  intros Hq Hg st1. eapply (take_out_evolves [] []); [exact Hq|exact Hg|done| | |].
  - simpl. by rewrite app_nil_r; destruct q.
  - unfold parked. simpl. rewrite omap_app. simpl. solve_Permutation.
  - intros t [|Ht%list_elem_of_singleton]%elem_of_app; [by left|right; by subst].
Qed.

(** Settling a message that is held by this consumer lowers the potential. *)
Lemma settle_cost qr m c r q st :
  bus_wf st → index_wf st → within_bounds st → b_qheap st !! qr = Some q → map_get (bq_inflight q) m = Some c →
  cost (settle qr m c r st) < cost st.
Proof.
  intros Hwf Hidx Hb Hq Hg. pose proof (take_out_cost _ _ _ _ _ Hwf Hq Hg) as Hout.
  pose proof (evolves_wf _ _ _ Hwf (taken_out_evolves _ _ _ _ _ Hq Hg)) as Hwf1.
  pose proof (evolves_wf _ _ _ Hwf (requeued_evolves _ _ _ _ _ Hq Hg)) as Hwf2.
  pose proof (λ d, evolves_wf _ _ _ Hwf (parked_evolves _ _ _ _ d _ Hq Hg)) as Hwf3. simpl in Hwf2, Hwf3.
  unfold settle. rewrite Hq, decide_True by done. cbv zeta.
  set (q1 := set_inflight _ q) in *. set (st1 := with_queue qr q1 st) in *.
  assert (Hq1 : b_qheap st1 !! qr = Some q1) by (by apply list_lookup_insert_eq; eapply lookup_lt_Some).
  assert (Hsame : same_index st st1) by by eapply same_index_queue.
  assert (Hdead : cost (pump qr (deadLetter qr m st1)) < cost st).
  { rewrite pump_cost by (by eapply evolves_wf, deadLetter_evolves).
    pose proof (deadLetter_cost qr m q1 st1 Hwf1 (same_index_wf _ _ Hsame Hidx) (same_index_bounds _ _ Hsame Hb) Hq1) as Hd.
    unfold held in Hout. simpl in Hd. lia. }
  destruct r; [|case_decide as Hlim; [exact Hdead|]|exact Hdead].
  - rewrite pump_cost by done. unfold held in Hout. lia.
  - assert (Hw : waiting (bq_cfg q1) (b_heap st1) m + 2 ≤ held (bq_cfg q) (b_heap st) m).
    { assert (attempts (b_heap st) m < qc_maxDeliveries (bq_cfg q))%Z by (apply Z.nle_gt; exact Hlim).
      change (b_heap st1) with (b_heap st). change (bq_cfg q1) with (bq_cfg q). unfold waiting, held, left_, again. lia. }
    destruct (retry_delay _) as [d|].
    + rewrite pump_cost by apply Hwf3. rewrite new_timer_cost. unfold timer_cost. simpl.
      rewrite (lookup_config st1 qr q1 Hq1). cbn [fmap option_fmap option_map default id].
      change (b_heap st1) with (b_heap st) in *. change (bq_cfg q1) with (bq_cfg q) in *. lia.
    + rewrite pump_cost, put_back_cost by done. change (b_heap st1) with (b_heap st) in *. lia.
Qed.

Lemma mark_settled_cost i d st :
  b_deliveries st !! i = Some d → cost (with_delivery i (mark_settled d) st) + unsettled d = cost st.
Proof.
  intros Hd. unfold cost. simpl. unfold configs. simpl. pose proof (sum_insert unsettled _ _ _ (mark_settled d) Hd) as H.
  change (unsettled (mark_settled d)) with 0 in H. lia.
Qed.

(** The handler of delivery [i] can still do something: it has not settled, or its
    message is in flight with its consumer. *)
Definition effective (st : Bus) (i : nat) : Prop :=
  ∃ d, b_deliveries st !! i = Some d ∧ dl_started d = true ∧
    (dl_settled d = false ∨
     ∃ q, b_qheap st !! dl_queue d = Some q ∧ map_get (bq_inflight q) (dl_msg d) = Some (dl_consumer d)).

Lemma guarded_cost i r st :
  bus_wf st → index_wf st → within_bounds st → effective st i → cost (guarded i r st) < cost st.
Proof.
  intros Hwf Hidx Hb (d & Hd & Hs & He). unfold guarded. rewrite Hd, Hs. set (st1 := with_delivery _ _ _).
  pose proof (mark_settled_cost i d st Hd) as E. fold st1 in E.
  assert (Hwf1 : bus_wf st1) by (eapply evolves_wf; [exact Hwf|by apply evolves_same]).
  assert (Hi : same_index st st1) by done.
  destruct (b_qheap st !! dl_queue d) as [q|] eqn:Hq;
    [destruct (decide (map_get (bq_inflight q) (dl_msg d) = Some (dl_consumer d))) as [Hg|Hg]|].
  - pose proof (settle_cost _ _ _ r _ st1 Hwf1 (same_index_wf _ _ Hi Hidx) (same_index_bounds _ _ Hi Hb) Hq Hg). lia.
  - destruct He as [He|(? & [= <-] & ?)]; [|done]. unfold settle. change (b_qheap st1) with (b_qheap st).
    rewrite Hq, decide_False by done. unfold unsettled in E. rewrite He in E. lia.
  - destruct He as [He|(? & ? & ?)]; [|done]. unfold settle. change (b_qheap st1) with (b_qheap st).
    rewrite Hq. unfold unsettled in E. rewrite He in E. lia.
Qed.

(** ** Timers *)

Lemma fire_timer_sum i t st :
  b_timers st !! i = Some t →
  cost (with_timers (delete i (b_timers st)) st) + timer_cost (b_heap st) (configs st) t = cost st.
Proof.
  intros Hi. unfold cost. simpl. unfold configs. simpl.
  pose proof (sum_delete (timer_cost (b_heap st) (bq_cfg <$> b_qheap st)) _ _ _ Hi). lia.
Qed.

Lemma drop_pending_cost qr q i m st :
  bus_wf st → b_qheap st !! qr = Some q → bq_pending q !! i = Some m →
  cost (with_queue qr (set_pending (delete i (bq_pending q)) q) st) ≤ cost st.
Proof.
  intros Hwf Hq Hi. set (q' := set_pending _ q). set (st' := with_queue qr q' st).
  assert (Ho : only_counts qr st (b_heap st')) by done.
  pose proof (cost_local st st' qr q q' Hwf Hq eq_refl eq_refl Ho) as Hloc.
  assert (Hq' : queue_cost (b_heap st) q' ≤ queue_cost (b_heap st) q).
  { unfold queue_cost, q'. cbn [set_pending bq_pending bq_cfg bq_inflight].
    pose proof (sum_delete (waiting (bq_cfg q) (b_heap st)) _ _ _ Hi). lia. }
  change (b_timers st') with (b_timers st) in Hloc. change (b_microtasks st') with (b_microtasks st) in Hloc.
  change (b_deliveries st') with (b_deliveries st) in Hloc.
  change (b_heap st') with (b_heap st) in Hloc. lia.
Qed.

Lemma expire_cost qr m q st :
  bus_wf st → index_wf st → within_bounds st → b_qheap st !! qr = Some q →
  cost (expire qr m st) ≤ cost st + abandon (bq_cfg q).
Proof.
  intros Hwf Hidx Hb Hq. unfold expire. rewrite Hq. destruct (b_heap st !! m) as [msg|]; [|lia].
  assert (Hpub : ∀ q1, bq_cfg q1 = bq_cfg q → bus_wf (with_queue qr q1 st) → cost (with_queue qr q1 st) ≤ cost st →
    cost (publish (expiryAddress (qc_topic (bq_cfg q1))) (bm_body msg) (Some (bm_routingKey msg)) no_publish_options
      (with_queue qr q1 st)) ≤ cost st + abandon (bq_cfg q)).
  { intros q1 Hc Hw Hcost. assert (Hs : same_index st (with_queue qr q1 st)) by by eapply same_index_queue.
    etrans; [apply publish_cost; [done|by eapply same_index_wf|by eapply same_index_bounds]|].
    rewrite Hc. pose proof (longer_address_cost (bq_cfg q) ".expiry"). simpl in *. unfold expiryAddress. lia. }
  destruct (index_of m (bq_pending q)) as [i|] eqn:Hi.
  - apply index_of_Some in Hi. apply Hpub; [done| |by eapply drop_pending_cost].
    eapply evolves_wf; [exact Hwf|]. eapply (evolves_local [m] []); [exact Hq|done|by left|].
    intros _. split; [done|]. split; [|split; [apply NoDup_nil_2|split; [apply NoDup_nil_fresh|]]].
    + unfold queue_places, parked. simpl. rewrite (delete_Permutation _ _ _ Hi) at 2. done.
    + simpl. apply queue_ok_pending. eauto with bus.
  - unfold map_has. case_bool_decide as Hg.
    + destruct Hg as [c Hg]. apply Hpub; [done|by eapply evolves_wf, taken_out_evolves|].
      pose proof (take_out_cost _ _ _ _ _ Hwf Hq Hg). lia.
    + rewrite (cost_same st); [lia|by apply list_insert_id|done..].
Qed.

Lemma fire_timer_cost i st :
  bus_wf st → index_wf st → within_bounds st → i < length (b_timers st) → cost (fire_timer i st) < cost st.
Proof.
  intros Hwf Hidx Hb [[d t] Hi]%lookup_lt_is_Some. unfold fire_timer. rewrite Hi.
  pose proof (wf_timers _ Hwf (d, t) ltac:(by eapply list_elem_of_lookup_2)) as [q Hq]%lookup_lt_is_Some.
  pose proof (fire_timer_sum _ _ _ Hi) as Hs. destruct t as [qr m|qr m]; simpl in Hq |- *.
  - set (st1 := with_timers _ st) in *.
    assert (Hwf1 : bus_wf st1).
    { eapply evolves_wf; [exact Hwf|]. apply (evolves_same st); try done; [|intros t; apply elem_of_list_delete].
      pose proof (parked_delete _ _ _ Hi) as Hp. by symmetry. }
    assert (Hsame : same_index st st1) by done.
    pose proof (expire_cost qr m q st1 Hwf1 (same_index_wf _ _ Hsame Hidx) (same_index_bounds _ _ Hsame Hb) Hq) as He.
    unfold timer_cost in Hs. cbn [snd] in Hs. rewrite (lookup_config st qr q Hq) in Hs.
    cbn [fmap option_fmap option_map default id] in Hs. lia.
  - unfold unpark. simpl. rewrite Hq.
    rewrite pump_cost by (eapply evolves_wf; [exact Hwf|by eapply unparked_evolves]).
    pose proof (put_back_cost qr q m st Hwf Hq) as Hp. set (st2 := with_queue _ _ st) in Hp.
    pose proof (fire_timer_sum i _ st2 Hi) as H2. unfold timer_cost in H2. cbn [snd] in H2.
    rewrite (lookup_config st2 qr (set_pending (bq_pending q ++ [m]) q)) in H2
      by (by apply list_lookup_insert_eq; eapply lookup_lt_Some).
    cbn [fmap option_fmap option_map default id] in H2.
    change (waiting (bq_cfg (set_pending (bq_pending q ++ [m]) q)) (b_heap st2) m)
      with (waiting (bq_cfg q) (b_heap st) m) in H2.
    change (with_queue qr _ (with_timers _ st)) with (with_timers (delete i (b_timers st2)) st2). lia.
Qed.

(** ** Microtasks *)

Lemma microtask_cost st : b_microtasks st ≠ [] → cost (run_microtask st) < cost st.
Proof.
  unfold run_microtask. destruct (b_microtasks st) as [|i rest] eqn:E; [done|]. intros _.
  unfold cost, configs. simpl. rewrite E.
  enough (Ha : sum_list_with unsettled (alter mark_started i (b_deliveries st)) = sum_list_with unsettled (b_deliveries st))
    by (rewrite Ha; simpl; lia).
  clear E. revert i. induction (b_deliveries st) as [|d ds IH]; intros [|i]; simpl; [done..|].
  f_equal. apply IH.
Qed.
End potential.
