(* ===== verification/BusService.v ===== *)
(** The in-memory bus when nothing new arrives: every held message has a handler that has
    not settled it, and once the application stops calling, settling handlers, timers and
    microtasks bring the bus to rest, whatever their order and whatever the handlers
    answer. *)

From S2P Require Import Prelude Abstractions TopicMatch BusQueue InMemoryBus.
From S2P Require Import BusInvariants BusSafety BusProgress BusDelivery BusStore BusLocal BusAttempts BusCost.

(** ** Every held message has a handler *)

(** A delivery of [e] from queue [qr] that has not settled. *)
Definition has_handler (st : Bus) (qr : QRef) (e : MsgRef * AckHandler) : Prop :=
  ∃ d, d ∈ b_deliveries st ∧ dl_queue d = qr ∧ dl_msg d = e.1 ∧ dl_consumer d = e.2 ∧ dl_settled d = false.

Definition tracked (st : Bus) : Prop :=
  ∀ qr q e, b_qheap st !! qr = Some q → e ∈ bq_inflight q → has_handler st qr e.

(** What [st'] holds was held in [st], or has been handed to a handler since. *)
Record follows (st st' : Bus) : Prop := {
  fo_deliveries : ∀ d, d ∈ b_deliveries st → d ∈ b_deliveries st';
  fo_inflight : ∀ qr q' e, b_qheap st' !! qr = Some q' → e ∈ bq_inflight q' →
    (∃ q, b_qheap st !! qr = Some q ∧ e ∈ bq_inflight q) ∨ has_handler st' qr e
}.

#[export] Instance follows_preorder : PreOrder follows.
Proof.
  split.
  - intros st. split; [done|]. intros qr q e Hq He. left. by exists q.
  - intros a b c [D1 I1] [D2 I2]. split; [auto|]. intros qr q e Hq He.
    destruct (I2 _ _ _ Hq He) as [(q1 & Hq1 & He1)|]; [|by right].
    destruct (I1 _ _ _ Hq1 He1) as [|(d & Hd & Hr)]; [by left|]. right. exists d. auto.
Qed.

Lemma follows_tracked st st' : follows st st' → tracked st → tracked st'.
Proof.
  intros [D I] Ht qr q' e Hq He. destruct (I _ _ _ Hq He) as [(q & Hq1 & He1)|]; [|done].
  destruct (Ht _ _ _ Hq1 He1) as (d & Hd & Hr). exists d. auto.
Qed.

Lemma follows_queue st st' qr q q' :
  b_qheap st !! qr = Some q → b_qheap st' = <[qr := q']> (b_qheap st) →
  (∀ e, e ∈ bq_inflight q' → e ∈ bq_inflight q) → b_deliveries st' = b_deliveries st → follows st st'.
Proof.
  intros Hq Hqs Hi Hd. split; [by rewrite Hd|]. intros r q1 e. rewrite Hqs.
  intros [(<- & <- & _)|[_ Hr]]%list_lookup_insert_Some He; left; eauto.
Qed.

Lemma follows_same st st' : b_qheap st' = b_qheap st → b_deliveries st' = b_deliveries st → follows st st'.
Proof. intros Hq Hd. split; [by rewrite Hd|]. intros qr q e. rewrite Hq. eauto. Qed.

Lemma follows_foldl {A} (f : Bus → A → Bus) l st :
  (∀ st x, follows st (f st x)) → follows st (foldl f st l).
Proof.
  intros Hf. revert st. induction l as [|x l IH]; intros st; simpl; [done|]. etrans; [apply Hf|apply IH].
Qed.

(** The pump hands out what it puts in flight. *)
Lemma pumpQ_holders fuel h q :
  let '(_, q', ds) := pumpQ fuel h q in ∀ e, e ∈ bq_inflight q' → e ∈ bq_inflight q ∨ e ∈ ds.*1.
Proof.
  revert h q. induction fuel as [|fuel IH]; intros h q; [by left|]. rewrite pumpQ_S.
  destruct (bq_pending q) as [|m0 ms] eqn:Hp; [by left|].
  destruct (bq_consumers q) as [|c0 cs] eqn:Hc; [by left|].
  pose proof (pickDelivery_spec h q ltac:(by rewrite Hc) ltac:(by rewrite Hp)) as Hs.
  destruct (pickDelivery h q) as [[[m c]|] q1].
  - destruct Hs as [(_ & Hi & _) _]. destruct (h !! m) as [bm|]; [|rewrite Hi; by left].
    specialize (IH (<[m := bump bm]> h) (hand_out m c q1)).
    destruct (pumpQ _ _ _) as [[h' q'] ds]. intros e [He|He]%IH; [|right; by right].
    unfold hand_out in He. simpl in He. apply elem_of_map_set in He as [He| ->]; [left; by rewrite <- Hi|right; by left].
  - destruct Hs as [(_ & Hi & _) _]. rewrite Hi. by left.
Qed.

Lemma pump_follows qr st : follows st (pump qr st).
Proof.
  unfold pump. destruct (b_qheap st !! qr) as [q|] eqn:Hq; [|done].
  pose proof (pumpQ_holders (length (bq_pending q)) (b_heap st) q) as Hp.
  destruct (pumpQ _ _ _) as [[h q'] ds]. split; simpl; [intros d Hd; apply elem_of_app; by left|].
  intros r q1 e [(<- & <- & _)|[_ Hr]]%list_lookup_insert_Some He; [|left; eauto].
  apply Hp in He as [He|(x & -> & Hx)%list_elem_of_fmap]; [left; eauto|right]. exists (mk_delivery qr x).
  split; [|by destruct x as [[??]?]]. apply elem_of_app. right. by apply list_elem_of_fmap_2.
Qed.

#[local] Hint Resolve pump_follows : core.

Lemma publish_to_follows t b k o st qr : follows st (publish_to t b k o st qr).
Proof.
  unfold publish_to. destruct (b_qheap st !! qr) as [q|] eqn:Hq; [|done].
  destruct (matches _ k); [|done]. simpl. etrans; [|apply pump_follows].
  eapply (follows_queue _ _ qr q); [exact Hq|by repeat case_match|done|by repeat case_match].
Qed.

Lemma publish_follows t b rk o st : follows st (publish t b rk o st).
Proof.
  unfold publish. case_match; [done|].
  etrans; [|apply follows_foldl; intros; apply publish_to_follows]. by destruct (po_dedupId o); apply follows_same.
Qed.

Lemma deadLetter_follows qr m st : follows st (deadLetter qr m st).
Proof. unfold deadLetter. repeat case_match; try done. apply publish_follows. Qed.

Lemma attach_follows h qr st : follows st (attach h qr st).
Proof.
  unfold attach. destruct (b_qheap st !! qr) as [q|] eqn:Hq; [|done]. etrans; [|apply pump_follows].
  by eapply follows_queue.
Qed.

Lemma replay_one_follows qr st m : follows st (replay_one qr st m).
Proof.
  unfold replay_one. destruct (b_qheap st !! qr) as [q|] eqn:Hq; [|done]. case_match; [|done]. simpl.
  by eapply follows_queue.
Qed.

Lemma new_queue_follows cfg qs bt st :
  follows st (with_index qs bt (with_qheap (b_qheap st ++ [new_BusQueue cfg]) st)).
Proof.
  split; [done|]. simpl. intros qr q e [Hq|[_ Hq]]%lookup_app_Some He; [left; eauto|].
  apply list_lookup_singleton_Some in Hq as [_ <-]. by apply elem_of_nil in He.
Qed.

Lemma subscribe_follows t h o st : follows st (subscribe t h o st).2.
Proof.
  assert (He : ∀ id st, follows st (ensure_queue t id o st).2).
  { intros id s. unfold ensure_queue. destruct (b_queues s !! _); [done|]. simpl. etrans; [apply new_queue_follows|].
    case_match; [|done]. apply follows_foldl. intros. apply replay_one_follows. }
  unfold subscribe. destruct (so_subscriberId o) as [id|].
  - specialize (He id st). destruct (ensure_queue _ _ _ _) as [qr st2]. simpl in *. etrans; [done|apply attach_follows].
  - trans (with_seq (S (b_seq st)) st); [by apply follows_same|]. simpl. set (id := "sub-" +:+ _).
    specialize (He id (with_seq (S (b_seq st)) st)). destruct (ensure_queue _ _ _ _) as [qr st2]. simpl in *.
    etrans; [done|apply attach_follows].
Qed.

Lemma detach_inflight h q e : e ∈ bq_inflight (detach h q) → e ∈ bq_inflight q.
Proof.
  unfold detach. enough (H : ∀ l q1, e ∈ bq_inflight (foldl (return_one h) q1 l) → e ∈ bq_inflight q1) by apply H.
  induction l as [|x l IH]; intros q1; simpl; [done|]. intros He%IH. unfold return_one in He. case_decide; [|done]. by apply elem_of_map_delete in He as [? _].
Qed.

Lemma unsubscribe_follows s st : follows st (unsubscribe s st).
Proof.
  unfold unsubscribe. destruct (b_qheap st !! sub_queue s) as [q|] eqn:Hq; [|done]. etrans; [|apply pump_follows].
  eapply follows_queue; [exact Hq|done|intros e; apply detach_inflight|done].
Qed.

Lemma run_timer_follows t st : follows st (run_timer t st).
Proof.
  destruct t as [qr m|qr m]; simpl.
  - unfold expire. destruct (b_qheap st !! qr) as [q|] eqn:Hq; [|done]. destruct (b_heap st !! m) as [msg|]; [|done].
    assert (H : ∀ q', (∀ e, e ∈ bq_inflight q' → e ∈ bq_inflight q) → follows st (with_queue qr q' st))
      by (intros q' Hi; by eapply follows_queue).
    destruct (index_of m _); [|destruct (map_has _ _)]; simpl; try (etrans; [|apply publish_follows]); apply H; try done; simpl.
    intros e He%elem_of_map_delete. tauto.
  - unfold unpark. destruct (b_qheap st !! qr) as [q|] eqn:Hq; [|done]. etrans; [|apply pump_follows].
    by eapply follows_queue.
Qed.

(** Once the message is taken out, a settlement takes nothing else from its handler. *)
Lemma settle_follows qr m c r q st :
  b_qheap st !! qr = Some q → map_get (bq_inflight q) m = Some c →
  follows (with_queue qr (set_inflight (map_delete (bq_inflight q) m) q) st) (settle qr m c r st).
Proof.
  intros Hq Hg. unfold settle. rewrite Hq, decide_True by done. cbv zeta. set (q1 := set_inflight _ q).
  set (st1 := with_queue qr q1 st).
  assert (Hq1 : b_qheap st1 !! qr = Some q1) by (by apply list_lookup_insert_eq; eapply lookup_lt_Some).
  assert (Hd : follows st1 (pump qr (deadLetter qr m st1))) by (etrans; [apply deadLetter_follows|done]).
  destruct r; [done| |done]. case_decide; [done|].
  destruct (retry_delay _); (etrans; [|apply pump_follows]); [by apply follows_same|by eapply follows_queue].
Qed.

(** A settlement ends the only delivery whose message it takes out. *)
Lemma guarded_tracked i r st : bus_wf st → tracked st → tracked (guarded i r st).
Proof.
  intros Hwf Ht. unfold guarded. destruct (b_deliveries st !! i) as [d|] eqn:Hd; [|done].
  destruct (dl_started d); [|done]. set (st1 := with_delivery i _ st).
  assert (Hk : ∀ qr q e, b_qheap st !! qr = Some q → e ∈ bq_inflight q →
    has_handler st1 qr e ∨ qr = dl_queue d ∧ e = (dl_msg d, dl_consumer d)).
  { intros qr q e Hq He. destruct (Ht _ _ _ Hq He) as (d1 & [j Hj]%list_elem_of_lookup & <- & Hm & Hc & Hs).
    destruct (decide (j = i)) as [->|Hne]; [right; simplify_eq; split; [done|]; destruct e; simpl in *; congruence|].
    left. exists d1. split; [|done]. apply (list_elem_of_lookup_2 _ j). simpl. by rewrite list_lookup_insert_ne. }
  destruct (b_qheap st !! dl_queue d) as [q|] eqn:Hq;
    [destruct (decide (map_get (bq_inflight q) (dl_msg d) = Some (dl_consumer d))) as [Hg|Hg]|].
  - eapply follows_tracked; [by apply settle_follows|].
    intros qr q1 e. simpl. intros [(<- & <- & _)|[Hne Hr]]%list_lookup_insert_Some He.
    + simpl in He. apply elem_of_map_delete in He as [He Hm]. by destruct (Hk _ _ _ Hq He) as [|[_ ->]].
    + by destruct (Hk _ _ _ Hr He) as [|[-> _]].
  - unfold settle. change (b_qheap st1) with (b_qheap st). rewrite Hq, decide_False by done.
    intros qr q1 e Hq1 He. destruct (Hk _ _ _ Hq1 He) as [|[-> ->]]; [done|]. change (b_qheap st1) with (b_qheap st) in Hq1.
    simplify_eq. exfalso. apply Hg, map_get_elem; [|done].
    pose proof (wf_queue_nodup _ Hwf _ _ Hq) as Hn. by apply NoDup_app in Hn as (_ & _ & ?).
  - unfold settle. change (b_qheap st1) with (b_qheap st). rewrite Hq.
    intros qr q1 e Hq1 He. by destruct (Hk _ _ _ Hq1 He) as [|[-> _]]; [|change (b_qheap st1) with (b_qheap st) in Hq1; simplify_eq].
Qed.

Lemma microtask_tracked st : tracked st → tracked (run_microtask st).
Proof.
  intros Ht. unfold run_microtask. destruct (b_microtasks st) as [|i rest]; [done|].
  intros qr q e Hq He. destruct (Ht _ _ _ Hq He) as (d & [j Hj]%list_elem_of_lookup & Hr).
  exists (if decide (i = j) then mark_started d else d). split; [|by case_decide].
  apply (list_elem_of_lookup_2 _ j). simpl. case_decide as Hij.
  - subst. by rewrite list_lookup_alter_eq, Hj.
  - by rewrite list_lookup_alter_ne.
Qed.

Lemma exec_tracked op st : bus_wf st → tracked st → tracked (exec op st).
Proof.
  intros Hwf Ht. destruct op as [| | |i|i r|i| |i|]; simpl.
  - eapply follows_tracked; [apply publish_follows|done].
  - eapply follows_tracked; [apply subscribe_follows|done].
  - eapply follows_tracked; [apply unsubscribe_follows|done].
  - by apply guarded_tracked.
  - by apply guarded_tracked.
  - unfold handler_throws. repeat case_match; try done. by apply guarded_tracked.
  - by apply microtask_tracked.
  - unfold fire_timer. destruct (b_timers st !! i) as [[? t]|]; [|done].
    eapply follows_tracked; [|exact Ht]. etrans; [|apply run_timer_follows]. by apply follows_same.
  - done.
Qed.

Lemma reachable_tracked st : reachable st → tracked st.
Proof.
  induction 1 as [|st op Hst IH]; [|apply exec_tracked; auto with bus]. intros qr q e Hq. by apply lookup_nil_Some in Hq || done.
Qed.

(** ** TTL timers *)

(** The messages a TTL timer is armed for are in [P]. *)
Definition ttl_within (P : MsgRef → Prop) (st : Bus) : Prop :=
  ∀ t m, t ∈ b_timers st → ttl_ref t = Some m → P m.

Definition no_ttl (st : Bus) : Prop := ttl_within (λ _, False) st.

Lemma pump_timers qr st : b_timers (pump qr st) = b_timers st.
Proof. unfold pump. destruct (b_qheap st !! qr); [|done]. by destruct (pumpQ _ _ _) as [[??]?]. Qed.

Lemma publish_plain_timers topic body rk options st :
  po_ttlMs options = None → b_timers (publish topic body rk options st) = b_timers st.
Proof.
  intros Ht. unfold publish. case_match; [done|]. set (st1 := log_publish _ _ _ _ _).
  assert (E : b_timers st = b_timers st1) by (unfold st1; by destruct (po_dedupId options)). rewrite E.
  generalize (default [] (b_byTopic st1 !! topic)). clearbody st1. clear E. revert st1.
  intros s l. revert s. induction l as [|qr l IH]; intros s; [done|]. simpl. rewrite IH. unfold publish_to.
  destruct (b_qheap s !! qr); [|done]. destruct (matches _ _); [|done]. rewrite Ht. simpl. by rewrite pump_timers.
Qed.

Lemma deadLetter_timers qr m st : b_timers (deadLetter qr m st) = b_timers st.
Proof. unfold deadLetter. repeat case_match; try done. by apply publish_plain_timers. Qed.

Lemma subscribe_timers t h o st : b_timers (subscribe t h o st).2 = b_timers st.
Proof.
  assert (He : ∀ id s, b_timers (ensure_queue t id o s).2 = b_timers s).
  { intros id s. unfold ensure_queue. destruct (b_queues s !! _); [done|]. simpl. case_match; [|done].
    enough (Hf : ∀ qr l s1, b_timers (foldl (replay_one qr) s1 l) = b_timers s1) by by rewrite Hf.
    intros qr l. induction l as [|m l IH]; intros s1; [done|]. simpl. rewrite IH. unfold replay_one.
    destruct (b_qheap s1 !! qr); [by destruct (matches _ _)|done]. }
  assert (Ha : ∀ qr s, b_timers (attach h qr s) = b_timers s).
  { intros qr s. unfold attach. destruct (b_qheap s !! qr); [|done]. by rewrite pump_timers. }
  unfold subscribe. destruct (so_subscriberId o) as [id|]; simpl.
  - specialize (He id st). destruct (ensure_queue _ _ _ _) as [qr st2]. simpl in *. by rewrite Ha.
  - set (id := "sub-" +:+ _). specialize (He id (with_seq (S (b_seq st)) st)).
    destruct (ensure_queue _ _ _ _) as [qr st2]. simpl in *. by rewrite Ha.
Qed.

Section ttl_within.
Context (P : MsgRef → Prop).

Lemma ttl_within_timers st st' : b_timers st' = b_timers st → ttl_within P st → ttl_within P st'.
Proof. unfold ttl_within. by intros ->. Qed.

Lemma settle_ttl qr m c r st : ttl_within P st → ttl_within P (settle qr m c r st).
Proof.
  intros Hn. unfold settle. destruct (b_qheap st !! qr); [|done]. case_decide; [|done]. simpl.
  unfold ttl_within. repeat case_match; rewrite pump_timers, ?deadLetter_timers; try done.
  intros t x [Ht|Ht%list_elem_of_singleton]%elem_of_app; [by apply Hn|by subst].
Qed.

Lemma guarded_ttl i r st : ttl_within P st → ttl_within P (guarded i r st).
Proof. intros Hn. unfold guarded. repeat case_match; try done. by apply settle_ttl. Qed.

Lemma fire_timer_ttl i st : ttl_within P st → ttl_within P (fire_timer i st).
Proof.
  intros Hn. unfold fire_timer. destruct (b_timers st !! i) as [[d t]|]; [|done].
  enough (E : b_timers (run_timer t (with_timers (delete i (b_timers st)) st)) = delete i (b_timers st)).
  { intros x m. rewrite E. intros Hx%elem_of_list_delete. by apply Hn. }
  destruct t as [qr m|qr m]; simpl.
  - unfold expire. simpl. destruct (b_qheap st !! qr) as [q|]; [|done]. destruct (b_heap st !! m); [|done].
    by destruct (index_of m _); [|destruct (map_has _ _)]; simpl; rewrite ?publish_plain_timers by done.
  - unfold unpark. case_match; [|done]. by rewrite pump_timers.
Qed.

(** A publication arms timers for new messages only. *)
Lemma publish_to_ttl t b k o st qr :
  (∀ m, length (b_heap st) ≤ m → P m) → ttl_within P st → ttl_within P (publish_to t b k o st qr).
Proof.
  intros Hnew Hn. unfold publish_to. destruct (b_qheap st !! qr); [|done]. destruct (matches _ _); [|done]. simpl.
  unfold ttl_within. rewrite pump_timers. destruct (po_ttlMs o) as [ttl|]; [|done]. case_decide; [|done]. simpl.
  intros x m [Hx|Hx%list_elem_of_singleton]%elem_of_app; [by apply Hn|]. subst. intros [= <-]. by apply Hnew.
Qed.

Lemma publish_ttl t b rk o st :
  (∀ m, length (b_heap st) ≤ m → P m) → ttl_within P st → ttl_within P (publish t b rk o st).
Proof.
  intros Hnew Hn. unfold publish. case_match; [done|]. set (st1 := log_publish _ _ _ _ _).
  assert (H1 : ttl_within P st1) by (unfold st1; by destruct (po_dedupId o)).
  assert (H2 : ∀ m, length (b_heap st1) ≤ m → P m) by (unfold st1; by destruct (po_dedupId o)).
  generalize (default [] (b_byTopic st1 !! t)). clearbody st1. clear Hnew Hn. revert st1 H1 H2.
  intros s H1 H2 l. revert s H1 H2. induction l as [|qr l IH]; intros s H1 H2; [done|].
  apply IH; [by apply publish_to_ttl|]. intros m Hm. apply H2.
  pose proof (gr_heap _ _ (publish_to_grows t b (default t rk) o s qr)). lia.
Qed.

Lemma exec_ttl op st :
  (∀ t b rk o, op = OpPublish t b rk o → po_ttlMs o = None ∨ ∀ m, length (b_heap st) ≤ m → P m) →
  ttl_within P st → ttl_within P (exec op st).
Proof.
  intros Hp Hn. destruct op as [t b rk o|t h o|s|i|i r|i| |i|]; simpl.
  - destruct (Hp t b rk o eq_refl); [by eapply ttl_within_timers, Hn; apply publish_plain_timers|by apply publish_ttl].
  - by eapply ttl_within_timers, Hn; apply subscribe_timers.
  - eapply ttl_within_timers, Hn. unfold unsubscribe. case_match; [|done]. by rewrite pump_timers.
  - by apply guarded_ttl.
  - by apply guarded_ttl.
  - unfold handler_throws. repeat case_match; try done. by apply guarded_ttl.
  - unfold run_microtask. by case_match.
  - by apply fire_timer_ttl.
  - done.
Qed.
End ttl_within.

(** ** Service *)

(** What happens to a bus the application no longer calls: a microtask runs, a handler
    that was called and can still do something settles or throws, a timer fires. *)
Inductive service_op (st : Bus) : BusOp → Prop :=
  | serve_microtask : b_microtasks st ≠ [] → service_op st OpMicrotask
  | serve_ack i : effective st i → service_op st (OpAck i)
  | serve_nack i requeue : effective st i → service_op st (OpNack i requeue)
  | serve_throw i d : b_deliveries st !! i = Some d → dl_started d = true → dl_settled d = false →
      service_op st (OpThrow i)
  | serve_timer i : i < length (b_timers st) → service_op st (OpTimer i).

Inductive service (st : Bus) : Bus → Prop :=
  | serve op : service_op st op → service st (exec op st).

Lemma service_reachable st st' : rtc service st st' → reachable st → reachable st'.
Proof. induction 1 as [|? ? ? [op _] _ IH]; [done|]. intros Hst. by apply IH, reachable_step. Qed.

(** At most this many service steps are left. *)
Definition work (st : Bus) : nat :=
  cost (length (b_qheap st)) (S (max_over (λ cfg, String.length (qc_topic cfg)) (configs st)))
    (max_over (λ cfg, Z.to_nat (attempt_limit cfg)) (configs st)) st.

Lemma work_bounds st :
  within_bounds (length (b_qheap st)) (S (max_over (λ cfg, String.length (qc_topic cfg)) (configs st)))
    (max_over (λ cfg, Z.to_nat (attempt_limit cfg)) (configs st)) st.
Proof.
  split; [done|]. intros qr cfg Hc. split.
  - apply Nat.lt_succ_r. by apply (max_over_le (λ cfg, String.length (qc_topic cfg)) _ qr).
  - by apply (max_over_le (λ cfg, Z.to_nat (attempt_limit cfg)) _ qr).
Qed.

Lemma service_cost K D L st st' :
  reachable st → within_bounds K D L st → service st st' → cost K D L st' < cost K D L st ∧ within_bounds K D L st'.
Proof.
  intros Hst Hb [op Hop]. pose proof (reachable_wf _ Hst) as Hwf. pose proof (reachable_index_wf _ Hst) as Hi.
  destruct Hop as [Hm|i He|i r He|i d Hd Hs Hn|i Ht]; simpl.
  - split; [by apply microtask_cost|]. eapply same_index_bounds; [|exact Hb]. unfold run_microtask. by destruct (b_microtasks st).
  - split; [by apply guarded_cost|]. eapply same_index_bounds; [apply guarded_index|done].
  - split; [by apply guarded_cost|]. eapply same_index_bounds; [apply guarded_index|done].
  - unfold handler_throws. rewrite Hd, Hn. split; [|by eapply same_index_bounds; [apply guarded_index|done]].
    apply guarded_cost; try done. exists d. auto.
  - split; [by apply fire_timer_cost|]. unfold fire_timer. destruct (b_timers st !! i) as [[? t]|]; [|done].
    eapply same_index_bounds; [apply run_timer_index|by destruct Hb].
Qed.

Lemma service_bound K D L n st st' :
  reachable st → within_bounds K D L st → nsteps service n st st' → n + cost K D L st' ≤ cost K D L st.
Proof.
  intros Hst Hb H. revert Hst Hb. induction H as [|n st st1 st' Hs _ IH]; intros Hst Hb; [lia|].
  destruct (service_cost _ _ _ _ _ Hst Hb Hs) as [Hc Hb'].
  specialize (IH ltac:(by eapply service_reachable; [apply rtc_once|]) Hb'). lia.
Qed.

(** ** At rest *)

(** Nothing is left to do by itself. *)
Definition at_rest (st : Bus) : Prop := ∀ st', ¬ service st st'.

(** Every handler was called and has settled, nothing is in flight or waits for a timer. *)
Record drained (st : Bus) : Prop := {
  dr_microtasks : b_microtasks st = [];
  dr_timers : b_timers st = [];
  dr_deliveries : ∀ i d, b_deliveries st !! i = Some d → dl_started d = true ∧ dl_settled d = true;
  dr_inflight : ∀ qr q, b_qheap st !! qr = Some q → bq_inflight q = []
}.

Lemma at_rest_drained st : reachable st → at_rest st → drained st.
Proof.
  intros Hst Hr. pose proof (reachable_handles _ Hst) as [W1 _ _ _].
  assert (Hm : b_microtasks st = []) by (destruct (b_microtasks st) eqn:E; [done|]; by destruct (Hr _ (serve _ _ (serve_microtask _ ltac:(by rewrite E))))).
  assert (Hd : ∀ i d, b_deliveries st !! i = Some d → dl_started d = true ∧ dl_settled d = true).
  { intros i d Hd. assert (Hs : dl_started d = true).
    { destruct (W1 _ _ Hd) as (_ & _ & H). rewrite Hm in H. apply not_false_is_true. intros []%H%elem_of_nil. }
    split; [done|]. apply not_false_is_true. intros Hn. apply (Hr _ (serve _ _ (serve_throw _ _ _ Hd Hs Hn))). }
  split; [done| |done|].
  - destruct (b_timers st) eqn:E; [done|]. destruct (Hr _ (serve _ _ (serve_timer st 0 ltac:(rewrite E; simpl; lia)))).
  - intros qr q Hq. destruct (bq_inflight q) as [|e l] eqn:E; [done|].
    destruct (reachable_tracked _ Hst qr q e Hq ltac:(rewrite E; by left)) as (d & [i Hi]%list_elem_of_lookup & _ & _ & _ & Hs).
    apply Hd in Hi as [_ ?]. congruence.
Qed.

(** With every handler settled, nothing is in flight that a timer could expire. *)
Lemma settled_no_expiry st op :
  reachable st → (∀ i d, b_deliveries st !! i = Some d → dl_settled d = true) → ¬ inflight_expiry st op.
Proof.
  intros Hst Hall (i & ttl & qr & m & q & _ & _ & Hq & Hm). unfold map_has in Hm. apply bool_decide_eq_true in Hm as [c Hc].
  apply map_get_Some_elem in Hc. destruct (reachable_tracked _ Hst _ _ _ Hq Hc) as (d & [j Hj]%list_elem_of_lookup & _ & _ & _ & Hs).
  apply Hall in Hj. congruence.
Qed.

(** Something is left to do, which expires nothing a handler holds, or nothing is. *)
Lemma service_or_rest st :
  reachable st → (∃ op, service_op st op ∧ ¬ inflight_expiry st op) ∨ at_rest st.
Proof.
  intros Hst. destruct (decide (b_microtasks st = [])) as [Hm|Hm].
  2:{ left. exists OpMicrotask. split; [by apply serve_microtask|]. by intros (? & ? & ? & ? & ? & [=] & _). }
  destruct (decide (Exists (λ d, dl_settled d = false) (b_deliveries st))) as [He|He].
  { apply Exists_exists in He as (d & [i Hi]%list_elem_of_lookup & Hs). left. exists (OpThrow i).
    split; [eapply serve_throw; [exact Hi| |done]|by intros (? & ? & ? & ? & ? & [=] & _)].
    destruct (reachable_handles _ Hst) as [W1 _ _ _]. destruct (W1 _ _ Hi) as (_ & _ & H). rewrite Hm in H.
    apply not_false_is_true. intros []%H%elem_of_nil. }
  assert (Hall : ∀ i d, b_deliveries st !! i = Some d → dl_settled d = true).
  { intros i d Hi. apply not_false_is_true. intros Hs. apply He, Exists_exists. exists d. split; [by eapply list_elem_of_lookup_2|done]. }
  destruct (b_timers st) as [|t ts] eqn:Ht.
  2:{ left. exists (OpTimer 0). split; [apply serve_timer; rewrite Ht; simpl; lia|by apply settled_no_expiry]. }
  right. assert (Heff : ∀ i, ¬ effective st i).
  { intros i (d & Hd & _ & [Hs|(q & Hq & Hg)]); [by rewrite (Hall _ _ Hd) in Hs|].
    apply map_get_Some_elem in Hg. destruct (reachable_tracked _ Hst _ _ _ Hq Hg) as (d' & [j Hj]%list_elem_of_lookup & _ & _ & _ & Hs).
    by rewrite (Hall _ _ Hj) in Hs. }
  intros st' [op Hop]. inversion Hop as [|i Hi|i r Hi|i d Hi Hs Hn|i Hi]; subst; [done|by apply (Heff i)..| |].
  - apply Hall in Hi. congruence.
  - rewrite Ht in Hi. simpl in Hi. lia.
Qed.

(** A waiting message of a queue at rest has nobody to go to. *)
Lemma quiescent_idle h q : quiescent h q → bq_inflight q = [] → bq_pending q = [] ∨ bq_consumers q = [].
Proof.
  intros Hq Hi. destruct (bq_pending q) as [|m l] eqn:Hp; [by left|]. right.
  specialize (Hq m ltac:(rewrite Hp; by left)). revert Hq. unfold undeliverable, blocked, live_owner, busy. rewrite Hi. simpl.
  repeat case_match; intros Hq; try (by apply elem_of_nil in Hq); try (destruct (bq_consumers q) as [|c cs]; [done|];
    specialize (Hq c ltac:(by left)); by apply elem_of_nil in Hq).
  by destruct Hq.
Qed.

Lemma no_ttl_inflight st op : no_ttl st → ¬ inflight_expiry st op.
Proof. intros Hn (i & ttl & qr & m & q & _ & Ht & _). apply list_elem_of_lookup_2 in Ht. by apply (Hn _ m) in Ht. Qed.

Lemma service_quiet st st' :
  reachable st → service st st' → quiet st → no_ttl st → quiet st' ∧ no_ttl st'.
Proof.
  intros Hst [op Hop] Hq Hn. split.
  - apply exec_quiet; [auto with bus|done|by apply no_ttl_inflight].
  - apply exec_ttl; [|done]. intros t b rk o ->. by inversion Hop.
Qed.

Lemma run_service_quiet st st' :
  rtc service st st' → reachable st → quiet st → no_ttl st → quiet st'.
Proof.
  induction 1 as [|a b c Hs _ IH]; [done|]. intros Hst Hq Hn. destruct (service_quiet _ _ Hst Hs Hq Hn).
  apply IH; [|done..]. eapply service_reachable; [by apply rtc_once|done].
Qed.

(** Service can always be carried on to its end, without an expiry in flight. *)
Lemma service_completes_quietly st :
  reachable st → ∃ ops, no_inflight_expiry st ops ∧ rtc service st (run ops st) ∧ at_rest (run ops st).
Proof.
  intros Hst. enough (H : ∀ K D L n st, cost K D L st < n → reachable st → within_bounds K D L st →
      ∃ ops, no_inflight_expiry st ops ∧ rtc service st (run ops st) ∧ at_rest (run ops st))
    by apply (H _ _ _ (S (work st)) st (Nat.lt_succ_diag_r _) Hst (work_bounds st)).
  clear. intros K D L. induction n as [|n IH]; intros s Hc Hs Hb; [lia|].
  destruct (service_or_rest s Hs) as [(op & Hop & Hno)|]; [|by exists []].
  destruct (service_cost _ _ _ _ _ Hs Hb (serve s op Hop)) as [Hlt Hb1].
  destruct (IH (exec op s) ltac:(lia)) as (ops & Hn & Hr & Hrest); [by apply reachable_step|done|].
  exists (op :: ops). split; [done|]. split; [|done]. eapply rtc_l; [by apply serve|done].
Qed.

Lemma service_completes st : reachable st → ∃ st', rtc service st st' ∧ at_rest st'.
Proof. intros (ops & _ & ? & ?)%service_completes_quietly. by eexists. Qed.

(** A bus that hands out, dead-letters and retries: two consumers of a topic whose
    messages are tried twice, 50 ms apart, and nobody at the dead-letter address. *)
Definition retry_options (id : string) : SubscribeOptions := {|
  so_kind := None; so_routingKey := None; so_subscriberId := Some id;
  so_deadLetter := Some true; so_maxDeliveries := Some 2%Z; so_retryDelayMs := Some 50%Z;
  so_partitionByGroup := None; so_singleActiveConsumer := None; so_streamReplay := None;
  so_transient := None; so_priorityQueue := None; so_ttlMs := None |}.

Definition busy_ops : list BusOp :=
  [OpSubscribe "t" 1 (retry_options "w"); OpSubscribe "t" 2 (retry_options "w");
   OpSubscribe "t.dlq" 3 (retry_options "d");
   OpPublish "t" "a" None no_publish_options; OpPublish "t" "b" None no_publish_options;
   OpPublish "t" "c" None no_publish_options].

Definition busy_bus : Bus := run busy_ops new_InMemoryBus.

Lemma busy_bus_reachable : reachable busy_bus.
Proof. apply run_reachable, reachable_init. Qed.

Lemma busy_bus_quiet : quiet busy_bus.
Proof.
  apply run_quiet; [apply new_bus_wf|apply new_bus_quiet|].
  repeat split; intros (i & ttl & qr & m & q & Hop & _); discriminate Hop.
Qed.

(** The first message's handler runs and throws. *)
Lemma busy_bus_served : nsteps service 2 busy_bus (run [OpMicrotask; OpThrow 0] busy_bus).
Proof.
  eapply nsteps_l; [apply (serve _ OpMicrotask), serve_microtask; by_compute|].
  eapply nsteps_l; [|apply nsteps_O]. apply (serve _ (OpThrow 0)).
  eapply serve_throw; vm_compute; reflexivity.
Qed.

(** ** Properties *)

(** C7: termination of the bus's own activity.  When the application stops publishing
    and subscribing, every sequence of microtasks, settlements of handlers (acks, nacks,
    throws, in any order and with any answer) and timers firing in any order is finite:
    from a reachable state it has at most [work st] steps, a number computed from the
    queues' configurations, their messages' attempts left and the armed timers.  Retries
    and dead letters cannot keep the bus busy for ever: a message is retried at most its
    queue's limit, and a dead letter is published under a longer address. *)
Theorem service_terminates (st st' : Bus) (n : nat) :
  reachable st → nsteps service n st st' → n ≤ work st.
Proof. intros Hst H. pose proof (service_bound _ _ _ _ _ _ Hst (work_bounds st) H). unfold work. lia. Qed.

Lemma service_terminates_witness : 2 ≤ work busy_bus.
Proof. apply (service_terminates _ _ 2 busy_bus_reachable busy_bus_served). Defined.

(** C8: the bus comes to rest, and rest is completion.  From every reachable state some
    finite service leads to a state with nothing left to do; and in every such state it
    can be led to, every handler has been called and has settled, no message is in flight
    or parked on a timer, no timer is armed; and, where the bus was quiet and carried no
    TTL, no queue that has a consumer has a message waiting. *)
Theorem service_drains (st : Bus) :
  reachable st →
  (∃ st', rtc service st st' ∧ at_rest st') ∧
  ∀ st', rtc service st st' → at_rest st' →
    drained st' ∧
    (quiet st → no_ttl st → ∀ qr q, b_qheap st' !! qr = Some q → bq_pending q = [] ∨ bq_consumers q = []).
Proof.
  intros Hst. split.
  - by apply service_completes.
  - intros st' Hs Hr. pose proof (at_rest_drained st' (service_reachable _ _ Hs Hst) Hr) as Hd.
    split; [done|]. intros Hq Hn qr q Hqr. eapply quiescent_idle; [|by apply (dr_inflight _ Hd qr)].
    by apply (run_service_quiet _ _ Hs Hst Hq Hn _ _ Hqr).
Qed.

Lemma service_drains_witness :
  (∃ st', rtc service busy_bus st' ∧ at_rest st') ∧
  ∀ st', rtc service busy_bus st' → at_rest st' →
    drained st' ∧ ∀ qr q, b_qheap st' !! qr = Some q → bq_pending q = [] ∨ bq_consumers q = [].
Proof.
  destruct (service_drains busy_bus busy_bus_reachable) as [Hex Hall]. split; [exact Hex|].
  intros st' Hs Hr. destruct (Hall st' Hs Hr) as [Hd Hp]. split; [exact Hd|].
  apply Hp; [exact busy_bus_quiet|]. intros t m Ht. by apply elem_of_nil in Ht.
Defined.
