(* ===== verification/BusGuarantee.v ===== *)
(** The promise of the in-memory bus, end to end: what is published is handled at least
    once, with its contents, in every matching queue, or waits there for a consumer,
    whatever happens to the bus in between.

    It puts together the fan-out of a publication (BusDelivery.v), the handlers of held
    messages and the completion of service (BusService.v), and a third invariant of
    single queues (BusLocal.v): a delivery carries the contents of its message. *)

From S2P Require Import Prelude Abstractions TopicMatch BusQueue InMemoryBus BusInvariants BusSafety.
From S2P Require Import BusProgress BusDelivery BusStore BusLocal BusCost BusService.

(** ** A delivery carries its message *)

(** The fields of a message the handler sees, but for the attempt count. *)
Definition carries (m : BusMessage) (im : IncomingMessage) : Prop :=
  im_id im = bm_id m ∧ im_destination im = bm_topic m ∧ im_body im = bm_body m ∧
  im_headers im = default ∅ (bm_headers m) ∧ im_replyTo im = bm_replyTo m ∧
  im_correlationId im = bm_correlationId m ∧ im_groupId im = bm_groupId m ∧ im_priority im = bm_priority m.

Definition genuine (h : Heap) (_ : BusQueue) (l : list (MsgRef * IncomingMessage)) : Prop :=
  ∀ x, x ∈ l → ∃ m, h !! x.1 = Some m ∧ carries m x.2.

Lemma carries_reset m m' im : reset_count m' = reset_count m → carries m im → carries m' im.
Proof.
  unfold carries, reset_count. destruct m, m'. simpl. intros H. injection H as -> -> -> -> -> -> -> -> -> -> ->. done.
Qed.

Lemma genuine_heap_le h h' q q' l : heap_le h h' → genuine h q l → genuine h' q' l.
Proof.
  intros Hle Hg x (m & Hm & Hc)%Hg. destruct (Hle _ _ Hm) as (m' & Hm' & E). exists m'. split; [done|].
  by eapply carries_reset.
Qed.

Lemma genuine_law : queue_law genuine (λ _ _ _, True).
Proof.
  split; try done.
  - intros h h' q l Hle _ _. by apply genuine_heap_le.
  - intros h cfg x Hx. by apply elem_of_nil in Hx.
  - intros h q l Hok Hnd Ha Hg. pose proof (pumpQ_spec (length (bq_pending q)) h q Hok Hnd Ha) as Hs.
    destruct (pumpQ _ _ _) as [[h' q'] ds]. destruct Hs as [[_ _ Hle _ _ Hb _ _ _] _].
    intros x [Hx|(y & -> & Hy)%list_elem_of_fmap]%elem_of_app; [by eapply genuine_heap_le|].
    destruct y as [[m c] im]. destruct (Hb _ _ _ Hy) as (bm & _ & Hm & ->). exists (bump bm). by split_and!.
  - intros h q l m _ _. apply genuine_heap_le. auto with bus.
Qed.

Lemma reachable_genuine st d :
  reachable st → d ∈ b_deliveries st → ∃ m, b_heap st !! dl_msg d = Some m ∧ carries m (dl_incoming d).
Proof.
  intros Hst Hd. assert (Hl : lawful genuine (λ _ _ _, True) st).
  { clear Hd. induction Hst as [|st op _ IH]; [apply new_lawful|].
    apply (exec_keeps _ _ genuine_law); [|done]. intros _ _ h q l handler _ Hg. exact Hg. }
  destruct (lookup_lt_is_Some_2 _ _ (lw_deliveries _ _ _ Hl d Hd)) as [q Hq].
  apply (lw_queues _ _ _ Hl _ _ Hq (dl_msg d, dl_incoming d)). by apply elem_of_handed.
Qed.

(** ** A waiting message stays until it is handed out *)

Definition waits_or_handed (st : Bus) (qr : QRef) (m : MsgRef) : Prop :=
  (∃ q, b_qheap st !! qr = Some q ∧ m ∈ bq_pending q ∧ m < length (b_heap st)) ∨
  (∃ d, d ∈ b_deliveries st ∧ dl_queue d = qr ∧ dl_msg d = m).

(** A step that does not take [m] away while it waits. *)
Definition retains (m : MsgRef) (st st' : Bus) : Prop :=
  ∀ qr, waits_or_handed st qr m → waits_or_handed st' qr m.

#[export] Instance retains_preorder m : PreOrder (retains m).
Proof. split; [by intros st qr|]. intros a b c H1 H2 qr H. by apply H2, H1. Qed.

Lemma grows_deliveries st st' d : grows st st' → d ∈ b_deliveries st → d ∈ b_deliveries st'.
Proof. intros [_ _ (ds & -> & _) _] Hd. apply elem_of_app. by left. Qed.

Lemma pumpQ_moves fuel h q :
  let '(_, q', ds) := pumpQ fuel h q in
  ∀ m, m ∈ bq_pending q → h !! m ≠ None → m ∈ bq_pending q' ∨ m ∈ ds.*1.*1.
Proof.
  revert h q. induction fuel as [|fuel IH]; intros h q; [by left|]. rewrite pumpQ_S.
  destruct (bq_pending q) as [|m0 ms] eqn:Hp; [intros m Hm; by apply elem_of_nil in Hm|].
  destruct (bq_consumers q) as [|c0 cs] eqn:Hc; [left; by rewrite ?Hp|].
  pose proof (pickDelivery_spec h q ltac:(by rewrite Hc) ltac:(by rewrite Hp)) as Hs. rewrite <- Hp.
  destruct (pickDelivery h q) as [[[m c]|] q1].
  - destruct Hs as [_ Hpk]. destruct (pk_pending _ _ _ _ _ Hpk) as (pre & post & E & E').
    destruct (h !! m) as [bm|] eqn:Hm.
    + specialize (IH (<[m := bump bm]> h) (hand_out m c q1)). destruct (pumpQ _ _ _) as [[h' q'] ds].
      intros x Hx Hal. rewrite !fmap_cons. destruct (decide (x = m)) as [->|Hne]; [right; by left|].
      destruct (IH x) as [|]; [|by rewrite list_lookup_insert_ne|by left|right; by right].
      simpl. rewrite E'. rewrite E in Hx. set_solver.
    + intros x Hx Hal. left. rewrite E'. rewrite E in Hx. assert (x ≠ m) by congruence. set_solver.
  - destruct Hs as [_ [E _]]. rewrite E. auto.
Qed.

Lemma detach_pending h q m : m ∈ bq_pending q → m ∈ bq_pending (detach h q).
Proof.
  intros Hm. unfold detach. enough (H : ∀ l q1, m ∈ bq_pending q1 → m ∈ bq_pending (foldl (return_one h) q1 l)) by by apply H.
  clear. intros l. induction l as [|e l IH]; intros q1 Hm; [done|]. simpl. apply IH. unfold return_one. case_decide; [by right|done].
Qed.

Section retains.
Context (x : MsgRef).

Lemma retains_queue st st' qr q q' :
  grows st st' → b_qheap st !! qr = Some q → b_qheap st' = <[qr := q']> (b_qheap st) →
  (x ∈ bq_pending q → x < length (b_heap st) →
    x ∈ bq_pending q' ∨ ∃ d, d ∈ b_deliveries st' ∧ dl_queue d = qr ∧ dl_msg d = x) → retains x st st'.
Proof.
  intros Hg Hq Hqs Hp r. pose proof (gr_heap _ _ Hg) as Hl.
  intros [(q1 & Hr & Hm & Hlt)|(d & Hin & Hr)]; [|right; exists d; eauto using grows_deliveries].
  destruct (decide (r = qr)) as [->|Hne].
  - simplify_eq. destruct (Hp Hm Hlt) as [|]; [left|by right]. exists q'. split; [|split; [done|lia]].
    rewrite Hqs. apply list_lookup_insert_eq. by eapply lookup_lt_Some.
  - left. exists q1. rewrite Hqs, list_lookup_insert_ne by done. split_and!; [done..|lia].
Qed.

Lemma retains_same st st' :
  b_qheap st' = b_qheap st → length (b_heap st) ≤ length (b_heap st') →
  (∀ d, d ∈ b_deliveries st → ∃ d', d' ∈ b_deliveries st' ∧ dl_queue d' = dl_queue d ∧ dl_msg d' = dl_msg d) →
  retains x st st'.
Proof.
  intros Hq Hl Hd qr [(q & Hr & Hm & Hlt)|(d & Hin & <- & E)].
  - left. exists q. rewrite Hq. split_and!; [done..|lia].
  - right. destruct (Hd d Hin) as (d' & ? & ? & E'). exists d'. by rewrite E'.
Qed.

Lemma retains_fields st st' :
  b_qheap st' = b_qheap st → b_heap st' = b_heap st → b_deliveries st' = b_deliveries st → retains x st st'.
Proof. intros Hq Hh Hd. apply retains_same; [done|by rewrite Hh|]. rewrite Hd. intros d Hin. by exists d. Qed.

Lemma retains_foldl {A} (f : Bus → A → Bus) l st :
  (∀ st a, retains x st (f st a)) → retains x st (foldl f st l).
Proof.
  intros Hf. revert st. induction l as [|a l IH]; intros st; simpl; [done|]. etrans; [apply Hf|apply IH].
Qed.

Lemma pump_retains qr st : retains x st (pump qr st).
Proof.
  destruct (b_qheap st !! qr) as [q|] eqn:Hq; [|unfold pump; by rewrite Hq].
  pose proof (pump_grows qr st) as Hg. unfold pump in *. rewrite Hq in *.
  pose proof (pumpQ_moves (length (bq_pending q)) (b_heap st) q) as Hp.
  destruct (pumpQ _ _ _) as [[h q'] ds]. eapply retains_queue; [exact Hg|exact Hq|done|].
  intros Hm [bm Hbm]%lookup_lt_is_Some. simpl.
  destruct (Hp x Hm) as [|Hin]; [congruence|by left|right].
  apply list_elem_of_fmap in Hin as (z & E & Hin). apply list_elem_of_fmap in Hin as (y & -> & Hin).
  exists (mk_delivery qr y). split; [|by rewrite E]. apply elem_of_app. right. by apply list_elem_of_fmap_2.
Qed.

Lemma append_retains qr q q' st :
  b_qheap st !! qr = Some q → (x ∈ bq_pending q → x ∈ bq_pending q') → retains x st (with_queue qr q' st).
Proof. intros Hq Hp. eapply retains_queue; [same_store|exact Hq|done|]. auto. Qed.

Lemma publish_to_retains t b k o st qr : retains x st (publish_to t b k o st qr).
Proof.
  unfold publish_to. destruct (b_qheap st !! qr) as [q|] eqn:Hq; [|done].
  destruct (matches _ k); [|done]. simpl. etrans; [|apply pump_retains].
  set (st1 := with_queue _ _ _). trans st1; [|by apply retains_fields; repeat case_match].
  eapply (retains_queue _ _ qr q); [unfold st1; same_store|exact Hq|done|].
  intros Hm _. left. apply elem_of_app. by left.
Qed.

Lemma publish_retains t b rk o st : retains x st (publish t b rk o st).
Proof.
  unfold publish. case_match; [done|].
  etrans; [|apply retains_foldl; intros; apply publish_to_retains]. by destruct (po_dedupId o); apply retains_fields.
Qed.

Lemma deadLetter_retains qr m st : retains x st (deadLetter qr m st).
Proof. unfold deadLetter. repeat case_match; try done. apply publish_retains. Qed.

Lemma settle_retains qr m c r st : retains x st (settle qr m c r st).
Proof.
  unfold settle. destruct (b_qheap st !! qr) as [q|] eqn:Hq; [|done]. case_decide; [|done]. cbv zeta.
  set (q1 := set_inflight _ q). set (st1 := with_queue qr q1 st).
  trans st1; [by eapply append_retains|].
  assert (Hq1 : b_qheap st1 !! qr = Some q1) by (by apply list_lookup_insert_eq; eapply lookup_lt_Some).
  assert (Hd : retains x st1 (pump qr (deadLetter qr m st1))) by (etrans; [apply deadLetter_retains|apply pump_retains]).
  destruct r; [apply pump_retains| |done]. case_decide; [done|].
  destruct (retry_delay _); (etrans; [|apply pump_retains]); [by apply retains_fields|].
  eapply append_retains; [exact Hq1|]. intros Hx. apply elem_of_app. by left.
Qed.

Lemma delivery_retains i d d' ms st :
  b_deliveries st !! i = Some d → dl_queue d' = dl_queue d → dl_msg d' = dl_msg d →
  retains x st (with_deliveries (<[i := d']> (b_deliveries st)) ms st).
Proof.
  intros Hd Hq Hm. apply retains_same; [done..|]. intros e [j Hj]%list_elem_of_lookup.
  destruct (decide (j = i)) as [->|Hne]; simplify_eq.
  - exists d'. split; [|done]. apply (list_elem_of_lookup_2 _ i). apply list_lookup_insert_eq. by eapply lookup_lt_Some.
  - exists e. split; [|done]. apply (list_elem_of_lookup_2 _ j). simpl. by rewrite list_lookup_insert_ne.
Qed.

Lemma guarded_retains i r st : retains x st (guarded i r st).
Proof.
  unfold guarded. destruct (b_deliveries st !! i) as [d|] eqn:Hd; [|done]. destruct (dl_started d); [|done].
  etrans; [|apply settle_retains]. by eapply delivery_retains.
Qed.

Lemma replay_one_retains qr st m : retains x st (replay_one qr st m).
Proof.
  unfold replay_one. destruct (b_qheap st !! qr) as [q|] eqn:Hq; [|done]. case_match; [|done]. simpl.
  eapply retains_queue; [same_store|exact Hq|done|]. intros Hx _. left. apply elem_of_app. by left.
Qed.

Lemma ensure_queue_retains t id o st : retains x st (ensure_queue t id o st).2.
Proof.
  unfold ensure_queue. destruct (b_queues st !! _); [done|]. simpl. set (st1 := with_index _ _ _).
  trans st1; [|case_match; [apply retains_foldl; intros; apply replay_one_retains|done]].
  intros qr [(q & Hq & Hr)|Hd]; [left|by right]. exists q. split; [|done]. simpl. by apply lookup_app_l_Some.
Qed.

Lemma attach_retains h qr st : retains x st (attach h qr st).
Proof.
  unfold attach. destruct (b_qheap st !! qr) as [q|] eqn:Hq; [|done].
  etrans; [|apply pump_retains]. by eapply append_retains.
Qed.

Lemma subscribe_retains t h o st : retains x st (subscribe t h o st).2.
Proof.
  unfold subscribe. destruct (so_subscriberId o) as [id|]; simpl.
  - pose proof (ensure_queue_retains t id o st) as He. destruct (ensure_queue _ _ _ _) as [qr st2]. simpl in *.
    etrans; [exact He|apply attach_retains].
  - set (id := "sub-" +:+ _). pose proof (ensure_queue_retains t id o (with_seq (S (b_seq st)) st)) as He.
    destruct (ensure_queue _ _ _ _) as [qr st2]. simpl in *.
    trans (with_seq (S (b_seq st)) st); [by apply retains_fields|]. etrans; [exact He|apply attach_retains].
Qed.

Lemma unsubscribe_retains s st : retains x st (unsubscribe s st).
Proof.
  unfold unsubscribe. destruct (b_qheap st !! sub_queue s) as [q|] eqn:Hq; [|done].
  etrans; [|apply pump_retains]. eapply append_retains; [exact Hq|apply detach_pending].
Qed.

(** A TTL timer takes its own message only. *)
Lemma expire_retains qr m st : m ≠ x → retains x st (expire qr m st).
Proof.
  intros Hne. unfold expire. destruct (b_qheap st !! qr) as [q|] eqn:Hq; [|done].
  destruct (b_heap st !! m) as [msg|]; [|done].
  assert (Hk : ∀ q', (x ∈ bq_pending q → x ∈ bq_pending q') → retains x st (with_queue qr q' st)) by (intros; by eapply append_retains).
  destruct (index_of m (bq_pending q)) as [i|] eqn:Hi; [|destruct (map_has _ _)]; cbv zeta beta;
    try (etrans; [|apply publish_retains]); apply Hk; try done.
  apply index_of_Some in Hi. intros Hx. rewrite (delete_Permutation _ _ _ Hi) in Hx. by apply elem_of_cons in Hx as [<-|Hx].
Qed.

Lemma fire_timer_retains i st : ttl_within (.≠ x) st → retains x st (fire_timer i st).
Proof.
  intros Hn. unfold fire_timer. destruct (b_timers st !! i) as [[z t]|] eqn:Ht; [|done].
  trans (with_timers (delete i (b_timers st)) st); [by apply retains_fields|]. set (st1 := with_timers _ st).
  destruct t as [qr m|qr m]; simpl.
  - apply expire_retains. by eapply Hn; [by eapply list_elem_of_lookup_2|].
  - unfold unpark. destruct (b_qheap st1 !! qr) as [q|] eqn:Hq; [|done].
    etrans; [|apply pump_retains]. eapply append_retains; [exact Hq|]. intros Hx. apply elem_of_app. by left.
Qed.

Lemma exec_retains op st : ttl_within (.≠ x) st → retains x st (exec op st).
Proof.
  intros Hn. destruct op as [| | |i|i r|i| |i|]; simpl.
  - apply publish_retains.
  - apply subscribe_retains.
  - apply unsubscribe_retains.
  - apply guarded_retains.
  - apply guarded_retains.
  - unfold handler_throws. repeat case_match; try done. apply guarded_retains.
  - unfold run_microtask. destruct (b_microtasks st) as [|i rest]; [done|].
    rewrite alter_insert. destruct (b_deliveries st !! i) as [d|] eqn:Hd; [by eapply delivery_retains|by apply retains_fields].
  - by apply fire_timer_retains.
  - by apply retains_fields.
Qed.

(** What a run keeps, in which no TTL is armed for [x] and none expires in flight. *)
Lemma run_keeps ops st :
  reachable st → quiet st → no_inflight_expiry st ops → x < length (b_heap st) → ttl_within (.≠ x) st →
  let st' := run ops st in reachable st' ∧ quiet st' ∧ retains x st st' ∧ heap_le (b_heap st) (b_heap st').
Proof.
  revert st. induction ops as [|op ops IH]; intros st Hst Hq Hno Hx Hn; [done|]. destruct Hno as [Ho Hno].
  pose proof (reachable_wf _ Hst) as Hwf. destruct (exec_evolves op st Hwf) as [Hle _ _ _].
  destruct (IH (exec op st)) as (? & ? & ? & ?).
  - by apply reachable_step.
  - by apply exec_quiet.
  - done.
  - apply lookup_lt_is_Some in Hx as [bm Hbm]. destruct (Hle _ _ Hbm) as (bm' & Hbm' & _). by eapply lookup_lt_Some.
  - apply exec_ttl; [|done]. intros t b rk o _. right. lia.
  - split_and!; [done..|by etrans; [apply exec_retains|]|by etrans].
Qed.
End retains.

(** ** A publication is served *)

Lemma placed_waits_or_handed st qr q m :
  reachable st → b_qheap st !! qr = Some q → m ∈ queue_places q → waits_or_handed st qr m.
Proof.
  intros Hst Hq [Hm|(e & -> & He)%list_elem_of_fmap]%elem_of_app.
  - left. exists q. split_and!; [done..|]. apply (wf_queue_alloc _ (reachable_wf _ Hst) _ _ Hq). apply elem_of_app. by left.
  - right. destruct (reachable_tracked _ Hst qr q e Hq He) as (d & Hd & ? & ? & _). by exists d.
Qed.

(** [m] was given to a handler, with the contents of [msg], which has settled. *)
Definition handled (st : Bus) (qr : QRef) (m : MsgRef) (msg : BusMessage) : Prop :=
  ∃ d, d ∈ b_deliveries st ∧ dl_queue d = qr ∧ dl_msg d = m ∧ dl_started d = true ∧ dl_settled d = true ∧
    carries msg (dl_incoming d).

(** At rest a queue is empty, or waits for its consumers to come back; and what has been
    handed out has been handled. *)
Lemma rest_handled st qr m msg bm :
  reachable st → quiet st → at_rest st → waits_or_handed st qr m →
  b_heap st !! m = Some bm → reset_count bm = reset_count msg →
  ∃ q, b_qheap st !! qr = Some q ∧ bq_inflight q = [] ∧ (bq_pending q = [] ∨ bq_consumers q = []) ∧
    (m ∈ bq_pending q ∨ handled st qr m msg).
Proof.
  intros Hst Hqt Hrest Hw Hbm Hr. pose proof (at_rest_drained st Hst Hrest) as [_ _ Hds Hdi].
  assert (Hex : ∃ q, b_qheap st !! qr = Some q ∧ (m ∈ bq_pending q ∨ handled st qr m msg)).
  { destruct Hw as [(q & Hq & Hm & _)|(d & [i Hi]%list_elem_of_lookup & <- & <-)]; [exists q; auto|].
    destruct (hw_deliveries _ (reachable_handles _ Hst) _ _ Hi) as ([q Hq]%lookup_lt_is_Some & _).
    exists q. split; [done|right]. destruct (Hds i d Hi) as [Hs1 Hs2]. apply list_elem_of_lookup_2 in Hi.
    exists d. split_and!; try done. destruct (reachable_genuine st d Hst Hi) as (bm' & Hbm' & Hca).
    rewrite Hbm in Hbm'. injection Hbm' as <-. by eapply carries_reset. }
  destruct Hex as (q & Hq & Hm). exists q. pose proof (Hdi qr q Hq) as Hi. split_and!; try done.
  by apply (quiescent_idle (b_heap st)); [apply (Hqt qr)|].
Qed.

(** The copy of a publication on a matching queue, through whatever follows. *)
Lemma publication_served (st : Bus) (topic : Destination) (body : string) (rk : option string)
    (options : PublishOptions) (qr : QRef) (q : BusQueue) :
  reachable st → quiet st → ¬ is_repeat st options → po_ttlMs options = None →
  b_qheap st !! qr = Some q → qr ∈ subscribers st topic → matches (bq_cfg q) (default topic rk) = true →
  let st1 := publish topic body rk options st in
  ∃ m id, length (b_heap st) ≤ m ∧
    ∀ ops, no_inflight_expiry st1 ops → at_rest (run ops st1) →
      ∃ q', b_qheap (run ops st1) !! qr = Some q' ∧ bq_inflight q' = [] ∧
        (bq_pending q' = [] ∨ bq_consumers q' = []) ∧
        (m ∈ bq_pending q' ∨ handled (run ops st1) qr m (mk_message id topic body (default topic rk) options)).
Proof.
  intros Hst Hqt Hfresh Httl Hq Hsub Hm st1.
  pose proof (reachable_wf _ Hst) as Hwf. pose proof (reachable_step st (OpPublish topic body rk options) Hst) as Hst1.
  change (reachable st1) in Hst1.
  destruct (publish_copies topic body rk options st qr q) as (q1 & Hq1 & _ & Hcopy & _); auto with bus.
  { by apply iw_nodup; auto with bus. }
  destruct (Hcopy (conj Hsub Hm)) as (m & msg & Hlen & Hpl & Hmsg & Hr). clear Hcopy. fold st1 in Hmsg, Hq1.
  exists m, (bm_id msg). split; [done|]. intros ops Hops Hrest.
  destruct (run_keeps m ops st1 Hst1) as (Hst' & Hqt' & Hw & Hle); [by apply publish_quiet|done|by eapply lookup_lt_Some| |].
  { intros t x Ht E ->. unfold st1 in Ht. rewrite publish_plain_timers in Ht by done.
    assert (Hin : m ∈ omap ttl_ref (b_timers st)) by (apply list_elem_of_omap; eauto).
    apply (hw_timers _ (reachable_handles _ Hst)) in Hin. lia. }
  destruct (Hle _ _ Hmsg) as (bm' & Hbm' & E). apply (rest_handled _ qr m _ bm'); try done; [|by rewrite E].
  apply Hw, (placed_waits_or_handed st1 qr q1); [done..|]. rewrite Hpl. by left.
Qed.

(** ** Properties *)

(** C2: at-least-once delivery.  On a reachable bus where no message waits that a
    free consumer could take ([quiet]), a publication without TTL that is not a repeat gives every matching queue a new message such that, whatever follows
    (publications, consumers that come and go, microtasks, settlements, failures, timers
    in any order, dispose) but a TTL that expires a message while a handler holds it:
    the bus can be served to rest; and whenever nothing is left to do, no message of the
    queue is in flight, none waits while the queue has a consumer, and the message waits
    there for one or has been handled: a handler was called with the published data and
    has settled. *)
Theorem at_least_once (st : Bus) (topic : Destination) (body : string) (rk : option string)
    (options : PublishOptions) (qr : QRef) (q : BusQueue) :
  reachable st → quiet st → ¬ is_repeat st options → po_ttlMs options = None →
  b_qheap st !! qr = Some q → qr ∈ subscribers st topic → matches (bq_cfg q) (default topic rk) = true →
  let st1 := publish topic body rk options st in
  ∃ m id, length (b_heap st) ≤ m ∧
    ∀ ops, no_inflight_expiry st1 ops →
      (∃ ops', no_inflight_expiry st1 (ops ++ ops') ∧ rtc service (run ops st1) (run (ops ++ ops') st1) ∧
         at_rest (run (ops ++ ops') st1)) ∧
      (at_rest (run ops st1) →
       ∃ q', b_qheap (run ops st1) !! qr = Some q' ∧ bq_inflight q' = [] ∧
         (bq_pending q' = [] ∨ bq_consumers q' = []) ∧
         (m ∈ bq_pending q' ∨ handled (run ops st1) qr m (mk_message id topic body (default topic rk) options))).
Proof.
  intros Hst Hqt Hfresh Httl Hq Hsub Hm st1.
  destruct (publication_served st topic body rk options qr q) as (m & id & Hlen & Hserved); try done.
  exists m, id. split; [done|]. intros ops Hops. split; [|by apply Hserved].
  destruct (service_completes_quietly (run ops st1)) as (ops' & Hno & Hrun & Hrest).
  { apply run_reachable. exact (reachable_step st (OpPublish topic body rk options) Hst). }
  exists ops'. unfold run in *. rewrite foldl_app. split; [|done]. by apply no_inflight_expiry_app.
Qed.

(** The bus of BusService.v, where two consumers share topic t. *)
Definition busy_queue : BusQueue := default (new_BusQueue (demo_cfg false false)) (b_qheap busy_bus !! 0).

(** A message with a TTL comes and expires while it waits; the first consumer leaves,
    another comes; the body is published again; a handler throws. *)
Definition ttl_publish : PublishOptions := {|
  po_priority := None; po_groupId := None; po_dedupId := None; po_replyTo := None;
  po_correlationId := None; po_ttlMs := Some 10%Z; po_headers := None |}.

Definition busy_changes : list BusOp :=
  [OpPublish "t" "x" None ttl_publish; OpTimer 0;
   OpUnsubscribe {| sub_queue := 0; sub_handler := 1 |}; OpPublish "t" "d" None no_publish_options;
   OpSubscribe "t" 4 (retry_options "w"); OpMicrotask; OpThrow 0].

Lemma busy_changes_quiet :
  no_inflight_expiry (publish "t" "d" None no_publish_options busy_bus) busy_changes.
Proof.
  repeat split; intros (i & ttl & qr & m & q & [=] & Ht & Hq & Hm); subst. vm_compute in Ht. injection Ht as <- <- <-.
  vm_compute in Hq. injection Hq as <-. vm_compute in Hm. discriminate Hm.
Qed.

Lemma at_least_once_witness :
  let st1 := publish "t" "d" None no_publish_options busy_bus in
  no_inflight_expiry st1 busy_changes ∧ ∃ m id, 3 ≤ m ∧
    (∃ ops', no_inflight_expiry st1 (busy_changes ++ ops') ∧
       rtc service (run busy_changes st1) (run (busy_changes ++ ops') st1) ∧ at_rest (run (busy_changes ++ ops') st1)) ∧
    (at_rest (run busy_changes st1) →
       ∃ q', b_qheap (run busy_changes st1) !! 0 = Some q' ∧ bq_inflight q' = [] ∧
         (bq_pending q' = [] ∨ bq_consumers q' = []) ∧
         (m ∈ bq_pending q' ∨ handled (run busy_changes st1) 0 m (mk_message id "t" "d" "t" no_publish_options))).
Proof.
  split; [exact busy_changes_quiet|].
  destruct (at_least_once busy_bus "t" "d" None no_publish_options 0 busy_queue busy_bus_reachable busy_bus_quiet)
    as (m & id & Hlen & H).
  - intros (d & Hd & _). discriminate Hd.
  - reflexivity.
  - vm_compute. reflexivity.
  - by_compute.
  - vm_compute. reflexivity.
  - exists m, id. split; [exact Hlen|]. exact (H busy_changes busy_changes_quiet).
Defined.
