(* ===== verification/InMemoryScheduler.v ===== *)
(** The in-process scheduler ([class InMemoryScheduler] of adapters/in-memory.ts):
    schedule, cancel, list, consume, dispatch and dispose over Node timers and a
    millisecond clock.  Its pub/sub half delegates to the engine of InMemoryBus.v.

    A handler is its identity; a call of a handler is an entry of [sc_calls].  The
    [Set] of handlers of a destination is an object shared by the map and by the
    closures of [consume], so it lives in a heap of sets. *)

From S2P Require Import Prelude Abstractions Ports InMemoryBus.

(** ** Data *)

Abbreviation SetRef := nat.
Abbreviation TimerRef := nat.

Record PendingSchedule := {
  ps_id : string;
  ps_destination : Destination;
  ps_body : string;
  ps_deliverAt : Z;
  ps_timer : TimerRef
}.

(** An armed Node timer with the variables its callback captures. *)
Record Timer := {
  tm_ref : TimerRef;
  tm_start : Z;
  tm_delay : Z;
  tm_id : string;
  tm_destination : Destination;
  tm_payload : string
}.

Record Scheduler := {
  sc_now : Z;                              (* Date.now() *)
  sc_handlers : gmap string SetRef;        (* this.handlers *)
  sc_sets : list (list MessageHandler);    (* the heap of handler sets *)
  sc_pending : list (string * PendingSchedule);
  sc_seq : nat;
  sc_bus : Bus;
  sc_timers : list Timer;
  sc_next_timer : TimerRef;
  sc_microtasks : list ReceivedMessage;    (* dispatches not yet run *)
  sc_calls : list (MessageHandler * ReceivedMessage)
}.

Definition new_InMemoryScheduler (now : Z) : Scheduler := {|
  sc_now := now; sc_handlers := ∅; sc_sets := []; sc_pending := []; sc_seq := 0;
  sc_bus := new_InMemoryBus; sc_timers := []; sc_next_timer := 0; sc_microtasks := [];
  sc_calls := [] |}.

(** [busCapabilities] and [capabilities]. *)
Definition in_memory_bus_capabilities : BusCapabilities := {|
  supportsTopic := true; supportsFanout := true; supportsManualAck := true;
  supportsDeadLetter := true; reportsDeliveryCount := true; supportsDedup := true;
  supportsStreamReplay := true; supportsMessageGroups := None |}.

Definition in_memory_capabilities : Capabilities := {|
  protocol := "in-memory"; nativeScheduling := true; supportsCancel := true;
  supportsList := true; cap_bus := Some in_memory_bus_capabilities |}.

(** ** Node timers *)

(** The delay Node uses for [setTimeout(f, ms)]: a delay below 1 or above
    [2^31 - 1] is set to 1. *)
Definition max_delay : Z := 2 ^ 31 - 1.

Definition timer_delay (ms : Z) : Z :=
  if decide (1 ≤ ms ∧ ms ≤ max_delay)%Z then ms else 1%Z.

Definition due (t : Timer) : Z := (tm_start t + tm_delay t)%Z.

(** ** Operations *)

Definition with_schedules (p : list (string * PendingSchedule)) (ts : list Timer) (st : Scheduler) :
    Scheduler := {|
  sc_now := sc_now st; sc_handlers := sc_handlers st; sc_sets := sc_sets st; sc_pending := p;
  sc_seq := sc_seq st; sc_bus := sc_bus st; sc_timers := ts; sc_next_timer := sc_next_timer st;
  sc_microtasks := sc_microtasks st; sc_calls := sc_calls st |}.

Definition with_handlers (hs : gmap string SetRef) (sets : list (list MessageHandler))
    (st : Scheduler) : Scheduler := {|
  sc_now := sc_now st; sc_handlers := hs; sc_sets := sets; sc_pending := sc_pending st;
  sc_seq := sc_seq st; sc_bus := sc_bus st; sc_timers := sc_timers st;
  sc_next_timer := sc_next_timer st; sc_microtasks := sc_microtasks st; sc_calls := sc_calls st |}.

Definition with_bus (b : Bus) (st : Scheduler) : Scheduler := {|
  sc_now := sc_now st; sc_handlers := sc_handlers st; sc_sets := sc_sets st;
  sc_pending := sc_pending st; sc_seq := sc_seq st; sc_bus := b; sc_timers := sc_timers st;
  sc_next_timer := sc_next_timer st; sc_microtasks := sc_microtasks st; sc_calls := sc_calls st |}.

(** [dispatch]: number the message and queue the microtask that hands it out. *)
Definition dispatch (destination : Destination) (body : string) (st : Scheduler) : Scheduler := {|
  sc_now := sc_now st; sc_handlers := sc_handlers st; sc_sets := sc_sets st;
  sc_pending := sc_pending st; sc_seq := S (sc_seq st); sc_bus := sc_bus st;
  sc_timers := sc_timers st; sc_next_timer := sc_next_timer st;
  sc_microtasks := sc_microtasks st ++
    [{| rm_id := "mem-msg-" +:+ pretty (S (sc_seq st)); rm_destination := destination;
        rm_body := body; rm_headers := ∅ |}];
  sc_calls := sc_calls st |}.

Definition sendNow (destination : Destination) (payload : string) (st : Scheduler) : Scheduler :=
  dispatch destination payload st.

Definition schedule (destination : Destination) (payload : string) (deliverAt : Z)
    (st : Scheduler) : ScheduleHandle * Scheduler :=
  let seq := S (sc_seq st) in
  let id := "mem-" +:+ pretty seq in
  let ms := Z.max 0 (deliverAt - sc_now st) in
  let timer := {| tm_ref := sc_next_timer st; tm_start := sc_now st; tm_delay := timer_delay ms;
                  tm_id := id; tm_destination := destination; tm_payload := payload |} in
  let entry := {| ps_id := id; ps_destination := destination; ps_body := payload;
                  ps_deliverAt := deliverAt; ps_timer := sc_next_timer st |} in
  ({| sh_id := id; sh_destination := destination; sh_deliverAt := deliverAt |},
   {| sc_now := sc_now st; sc_handlers := sc_handlers st; sc_sets := sc_sets st;
      sc_pending := map_set (sc_pending st) id entry; sc_seq := seq; sc_bus := sc_bus st;
      sc_timers := sc_timers st ++ [timer]; sc_next_timer := S (sc_next_timer st);
      sc_microtasks := sc_microtasks st; sc_calls := sc_calls st |}).

(** [clearTimeout]. *)
Definition clear_timeout (r : TimerRef) (ts : list Timer) : list Timer :=
  filter (λ t, tm_ref t ≠ r) ts.

Definition cancel (handle : ScheduleHandle) (st : Scheduler) : Scheduler :=
  match map_get (sc_pending st) (sh_id handle) with
  | Some entry =>
      with_schedules (map_delete (sc_pending st) (sh_id handle))
        (clear_timeout (ps_timer entry) (sc_timers st)) st
  | None => st
  end.

(** The callback of a schedule's timer. *)
Definition fire (i : nat) (st : Scheduler) : Scheduler :=
  match sc_timers st !! i with
  | Some t =>
      if decide (due t ≤ sc_now st)%Z then
        dispatch (tm_destination t) (tm_payload t)
          (with_schedules (map_delete (sc_pending st) (tm_id t)) (delete i (sc_timers st)) st)
      else st
  | None => st
  end.

Definition listScheduled (destination : Destination) (st : Scheduler) : list ScheduledInfo :=
  (λ p, {| si_id := ps_id p; si_destination := ps_destination p;
           si_deliverAt := Some (ps_deliverAt p) |}) <$>
  filter (λ p, ps_destination p = destination) (sc_pending st).*2.

Definition set_add (h : MessageHandler) (s : list MessageHandler) : list MessageHandler :=
  if decide (h ∈ s) then s else s ++ [h].

Definition consume (destination : Destination) (handler : MessageHandler) (st : Scheduler) :
    (SetRef * MessageHandler) * Scheduler :=
  let '(r, st) :=
    match sc_handlers st !! destination with
    | Some r => (r, st)
    | None =>
        let r := length (sc_sets st) in
        (r, with_handlers (<[destination := r]> (sc_handlers st)) (sc_sets st ++ [[]]) st)
    end in
  ((r, handler), with_handlers (sc_handlers st) (alter (set_add handler) r (sc_sets st)) st).

(** The [unsubscribe] closure of [consume]. *)
Definition stop_consuming (sub : SetRef * MessageHandler) (st : Scheduler) : Scheduler :=
  with_handlers (sc_handlers st)
    (alter (λ s, filter (λ h, h ≠ sub.2) s) sub.1 (sc_sets st)) st.

(** The handlers a dispatch reaches. *)
Definition handlers_of (destination : Destination) (st : Scheduler) : list MessageHandler :=
  default [] (sc_handlers st !! destination ≫= λ r, sc_sets st !! r).

(** The next dispatch microtask: call every handler of the destination. *)
Definition run_dispatch (st : Scheduler) : Scheduler :=
  match sc_microtasks st with
  | [] => st
  | m :: rest => {|
      sc_now := sc_now st; sc_handlers := sc_handlers st; sc_sets := sc_sets st;
      sc_pending := sc_pending st; sc_seq := sc_seq st; sc_bus := sc_bus st;
      sc_timers := sc_timers st; sc_next_timer := sc_next_timer st; sc_microtasks := rest;
      sc_calls := sc_calls st ++ ((λ h, (h, m)) <$> handlers_of (rm_destination m) st) |}
  end.

(** [Symbol.asyncDispose]: clear every pending timer, the maps and the bus. *)
Definition asyncDispose (st : Scheduler) : Scheduler :=
  with_bus (dispose (sc_bus st))
    (with_handlers ∅ (sc_sets st)
       (with_schedules []
          (foldl (λ ts p, clear_timeout (ps_timer p) ts) (sc_timers st) (sc_pending st).*2) st)).

Definition advance (ms : Z) (st : Scheduler) : Scheduler := {|
  sc_now := (sc_now st + Z.max 0 ms)%Z; sc_handlers := sc_handlers st; sc_sets := sc_sets st;
  sc_pending := sc_pending st; sc_seq := sc_seq st; sc_bus := sc_bus st;
  sc_timers := sc_timers st; sc_next_timer := sc_next_timer st;
  sc_microtasks := sc_microtasks st; sc_calls := sc_calls st |}.

(** ** The scheduler as a transition system *)

Inductive SchedOp :=
  | SendNow (d : Destination) (body : string)
  | Schedule (d : Destination) (body : string) (deliverAt : Z)
  | Cancel (h : ScheduleHandle)
  | Fire (timer : nat)
  | Consume (d : Destination) (h : MessageHandler)
  | StopConsuming (sub : SetRef * MessageHandler)
  | Dispatch
  | BusStep (op : BusOp)
  | AsyncDispose
  | Advance (ms : Z).

Definition sched_exec (op : SchedOp) (st : Scheduler) : Scheduler :=
  match op with
  | SendNow d b => sendNow d b st
  | Schedule d b at_ => (schedule d b at_ st).2
  | Cancel h => cancel h st
  | Fire i => fire i st
  | Consume d h => (consume d h st).2
  | StopConsuming s => stop_consuming s st
  | Dispatch => run_dispatch st
  | BusStep op => with_bus (exec op (sc_bus st)) st
  | AsyncDispose => asyncDispose st
  | Advance ms => advance ms st
  end.

Definition sched_run (ops : list SchedOp) (st : Scheduler) : Scheduler :=
  foldl (λ st op, sched_exec op st) st ops.

Inductive sched_reachable : Scheduler → Prop :=
  | sched_init now : sched_reachable (new_InMemoryScheduler now)
  | sched_step st op : sched_reachable st → sched_reachable (sched_exec op st).

(** The schedules whose timer fires in one operation, and in a run. *)
Definition fired (op : SchedOp) (st : Scheduler) : list string :=
  match op with
  | Fire i =>
      match sc_timers st !! i with
      | Some t => if decide (due t ≤ sc_now st)%Z then [tm_id t] else []
      | None => []
      end
  | _ => []
  end.

Fixpoint fired_in (ops : list SchedOp) (st : Scheduler) : list string :=
  match ops with
  | [] => []
  | op :: ops' => fired op st ++ fired_in ops' (sched_exec op st)
  end.

(** ** Invariant *)

(** The timer [t] is the one armed for the pending entry [p]. *)
Record armed (t : Timer) (p : string * PendingSchedule) : Prop := {
  ar_ref : tm_ref t = ps_timer p.2;
  ar_id : tm_id t = p.1;
  ar_key : ps_id p.2 = p.1;
  ar_destination : tm_destination t = ps_destination p.2;
  ar_body : tm_payload t = ps_body p.2;
  ar_delay : tm_delay t = timer_delay (Z.max 0 (ps_deliverAt p.2 - tm_start t))
}.

(** Ids given out so far. *)
Definition issued_id (st : Scheduler) (id : string) : Prop :=
  ∃ n, id = "mem-" +:+ pretty n ∧ n ≤ sc_seq st.

(** Timers and pending entries correspond one to one, in the order of scheduling. *)
Record sched_wf (st : Scheduler) : Prop := {
  sw_armed : Forall2 armed (sc_timers st) (sc_pending st);
  sw_refs : NoDup (tm_ref <$> sc_timers st);
  sw_ids : NoDup (tm_id <$> sc_timers st);
  sw_issued : ∀ t, t ∈ sc_timers st → tm_ref t < sc_next_timer st ∧ issued_id st (tm_id t)
}.

Lemma armed_keys ts ps : Forall2 armed ts ps → ps.*1 = tm_id <$> ts.
Proof. induction 1 as [|t p ts ps Ha _ IH]; [done|]. rewrite !fmap_cons, IH. by rewrite (ar_id _ _ Ha). Qed.

Lemma schedule_id_inj (n m : nat) : "mem-" +:+ pretty n = "mem-" +:+ pretty m → n = m.
Proof. intros H. by apply (inj pretty), (inj (String.append "mem-")). Qed.

(** Dropping the timer and the entry at the same position. *)
Lemma drop_wf st st' k :
  sc_timers st' = delete k (sc_timers st) → sc_pending st' = delete k (sc_pending st) →
  sc_seq st ≤ sc_seq st' → sc_next_timer st ≤ sc_next_timer st' → sched_wf st → sched_wf st'.
Proof.
  intros Ht Hp Hs Hn [Ha Hr Hi Hiss]. split; rewrite ?Ht, ?Hp.
  - by apply Forall2_delete.
  - rewrite delete_fmap_list. by apply NoDup_delete.
  - rewrite delete_fmap_list. by apply NoDup_delete.
  - intros t Hin. assert (Hin' : t ∈ sc_timers st).
    { eapply elem_of_sublist; [exact Hin|apply sublist_delete]. }
    apply Hiss in Hin' as (? & n & ? & ?). split; [lia|]. exists n. split; [done|lia].
Qed.

Lemma same_schedules_wf st st' :
  sc_timers st' = sc_timers st → sc_pending st' = sc_pending st →
  sc_seq st ≤ sc_seq st' → sc_next_timer st ≤ sc_next_timer st' → sched_wf st → sched_wf st'.
Proof.
  intros Ht Hp Hs Hn [Ha Hr Hi Hiss]. split; rewrite ?Ht, ?Hp; try done.
  intros t Hin. apply Hiss in Hin as (? & n & ? & ?). split; [lia|]. exists n. split; [done|lia].
Qed.

(** Close the invariant of a state with the schedules of [st]. *)
Ltac same_schedules st := apply (same_schedules_wf st); simpl; auto.

(** The position of a pending entry. *)
Lemma pending_position st id e :
  sched_wf st → map_get (sc_pending st) id = Some e →
  ∃ k t, sc_timers st !! k = Some t ∧ sc_pending st !! k = Some (id, e) ∧ armed t (id, e) ∧
    map_delete (sc_pending st) id = delete k (sc_pending st) ∧
    clear_timeout (ps_timer e) (sc_timers st) = delete k (sc_timers st).
Proof.
  intros [Ha Hr Hi _] Hg. apply map_get_Some_elem, list_elem_of_lookup in Hg as [k Hk].
  destruct (Forall2_lookup_r _ _ _ _ _ Ha Hk) as (t & Ht & Harm).
  exists k, t. split; [done|]. split; [done|]. split; [done|]. split.
  - unfold map_delete. apply (filter_key_delete fst _ k (id, e)); [|done]. by erewrite armed_keys.
  - unfold clear_timeout. change (ps_timer e) with (ps_timer (id, e).2).
    rewrite <- (ar_ref _ _ Harm). by apply (filter_key_delete tm_ref).
Qed.

Lemma timer_position st k t :
  sched_wf st → sc_timers st !! k = Some t →
  ∃ e, sc_pending st !! k = Some (tm_id t, e) ∧ armed t (tm_id t, e) ∧
    map_get (sc_pending st) (tm_id t) = Some e ∧
    map_delete (sc_pending st) (tm_id t) = delete k (sc_pending st).
Proof.
  intros [Ha Hr Hi _] Hk. destruct (Forall2_lookup_l _ _ _ _ _ Ha Hk) as ([id e] & Hp & Harm).
  pose proof (ar_id _ _ Harm) as Hid. simpl in Hid. rewrite Hid. exists e.
  assert (Hnd : NoDup (sc_pending st).*1) by (by erewrite armed_keys).
  split; [done|]. split; [done|]. split.
  - apply map_get_elem; [done|]. by eapply list_elem_of_lookup_2.
  - unfold map_delete. by apply (filter_key_delete fst _ k (id, e)).
Qed.

Lemma clear_all_timers es ts t :
  t ∈ foldl (λ ts p, clear_timeout (ps_timer p) ts) ts es →
  t ∈ ts ∧ ∀ e, e ∈ es → tm_ref t ≠ ps_timer e.
Proof.
  revert ts. induction es as [|e es IH]; intros ts; simpl; [intros; split; [done|set_solver]|].
  intros [Hin Hes]%IH. apply list_elem_of_filter in Hin as [Hne Hin].
  split; [done|]. intros e' [->|]%elem_of_cons; [done|by apply Hes].
Qed.

Lemma dispose_timers st : sched_wf st → sc_timers (asyncDispose st) = [].
Proof.
  intros [Ha _ _ _]. simpl. destruct (foldl _ _ _) as [|t ts] eqn:E; [done|exfalso].
  assert (Hin : t ∈ t :: ts) by left. rewrite <- E in Hin.
  apply clear_all_timers in Hin as [Hin Hno]. apply list_elem_of_lookup in Hin as [k Hk].
  destruct (Forall2_lookup_l _ _ _ _ _ Ha Hk) as (p & Hp & Harm).
  apply (Hno p.2); [|apply (ar_ref _ _ Harm)].
  apply list_elem_of_fmap. exists p. split; [done|]. by eapply list_elem_of_lookup_2.
Qed.

Lemma schedule_wf d b at_ st : sched_wf st → sched_wf (schedule d b at_ st).2.
Proof.
  intros [Ha Hr Hi Hiss].
  assert (Hfresh : ∀ id, id ∈ tm_id <$> sc_timers st → id ≠ "mem-" +:+ pretty (S (sc_seq st))).
  { intros id (t & -> & Ht)%list_elem_of_fmap. apply Hiss in Ht as (_ & n & -> & Hn).
    intros ->%schedule_id_inj. lia. }
  split; simpl.
  - rewrite map_set_fresh.
    + apply Forall2_app; [done|]. constructor; [|constructor]. by split.
    + erewrite armed_keys by done. intros Hin. by apply Hfresh in Hin.
  - rewrite fmap_app. apply NoDup_app. repeat split; [done| |apply NoDup_singleton].
    intros r (t & -> & Ht)%list_elem_of_fmap Hr'. apply Hiss in Ht as [? _].
    apply list_elem_of_singleton in Hr'. simpl in Hr'. lia.
  - rewrite fmap_app. apply NoDup_app. repeat split; [done| |apply NoDup_singleton].
    intros id Hid ->%list_elem_of_singleton. by apply Hfresh in Hid.
  - intros t [Ht| ->%list_elem_of_singleton]%elem_of_app; simpl.
    + apply Hiss in Ht as (? & n & ? & ?). split; [lia|]. exists n. split; [done|simpl; lia].
    + split; [lia|]. by eexists.
Qed.

Lemma sched_exec_wf op st : sched_wf st → sched_wf (sched_exec op st).
Proof.
  intros Hwf. destruct op as [d b|d b a|h|i|d h|s| |op| |ms]; simpl.
  - same_schedules st.
  - by apply schedule_wf.
  - unfold cancel. destruct (map_get _ _) as [e|] eqn:He; [|done].
    destruct (pending_position _ _ _ Hwf He) as (k & t & _ & _ & _ & Hp & Ht).
    eapply (drop_wf st _ k); simpl; auto.
  - unfold fire. destruct (sc_timers st !! i) as [t|] eqn:Ht; [|done].
    case_decide; [|done]. destruct (timer_position _ _ _ Hwf Ht) as (e & _ & _ & _ & Hp).
    eapply (drop_wf st _ i); simpl; auto.
  - unfold consume. destruct (sc_handlers st !! d); same_schedules st.
  - same_schedules st.
  - unfold run_dispatch. destruct (sc_microtasks st); [done|]. same_schedules st.
  - same_schedules st.
  - pose proof (dispose_timers st Hwf) as E.
    split; rewrite ?E; simpl; [constructor|apply NoDup_nil_2..|].
    intros t Ht. by apply elem_of_nil in Ht.
  - same_schedules st.
Qed.

Lemma sched_reachable_wf st : sched_reachable st → sched_wf st.
Proof.
  induction 1 as [now|st op _ IH]; [|by apply sched_exec_wf].
  split; simpl; [constructor|apply NoDup_nil_2..|]. intros t Ht. by apply elem_of_nil in Ht.
Qed.

Create HintDb sched discriminated.
#[export] Hint Constants Opaque : sched.
#[export] Hint Resolve sched_reachable_wf : sched.

(** ** Following one schedule id through a run *)

Lemma sched_exec_seq op st : sc_seq st ≤ sc_seq (sched_exec op st).
Proof.
  destruct op as [d b|d b a|h|i|d h|s| |op| |ms]; simpl; try lia.
  - unfold cancel. case_match; simpl; lia.
  - unfold fire. repeat case_match; simpl; lia.
  - unfold consume. destruct (sc_handlers st !! d); simpl; lia.
  - unfold run_dispatch. case_match; simpl; lia.
Qed.

Lemma issued_id_exec op st id : issued_id st id → issued_id (sched_exec op st) id.
Proof. intros (n & -> & Hn). exists n. split; [done|]. pose proof (sched_exec_seq op st). lia. Qed.

(** An operation keeps armed timers or drops them; it arms one only under a fresh id. *)
Lemma sched_exec_timers op st t :
  t ∈ sc_timers (sched_exec op st) →
  t ∈ sc_timers st ∨
  (tm_id t = "mem-" +:+ pretty (S (sc_seq st)) ∧
   ∃ d b at_, op = Schedule d b at_ ∧ tm_start t = sc_now st ∧
     tm_delay t = timer_delay (Z.max 0 (at_ - sc_now st))).
Proof.
  destruct op as [d b|d b a|h|i|d h|s| |op| |ms]; simpl; auto.
  - intros [|Ht%list_elem_of_singleton]%elem_of_app; [by left|]. subst t. right. split; [done|].
    by exists d, b, a.
  - unfold cancel. case_match; simpl; [|auto].
    intros [_ ?]%list_elem_of_filter. by left.
  - unfold fire. destruct (sc_timers st !! i); [|auto]. case_decide; simpl; [|auto].
    intros Ht. left. eapply elem_of_sublist; [exact Ht|apply sublist_delete].
  - unfold consume. destruct (sc_handlers st !! d); simpl; auto.
  - unfold run_dispatch. case_match; simpl; auto.
  - intros [? _]%clear_all_timers. by left.
Qed.

(** Every timer armed under [id] satisfies [P]. *)
Definition follows (id : string) (P : Timer → Prop) (st : Scheduler) : Prop :=
  issued_id st id ∧ ∀ t, t ∈ sc_timers st → tm_id t = id → P t.

Lemma follows_exec id P op st : follows id P st → follows id P (sched_exec op st).
Proof.
  intros [(n & -> & Hn) HP]. split; [apply issued_id_exec; by exists n|].
  intros t [Ht|[Hid _]]%sched_exec_timers Heq; [by apply HP|exfalso].
  rewrite Hid in Heq. apply schedule_id_inj in Heq. lia.
Qed.

Lemma follows_run id P ops st : follows id P st → follows id P (sched_run ops st).
Proof.
  revert st. induction ops as [|op ops IH]; intros st Hf; [done|]. simpl.
  by apply IH, follows_exec.
Qed.

Lemma fired_timer op st id :
  id ∈ fired op st →
  ∃ i t, op = Fire i ∧ sc_timers st !! i = Some t ∧ tm_id t = id ∧ (due t ≤ sc_now st)%Z.
Proof.
  destruct op as [d b|d b a|h|i|d h|s| |op| |ms]; simpl; try (intros H; by apply elem_of_nil in H).
  destruct (sc_timers st !! i) as [t|] eqn:Ht; [|intros H; by apply elem_of_nil in H].
  case_decide; [|intros H0; by apply elem_of_nil in H0].
  intros ->%list_elem_of_singleton. by exists i, t.
Qed.

(** An id with no timer left fires no more. *)
Lemma gone_not_fired id ops st : follows id (λ _, False) st → id ∉ fired_in ops st.
Proof.
  revert st. induction ops as [|op ops IH]; intros st Hf; simpl; [apply not_elem_of_nil|].
  rewrite not_elem_of_app. split; [|by apply IH, follows_exec].
  intros (i & t & _ & Ht & Hid & _)%fired_timer. destruct Hf as [_ Hf].
  apply (Hf t); [by eapply list_elem_of_lookup_2|done].
Qed.

Lemma delete_gone st i t :
  sched_wf st → sc_timers st !! i = Some t →
  ∀ t', t' ∈ delete i (sc_timers st) → tm_id t' ≠ tm_id t.
Proof.
  intros [_ _ Hi _] Ht t' Hin. rewrite <- (filter_key_delete tm_id _ _ _ Hi Ht) in Hin.
  by apply list_elem_of_filter in Hin as [? _].
Qed.

Lemma sched_run_reachable ops st : sched_reachable st → sched_reachable (sched_run ops st).
Proof.
  revert st. induction ops as [|op ops IH]; intros st Hst; [done|]. apply IH. by constructor.
Qed.

(** ** Properties *)

(** C20: never early.  A message scheduled for [deliverAt], at most 2^31-1 ms ahead, is
    not dispatched before [deliverAt] on the scheduler's clock, whatever happens
    between scheduling and firing. *)
Theorem never_early (st : Scheduler) (d : Destination) (body : string) (deliverAt : Z)
    (ops : list SchedOp) (op : SchedOp) :
  sched_reachable st → (deliverAt - sc_now st ≤ max_delay)%Z →
  let '(h, st1) := schedule d body deliverAt st in
  let st2 := sched_run ops st1 in
  sh_id h ∈ fired op st2 → (deliverAt ≤ sc_now st2)%Z.
Proof.
  intros Hst Hmax. simpl. set (id := _ +:+ _). set (st1 := {| sc_now := _ |}).
  set (P := λ t, tm_start t = sc_now st ∧ tm_delay t = timer_delay (Z.max 0 (deliverAt - sc_now st))).
  assert (Hf : follows id P st1).
  { split; [by exists (S (sc_seq st))|]. simpl.
    intros t [Ht| ->%list_elem_of_singleton]%elem_of_app Hid; [|done]. exfalso.
    apply (sw_issued _ (sched_reachable_wf _ Hst)) in Ht as (_ & n & Hn & Hle).
    rewrite Hid in Hn. apply schedule_id_inj in Hn. lia. }
  intros (i & t & _ & Ht & Hid & Hdue)%fired_timer.
  apply (follows_run _ _ ops) in Hf as [_ Hf]. apply list_elem_of_lookup_2 in Ht.
  destruct (Hf t Ht Hid) as [Hs Hd]. unfold due in Hdue. rewrite Hs, Hd in Hdue.
  unfold timer_delay in Hdue. case_decide; lia.
Qed.

Lemma never_early_witness :
  (1000 ≤ sc_now (sched_run [Advance 1000] (schedule "t" "x" 1000 (new_InMemoryScheduler 0)).2))%Z.
Proof.
  apply (never_early (new_InMemoryScheduler 0) "t" "x" 1000 [Advance 1000] (Fire 0)).
  - constructor.
  - by_compute.
  - by_compute.
Defined.

(** cancellation is final.  Once a schedule handle is cancelled, its timer never
    fires, whatever follows. *)
Theorem cancelled_never_fires (st : Scheduler) (d : Destination) (body : string) (deliverAt : Z)
    (ops ops' : list SchedOp) :
  sched_reachable st →
  let '(h, st1) := schedule d body deliverAt st in
  sh_id h ∉ fired_in ops' (cancel h (sched_run ops st1)).
Proof.
  intros Hst. pose proof (sched_step _ (Schedule d body deliverAt) Hst) as Hst1.
  simpl in *. set (h := {| sh_id := _ |}). set (st1 := {| sc_now := _ |}) in *.
  pose proof (sched_run_reachable ops _ Hst1) as Hst2. apply gone_not_fired.
  assert (Hf : follows (sh_id h) (λ _, True) (sched_run ops st1)).
  { apply follows_run. split; [by exists (S (sc_seq st))|done]. }
  destruct Hf as [Hiss _]. set (st2 := sched_run ops st1) in *.
  split; [apply (issued_id_exec (Cancel h)); done|]. unfold cancel.
  destruct (map_get (sc_pending st2) (sh_id h)) as [e|] eqn:He.
  - destruct (pending_position _ _ _ (sched_reachable_wf _ Hst2) He) as (k & t & Ht & _ & Ha & _ & E).
    simpl. rewrite E. intros t' Ht' Hid. eapply (delete_gone _ k t); eauto with sched.
    pose proof (ar_id _ _ Ha) as Hid'. simpl in *. congruence.
  - apply map_get_None in He. erewrite armed_keys in He by apply sw_armed, sched_reachable_wf, Hst2.
    intros t Ht Hid. apply He. apply list_elem_of_fmap. by exists t.
Qed.

Lemma cancelled_never_fires_witness :
  "mem-1" ∉ fired_in [Advance 9000; Fire 0]
    (cancel {| sh_id := "mem-1"; sh_destination := "t"; sh_deliverAt := 1000 |}
       (sched_run [Advance 10] (schedule "t" "x" 1000 (new_InMemoryScheduler 0)).2)).
Proof.
  apply (cancelled_never_fires (new_InMemoryScheduler 0) "t" "x" 1000 [Advance 10] [Advance 9000; Fire 0]).
  constructor.
Defined.

(** at most once.  No schedule id fires twice in any run. *)
Theorem fires_at_most_once (st : Scheduler) (ops : list SchedOp) :
  sched_reachable st → NoDup (fired_in ops st).
Proof.
  revert st. induction ops as [|op ops IH]; intros st Hst; simpl; [apply NoDup_nil_2|].
  pose proof (sched_step st op Hst) as Hst'. apply NoDup_app. split; [|split; [|by apply IH]].
  - destruct op; simpl; try apply NoDup_nil_2. repeat case_match; try apply NoDup_nil_2.
    apply NoDup_singleton.
  - intros id (i & t & -> & Ht & <- & Hdue)%fired_timer. apply gone_not_fired.
    pose proof (sched_reachable_wf _ Hst) as Hwf. split.
    + apply issued_id_exec. apply (sw_issued _ Hwf t). by eapply list_elem_of_lookup_2.
    + simpl. unfold fire. rewrite Ht, decide_True by done. simpl.
      intros t' Ht' Heq. by eapply delete_gone.
Qed.

Lemma fires_at_most_once_witness :
  NoDup (fired_in [Schedule "t" "x" 5; Schedule "t" "y" 5; Advance 9; Fire 0; Fire 0; Fire 0]
           (new_InMemoryScheduler 0)).
Proof. apply fires_at_most_once. constructor. Defined.

(** listing.  [listScheduled] returns, in the order of scheduling, exactly the
    schedules of the destination whose timer is still armed. *)
Theorem list_is_armed (st : Scheduler) (d : Destination) :
  sched_reachable st →
  si_id <$> listScheduled d st = tm_id <$> filter (λ t, tm_destination t = d) (sc_timers st).
Proof.
  intros [Ha _ _ _]%sched_reachable_wf. unfold listScheduled. rewrite <- list_fmap_compose.
  induction Ha as [|t p ts ps [_ Hid Hkey Hd _ _] _ IH]; [done|].
  rewrite fmap_cons, !filter_cons, Hd. case_decide; simpl; [|done].
  f_equal; [congruence|done].
Qed.

Lemma list_is_armed_witness :
  let st := sched_run [Schedule "t" "x" 5; Schedule "u" "y" 5; Schedule "t" "z" 1; Advance 2; Fire 2]
              (new_InMemoryScheduler 0) in
  si_id <$> listScheduled "t" st = tm_id <$> filter (λ t, tm_destination t = "t") (sc_timers st).
Proof.
  apply (list_is_armed _ "t"). apply sched_run_reachable. constructor.
Defined.

(** The calls a queued dispatch makes. *)
Definition calls_for (st : Scheduler) (m : ReceivedMessage) : list (MessageHandler * ReceivedMessage) :=
  (λ h, (h, m)) <$> handlers_of (rm_destination m) st.

(** Running the queued dispatches makes their calls, in order. *)
Lemma drain_dispatches n st :
  n = length (sc_microtasks st) →
  sc_calls (sched_run (replicate n Dispatch) st) =
  sc_calls st ++ concat (calls_for st <$> sc_microtasks st).
Proof.
  revert st. induction n as [|n IH]; intros st Hn; simpl.
  { destruct (sc_microtasks st); [by rewrite app_nil_r|done]. }
  destruct (sc_microtasks st) as [|m ms] eqn:Hm; [done|]. simpl in Hn.
  unfold run_dispatch. rewrite Hm. rewrite IH by (simpl; lia). simpl.
  by rewrite <- app_assoc.
Qed.

(** C21: eventual delivery.  As long as a schedule is pending it has an armed timer, and
    once the clock has reached the timer's due time the timer can fire; when it does
    and the queued dispatches run, every handler then consuming the destination is
    called with the payload, and the schedule is no longer listed. *)
Theorem due_schedule_delivers (st : Scheduler) (id : string) (e : PendingSchedule) :
  sched_reachable st → map_get (sc_pending st) id = Some e →
  ∃ i t, sc_timers st !! i = Some t ∧ tm_id t = id ∧
    ((due t ≤ sc_now st)%Z →
     let st1 := sched_exec (Fire i) st in
     let st2 := sched_run (replicate (S (length (sc_microtasks st))) Dispatch) st1 in
     fired (Fire i) st = [id] ∧ map_get (sc_pending st1) id = None ∧
     ∀ h, h ∈ handlers_of (ps_destination e) st →
       ∃ m, (h, m) ∈ sc_calls st2 ∧ rm_destination m = ps_destination e ∧ rm_body m = ps_body e).
Proof.
  intros Hst He. pose proof (sched_reachable_wf _ Hst) as Hwf.
  destruct (pending_position _ _ _ Hwf He) as (k & t & Ht & Hp & Harm & Hdel & _).
  exists k, t. split; [done|]. split; [apply (ar_id _ _ Harm)|]. intros Hdue st1 st2.
  assert (E : st1 = dispatch (tm_destination t) (tm_payload t)
    (with_schedules (map_delete (sc_pending st) (tm_id t)) (delete k (sc_timers st)) st)).
  { unfold st1. simpl. unfold fire. by rewrite Ht, decide_True. }
  pose proof (ar_id _ _ Harm) as Hid. simpl in Hid. split; [|split].
  - simpl. by rewrite Ht, decide_True, Hid.
  - rewrite E. simpl. rewrite Hid. apply map_get_delete_eq.
  - intros h Hh. unfold st2. rewrite drain_dispatches by (rewrite E; simpl; rewrite length_app; simpl; lia).
    rewrite E. simpl.
    exists {| rm_id := "mem-msg-" +:+ pretty (S (sc_seq st)); rm_destination := tm_destination t;
              rm_body := tm_payload t; rm_headers := ∅ |}.
    split; [|split; [apply (ar_destination _ _ Harm)|apply (ar_body _ _ Harm)]].
    rewrite fmap_app, concat_app. simpl. rewrite app_nil_r, !elem_of_app. right. right.
    unfold calls_for. apply list_elem_of_fmap. exists h. split; [done|].
    simpl. pose proof (ar_destination _ _ Harm) as Hd. simpl in Hd. by rewrite Hd.
Qed.

Definition due_demo : Scheduler :=
  sched_run [Consume "t" 7; Schedule "t" "x" 5; Advance 6] (new_InMemoryScheduler 0).

Lemma due_schedule_delivers_witness :
  ∃ i t, sc_timers due_demo !! i = Some t ∧ tm_id t = "mem-1" ∧
    ((due t ≤ sc_now due_demo)%Z →
     let st1 := sched_exec (Fire i) due_demo in
     let st2 := sched_run (replicate 1 Dispatch) st1 in
     fired (Fire i) due_demo = ["mem-1"] ∧ map_get (sc_pending st1) "mem-1" = None ∧
     ∀ h, h ∈ handlers_of "t" due_demo →
       ∃ m, (h, m) ∈ sc_calls st2 ∧ rm_destination m = "t" ∧ rm_body m = "x").
Proof.
  apply (due_schedule_delivers due_demo "mem-1"
    {| ps_id := "mem-1"; ps_destination := "t"; ps_body := "x"; ps_deliverAt := 5; ps_timer := 0 |}).
  - apply sched_run_reachable. constructor.
  - vm_compute. reflexivity.
Defined.

(** a far schedule fires at once.  Node turns a delay above 2^31-1 ms into 1 ms, so
    a message scheduled thirty days ahead is dispatched one millisecond later. *)
Theorem far_schedule_fires_early :
  let thirty_days := (30 * 24 * 3600 * 1000)%Z in
  let st := sched_run [Schedule "t" "x" thirty_days; Advance 1] (new_InMemoryScheduler 0) in
  fired (Fire 0) st = ["mem-1"] ∧ (sc_now st < thirty_days)%Z.
Proof. vm_compute. done. Qed.

(** ** The scheduler as an adapter of the ports *)

#[export] Instance in_memory_IMessageScheduler : IMessageScheduler Scheduler := {|
  sched_sub := (SetRef * MessageHandler)%type;
  sched_name := "In-Memory (reference)";
  sched_capabilities := in_memory_capabilities;
  sched_connect := mret tt;
  sched_sendNow d p := pure_step (sendNow d p);
  sched_schedule d p at_ := λ st, let '(h, st') := schedule d p at_ st in (inr h, st');
  sched_cancel h := pure_step (cancel h);
  sched_listScheduled d := λ st, (inr (listScheduled d st), st);
  sched_consume d h := λ st, let '(sub, st') := consume d h st in (inr sub, st');
  sched_unsubscribe sub := pure_step (stop_consuming sub);
  sched_dispose := pure_step asyncDispose |}.

#[export] Instance in_memory_IMessageBus : IMessageBus Scheduler := {|
  bus_sub := Subscription;
  bus_capabilities := in_memory_bus_capabilities;
  bus_connectBus := mret tt;
  bus_publish t p rk o := pure_step (λ st, with_bus (InMemoryBus.publish t p rk o (sc_bus st)) st);
  bus_subscribe t h o := λ st,
    let '(sub, b) := InMemoryBus.subscribe t h o (sc_bus st) in (inr sub, with_bus b st);
  bus_unsubscribe sub := pure_step (λ st, with_bus (InMemoryBus.unsubscribe sub (sc_bus st)) st) |}.

#[export] Instance in_memory_contract : SchedulerContract Scheduler.
Proof. by split. Qed.
