(* ===== verification/SchedulerSpec.v ===== *)
(** An abstract specification of a scheduling broker, and the refinement that the
    in-memory scheduler implements it.

    The specification knows no timers, ids of timers, shared sets or entries kept twice:
    it is a calendar of messages with their due times, a queue of messages to hand out,
    and a set of subscriptions. *)

From S2P Require Import Prelude Abstractions Ports InMemoryBus InMemoryScheduler.

(** ** The specification *)

Module Calendar.
Record calendar := {
  now : Z;
  entries : gmap string (Destination * string * Z);   (* with the due time *)
  queue : list (Destination * string);
  subs : gset (Destination * MessageHandler);
  calls : list (MessageHandler * (Destination * string))
}.

Inductive label :=
  | Post (d : Destination) (body : string)
  | Add (id : string) (d : Destination) (body : string) (deliverAt : Z)
  | Remove (id : string)
  | Deliver (id : string)
  | Subscribe (d : Destination) (h : MessageHandler)
  | Unsubscribe (d : Destination) (h : MessageHandler)
  | HandOut
  | Clear
  | Tick (ms : Z).

(** A schedule falls due at its time, or with the next tick when that has passed; beyond
    the longest delay of a timer nothing is promised.  A message is delivered when due,
    and handed once to every subscriber of that moment. *)
Inductive step (c : calendar) : label → calendar → Prop :=
  | post d b :
      step c (Post d b) {| now := now c; entries := entries c; queue := queue c ++ [(d, b)];
                           subs := subs c; calls := calls c |}
  | add id d b deliverAt due :
      entries c !! id = None → (now c < due)%Z →
      (deliverAt - now c ≤ max_delay → due = Z.max deliverAt (now c + 1))%Z →
      step c (Add id d b deliverAt)
        {| now := now c; entries := <[id := (d, b, due)]> (entries c); queue := queue c;
           subs := subs c; calls := calls c |}
  | remove id e :
      entries c !! id = Some e →
      step c (Remove id) {| now := now c; entries := delete id (entries c); queue := queue c;
                            subs := subs c; calls := calls c |}
  | deliver id d b due :
      entries c !! id = Some (d, b, due) → (due ≤ now c)%Z →
      step c (Deliver id) {| now := now c; entries := delete id (entries c); queue := queue c ++ [(d, b)];
                             subs := subs c; calls := calls c |}
  | subscribe d h :
      step c (Subscribe d h) {| now := now c; entries := entries c; queue := queue c;
                                subs := {[(d, h)]} ∪ subs c; calls := calls c |}
  | unsubscribe d h :
      step c (Unsubscribe d h) {| now := now c; entries := entries c; queue := queue c;
                                  subs := subs c ∖ {[(d, h)]}; calls := calls c |}
  | hand_out m rest hs :
      queue c = m :: rest → NoDup hs → (∀ h, h ∈ hs ↔ (m.1, h) ∈ subs c) →
      step c HandOut {| now := now c; entries := entries c; queue := rest;
                        subs := subs c; calls := calls c ++ ((λ h, (h, m)) <$> hs) |}
  | clear :
      step c Clear {| now := now c; entries := ∅; queue := queue c; subs := ∅; calls := calls c |}
  | tick ms :
      (0 ≤ ms)%Z →
      step c (Tick ms) {| now := now c + ms; entries := entries c; queue := queue c;
                          subs := subs c; calls := calls c |}.

Inductive steps : calendar → list label → calendar → Prop :=
  | steps_nil c : steps c [] c
  | steps_cons c1 l c2 ls c3 : step c1 l c2 → steps c2 ls c3 → steps c1 (l :: ls) c3.
End Calendar.

(** ** The abstraction *)

Definition entry_of (t : Timer) : string * (Destination * string * Z) :=
  (tm_id t, (tm_destination t, tm_payload t, due t)).

Definition calendar_entries (ts : list Timer) : gmap string (Destination * string * Z) :=
  list_to_map (entry_of <$> ts).

Definition message_of (m : ReceivedMessage) : Destination * string := (rm_destination m, rm_body m).

Definition subscriptions (st : Scheduler) : gset (Destination * MessageHandler) :=
  list_to_set (p ← map_to_list (sc_handlers st); (λ h, (p.1, h)) <$> handlers_of p.1 st).

Definition calendar_of (st : Scheduler) : Calendar.calendar := {|
  Calendar.now := sc_now st;
  Calendar.entries := calendar_entries (sc_timers st);
  Calendar.queue := message_of <$> sc_microtasks st;
  Calendar.subs := subscriptions st;
  Calendar.calls := prod_map id message_of <$> sc_calls st |}.

(** The destination whose current handler set is the object [r]. *)
Definition destination_of (r : SetRef) (st : Scheduler) : option Destination :=
  fst <$> head (filter (λ p, p.2 = r) (map_to_list (sc_handlers st))).

(** What an operation of the scheduler asks of the calendar; [None]: nothing. *)
Definition asks (op : SchedOp) (st : Scheduler) : option Calendar.label :=
  match op with
  | SendNow d b => Some (Calendar.Post d b)
  | Schedule d b at_ => Some (Calendar.Add (sh_id (schedule d b at_ st).1) d b at_)
  | Cancel h => (λ _, Calendar.Remove (sh_id h)) <$> map_get (sc_pending st) (sh_id h)
  | Fire i =>
      t ← sc_timers st !! i; if decide (due t ≤ sc_now st)%Z then Some (Calendar.Deliver (tm_id t)) else None
  | Consume d h => Some (Calendar.Subscribe d h)
  | StopConsuming s => (λ d, Calendar.Unsubscribe d s.2) <$> destination_of s.1 st
  | Dispatch => (λ _, Calendar.HandOut) <$> head (sc_microtasks st)
  | BusStep _ => None
  | AsyncDispose => Some Calendar.Clear
  | Advance ms => Some (Calendar.Tick (Z.max 0 ms))
  end.

Fixpoint asked (ops : list SchedOp) (st : Scheduler) : list Calendar.label :=
  match ops with
  | [] => []
  | op :: ops' => option_list (asks op st) ++ asked ops' (sched_exec op st)
  end.

(** ** The handler sets *)

(** A destination's set exists, belongs to it alone and holds a handler once. *)
Record sets_wf (st : Scheduler) : Prop := {
  se_valid : ∀ d r, sc_handlers st !! d = Some r → r < length (sc_sets st);
  se_own : ∀ d d' r, sc_handlers st !! d = Some r → sc_handlers st !! d' = Some r → d = d';
  se_nodup : Forall NoDup (sc_sets st)
}.

Lemma same_sets_wf st st' :
  sc_handlers st' = sc_handlers st → sc_sets st' = sc_sets st → sets_wf st → sets_wf st'.
Proof. intros Hh Hs [H1 H2 H3]. split; by rewrite ?Hh, ?Hs. Qed.

Lemma same_handlers st st' d :
  sc_handlers st' = sc_handlers st → sc_sets st' = sc_sets st → handlers_of d st' = handlers_of d st.
Proof. intros Hh Hs. unfold handlers_of. by rewrite Hh, Hs. Qed.

Lemma elem_of_subscriptions st d h : (d, h) ∈ subscriptions st ↔ h ∈ handlers_of d st.
Proof.
  unfold subscriptions. rewrite elem_of_list_to_set, list_elem_of_bind. split.
  - intros ([d' r] & Hin & _). apply list_elem_of_fmap in Hin as (h' & [= -> ->] & Hh). done.
  - intros Hh. unfold handlers_of in Hh. destruct (sc_handlers st !! d) as [r|] eqn:Hd; [|by apply elem_of_nil in Hh].
    exists (d, r). split; [|by apply elem_of_map_to_list]. apply list_elem_of_fmap. exists h. split; [done|].
    unfold handlers_of. simpl. by rewrite Hd.
Qed.

Lemma same_subscriptions st st' :
  sc_handlers st' = sc_handlers st → sc_sets st' = sc_sets st → subscriptions st' = subscriptions st.
Proof.
  intros Hh Hs. apply set_eq. intros [d h]. by rewrite !elem_of_subscriptions, (same_handlers st st').
Qed.

Lemma destination_of_Some st r d :
  sets_wf st → destination_of r st = Some d ↔ sc_handlers st !! d = Some r.
Proof.
  intros Hwf. unfold destination_of.
  assert (Hin : ∀ p, p ∈ filter (λ p, p.2 = r) (map_to_list (sc_handlers st)) ↔ p.2 = r ∧ sc_handlers st !! p.1 = Some r).
  { intros [d' r']. rewrite list_elem_of_filter, elem_of_map_to_list. simpl. naive_solver. }
  destruct (filter _ _) as [|p l]; simpl.
  - split; [done|]. intros Hd. assert (H : (d, r) ∈ []) by by apply Hin. by apply elem_of_nil in H.
  - assert (H : p ∈ p :: l) by left. apply Hin in H as [_ H]. split; [by intros [= <-]|].
    intros Hd. f_equal. by eapply se_own.
Qed.

Lemma alter_nodup f r (l : list (list MessageHandler)) :
  (∀ s, NoDup s → NoDup (f s)) → Forall NoDup l → Forall NoDup (alter f r l).
Proof.
  intros Hf Hl. apply Forall_lookup. intros i s Hs. rewrite Forall_lookup in Hl.
  destruct (decide (r = i)) as [->|Hne].
  - rewrite list_lookup_alter_eq in Hs. apply fmap_Some in Hs as (s' & Hs' & ->). eauto.
  - rewrite list_lookup_alter_ne in Hs by done. eauto.
Qed.

Lemma set_add_elem h s x : x ∈ set_add h s ↔ x = h ∨ x ∈ s.
Proof. unfold set_add. case_decide; [|rewrite elem_of_app, list_elem_of_singleton]; naive_solver. Qed.

Lemma set_add_nodup h s : NoDup s → NoDup (set_add h s).
Proof.
  intros Hs. unfold set_add. case_decide; [done|]. apply NoDup_app.
  split; [done|]. split; [|apply NoDup_singleton]. by intros x Hx ->%list_elem_of_singleton.
Qed.

(** Altering the set of one destination. *)
Lemma handlers_alter f r d d' st :
  sets_wf st → sc_handlers st !! d = Some r →
  handlers_of d' (with_handlers (sc_handlers st) (alter f r (sc_sets st)) st) =
    if decide (d' = d) then f (handlers_of d st) else handlers_of d' st.
Proof.
  intros Hwf Hd. unfold handlers_of. simpl. case_decide as E.
  - subst d'. rewrite Hd. simpl. rewrite list_lookup_alter_eq.
    destruct (lookup_lt_is_Some_2 _ _ (se_valid _ Hwf _ _ Hd)) as [s ->]. done.
  - destruct (sc_handlers st !! d') as [r'|] eqn:Hd'; [|done]. simpl.
    rewrite list_lookup_alter_ne; [done|]. intros <-. apply E. by eapply se_own.
Qed.

(** The state in which [consume] adds the handler. *)
Definition with_set (d : Destination) (st : Scheduler) : Scheduler :=
  match sc_handlers st !! d with
  | Some _ => st
  | None => with_handlers (<[d := length (sc_sets st)]> (sc_handlers st)) (sc_sets st ++ [[]]) st
  end.

Lemma with_set_wf d st : sets_wf st → sets_wf (with_set d st).
Proof.
  intros [H1 H2 H3]. unfold with_set. destruct (sc_handlers st !! d) eqn:Hd; [by split|]. split; simpl.
  - intros d' r [[_ <-]|[_ Hr%H1]]%lookup_insert_Some; rewrite length_app; simpl; lia.
  - intros d1 d2 r [[<- <-]|[? E1]]%lookup_insert_Some [[<- E]|[? E2]]%lookup_insert_Some; try done; eauto.
    + apply H1 in E2. lia.
    + subst r. apply H1 in E1. lia.
  - apply Forall_app. split; [done|]. by apply Forall_singleton, NoDup_nil_2.
Qed.

Lemma with_set_handlers d d' st : sets_wf st → handlers_of d' (with_set d st) = handlers_of d' st.
Proof.
  intros [H1 _ _]. unfold with_set. destruct (sc_handlers st !! d) eqn:Hd; [done|].
  unfold handlers_of. simpl. destruct (decide (d' = d)) as [->|Hne].
  - rewrite lookup_insert_eq, Hd. simpl. by rewrite lookup_app_r, Nat.sub_diag by lia.
  - rewrite lookup_insert_ne by done. destruct (sc_handlers st !! d') as [r|] eqn:Hr; [|done].
    simpl. apply H1 in Hr. by rewrite lookup_app_l.
Qed.

Lemma consume_with_set d h st :
  ∃ r, sc_handlers (with_set d st) !! d = Some r ∧
    (consume d h st).2 = with_handlers (sc_handlers (with_set d st)) (alter (set_add h) r (sc_sets (with_set d st))) (with_set d st).
Proof.
  unfold consume, with_set. destruct (sc_handlers st !! d) as [r|] eqn:Hd; [by exists r|].
  exists (length (sc_sets st)). simpl. split; [apply lookup_insert_eq|done].
Qed.

Lemma alter_sets_wf f r st :
  (∀ s, NoDup s → NoDup (f s)) → sets_wf st → sets_wf (with_handlers (sc_handlers st) (alter f r (sc_sets st)) st).
Proof.
  intros Hf [H1 H2 H3]. split; simpl; [|done|by apply alter_nodup].
  intros d r' Hd. rewrite length_alter. eauto.
Qed.

Lemma sched_exec_sets op st : sets_wf st → sets_wf (sched_exec op st).
Proof.
  intros Hwf. destruct op as [d b|d b a|h|i|d h|s| |op| |ms]; simpl; try by apply (same_sets_wf st).
  - unfold cancel. case_match; [by apply (same_sets_wf st)|done].
  - unfold fire. repeat case_match; try done. by apply (same_sets_wf st).
  - destruct (consume_with_set d h st) as (r & _ & ->).
    apply alter_sets_wf; [apply set_add_nodup|by apply with_set_wf].
  - apply alter_sets_wf; [|done]. intros l. apply NoDup_filter.
  - unfold run_dispatch. case_match; [done|by apply (same_sets_wf st)].
  - destruct Hwf as [_ _ H3]. by split.
Qed.

Lemma sched_reachable_sets st : sched_reachable st → sets_wf st.
Proof.
  induction 1 as [now|st op _ IH]; [|by apply sched_exec_sets]. by split; simpl; [..|apply Forall_nil_2].
Qed.

#[export] Hint Resolve sched_reachable_sets : sched.

(** ** The calendar's entries *)

Lemma entries_keys ts : (entry_of <$> ts).*1 = tm_id <$> ts.
Proof. rewrite <- list_fmap_compose. by apply list_fmap_ext. Qed.

Lemma entries_lookup ts id e :
  NoDup (tm_id <$> ts) → calendar_entries ts !! id = Some e ↔ (id, e) ∈ entry_of <$> ts.
Proof. intros Hnd. unfold calendar_entries. symmetry. apply elem_of_list_to_map. by rewrite entries_keys. Qed.

Lemma entries_at ts k t :
  NoDup (tm_id <$> ts) → ts !! k = Some t →
  calendar_entries ts !! tm_id t = Some (tm_destination t, tm_payload t, due t).
Proof.
  intros Hnd Hk. apply entries_lookup; [done|]. apply list_elem_of_fmap. exists t. split; [done|].
  by eapply list_elem_of_lookup_2.
Qed.

Lemma entries_delete ts k t :
  NoDup (tm_id <$> ts) → ts !! k = Some t →
  calendar_entries (delete k ts) = delete (tm_id t) (calendar_entries ts).
Proof.
  intros Hnd Hk.
  assert (Hnd' : NoDup (tm_id <$> delete k ts)) by (rewrite delete_fmap_list; by apply NoDup_delete).
  apply map_eq. intros id. apply option_eq. intros e.
  rewrite lookup_delete_Some, !entries_lookup, <- (filter_key_delete tm_id ts k t) by done.
  rewrite !list_elem_of_fmap. split.
  - intros (t' & [= -> ->] & [Hne Hin]%list_elem_of_filter). split; [by apply not_eq_sym|]. by exists t'.
  - intros (Hne & t' & [= -> ->] & Hin). exists t'. split; [done|]. apply list_elem_of_filter.
    split; [by apply not_eq_sym|done].
Qed.

(** ** The simulation *)

(** A state whose timers, handlers and queue differ as said, up to equality. *)
Lemma calendar_eq c now entries queue subs calls :
  Calendar.now c = now → Calendar.entries c = entries → Calendar.queue c = queue →
  Calendar.subs c = subs → Calendar.calls c = calls →
  c = {| Calendar.now := now; Calendar.entries := entries; Calendar.queue := queue;
         Calendar.subs := subs; Calendar.calls := calls |}.
Proof. destruct c. simpl. by intros -> -> -> -> ->. Qed.

(** A step whose target is given up to equality. *)
Lemma step_to c l c' c'' : Calendar.step c l c' → c'' = c' → Calendar.step c l c''.
Proof. by intros H ->. Qed.

Ltac same_subs := first [done | by apply same_subscriptions].
Ltac calendar_step r := eapply step_to; [r|apply calendar_eq; simpl; try same_subs].

Lemma schedule_step d b at_ st :
  sched_wf st →
  Calendar.step (calendar_of st) (Calendar.Add (sh_id (schedule d b at_ st).1) d b at_)
    (calendar_of (schedule d b at_ st).2).
Proof.
  intros Hwf. pose proof (sw_ids _ (schedule_wf d b at_ _ Hwf)) as Hnd.
  set (ms := Z.max 0 (at_ - sc_now st)). simpl in Hnd. rewrite fmap_app in Hnd. simpl in Hnd.
  calendar_step ltac:(apply (Calendar.add _ _ _ _ _ (sc_now st + timer_delay ms))).
  - simpl. apply not_elem_of_list_to_map_1. rewrite entries_keys.
    apply NoDup_app in Hnd as (_ & Hd & _). intros Hin. by apply Hd in Hin; apply Hin; left.
  - simpl. unfold timer_delay. case_decide; lia.
  - simpl. unfold timer_delay, ms. case_decide; lia.
  - unfold calendar_entries. rewrite fmap_app. simpl. unfold entry_of at 2. simpl.
    rewrite list_to_map_snoc; [done|]. rewrite entries_keys.
    apply NoDup_app in Hnd as (_ & Hd & _). intros Hin. by apply Hd in Hin; apply Hin; left.
Qed.

Lemma cancel_step h st e :
  sched_wf st → map_get (sc_pending st) (sh_id h) = Some e →
  Calendar.step (calendar_of st) (Calendar.Remove (sh_id h)) (calendar_of (cancel h st)).
Proof.
  intros Hwf He. destruct (pending_position _ _ _ Hwf He) as (k & t & Hk & _ & Harm & _ & Hc).
  pose proof (ar_id _ _ Harm) as Hid. simpl in Hid. unfold cancel. rewrite He, <- Hid.
  calendar_step ltac:(eapply Calendar.remove, entries_at; [apply Hwf|done]).
  rewrite Hc. by apply entries_delete; [apply Hwf|].
Qed.

Lemma fire_step i t st :
  sched_wf st → sc_timers st !! i = Some t → (due t ≤ sc_now st)%Z →
  Calendar.step (calendar_of st) (Calendar.Deliver (tm_id t)) (calendar_of (fire i st)).
Proof.
  intros Hwf Hi Hd. unfold fire. rewrite Hi, decide_True by done.
  calendar_step ltac:(eapply Calendar.deliver; [apply (entries_at _ i); [apply Hwf|done]|done]).
  - by apply entries_delete; [apply Hwf|].
  - by rewrite fmap_app.
Qed.

Lemma consume_step d h st :
  sets_wf st → Calendar.step (calendar_of st) (Calendar.Subscribe d h) (calendar_of (consume d h st).2).
Proof.
  intros Hwf. destruct (consume_with_set d h st) as (r & Hr & ->).
  assert (Hsame : ∀ A (f : Scheduler → A), (∀ hs ss s, f (with_handlers hs ss s) = f s) → f (with_set d st) = f st).
  { intros A f Hf. unfold with_set. case_match; [done|apply Hf]. }
  calendar_step ltac:(apply Calendar.subscribe); try by apply Hsame.
  - apply (Hsame _ (λ s, calendar_entries (sc_timers s))). done.
  - apply (Hsame _ (λ s, message_of <$> sc_microtasks s)). done.
  - apply set_eq. intros [d' h'].
    rewrite elem_of_subscriptions, (handlers_alter _ _ d) by (by apply with_set_wf || done).
    rewrite elem_of_union, elem_of_singleton, elem_of_subscriptions, !with_set_handlers by done.
    case_decide as E; [subst; rewrite set_add_elem|]; naive_solver.
  - apply (Hsame _ (λ s, prod_map id message_of <$> sc_calls s)). done.
Qed.

Lemma stop_step d s st :
  sets_wf st → sc_handlers st !! d = Some s.1 →
  Calendar.step (calendar_of st) (Calendar.Unsubscribe d s.2) (calendar_of (stop_consuming s st)).
Proof.
  intros Hwf Hd. unfold stop_consuming. calendar_step ltac:(apply Calendar.unsubscribe).
  apply set_eq. intros [d' h']. rewrite elem_of_subscriptions, (handlers_alter _ _ d) by done.
  rewrite elem_of_difference, elem_of_singleton, elem_of_subscriptions.
  case_decide as E; [subst; rewrite list_elem_of_filter|]; naive_solver.
Qed.

(** Unsubscribing from a set no destination uses any more, after a dispose. *)
Lemma stop_stale s st :
  sets_wf st → destination_of s.1 st = None → calendar_of (stop_consuming s st) = calendar_of st.
Proof.
  intros Hwf Hnone. unfold calendar_of. f_equal. apply set_eq. intros [d h].
  rewrite !elem_of_subscriptions. unfold stop_consuming, handlers_of. simpl.
  destruct (sc_handlers st !! d) as [r|] eqn:Hd; [|done]. simpl.
  rewrite list_lookup_alter_ne; [done|]. intros <-.
  apply (destination_of_Some _ _ _ Hwf) in Hd. congruence.
Qed.

Lemma dispatch_step m rest st :
  sets_wf st → sc_microtasks st = m :: rest →
  Calendar.step (calendar_of st) Calendar.HandOut (calendar_of (run_dispatch st)).
Proof.
  intros Hwf Hm. unfold run_dispatch. rewrite Hm.
  calendar_step ltac:(apply (Calendar.hand_out _ (message_of m) (message_of <$> rest) (handlers_of (rm_destination m) st))).
  - simpl. by rewrite Hm.
  - unfold handlers_of. destruct (sc_handlers st !! rm_destination m) as [r|]; [|apply NoDup_nil_2]. simpl.
    destruct (sc_sets st !! r) as [s|] eqn:Hs; [|apply NoDup_nil_2].
    pose proof (se_nodup _ Hwf) as H. rewrite Forall_lookup in H. eauto.
  - intros h. simpl. by rewrite elem_of_subscriptions.
  - rewrite fmap_app, <- list_fmap_compose. done.
Qed.

(** Every operation is the step it asks for, or changes nothing the calendar shows. *)
Lemma exec_simulates op st :
  sched_reachable st →
  match asks op st with
  | Some l => Calendar.step (calendar_of st) l (calendar_of (sched_exec op st))
  | None => calendar_of (sched_exec op st) = calendar_of st
  end.
Proof.
  intros Hst. pose proof (sched_reachable_wf _ Hst) as Hwf. pose proof (sched_reachable_sets _ Hst) as Hse.
  destruct op as [d b|d b a|h|i|d h|s| |op| |ms]; cbn [asks sched_exec].
  - calendar_step ltac:(apply Calendar.post). by rewrite fmap_app.
  - by apply schedule_step.
  - destruct (map_get (sc_pending st) (sh_id h)) as [e|] eqn:He; simpl; [by eapply cancel_step|].
    unfold cancel. by rewrite He.
  - destruct (sc_timers st !! i) as [t|] eqn:Hi; simpl; [case_decide|].
    + by apply fire_step.
    + unfold fire. by rewrite Hi, decide_False.
    + unfold fire. by rewrite Hi.
  - by apply consume_step.
  - destruct (destination_of s.1 st) as [d|] eqn:Hd; simpl; [|by apply stop_stale].
    apply stop_step; [done|]. by apply destination_of_Some.
  - destruct (sc_microtasks st) as [|m rest] eqn:Hm; simpl; [unfold run_dispatch; by rewrite Hm|].
    by eapply dispatch_step.
  - done.
  - calendar_step ltac:(apply Calendar.clear).
    pose proof (dispose_timers st Hwf) as E. simpl in E. by rewrite E.
  - calendar_step ltac:(apply Calendar.tick; lia).
Qed.

Lemma run_simulates ops st :
  sched_reachable st → Calendar.steps (calendar_of st) (asked ops st) (calendar_of (sched_run ops st)).
Proof.
  revert st. induction ops as [|op ops IH]; intros st Hst; [constructor|]. simpl.
  pose proof (exec_simulates op st Hst) as H. specialize (IH _ (sched_step _ op Hst)).
  destruct (asks op st) as [l|]; simpl; [by eapply Calendar.steps_cons|]. by rewrite <- H.
Qed.

(** ** Properties *)

(** C4: the scheduler refines the calendar.  Every run of the in-memory scheduler from a
    reachable state is the run of the abstract calendar that performs the requests in
    order: a schedule is an entry under a fresh id with its due time, a cancel removes it,
    a timer delivers it only when due, a dispatch hands one message once to each current
    subscriber, and an unsubscribe of a set that was disposed of is no request. *)
Theorem scheduler_refines_calendar (st : Scheduler) (ops : list SchedOp) :
  sched_reachable st → Calendar.steps (calendar_of st) (asked ops st) (calendar_of (sched_run ops st)).
Proof. apply run_simulates. Qed.

Definition demo_requests : list SchedOp :=
  [Consume "t" 1; Schedule "t" "x" 1000; Schedule "t" "y" 2000;
   Cancel {| sh_id := "mem-1"; sh_destination := "t"; sh_deliverAt := 1000 |};
   Advance 2000; Fire 0; Dispatch; AsyncDispose; StopConsuming (0, 1)].

Lemma scheduler_refines_calendar_witness :
  asked demo_requests (new_InMemoryScheduler 0) =
    [Calendar.Subscribe "t" 1; Calendar.Add "mem-1" "t" "x" 1000; Calendar.Add "mem-2" "t" "y" 2000;
     Calendar.Remove "mem-1"; Calendar.Tick 2000; Calendar.Deliver "mem-2"; Calendar.HandOut; Calendar.Clear] ∧
  Calendar.steps (calendar_of (new_InMemoryScheduler 0)) (asked demo_requests (new_InMemoryScheduler 0))
    (calendar_of (sched_run demo_requests (new_InMemoryScheduler 0))).
Proof.
  split; [vm_compute; reflexivity|].
  apply (scheduler_refines_calendar (new_InMemoryScheduler 0) demo_requests (sched_init 0)).
Defined.
