(* ===== verification/Resilience.v ===== *)
(** The two decorators of the ports: fault injection (fault/fault-injecting-bus.ts)
    and resilience (resilience/resilient-scheduler.ts).

    The retry and circuit-breaker policies belong to the cockatiel package; they are
    the class [Cockatiel]: operations with the laws the package documents.  The
    decorator's own code (the error filter, the order of the two policies, the event
    translation, what runs through the pipeline) is translated. *)

From S2P Require Import Prelude Abstractions Ports InMemoryBus InMemoryScheduler.

(** ** Fault injection *)

Record Faulted (W : Type) := { failuresRemaining : nat; fi_inner : W }.
Arguments failuresRemaining {W}.
Arguments fi_inner {W}.

Definition fi_put {W} (w : W) (f : Faulted W) : Faulted W :=
  {| failuresRemaining := failuresRemaining f; fi_inner := w |}.

Definition injectFailures {W} (count : nat) (f : Faulted W) : Faulted W :=
  {| failuresRemaining := count; fi_inner := fi_inner f |}.

(** [new TransientFault()]: the default message. *)
Definition simulated_disconnect : Error := TransientFault "simulated broker disconnect".

Definition maybeFail {W} : M (Faulted W) unit := λ f,
  match failuresRemaining f with
  | S n => (inl simulated_disconnect,
            {| failuresRemaining := n; fi_inner := fi_inner f |})
  | 0 => (inr tt, f)
  end.

(** Forward a call to the inner adapter. *)
Definition forward {W A} (m : M W A) : M (Faulted W) A := lift fi_inner fi_put m.

#[export] Instance FaultInjecting_IMessageScheduler {W} `{IMessageScheduler W} :
    IMessageScheduler (Faulted W) := {|
  sched_sub := sched_sub;
  sched_name := sched_name +:+ " (fault-injectable)";
  sched_capabilities := sched_capabilities;
  sched_connect := forward sched_connect;
  sched_sendNow d p := _ ← maybeFail; forward (sched_sendNow d p);
  sched_schedule d p at_ := forward (sched_schedule d p at_);
  sched_cancel h := forward (sched_cancel h);
  sched_listScheduled d := forward (sched_listScheduled d);
  sched_consume d h := forward (sched_consume d h);
  sched_unsubscribe s := forward (sched_unsubscribe s);
  sched_dispose := forward sched_dispose |}.

(** [publish] of the decorator has no [options] parameter. *)
#[export] Instance FaultInjecting_IMessageBus {W} `{IMessageBus W} : IMessageBus (Faulted W) := {|
  bus_sub := bus_sub;
  bus_capabilities := bus_capabilities;
  bus_connectBus := forward bus_connectBus;
  bus_publish t p rk _ := _ ← maybeFail; forward (bus_publish t p rk no_publish_options);
  bus_subscribe t h o := forward (bus_subscribe t h o);
  bus_unsubscribe s := forward (bus_unsubscribe s) |}.

#[export] Instance FaultInjecting_contract {W} `{SchedulerContract W} :
  SchedulerContract (Faulted W).
Proof.
  split; intros Hs x; simpl; apply lift_refuses; [by apply contract_cancel|by apply contract_list].
Qed.

(** ** The policies of the cockatiel package *)

Inductive Circuit := Closed (failures : nat) | Open.
Inductive CircuitEvent := OnBreak | OnHalfOpen | OnReset.

Class Cockatiel := {
  breaker : Type;
  threshold : breaker → nat;
  circuit : breaker → Circuit;
  ready : breaker → bool;  (* [halfOpenAfter] has elapsed since the circuit opened *)
  new_breaker : nat → Z → breaker;
  (* [retry(handleWhen(filter), { maxAttempts })] with its [onRetry] listener *)
  retry : ∀ {X A}, nat → (Error → bool) → (Error → X → X) → M X A → M X A;
  (* [circuitBreaker(handleWhen(filter), ...)] with its three listeners *)
  execute : ∀ {X A}, (Error → bool) → (CircuitEvent → X → X) → M X A → M (breaker * X) A;
  retry_data_reason : Error → option string;  (* the [reason] property of the [onRetry] data *)
  new_breaker_spec n ms : circuit (new_breaker n ms) = Closed 0 ∧ threshold (new_breaker n ms) = n;
  retry_ok {X A} n f cb (m : M X A) x a x' :
    m x = (inr a, x') → retry n f cb m x = (inr a, x');
  retry_unhandled {X A} n f cb (m : M X A) x e x' :
    m x = (inl e, x') → f e = false → retry n f cb m x = (inl e, x');
  retry_exhausted {X A} f cb (m : M X A) x e x' :
    m x = (inl e, x') → f e = true → retry 0 f cb m x = (inl e, x');
  retry_again {X A} n f cb (m : M X A) x e x' :
    m x = (inl e, x') → f e = true → retry (S n) f cb m x = retry n f cb m (cb e x');
  closed_success {X A} f cb (m : M X A) b k x a x' :
    circuit b = Closed k → m x = (inr a, x') →
    ∃ b', execute f cb m (b, x) = (inr a, (b', x')) ∧ circuit b' = Closed 0 ∧ threshold b' = threshold b;
  closed_unhandled {X A} f cb (m : M X A) b k x e x' :
    circuit b = Closed k → m x = (inl e, x') → f e = false →
    ∃ b', execute f cb m (b, x) = (inl e, (b', x')) ∧ circuit b' = Closed k ∧ threshold b' = threshold b;
  closed_failure {X A} f cb (m : M X A) b k x e x' :
    circuit b = Closed k → m x = (inl e, x') → f e = true → S k < threshold b →
    ∃ b', execute f cb m (b, x) = (inl e, (b', x')) ∧ circuit b' = Closed (S k) ∧
      threshold b' = threshold b;
  closed_trip {X A} f cb (m : M X A) b k x e x' :
    circuit b = Closed k → m x = (inl e, x') → f e = true → threshold b ≤ S k →
    ∃ b', execute f cb m (b, x) = (inl e, (b', cb OnBreak x')) ∧ circuit b' = Open ∧ ready b' = false ∧
      threshold b' = threshold b;
  open_rejects {X A} f cb (m : M X A) b x :
    circuit b = Open → ready b = false →
    ∃ e, execute f cb m (b, x) = (inl e, (b, x)) ∧ is_NotSupported e = false;
  probe_success {X A} f cb (m : M X A) b x a x' :
    circuit b = Open → ready b = true → m (cb OnHalfOpen x) = (inr a, x') →
    ∃ b', execute f cb m (b, x) = (inr a, (b', cb OnReset x')) ∧ circuit b' = Closed 0 ∧
      threshold b' = threshold b
}.

(** ** The resilience decorator *)

Record ResilienceOptions := {
  maxRetryAttempts : nat;
  initialDelayMs : Z;
  maxDelayMs : Z;
  consecutiveFailures : nat;
  halfOpenAfterMs : Z
}.

Definition DEFAULT_RESILIENCE : ResilienceOptions := {|
  maxRetryAttempts := 3; initialDelayMs := 200; maxDelayMs := 3000;
  consecutiveFailures := 5; halfOpenAfterMs := 5000 |}.

Inductive ResilienceEvent :=
  | RetryEvent (attempt : nat) (error : string)
  | BreakerOpen
  | BreakerHalfOpen
  | BreakerClose.

(** The decorated adapter, the [attempt] counter and the events emitted so far. *)
Record Observed (W : Type) := {
  ob_attempt : nat;
  ob_events : list ResilienceEvent;
  ob_inner : W
}.
Arguments ob_attempt {W}.
Arguments ob_events {W}.
Arguments ob_inner {W}.

Definition ob_put {W} (w : W) (o : Observed W) : Observed W :=
  {| ob_attempt := ob_attempt o; ob_events := ob_events o; ob_inner := w |}.

Definition emit {W} (e : ResilienceEvent) (o : Observed W) : Observed W :=
  {| ob_attempt := ob_attempt o; ob_events := ob_events o ++ [e]; ob_inner := ob_inner o |}.

(** A transient fault is anything except a declared "not supported" outcome. *)
Definition is_transient (err : Error) : bool := negb (is_NotSupported err).

Definition ALL_BUS_FALSE : BusCapabilities := {|
  supportsTopic := false; supportsFanout := false; supportsManualAck := false;
  supportsDeadLetter := false; reportsDeliveryCount := false; supportsDedup := false;
  supportsStreamReplay := false; supportsMessageGroups := None |}.

(** The state of a [ResilientScheduler] over an adapter with state [W]. *)
Abbreviation Resilient W := (breaker * Observed W)%type.

Section resilient.
Context `{Cockatiel} (options : ResilienceOptions).
Context {W : Type}.

Definition new_Resilient (w : W) : Resilient W :=
  (new_breaker (consecutiveFailures options) (halfOpenAfterMs options),
   {| ob_attempt := 0; ob_events := []; ob_inner := w |}).

(** [String(data.reason)] when the data has a [reason], else 'transient'. *)
Definition retry_reason (err : Error) : string := default "transient" (retry_data_reason err).

(** The [onRetry] listener. *)
Definition on_retry (err : Error) (r : Resilient W) : Resilient W :=
  let attempt := S (ob_attempt r.2) in
  (r.1, {| ob_attempt := attempt;
           ob_events := ob_events r.2 ++ [RetryEvent attempt (retry_reason err)];
           ob_inner := ob_inner r.2 |}).

(** The [onBreak], [onHalfOpen] and [onReset] listeners. *)
Definition on_circuit (ev : CircuitEvent) : Observed W → Observed W :=
  match ev with
  | OnBreak => emit BreakerOpen
  | OnHalfOpen => emit BreakerHalfOpen
  | OnReset => emit BreakerClose
  end.

(** [this.run]: retry around the breaker around the call. *)
Definition run_op {A} (op : M W A) : M (Resilient W) A :=
  retry (maxRetryAttempts options) is_transient on_retry
    (execute is_transient on_circuit (lift ob_inner ob_put op)).

(** What does not go through [run]: dispose, and the close of a subscription, which is
    the inner adapter's own object. *)
Definition bypass {A} (op : M W A) : M (Resilient W) A :=
  lift snd (λ o r, (r.1, o)) (lift ob_inner ob_put op).

Definition Resilient_IMessageScheduler `{IMessageScheduler W} : IMessageScheduler (Resilient W) := {|
  sched_sub := sched_sub;
  sched_name := sched_name +:+ " + Cockatiel";
  sched_capabilities := sched_capabilities;
  sched_connect := run_op sched_connect;
  sched_sendNow d p := run_op (sched_sendNow d p);
  sched_schedule d p at_ := run_op (sched_schedule d p at_);
  sched_cancel h := run_op (sched_cancel h);
  sched_listScheduled d := run_op (sched_listScheduled d);
  sched_consume d h := run_op (sched_consume d h);
  sched_unsubscribe s := bypass (sched_unsubscribe s);
  sched_dispose := bypass sched_dispose |}.

Definition Resilient_IMessageBus `{IMessageScheduler W} `{IMessageBus W} : IMessageBus (Resilient W) := {|
  bus_sub := bus_sub;
  bus_capabilities := default ALL_BUS_FALSE (cap_bus sched_capabilities);
  bus_connectBus := run_op bus_connectBus;
  bus_publish t p rk o := run_op (bus_publish t p rk o);
  bus_subscribe t h o := run_op (bus_subscribe t h o);
  bus_unsubscribe s := bypass (bus_unsubscribe s) |}.

(** ** How one call runs *)

Lemma on_retry_eq err b att evs w :
  on_retry err (b, {| ob_attempt := att; ob_events := evs; ob_inner := w |}) =
  (b, {| ob_attempt := S att; ob_events := evs ++ [RetryEvent (S att) (retry_reason err)];
         ob_inner := w |}).
Proof. done. Qed.

Lemma lift_inner_ok {A} (op : M W A) (o : Observed W) a w' :
  op (ob_inner o) = (inr a, w') → lift ob_inner ob_put op o = (inr a, ob_put w' o).
Proof. intros E. unfold lift. by rewrite E. Qed.

Lemma lift_inner_err {A} (op : M W A) (o : Observed W) e w' :
  op (ob_inner o) = (inl e, w') → lift ob_inner ob_put op o = (inl e, ob_put w' o).
Proof. intros E. unfold lift. by rewrite E. Qed.

(** The op throws transient faults [j] times, then returns [a]. *)
Inductive fails_then {A} (op : M W A) : nat → W → A → W → Prop :=
  | succeeds w a w' : op w = (inr a, w') → fails_then op 0 w a w'
  | fails_once j w e w1 a w' :
      op w = (inl e, w1) → is_transient e = true → fails_then op j w1 a w' →
      fails_then op (S j) w a w'.

Lemma run_absorbs {A} (op : M W A) j n w a w' b k att evs :
  fails_then op j w a w' → j ≤ n → circuit b = Closed k → k + j < threshold b →
  ∃ b' evs', retry n is_transient on_retry (execute is_transient on_circuit (lift ob_inner ob_put op))
      (b, {| ob_attempt := att; ob_events := evs; ob_inner := w |}) =
    (inr a, (b', {| ob_attempt := att + j; ob_events := evs ++ evs'; ob_inner := w' |})) ∧
    circuit b' = Closed 0 ∧ threshold b' = threshold b ∧ length evs' = j.
Proof.
  intros Hf. revert n b k att evs. induction Hf as [w a w' Hop|j w e w1 a w' Hop He _ IH];
    intros n b k att evs Hn Hb Hk.
  - set (o := {| ob_attempt := att |}).
    pose proof (lift_inner_ok op o a w' Hop) as Hl.
    destruct (closed_success is_transient on_circuit _ b k _ _ _ Hb Hl) as (b' & Hex & Hb' & Ht).
    exists b', []. rewrite (retry_ok _ _ _ _ _ _ _ Hex), Nat.add_0_r, app_nil_r. done.
  - set (o := {| ob_attempt := att |}).
    pose proof (lift_inner_err op o e w1 Hop) as Hl.
    destruct (closed_failure is_transient on_circuit _ b k _ _ _ Hb Hl He ltac:(lia))
      as (b' & Hex & Hb' & Ht).
    destruct n as [|n]; [lia|]. rewrite (retry_again _ _ _ _ _ _ _ Hex He).
    destruct (IH n b' (S k) (S att) (evs ++ [RetryEvent (S att) (retry_reason e)]))
      as (b2 & evs2 & Hr & Hc & Ht2 & Hl2); [lia|done|lia|].
    exists b2, (RetryEvent (S att) (retry_reason e) :: evs2). 
    change (ob_put w1 o) with {| ob_attempt := att; ob_events := evs; ob_inner := w1 |}.
    rewrite on_retry_eq, Hr. replace (S att + j) with (att + S j) by lia. rewrite <- app_assoc. simpl.
    by rewrite Ht2, Ht, Hl2.
Qed.

Lemma run_not_supported {A} (op : M W A) b k o e w' :
  circuit b = Closed k → op (ob_inner o) = (inl e, w') → is_NotSupported e = true →
  ∃ b', run_op op (b, o) = (inl e, (b', ob_put w' o)) ∧ circuit b' = Closed k ∧
    threshold b' = threshold b.
Proof.
  intros Hb Hop He. assert (Hf : is_transient e = false) by (unfold is_transient; by rewrite He).
  pose proof (lift_inner_err op o e w' Hop) as Hl.
  destruct (closed_unhandled is_transient on_circuit _ b k _ _ _ Hb Hl Hf) as (b' & Hex & Hb' & Ht).
  exists b'. unfold run_op. by rewrite (retry_unhandled _ _ _ _ _ _ _ Hex Hf).
Qed.

(** While the circuit is open every attempt is rejected. *)
Lemma run_rejected {A} (op : M W A) n b att evs w :
  circuit b = Open → ready b = false →
  ∃ e o', retry n is_transient on_retry (execute is_transient on_circuit (lift ob_inner ob_put op))
      (b, {| ob_attempt := att; ob_events := evs; ob_inner := w |}) = (inl e, (b, o')) ∧
    is_NotSupported e = false ∧ ob_inner o' = w ∧ ob_attempt o' = att + n.
Proof.
  intros Hb Hr. revert att evs. induction n as [|n IH]; intros att evs;
    destruct (open_rejects is_transient on_circuit (lift ob_inner ob_put op) b
      {| ob_attempt := att; ob_events := evs; ob_inner := w |} Hb Hr) as (e & Hex & He);
    assert (Hf : is_transient e = true) by (unfold is_transient; by rewrite He).
  - rewrite (retry_exhausted _ _ _ _ _ _ Hex Hf). eexists e, _. rewrite Nat.add_0_r. done.
  - rewrite (retry_again _ _ _ _ _ _ _ Hex Hf), on_retry_eq.
    destruct (IH (S att) (evs ++ [RetryEvent (S att) (retry_reason e)])) as (e2 & o2 & -> & ? & ? & ?).
    exists e2, o2. split; [done|]. split; [done|]. split; [done|]. lia.
Qed.
End resilient.

(** ** A concrete policy, to show that the laws can hold

    The breaker counts the milliseconds it has been in its present state; [demo_cool]
    lets time pass. *)
Record demo_breaker := { db_threshold : nat; db_circuit : Circuit; db_halfOpenAfter : Z; db_since : Z }.

Definition set_circuit (c : Circuit) (b : demo_breaker) : demo_breaker := {|
  db_threshold := db_threshold b; db_circuit := c; db_halfOpenAfter := db_halfOpenAfter b; db_since := 0 |}.

Definition demo_cool (ms : Z) (b : demo_breaker) : demo_breaker := {|
  db_threshold := db_threshold b; db_circuit := db_circuit b; db_halfOpenAfter := db_halfOpenAfter b;
  db_since := db_since b + ms |}.

(** A breaker that opened just now is not ready, whatever its half-open time. *)
Definition db_ready (b : demo_breaker) : bool :=
  bool_decide (0 < db_since b ∧ db_halfOpenAfter b ≤ db_since b)%Z.

Fixpoint demo_retry {X A} (n : nat) (f : Error → bool) (cb : Error → X → X) (m : M X A) : M X A := λ x,
  match m x with
  | (inr a, x') => (inr a, x')
  | (inl e, x') =>
      if f e then
        match n with
        | 0 => (inl e, x')
        | S n' => demo_retry n' f cb m (cb e x')
        end
      else (inl e, x')
  end.

Definition demo_execute {X A} (f : Error → bool) (cb : CircuitEvent → X → X) (m : M X A) :
    M (demo_breaker * X) A := λ '(b, x),
  match db_circuit b with
  | Closed k =>
      match m x with
      | (inr a, x') => (inr a, (set_circuit (Closed 0) b, x'))
      | (inl e, x') =>
          if f e then
            if decide (S k < db_threshold b) then (inl e, (set_circuit (Closed (S k)) b, x'))
            else (inl e, (set_circuit Open b, cb OnBreak x'))
          else (inl e, (b, x'))
      end
  | Open =>
      if db_ready b then
        match m (cb OnHalfOpen x) with
        | (inr a, x') => (inr a, (set_circuit (Closed 0) b, cb OnReset x'))
        | (inl e, x') => (inl e, (set_circuit Open b, cb OnBreak x'))
        end
      else (inl (OtherError "Execution prevented because the circuit breaker is open"), (b, x))
  end.

#[export] Instance demo_cockatiel : Cockatiel.
Proof.
  refine {|
    breaker := demo_breaker; threshold := db_threshold; circuit := db_circuit; ready := db_ready;
    new_breaker := λ n ms, {| db_threshold := n; db_circuit := Closed 0; db_halfOpenAfter := ms; db_since := 0 |};
    retry := @demo_retry; execute := @demo_execute; retry_data_reason := λ _, None |}.
  - done.
  - intros X A n f cb m x a x' E. destruct n; simpl; by rewrite E.
  - intros X A n f cb m x e x' E Hf. destruct n; simpl; by rewrite E, Hf.
  - intros X A f cb m x e x' E Hf. simpl. by rewrite E, Hf.
  - intros X A n f cb m x e x' E Hf. simpl. by rewrite E, Hf.
  - intros X A f cb m b k x a x' Hb E. simpl. rewrite Hb, E. by eexists.
  - intros X A f cb m b k x e x' Hb E Hf. simpl. rewrite Hb, E, Hf. by exists b.
  - intros X A f cb m b k x e x' Hb E Hf Hlt. simpl. rewrite Hb, E, Hf, decide_True by done. by eexists.
  - intros X A f cb m b k x e x' Hb E Hf Hle. simpl. rewrite Hb, E, Hf, decide_False by lia. by eexists.
  - intros X A f cb m b x Hb Hr. simpl. rewrite Hb, Hr. by eexists.
  - intros X A f cb m b x a x' Hb Hr E. simpl. rewrite Hb, Hr, E. by eexists.
Defined.

(** ** Properties *)

(** C24: transient faults are absorbed.  A call that fails with transient faults [j]
    times and then succeeds, [j] at most the retry budget and too few to trip the
    closed breaker, succeeds through the decorator with the inner effects of exactly
    those attempts; the breaker's count is reset and [j] retries are reported. *)
Theorem transient_absorbed `{Cockatiel} (options : ResilienceOptions) {W A} (op : M W A)
    (j : nat) (w w' : W) (a : A) (b : breaker) (k : nat) (o : Observed W) :
  fails_then op j w a w' → j ≤ maxRetryAttempts options →
  circuit b = Closed k → k + j < threshold b → ob_inner o = w →
  ∃ b' o', run_op options op (b, o) = (inr a, (b', o')) ∧ ob_inner o' = w' ∧
    circuit b' = Closed 0 ∧ ob_attempt o' = ob_attempt o + j ∧
    length (ob_events o') = length (ob_events o) + j.
Proof.
  intros Hf Hj Hb Hk <-. destruct o as [att evs w0].
  destruct (run_absorbs op j (maxRetryAttempts options) w0 a w' b k att evs Hf Hj Hb Hk)
    as (b' & evs' & Hr & Hc & _ & Hl).
  exists b', {| ob_attempt := att + j; ob_events := evs ++ evs'; ob_inner := w' |}.
  split; [exact Hr|]. simpl. by rewrite length_app, Hl.
Qed.

(** A faulted state whose next [j] sends fail. *)
Definition blip {W} (j : nat) (w : W) : Faulted W := {| failuresRemaining := j; fi_inner := w |}.

Lemma blip_fails_then {W A} (m : M W A) j w a w' :
  m w = (inr a, w') →
  fails_then (_ ← maybeFail; forward m) j (blip j w) a (blip 0 w').
Proof.
  intros Hm. induction j as [|j IH].
  - apply succeeds. unfold mbind, M_bind, maybeFail, forward, lift. simpl. by rewrite Hm.
  - eapply fails_once; [reflexivity|done|exact IH].
Qed.

(** The publish of [demo_retry_publish]: two faults, then the in-memory adapter. *)
Definition demo_publish : M (Faulted Scheduler) unit :=
  _ ← maybeFail; forward (bus_publish "t" "x" None no_publish_options).

Lemma transient_absorbed_witness :
  ∃ b' o', run_op DEFAULT_RESILIENCE demo_publish
      (new_breaker 5 5000, {| ob_attempt := 0; ob_events := []; ob_inner := blip 2 (new_InMemoryScheduler 0) |})
      = (inr tt, (b', o')) ∧
    ob_inner o' = blip 0 (with_bus (InMemoryBus.publish "t" "x" None no_publish_options new_InMemoryBus)
                            (new_InMemoryScheduler 0)) ∧
    circuit b' = Closed 0 ∧ ob_attempt o' = 0 + 2 ∧ length (ob_events o') = 0 + 2.
Proof.
  apply (transient_absorbed DEFAULT_RESILIENCE demo_publish 2 (blip 2 (new_InMemoryScheduler 0)) _ tt
    (new_breaker 5 5000) 0 {| ob_attempt := 0; ob_events := []; ob_inner := blip 2 (new_InMemoryScheduler 0) |}).
  - apply blip_fails_then. reflexivity.
  - simpl. lia.
  - reflexivity.
  - simpl. lia.
  - reflexivity.
Defined.

(** a declared gap stays a declared gap.  While the circuit is closed, an operation
    that answers [NotSupportedError] is attempted exactly once, its error reaches the
    caller unchanged, no event is emitted and the breaker's failure count is kept. *)
Theorem not_supported_transparent `{Cockatiel} (options : ResilienceOptions) {W A} (op : M W A)
    (b : breaker) (k : nat) (o : Observed W) (e : Error) (w' : W) :
  circuit b = Closed k → op (ob_inner o) = (inl e, w') → is_NotSupported e = true →
  ∃ b', run_op options op (b, o) =
      (inl e, (b', {| ob_attempt := ob_attempt o; ob_events := ob_events o; ob_inner := w' |})) ∧
    circuit b' = Closed k.
Proof.
  intros Hb Hop He. destruct (run_not_supported options op b k o e w' Hb Hop He) as (b' & Hr & Hc & _).
  by exists b'.
Qed.

Definition refuse_cancel : M nat unit := throw (NotSupportedError "cancel" "demo" None).

Lemma not_supported_transparent_witness :
  ∃ b', run_op DEFAULT_RESILIENCE refuse_cancel
      (new_breaker 5 5000, {| ob_attempt := 0; ob_events := []; ob_inner := 7 |}) =
      (inl (NotSupportedError "cancel" "demo" None),
       (b', {| ob_attempt := 0; ob_events := []; ob_inner := 7 |})) ∧ circuit b' = Closed 0.
Proof.
  apply (not_supported_transparent DEFAULT_RESILIENCE refuse_cancel (new_breaker 5 5000) 0
    {| ob_attempt := 0; ob_events := []; ob_inner := 7 |}); reflexivity.
Defined.

(** The op always fails with a transient fault. *)
Definition outage {W A} (op : M W A) : Prop :=
  ∀ w, ∃ e w', op w = (inl e, w') ∧ is_transient e = true.

Lemma run_outage `{Cockatiel} {W A} (op : M W A) n b k o :
  outage op → circuit b = Closed k → threshold b ≤ k + S n →
  ∃ e b' o', retry n is_transient on_retry (execute is_transient on_circuit (lift ob_inner ob_put op))
      (b, o) = (inl e, (b', o')) ∧ circuit b' = Open ∧ ready b' = false.
Proof.
  intros Hout. revert b k o. induction n as [|n IH]; intros b k [att evs w] Hb Ht;
    destruct (Hout w) as (e & w' & Hop & He);
    pose proof (lift_inner_err op {| ob_attempt := att; ob_events := evs; ob_inner := w |} e w' Hop) as Hl.
  - destruct (closed_trip is_transient on_circuit _ b k _ _ _ Hb Hl He ltac:(lia))
      as (b' & Hex & Ho & Hr & _).
    exists e, b'. eexists. by rewrite (retry_exhausted _ _ _ _ _ _ Hex He).
  - destruct (decide (S k < threshold b)) as [Hlt|Hge].
    + destruct (closed_failure is_transient on_circuit _ b k _ _ _ Hb Hl He Hlt) as (b' & Hex & Hb' & Ht').
      rewrite (retry_again _ _ _ _ _ _ _ Hex He). unfold on_retry at 2. simpl.
      apply (IH b' (S k)); [done|lia].
    + destruct (closed_trip is_transient on_circuit _ b k _ _ _ Hb Hl He ltac:(lia))
        as (b' & Hex & Ho & Hr & _).
      rewrite (retry_again _ _ _ _ _ _ _ Hex He). unfold ob_put, on_circuit, emit. simpl.
      rewrite on_retry_eq. set (evs2 := (_ ++ _) ++ _).
      destruct (run_rejected op n b' (S att) evs2 w' Ho Hr) as (e2 & o2 & E & _ & _).
      exists e2, b', o2. split; [exact E|done].
Qed.

(** an outage trips the breaker, and then the adapter is left alone.  When every
    attempt fails with a transient fault and the attempts of one call reach the
    threshold, the call fails and the circuit is open; until the half-open time passes
    every further call fails without touching the adapter at all. *)
Theorem outage_opens_circuit `{Cockatiel} (options : ResilienceOptions) {W A B} (op : M W A)
    (op' : M W B) (b : breaker) (k : nat) (o : Observed W) :
  outage op → circuit b = Closed k → threshold b ≤ k + S (maxRetryAttempts options) →
  ∃ e b1 o1, run_op options op (b, o) = (inl e, (b1, o1)) ∧ circuit b1 = Open ∧
    ∃ e' o2, run_op options op' (b1, o1) = (inl e', (b1, o2)) ∧ ob_inner o2 = ob_inner o1.
Proof.
  intros Hout Hb Ht. destruct (run_outage op _ b k o Hout Hb Ht) as (e & b1 & o1 & Hr & Hc & Hrd).
  exists e, b1, o1. split; [exact Hr|]. split; [done|]. destruct o1 as [att evs w].
  destruct (run_rejected op' (maxRetryAttempts options) b1 att evs w Hc Hrd) as (e2 & o2 & E & _ & Hw & _).
  by exists e2, o2.
Qed.

Definition demo_at (c : Circuit) : breaker := {| db_threshold := 5; db_circuit := c;
  db_halfOpenAfter := 5000; db_since := 0 |}.

Definition broken_send : M nat unit := λ w, (inl (TransientFault "down"), S w).

Lemma outage_opens_circuit_witness :
  ∃ e b1 o1, run_op DEFAULT_RESILIENCE broken_send
      (demo_at (Closed 2), {| ob_attempt := 0; ob_events := []; ob_inner := 0 |})
      = (inl e, (b1, o1)) ∧ circuit b1 = Open ∧
    ∃ e' o2, run_op DEFAULT_RESILIENCE broken_send (b1, o1) = (inl e', (b1, o2)) ∧
      ob_inner o2 = ob_inner o1.
Proof.
  apply (outage_opens_circuit DEFAULT_RESILIENCE broken_send broken_send
    (demo_at (Closed 2)) 2 {| ob_attempt := 0; ob_events := []; ob_inner := 0 |}).
  - intros w. by exists (TransientFault "down"), (S w).
  - reflexivity.
  - simpl. lia.
Defined.

(** an open circuit hides a declared gap.  While the circuit is open and not ready,
    an operation the adapter declares unsupported fails with an error that is not
    [NotSupportedError], so the contract of the port is not kept by the decorator. *)
Theorem open_circuit_breaks_contract `{Cockatiel} (options : ResilienceOptions) {W}
    `{IMessageScheduler W} (h : ScheduleHandle) (b : breaker) (o : Observed W) :
  circuit b = Open → ready b = false →
  ∃ e r, @sched_cancel _ (Resilient_IMessageScheduler options) h (b, o) = (inl e, r) ∧
    is_NotSupported e = false.
Proof.
  intros Hb Hr. destruct o as [att evs w].
  destruct (run_rejected (sched_cancel h) (maxRetryAttempts options) b att evs w Hb Hr)
    as (e & o' & E & He & _).
  by exists e, (b, o').
Qed.

Lemma open_circuit_breaks_contract_witness :
  ∃ e r, @sched_cancel _ (Resilient_IMessageScheduler DEFAULT_RESILIENCE)
      {| sh_id := "x"; sh_destination := "t"; sh_deliverAt := 0 |}
      (demo_at Open,
       {| ob_attempt := 0; ob_events := []; ob_inner := new_InMemoryScheduler 0 |}) = (inl e, r) ∧
    is_NotSupported e = false.
Proof.
  apply (open_circuit_breaks_contract DEFAULT_RESILIENCE {| sh_id := "x"; sh_destination := "t"; sh_deliverAt := 0 |}
    (demo_at Open)); reflexivity.
Defined.

(** C25: a retried publish is published once.  Through the decorator over fault
    injection, a publish during a blip of at most the retry budget reaches the adapter
    exactly once, and the blip is over. *)
Theorem blip_publishes_once `{Cockatiel} (options : ResilienceOptions) {W} `{IMessageScheduler W}
    `{IMessageBus W} (t : Destination) (p : string) (rk : option string) (po : PublishOptions)
    (j : nat) (w w' : W) (b : breaker) (k : nat) :
  bus_publish t p rk no_publish_options w = (inr tt, w') →
  j ≤ maxRetryAttempts options → circuit b = Closed k → k + j < threshold b →
  ∃ b' o', @bus_publish _ (Resilient_IMessageBus options) t p rk po
      (b, {| ob_attempt := 0; ob_events := []; ob_inner := blip j w |}) = (inr tt, (b', o')) ∧
    ob_inner o' = blip 0 w'.
Proof.
  intros Hp Hj Hb Hk.
  destruct (run_absorbs (bus_publish t p rk po : M (Faulted W) unit) j (maxRetryAttempts options)
    (blip j w) tt (blip 0 w') b k 0 []) as (b' & evs' & Hr & _); [by apply blip_fails_then|done..|].
  exists b'. eexists. split; [exact Hr|done].
Qed.

Lemma blip_publishes_once_witness :
  ∃ b' o', @bus_publish _ (Resilient_IMessageBus DEFAULT_RESILIENCE) "t" "x" None no_publish_options
      (new_breaker 5 5000,
       {| ob_attempt := 0; ob_events := []; ob_inner := blip 2 (new_InMemoryScheduler 0) |})
      = (inr tt, (b', o')) ∧
    ob_inner o' = blip 0 (with_bus (InMemoryBus.publish "t" "x" None no_publish_options new_InMemoryBus)
                            (new_InMemoryScheduler 0)).
Proof.
  apply (blip_publishes_once DEFAULT_RESILIENCE "t" "x" None no_publish_options 2
    (new_InMemoryScheduler 0) _ (new_breaker 5 5000) 0); [reflexivity|simpl; lia|reflexivity|simpl; lia].
Defined.

(** Fault injection drops the publish options: a repeated dedup id is published twice. *)
Definition publish_twice {W} `{IMessageBus W} : M W unit :=
  _ ← bus_publish "t" "a" None
        {| po_priority := None; po_groupId := None; po_dedupId := Some "k"; po_replyTo := None;
           po_correlationId := None; po_ttlMs := None; po_headers := None |};
  bus_publish "t" "a" None
    {| po_priority := None; po_groupId := None; po_dedupId := Some "k"; po_replyTo := None;
       po_correlationId := None; po_ttlMs := None; po_headers := None |}.

Definition logged (w : Scheduler) : nat := length (default [] (b_streamLog (sc_bus w) !! "t")).

Theorem fault_injection_drops_options :
  logged (publish_twice (new_InMemoryScheduler 0)).2 = 1 ∧
  logged (fi_inner (publish_twice (blip 0 (new_InMemoryScheduler 0))).2) = 2.
Proof. vm_compute. done. Qed.
