(* ===== verification/Idempotency.v ===== *)
(** Time-windowed idempotency (idempotency/): the store interface, the in-memory and
    the Redis store, and the handler wrapper, whose properties are proved against the
    interface. *)

From S2P Require Import Prelude Abstractions Ports.

(** ** The store interface *)

Class IIdempotencyStore (S : Type) := {
  tryMarkSeen : string → Z → M S bool
}.

(** What an implementation promises.  [store_now] is the clock the store reads and
    [window_end] the end of a key's current window; the check-and-set is atomic. *)
Class LawfulStore (S : Type) `{IIdempotencyStore S} := {
  store_now : S → Z;
  window_end : S → string → option Z;
  tick : Z → S → S;
  tick_now ms s : store_now (tick ms s) = (store_now s + ms)%Z;
  tick_window ms s k : window_end (tick ms s) k = window_end s k;
  mark_duplicate s k ttl e :
    window_end s k = Some e → (store_now s < e)%Z →
    ∃ s', tryMarkSeen k ttl s = (inr true, s') ∧ store_now s' = store_now s ∧
      ∀ k', window_end s' k' = window_end s k';
  mark_fresh s k ttl :
    (0 < ttl)%Z → (∀ e, window_end s k = Some e → (e ≤ store_now s)%Z) →
    ∃ s', tryMarkSeen k ttl s = (inr false, s') ∧ store_now s' = store_now s ∧
      window_end s' k = Some (store_now s + ttl * 1000)%Z ∧
      ∀ k', k' ≠ k → window_end s' k' = window_end s k'
}.

(** ** The in-memory store *)

Record InMemoryIdempotencyStore := { is_now : Z; is_seen : gmap string Z }.

Definition in_memory_tryMarkSeen (key : string) (ttlSeconds : Z) : M InMemoryIdempotencyStore bool := λ s,
  let now := is_now s in
  let expiry := is_seen s !! key in
  let duplicate := match expiry with Some e => bool_decide (now < e)%Z | None => false end in
  if duplicate then (inr true, s)
  else (inr false, {| is_now := now; is_seen := <[key := (now + ttlSeconds * 1000)%Z]> (is_seen s) |}).

#[export] Instance in_memory_store : IIdempotencyStore InMemoryIdempotencyStore :=
  {| tryMarkSeen := in_memory_tryMarkSeen |}.

#[export] Instance in_memory_store_lawful : LawfulStore InMemoryIdempotencyStore.
Proof.
  refine {| store_now := is_now; window_end s k := is_seen s !! k;
            tick ms s := {| is_now := (is_now s + ms)%Z; is_seen := is_seen s |} |}; simpl; try done.
  - intros s k ttl e He Hlt. unfold in_memory_tryMarkSeen. rewrite He, bool_decide_eq_true_2 by done.
    by exists s.
  - intros s k ttl _ Hno. unfold in_memory_tryMarkSeen.
    replace (match is_seen s !! k with Some e => _ | None => false end) with false.
    + eexists. split; [done|]. simpl. split; [done|]. split; [by rewrite lookup_insert_eq|].
      intros k' Hne. by rewrite lookup_insert_ne.
    + destruct (is_seen s !! k) as [e|]; [|done]. symmetry. apply bool_decide_eq_false_2.
      specialize (Hno e eq_refl). lia.
Defined.

(** ** The Redis store

    The client belongs to the ioredis package: [redis_connect url] is [new Redis(url)],
    [redis_set] the [set(key, '1', 'EX', ttl, 'NX')] call, with the documented behaviour
    of [SET ... EX ... NX] on the server's clock. *)
Class RedisClient (R : Type) := {
  redis_connect : string → R;
  redis_set : string → string → Z → M R (option string);
  redis_now : R → Z;
  redis_expiry : R → string → option Z;
  redis_sleep : Z → R → R;
  redis_sleep_now ms r : redis_now (redis_sleep ms r) = (redis_now r + ms)%Z;
  redis_sleep_expiry ms r k : redis_expiry (redis_sleep ms r) k = redis_expiry r k;
  redis_set_exists r k v ttl e :
    redis_expiry r k = Some e → (redis_now r < e)%Z → redis_set k v ttl r = (inr None, r);
  redis_set_new r k v ttl :
    (0 < ttl)%Z → (∀ e, redis_expiry r k = Some e → (e ≤ redis_now r)%Z) →
    ∃ r', redis_set k v ttl r = (inr (Some "OK"), r') ∧ redis_now r' = redis_now r ∧
      redis_expiry r' k = Some (redis_now r + ttl * 1000)%Z ∧
      ∀ k', k' ≠ k → redis_expiry r' k' = redis_expiry r k'
}.

Section redis.
Context {R : Type} `{RedisClient R}.

(** [url] and the lazily created client. *)
Record RedisIdempotencyStore := { rd_url : string; rd_client : option R }.

Definition ensureClient (s : RedisIdempotencyStore) : R :=
  default (redis_connect (rd_url s)) (rd_client s).

Definition redis_tryMarkSeen (key : string) (ttlSeconds : Z) : M RedisIdempotencyStore bool := λ s,
  let '(result, client) := redis_set key "1" ttlSeconds (ensureClient s) in
  (match result with
   | inr reply => inr (bool_decide (reply = None))
   | inl e => inl e
   end, {| rd_url := rd_url s; rd_client := Some client |}).

#[export] Instance redis_store : IIdempotencyStore RedisIdempotencyStore :=
  {| tryMarkSeen := redis_tryMarkSeen |}.

#[export] Instance redis_store_lawful : LawfulStore RedisIdempotencyStore.
Proof.
  refine {| store_now s := redis_now (ensureClient s);
            window_end s k := redis_expiry (ensureClient s) k;
            tick ms s := {| rd_url := rd_url s; rd_client := Some (redis_sleep ms (ensureClient s)) |} |};
    simpl.
  - intros ms s. apply redis_sleep_now.
  - intros ms s k. apply redis_sleep_expiry.
  - intros s k ttl e He Hlt. unfold redis_tryMarkSeen.
    rewrite (redis_set_exists _ _ "1" ttl _ He Hlt). by eexists.
  - intros s k ttl Httl Hno. unfold redis_tryMarkSeen.
    destruct (redis_set_new (ensureClient s) k "1" ttl Httl Hno) as (r' & -> & ? & ? & ?). by eexists.
Defined.
End redis.
Arguments RedisIdempotencyStore : clear implicits.

(** ** The handler wrapper *)

Section handler.
Context {S : Type} `{IIdempotencyStore S} {W : Type}.
Context (inner ack : IncomingMessage → M W unit).

Definition on_app {A} (m : M W A) : M (S * W) A := lift snd (λ w sw, (sw.1, w)) m.

(** The [catch] block only logs; [alreadySeen] stays false. *)
Definition idempotentHandler (keyOf : IncomingMessage → string) (ttlSeconds : Z)
    (m : IncomingMessage) : M (S * W) unit := λ sw,
  let '(r, s) := tryMarkSeen (keyOf m) ttlSeconds sw.1 in
  let alreadySeen := match r with inr seen => seen | inl _ => false end in
  if negb alreadySeen then on_app (inner m) (s, sw.2) else on_app (ack m) (s, sw.2).
End handler.

(** The default key extractor. *)
Definition default_key (m : IncomingMessage) : string := im_body m.

(** ** Deliveries over time *)

(** What the wrapper did with a delivery. *)
Record Outcome := { oc_time : Z; oc_key : string; oc_processed : bool }.

Section deliveries.
Context {S : Type} `{LawfulStore S}.
Context (keyOf : IncomingMessage → string) (ttl : Z).

(** The application records [true] when [inner] runs and [false] when the wrapper acks. *)
Definition record_call (b : bool) (m : IncomingMessage) : M (list bool) unit :=
  pure_step (λ log, log ++ [b]).

(** Let [ms] pass, then hand the message to the wrapped handler. *)
Definition deliver (s : S) (ev : Z * IncomingMessage) : S * Outcome :=
  let s := tick ev.1 s in
  let '(s', log) := (idempotentHandler (record_call true) (record_call false) keyOf ttl ev.2 (s, [])).2 in
  (s', {| oc_time := store_now s; oc_key := keyOf ev.2; oc_processed := bool_decide (log = [true]) |}).

Fixpoint deliver_all (s : S) (evs : list (Z * IncomingMessage)) : list Outcome :=
  match evs with
  | [] => []
  | ev :: evs' => let '(s', o) := deliver s ev in o :: deliver_all s' evs'
  end.

(** The key was processed less than [ttl] seconds before [now]. *)
Definition recent (hist : list Outcome) (now : Z) (k : string) : Prop :=
  ∃ o, o ∈ hist ∧ oc_key o = k ∧ oc_processed o = true ∧ (now < oc_time o + ttl * 1000)%Z.

(** The store's windows are those of the processed deliveries. *)
Definition windows_of (hist : list Outcome) (s : S) : Prop :=
  (∀ k e, window_end s k = Some e →
     ∃ o, o ∈ hist ∧ oc_key o = k ∧ oc_processed o = true ∧ e = (oc_time o + ttl * 1000)%Z) ∧
  (∀ o, o ∈ hist → oc_processed o = true →
     ∃ e, window_end s (oc_key o) = Some e ∧ (oc_time o + ttl * 1000 ≤ e)%Z).

Lemma deliver_spec hist s ev :
  (0 < ttl)%Z → windows_of hist s →
  let '(s', o) := deliver s ev in
  oc_time o = (store_now s + ev.1)%Z ∧ oc_key o = keyOf ev.2 ∧ store_now s' = oc_time o ∧
  (oc_processed o = false ↔ recent hist (oc_time o) (oc_key o)) ∧ windows_of (hist ++ [o]) s'.
Proof.
  intros Httl [Hw1 Hw2]. destruct ev as [ms m]. unfold deliver. simpl.
  pose proof (tick_now ms s) as Hnow. pose proof (tick_window ms s) as Htw.
  set (t := tick ms s) in *. set (k := keyOf m). unfold idempotentHandler. simpl.
  assert (Hcase : (∃ e, window_end s k = Some e ∧ (store_now t < e)%Z) ∨
    (∀ e, window_end s k = Some e → (e ≤ store_now t)%Z)).
  { destruct (window_end s k) as [e|]; [|by right]. destruct (decide (store_now t < e)%Z).
    - left. by exists e.
    - right. intros ? [= <-]. lia. }
  destruct Hcase as [(e & He & Hlt)|Hno].
  - assert (He' : window_end t k = Some e) by (by rewrite Htw).
    destruct (mark_duplicate t k ttl e He' Hlt) as (s' & E & Hn & Hw). fold k. rewrite E. simpl.
    split; [done|]. split; [done|]. split; [done|]. split.
    + split; [|done]. intros _. destruct (Hw1 _ _ He) as (o & Ho & Hk & Hp & ->). by exists o.
    + split; intros *.
      * rewrite Hw, Htw. intros (o & Ho & ?)%Hw1. exists o. split; [set_solver|done].
      * intros [Ho|Ho%list_elem_of_singleton]%elem_of_app Hp; [|by subst].
        rewrite Hw, Htw. by apply Hw2.
  - assert (Hno' : ∀ e, window_end t k = Some e → (e ≤ store_now t)%Z).
    { intros e. rewrite Htw. apply Hno. }
    destruct (mark_fresh t k ttl Httl Hno') as (s' & E & Hn & Hk & Hoth). fold k. rewrite E. simpl.
    split; [done|]. split; [done|]. split; [done|]. split.
    + split; [done|]. intros (o & Ho & Hok & Hp & Hlt). exfalso.
      destruct (Hw2 o Ho Hp) as (e & He & Hle). rewrite Hok in He.
      apply Hno in He. lia.
    + set (new := {| oc_time := store_now t |}).
      split; intros *.
      * destruct (decide (k0 = k)) as [->|Hne].
        -- rewrite Hk. intros [= <-]. exists new. split; [set_solver|done].
        -- rewrite Hoth, Htw by done. intros (o & Ho & ?)%Hw1. exists o. split; [set_solver|done].
      * intros [Ho|Ho%list_elem_of_singleton]%elem_of_app Hp.
        -- destruct (Hw2 o Ho Hp) as (e & He & Hle). destruct (decide (oc_key o = k)) as [Hok|Hne].
           ++ rewrite Hok in *. exists (store_now t + ttl * 1000)%Z. split; [done|].
              apply Hno in He. lia.
           ++ rewrite Hoth, Htw by done. by exists e.
        -- subst o. simpl. exists (store_now t + ttl * 1000)%Z. done.
Qed.

Lemma deliver_all_recent hist s evs :
  (0 < ttl)%Z → windows_of hist s → ∀ i o, deliver_all s evs !! i = Some o →
  (oc_processed o = false ↔ recent (hist ++ take i (deliver_all s evs)) (oc_time o) (oc_key o)).
Proof.
  intros Httl. revert hist s. induction evs as [|ev evs IH]; intros hist s Hw i o; simpl; [done|].
  pose proof (deliver_spec hist s ev Httl Hw) as Hd. destruct (deliver s ev) as [s' o'].
  destruct Hd as (_ & _ & _ & Hiff & Hw'). destruct i as [|i]; simpl.
  - intros [= <-]. by rewrite app_nil_r.
  - intros Hi. rewrite (IH _ _ Hw' i o Hi), <- app_assoc. done.
Qed.
End deliveries.

(** ** Properties *)

(** C26: exactly the repeats within the window are suppressed.  Over any lawful store
    with no open window, however much time passes between deliveries, a delivery is
    acked without running the handler if and only if a message with the same key was
    processed less than [ttl] seconds before it. *)
Theorem repeats_suppressed_in_window {S : Type} `{LawfulStore S}
    (keyOf : IncomingMessage → string) (ttl : Z) (s : S) (evs : list (Z * IncomingMessage))
    (i : nat) (o : Outcome) :
  (0 < ttl)%Z → (∀ k, window_end s k = None) → deliver_all keyOf ttl s evs !! i = Some o →
  (oc_processed o = false ↔
   recent ttl (take i (deliver_all keyOf ttl s evs)) (oc_time o) (oc_key o)).
Proof.
  intros Httl Hs Hi. apply (deliver_all_recent keyOf ttl [] s evs Httl); [|done].
  split; [intros k e He; by rewrite Hs in He|]. intros o' Ho. by apply elem_of_nil in Ho.
Qed.

Definition demo_message (body : string) : IncomingMessage := {|
  im_id := ""; im_destination := "t"; im_body := body; im_headers := ∅; im_deliveryCount := None;
  im_replyTo := None; im_correlationId := None; im_groupId := None; im_priority := None |}.

Definition demo_events : list (Z * IncomingMessage) :=
  [(0, demo_message "a"); (5, demo_message "a"); (300000, demo_message "a")]%Z.

Definition demo_store : InMemoryIdempotencyStore := {| is_now := 0; is_seen := ∅ |}.

(** A repeat after 5 ms is suppressed, one after the window is not. *)
Example demo_outcomes :
  oc_processed <$> deliver_all default_key 300 demo_store demo_events = [true; false; true].
Proof. vm_compute. reflexivity. Qed.

(** A Redis server with its clock and the expiry times of its keys: the documented laws
    can hold, and the wrapper over the Redis store then behaves the same. *)
Record DemoRedis := { dr_now : Z; dr_expiry : gmap string Z }.

#[export] Instance demo_redis : RedisClient DemoRedis.
Proof.
  refine {|
    redis_connect _ := {| dr_now := 0; dr_expiry := ∅ |};
    redis_set k _ ttl r :=
      if decide (default (dr_now r) (dr_expiry r !! k) ≤ dr_now r)%Z then
        (inr (Some "OK"), {| dr_now := dr_now r; dr_expiry := <[k := (dr_now r + ttl * 1000)%Z]> (dr_expiry r) |})
      else (inr None, r);
    redis_now := dr_now;
    redis_expiry r k := dr_expiry r !! k;
    redis_sleep ms r := {| dr_now := (dr_now r + ms)%Z; dr_expiry := dr_expiry r |} |}; try done.
  - intros r k v ttl e He Hlt. rewrite He. simpl. by rewrite decide_False by lia.
  - intros r k v ttl _ Hno. rewrite decide_True.
    + eexists. split; [done|]. simpl. split; [done|]. split; [by rewrite lookup_insert_eq|].
      intros k' Hne. by rewrite lookup_insert_ne.
    + destruct (dr_expiry r !! k) as [e|] eqn:He; simpl; [|lia]. by apply Hno.
Defined.

Example demo_redis_outcomes :
  oc_processed <$> deliver_all default_key 300
    ({| rd_url := "redis://localhost"; rd_client := None |} : RedisIdempotencyStore DemoRedis) demo_events =
  [true; false; true].
Proof. vm_compute. reflexivity. Qed.

Lemma repeats_suppressed_in_window_witness :
  false = false ↔
  recent 300 (take 1 (deliver_all default_key 300 demo_store demo_events)) 5 "a".
Proof.
  apply (repeats_suppressed_in_window default_key 300 demo_store demo_events 1
    {| oc_time := 5; oc_key := "a"; oc_processed := false |}).
  - lia.
  - intros k. apply lookup_empty.
  - vm_compute. reflexivity.
Defined.

(** the wrapper fails open.  When the store throws, the handler runs as if the
    message were new, and the store's error reaches nobody: the result is the
    handler's own. *)
Theorem store_failure_processes {S : Type} `{IIdempotencyStore S} {W : Type}
    (inner ack : IncomingMessage → M W unit) (keyOf : IncomingMessage → string) (ttl : Z)
    (m : IncomingMessage) (s s' : S) (w : W) (e : Error) :
  tryMarkSeen (keyOf m) ttl s = (inl e, s') →
  idempotentHandler inner ack keyOf ttl m (s, w) = ((inner m w).1, (s', (inner m w).2)).
Proof.
  intros E. unfold idempotentHandler. simpl. rewrite E. unfold on_app, lift. simpl.
  by destruct (inner m w).
Qed.

(** A store that is down. *)
Definition down_store : IIdempotencyStore unit :=
  {| tryMarkSeen := λ _ _, throw (OtherError "ECONNREFUSED") |}.

Lemma store_failure_processes_witness :
  @idempotentHandler unit down_store (list bool) (record_call true) (record_call false)
    default_key 300 (demo_message "a") (tt, []) = (inr tt, (tt, [true])).
Proof.
  apply (@store_failure_processes unit down_store (list bool) (record_call true) (record_call false)
    default_key 300 (demo_message "a") tt tt [] (OtherError "ECONNREFUSED")). reflexivity.
Defined.

(** a failed first attempt is not retried.  The key is marked before the handler
    runs, so when the handler throws, a redelivery within the window is acked without
    running it: the message is lost. *)
Theorem failed_attempt_is_lost {S : Type} `{LawfulStore S} {W : Type}
    (inner ack : IncomingMessage → M W unit) (keyOf : IncomingMessage → string) (ttl : Z)
    (m : IncomingMessage) (s : S) (w w1 : W) (e : Error) :
  (0 < ttl)%Z → window_end s (keyOf m) = None → inner m w = (inl e, w1) →
  ∃ s1, idempotentHandler inner ack keyOf ttl m (s, w) = (inl e, (s1, w1)) ∧
    ∀ ms w2, (ms < ttl * 1000)%Z →
      let '(r, (_, w3)) := idempotentHandler inner ack keyOf ttl m (tick ms s1, w2) in
      (r, w3) = ack m w2.
Proof.
  intros Httl Hs Hin.
  destruct (mark_fresh s (keyOf m) ttl Httl) as (s1 & E & Hn & Hk & _); [intros e'; by rewrite Hs|].
  exists s1. unfold idempotentHandler, on_app, lift. simpl. rewrite E. simpl. rewrite Hin. split; [done|].
  intros ms w2 Hms.
  destruct (mark_duplicate (tick ms s1) (keyOf m) ttl (store_now s + ttl * 1000)%Z) as (s2 & E2 & _).
  { by rewrite tick_window. } { rewrite tick_now, Hn. lia. }
  rewrite E2. simpl. by destruct (ack m w2).
Qed.

Definition failing_inner (m : IncomingMessage) : M (list bool) unit := λ w, (inl (OtherError "boom"), w).

Lemma failed_attempt_is_lost_witness :
  ∃ s1, idempotentHandler failing_inner (record_call false) default_key 300 (demo_message "a")
      (demo_store, []) = (inl (OtherError "boom"), (s1, [])) ∧
    ∀ ms w2, (ms < 300 * 1000)%Z →
      let '(r, (_, w3)) := idempotentHandler failing_inner (record_call false) default_key 300
        (demo_message "a") (tick ms s1, w2) in
      (r, w3) = record_call false (demo_message "a") w2.
Proof.
  apply (failed_attempt_is_lost failing_inner (record_call false) default_key 300 (demo_message "a")
    demo_store [] [] (OtherError "boom")); [lia|apply lookup_empty|reflexivity].
Defined.
