(* ===== verification/EffectOnce.v ===== *)
(** The idempotent consumer on the in-memory bus (S10): the bus delivers at least once
    (BusGuarantee.v), the wrapper of idempotency/ drops repeats within its window, and
    together the application's handler runs exactly once for a published body.

    Deliveries are handed to the wrapped handler when their microtask runs; what else
    happens to the bus, the settlements of those handlers included, is any operation at
    any time. *)

From S2P Require Import Prelude Abstractions Ports TopicMatch BusQueue InMemoryBus BusInvariants BusSafety.
From S2P Require Import BusProgress BusDelivery BusStore BusLocal BusCost BusService BusGuarantee Idempotency.

(** ** What a step does to the handlers that were called *)

(** Every handler that was called in [st'] had been called in [st], with the same message. *)
Definition called_before (st st' : Bus) : Prop :=
  ∀ i d', b_deliveries st' !! i = Some d' → dl_started d' = true →
    ∃ d, b_deliveries st !! i = Some d ∧ dl_started d = true ∧ dl_msg d = dl_msg d' ∧ dl_incoming d = dl_incoming d'.

#[export] Instance called_before_preorder : PreOrder called_before.
Proof.
  split; [intros st i d Hd Hs; by exists d|]. intros a b c Hab Hbc i d Hd Hs.
  destruct (Hbc i d Hd Hs) as (d1 & Hd1 & Hs1 & <- & <-). by apply Hab.
Qed.

Lemma grows_called st st' : grows st st' → called_before st st'.
Proof.
  intros [_ _ (ds & E & _ & Hnew) _] i d'. rewrite E. intros [Hd|[_ Hd]]%lookup_app_Some Hs; [by exists d'|].
  rewrite Forall_lookup in Hnew. apply Hnew in Hd. by rewrite (nd_started _ _ _ Hd) in Hs.
Qed.

Lemma guarded_called i r st : called_before st (guarded i r st).
Proof.
  unfold guarded. destruct (b_deliveries st !! i) as [d|] eqn:Hd; [|done]. destruct (dl_started d) eqn:Hs; [|done].
  etrans; [|apply grows_called, settle_grows]. intros j d'. simpl.
  intros [(<- & <- & _)|[_ Hj]]%list_lookup_insert_Some Hs'; [by exists d|by exists d'].
Qed.

Lemma microtask_or_not op : op = OpMicrotask ∨ op ≠ OpMicrotask.
Proof. destruct op; [by right..|by left|by right|by right]. Qed.

Lemma microtask_expires_nothing st : ¬ inflight_expiry st OpMicrotask.
Proof. by intros (? & ? & ? & ? & ? & [=] & _). Qed.

(** Only a microtask calls a handler. *)
Lemma exec_called op st : op ≠ OpMicrotask → called_before st (exec op st).
Proof.
  intros Hne. destruct op as [| | |i|i r|i| |i|]; simpl.
  - apply grows_called, publish_grows.
  - apply grows_called, subscribe_grows.
  - apply grows_called, unsubscribe_grows.
  - apply guarded_called.
  - apply guarded_called.
  - unfold handler_throws. repeat case_match; try done. apply guarded_called.
  - done.
  - unfold fire_timer. destruct (b_timers st !! i) as [[z t]|]; [|done].
    trans (with_timers (delete i (b_timers st)) st); [intros j d' Hj Hs; by exists d'|].
    apply grows_called, run_timer_grows.
  - by intros j d' Hj Hs; exists d'.
Qed.

(** ** The bus with wrapped handlers *)

Section effect.
Context {S : Type} `{LawfulStore S}.
Context (ttl start : Z).

(** No window opened after [start] ends before this time. *)
#[local] Abbreviation deadline := (start + ttl * 1000)%Z.

(** The runs of the wrapper: the body it was called with, and whether the application's
    handler ran ([true]) or the message was dropped as a repeat ([false]). *)
Abbreviation Runs := (list (string * bool)).

Definition record_run (ran : bool) (m : IncomingMessage) : M Runs unit :=
  pure_step (λ runs, runs ++ [(im_body m, ran)]).

(** [idempotentHandler(store, inner)] with the default key. *)
Definition wrapped : IncomingMessage → M (S * Runs) unit :=
  idempotentHandler (record_run true) (record_run false) default_key ttl.

Record World := { wd_bus : Bus; wd_store : S; wd_runs : Runs }.

(** A microtask calls the wrapped handler; anything else happens to the bus but
    the expiry of a message a handler holds; time passes, within the deadline. *)
Inductive served : World → World → Prop :=
  | served_call st s runs i rest d :
      b_microtasks st = i :: rest → b_deliveries st !! i = Some d →
      served {| wd_bus := st; wd_store := s; wd_runs := runs |}
        (let '(s', runs') := (wrapped (dl_incoming d) (s, runs)).2 in
         {| wd_bus := exec OpMicrotask st; wd_store := s'; wd_runs := runs' |})
  | served_op st s runs op :
      ¬ inflight_expiry st op → op ≠ OpMicrotask →
      served {| wd_bus := st; wd_store := s; wd_runs := runs |} {| wd_bus := exec op st; wd_store := s; wd_runs := runs |}
  | served_time st s runs ms :
      (0 ≤ ms)%Z → (store_now s + ms < deadline)%Z →
      served {| wd_bus := st; wd_store := s; wd_runs := runs |} {| wd_bus := st; wd_store := tick ms s; wd_runs := runs |}.

(** ** The store and the runs *)

Definition ran (k : string) (runs : Runs) : nat := length (filter (λ r, r = (k, true)) runs).

(** Key [k] has not come up and its window is closed, or it ran once and its window is
    open until the deadline. *)
Definition once_only (k : string) (s : S) (runs : Runs) : Prop :=
  ((∀ b, (k, b) ∉ runs) ∧ ∀ e, window_end s k = Some e → (e ≤ store_now s)%Z) ∨
  (ran k runs = 1 ∧ ∃ e, window_end s k = Some e ∧ (deadline ≤ e)%Z).

Lemma ran_app k runs r : ran k (runs ++ [r]) = ran k runs + if decide (r = (k, true)) then 1 else 0.
Proof. unfold ran. rewrite filter_app, length_app, filter_cons, filter_nil. by case_decide. Qed.

Lemma ran_none k runs : (∀ b, (k, b) ∉ runs) → ran k runs = 0.
Proof.
  intros Hn. unfold ran. rewrite length_zero_iff_nil. apply elem_of_nil_inv.
  intros x [-> Hx]%list_elem_of_filter. by destruct (Hn true).
Qed.

(** A key's window is open or it is not. *)
Lemma window_case s k :
  (∃ e, window_end s k = Some e ∧ (store_now s < e)%Z) ∨ (∀ e, window_end s k = Some e → (e ≤ store_now s)%Z).
Proof.
  destruct (window_end s k) as [e|]; [|by right]. destruct (decide (store_now s < e)%Z); [left; by exists e|].
  right. intros ? [= <-]. lia.
Qed.

(** One call of the wrapper. *)
Lemma wrapped_spec k m s runs :
  (0 < ttl)%Z → (start ≤ store_now s < deadline)%Z →
  once_only k s runs →
  let '(s', runs') := (wrapped m (s, runs)).2 in
  store_now s' = store_now s ∧ once_only k s' runs' ∧ ∃ b, runs' = runs ++ [(im_body m, b)].
Proof.
  intros Httl Hnow Ho. unfold wrapped, idempotentHandler. simpl. unfold default_key.
  set (x := im_body m).
  destruct (window_case s x) as [(e & He & Hlt)|Hno].
  - destruct (mark_duplicate s x ttl e He Hlt) as (s' & -> & Hn & Hw). simpl. split; [done|]. split; [|by exists false].
    destruct Ho as [[Hk Hc]|[Hr (e' & He' & Hd)]].
    + left. rewrite Hw, Hn. split; [|done]. intros b. rewrite elem_of_app, list_elem_of_singleton.
      intros [Hb|[= -> ->]]; [by apply (Hk b)|]. specialize (Hc e He). lia.
    + right. rewrite ran_app, decide_False by congruence. split; [lia|]. exists e'. by rewrite Hw.
  - destruct (mark_fresh s x ttl Httl Hno) as (s' & -> & Hn & Hx & Hw). simpl. split; [done|]. split; [|by exists true].
    destruct (decide (x = k)) as [E|Hne].
    + destruct Ho as [[Hk Hc]|[Hr (e' & He' & Hd)]]; [|rewrite <- E in He'; specialize (Hno e' He'); lia].
      right. rewrite ran_app, (ran_none _ _ Hk), decide_True by (by rewrite <- E). rewrite <- E. split; [done|]. exists (store_now s + ttl * 1000)%Z.
      split; [done|lia].
    + destruct Ho as [[Hk Hc]|[Hr (e' & He' & Hd)]].
      * left. rewrite Hw, Hn by done. split; [|done]. intros b. rewrite elem_of_app, list_elem_of_singleton.
        intros [Hb|[= -> ->]]; [by apply (Hk b)|done].
      * right. rewrite ran_app, decide_False by (intros [= E]; exact (Hne E)). split; [lia|]. exists e'. by rewrite Hw.
Qed.

(** Whatever the store held, a call takes no time and is recorded. *)
Lemma wrapped_now m s runs :
  (0 < ttl)%Z → (start ≤ store_now s < deadline)%Z → store_now (wrapped m (s, runs)).2.1 = store_now s.
Proof.
  intros Httl _. unfold wrapped, idempotentHandler. simpl. unfold default_key.
  destruct (window_case s (im_body m)) as [(e & He & Hlt)|Hno].
  - by destruct (mark_duplicate s (im_body m) ttl e He Hlt) as (s' & -> & Hn & _).
  - by destruct (mark_fresh s (im_body m) ttl Httl Hno) as (s' & -> & Hn & _).
Qed.

(** ** What holds while the bus is served *)

(** From [st] on: nothing expired in flight, the time is within the deadline, [k] ran at most
    once, and whichever handler was called since has gone through the wrapper. *)
Record serving (k : string) (st : Bus) (w : World) : Prop := {
  sv_run : ∃ ops, no_inflight_expiry st ops ∧ wd_bus w = run ops st;
  sv_now : (start ≤ store_now (wd_store w) < deadline)%Z;
  sv_once : once_only k (wd_store w) (wd_runs w);
  sv_called i d : b_deliveries (wd_bus w) !! i = Some d → dl_started d = true →
    (∃ d0, b_deliveries st !! i = Some d0 ∧ dl_started d0 = true ∧ dl_msg d0 = dl_msg d) ∨
    ∃ b, (im_body (dl_incoming d), b) ∈ wd_runs w
}.

Lemma served_run w w' : served w w' → ∃ op, ¬ inflight_expiry (wd_bus w) op ∧ wd_bus w' = exec op (wd_bus w) ∨ wd_bus w' = wd_bus w.
Proof.
  intros [st s runs i rest d Hm _|st s runs op Hop _|st s runs ms _ _]; simpl.
  - destruct ((wrapped _ _).2). exists OpMicrotask. left. split; [apply microtask_expires_nothing|done].
  - exists op. by left.
  - exists OpMicrotask. by right.
Qed.

(** Every run of the bus is one of the wrapped handlers. *)
Lemma run_served ops st s runs :
  (0 < ttl)%Z → (start ≤ store_now s < deadline)%Z → reachable st → no_inflight_expiry st ops →
  ∃ w, rtc served {| wd_bus := st; wd_store := s; wd_runs := runs |} w ∧ wd_bus w = run ops st.
Proof.
  intros Httl. revert st s runs. induction ops as [|op ops IH]; intros st s runs Hnow Hst Hno; [by eexists|].
  destruct Hno as [Hop Hno]. assert (Hst1 : reachable (exec op st)) by by apply reachable_step.
  destruct (microtask_or_not op) as [->|Hne].
  - destruct (b_microtasks st) as [|i rest] eqn:Hm.
    { destruct (IH (exec OpMicrotask st) s runs Hnow Hst1 Hno) as (w & Hw & E). exists w. split; [|done].
      simpl in Hw. unfold run_microtask in Hw. by rewrite Hm in Hw. }
    pose proof (hw_microtasks _ (reachable_handles _ Hst) i ltac:(rewrite Hm; by left)) as [d Hd]%lookup_lt_is_Some.
    pose proof (served_call st s runs i rest d Hm Hd) as Hs.
    pose proof (wrapped_now (dl_incoming d) s runs Httl Hnow) as Hn.
    destruct ((wrapped (dl_incoming d) (s, runs)).2) as [s' runs']. simpl in Hn.
    destruct (IH (exec OpMicrotask st) s' runs') as (w & Hw & E); [by rewrite Hn|done..|].
    exists w. split; [by eapply rtc_l|done].
  - destruct (IH (exec op st) s runs Hnow Hst1 Hno) as (w & Hw & E). exists w. split; [|done].
    eapply rtc_l; [by apply (served_op st s runs op)|done].
Qed.

Lemma served_serving k st w w' :
  (0 < ttl)%Z → served w w' → serving k st w → serving k st w'.
Proof.
  intros Httl Hs Hw. destruct (served_run _ _ Hs) as (op0 & Hb). destruct Hw as [(ops & Hp & E1) Hn Ho Hc].
  assert (Hrun : ∃ ops, no_inflight_expiry st ops ∧ wd_bus w' = run ops st).
  { destruct Hb as [[Hno E2]|E2]; [|exists ops; by rewrite E2]. exists (ops ++ [op0]). rewrite E1 in *.
    split; [by apply no_inflight_expiry_app|]. rewrite E2. unfold run. by rewrite foldl_app. }
  clear op0 Hb ops Hp E1.
  destruct Hs as [b s runs i rest d Hm Hd|b s runs op Hop Hne|b s runs ms H1 H2]; simpl in *.
  - pose proof (wrapped_spec k (dl_incoming d) s runs Httl Hn Ho) as Hw.
    destruct ((wrapped (dl_incoming d) (s, runs)).2) as [s' runs'] eqn:E.
    destruct Hw as (En & Ho' & x & ->). split; simpl in *; [done|by rewrite En|done|].
    unfold run_microtask. rewrite Hm, alter_insert, Hd. simpl. intros j d1.
    intros [(<- & <- & _)|[_ Hj]]%list_lookup_insert_Some Hs; [right; exists x; set_solver|].
    destruct (Hc j d1 Hj Hs) as [|[y Hy]]; [by left|right; exists y; set_solver].
  - split; simpl; try done. intros i d' Hd Hs. destruct (exec_called op b Hne i d' Hd Hs) as (d & Hd1 & Hs1 & <- & <-).
    by apply Hc.
  - split; simpl; try done; rewrite ?tick_now; [lia|]. destruct Ho as [[Hk He]|[Hk He]].
    + left. split; [done|]. intros e. rewrite tick_window, tick_now. intros Hx%He. lia.
    + right. split; [done|]. by rewrite tick_window.
Qed.

Lemma run_serving k st w w' : (0 < ttl)%Z → rtc served w w' → serving k st w → serving k st w'.
Proof. intros Httl. induction 1 as [|a b c Hs _ IH]; [done|]. intros Hw. by apply IH, (served_serving k st a). Qed.
End effect.

(** ** Properties *)

(** C3: exactly-once effect (S10).  Consumers wrapped by [idempotentHandler] share a
    lawful store whose window for the published body is closed, and a message without TTL
    that is not a repeat is published on a bus where no message waits that a free
    consumer could take.  However the calls, the settlements, the failures, the timers and
    the time within the window are ordered, whichever consumers come and go, and whatever
    else the bus holds or is given, repeats of the body included, as long as no message
    expires while a handler holds it: at no time has the application's handler run more
    than once for that body; service can end within the window; and when nothing is left
    to do and the queue has a consumer, the handler has run exactly once. *)
Theorem processed_exactly_once {S : Type} `{LawfulStore S} (ttl : Z) (s : S)
    (st : Bus) (topic : Destination) (body : string) (rk : option string)
    (options : PublishOptions) (qr : QRef) (q : BusQueue) :
  (0 < ttl)%Z → (∀ e, window_end s body = Some e → (e ≤ store_now s)%Z) →
  reachable st → quiet st → ¬ is_repeat st options → po_ttlMs options = None →
  b_qheap st !! qr = Some q → qr ∈ subscribers st topic → matches (bq_cfg q) (default topic rk) = true →
  let w0 := {| wd_bus := publish topic body rk options st; wd_store := s; wd_runs := [] |} in
  ∀ w, rtc (served ttl (store_now s)) w0 w →
    ran body (wd_runs w) ≤ 1 ∧
    (∃ w', rtc (served ttl (store_now s)) w w' ∧ at_rest (wd_bus w')) ∧
    (at_rest (wd_bus w) → (∃ q', b_qheap (wd_bus w) !! qr = Some q' ∧ bq_consumers q' ≠ []) →
     ran body (wd_runs w) = 1).
Proof.
  intros Httl Hwin Hst Hqt Hfresh Hpl Hq Hsub Hm w0 w Hw. set (st1 := publish topic body rk options st).
  assert (Hst1 : reachable st1) by exact (reachable_step st (OpPublish topic body rk options) Hst).
  destruct (run_serving ttl (store_now s) body st1 w0 w Httl Hw) as [(ops & Hops & Hrun) Hnow Ho Hc].
  { split; [by exists []|simpl; lia| |eauto]. left. split; [|done]. intros b. by apply not_elem_of_nil. }
  split; [destruct Ho as [[Hno _]|[-> _]]; [rewrite (ran_none _ _ Hno)|]; lia|]. split.
  { assert (Hst2 : reachable (wd_bus w)) by (rewrite Hrun; by apply run_reachable).
    destruct (service_completes_quietly _ Hst2) as (ops' & Hno & _ & Hrest). destruct w as [b s' runs].
    destruct (run_served ttl (store_now s) ops' b s' runs Httl Hnow Hst2 Hno) as (w' & Hw' & E). exists w'.
    split; [exact Hw'|]. by rewrite E. }
  intros Hrest (q1 & Hq1 & Hk). rewrite Hrun in *.
  destruct (publication_served st topic body rk options qr q) as (m & id & Hlen & Hserved); try done.
  destruct (Hserved ops Hops Hrest) as (q' & Hq' & _ & Hempty & Hhand). injection (eq_trans (eq_sym Hq1) Hq') as <-.
  destruct Hempty as [Hp|]; [|done]. rewrite Hp in Hhand. destruct Hhand as [Hx|Hhand]; [by apply elem_of_nil in Hx|].
  destruct Hhand as (d & [i Hi]%list_elem_of_lookup & _ & <- & Hs & _ & Hca).
  destruct (Hc i d Hi Hs) as [(d0 & Hd0 & Hs0 & E)|[b Hb]].
  - destruct (grows_called _ _ (publish_grows topic body rk options st) i d0 Hd0 Hs0) as (d1 & Hd1 & _ & E1 & _).
    destruct (hw_deliveries _ (reachable_handles _ Hst) _ _ Hd1) as (_ & Hlt & _). rewrite E1, E in Hlt. lia.
  - destruct Hca as (_ & _ & Hbody & _). rewrite Hbody in Hb. by destruct Ho as [[Hno _]|[? _]]; [destruct (Hno b)|].
Qed.

(** The body [a] is published again on the bus of BusService.v, which still holds the
    first one; the store is the in-memory one, empty, with a window of 300 s. *)
Lemma processed_exactly_once_witness :
  let w0 := {| wd_bus := publish "t" "a" None no_publish_options busy_bus; wd_store := demo_store; wd_runs := [] |} in
  ran "a" (wd_runs w0) ≤ 1 ∧
  (∃ w', rtc (served 300 (store_now demo_store)) w0 w' ∧ at_rest (wd_bus w')) ∧
  ∀ w, rtc (served 300 (store_now demo_store)) w0 w →
    at_rest (wd_bus w) → (∃ q', b_qheap (wd_bus w) !! 0 = Some q' ∧ bq_consumers q' ≠ []) → ran "a" (wd_runs w) = 1.
Proof.
  intros w0.
  assert (H : ∀ w, rtc (served 300 (store_now demo_store)) w0 w → ran "a" (wd_runs w) ≤ 1 ∧
    (∃ w', rtc (served 300 (store_now demo_store)) w w' ∧ at_rest (wd_bus w')) ∧
    (at_rest (wd_bus w) → (∃ q', b_qheap (wd_bus w) !! 0 = Some q' ∧ bq_consumers q' ≠ []) → ran "a" (wd_runs w) = 1)).
  { apply (processed_exactly_once 300 demo_store busy_bus "t" "a" None no_publish_options 0 busy_queue ltac:(lia)).
    - intros e He. vm_compute in He. discriminate He.
    - exact busy_bus_reachable.
    - exact busy_bus_quiet.
    - intros (d & Hd & _). discriminate Hd.
    - reflexivity.
    - vm_compute. reflexivity.
    - by_compute.
    - vm_compute. reflexivity. }
  destruct (H w0 (rtc_refl _ w0)) as (H1 & H2 & _). split; [exact H1|]. split; [exact H2|].
  intros w Hw. exact (proj2 (proj2 (H w Hw))).
Defined.

(** The first [a] runs the handler, its repeat does not. *)
Example repeat_runs_nothing :
  (wrapped 300 (demo_message "a") ((wrapped 300 (demo_message "a") (demo_store, [])).2)).2.2 =
  [("a", true); ("a", false)].
Proof. vm_compute. reflexivity. Qed.
