(* ===== verification/Sse.v ===== *)
(** The domain of the SSE cluster and its broker adapter: the wire contract and the
    routing keys (sse/domain/contract.ts), the hub (sse/domain/hub.ts) and
    [BusMessagePort] (sse/adapters/bus-message-port.ts), over the in-memory bus as
    the shared broker.

    The types of a published target are erased at run time and the HTTP adapter does
    not check them, so an intent carries JSON values. *)

From S2P Require Import Prelude Abstractions Numbers Json TopicMatch BusQueue InMemoryBus.
From S2P Require Import BusInvariants BusSafety BusProgress BusDelivery.
From Stdlib Require Import Ascii SpecFloat.

(** ** The contract *)

Definition SSE_CHANNEL : string := "mbc.sse".

Inductive Scope := user | org.
#[export] Instance Scope_eq_dec : EqDecision Scope.
Proof. solve_decision. Defined.

Definition scope_name (s : Scope) : string := match s with user => "user" | org => "org" end.

Record PublishTarget := { pt_type : string; pt_id : string }.

Definition routingKeyFor (target : PublishTarget) : string :=
  pt_type target +:+ "." +:+ pt_id target.

(** The key of a connection's scope. *)
Definition scope_key (s : Scope) (id : string) : string :=
  routingKeyFor {| pt_type := scope_name s; pt_id := id |}.

Record SseEnvelope := {
  ev_from : Json;
  ev_text : Json;
  ev_to : Json;
  ev_via : string;
  ev_at : string
}.

Record SseFrame := { fr_scope : Scope; fr_instanceId : string; fr_message : Json }.

Definition envelope_json (e : SseEnvelope) : Json :=
  JObj [("from", ev_from e); ("text", ev_text e); ("to", ev_to e);
        ("via", JStr (ev_via e)); ("at", JStr (ev_at e))].

Definition frame_json (f : SseFrame) : Json :=
  JObj [("scope", JStr (scope_name (fr_scope f))); ("instanceId", JStr (fr_instanceId f));
        ("message", fr_message f)].

(** ** The language's conversions of a JSON value *)

Definition truthy (v : option Json) : bool :=
  match v with
  | None | Some JNull | Some (JBool false) | Some (JNum (S754_zero _)) | Some (JNum S754_nan) => false
  | Some (JStr s) => bool_decide (s ≠ "")
  | _ => true
  end.

(** [`${v}`]; [None] when it throws: an object whose own property [toString] hides the
    method cannot be converted. *)
Fixpoint js_string (v : Json) : option string :=
  match v with
  | JNull => Some "null"
  | JBool true => Some "true"
  | JBool false => Some "false"
  | JNum x => Some (show_number x)
  | JStr s => Some s
  | JArr l => commas <$> mapM (λ x, match x with JNull => Some "" | _ => js_string x end) l
  | JObj fs => if map_has fs "toString" then None else Some "[object Object]"
  end.

(** A template hole holding a property that may be missing. *)
Definition js_string_opt (v : option Json) : option string :=
  match v with Some v => js_string v | None => Some "undefined" end.

(** The two strings [routingKeyFor] reads off a target. *)
Definition target_of (to : Json) : option PublishTarget :=
  t ← js_string_opt (get_field "type" to); i ← js_string_opt (get_field "id" to);
  Some {| pt_type := t; pt_id := i |}.

(** ** The hub *)

Record PublishIntent := { it_to : Json; it_from : Json; it_text : Json }.

(** The envelope [publish] builds; [now] is [new Date().toISOString()]. *)
Definition hub_envelope (instanceId now : string) (intent : PublishIntent) : SseEnvelope := {|
  ev_from := if truthy (Some (it_from intent)) then it_from intent else JStr "anon";
  ev_text := match it_text intent with JNull => JStr "" | t => t end;
  ev_to := it_to intent; ev_via := instanceId; ev_at := now |}.

(** The outbound call of [publish], as routing key and payload; [None] when the target has
    no routing key. *)
Definition hub_publish (instanceId now : string) (intent : PublishIntent) : option (string * string) :=
  target ← target_of (it_to intent);
  Some (routingKeyFor target, stringify (envelope_json (hub_envelope instanceId now intent))).

(** Best-effort parse of a broker body. *)
Definition hub_parse (instanceId body : string) : Json :=
  match parse body with
  | Some v => v
  | None =>
      envelope_json {|
        ev_from := JStr "anon"; ev_text := JStr body;
        ev_to := JObj [("type", JStr "user"); ("id", JStr "")];
        ev_via := instanceId; ev_at := "" |}
  end.

(** What the callback of [bindScope] sends to the sink for a body. *)
Definition hub_frame (scope : Scope) (instanceId body : string) : SseFrame :=
  {| fr_scope := scope; fr_instanceId := instanceId; fr_message := hub_parse instanceId body |}.

(** ** The broker adapter *)

(** The id and options of the transient subscription for a routing key. *)
Definition port_subscriberId (instanceId routingKey : string) (now : N) (seq : nat) : string :=
  instanceId +:+ "." +:+ routingKey +:+ "." +:+ pretty now +:+ "." +:+ pretty seq.

Definition port_options (routingKey subscriberId : string) : SubscribeOptions := {|
  so_kind := Some Abstractions.topic; so_routingKey := Some routingKey;
  so_subscriberId := Some subscriberId; so_deadLetter := None; so_maxDeliveries := None;
  so_retryDelayMs := None; so_partitionByGroup := None; so_singleActiveConsumer := None;
  so_streamReplay := None; so_transient := Some true; so_priorityQueue := None; so_ttlMs := None |}.

(** [BusMessagePort.subscribe]; the port's [seq] is incremented. *)
Definition port_subscribe (instanceId routingKey : string) (now : N) (handler : AckHandler)
    (seq : nat) (st : Bus) : Subscription * nat * Bus :=
  let '(sub, st) :=
    subscribe SSE_CHANNEL handler (port_options routingKey (port_subscriberId instanceId routingKey now seq))
      st in
  (sub, S seq, st).

(** [BusMessagePort.publish]. *)
Definition port_publish (routingKey payload : string) (st : Bus) : Bus :=
  publish SSE_CHANNEL payload (Some routingKey) no_publish_options st.

(** [SseHub.connect]: the user subscription, then the org subscription. *)
Definition hub_connect (instanceId userId orgId : string) (now : N) (userHandler orgHandler : AckHandler)
    (seq : nat) (st : Bus) : Subscription * Subscription * nat * Bus :=
  let '(userSub, seq, st) := port_subscribe instanceId (scope_key user userId) now userHandler seq st in
  let '(orgSub, seq, st) := port_subscribe instanceId (scope_key org orgId) now orgHandler seq st in
  (userSub, orgSub, seq, st).

(** The teardown handle of a connection. *)
Definition hub_teardown (subs : Subscription * Subscription) (st : Bus) : Bus :=
  unsubscribe subs.2 (unsubscribe subs.1 st).

(** ** Routing *)

(** An id none of whose dot-separated words is a wildcard. *)
Definition plain_id (id : string) : Prop := plain_key id.

Lemma scope_words s id : split_on dot (scope_key s id) = scope_name s :: split_on dot id.
Proof.
  unfold scope_key, routingKeyFor. simpl. rewrite string_app_cons, string_app_nil.
  change "."%char with dot. apply split_on_app. destruct s; repeat constructor; discriminate.
Qed.

Lemma scope_key_plain s id : plain_id id → plain_key (scope_key s id).
Proof.
  intros Hid. unfold plain_key. rewrite scope_words. constructor; [|done].
  destruct s; split; discriminate.
Qed.

Lemma scope_key_inj s id s' id' : scope_key s id = scope_key s' id' → s = s' ∧ id = id'.
Proof.
  intros H. apply (f_equal (split_on dot)) in H. rewrite !scope_words in H.
  injection H as Hs Hid. split; [by destruct s, s'|by eapply split_on_inj].
Qed.

(** The configuration of a connection's queue. *)
Definition conn_config (s : Scope) (id sid : string) : QueueConfig :=
  mk_config SSE_CHANNEL (port_options (scope_key s id) sid).

Lemma conn_matches s id sid key :
  matches (conn_config s id sid) key = topicMatch (scope_key s id) key.
Proof.
  unfold matches, conn_config. simpl. rewrite decide_False; [done|].
  intros E. apply (f_equal (split_on dot)) in E. rewrite scope_words in E. by destruct s.
Qed.

Lemma conn_matches_plain s id sid key :
  plain_id id → matches (conn_config s id sid) key = true ↔ key = scope_key s id.
Proof.
  intros Hid. rewrite conn_matches. unfold topicMatch.
  rewrite match_plain_eq by (by apply scope_key_plain).
  split; [intros E; by apply split_on_inj in E|by intros ->].
Qed.

(** Who a routing key reaches: the connection of that scope and id, or one whose id
    starts with what the target's type has after a dot. *)
Definition addressed (s : Scope) (id : string) (target : PublishTarget) : Prop :=
  (pt_type target = scope_name s ∧ pt_id target = id) ∨
  ∃ rest, pt_type target = scope_name s +:+ "." +:+ rest ∧ id = rest +:+ "." +:+ pt_id target.

Lemma dotted_split n t i id :
  has_char dot n = false →
  t +:+ "." +:+ i = n +:+ "." +:+ id ↔
  (t = n ∧ i = id) ∨ ∃ rest, t = n +:+ "." +:+ rest ∧ id = rest +:+ "." +:+ i.
Proof.
  revert t. induction n as [|a n IH]; intros t Hn.
  - rewrite !string_app_nil. split.
    + destruct t as [|b t]; rewrite ?string_app_nil, ?string_app_cons; intros E; injection E as E; [by left|].
      right. exists t. rewrite !string_app_cons, !string_app_nil. by subst.
    + intros [[-> ->]|(rest & -> & ->)]; [done|]. by sapp.
  - simpl in Hn. apply orb_false_iff in Hn as [Ha Hn]. apply bool_decide_eq_false in Ha. split.
    + destruct t as [|b t]; rewrite ?string_app_nil, ?string_app_cons; intros E; injection E as Eb E.
      { by destruct Ha. }
      apply (IH t Hn) in E as [[-> ->]|(rest & -> & ->)]; subst b; [by left|right]. by exists rest.
    + intros [[-> ->]|(rest & -> & ->)]; [done|]. by sapp.
Qed.

Lemma conn_matches_target s id sid target :
  plain_id id → matches (conn_config s id sid) (routingKeyFor target) = true ↔ addressed s id target.
Proof.
  intros Hid. rewrite conn_matches_plain by done. unfold routingKeyFor, scope_key. simpl.
  apply dotted_split. by destruct s.
Qed.

(** ** Properties *)

(** C28: isolation.  Whatever strings a publish request names as its target, the queue of a
    connection whose id has no wildcard word takes the message exactly when the target is
    its own scope and id, or when the type (which the HTTP adapter does not check) is its
    scope, a dot and the beginning of its id: a type without a dot cannot reach another
    connection. *)
Theorem connection_isolated (s : Scope) (id sid : string) (target : PublishTarget) :
  plain_id id →
  (matches (conn_config s id sid) (routingKeyFor target) = true ↔ addressed s id target) ∧
  (has_char dot (pt_type target) = false →
   matches (conn_config s id sid) (routingKeyFor target) = true ↔
   pt_type target = scope_name s ∧ pt_id target = id).
Proof.
  intros Hid. rewrite conn_matches_target by done. split; [done|]. intros Hdot. unfold addressed.
  split; [|by left]. intros [?|(rest & E & _)]; [done|]. rewrite E, !has_char_app in Hdot. by destruct s.
Qed.

Lemma connection_isolated_witness :
  let target := {| pt_type := "user.a"; pt_id := "b" |} in
  (matches (conn_config user "a.b" "x") (routingKeyFor target) = true ↔ addressed user "a.b" target) ∧
  (has_char dot "user.a" = false →
   matches (conn_config user "a.b" "x") (routingKeyFor target) = true ↔ "user.a" = "user" ∧ "b" = "a.b").
Proof.
  apply (connection_isolated user "a.b" "x" {| pt_type := "user.a"; pt_id := "b" |}).
  vm_compute. repeat constructor; done.
Defined.

(** a dotted type crosses scopes.  A message for type "user.a" and id "b" reaches the user
    connection "a.b". *)
Theorem dotted_type_reaches (sid : string) :
  matches (conn_config user "a.b" sid) (routingKeyFor {| pt_type := "user.a"; pt_id := "b" |}) = true.
Proof. apply conn_matches_plain; [|reflexivity]. vm_compute. repeat constructor; done. Qed.

(** a wildcard id sees everything.  A connection opened with user id "#" receives
    every user-direct message, whoever it is addressed to. *)
Theorem wildcard_id_eavesdrops (id sid : string) :
  matches (conn_config user "#" sid) (scope_key user id) = true.
Proof.
  rewrite conn_matches. unfold topicMatch. rewrite !scope_words. apply match_plain; [done|].
  split; [by right|]. apply match_hash. exists (split_on dot id), []. by rewrite app_nil_r.
Qed.

(** The bus queue of a connection. *)
Definition conn_queue (st : Bus) (qr : QRef) (q : BusQueue) (s : Scope) (id sid : string) : Prop :=
  b_qheap st !! qr = Some q ∧ bq_cfg q = conn_config s id sid ∧ qr ∈ subscribers st SSE_CHANNEL.

(** C27: delivery over a shared in-memory bus.  A publish request puts exactly one copy in
    the queue of every connection it addresses and touches no other connection's queue
    (ids without wildcard words); the frame that an instance, whichever, makes of the copy
    carries exactly the published envelope (values without numbers, whose objects repeat
    no key). *)
Theorem publish_reaches_streams (st : Bus) (inst inst' now : string) (intent : PublishIntent)
    (target : PublishTarget) (rk payload : string) (s : Scope) (id sid : string) (qr : QRef) (q : BusQueue) :
  reachable st → conn_queue st qr q s id sid → plain_id id →
  target_of (it_to intent) = Some target → hub_publish inst now intent = Some (rk, payload) →
  plain (envelope_json (hub_envelope inst now intent)) →
  let st' := port_publish rk payload st in
  ∃ q', b_qheap st' !! qr = Some q' ∧
    (addressed s id target → got_copy SSE_CHANNEL payload rk no_publish_options st st' q q') ∧
    (¬ addressed s id target → q' = q) ∧
    hub_frame s inst' payload =
    {| fr_scope := s; fr_instanceId := inst';
       fr_message := envelope_json (hub_envelope inst now intent) |}.
Proof.
  intros Hst (Hq & Hcfg & Hsub) Hid Hto Hpub Hplain. unfold hub_publish in Hpub. rewrite Hto in Hpub.
  cbn [mbind option_bind] in Hpub. set (v := envelope_json (hub_envelope inst now intent)) in *.
  assert (rk = routingKeyFor target ∧ payload = stringify v) as [-> ->] by (split; congruence). unfold port_publish.
  destruct (publish_copies SSE_CHANNEL (stringify v) (Some (routingKeyFor target)) no_publish_options st qr q)
    as (q' & Hq' & _ & Hin & Hout); [auto with bus| | |done|].
  { apply iw_nodup. auto with bus. }
  { intros (d & Hd & _). discriminate Hd. }
  simpl in Hin, Hout. rewrite Hcfg, conn_matches_target in Hin, Hout by done.
  exists q'. split; [exact Hq'|]. split; [|split].
  - intros Ha. by apply Hin.
  - intros Hne. apply Hout. by intros [_ ?].
  - unfold hub_frame, hub_parse. by rewrite parse_stringify.
Qed.

(** alice@acme on instance i1; instance i2 publishes to her. *)
Definition sse_bus : Bus :=
  (hub_connect "i1" "alice" "acme" 5 1 2 0 new_InMemoryBus).2.

Definition to_alice : PublishIntent := {|
  it_to := JObj [("type", JStr "user"); ("id", JStr "alice")];
  it_from := JStr "bob"; it_text := JStr "hi" |}.

Lemma sse_bus_reachable : reachable sse_bus.
Proof.
  assert (H : sse_bus = run [OpSubscribe SSE_CHANNEL 1 (port_options (scope_key user "alice")
        (port_subscriberId "i1" (scope_key user "alice") 5 0));
      OpSubscribe SSE_CHANNEL 2 (port_options (scope_key org "acme")
        (port_subscriberId "i1" (scope_key org "acme") 5 1))] new_InMemoryBus)
    by (vm_compute; reflexivity).
  rewrite H. apply run_reachable, reachable_init.
Qed.

Lemma publish_reaches_streams_witness :
  let '(rk, payload) := default ("", "") (hub_publish "i2" "now" to_alice) in
  let st' := port_publish rk payload sse_bus in
  let alice := {| pt_type := "user"; pt_id := "alice" |} in
  ∃ q', b_qheap st' !! 0 = Some q' ∧
    (addressed user "alice" alice →
     got_copy SSE_CHANNEL payload rk no_publish_options sse_bus st' (bus_queue sse_bus 0) q') ∧
    (¬ addressed user "alice" alice → q' = bus_queue sse_bus 0) ∧
    hub_frame user "i1" payload =
    {| fr_scope := user; fr_instanceId := "i1";
       fr_message := envelope_json (hub_envelope "i2" "now" to_alice) |}.
Proof.
  apply (publish_reaches_streams sse_bus "i2" "i1" "now" to_alice {| pt_type := "user"; pt_id := "alice" |} _ _
    user "alice" (port_subscriberId "i1" (scope_key user "alice") 5 0) 0 (bus_queue sse_bus 0)).
  - apply sse_bus_reachable.
  - split; [vm_compute; reflexivity|]. split; [vm_compute; reflexivity|by_compute].
  - vm_compute. repeat constructor; done.
  - reflexivity.
  - reflexivity.
  - repeat constructor; simpl; try reflexivity; by_compute.
Defined.
