(* ===== verification/SseHttp.v ===== *)
(** The HTTP adapter of the SSE cluster (sse/adapters/http-server.ts): the request
    router with its validations, the SSE framing of a response, and the life of one
    event stream as a state machine over broker and socket events. *)

From S2P Require Import Prelude Abstractions Numbers Json Sse.
From Stdlib Require Import Ascii.

(** ** Requests and replies *)

Record Request := {
  rq_method : string;
  rq_pathname : string;
  rq_params : list (string * string);  (* the query parameters, first value of each name *)
  rq_body : string
}.

Definition cors_headers : list (string * string) :=
  [("access-control-allow-origin", "*");
   ("access-control-allow-methods", "GET, POST, OPTIONS");
   ("access-control-allow-headers", "content-type");
   ("access-control-max-age", "86400")].

(** A finished response; the body of [GET /] is the index file. *)
Record Response := {
  rs_status : Z;
  rs_headers : list (string * string);
  rs_body : string
}.

(** What handling a request does: answer, open an event stream, or publish first. *)
Inductive Handled :=
  | Answered (r : Response)
  | Streaming (userId orgId : string) (headers : list (string * string))
  | Published (routingKey payload : string) (r : Response).

Definition respond (status : Z) (content_type : option string) (body : string) : Response := {|
  rs_status := status;
  rs_headers := cors_headers ++ match content_type with Some t => [("content-type", t)] | None => [] end;
  rs_body := body |}.

(** The outcome of the asynchronous calls a request makes: reading the index file and
    publishing through the hub. *)
Record Outcomes := { oc_index : string + string; oc_publish : option string }.

(** The [catch] of the server callback; [message] is the error's. *)
Definition error_response (message : string) : Response :=
  respond 500 (Some "text/plain") ("error: " +:+ message).

Definition stream_headers (instanceId : string) : list (string * string) :=
  cors_headers ++
  [("content-type", "text/event-stream"); ("cache-control", "no-cache, no-transform");
   ("connection", "keep-alive"); ("x-instance-id", instanceId)].

(** [handleEvents], up to the opening of the stream. *)
Definition handleEvents (instanceId : string) (rq : Request) : Handled :=
  let userId := default "" (map_get (rq_params rq) "userId") in
  let orgId := default "" (map_get (rq_params rq) "orgId") in
  if decide (userId = "" ∨ orgId = "")
  then Answered (respond 400 (Some "text/plain") "userId and orgId query params are required")
  else Streaming userId orgId (stream_headers instanceId).

(** [body?.to?.k]. *)
Definition to_field (k : string) (body : Json) : option Json :=
  get_field "to" body ≫= get_field k.

(** [body.k ?? d]. *)
Definition or_default (k d : string) (body : Json) : Json :=
  match get_field k body with
  | None | Some JNull => JStr d
  | Some v => v
  end.

Definition handlePublish (instanceId now : string) (oc : Outcomes) (rq : Request) : Handled :=
  match parse (rq_body rq) with
  | None => Answered (respond 400 (Some "text/plain") "invalid JSON body")
  | Some body =>
      if negb (truthy (to_field "type" body)) || negb (truthy (to_field "id" body))
      then Answered (respond 400 (Some "text/plain") "body must be { to: { type, id }, from, text }")
      else
        match
          hub_publish instanceId now
            {| it_to := default JNull (get_field "to" body);
               it_from := or_default "from" "anon" body; it_text := or_default "text" "" body |}
        with
        | None => Answered (error_response "Cannot convert object to primitive value")
        | Some (routingKey, payload) =>
            Published routingKey payload
              match oc_publish oc with
              | Some message => error_response message
              | None =>
                  respond 202 (Some "application/json")
                    (stringify (JObj [("accepted", JBool true); ("routingKey", JStr routingKey);
                                      ("via", JStr instanceId)]))
              end
        end
  end.

Definition handle (instanceId now : string) (oc : Outcomes) (rq : Request) : Handled :=
  if decide (rq_method rq = "OPTIONS") then Answered (respond 204 None "")
  else if decide (rq_method rq = "GET" ∧ rq_pathname rq = "/healthz") then
    Answered (respond 200 (Some "application/json")
      (stringify (JObj [("ok", JBool true); ("instanceId", JStr instanceId)])))
  else if decide (rq_method rq = "GET" ∧ rq_pathname rq = "/") then
    Answered match oc_index oc with
             | inl message => error_response message
             | inr html => respond 200 (Some "text/html; charset=utf-8") html
             end
  else if decide (rq_method rq = "GET" ∧ rq_pathname rq = "/events") then handleEvents instanceId rq
  else if decide (rq_method rq = "POST" ∧ rq_pathname rq = "/publish") then
    handlePublish instanceId now oc rq
  else Answered (respond 404 (Some "text/plain") "not found").

Definition headers_of (h : Handled) : list (string * string) :=
  match h with
  | Answered r => rs_headers r
  | Streaming _ _ hs => hs
  | Published _ _ r => rs_headers r
  end.

(** ** Framing *)

Definition nl2 : string := String newline (String newline "").

Definition data_frame (v : Json) : string := "data: " +:+ stringify v +:+ nl2.

Definition hello_frame (instanceId userId orgId : string) : string :=
  "event: hello" +:+ String newline
    ("data: " +:+
     stringify (JObj [("instanceId", JStr instanceId); ("userId", JStr userId); ("orgId", JStr orgId)])
     +:+ nl2).

Definition keep_alive (now : N) : string := ": keep-alive " +:+ pretty now +:+ nl2.

(** ** The life of one stream *)

Inductive Phase := BindingUser | BindingOrg | Bound | Failed.

Record Conn := {
  cn_instance : string;
  cn_phase : Phase;               (* where the [await hub.connect] stands *)
  cn_closed : bool;               (* the [closed] flag of [cleanup] *)
  cn_heartbeat : bool;
  cn_teardown : option (list Scope); (* [None]: still the initial no-op *)
  cn_subs : list Scope;           (* live broker subscriptions of this connection *)
  cn_torn : nat;                  (* calls of [teardown] *)
  cn_written : list string;
  cn_ended : bool                 (* [res.end] was called *)
}.

Inductive ConnEvent :=
  | SubscribeOk                   (* the pending [bindScope] resolves *)
  | SubscribeFails (message : string)
  | ClientCloses                  (* req/res 'close' *)
  | BrokerMessage (s : Scope) (body : string)
  | Heartbeat (now : N).

(** [openSseSink] and the call of [hub.connect]. *)
Definition open_stream (instanceId userId orgId : string) : Conn := {|
  cn_instance := instanceId; cn_phase := BindingUser; cn_closed := false; cn_heartbeat := true;
  cn_teardown := None; cn_subs := []; cn_torn := 0;
  cn_written := [hello_frame instanceId userId orgId]; cn_ended := false |}.

Definition write (chunk : string) (c : Conn) : Conn := {|
  cn_instance := cn_instance c; cn_phase := cn_phase c; cn_closed := cn_closed c;
  cn_heartbeat := cn_heartbeat c; cn_teardown := cn_teardown c; cn_subs := cn_subs c;
  cn_torn := cn_torn c; cn_written := cn_written c ++ [chunk]; cn_ended := cn_ended c |}.

Definition set_binding (p : Phase) (subs : list Scope) (td : option (list Scope)) (ended : bool)
    (c : Conn) : Conn := {|
  cn_instance := cn_instance c; cn_phase := p; cn_closed := cn_closed c;
  cn_heartbeat := cn_heartbeat c; cn_teardown := td; cn_subs := subs; cn_torn := cn_torn c;
  cn_written := cn_written c; cn_ended := ended |}.

(** [cleanup]: once; clear the heartbeat and run whatever [teardown] holds now. *)
Definition cleanup (c : Conn) : Conn :=
  if cn_closed c then c
  else {|
    cn_instance := cn_instance c; cn_phase := cn_phase c; cn_closed := true;
    cn_heartbeat := false; cn_teardown := cn_teardown c;
    cn_subs := match cn_teardown c with
               | Some scopes => filter (λ s, s ∉ scopes) (cn_subs c)
               | None => cn_subs c
               end;
    cn_torn := S (cn_torn c); cn_written := cn_written c; cn_ended := cn_ended c |}.

(** A failed [bindScope] rejects [handle], whose catch ends the response. *)
Definition bind_fails (message : string) (c : Conn) : Conn :=
  set_binding Failed (cn_subs c) (cn_teardown c) true (write ("error: " +:+ message) c).

Definition conn_step (ev : ConnEvent) (c : Conn) : Conn :=
  match ev, cn_phase c with
  | SubscribeOk, BindingUser => set_binding BindingOrg (user :: cn_subs c) (cn_teardown c) (cn_ended c) c
  | SubscribeOk, BindingOrg =>
      set_binding Bound (org :: cn_subs c) (Some [user; org]) (cn_ended c) c
  | SubscribeFails m, (BindingUser | BindingOrg) => bind_fails m c
  | ClientCloses, _ => cleanup c
  | BrokerMessage s body, _ =>
      if decide (s ∈ cn_subs c)
      then write (data_frame (frame_json (hub_frame s (cn_instance c) body))) c
      else c
  | Heartbeat now, _ => if cn_heartbeat c then write (keep_alive now) c else c
  | _, _ => c
  end.

Definition conn_run (evs : list ConnEvent) (c : Conn) : Conn := foldl (λ c ev, conn_step ev c) c evs.

(** ** Lemmas on streams *)

(** What holds of every stream. *)
Record conn_wf (c : Conn) : Prop := {
  cw_phase : match cn_phase c with
             | BindingUser => cn_subs c = [] ∧ cn_teardown c = None
             | BindingOrg => cn_subs c = [user] ∧ cn_teardown c = None
             | Bound => cn_teardown c = Some [user; org] ∧
                 (cn_subs c = [org; user] ∨ (cn_closed c = true ∧ cn_subs c = []))
             | Failed => cn_teardown c = None
             end;
  cw_torn : cn_torn c = if cn_closed c then 1 else 0;
  cw_heartbeat : cn_heartbeat c = negb (cn_closed c)
}.

Lemma cleanup_wf c : conn_wf c → conn_wf (cleanup c).
Proof.
  intros [Hp Ht Hh]. unfold cleanup. destruct (cn_closed c) eqn:Hc; [by split; rewrite ?Hc|].
  split; simpl; [|by rewrite Ht|done].
  destruct (cn_phase c).
  - by destruct Hp as [-> ->].
  - by destruct Hp as [-> ->].
  - destruct Hp as [-> [->|[? _]]]; [|congruence]. by auto.
  - by rewrite Hp.
Qed.

Lemma write_wf chunk c : conn_wf c → conn_wf (write chunk c).
Proof. by intros [? ? ?]. Qed.

(** The events that do not depend on the phase. *)
Lemma conn_step_closes c : conn_step ClientCloses c = cleanup c.
Proof. by destruct c as [? []]. Qed.

Lemma conn_step_message s body c :
  conn_step (BrokerMessage s body) c =
  if decide (s ∈ cn_subs c)
  then write (data_frame (frame_json (hub_frame s (cn_instance c) body))) c else c.
Proof. by destruct c as [? []]. Qed.

Lemma conn_step_heartbeat now c :
  conn_step (Heartbeat now) c = if cn_heartbeat c then write (keep_alive now) c else c.
Proof. by destruct c as [? []]. Qed.

Lemma conn_step_wf ev c : conn_wf c → conn_wf (conn_step ev c).
Proof.
  intros Hwf. destruct ev as [|m| |s body|now].
  - destruct Hwf as [Hp Ht Hh]. destruct c as [i ph cl hb td subs tn wr en]. simpl in *.
    destruct ph; simpl in *; try (by split); destruct Hp as [-> ->]; split; simpl; auto.
  - destruct Hwf as [Hp Ht Hh]. destruct c as [i ph cl hb td subs tn wr en]. simpl in *.
    destruct ph; simpl in *; try (by split); destruct Hp as [-> ->]; by split.
  - rewrite conn_step_closes. by apply cleanup_wf.
  - rewrite conn_step_message. case_decide; auto using write_wf.
  - rewrite conn_step_heartbeat. case_match; auto using write_wf.
Qed.

Lemma open_stream_wf i u o : conn_wf (open_stream i u o).
Proof. by split. Qed.

Lemma conn_run_wf evs c : conn_wf c → conn_wf (conn_run evs c).
Proof.
  revert c. induction evs as [|ev evs IH]; intros c Hc; [done|]. simpl. by apply IH, conn_step_wf.
Qed.

(** What no later event changes: the stream is closed, and [subs] stay bound. *)
Lemma closed_keeps evs c :
  cn_closed c = true → cn_phase c = Bound ∨ cn_phase c = Failed →
  cn_closed (conn_run evs c) = true ∧ cn_subs (conn_run evs c) = cn_subs c ∧
  cn_phase (conn_run evs c) = cn_phase c.
Proof.
  revert c. induction evs as [|ev evs IH]; intros c Hc Hp; [done|]. simpl.
  assert (H : cn_closed (conn_step ev c) = true ∧ cn_subs (conn_step ev c) = cn_subs c ∧
    cn_phase (conn_step ev c) = cn_phase c).
  { destruct ev as [|m| |s body|now].
    - destruct c as [i ph cl hb td subs tn wr en]. simpl in *. by destruct Hp as [->| ->].
    - destruct c as [i ph cl hb td subs tn wr en]. simpl in *. by destruct Hp as [->| ->].
    - rewrite conn_step_closes. unfold cleanup. by rewrite Hc.
    - rewrite conn_step_message. by case_decide.
    - rewrite conn_step_heartbeat. by case_match. }
  destruct H as (H1 & H2 & H3). rewrite <- H2, <- H3. apply IH; [done|by rewrite H3].
Qed.

Lemma failed_keeps evs c :
  conn_wf c → cn_phase c = Failed → cn_subs (conn_run evs c) = cn_subs c.
Proof.
  revert c. induction evs as [|ev evs IH]; intros c Hwf Hp; [done|]. simpl.
  assert (H : cn_subs (conn_step ev c) = cn_subs c ∧ cn_phase (conn_step ev c) = Failed).
  { pose proof (cw_phase _ Hwf) as Hph. rewrite Hp in Hph. destruct ev as [|m| |s body|now].
    - destruct c as [i ph cl hb td subs tn wr en]. simpl in *. by rewrite Hp.
    - destruct c as [i ph cl hb td subs tn wr en]. simpl in *. by rewrite Hp.
    - rewrite conn_step_closes. unfold cleanup. rewrite Hph. by destruct (cn_closed c).
    - rewrite conn_step_message. by case_decide.
    - rewrite conn_step_heartbeat. by case_match. }
  destruct H as [H1 H2]. rewrite <- H1. apply IH; [by apply conn_step_wf|done].
Qed.

(** The text between blank lines: how a client cuts the stream into events. *)
Fixpoint read_events (cur s : string) : list string :=
  match s with
  | "" => []
  | String a s1 =>
      match s1 with
      | String b s2 =>
          if decide (a = newline ∧ b = newline) then cur :: read_events "" s2
          else read_events (cur +:+ String a "") s1
      | "" => []
      end
  end.

Lemma read_events_one cur t rest :
  has_char newline t = false → read_events cur (t +:+ (nl2 +:+ rest)) = (cur +:+ t) :: read_events "" rest.
Proof.
  revert cur. induction t as [|a t IH]; intros cur Ht.
  - unfold nl2. sapp. simpl. by rewrite string_app_empty_r.
  - simpl in Ht. apply orb_false_iff in Ht as [Ha Ht]. apply bool_decide_eq_false in Ha.
    specialize (IH (cur +:+ String a "") Ht). rewrite string_app_assoc in IH.
    rewrite string_app_cons, string_app_nil in IH. rewrite string_app_cons, <- IH.
    destruct (t +:+ (nl2 +:+ rest)) as [|b s2] eqn:E.
    + by destruct t.
    + simpl. rewrite decide_False by naive_solver. done.
Qed.

(** ** Properties *)

(** C29: teardown.  A client that closes after its stream is bound loses both broker
    subscriptions and the heartbeat at once, and no later event brings them back or
    tears down a second time. *)
Theorem bound_stream_torn_down (i userId orgId : string) (evs evs' : list ConnEvent) :
  let c := conn_run evs (open_stream i userId orgId) in
  cn_phase c = Bound → cn_closed c = false →
  let c' := conn_run (ClientCloses :: evs') c in
  cn_subs c' = [] ∧ cn_heartbeat c' = false ∧ cn_torn c' = 1.
Proof.
  intros c Hp Hcl c'. pose proof (conn_run_wf evs _ (open_stream_wf i userId orgId)) as Hwf.
  fold c in Hwf. pose proof (cw_phase _ Hwf) as Hph. rewrite Hp in Hph.
  destruct Hph as [Htd [Hs|[Hc _]]]; [|congruence].
  assert (H : cn_closed (cleanup c) = true ∧ cn_subs (cleanup c) = [] ∧ cn_phase (cleanup c) = Bound).
  { unfold cleanup. rewrite Hcl, Htd, Hs. done. }
  destruct H as (H1 & H2 & H3). assert (E : c' = conn_run evs' (cleanup c)).
  { change c' with (conn_run evs' (conn_step ClientCloses c)). by rewrite (conn_step_closes c). }
  pose proof (conn_run_wf evs' _ (cleanup_wf _ Hwf)) as Hwf'. rewrite <- E in Hwf'.
  destruct (closed_keeps evs' (cleanup c) H1 (or_introl H3)) as (K1 & K2 & _). rewrite <- E in K1, K2.
  rewrite K2, H2, (cw_heartbeat _ Hwf'), (cw_torn _ Hwf'), K1. done.
Qed.

Lemma bound_stream_torn_down_witness :
  let c := conn_run [SubscribeOk; Heartbeat 3; SubscribeOk] (open_stream "i1" "alice" "acme") in
  let c' := conn_run [ClientCloses; ClientCloses; Heartbeat 9] c in
  cn_subs c' = [] ∧ cn_heartbeat c' = false ∧ cn_torn c' = 1.
Proof.
  apply (bound_stream_torn_down "i1" "alice" "acme" [SubscribeOk; Heartbeat 3; SubscribeOk]
    [ClientCloses; Heartbeat 9]); reflexivity.
Defined.

(** an early close leaks.  A client that closes while its subscriptions are being
    bound runs the initial no-op teardown; both subscriptions are then bound and stay
    bound whatever happens later, and broker messages keep being written to the closed
    response. *)
Theorem early_close_leaks_subscriptions (i userId orgId : string) (evs : list ConnEvent) :
  ∀ start, start = [ClientCloses; SubscribeOk; SubscribeOk] ∨ start = [SubscribeOk; ClientCloses; SubscribeOk] →
  let c := conn_run (start ++ evs) (open_stream i userId orgId) in
  cn_closed c = true ∧ cn_subs c = [org; user].
Proof.
  intros start Hstart c. unfold c, conn_run. rewrite foldl_app.
  set (c0 := foldl _ _ start).
  assert (H : cn_closed c0 = true ∧ cn_subs c0 = [org; user] ∧ cn_phase c0 = Bound).
  { unfold c0. by destruct Hstart as [-> | ->]. }
  destruct H as (H1 & H2 & H3).
  destruct (closed_keeps evs c0 H1 (or_introl H3)) as (K1 & K2 & _). unfold conn_run in *. by rewrite K1, K2.
Qed.

Lemma early_close_leaks_subscriptions_witness :
  let c := conn_run ([ClientCloses; SubscribeOk; SubscribeOk] ++ [ClientCloses; Heartbeat 1])
    (open_stream "i1" "alice" "acme") in
  cn_closed c = true ∧ cn_subs c = [org; user].
Proof.
  apply (early_close_leaks_subscriptions "i1" "alice" "acme" [ClientCloses; Heartbeat 1]
    [ClientCloses; SubscribeOk; SubscribeOk]). left. reflexivity.
Defined.

(** a failed second subscription leaks the first.  When the user subscription is
    bound and the org subscription fails, the response is ended but the user
    subscription stays bound whatever happens later. *)
Theorem failed_bind_leaks_subscription (i userId orgId message : string) (evs : list ConnEvent) :
  let c := conn_run ([SubscribeOk; SubscribeFails message] ++ evs) (open_stream i userId orgId) in
  cn_subs c = [user].
Proof.
  intros c. unfold c, conn_run. rewrite foldl_app. apply (failed_keeps evs); [|done].
  apply (conn_run_wf [SubscribeOk; SubscribeFails message]), open_stream_wf.
Qed.

(** C33: framing.  Whatever line breaks the messages contain, the client cuts the stream
    of data frames into exactly the frames sent, in order, each one line holding the
    printed JSON. *)
Theorem frames_recovered (vs : list Json) :
  read_events "" (foldr (λ v s, data_frame v +:+ s) "" vs) = (λ v, "data: " +:+ stringify v) <$> vs.
Proof.
  induction vs as [|v vs IH]; [done|].
  rewrite fmap_cons, <- IH. change (foldr ?f ?z (v :: vs)) with (f v (foldr f z vs)). cbv beta.
  unfold data_frame at 1. rewrite <- (string_app_assoc "data: "), (string_app_assoc _ nl2).
  rewrite read_events_one; [done|]. by rewrite has_char_app, stringify_no_newline.
Qed.

(** C31: validation.  A publish request reaches the broker exactly when its body is JSON
    with a truthy target type and id that can be made strings; then its routing key is
    [type.id].  A body that is not JSON or lacks one of the two is answered 400, and a
    target whose own [toString] property hides the method is answered 500; neither is
    published. *)
Theorem publish_validated (instanceId now : string) (oc : Outcomes) (rq : Request) :
  rq_method rq = "POST" → rq_pathname rq = "/publish" →
  match handle instanceId now oc rq with
  | Published rk _ r =>
      ∃ body t id ts ids, parse (rq_body rq) = Some body ∧ to_field "type" body = Some t ∧
        to_field "id" body = Some id ∧ truthy (Some t) = true ∧ truthy (Some id) = true ∧
        js_string t = Some ts ∧ js_string id = Some ids ∧ rk = ts +:+ "." +:+ ids ∧
        (rs_status r = 202%Z ↔ oc_publish oc = None)
  | Answered r =>
      rs_status r = 400%Z ∧
        (∀ body, parse (rq_body rq) = Some body →
          truthy (to_field "type" body) = false ∨ truthy (to_field "id" body) = false) ∨
      rs_status r = 500%Z ∧
        ∃ body t id, parse (rq_body rq) = Some body ∧ to_field "type" body = Some t ∧
          to_field "id" body = Some id ∧ (js_string t = None ∨ js_string id = None)
  | Streaming _ _ _ => False
  end.
Proof.
  intros Hm Hp. unfold handle. rewrite Hm, Hp.
  repeat (rewrite decide_False by (try (intros [? ?]); discriminate)). rewrite decide_True by done.
  unfold handlePublish. destruct (parse (rq_body rq)) as [body|]; [|by left].
  destruct (truthy (to_field "type" body)) eqn:Ht; simpl; [|naive_solver].
  destruct (truthy (to_field "id" body)) eqn:Hi; simpl; [|naive_solver].
  unfold to_field in *. destruct (get_field "to" body) as [to|] eqn:Hto; [|done]. simpl in Ht, Hi.
  destruct (get_field "type" to) as [t|] eqn:Et; [|done].
  destruct (get_field "id" to) as [id|] eqn:Ei; [|done].
  unfold hub_publish. change (it_to _) with to. unfold target_of. rewrite Et, Ei. cbn [js_string_opt].
  destruct (js_string t) as [ts|] eqn:Ets; simpl; [|right; split; [done|]; exists body, t, id; rewrite Hto; auto].
  destruct (js_string id) as [ids|] eqn:Eids; simpl; [|right; split; [done|]; exists body, t, id; rewrite Hto; auto].
  exists body, t, id, ts, ids. rewrite Hto. simpl. do 8 (split; [done|]). by destruct (oc_publish oc).
Qed.

Lemma publish_validated_witness :
  let body := stringify (JObj [("to", JObj [("type", JStr "user"); ("id", JNum (of_Z 7))])]) in
  match handle "i1" "now" {| oc_index := inr ""; oc_publish := None |}
          {| rq_method := "POST"; rq_pathname := "/publish"; rq_params := []; rq_body := body |} with
  | Published rk _ r =>
      ∃ b t id ts ids, parse body = Some b ∧ to_field "type" b = Some t ∧
        to_field "id" b = Some id ∧ truthy (Some t) = true ∧ truthy (Some id) = true ∧
        js_string t = Some ts ∧ js_string id = Some ids ∧ rk = ts +:+ "." +:+ ids ∧
        (rs_status r = 202%Z ↔ None = @None string)
  | Answered r =>
      rs_status r = 400%Z ∧
        (∀ b, parse body = Some b → truthy (to_field "type" b) = false ∨ truthy (to_field "id" b) = false) ∨
      rs_status r = 500%Z ∧
        ∃ b t id, parse body = Some b ∧ to_field "type" b = Some t ∧
          to_field "id" b = Some id ∧ (js_string t = None ∨ js_string id = None)
  | Streaming _ _ _ => False
  end.
Proof.
  apply (publish_validated "i1" "now" {| oc_index := inr ""; oc_publish := None |}
    {| rq_method := "POST"; rq_pathname := "/publish"; rq_params := [];
       rq_body := stringify (JObj [("to", JObj [("type", JStr "user"); ("id", JNum (of_Z 7))])]) |}); reflexivity.
Defined.

(** CORS.  Every reply to every request, errors and event streams included, carries
    the four CORS headers. *)
Theorem cors_on_every_reply (instanceId now : string) (oc : Outcomes) (rq : Request) :
  ∃ rest, headers_of (handle instanceId now oc rq) = cors_headers ++ rest.
Proof.
  assert (Hr : ∀ st ct b, ∃ rest, rs_headers (respond st ct b) = cors_headers ++ rest) by (intros; by eexists).
  unfold handle, handleEvents, handlePublish, error_response.
  repeat (case_match; simpl); try apply Hr; by eexists.
Qed.
