(* ===== verification/RabbitMq.v ===== *)
(** The RabbitMQ adapter (adapters/rabbitmq.ts): the amqplib calls each operation of
    the two ports makes, the exchanges and queues it declares, and how a delivered
    message is settled, retried and dead-lettered. *)

From S2P Require Import Prelude Abstractions Ports Client.
From stdpp Require Import pretty.

(** ** amqplib *)

Record RabbitConfig := { rc_url : string; rc_exchange : string }.

(** The environment variables of [rabbitConfigFromEnv]. *)
Definition rabbitConfigFromEnv (env : string → option string) : RabbitConfig :=
  let host := default "localhost" (env "RABBITMQ_HOST") in
  let port := default "5673" (env "RABBITMQ_PORT") in
  let user := default "guest" (env "RABBITMQ_USER") in
  let pass := default "guest" (env "RABBITMQ_PASSWORD") in
  {| rc_url := default ("amqp://" +:+ user +:+ ":" +:+ pass +:+ "@" +:+ host +:+ ":" +:+ port)
                 (env "RABBITMQ_URL");
     rc_exchange := default "mbc.delayed" (env "RABBITMQ_EXCHANGE") |}.

(** The [arguments] object of a declaration. *)
Abbreviation Args := (gmap string JsVal).

Record QueueOptions := {
  qo_durable : bool;
  qo_exclusive : bool;
  qo_autoDelete : bool;
  qo_arguments : Args
}.

Definition durable (args : Args) : QueueOptions :=
  {| qo_durable := true; qo_exclusive := false; qo_autoDelete := false; qo_arguments := args |}.

(** The options of a publish; every one is persistent. *)
Record Props := {
  pr_headers : option (gmap string JsVal);
  pr_priority : option Z;
  pr_replyTo : option string;
  pr_correlationId : option string;
  pr_expiration : option string
}.

Definition persistent : Props := {|
  pr_headers := None; pr_priority := None; pr_replyTo := None; pr_correlationId := None;
  pr_expiration := None |}.

(** The calls, with the channel they are made on; exchanges are durable. *)
Inductive Cmd :=
  | Connect (url : string)
  | CreateChannel (ch : nat)
  | Prefetch (ch : nat) (count : Z)
  | AssertExchange (ch : nat) (exchange type : string) (args : Args)
  | AssertQueue (ch : nat) (queue : string) (o : QueueOptions)
  | BindQueue (ch : nat) (queue exchange key : string)
  | Publish (ch : nat) (exchange key content : string) (props : Props)
  | Consume (ch : nat) (queue : string) (args : Args)
  | Cancel (ch : nat) (consumer : nat)
  | AckMsg (ch : nat) (tag : N)
  | NackMsg (ch : nat) (tag : N) (requeue : bool)
  | CloseChannel (ch : nat)
  | CloseModel.

Record ConsumeMessage := {
  cm_tag : N;
  cm_redelivered : bool;
  cm_content : string;
  cm_messageId : option string;
  cm_headers : option (gmap string JsVal);
  cm_replyTo : option string;
  cm_correlationId : option string;
  cm_priority : option Z
}.

(** ** The adapter's state *)

(** What a message of a retry-enabled subscription needs. *)
Record Retry := { rt_mainQueue : string; rt_maxDeliveries : Z; rt_dlaExchange : string }.

(** The callback a consumer was registered with. *)
Inductive Callback := Scheduled | Stream | Bus (retry : option Retry).

Record Consumer := {
  cs_channel : nat;
  cs_destination : Destination;
  cs_handler : nat;
  cs_callback : Callback
}.

Record Rabbit := {
  rb_cfg : RabbitConfig;
  rb_model : bool;
  rb_channel : option nat;
  rb_channels : nat;           (* channels created so far *)
  rb_topology : gset string;
  rb_busTopology : gset string;
  rb_hashTopology : gset string;
  rb_consumers : list Consumer (* in order of registration; a consumer's tag is its index *)
}.

Definition new_RabbitMqScheduler (cfg : RabbitConfig) : Rabbit := {|
  rb_cfg := cfg; rb_model := false; rb_channel := None; rb_channels := 0; rb_topology := ∅;
  rb_busTopology := ∅; rb_hashTopology := ∅; rb_consumers := [] |}.

Definition set_model (r : Rabbit) : Rabbit := {|
  rb_cfg := rb_cfg r; rb_model := true; rb_channel := rb_channel r; rb_channels := rb_channels r;
  rb_topology := rb_topology r; rb_busTopology := rb_busTopology r;
  rb_hashTopology := rb_hashTopology r; rb_consumers := rb_consumers r |}.

Definition set_channel (ch : nat) (r : Rabbit) : Rabbit := {|
  rb_cfg := rb_cfg r; rb_model := rb_model r; rb_channel := Some ch; rb_channels := rb_channels r;
  rb_topology := rb_topology r; rb_busTopology := rb_busTopology r;
  rb_hashTopology := rb_hashTopology r; rb_consumers := rb_consumers r |}.

Definition next_channel (r : Rabbit) : Rabbit := {|
  rb_cfg := rb_cfg r; rb_model := rb_model r; rb_channel := rb_channel r;
  rb_channels := S (rb_channels r); rb_topology := rb_topology r;
  rb_busTopology := rb_busTopology r; rb_hashTopology := rb_hashTopology r;
  rb_consumers := rb_consumers r |}.

Definition add_topology (d : string) (r : Rabbit) : Rabbit := {|
  rb_cfg := rb_cfg r; rb_model := rb_model r; rb_channel := rb_channel r; rb_channels := rb_channels r;
  rb_topology := {[d]} ∪ rb_topology r; rb_busTopology := rb_busTopology r;
  rb_hashTopology := rb_hashTopology r; rb_consumers := rb_consumers r |}.

Definition add_busTopology (t : string) (r : Rabbit) : Rabbit := {|
  rb_cfg := rb_cfg r; rb_model := rb_model r; rb_channel := rb_channel r; rb_channels := rb_channels r;
  rb_topology := rb_topology r; rb_busTopology := {[t]} ∪ rb_busTopology r;
  rb_hashTopology := rb_hashTopology r; rb_consumers := rb_consumers r |}.

Definition add_hashTopology (t : string) (r : Rabbit) : Rabbit := {|
  rb_cfg := rb_cfg r; rb_model := rb_model r; rb_channel := rb_channel r; rb_channels := rb_channels r;
  rb_topology := rb_topology r; rb_busTopology := rb_busTopology r;
  rb_hashTopology := {[t]} ∪ rb_hashTopology r; rb_consumers := rb_consumers r |}.

Definition add_consumer (c : Consumer) (r : Rabbit) : Rabbit := {|
  rb_cfg := rb_cfg r; rb_model := rb_model r; rb_channel := rb_channel r; rb_channels := rb_channels r;
  rb_topology := rb_topology r; rb_busTopology := rb_busTopology r;
  rb_hashTopology := rb_hashTopology r; rb_consumers := rb_consumers r ++ [c] |}.

Definition rabbit_bus_capabilities : BusCapabilities := {|
  supportsTopic := true; supportsFanout := true; supportsManualAck := true;
  supportsDeadLetter := true; reportsDeliveryCount := false; supportsDedup := false;
  supportsStreamReplay := true; supportsMessageGroups := Some true |}.

Definition rabbit_capabilities : Capabilities := {|
  protocol := "AMQP 0.9.1"; nativeScheduling := false; supportsCancel := false;
  supportsList := false; cap_bus := Some rabbit_bus_capabilities |}.

Definition rabbit_name : string := "RabbitMQ (delayed-message plugin)".

(** ** Names *)

Definition queueName (d : Destination) : string := "q." +:+ d.
Definition topicExchange (t : Destination) : string := "x.t." +:+ t.
Definition fanoutExchange (t : Destination) : string := "x.f." +:+ t.
Definition hashExchange (t : Destination) : string := "x.h." +:+ t.
Definition streamQueueName (t : Destination) : string := "stream." +:+ t.
Definition retryQueueName (queue : string) : string := queue +:+ ".retry".

Definition busQueueName (t subscriberId : string) (suffix : option string) : string :=
  "bus." +:+ t +:+ "." +:+ subscriberId +:+
  match suffix with Some s => "." +:+ s | None => "" end.

(** ** Messages *)

Definition normalizeHeaders (headers : option (gmap string JsVal)) : gmap string string :=
  js_String <$> default ∅ headers.

Fixpoint obj_get (k : string) (fields : list (string * JsVal)) : option JsVal :=
  match fields with
  | [] => None
  | (k', v) :: fields' => if decide (k = k') then Some v else obj_get k fields'
  end.

(** Is [e] the entry of [mainQueue]. *)
Definition death_of (mainQueue : string) (e : JsVal) : option (list (string * JsVal)) :=
  match e with
  | VObj fields =>
      match obj_get "queue" fields with
      | Some (VStr q) => if decide (q = mainQueue) then Some fields else None
      | _ => None
      end
  | _ => None
  end.

Definition xDeathCount (headers : option (gmap string JsVal)) (mainQueue : string) : Z :=
  match headers ≫= (.!! "x-death") with
  | Some (VArr xd) =>
      match head (omap (death_of mainQueue) xd) with
      | Some entry => match obj_get "count" entry with Some (VNum n) => n | _ => 0%Z end
      | None => 0%Z
      end
  | _ => 0%Z
  end.

Definition delivery_count (msg : ConsumeMessage) (retry : option Retry) : option Z :=
  match retry with
  | Some r => Some (xDeathCount (cm_headers msg) (rt_mainQueue r) + 1)%Z
  | None =>
      match cm_headers msg ≫= (.!! "x-delivery-count") with
      | Some (VNum deaths) => Some (deaths + 1)%Z
      | _ => if cm_redelivered msg then None else Some 1%Z
      end
  end.

(** A header the publisher sets to a string. *)
Definition string_header (k : string) (msg : ConsumeMessage) : option string :=
  match cm_headers msg ≫= (.!! k) with Some (VStr s) => Some s | _ => None end.

(** The data of [toIncoming]. *)
Definition toIncoming (t : Destination) (msg : ConsumeMessage) (retry : option Retry) : IncomingMessage := {|
  im_id := default "" (cm_messageId msg); im_destination := t; im_body := cm_content msg;
  im_headers := normalizeHeaders (cm_headers msg); im_deliveryCount := delivery_count msg retry;
  im_replyTo := cm_replyTo msg; im_correlationId := cm_correlationId msg;
  im_groupId := string_header "x-group-id" msg; im_priority := cm_priority msg |}.

Definition toStreamIncoming (t : Destination) (msg : ConsumeMessage) : IncomingMessage := {|
  im_id := default "" (cm_messageId msg); im_destination := t; im_body := cm_content msg;
  im_headers := normalizeHeaders (cm_headers msg); im_deliveryCount := None;
  im_replyTo := None; im_correlationId := None; im_groupId := None; im_priority := None |}.

Definition to_received (d : Destination) (msg : ConsumeMessage) : ReceivedMessage := {|
  rm_id := default "" (cm_messageId msg); rm_destination := d; rm_body := cm_content msg;
  rm_headers := normalizeHeaders (cm_headers msg) |}.

(** [publishProps]. *)
Definition publishProps (o : PublishOptions) : Props :=
  let headers := VStr <$> default ∅ (po_headers o) in
  let headers := match nonempty (po_groupId o) with
                 | Some g => <["x-group-id" := VStr g]> headers | None => headers end in
  let headers := match nonempty (po_dedupId o) with
                 | Some d => <["x-dedup-id" := VStr d]> headers | None => headers end in
  {| pr_headers := Some headers; pr_priority := po_priority o; pr_replyTo := nonempty (po_replyTo o);
     pr_correlationId := nonempty (po_correlationId o);
     pr_expiration := pretty <$> po_ttlMs o |}.

(** ** Operations *)

Abbreviation RabbitW := (Remote Cmd Rabbit).

Section adapter.
Context `{Client Cmd}.

(** Using [this.model!] or [this.channel!] while it is undefined. *)
Definition undefined_error : Error := OtherError "Cannot read properties of undefined".

Definition createChannel : M RabbitW nat :=
  model ← asks rb_model;
  if (model : bool) then
    ch ← asks rb_channels;
    _ ← call (CreateChannel ch);
    _ ← update next_channel;
    mret ch
  else throw undefined_error.

Definition the_channel : M RabbitW nat :=
  channel ← asks rb_channel;
  match channel with Some ch => mret ch | None => throw undefined_error end.

Definition ensureChannel : M RabbitW nat :=
  model ← asks rb_model;
  cfg ← asks rb_cfg;
  _ ← when (negb model) (_ ← call (Connect (rc_url cfg)); update set_model);
  channel ← asks rb_channel;
  match channel with
  | Some ch => mret ch
  | None =>
      ch ← createChannel;
      _ ← update (set_channel ch);
      _ ← call (Prefetch ch 1);
      mret ch
  end.

Definition connect : M RabbitW unit :=
  ch ← ensureChannel;
  cfg ← asks rb_cfg;
  call (AssertExchange ch (rc_exchange cfg) "x-delayed-message" {["x-delayed-type" := VStr "direct"]}).

Definition connectBus : M RabbitW unit := _ ← ensureChannel; mret tt.

Definition ensureTopology (d : Destination) : M RabbitW string :=
  known ← asks (λ r, bool_decide (d ∈ rb_topology r));
  cfg ← asks rb_cfg;
  _ ← when (negb known) (
    ch ← the_channel;
    _ ← call (AssertQueue ch (queueName d) (durable ∅));
    _ ← call (BindQueue ch (queueName d) (rc_exchange cfg) d);
    update (add_topology d));
  mret (queueName d).

Definition sendNow (d : Destination) (payload : string) : M RabbitW unit :=
  _ ← ensureTopology d;
  ch ← the_channel;
  cfg ← asks rb_cfg;
  call (Publish ch (rc_exchange cfg) d payload persistent).

(** The options of a delayed publish. *)
Definition delayed (delay : Z) (id : string) : Props := {|
  pr_headers := Some {["x-delay" := VNum delay; "scheduleId" := VStr id]};
  pr_priority := None; pr_replyTo := None; pr_correlationId := None; pr_expiration := None |}.

Definition schedule (d : Destination) (payload : string) (deliverAt : Z) : M RabbitW ScheduleHandle :=
  _ ← ensureTopology d;
  t ← now;
  let delay := Z.max 0 (deliverAt - t) in
  rand ← draw;
  let id := "rmq-" +:+ pretty t +:+ "-" +:+ rand in
  ch ← the_channel;
  cfg ← asks rb_cfg;
  _ ← call (Publish ch (rc_exchange cfg) d payload (delayed delay id));
  mret {| sh_id := id; sh_destination := d; sh_deliverAt := deliverAt |}.

Definition cancel (h : ScheduleHandle) : M RabbitW unit :=
  throw (NotSupportedError "cancel" rabbit_name
    (Some "the delayed-message plugin has no API to remove a pending message")).

Definition listScheduled (d : Destination) : M RabbitW (list ScheduledInfo) :=
  throw (NotSupportedError "listScheduled" rabbit_name
    (Some "pending delayed messages live in a node-local Mnesia table, not a queue")).

(** [ch.consume]: the consumer's index stands for its tag. *)
Definition startConsume (queue : string) (args : Args) (c : Consumer) : M RabbitW nat :=
  _ ← call (Consume (cs_channel c) queue args);
  i ← asks (λ r, length (rb_consumers r));
  _ ← update (add_consumer c);
  mret i.

Definition consume (d : Destination) (handler : MessageHandler) : M RabbitW nat :=
  queue ← ensureTopology d;
  ch ← the_channel;
  startConsume queue ∅
    {| cs_channel := ch; cs_destination := d; cs_handler := handler; cs_callback := Scheduled |}.

(** The [unsubscribe] of a scheduler subscription. *)
Definition stop_consume (consumer : nat) : M RabbitW unit :=
  ch ← the_channel;
  call (Cancel ch consumer).

(** ** The bus port *)

Definition ensureBusExchanges (t : Destination) : M RabbitW unit :=
  known ← asks (λ r, bool_decide (t ∈ rb_busTopology r));
  when (negb known) (
    ch ← the_channel;
    _ ← call (AssertExchange ch (topicExchange t) "topic" ∅);
    _ ← call (AssertExchange ch (fanoutExchange t) "fanout" ∅);
    update (add_busTopology t)).

Definition ensureHashExchange (t : Destination) : M RabbitW unit :=
  known ← asks (λ r, bool_decide (t ∈ rb_hashTopology r));
  when (negb known) (
    ch ← the_channel;
    _ ← call (AssertExchange ch (hashExchange t) "x-consistent-hash" ∅);
    update (add_hashTopology t)).

Definition publish (t : Destination) (payload : string) (routingKey : option string)
    (o : PublishOptions) : M RabbitW unit :=
  _ ← ensureBusExchanges t;
  let props := publishProps o in
  ch ← the_channel;
  _ ← call (Publish ch (topicExchange t) (default t routingKey) payload props);
  _ ← call (Publish ch (fanoutExchange t) "" payload props);
  match nonempty (po_groupId o) with
  | Some g =>
      _ ← ensureHashExchange t;
      ch ← the_channel;
      call (Publish ch (hashExchange t) g payload props)
  | None => mret tt
  end.

(** A new channel with its own prefetch. *)
Definition own_channel (prefetch : Z) : M RabbitW nat :=
  ch ← createChannel;
  _ ← call (Prefetch ch prefetch);
  mret ch.

(** A subscription is the channel it runs on. *)
Definition subscribeStreamReplay (t : Destination) (handler : AckHandler) : M RabbitW nat :=
  let queue := streamQueueName t in
  ch ← own_channel 10;
  _ ← call (AssertQueue ch queue (durable {["x-queue-type" := VStr "stream"]}));
  _ ← call (BindQueue ch queue (topicExchange t) "#");
  _ ← startConsume queue {["x-stream-offset" := VStr "first"]}
        {| cs_channel := ch; cs_destination := t; cs_handler := handler; cs_callback := Stream |};
  mret ch.

Definition is_true (b : option bool) : bool := default false b.

(** [retryEnabled], with the delay when it holds. *)
Definition retry_delay (o : SubscribeOptions) : option Z :=
  if is_true (so_deadLetter o) then
    match so_retryDelayMs o with
    | Some d => if decide (0 < d)%Z then Some d else None
    | None => None
    end
  else None.

Definition max_deliveries (o : SubscribeOptions) : Z := default DEFAULT_MAX_DELIVERIES (so_maxDeliveries o).

(** The arguments of the retry queue: hold for [d] ms, then back to the main queue. *)
Definition retry_queue_args (d : Z) (queue : string) : Args :=
  {["x-message-ttl" := VNum d; "x-dead-letter-exchange" := VStr "";
    "x-dead-letter-routing-key" := VStr queue]}.

(** The dead-letter arguments of the main queue; declares the retry queue. *)
Definition dead_letter_args (ch : nat) (t : Destination) (queue : string) (o : SubscribeOptions) :
    M RabbitW Args :=
  match retry_delay o with
  | Some d =>
      let retryQueue := retryQueueName queue in
      _ ← ensureBusExchanges (deadLetterAddress t);
      _ ← call (AssertQueue ch retryQueue (durable (retry_queue_args d queue)));
      mret {["x-dead-letter-exchange" := VStr ""; "x-dead-letter-routing-key" := VStr retryQueue]}
  | None =>
      if is_true (so_deadLetter o) then
        _ ← ensureBusExchanges (deadLetterAddress t);
        mret {["x-queue-type" := VStr "quorum"; "x-delivery-limit" := VNum (max_deliveries o);
               "x-dead-letter-exchange" := VStr (fanoutExchange (deadLetterAddress t))]}
      else mret ∅
  end.

(** The priority and single-active arguments. *)
Definition queue_args (o : SubscribeOptions) (args : Args) : Args :=
  let args := if is_true (so_priorityQueue o) then <["x-max-priority" := VNum 10]> args else args in
  if is_true (so_singleActiveConsumer o) then <["x-single-active-consumer" := VBool true]> args else args.

Definition expiry_args (t : Destination) (o : SubscribeOptions) (args : Args) : M RabbitW Args :=
  match so_ttlMs o with
  | Some _ =>
      _ ← ensureBusExchanges (expiryAddress t);
      mret (<["x-dead-letter-exchange" := VStr (fanoutExchange (expiryAddress t))]> args)
  | None => mret args
  end.

Definition bind_main (ch : nat) (t : Destination) (queue : string) (o : SubscribeOptions) : M RabbitW unit :=
  if is_true (so_partitionByGroup o) then
    _ ← ensureHashExchange t;
    call (BindQueue ch queue (hashExchange t) "1")
  else
    match default topic (so_kind o) with
    | fanout => call (BindQueue ch queue (fanoutExchange t) "")
    | topic => call (BindQueue ch queue (topicExchange t) (default "#" (so_routingKey o)))
    end.

Definition retry_of (t : Destination) (queue : string) (o : SubscribeOptions) : option Retry :=
  match retry_delay o with
  | Some _ => Some {| rt_mainQueue := queue; rt_maxDeliveries := max_deliveries o;
                      rt_dlaExchange := fanoutExchange (deadLetterAddress t) |}
  | None => None
  end.

(** Declare, bind and consume the queue of a subscription on its channel. *)
Definition subscribe_queue (ch : nat) (t : Destination) (queue : string) (handler : AckHandler)
    (o : SubscribeOptions) : M RabbitW nat :=
  args ← dead_letter_args ch t queue o;
  let args := queue_args o args in
  if is_true (so_transient o) then
    _ ← call (AssertQueue ch queue
          {| qo_durable := false; qo_exclusive := true; qo_autoDelete := true; qo_arguments := ∅ |});
    _ ← call (BindQueue ch queue (topicExchange t) (default "#" (so_routingKey o)));
    _ ← startConsume queue ∅
          {| cs_channel := ch; cs_destination := t; cs_handler := handler; cs_callback := Bus None |};
    mret ch
  else
    args ← expiry_args t o args;
    _ ← call (AssertQueue ch queue (durable args));
    _ ← bind_main ch t queue o;
    _ ← startConsume queue ∅
          {| cs_channel := ch; cs_destination := t; cs_handler := handler;
             cs_callback := Bus (retry_of t queue o) |};
    mret ch.

Definition choose_queue (t : Destination) (o : SubscribeOptions) : M RabbitW string :=
  subscriberId ← match so_subscriberId o with
                 | Some s => mret s
                 | None => rand ← draw; mret ("sub-" +:+ rand)
                 end;
  if is_true (so_partitionByGroup o)
  then rand ← draw; mret (busQueueName t subscriberId (Some rand))
  else mret (busQueueName t subscriberId None).

Definition subscribe (t : Destination) (handler : AckHandler) (o : SubscribeOptions) : M RabbitW nat :=
  _ ← ensureBusExchanges t;
  if is_true (so_streamReplay o) then subscribeStreamReplay t handler
  else
    queue ← choose_queue t o;
    ch ← own_channel 1;
    subscribe_queue ch t queue handler o.

(** The [unsubscribe] of a bus subscription. *)
Definition close_channel (ch : nat) : M RabbitW unit :=
  try_catch (call (CloseChannel ch)) (λ _, mret tt).

(** ** Delivered messages *)

(** The [ack] and [nack] of [toStreamIncoming]. *)
Definition stream_settle (ch : nat) (msg : ConsumeMessage) (s : Settlement) : M RabbitW unit :=
  call (AckMsg ch (cm_tag msg)).

(** The [ack] and [nack] of [toIncoming]. *)
Definition bus_settle (ch : nat) (msg : ConsumeMessage) (retry : option Retry) (s : Settlement) :
    M RabbitW unit :=
  match s with
  | Ack => call (AckMsg ch (cm_tag msg))
  | Nack requeue =>
      match retry with
      | Some r =>
          if negb requeue || bool_decide (rt_maxDeliveries r ≤ default 1 (delivery_count msg retry))%Z then
            _ ← call (Publish ch (rt_dlaExchange r) "" (cm_content msg) persistent);
            call (AckMsg ch (cm_tag msg))
          else call (NackMsg ch (cm_tag msg) false)
      | None => call (NackMsg ch (cm_tag msg) requeue)
      end
  end.

(** Forget the [settled] flag of a message. *)
Definition settled_run {W A} (m : M (bool * W) A) : M W A := λ w,
  let '(r, sw) := m (false, w) in (r, sw.2).

(** The callback of a consumer on a message ([None]: the broker cancelled the
    consumer); [run] is what the handler does.  The scheduler's callback does not wait
    for the handler: only what it throws at once matters. *)
Definition on_message (c : Consumer) (msg : option ConsumeMessage) (run : HandlerRun) : M RabbitW unit :=
  match msg with
  | None => mret tt
  | Some msg =>
      match cs_callback c with
      | Scheduled =>
          match run with
          | Throws e => throw e
          | _ => ch ← the_channel; call (AckMsg ch (cm_tag msg))
          end
      | Stream => settled_run (deliver_isolated (stream_settle (cs_channel c) msg) run)
      | Bus retry => settled_run (deliver_isolated (bus_settle (cs_channel c) msg retry) run)
      end
  end.

(** [Symbol.asyncDispose]. *)
Definition asyncDispose : M RabbitW unit :=
  channel ← asks rb_channel;
  _ ← match channel with Some ch => call (CloseChannel ch) | None => mret tt end;
  model ← asks rb_model;
  when model (call CloseModel).

#[export] Instance rabbit_IMessageScheduler : IMessageScheduler RabbitW := {|
  sched_sub := nat; sched_name := rabbit_name; sched_capabilities := rabbit_capabilities;
  sched_connect := connect; sched_sendNow := sendNow; sched_schedule := schedule;
  sched_cancel := cancel; sched_listScheduled := listScheduled; sched_consume := consume;
  sched_unsubscribe := stop_consume;
  sched_dispose := asyncDispose |}.

#[export] Instance rabbit_IMessageBus : IMessageBus RabbitW := {|
  bus_sub := nat; bus_capabilities := rabbit_bus_capabilities; bus_connectBus := connectBus;
  bus_publish := publish; bus_subscribe := subscribe; bus_unsubscribe := close_channel |}.

#[export] Instance rabbit_contract : SchedulerContract RabbitW.
Proof. split; intros _ x; apply throw_refuses. Qed.
End adapter.
