(* ===== verification/RabbitMqProofs.v ===== *)
(** What holds of the RabbitMQ adapter: the invariant that every call uses declared
    exchanges and queues, the copies a publish makes, the isolation of handlers, and the
    retry path from its queue arguments to the dead-letter exchange. *)

From stdpp Require Import pretty.
From S2P Require Import Prelude Abstractions Ports Client RabbitMq.

(** ** Runs *)

Inductive RabbitOp :=
  | OpConnect | OpConnectBus | OpDispose
  | OpSendNow (d : Destination) (payload : string)
  | OpSchedule (d : Destination) (payload : string) (deliverAt : Z)
  | OpCancel (h : ScheduleHandle)
  | OpList (d : Destination)
  | OpConsume (d : Destination) (handler : MessageHandler)
  | OpStop (consumer : nat)
  | OpPublish (t : Destination) (payload : string) (routingKey : option string) (o : PublishOptions)
  | OpSubscribe (t : Destination) (handler : AckHandler) (o : SubscribeOptions)
  | OpClose (ch : nat)
  | OpMessage (consumer : nat) (msg : option ConsumeMessage) (run : HandlerRun).

Definition done_with {W A} (m : M W A) : M W unit := _ ← m; mret tt.

Definition rabbit_exec `{Client Cmd} (op : RabbitOp) : M RabbitW unit :=
  match op with
  | OpConnect => connect
  | OpConnectBus => connectBus
  | OpDispose => asyncDispose
  | OpSendNow d p => sendNow d p
  | OpSchedule d p at_ => done_with (schedule d p at_)
  | OpCancel h => cancel h
  | OpList d => done_with (listScheduled d)
  | OpConsume d h => done_with (consume d h)
  | OpStop i => stop_consume i
  | OpPublish t p k o => publish t p k o
  | OpSubscribe t h o => done_with (subscribe t h o)
  | OpClose ch => close_channel ch
  | OpMessage i msg run =>
      c ← asks (λ r, rb_consumers r !! i);
      match c with Some c => on_message c msg run | None => mret tt end
  end.

(** A failed operation leaves its effects; the next one follows. *)
Definition rabbit_run `{Client Cmd} (ops : list RabbitOp) (w : RabbitW) : RabbitW :=
  foldl (λ w op, (rabbit_exec op w).2) w ops.

(** ** Declarations *)

Inductive Resource := Exchange (name : string) | Queue (name : string).

Definition declares (c : Cmd) : list Resource :=
  match c with
  | AssertExchange _ x _ _ => [Exchange x]
  | AssertQueue _ q _ => [Queue q]
  | _ => []
  end.

Definition uses (c : Cmd) : list Resource :=
  match c with
  | BindQueue _ q x _ => [Queue q; Exchange x]
  | Publish _ x _ _ _ => [Exchange x]
  | Consume _ q _ => [Queue q]
  | _ => []
  end.

Definition declared (log : list Cmd) (r : Resource) : Prop := ∃ c, c ∈ log ∧ r ∈ declares c.

(** Every call uses resources declared before it. *)
Inductive declared_first : list Cmd → Prop :=
  | declared_first_nil : declared_first []
  | declared_first_snoc log c :
      declared_first log → (∀ r, r ∈ uses c → declared log r) → declared_first (log ++ [c]).

Lemma declared_app log log' r : declared log r → declared (log ++ log') r.
Proof. intros (c & Hc & Hr). exists c. split; [|done]. by apply elem_of_app; left. Qed.

Lemma declared_first_use log1 c log2 r :
  declared_first (log1 ++ c :: log2) → r ∈ uses c → declared log1 r.
Proof.
  intros Hd Hr. remember (log1 ++ c :: log2) as log eqn:E. revert log2 E.
  induction Hd as [|log c' Hd IH Hc']; intros log2 E; [by destruct log1|].
  destruct log2 as [|c2 log2 _] using rev_ind.
  - apply app_inj_tail in E as [-> ->]. by apply Hc'.
  - rewrite app_comm_cons, app_assoc in E. apply app_inj_tail in E as [E ->]. by eapply IH.
Qed.

Record adapter_inv (w : RabbitW) : Prop := {
  ri_first : declared_first (re_log w);
  ri_exchange : declared (re_log w) (Exchange (rc_exchange (rb_cfg (re_self w))));
  ri_topology d : d ∈ rb_topology (re_self w) → declared (re_log w) (Queue (queueName d));
  ri_bus t : t ∈ rb_busTopology (re_self w) →
    declared (re_log w) (Exchange (topicExchange t)) ∧ declared (re_log w) (Exchange (fanoutExchange t));
  ri_hash t : t ∈ rb_hashTopology (re_self w) → declared (re_log w) (Exchange (hashExchange t));
  ri_retry c r : c ∈ rb_consumers (re_self w) → cs_callback c = Bus (Some r) →
    declared (re_log w) (Exchange (rt_dlaExchange r))
}.

(** The invariant, the resources in [D] declared, the calls in [F] made. *)
Definition holds (D : list Resource) (F : list Cmd) (w : RabbitW) : Prop :=
  adapter_inv w ∧ (∀ r, r ∈ D → declared (re_log w) r) ∧ (∀ c, c ∈ F → c ∈ re_log w).

Section invariant.
Context `{Client Cmd}.

Lemma holds_weaken D D' F F' w :
  holds D F w → (∀ r, r ∈ D' → r ∈ D) → (∀ c, c ∈ F' → c ∈ F) → holds D' F' w.
Proof. intros (Hi & Hd & Hf) HD HF. split; [done|]. split; auto. Qed.

Lemma holds_call c D F :
  (∀ r, r ∈ uses c → r ∈ D) →
  triple (holds D F) (call c) (λ _, holds (declares c ++ D) (c :: F)) adapter_inv.
Proof.
  intros Hu. apply triple_call; [|by intros w [? _]]. intros w (Hi & Hd & Hf) _.
  assert (Hmono : ∀ r, declared (re_log w) r → declared (re_log (push c w)) r)
    by (intros; by apply declared_app). destruct Hi. split; [|split].
  - constructor; simpl; auto.
    + constructor; auto.
    + intros t Ht. destruct (ri_bus0 t Ht). auto.
    + eauto.
  - intros r. rewrite elem_of_app. intros [Hr|Hr]; [|auto]. exists c. split; [|done].
    simpl. apply elem_of_app. right. by apply list_elem_of_singleton.
  - intros c'. rewrite elem_of_cons. simpl. rewrite elem_of_app, list_elem_of_singleton. naive_solver.
Qed.

Lemma holds_asks {A} (f : Rabbit → A) D F : triple (holds D F) (asks f) (λ _, holds D F) adapter_inv.
Proof. by apply triple_asks. Qed.

Lemma holds_update f D F :
  (∀ w, holds D F w → adapter_inv (put_self (f (re_self w)) w)) →
  triple (holds D F) (update f) (λ _, holds D F) adapter_inv.
Proof. intros Hf. apply triple_update. intros w Hw. split; [by apply Hf|]. by destruct Hw. Qed.

Lemma holds_ret {A} (a : A) D F R : triple (holds D F) (mret a) (λ _, holds D F) R.
Proof. by intros w Hw. Qed.

Lemma holds_throw {A} e D F (Q : A → RabbitW → Prop) : triple (holds D F) (throw e) Q adapter_inv.
Proof. by intros w [? _]. Qed.

Lemma holds_post {A} (m : M RabbitW A) D F D' F' D'' F'' :
  triple (holds D F) m (λ _, holds D' F') adapter_inv →
  (∀ r, r ∈ D'' → r ∈ D') → (∀ c, c ∈ F'' → c ∈ F') →
  triple (holds D F) m (λ _, holds D'' F'') adapter_inv.
Proof. intros Hm HD HF w Hw. specialize (Hm w Hw).
  destruct (m w) as [[e|a] w']; [done|]. by eapply holds_weaken. Qed.
End invariant.

Section invariant_ops.
Context `{Client Cmd}.

(** Step through a program, leaving the used resources and the final weakening. *)
Ltac mstep :=
  first
    [ apply holds_ret
    | apply holds_throw
    | apply holds_asks
    | eapply triple_bind; [apply holds_asks|intros ?; cbv beta]
    | eapply triple_bind; [apply holds_call; set_solver|intros []; cbv beta]
    | apply holds_call; set_solver ].

Ltac mend := eapply holds_post; [mstep|set_solver..].

Lemma the_channel_ok D F : triple (holds D F) the_channel (λ _, holds D F) adapter_inv.
Proof. unfold the_channel. mstep. destruct a; mstep. Qed.

Lemma createChannel_ok D F : triple (holds D F) createChannel (λ _, holds D F) adapter_inv.
Proof.
  unfold createChannel. mstep. destruct a; [|mstep]. mstep. mstep.
  eapply triple_bind; [apply holds_update; by intros w [[] _]; split|intros []]. 
  mend.
Qed.

Lemma ensureChannel_ok D F : triple (holds D F) ensureChannel (λ _, holds D F) adapter_inv.
Proof.
  unfold ensureChannel. mstep. mstep. eapply triple_bind with (Q' := λ _, holds D F).
  - destruct a; [mstep|]. simpl. mstep.
    eapply holds_post; [apply holds_update; by intros w [[] _]; split|set_solver..].
  - intros []. mstep. destruct a1; [mstep|].
    eapply triple_bind; [apply createChannel_ok|intros ch].
    eapply triple_bind; [apply holds_update; by intros w [[] _]; split|intros []].
    mstep. mend.
Qed.

Lemma own_channel_ok n D F : triple (holds D F) (own_channel n) (λ _, holds D F) adapter_inv.
Proof.
  unfold own_channel. eapply triple_bind; [apply createChannel_ok|intros ch].
  mstep. mend.
Qed.

(** What holds of a fresh entry of one of the topology sets. *)
Lemma ensureBusExchanges_ok t D F :
  triple (holds D F) (ensureBusExchanges t)
    (λ _, holds (Exchange (topicExchange t) :: Exchange (fanoutExchange t) :: D) F) adapter_inv.
Proof.
  unfold ensureBusExchanges. eapply triple_bind with (Q' := λ known w, holds D F w ∧
    (known = true → t ∈ rb_busTopology (re_self w))).
  - apply triple_asks. intros w Hw. split; [done|]. apply bool_decide_eq_true.
  - intros [].
    + intros w [(Hi & Hd & Hf) Hk]. split; [done|]. split; [|done].
      destruct (ri_bus w Hi t (Hk eq_refl)). set_solver.
    + intros w [Hw _]. revert w Hw. change (triple (holds D F) (ch ← the_channel;
        _ ← call (AssertExchange ch (topicExchange t) "topic" ∅);
        _ ← call (AssertExchange ch (fanoutExchange t) "fanout" ∅);
        update (add_busTopology t))
        (λ _, holds (Exchange (topicExchange t) :: Exchange (fanoutExchange t) :: D) F) adapter_inv).
      eapply triple_bind; [apply the_channel_ok|intros ch].
      mstep. mstep. eapply holds_post; [apply holds_update|set_solver..].
      intros w ([] & Hd & _). constructor; simpl; try done.
      intros t'. rewrite elem_of_union, elem_of_singleton. intros [->|Ht']; [|auto].
      split; apply Hd; set_solver.
Qed.

Lemma ensureHashExchange_ok t D F :
  triple (holds D F) (ensureHashExchange t) (λ _, holds (Exchange (hashExchange t) :: D) F) adapter_inv.
Proof.
  unfold ensureHashExchange. eapply triple_bind with (Q' := λ known w, holds D F w ∧
    (known = true → t ∈ rb_hashTopology (re_self w))).
  - apply triple_asks. intros w Hw. split; [done|]. apply bool_decide_eq_true.
  - intros []; intros w [Hw Hk].
    + destruct Hw as (Hi & Hd & Hf). split; [done|]. split; [|done].
      pose proof (ri_hash w Hi t (Hk eq_refl)). set_solver.
    + clear Hk. revert w Hw. change (triple (holds D F) (ch ← the_channel;
        _ ← call (AssertExchange ch (hashExchange t) "x-consistent-hash" ∅);
        update (add_hashTopology t)) (λ _, holds (Exchange (hashExchange t) :: D) F) adapter_inv).
      eapply triple_bind; [apply the_channel_ok|intros ch].
      mstep. eapply holds_post; [apply holds_update|set_solver..].
      intros w ([] & Hd & _). constructor; simpl; try done.
      intros t'. rewrite elem_of_union, elem_of_singleton. intros [->|Ht']; [|auto].
      apply Hd; set_solver.
Qed.

(** The configured exchange is declared throughout. *)
Lemma holds_exchange {A} D F (k : RabbitConfig → M RabbitW A) Q :
  (∀ cfg, triple (holds (Exchange (rc_exchange cfg) :: D) F) (k cfg) Q adapter_inv) →
  triple (holds D F) (cfg ← asks rb_cfg; k cfg) Q adapter_inv.
Proof.
  intros Hk. eapply triple_bind with (Q' := λ cfg, holds (Exchange (rc_exchange cfg) :: D) F); [|done].
  apply triple_asks. intros w (Hi & Hd & Hf). split; [done|]. split; [|done].
  pose proof (ri_exchange w Hi). set_solver.
Qed.

Lemma ensureTopology_ok d D F :
  triple (holds D F) (ensureTopology d) (λ q, holds (Queue q :: D) F) adapter_inv.
Proof.
  unfold ensureTopology. eapply triple_bind with (Q' := λ known w, holds D F w ∧
    (known = true → d ∈ rb_topology (re_self w))).
  { apply triple_asks. intros w Hw. split; [done|]. apply bool_decide_eq_true. }
  intros []; intros w [Hw Hk].
  - destruct Hw as (Hi & Hd & Hf). split; [done|]. split; [|done].
    pose proof (ri_topology w Hi d (Hk eq_refl)). set_solver.
  - clear Hk. revert w Hw.
    match goal with |- ∀ w, ?P w → match ?m w with _ => _ end => change (triple P m
      (λ q, holds (Queue q :: D) F) adapter_inv) end.
    apply holds_exchange. intros cfg. cbv [when negb].
    eapply triple_bind with (Q' := λ _, holds (Queue (queueName d) :: D) F);
      [|intros []; by intros w Hw].
    eapply triple_bind; [apply the_channel_ok|intros ch].
    mstep. mstep. eapply holds_post; [apply holds_update|set_solver..].
    intros w ([] & Hd & _). constructor; simpl; try done.
    intros t'. rewrite elem_of_union, elem_of_singleton. intros [->|Ht']; [|auto].
    apply Hd; set_solver.
Qed.

(** Forget what was gained. *)
Lemma holds_keeps {A} (m : M RabbitW A) :
  triple (holds [] []) m (λ _, holds [] []) adapter_inv → keeps adapter_inv m.
Proof.
  intros Hm w Hw. specialize (Hm w). destruct (m w) as [[e|a] w'].
  - apply Hm. split; [done|]. set_solver.
  - destruct Hm as [? _]; [|done]. split; [done|]. set_solver.
Qed.

Lemma sendNow_ok d p : keeps adapter_inv (sendNow d p).
Proof.
  eapply holds_keeps. unfold sendNow. eapply triple_bind; [apply ensureTopology_ok|intros q].
  eapply triple_bind; [apply the_channel_ok|intros ch]. apply holds_exchange. intros cfg. mend.
Qed.

Lemma holds_now D F : triple (holds D F) now (λ _, holds D F) adapter_inv.
Proof. by intros w Hw. Qed.

Lemma holds_draw D F : triple (holds D F) draw (λ _, holds D F) adapter_inv.
Proof. intros w ([] & Hd & Hf). by split. Qed.

Lemma schedule_ok d p at_ : keeps adapter_inv (schedule d p at_).
Proof.
  eapply holds_keeps. unfold schedule. eapply triple_bind; [apply ensureTopology_ok|intros q].
  eapply triple_bind; [apply holds_now|intros t]. eapply triple_bind; [apply holds_draw|intros rand].
  eapply triple_bind; [apply the_channel_ok|intros ch]. apply holds_exchange. intros cfg. mstep. mend.
Qed.

(** A consumer with a retry path needs its dead-letter exchange. *)
Lemma startConsume_ok q args c D F :
  Queue q ∈ D → (∀ r, cs_callback c = Bus (Some r) → Exchange (rt_dlaExchange r) ∈ D) →
  triple (holds D F) (startConsume q args c) (λ _, holds D (Consume (cs_channel c) q args :: F)) adapter_inv.
Proof.
  intros Hq Hr. unfold startConsume. mstep. mstep.
  eapply triple_bind; [apply holds_update|intros []; mend].
  intros w ([] & Hd & _). constructor; simpl; try done.
  intros c' r. rewrite elem_of_app, list_elem_of_singleton. intros [Hc| ->] E; [eauto|].
  apply Hd. set_solver.
Qed.

Lemma consume_ok d h : keeps adapter_inv (consume d h).
Proof.
  eapply holds_keeps. unfold consume. eapply triple_bind; [apply ensureTopology_ok|intros q].
  eapply triple_bind; [apply the_channel_ok|intros ch]. eapply holds_post; [apply startConsume_ok; [set_solver|done]|set_solver..].
Qed.

Lemma publish_ok t p k o : keeps adapter_inv (publish t p k o).
Proof.
  eapply holds_keeps. unfold publish. eapply triple_bind; [apply ensureBusExchanges_ok|intros []].
  eapply triple_bind; [apply the_channel_ok|intros ch]. mstep. mstep.
  destruct (nonempty (po_groupId o)) as [g|]; [|eapply holds_post; [mstep|set_solver..]].
  eapply triple_bind; [apply ensureHashExchange_ok|intros []].
  eapply triple_bind; [apply the_channel_ok|intros ch2].
  mend.
Qed.

(** A pure fact carried by the precondition. *)
Lemma holds_pure {A} (φ : Prop) D F (m : M RabbitW A) Q :
  (φ → triple (holds D F) m Q adapter_inv) → triple (λ w, holds D F w ∧ φ) m Q adapter_inv.
Proof. intros Hm w [Hw Hφ]. by apply Hm. Qed.

Lemma holds_ret_pure {A} (a : A) (φ : A → Prop) D F R :
  φ a → triple (holds D F) (mret a) (λ a w, holds D F w ∧ φ a) R.
Proof. by intros Ha w Hw. Qed.

(** The pure part of [dead_letter_args] and what it declares. *)
Definition main_args (t : Destination) (queue : string) (o : SubscribeOptions) : Args :=
  match retry_delay o with
  | Some _ => {["x-dead-letter-exchange" := VStr "";
                "x-dead-letter-routing-key" := VStr (retryQueueName queue)]}
  | None =>
      if is_true (so_deadLetter o) then
        {["x-queue-type" := VStr "quorum"; "x-delivery-limit" := VNum (max_deliveries o);
          "x-dead-letter-exchange" := VStr (fanoutExchange (deadLetterAddress t))]}
      else ∅
  end.

Definition retry_resources (t : Destination) (o : SubscribeOptions) : list Resource :=
  if retry_delay o is Some _ then [Exchange (fanoutExchange (deadLetterAddress t))] else [].

Definition retry_calls (ch : nat) (queue : string) (o : SubscribeOptions) : list Cmd :=
  match retry_delay o with
  | Some d => [AssertQueue ch (retryQueueName queue) (durable (retry_queue_args d queue))]
  | None => []
  end.

Lemma dead_letter_args_ok ch t queue o D F :
  triple (holds D F) (dead_letter_args ch t queue o)
    (λ args w, holds (retry_resources t o ++ D) (retry_calls ch queue o ++ F) w ∧
       args = main_args t queue o) adapter_inv.
Proof.
  unfold dead_letter_args, retry_resources, retry_calls, main_args.
  destruct (retry_delay o) as [d|].
  - eapply triple_bind; [apply ensureBusExchanges_ok|intros []]. mstep.
    intros w Hw. split; [|done]. eapply holds_weaken; [done|set_solver..].
  - destruct (is_true (so_deadLetter o)); [|by intros w Hw].
    eapply triple_bind; [apply ensureBusExchanges_ok|intros []].
    intros w Hw. split; [|done]. eapply holds_weaken; [done|set_solver..].
Qed.

Definition final_args (t : Destination) (queue : string) (o : SubscribeOptions) : Args :=
  let args := queue_args o (main_args t queue o) in
  match so_ttlMs o with
  | Some _ => <["x-dead-letter-exchange" := VStr (fanoutExchange (expiryAddress t))]> args
  | None => args
  end.

Lemma expiry_args_ok t queue o D F :
  triple (holds D F) (expiry_args t o (queue_args o (main_args t queue o)))
    (λ args w, holds D F w ∧ args = final_args t queue o) adapter_inv.
Proof.
  unfold expiry_args, final_args. destruct (so_ttlMs o); [|by intros w Hw].
  eapply triple_bind; [apply ensureBusExchanges_ok|intros []].
  intros w Hw. split; [|done]. eapply holds_weaken; [done|set_solver..].
Qed.

Lemma bind_main_ok ch t queue o D F :
  Queue queue ∈ D → Exchange (topicExchange t) ∈ D → Exchange (fanoutExchange t) ∈ D →
  triple (holds D F) (bind_main ch t queue o) (λ _, holds D F) adapter_inv.
Proof.
  intros Hq Ht Hf. unfold bind_main. destruct (is_true (so_partitionByGroup o)).
  - eapply triple_bind; [apply ensureHashExchange_ok|intros []]. mend.
  - destruct (default topic (so_kind o)); mend.
Qed.

(** The declaration of a durable main queue. *)
Definition main_call (ch : nat) (t : Destination) (queue : string) (o : SubscribeOptions) : list Cmd :=
  if is_true (so_transient o) then [] else [AssertQueue ch queue (durable (final_args t queue o))].

Lemma subscribe_queue_ok ch t queue h o D F :
  Exchange (topicExchange t) ∈ D → Exchange (fanoutExchange t) ∈ D →
  triple (holds D F) (subscribe_queue ch t queue h o)
    (λ ch' w, holds [] (main_call ch t queue o ++ retry_calls ch queue o) w ∧ ch' = ch) adapter_inv.
Proof.
  intros Ht Hf. unfold subscribe_queue, main_call.
  eapply triple_bind; [apply dead_letter_args_ok|intros args]. apply holds_pure. intros ->.
  destruct (is_true (so_transient o)).
  - mstep. mstep.
    eapply triple_bind; [apply startConsume_ok; [set_solver|done]|intros i].
    intros w Hw. split; [|done]. eapply holds_weaken; [done|set_solver..].
  - eapply triple_bind; [apply expiry_args_ok|intros args]. apply holds_pure. intros ->.
    mstep. eapply triple_bind; [apply bind_main_ok; set_solver|intros []].
    eapply triple_bind; [apply startConsume_ok; [set_solver|]|intros i].
    + simpl. unfold retry_of, retry_resources. intros r. destruct (retry_delay o); [|done].
      intros [= <-]. simpl. set_solver.
    + intros w Hw. split; [|done]. eapply holds_weaken; [done|set_solver..].
Qed.

Lemma choose_queue_ok t o D F :
  triple (holds D F) (choose_queue t o)
    (λ q w, holds D F w ∧ ∀ s, so_subscriberId o = Some s → is_true (so_partitionByGroup o) = false →
       q = busQueueName t s None) adapter_inv.
Proof.
  unfold choose_queue. eapply triple_bind with (Q' := λ s w, holds D F w ∧
    ∀ s', so_subscriberId o = Some s' → s = s').
  - destruct (so_subscriberId o); [by intros w Hw; split; [|congruence]|].
    eapply triple_bind; [apply holds_draw|intros r]. by intros w Hw.
  - intros s. apply holds_pure. intros Hs. destruct (is_true (so_partitionByGroup o)).
    + eapply triple_bind; [apply holds_draw|intros r]. by intros w Hw.
    + intros w Hw. split; [done|]. intros s' E _. by rewrite (Hs s' E).
Qed.

Lemma subscribeStreamReplay_ok t h D F :
  Exchange (topicExchange t) ∈ D →
  triple (holds D F) (subscribeStreamReplay t h) (λ _, holds D F) adapter_inv.
Proof.
  intros Ht. unfold subscribeStreamReplay. eapply triple_bind; [apply own_channel_ok|intros ch].
  mstep. mstep. eapply triple_bind; [apply startConsume_ok; [set_solver|done]|intros i]. mend.
Qed.

Lemma subscribe_ok t h o : keeps adapter_inv (subscribe t h o).
Proof.
  apply holds_keeps. unfold subscribe. eapply triple_bind; [apply ensureBusExchanges_ok|intros []].
  destruct (is_true (so_streamReplay o)).
  - eapply holds_post; [apply subscribeStreamReplay_ok; set_solver|set_solver..].
  - eapply triple_bind; [apply choose_queue_ok|intros q]. apply holds_pure. intros _.
    eapply triple_bind; [apply own_channel_ok|intros ch].
    eapply triple_post; [apply subscribe_queue_ok; set_solver|].
    intros ch' w [Hw _]. eapply holds_weaken; [done|set_solver..].
Qed.

(** A delivery leaves the state of one settlement and never throws. *)
Lemma settled_run_eq (act : Settlement → M RabbitW unit) run w :
  settled_run (deliver_isolated act run) w =
  (inr tt, match first_settlement run with Some s => (act s w).2 | None => w end).
Proof. unfold settled_run. rewrite deliver_isolated_eq. by destruct (first_settlement run). Qed.

Lemma triple_settled P (act : Settlement → M RabbitW unit) run :
  (∀ s, triple P (act s) (λ _, P) P) → triple P (settled_run (deliver_isolated act run)) (λ _, P) P.
Proof.
  intros Ha w Hw. rewrite settled_run_eq. destruct (first_settlement run) as [s|]; [|done].
  specialize (Ha s w Hw). by destruct (act s w) as [[e|[]] w'].
Qed.

Lemma stream_settle_ok ch msg s : keeps adapter_inv (stream_settle ch msg s).
Proof. apply holds_keeps. unfold stream_settle. mend. Qed.

(** The dead-letter exchange of a retry path. *)
Definition dla_of (retry : option Retry) : list Resource :=
  match retry with Some r => [Exchange (rt_dlaExchange r)] | None => [] end.

Lemma bus_settle_ok ch msg retry s :
  triple (holds (dla_of retry) []) (bus_settle ch msg retry s) (λ _, adapter_inv) adapter_inv.
Proof.
  eapply triple_post with (Q := λ _, holds [] []); [|by intros ? ? []]. unfold bus_settle.
  destruct s as [|requeue]; [mend|]. destruct retry as [r|]; [|mend].
  destruct (negb requeue || _); [|mend]. simpl. mstep. mend.
Qed.

Lemma on_message_ok c msg run :
  triple (λ w, adapter_inv w ∧ c ∈ rb_consumers (re_self w)) (on_message c msg run)
    (λ _, adapter_inv) adapter_inv.
Proof.
  destruct msg as [msg|]; [|by intros w [Hw _]]. unfold on_message.
  intros w [Hw Hc]. destruct (cs_callback c) as [| |retry] eqn:E.
  - cut (keeps adapter_inv (ch ← the_channel; call (AckMsg ch (cm_tag msg)))).
    + intros Hk. destruct run; [by apply Hk|done|by apply Hk].
    + apply holds_keeps. eapply triple_bind; [apply the_channel_ok|intros ch]. mend.
  - rewrite settled_run_eq. destruct (first_settlement run) as [s|]; [|done].
    pose proof (stream_settle_ok (cs_channel c) msg s w Hw) as Hs.
    by destruct (stream_settle _ _ _ w) as [[e|[]] w'].
  - rewrite settled_run_eq. destruct (first_settlement run) as [s|]; [|done].
    assert (Hh : holds (dla_of retry) [] w).
    { split; [done|]. split; [|set_solver]. destruct retry as [r|]; simpl; [|set_solver].
      intros r'. rewrite list_elem_of_singleton. intros ->. by eapply ri_retry. }
    pose proof (bus_settle_ok (cs_channel c) msg retry s w Hh) as Hs.
    by destruct (bus_settle _ _ _ _ w) as [[e|[]] w'].
Qed.

Lemma connect_ok : keeps adapter_inv connect.
Proof.
  apply holds_keeps. unfold connect. eapply triple_bind; [apply ensureChannel_ok|intros ch].
  apply holds_exchange. intros cfg. mend.
Qed.

Lemma asyncDispose_ok : keeps adapter_inv asyncDispose.
Proof.
  apply holds_keeps. unfold asyncDispose. mstep.
  eapply triple_bind with (Q' := λ _, holds [] []); [destruct a; mend|intros []].
  mstep. destruct a0; mend.
Qed.

Lemma done_with_ok {A} (m : M RabbitW A) : keeps adapter_inv m → keeps adapter_inv (done_with m).
Proof. intros Hm. by eapply triple_bind; [exact Hm|intros a w Hw]. Qed.

Lemma rabbit_exec_ok op : keeps adapter_inv (rabbit_exec op).
Proof.
  destruct op; simpl; try (by intros w Hw).
  - apply connect_ok.
  - apply holds_keeps. unfold connectBus. eapply triple_bind; [apply ensureChannel_ok|intros ch]. mend.
  - apply asyncDispose_ok.
  - apply sendNow_ok.
  - apply done_with_ok, schedule_ok.
  - apply done_with_ok, consume_ok.
  - apply holds_keeps. unfold stop_consume. eapply triple_bind; [apply the_channel_ok|intros ch]. mend.
  - apply publish_ok.
  - apply done_with_ok, subscribe_ok.
  - apply holds_keeps. unfold close_channel. eapply triple_try with (R' := holds [] []); [|intros e; mend].
    apply triple_call; [|done]. intros w Hw Ha. 
    pose proof (holds_call (CloseChannel ch) [] [] ltac:(set_solver) w Hw) as Hc. unfold call in Hc.
    rewrite Ha in Hc. eapply holds_weaken; [done|set_solver..].
  - eapply triple_bind with (Q' := λ c w, adapter_inv w ∧ c = rb_consumers (re_self w) !! consumer).
    + apply triple_asks. by intros w Hw.
    + intros [c|]; [|by intros w [? _]]. intros w [Hw Hc]. apply on_message_ok. split; [done|].
      by eapply list_elem_of_lookup_2.
Qed.

Lemma rabbit_run_ok ops w : adapter_inv w → adapter_inv (rabbit_run ops w).
Proof.
  revert w. induction ops as [|op ops IH]; intros w Hw; [done|]. simpl. apply IH.
  pose proof (rabbit_exec_ok op w Hw) as Hop. by destruct (rabbit_exec op w) as [[e|[]] w'].
Qed.
End invariant_ops.

(** ** The states of a connected adapter *)

Definition fresh (cfg : RabbitConfig) (t : Z) (draws : nat) : RabbitW :=
  {| re_self := new_RabbitMqScheduler cfg; re_log := []; re_now := t; re_draws := draws |}.

Definition rabbit_reachable `{Client Cmd} (w : RabbitW) : Prop :=
  ∃ cfg t draws w0 ops, connect (fresh cfg t draws) = (inr tt, w0) ∧ w = rabbit_run ops w0.

Lemma declared_first_unused log : Forall (λ c, uses c = []) log → declared_first log.
Proof.
  induction log as [|c log IH] using rev_ind; [constructor|].
  rewrite Forall_app, Forall_singleton. intros [Hl Hc]. constructor; [auto|]. rewrite Hc. set_solver.
Qed.

Lemma fresh_connect_inv `{Client Cmd} cfg t draws w0 :
  connect (fresh cfg t draws) = (inr tt, w0) → adapter_inv w0.
Proof.
  cbv [connect ensureChannel createChannel mbind M_bind mret M_ret asks when update call fresh
    new_RabbitMqScheduler push put_self set_model set_channel next_channel]. cbn -[answer].
  destruct (answer _ _); [done|]. cbn -[answer]. destruct (answer _ _); [done|]. cbn -[answer].
  destruct (answer _ _); [done|]. cbn -[answer]. destruct (answer _ _); [done|]. intros E. injection E as <-.
  constructor; simpl; try set_solver.
  - apply declared_first_unused. by repeat constructor.
  - eexists (AssertExchange 0 (rc_exchange cfg) _ _). split; [|apply list_elem_of_here].
    do 3 apply list_elem_of_further. apply list_elem_of_here.
Qed.

Lemma reachable_inv `{Client Cmd} w : rabbit_reachable w → adapter_inv w.
Proof. intros (cfg & t & draws & w0 & ops & Hc & ->). by eapply rabbit_run_ok, fresh_connect_inv. Qed.

(** ** Retries *)

(** What a delivery amounts to for its message: the calls the broker took. *)
Inductive Fate := Unsettled | Settled | Parked | Requeued | DeadLettered (exchange : string) | Other.
#[export] Instance Fate_eq_dec : EqDecision Fate.
Proof. solve_decision. Defined.

Definition fate (msg : ConsumeMessage) (calls : list Cmd) : Fate :=
  match calls with
  | [] => Unsettled
  | [AckMsg _ tag] => if decide (tag = cm_tag msg) then Settled else Other
  | [NackMsg _ tag requeue] =>
      if decide (tag = cm_tag msg) then if requeue then Requeued else Parked else Other
  | [Publish _ x "" content _; AckMsg _ tag] =>
      if decide (content = cm_content msg ∧ tag = cm_tag msg) then DeadLettered x else Other
  | _ => Other
  end.

Section retries.
Context `{Client Cmd}.

(** The calls a delivery makes. *)
Definition calls_of (c : Consumer) (msg : ConsumeMessage) (run : HandlerRun) (w : RabbitW) : list Cmd :=
  drop (length (re_log w)) (re_log (on_message c (Some msg) run w).2).

(** The deliveries of a message to consumer [c], each as the broker hands it over and with
    what its handler does, one after the other. *)
Fixpoint fates (c : Consumer) (ds : list (ConsumeMessage * HandlerRun)) (w : RabbitW) : list Fate :=
  match ds with
  | [] => []
  | (msg, run) :: ds' => fate msg (calls_of c msg run w) :: fates c ds' (on_message c (Some msg) run w).2
  end.

Definition parkings (fs : list Fate) : nat := length (filter (.= Parked) fs).

(** The x-death count of the [i]-th delivery of [ds] is related to the number of times the
    message was parked before, [k] times before the first of them. *)
Definition counted (R : Z → Z → Prop) (r : Retry) (k : Z) (ds : list (ConsumeMessage * HandlerRun))
    (fs : list Fate) : Prop :=
  ∀ i d, ds !! i = Some d →
    R (k + Z.of_nat (parkings (take i fs)))%Z (xDeathCount (cm_headers d.1) (rt_mainQueue r)).

(** The handler gives the delivery back: it throws or nacks with requeue first. *)
Definition gives_back (run : HandlerRun) : Prop := first_settlement run = Some (Nack true).

(** What the adapter means to do with a delivery that was parked [count] times. *)
Definition fate_of (r : Retry) (count : Z) (run : HandlerRun) : Fate :=
  match first_settlement run with
  | None => Unsettled
  | Some Ack => Settled
  | Some (Nack requeue) =>
      if negb requeue || bool_decide (rt_maxDeliveries r ≤ count + 1)%Z
      then DeadLettered (rt_dlaExchange r) else Parked
  end.

Lemma call_ok c (w : RabbitW) : answer (re_log w) c = None → call c w = (inr tt, push c w).
Proof. unfold call. by intros ->. Qed.

Lemma retry_fate c r msg run w :
  (∀ log cmd, answer log cmd = None) → cs_callback c = Bus (Some r) →
  fate msg (calls_of c msg run w) = fate_of r (xDeathCount (cm_headers msg) (rt_mainQueue r)) run.
Proof.
  intros Hall Hc. unfold calls_of, on_message, fate_of. rewrite Hc, settled_run_eq. simpl.
  destruct (first_settlement run) as [[|requeue]|]; simpl; [| |by rewrite drop_all].
  - rewrite call_ok by done. simpl. rewrite drop_app_length. simpl. by rewrite decide_True.
  - destruct (negb requeue || _); simpl.
    + unfold mbind, M_bind. rewrite call_ok by done. rewrite call_ok by done. simpl.
      rewrite <- app_assoc, drop_app_length. simpl. by rewrite decide_True.
    + rewrite call_ok by done. simpl. rewrite drop_app_length. simpl. by rewrite decide_True.
Qed.

(** The calls of one more call. *)
Lemma call_calls cmd (w : RabbitW) :
  drop (length (re_log w)) (re_log (call cmd w).2) = [] ∨ drop (length (re_log w)) (re_log (call cmd w).2) = [cmd].
Proof.
  unfold call. destruct (answer _ cmd); simpl; [left; by apply drop_all|right; by rewrite drop_app_length].
Qed.

(** Whatever the broker rejects, a delivery is parked only while it has attempts left. *)
Lemma parked_below c r msg run w :
  cs_callback c = Bus (Some r) → fate msg (calls_of c msg run w) = Parked →
  (xDeathCount (cm_headers msg) (rt_mainQueue r) + 1 < rt_maxDeliveries r)%Z.
Proof.
  intros Hc. unfold calls_of, on_message. rewrite Hc, settled_run_eq. simpl.
  destruct (first_settlement run) as [[|requeue]|]; simpl; [| |by rewrite drop_all].
  - destruct (call_calls (AckMsg (cs_channel c) (cm_tag msg)) w) as [-> | ->]; simpl; [done|by case_decide].
  - destruct (negb requeue) eqn:Hr; simpl; [|case_bool_decide as Hm; [|intros; lia]];
      (unfold mbind, M_bind; set (pub := Publish _ _ _ _ _); unfold call at 1; destruct (answer (re_log w) pub);
       [simpl; by rewrite drop_all|]; simpl; set (a := AckMsg _ _); unfold call; destruct (answer _ a); simpl;
       rewrite <- ?app_assoc, drop_app_length; simpl; by repeat case_decide).
Qed.
End retries.

(** An amqplib that completes every call. *)
Definition willing : Client Cmd := {| answer := λ _ _, None; random6 := λ n, pretty n |}.

(** ** Properties *)

Section retry_lemmas.
Context `{Client Cmd}.

Lemma parkings_cons f fs : parkings (f :: fs) = (if decide (f = Parked) then 1 else 0) + parkings fs.
Proof. unfold parkings. rewrite filter_cons. by case_decide. Qed.

Lemma counted_cons R r k d ds f fs :
  counted R r k (d :: ds) (f :: fs) →
  R k (xDeathCount (cm_headers d.1) (rt_mainQueue r)) ∧
  counted R r (k + if decide (f = Parked) then 1 else 0) ds fs.
Proof.
  intros Hc. split; [by specialize (Hc 0 d eq_refl); rewrite Z.add_0_r in Hc|]. intros i d' Hd.
  specialize (Hc (S i) d' Hd). simpl take in Hc. rewrite parkings_cons in Hc.
  match goal with |- R ?x _ => match type of Hc with R ?y _ => replace x with y; [exact Hc|case_decide; lia] end end.
Qed.

Lemma parkings_bound c r k ds w :
  cs_callback c = Bus (Some r) → counted Z.le r k ds (fates c ds w) →
  (k + Z.of_nat (parkings (fates c ds w)) ≤ Z.max k (rt_maxDeliveries r - 1))%Z.
Proof.
  intros Hc. revert k w. induction ds as [|[msg run] ds IH]; intros k w Hcount; [change (parkings _) with 0; lia|].
  cbn [fates] in *. apply counted_cons in Hcount as [Hk Hrest]. rewrite parkings_cons.
  specialize (IH _ _ Hrest). destruct (decide (_ = Parked)) as [Hf|]; [|lia]. apply (parked_below c r) in Hf; [|done]. simpl in Hk. lia.
Qed.

Lemma fates_exhausted c r k ds w :
  (∀ log cmd, answer log cmd = None) → cs_callback c = Bus (Some r) →
  counted eq r (Z.of_nat k) ds (fates c ds w) → Forall (λ d, gives_back d.2) ds →
  let n := Z.to_nat (Z.max 1 (rt_maxDeliveries r)) in
  k < n → n - k ≤ length ds →
  take (n - k) (fates c ds w) = replicate (n - 1 - k) Parked ++ [DeadLettered (rt_dlaExchange r)].
Proof.
  intros Hall Hc. revert k w. induction ds as [|[msg run] ds IH]; intros k w Hcount Hg n Hk Hlen;
    [simpl in Hlen; lia|].
  apply Forall_cons in Hg as [Hrun Hg]. cbn [fates] in *. apply counted_cons in Hcount as [Ek Hrest].
  simpl in Ek, Hrun. rewrite (retry_fate c r msg run w Hall Hc) in *. unfold fate_of in *.
  unfold gives_back in Hrun. rewrite Hrun in *. simpl in Hrest |- *. rewrite <- Ek in *.
  replace (n - k) with (S (n - S k)) by lia. cbn [take]. case_bool_decide as Hm.
  - replace (n - S k) with 0 by lia. by replace (n - 1 - k) with 0 by lia.
  - replace (n - 1 - k) with (S (n - 1 - S k)) by lia. simpl. f_equal.
    apply IH; [|done|lia|simpl in Hlen; lia].
    rewrite decide_True in Hrest by done. by replace (Z.of_nat (S k)) with (Z.of_nat k + 1)%Z by lia.
Qed.
End retry_lemmas.

(** C36: the retry budget (S11).  Let the broker hand a message of a retry-enabled
    subscription over any number of times, in any circumstances.  If its x-death header
    counts at least the parkings so far, the adapter parks it (rejects it towards the
    retry queue) at most [maxDeliveries - 1] times, whatever the handler does and whichever
    calls are rejected.  If it counts them exactly, every call completes and the handler
    gives every delivery back, the first [maxDeliveries - 1] deliveries are parked and the
    next is published to the dead-letter exchange and acked. *)
Theorem retry_budget `{Client Cmd} (c : Consumer) (r : Retry) (ds : list (ConsumeMessage * HandlerRun)) (w : RabbitW) :
  cs_callback c = Bus (Some r) → counted Z.le r 0 ds (fates c ds w) →
  let n := Z.to_nat (Z.max 1 (rt_maxDeliveries r)) in
  parkings (fates c ds w) ≤ n - 1 ∧
  ((∀ log cmd, answer log cmd = None) → counted eq r 0 ds (fates c ds w) →
   Forall (λ d, gives_back d.2) ds → n ≤ length ds →
   take n (fates c ds w) = replicate (n - 1) Parked ++ [DeadLettered (rt_dlaExchange r)]).
Proof.
  intros Hc Hle n. split.
  - pose proof (parkings_bound c r 0 ds w Hc Hle). lia.
  - intros Hall Heq Hg Hlen. pose proof (fates_exhausted c r 0 ds w Hall Hc Heq Hg) as E. cbv zeta in E.
    rewrite !Nat.sub_0_r in E. apply E; lia.
Qed.

Definition demo_consumer (retry : option Retry) : Consumer :=
  {| cs_channel := 1; cs_destination := "t"; cs_handler := 0; cs_callback := Bus retry |}.

Definition demo_retry : Retry :=
  {| rt_mainQueue := "bus.t.s"; rt_maxDeliveries := 3; rt_dlaExchange := "x.f.t.dlq" |}.

Definition demo_msg : ConsumeMessage := {|
  cm_tag := 1; cm_redelivered := false; cm_content := "boom"; cm_messageId := None;
  cm_headers := None; cm_replyTo := None; cm_correlationId := None; cm_priority := None |}.

(** The message after it was parked [n] times. *)
Definition parked_times (n : nat) : ConsumeMessage := {|
  cm_tag := N.of_nat (S n); cm_redelivered := false; cm_content := "boom"; cm_messageId := None;
  cm_headers := Some {["x-death" := VArr [VObj [("queue", VStr "bus.t.s"); ("count", VNum (Z.of_nat n))]]]};
  cm_replyTo := None; cm_correlationId := None; cm_priority := None |}.

Definition demo_deliveries : list (ConsumeMessage * HandlerRun) :=
  [(parked_times 0, Throws (OtherError "x")); (parked_times 1, Settles (Nack true) (λ _, Returns));
   (parked_times 2, Throws (OtherError "y"))].

Lemma retry_budget_witness :
  let _ := willing in
  let w := fresh {| rc_url := ""; rc_exchange := "x" |} 0 0 in
  let fs := fates (demo_consumer (Some demo_retry)) demo_deliveries w in
  parkings fs ≤ 2 ∧
  ((∀ log cmd, answer log cmd = None) → counted eq demo_retry 0 demo_deliveries fs →
   Forall (λ d, gives_back d.2) demo_deliveries → 3 ≤ length demo_deliveries →
   take 3 fs = [Parked; Parked; DeadLettered "x.f.t.dlq"]).
Proof.
  apply (@retry_budget willing (demo_consumer (Some demo_retry)) demo_retry demo_deliveries); [reflexivity|].
  intros i d Hd. do 3 (destruct i as [|i]; [injection Hd as <-; vm_compute; discriminate|]). discriminate.
Defined.

(** C37: declared before use.  Once [connect] succeeded, every publish, binding and
    consume call of any run names exchanges and queues this adapter declared earlier,
    whichever calls the broker rejects. *)
Theorem declared_before_use `{Client Cmd} (w : RabbitW) (log1 log2 : list Cmd) (c : Cmd) (r : Resource) :
  rabbit_reachable w → re_log w = log1 ++ c :: log2 → r ∈ uses c → declared log1 r.
Proof.
  intros Hw E. apply declared_first_use with log2. rewrite <- E. apply ri_first, reachable_inv, Hw.
Qed.

Definition demo_cfg : RabbitConfig := {| rc_url := "amqp://localhost"; rc_exchange := "mbc.delayed" |}.

Lemma declared_before_use_witness :
  let _ := willing in
  let w0 := (connect (fresh demo_cfg 0 0)).2 in
  let w := rabbit_run [OpPublish "t" "hi" None no_publish_options] w0 in
  declared (take 6 (re_log w)) (Exchange "x.t.t").
Proof.
  apply (@declared_before_use willing
    (@rabbit_run willing [OpPublish "t" "hi" None no_publish_options] (@connect willing (fresh demo_cfg 0 0)).2)
    _ (drop 7 (re_log (@rabbit_run willing [OpPublish "t" "hi" None no_publish_options]
                        (@connect willing (fresh demo_cfg 0 0)).2)))
    (Publish 0 "x.t.t" "t" "hi" (publishProps no_publish_options))).
  - exists demo_cfg, 0%Z, 0, (@connect willing (fresh demo_cfg 0 0)).2,
      [OpPublish "t" "hi" None no_publish_options]. split; reflexivity.
  - reflexivity.
  - apply list_elem_of_here.
Defined.

(** ** Copies of a published message *)

Definition published (log : list Cmd) : list (string * string * string) :=
  omap (λ c, match c with Publish _ x key content _ => Some (x, key, content) | _ => None end) log.

Definition bindings (log : list Cmd) : list (string * string) :=
  omap (λ c, match c with BindQueue _ q x _ => Some (q, x) | _ => None end) log.

(** How many copies [log] publishes to an exchange. *)
Definition copies (x : string) (log : list Cmd) : nat :=
  length (filter (λ p, p.1.1 = x) (published log)).

Section copies.
Context `{Client Cmd}.

(** The publishes and bindings made so far. *)
Definition traffic P B (w : RabbitW) : Prop := published (re_log w) = P ∧ bindings (re_log w) = B.

Lemma traffic_call c P B :
  triple (traffic P B) (call c) (λ _, traffic (P ++ published [c]) (B ++ bindings [c])) (λ _, True).
Proof.
  apply triple_call; [|done]. intros w [HP HB] _. unfold traffic, published, bindings in *. simpl.
  by rewrite !omap_app, HP, HB.
Qed.

Lemma traffic_asks {A} (f : Rabbit → A) P B :
  triple (traffic P B) (asks f) (λ _, traffic P B) (λ _, True).
Proof. by apply triple_asks. Qed.

Lemma traffic_channel P B : triple (traffic P B) the_channel (λ _, traffic P B) (λ _, True).
Proof. eapply triple_bind; [apply traffic_asks|intros [ch|]]; by intros w Hw. Qed.

Ltac silent := eapply triple_bind; [first [apply traffic_asks | apply traffic_channel]|intros ?; cbv beta].
Ltac loud := eapply triple_bind; [apply traffic_call|intros []; cbn [published bindings omap list_omap]; rewrite ?app_nil_r].

Lemma traffic_bus t P B :
  triple (traffic P B) (ensureBusExchanges t) (λ _, traffic P B) (λ _, True).
Proof.
  unfold ensureBusExchanges. silent. destruct a; [by intros w Hw|]. simpl. silent. loud. loud.
  by apply triple_update.
Qed.

Lemma traffic_hash t P B :
  triple (traffic P B) (ensureHashExchange t) (λ _, traffic P B) (λ _, True).
Proof.
  unfold ensureHashExchange. silent. destruct a; [by intros w Hw|]. simpl. silent. loud.
  by apply triple_update.
Qed.

(** What a publish sends. *)
Definition publish_traffic (t : Destination) (payload : string) (routingKey : option string)
    (o : PublishOptions) : list (string * string * string) :=
  [(topicExchange t, default t routingKey, payload); (fanoutExchange t, "", payload)] ++
  match nonempty (po_groupId o) with Some g => [(hashExchange t, g, payload)] | None => [] end.

Lemma traffic_publish t p k o P B :
  triple (traffic P B) (publish t p k o) (λ _, traffic (P ++ publish_traffic t p k o) B) (λ _, True).
Proof.
  unfold publish, publish_traffic. eapply triple_bind; [apply traffic_bus|intros []].
  silent. loud. loud. destruct (nonempty (po_groupId o)) as [g|].
  - eapply triple_bind; [apply traffic_hash|intros []]. silent.
    eapply triple_post; [apply traffic_call|]. intros [] w. cbn. rewrite app_nil_r, <- !app_assoc. done.
  - intros w Hw. rewrite app_nil_r. by rewrite <- app_assoc in Hw.
Qed.

Lemma traffic_bind ch t q o P B :
  triple (traffic P B) (bind_main ch t q o)
    (λ _, traffic P (B ++ [(q, if is_true (so_partitionByGroup o) then hashExchange t
                             else match default topic (so_kind o) with
                                  | fanout => fanoutExchange t | topic => topicExchange t end)]))
    (λ _, True).
Proof.
  unfold bind_main. destruct (is_true (so_partitionByGroup o)).
  - eapply triple_bind; [apply traffic_hash|intros []].
    eapply triple_post; [apply traffic_call|]. intros [] w. cbn. by rewrite app_nil_r.
  - destruct (default topic (so_kind o)); (eapply triple_post; [apply traffic_call|]);
      intros [] w; cbn; by rewrite app_nil_r.
Qed.
End copies.

Lemma exchange_names_differ t :
  topicExchange t ≠ fanoutExchange t ∧ topicExchange t ≠ hashExchange t ∧
  fanoutExchange t ≠ hashExchange t.
Proof. unfold topicExchange, fanoutExchange, hashExchange. by rewrite !string_app_cons. Qed.

(** one copy per subscriber.  A subscription binds its queue to exactly one
    exchange of the topic, and a publish sends exactly one copy to that exchange; the
    exception is a partitioned subscription, whose exchange gets a copy only when the
    message has a group. *)
Theorem one_copy_per_queue `{Client Cmd} (t p : string) (k : option string) (po : PublishOptions)
    (ch : nat) (q : string) (o : SubscribeOptions) (w0 w1 w2 w3 : RabbitW) :
  bind_main ch t q o w0 = (inr tt, w1) → publish t p k po w2 = (inr tt, w3) →
  ∃ x, bindings (re_log w1) = bindings (re_log w0) ++ [(q, x)] ∧
    copies x (re_log w3) = copies x (re_log w2) +
      if is_true (so_partitionByGroup o) then (if nonempty (po_groupId po) is Some _ then 1 else 0) else 1.
Proof.
  intros Hb Hp. pose proof (traffic_bind ch t q o _ _ w0 (conj eq_refl eq_refl)) as H0.
  rewrite Hb in H0. destruct H0 as [_ Hbind]. rewrite Hbind. eexists. split; [reflexivity|].
  pose proof (traffic_publish t p k po _ _ w2 (conj eq_refl eq_refl)) as H1.
  rewrite Hp in H1. destruct H1 as [Hpub _]. unfold copies. rewrite Hpub, filter_app, length_app. f_equal.
  destruct (exchange_names_differ t) as (N1 & N2 & N3). unfold publish_traffic.
  destruct (is_true (so_partitionByGroup o)), (default topic (so_kind o)), (nonempty (po_groupId po));
    cbn [app];
    repeat first [rewrite filter_cons_True by (simpl; congruence)
                 |rewrite filter_cons_False by (simpl; congruence)]; done.
Qed.

Lemma one_copy_per_queue_witness :
  let _ := willing in
  let w0 := (connect (fresh demo_cfg 0 0)).2 in
  let o := {| so_kind := Some fanout; so_routingKey := None; so_subscriberId := None; so_deadLetter := None;
              so_maxDeliveries := None; so_retryDelayMs := None; so_partitionByGroup := None;
              so_singleActiveConsumer := None; so_streamReplay := None; so_transient := None;
              so_priorityQueue := None; so_ttlMs := None |} in
  ∃ x, bindings (re_log (bind_main 0 "t" "q" o w0).2) = bindings (re_log w0) ++ [("q", x)] ∧
    copies x (re_log (publish "t" "hi" None no_publish_options w0).2) = copies x (re_log w0) + 1.
Proof.
  apply (@one_copy_per_queue willing "t" "hi" None no_publish_options 0 "q"
    {| so_kind := Some fanout; so_routingKey := None; so_subscriberId := None; so_deadLetter := None;
       so_maxDeliveries := None; so_retryDelayMs := None; so_partitionByGroup := None;
       so_singleActiveConsumer := None; so_streamReplay := None; so_transient := None;
       so_priorityQueue := None; so_ttlMs := None |}
    (@connect willing (fresh demo_cfg 0 0)).2 _ (@connect willing (fresh demo_cfg 0 0)).2); reflexivity.
Defined.

(** The acknowledgements among a list of calls. *)
Definition settlements (log : list Cmd) : list Cmd :=
  filter (λ c, match c with AckMsg _ _ | NackMsg _ _ _ => true | _ => false end = true) log.

Lemma call_grows `{Client Cmd} c (w : RabbitW) :
  (call c w).2 = w ∨ (call c w = (inr tt, push c w)).
Proof. unfold call. destruct (answer _ c); auto. Qed.

Lemma bus_settle_grows `{Client Cmd} ch msg retry s w :
  ∃ calls, re_log (bus_settle ch msg retry s w).2 = re_log w ++ calls ∧ length (settlements calls) ≤ 1.
Proof.
  assert (Hone : ∀ c (w : RabbitW), ∃ calls, re_log (call c w).2 = re_log w ++ calls ∧
    length (settlements calls) ≤ 1).
  { intros c w1. destruct (call_grows c w1) as [E|E].
    - exists []. rewrite E, app_nil_r. split; [done|simpl; lia].
    - exists [c]. rewrite E. split; [done|]. by destruct c; simpl; lia. }
  unfold bus_settle. destruct s as [|requeue]; [apply Hone|]. destruct retry as [r|]; [|apply Hone].
  destruct (negb requeue || _); [|apply Hone]. unfold mbind, M_bind.
  set (pub := Publish ch (rt_dlaExchange r) "" (cm_content msg) persistent).
  unfold call at 1. destruct (answer _ pub); simpl.
  - exists []. rewrite app_nil_r. split; [done|simpl; lia].
  - destruct (Hone (AckMsg ch (cm_tag msg)) (push pub w)) as (calls & E & Hl).
    exists (pub :: calls). simpl in E. rewrite E, <- app_assoc. split; [done|]. exact Hl.
Qed.

(** the retry loop (S11), and what a TTL does to it.  A durable retry-enabled
    subscription declares a parking queue that holds a message for [retryDelayMs] and
    sends it back to the main queue, and a main queue whose rejected messages go to
    the parking queue's name -- through the default exchange when the subscription has
    no [ttlMs], but through the expiry fanout exchange, which ignores that name, when
    it has one. *)
Theorem retry_loop `{Client Cmd} (t s : string) (handler : AckHandler) (o : SubscribeOptions) (d : Z)
    (w w' : RabbitW) (ch : nat) :
  rabbit_reachable w → subscribe t handler o w = (inr ch, w') →
  is_true (so_streamReplay o) = false → is_true (so_transient o) = false →
  is_true (so_partitionByGroup o) = false → so_subscriberId o = Some s → retry_delay o = Some d →
  let queue := busQueueName t s None in
  AssertQueue ch (retryQueueName queue) (durable (retry_queue_args d queue)) ∈ re_log w' ∧
  ∃ args, AssertQueue ch queue (durable args) ∈ re_log w' ∧
    args !! "x-dead-letter-routing-key" = Some (VStr (retryQueueName queue)) ∧
    args !! "x-dead-letter-exchange" =
      Some (VStr (if so_ttlMs o is Some _ then fanoutExchange (expiryAddress t) else "")).
Proof.
  intros Hw E Hstream Htr Hpart Hsub Hd queue.
  assert (Ht : triple (holds [] []) (subscribe t handler o)
    (λ ch w, holds [] (main_call ch t queue o ++ retry_calls ch queue o) w) adapter_inv).
  { unfold subscribe. eapply triple_bind; [apply ensureBusExchanges_ok|intros []]. rewrite Hstream.
    eapply triple_bind; [apply choose_queue_ok|intros q]. apply holds_pure. intros Hq.
    rewrite (Hq s Hsub Hpart). eapply triple_bind; [apply own_channel_ok|intros ch'].
    eapply triple_post; [apply subscribe_queue_ok; set_solver|]. by intros ch2 w2 [? ->]. }
  specialize (Ht w). rewrite E in Ht. destruct Ht as (_ & _ & HF); [split; [by apply reachable_inv|set_solver]|].
  unfold main_call, retry_calls in HF. rewrite Htr, Hd in HF.
  split; [apply HF; set_solver|]. exists (final_args t queue o). split; [apply HF; set_solver|].
  unfold final_args, queue_args, main_args. rewrite Hd.
  destruct (so_ttlMs o), (is_true (so_singleActiveConsumer o)), (is_true (so_priorityQueue o)); by vm_compute.
Qed.

Definition retrying (ttlMs : option Z) : SubscribeOptions := {|
  so_kind := None; so_routingKey := None; so_subscriberId := Some "worker"; so_deadLetter := Some true;
  so_maxDeliveries := Some 3%Z; so_retryDelayMs := Some 200%Z; so_partitionByGroup := None;
  so_singleActiveConsumer := None; so_streamReplay := None; so_transient := None;
  so_priorityQueue := None; so_ttlMs := ttlMs |}.

Lemma retry_loop_witness :
  let _ := willing in
  let w := (connect (fresh demo_cfg 0 0)).2 in
  let w' := (subscribe "orders" 7 (retrying (Some 1000%Z)) w).2 in
  let queue := "bus.orders.worker" in
  AssertQueue 1 (retryQueueName queue) (durable (retry_queue_args 200 queue)) ∈ re_log w' ∧
  ∃ args, AssertQueue 1 queue (durable args) ∈ re_log w' ∧
    args !! "x-dead-letter-routing-key" = Some (VStr (retryQueueName queue)) ∧
    args !! "x-dead-letter-exchange" = Some (VStr "x.f.orders.expiry").
Proof.
  apply (@retry_loop willing "orders" "worker" 7 (retrying (Some 1000%Z)) 200
    (@connect willing (fresh demo_cfg 0 0)).2
    (@subscribe willing "orders" 7 (retrying (Some 1000%Z)) (@connect willing (fresh demo_cfg 0 0)).2).2 1).
  - exists demo_cfg, 0%Z, 0, (@connect willing (fresh demo_cfg 0 0)).2, []. split; reflexivity.
  - vm_compute. reflexivity.
  - reflexivity.
  - reflexivity.
  - reflexivity.
  - reflexivity.
  - vm_compute. reflexivity.
Defined.

(** Two subscriptions of different topics can share one queue: dots separate the topic
    from the subscriber id and may occur in both. *)
Theorem queue_names_collide :
  busQueueName "orders" "eu.audit" None = busQueueName "orders.eu" "audit" None.
Proof. reflexivity. Qed.
