(* ===== verification/Kafka.v ===== *)
(** The Kafka adapter (adapters/kafka.ts): the kafkajs calls of each operation, the
    offsets a consumer commits and seeks to, and the declared gaps. *)

From stdpp Require Import pretty.
From S2P Require Import Prelude Abstractions Ports Client TopicMatch Numbers.
From Stdlib Require Import Ascii.

(** ** kafkajs *)

Record KafkaConfig := { kc_brokers : list string; kc_clientId : string }.

(** The environment variables of [kafkaConfigFromEnv]: a list separated by commas. *)
Definition kafkaConfigFromEnv (env : string → option string) : KafkaConfig := {|
  kc_brokers := filter (.≠ "") (trim <$> split_on ","%char (default "localhost:9092" (env "KAFKA_BROKERS")));
  kc_clientId := default "messaging-poc" (env "KAFKA_CLIENT_ID") |}.

Record ProducerMessage := {
  km_value : string;
  km_key : option string;
  km_headers : option (gmap string string)
}.

(** The calls; a consumer is numbered by its creation. *)
Inductive Cmd :=
  | ProducerConnect | AdminConnect
  | CreateTopics (topic : string) (numPartitions : Z)
  | Send (topic : string) (m : ProducerMessage)
  | ConsumerConnect (consumer : nat) (groupId : string)
  | ConsumerSubscribe (consumer : nat) (topic : string)
  | ConsumerRun (consumer : nat)
  | CommitOffsets (consumer : nat) (topic : string) (partition offset : Z)
  | Seek (consumer : nat) (topic : string) (partition offset : Z)
  | ConsumerDisconnect (consumer : nat)
  | ProducerDisconnect | AdminDisconnect.

(** A record handed to [eachMessage]; a header value is a buffer or string. *)
Record EachMessagePayload := {
  kp_topic : string;
  kp_partition : Z;
  kp_offset : Z;
  kp_value : option string;
  kp_key : option string;
  kp_headers : option (gmap string JsVal)
}.

(** ** The adapter's state *)

Record KafkaAdapter := {
  kf_cfg : KafkaConfig;
  kf_producer : bool;         (* [this.producer] is set *)
  kf_admin : bool;
  kf_consumers : list nat;
  kf_created : nat;           (* consumers created so far *)
  kf_topics : gset string
}.

Definition new_KafkaScheduler (cfg : KafkaConfig) : KafkaAdapter := {|
  kf_cfg := cfg; kf_producer := false; kf_admin := false; kf_consumers := []; kf_created := 0;
  kf_topics := ∅ |}.

Definition partitions : Z := 3.

Definition kafka_bus_capabilities : BusCapabilities := {|
  supportsTopic := false; supportsFanout := true; supportsManualAck := true;
  supportsDeadLetter := false; reportsDeliveryCount := false; supportsDedup := false;
  supportsStreamReplay := true; supportsMessageGroups := Some true |}.

Definition kafka_capabilities : Capabilities := {|
  protocol := "Kafka"; nativeScheduling := false; supportsCancel := false; supportsList := false;
  cap_bus := Some kafka_bus_capabilities |}.

Definition kafka_name : string := "Apache Kafka".

Definition set_producer (k : KafkaAdapter) : KafkaAdapter := {|
  kf_cfg := kf_cfg k; kf_producer := true; kf_admin := kf_admin k; kf_consumers := kf_consumers k;
  kf_created := kf_created k; kf_topics := kf_topics k |}.

Definition set_admin (k : KafkaAdapter) : KafkaAdapter := {|
  kf_cfg := kf_cfg k; kf_producer := kf_producer k; kf_admin := true; kf_consumers := kf_consumers k;
  kf_created := kf_created k; kf_topics := kf_topics k |}.

Definition add_topic (t : string) (k : KafkaAdapter) : KafkaAdapter := {|
  kf_cfg := kf_cfg k; kf_producer := kf_producer k; kf_admin := kf_admin k;
  kf_consumers := kf_consumers k; kf_created := kf_created k; kf_topics := {[t]} ∪ kf_topics k |}.

Definition set_consumers (l : list nat) (k : KafkaAdapter) : KafkaAdapter := {|
  kf_cfg := kf_cfg k; kf_producer := kf_producer k; kf_admin := kf_admin k; kf_consumers := l;
  kf_created := kf_created k; kf_topics := kf_topics k |}.

Definition count_consumer (k : KafkaAdapter) : KafkaAdapter := {|
  kf_cfg := kf_cfg k; kf_producer := kf_producer k; kf_admin := kf_admin k;
  kf_consumers := kf_consumers k; kf_created := S (kf_created k); kf_topics := kf_topics k |}.

(** ** Offsets

    An offset is a decimal string on the wire; [Number(offset)] is the nearest IEEE
    double.  Rounding to nearest, ties to even: *)
Definition to_double (n : Z) : Z :=
  if decide (n < 2 ^ 53)%Z then n
  else
    let e := (Z.log2 n - 52)%Z in
    let q := Z.shiftr n e in
    let rest := (n - Z.shiftl q e)%Z in
    let half := Z.shiftl 1 (e - 1) in
    let up := (bool_decide (half < rest) || (bool_decide (half = rest) && Z.odd q))%Z in
    Z.shiftl (if up then q + 1 else q) e.

(** [Number(offset) + 1], the value whose decimal form is committed.  Up to 2^53
    [toString] prints it exactly; above, it prints the shortest decimal that reads back
    as this double. *)
Definition next_offset (offset : Z) : Z := to_double (to_double offset + 1).

(** ** Messages *)

Definition normalizeHeaders (headers : option (gmap string JsVal)) : gmap string string :=
  omap (λ v, match v with VNull => None | _ => Some (js_String v) end) (default ∅ headers).

Definition to_received (d : Destination) (p : EachMessagePayload) : ReceivedMessage := {|
  rm_id := pretty (kp_offset p); rm_destination := d; rm_body := default "" (kp_value p);
  rm_headers := normalizeHeaders (kp_headers p) |}.

Definition toIncoming (t : Destination) (p : EachMessagePayload) : IncomingMessage :=
  let headers := normalizeHeaders (kp_headers p) in {|
  im_id := pretty (kp_offset p); im_destination := t; im_body := default "" (kp_value p);
  im_headers := headers; im_deliveryCount := None; im_replyTo := headers !! "replyTo";
  im_correlationId := headers !! "correlationId"; im_groupId := kp_key p; im_priority := None |}.

Definition publish_headers (o : PublishOptions) : gmap string string :=
  let headers := default ∅ (po_headers o) in
  let headers := match nonempty (po_correlationId o) with
                 | Some c => <["correlationId" := c]> headers | None => headers end in
  match nonempty (po_replyTo o) with Some r => <["replyTo" := r]> headers | None => headers end.

(** ** Operations *)

Abbreviation KafkaW := (Remote Cmd KafkaAdapter).

Section adapter.
Context `{Client Cmd}.

Definition undefined_error : Error := OtherError "Cannot read properties of undefined".

(** The producer and the admin client are stored before they are connected. *)
Definition ensureClient : M KafkaW unit :=
  producer ← asks kf_producer;
  _ ← when (negb producer) (_ ← update set_producer; call ProducerConnect);
  admin ← asks kf_admin;
  when (negb admin) (_ ← update set_admin; call AdminConnect).

Definition connect : M KafkaW unit := ensureClient.
Definition connectBus : M KafkaW unit := ensureClient.

(** A call on [this.producer!] or [this.admin!]. *)
Definition on_producer (c : Cmd) : M KafkaW unit :=
  producer ← asks kf_producer;
  if (producer : bool) then call c else throw undefined_error.

Definition on_admin (c : Cmd) : M KafkaW unit :=
  admin ← asks kf_admin;
  if (admin : bool) then call c else throw undefined_error.

Definition ensureTopic (t : Destination) : M KafkaW unit :=
  known ← asks (λ k, bool_decide (t ∈ kf_topics k));
  when (negb known) (
    _ ← on_admin (CreateTopics t partitions);
    update (add_topic t)).

Definition sendNow (d : Destination) (payload : string) : M KafkaW unit :=
  _ ← ensureTopic d;
  on_producer (Send d {| km_value := payload; km_key := None; km_headers := None |}).

Definition schedule (d : Destination) (payload : string) (deliverAt : Z) : M KafkaW ScheduleHandle :=
  _ ← sendNow d payload;
  t ← now;
  rand ← draw;
  mret {| sh_id := "kafka-" +:+ pretty t +:+ "-" +:+ rand; sh_destination := d;
          sh_deliverAt := deliverAt |}.

Definition cancel (h : ScheduleHandle) : M KafkaW unit :=
  throw (NotSupportedError "cancel" kafka_name
    (Some "a written log record cannot be removed before consumption")).

Definition listScheduled (d : Destination) : M KafkaW (list ScheduledInfo) :=
  throw (NotSupportedError "listScheduled" kafka_name
    (Some "Kafka has no notion of pending, not-yet-delivered messages")).

Definition randomGroup (prefix : string) : M KafkaW string :=
  t ← now;
  rand ← draw;
  mret (prefix +:+ "-" +:+ pretty t +:+ "-" +:+ rand).

(** [startConsumer]; the subscription is the consumer.  [this.kafka] is set with the
    producer. *)
Definition startConsumer (t : Destination) (groupId : string) : M KafkaW nat :=
  producer ← asks kf_producer;
  if negb producer then throw undefined_error
  else
    consumer ← asks kf_created;
    _ ← update count_consumer;
    _ ← call (ConsumerConnect consumer groupId);
    _ ← call (ConsumerSubscribe consumer t);
    _ ← update (λ k, set_consumers (kf_consumers k ++ [consumer]) k);
    _ ← call (ConsumerRun consumer);
    mret consumer.

Definition consume (d : Destination) (handler : MessageHandler) : M KafkaW nat :=
  group ← randomGroup "sched";
  startConsumer d group.

Definition publish (t : Destination) (payload : string) (routingKey : option string)
    (o : PublishOptions) : M KafkaW unit :=
  _ ← ensureTopic t;
  on_producer (Send t {| km_value := payload; km_key := po_groupId o;
                         km_headers := Some (publish_headers o) |}).

Definition subscribe (t : Destination) (handler : AckHandler) (o : SubscribeOptions) : M KafkaW nat :=
  _ ← ensureTopic t;
  groupId ← match so_subscriberId o with Some s => mret s | None => randomGroup "bus" end;
  startConsumer t groupId.

Fixpoint remove_first (x : nat) (l : list nat) : list nat :=
  match l with
  | [] => []
  | y :: l' => if decide (x = y) then l' else y :: remove_first x l'
  end.

Definition unsubscribe (consumer : nat) : M KafkaW unit :=
  _ ← try_catch (call (ConsumerDisconnect consumer)) (λ _, mret tt);
  update (λ k, set_consumers (remove_first consumer (kf_consumers k)) k).

(** [Promise.allSettled] over the disconnects. *)
Fixpoint all_settled (l : list Cmd) : M KafkaW unit :=
  match l with
  | [] => mret tt
  | c :: l' => _ ← try_catch (call c) (λ _, mret tt); all_settled l'
  end.

Definition asyncDispose : M KafkaW unit :=
  consumers ← asks kf_consumers;
  _ ← all_settled (ConsumerDisconnect <$> consumers);
  _ ← update (set_consumers []);
  producer ← asks kf_producer;
  _ ← when producer (call ProducerDisconnect);
  admin ← asks kf_admin;
  when admin (call AdminDisconnect).

(** ** Delivered records *)

Definition commit (consumer : nat) (p : EachMessagePayload) : M KafkaW unit :=
  call (CommitOffsets consumer (kp_topic p) (kp_partition p) (next_offset (kp_offset p))).

(** The [ack] and [nack] of [toIncoming]. *)
Definition settle (consumer : nat) (p : EachMessagePayload) (s : Settlement) : M KafkaW unit :=
  match s with
  | Nack true => call (Seek consumer (kp_topic p) (kp_partition p) (kp_offset p))
  | _ => commit consumer p
  end.

(** [eachMessage] of a bus subscription. *)
Definition bus_message (consumer : nat) (p : EachMessagePayload) (run : HandlerRun) : M KafkaW unit := λ w,
  let '(r, sw) := deliver_isolated (settle consumer p) run (false, w) in (r, sw.2).

(** [eachMessage] of a scheduler subscription; [outcome] is what awaiting the handler
    gives. *)
Definition sched_message (consumer : nat) (p : EachMessagePayload) (outcome : option Error) : M KafkaW unit :=
  match outcome with Some e => throw e | None => commit consumer p end.

#[export] Instance kafka_IMessageScheduler : IMessageScheduler KafkaW := {|
  sched_sub := nat; sched_name := kafka_name; sched_capabilities := kafka_capabilities;
  sched_connect := connect; sched_sendNow := sendNow; sched_schedule := schedule;
  sched_cancel := cancel; sched_listScheduled := listScheduled; sched_consume := consume;
  sched_unsubscribe := unsubscribe;
  sched_dispose := asyncDispose |}.

#[export] Instance kafka_IMessageBus : IMessageBus KafkaW := {|
  bus_sub := nat; bus_capabilities := kafka_bus_capabilities; bus_connectBus := connectBus;
  bus_publish := publish; bus_subscribe := subscribe; bus_unsubscribe := unsubscribe |}.

#[export] Instance kafka_contract : SchedulerContract KafkaW.
Proof. split; intros _ x; apply throw_refuses. Qed.
End adapter.

(** ** Runs *)

Inductive KafkaOp :=
  | OpConnect | OpConnectBus | OpDispose
  | OpSendNow (d : Destination) (payload : string)
  | OpSchedule (d : Destination) (payload : string) (deliverAt : Z)
  | OpCancel (h : ScheduleHandle)
  | OpList (d : Destination)
  | OpConsume (d : Destination) (handler : MessageHandler)
  | OpPublish (t : Destination) (payload : string) (routingKey : option string) (o : PublishOptions)
  | OpSubscribe (t : Destination) (handler : AckHandler) (o : SubscribeOptions)
  | OpUnsubscribe (consumer : nat)
  | OpMessage (consumer : nat) (p : EachMessagePayload) (run : HandlerRun)
  | OpScheduled (consumer : nat) (p : EachMessagePayload) (outcome : option Error).

Definition kafka_exec `{Client Cmd} (op : KafkaOp) : M KafkaW unit :=
  match op with
  | OpConnect => connect
  | OpConnectBus => connectBus
  | OpDispose => asyncDispose
  | OpSendNow d p => sendNow d p
  | OpSchedule d p at_ => _ ← schedule d p at_; mret tt
  | OpCancel h => cancel h
  | OpList d => _ ← listScheduled d; mret tt
  | OpConsume d h => _ ← consume d h; mret tt
  | OpPublish t p k o => publish t p k o
  | OpSubscribe t h o => _ ← subscribe t h o; mret tt
  | OpUnsubscribe c => unsubscribe c
  | OpMessage c p run => bus_message c p run
  | OpScheduled c p outcome => sched_message c p outcome
  end.

Definition kafka_run `{Client Cmd} (ops : list KafkaOp) (w : KafkaW) : KafkaW :=
  foldl (λ w op, (kafka_exec op w).2) w ops.

Definition fresh (cfg : KafkaConfig) (t : Z) (draws : nat) : KafkaW :=
  {| re_self := new_KafkaScheduler cfg; re_log := []; re_now := t; re_draws := draws |}.

(** ** Lemmas *)

Lemma next_offset_exact n : (0 ≤ n < 2 ^ 53)%Z → next_offset n = (n + 1)%Z.
Proof.
  intros Hn. unfold next_offset. assert (E : to_double n = n) by (unfold to_double; by rewrite decide_True by lia).
  rewrite E. destruct (decide (n + 1 = 2 ^ 53)%Z) as [->|Hne]; [by vm_compute|].
  unfold to_double. rewrite decide_True by lia. done.
Qed.

Section lemmas.
Context `{Client Cmd}.

Lemma bus_message_eq c p run w :
  bus_message c p run w =
  (inr tt, match first_settlement run with Some s => (settle c p s w).2 | None => w end).
Proof. unfold bus_message. rewrite deliver_isolated_eq. by destruct (first_settlement run). Qed.

(** A predicate on states kept by every call but a connect of the producer, and by every
    update of the fields that leaves the producer set. *)
Definition steady (I : KafkaW → Prop) : Prop :=
  (∀ w, I w → kf_producer (re_self w) = true) ∧
  (∀ w c, I w → c ≠ ProducerConnect → I (push c w)) ∧
  (∀ w f, I w → (∀ k, kf_producer (f k) = kf_producer k ∨ kf_producer (f k) = true) →
     I (put_self (f (re_self w)) w)) ∧
  (∀ w n, I w → I {| re_self := re_self w; re_log := re_log w; re_now := re_now w; re_draws := n |}).

Context (I : KafkaW → Prop) (HI : steady I).

Lemma steady_bind {A B} (m : M KafkaW A) (k : A → M KafkaW B) :
  keeps I m → (∀ a, keeps I (k a)) → keeps I (m ≫= k).
Proof. intros Hm Hk. eapply triple_bind; [exact Hm|exact Hk]. Qed.

Lemma steady_ret {A} (a : A) : keeps I (mret a).
Proof. by intros w Hw. Qed.

Lemma steady_throw {A} e : keeps I (throw e : M KafkaW A).
Proof. by intros w Hw. Qed.

Lemma steady_call c : c ≠ ProducerConnect → keeps I (call c).
Proof. intros Hc. apply triple_call; [|done]. intros w Hw _. by apply HI. Qed.

Lemma steady_update f :
  (∀ k, kf_producer (f k) = kf_producer k ∨ kf_producer (f k) = true) → keeps I (update f).
Proof. intros Hf. apply triple_update. intros w Hw. by apply HI. Qed.

Lemma steady_asks {A} (f : KafkaAdapter → A) : keeps I (asks f).
Proof. by intros w Hw. Qed.

Lemma steady_now : keeps I now.
Proof. by intros w Hw. Qed.

Lemma steady_draw : keeps I draw.
Proof. intros w Hw. by apply HI. Qed.

Lemma steady_try (m : M KafkaW unit) : keeps I m → keeps I (try_catch m (λ _, mret tt)).
Proof. intros Hm. eapply triple_try; [exact Hm|]. by intros e w Hw. Qed.

(** The producer is only connected while it is not set. *)
Lemma steady_producer (k : bool → M KafkaW unit) :
  keeps I (k true) → keeps I (producer ← asks kf_producer; k producer).
Proof.
  intros Hk w Hw. unfold mbind, M_bind, asks. destruct HI as [Hp _]. rewrite (Hp w Hw). by apply Hk.
Qed.
End lemmas.

Ltac steady := repeat match goal with
  | |- keeps _ (_ ≫= _) => apply steady_bind; [|intros ?]
  | |- keeps _ (mret _) => apply steady_ret
  | |- keeps _ (throw _) => apply steady_throw
  | |- keeps _ now => apply steady_now
  | |- keeps _ draw => by apply steady_draw
  | |- keeps _ (asks _) => apply steady_asks
  | |- keeps _ (call _) => by apply steady_call
  | |- keeps _ (update _) => by apply steady_update; auto
  | |- keeps _ (try_catch _ _) => apply steady_try
  | |- keeps _ (match ?x with _ => _ end) => destruct x
  end.

Lemma kafka_exec_steady `{Client Cmd} I op : steady I → keeps I (kafka_exec op).
Proof.
  intros HI. assert (Hens : keeps I ensureClient).
  { unfold ensureClient. apply steady_producer; [done|]. cbn [negb when]. unfold when. steady. }
  assert (Htop : ∀ t, keeps I (ensureTopic t)) by (intros t; unfold ensureTopic, on_admin, when; steady).
  assert (Hset : ∀ l, Forall (.≠ ProducerConnect) l → keeps I (all_settled l)).
  { induction 1; simpl; steady; done. }
  destruct op; simpl; unfold connect, connectBus, sendNow, schedule, sendNow, consume, publish, subscribe,
    unsubscribe, startConsumer, randomGroup, on_producer, cancel, listScheduled, sched_message, commit;
    try (steady; try apply Htop; fail); try exact Hens.
  - unfold asyncDispose, when. steady. apply Hset. by apply Forall_fmap, Forall_true.
  - intros w Hw. rewrite bus_message_eq. destruct (first_settlement run) as [s|]; [|done].
    assert (Hs : keeps I (settle consumer p s)).
    { destruct s as [|[]]; simpl; unfold commit; steady. }
    specialize (Hs w Hw). by destruct (settle consumer p s w) as [[e|[]] w'].
Qed.

Lemma kafka_run_steady `{Client Cmd} I ops w : steady I → I w → I (kafka_run ops w).
Proof.
  intros HI. revert w. induction ops as [|op ops IH]; intros w Hw; [done|]. simpl. apply IH.
  pose proof (kafka_exec_steady I op HI w Hw) as Hop. by destruct (kafka_exec op w) as [[e|[]] w'].
Qed.

(** ** One consumer reading one partition

    The position of the consumer after the record at an offset, given the offset sought to
    meanwhile, is kept by kafkajs: it is documented to continue with the next record
    stored in the partition, or where it was told to seek. *)
Class Fetching := {
  next_position : Z → option Z → Z;
  next_read pos : (pos < next_position pos None)%Z;
  next_sought pos offset : next_position pos (Some offset) = offset
}.

(** The offset a consumer seeks to in a list of calls. *)
Definition sought (calls : list Cmd) : option Z :=
  last (omap (λ cmd, match cmd with Seek _ _ _ offset => Some offset | _ => None end) calls).

(** The last committed offset of a partition. *)
Definition committed (c : nat) (t : string) (part : Z) (log : list Cmd) : option Z :=
  last (omap (λ cmd, match cmd with
                     | CommitOffsets c' t' p' o => if decide (c = c' ∧ t = t' ∧ part = p') then Some o else None
                     | _ => None
                     end) log).

Definition record_at (t : string) (part pos : Z) (value : string) : EachMessagePayload := {|
  kp_topic := t; kp_partition := part; kp_offset := pos; kp_value := Some value; kp_key := None;
  kp_headers := None |}.

(** The runs that finish their record: ack it or give it up. *)
Definition finishes (run : HandlerRun) : bool :=
  match first_settlement run with Some Ack | Some (Nack false) => true | _ => false end.

(** The handler behaves as [runs] on the records it is handed in turn; [value] gives
    the record stored at an offset.  The offsets visited, each with whether its record was
    finished then, the position and the state after the runs. *)
Fixpoint session `{Client Cmd} `{Fetching} (c : nat) (t : string) (part : Z) (value : Z → string) (pos : Z)
    (runs : list HandlerRun) (w : KafkaW) : list (Z * bool) * Z * KafkaW :=
  match runs with
  | [] => ([], pos, w)
  | run :: runs' =>
      let w' := (bus_message c (record_at t part pos (value pos)) run w).2 in
      let calls := drop (length (re_log w)) (re_log w') in
      let '(visited, pos', w'') := session c t part value (next_position pos (sought calls)) runs' w' in
      ((pos, finishes run) :: visited, pos', w'')
  end.

Section session.
Context `{Client Cmd} `{Fetching} (c : nat) (t : string) (part : Z) (value : Z → string) (start : Z).
Hypothesis Hseek : ∀ log o, answer log (Seek c t part o) = None.

Definition restart_at (w : KafkaW) : Z := default start (committed c t part (re_log w)).

Lemma session_step pos run w :
  first_settlement run ≠ None → (0 ≤ pos < 2 ^ 53)%Z →
  let w' := (bus_message c (record_at t part pos (value pos)) run w).2 in
  let next := next_position pos (sought (drop (length (re_log w)) (re_log w'))) in
  if finishes run then
    (pos < next)%Z ∧ (restart_at w' = (pos + 1)%Z ∨
      (restart_at w' = restart_at w ∧ answer (re_log w) (CommitOffsets c t part (pos + 1)) ≠ None))
  else next = pos ∧ restart_at w' = restart_at w.
Proof.
  intros Hs Hpos. rewrite bus_message_eq. unfold finishes, restart_at, committed. cbv zeta. cbn [snd].
  destruct (first_settlement run) as [s|]; [|done].
  assert (Hcommit : let w' := (commit c (record_at t part pos (value pos)) w).2 in
    let next := next_position pos (sought (drop (length (re_log w)) (re_log w'))) in
    (pos < next)%Z ∧ (restart_at w' = (pos + 1)%Z ∨
      (restart_at w' = restart_at w ∧ answer (re_log w) (CommitOffsets c t part (pos + 1)) ≠ None))).
  { unfold commit, call. simpl. rewrite next_offset_exact by done. destruct (answer _ _) eqn:E; simpl.
    - rewrite drop_all. split; [apply next_read|]. by right.
    - rewrite drop_app_length. split; [apply next_read|]. left. unfold restart_at, committed. simpl.
      rewrite omap_app, last_app. simpl. by rewrite decide_True. }
  destruct s as [|[]]; [exact Hcommit| |exact Hcommit].
  simpl. unfold call. rewrite Hseek. simpl. rewrite drop_app_length, omap_app, app_nil_r. split; [apply next_sought|done].
Qed.

Lemma session_spec runs pos w :
  Forall (λ run, first_settlement run ≠ None) runs → (0 ≤ pos)%Z → (restart_at w ≤ pos)%Z →
  let '(visited, pos', w') := session c t part value pos runs w in
  Forall (λ v, v.1 < 2 ^ 53)%Z visited →
  (pos ≤ pos' ∧ restart_at w ≤ restart_at w' ≤ pos')%Z ∧ ((pos < pos')%Z → (pos, true) ∈ visited) ∧
  (∀ x b, (x, b) ∈ visited → (pos ≤ x)%Z ∧ ((x < pos')%Z → (x, true) ∈ visited)) ∧
  ((∀ log o, answer log (CommitOffsets c t part o) = None) → ∀ x, (x, true) ∈ visited → (x < restart_at w')%Z).
Proof.
  intros Hruns. revert pos w. induction Hruns as [|run runs Hrun Hruns IH]; intros pos w Hpos Hk; cbn [session].
  { intros _. split; [lia|]. split; [lia|]. split; [intros x b Hx|intros _ x Hx]; by apply elem_of_nil in Hx. }
  pose proof (session_step pos run w Hrun) as Hstep. cbv zeta in Hstep.
  set (w1 := (bus_message _ _ run w).2) in *. set (next := next_position _ _) in *.
  specialize (IH next w1). destruct (session c t part value next runs w1) as [[visited pos'] w'].
  intros [Hlt Hv]%Forall_cons. simpl in Hlt. specialize (Hstep (conj Hpos Hlt)). destruct (finishes run).
  - destruct Hstep as [Hnext Hcom]. destruct IH as (Hle & _ & Hvis & Hacc); [lia|lia|done|].
    split; [lia|]. split; [intros _; left|]. split.
    + intros x b [[= -> ->]|Hx]%elem_of_cons; [split; [lia|intros _; left]|].
      apply Hvis in Hx as [Hx Hx']. split; [lia|]. intros Hxp. right. by apply Hx'.
    + intros Hall x [[= ->]|Hx]%elem_of_cons; [|by apply Hacc].
      destruct Hcom as [E|[_ Hno]]; [lia|]. by rewrite Hall in Hno.
  - destruct Hstep as [-> Ek]. destruct IH as (Hle & Hp & Hvis & Hacc); [lia|lia|done|].
    split; [lia|]. split; [intros ?; right; by apply Hp|]. split.
    + intros x b [[= -> ->]|Hx]%elem_of_cons; [split; [lia|intros ?; right; by apply Hp]|].
      apply Hvis in Hx as [Hx Hx']. split; [lia|]. intros Hxp. right. by apply Hx'.
    + intros Hall x [[= ?]|Hx]%elem_of_cons. by apply Hacc.
Qed.
End session.

(** ** Properties *)

(** C39: a restart skips nothing.  A consumer whose handler settles every record it is
    handed (offsets below 2^53), over any client that carries out its seeks: whichever
    commits are rejected, the committed offset is never ahead of the consumer, and every
    record handed over below it was finished, that is acked or given up.  If no commit is
    rejected, every finished record is below it: a restart repeats only unfinished ones. *)
Theorem restart_skips_nothing `{Client Cmd} `{Fetching} (c : nat) (t : string) (part : Z) (value : Z → string)
    (start pos : Z) (runs : list HandlerRun) (w : KafkaW) :
  (∀ log o, answer log (Seek c t part o) = None) → Forall (λ run, first_settlement run ≠ None) runs →
  (0 ≤ pos)%Z → (default start (committed c t part (re_log w)) ≤ pos)%Z →
  let '(visited, pos', w') := session c t part value pos runs w in
  let commit := default start (committed c t part (re_log w')) in
  Forall (λ v, v.1 < 2 ^ 53)%Z visited →
  (commit ≤ pos')%Z ∧ (∀ x b, (x, b) ∈ visited → (x < commit)%Z → (x, true) ∈ visited) ∧
  ((∀ log o, answer log (CommitOffsets c t part o) = None) → ∀ x, (x, true) ∈ visited → (x < commit)%Z).
Proof.
  intros Hseek Hruns Hpos Hk. pose proof (session_spec c t part value start Hseek runs pos w Hruns Hpos Hk) as Hs.
  destruct (session c t part value pos runs w) as [[visited pos'] w']. cbv zeta. intros Hv.
  destruct (Hs Hv) as (Hle & _ & Hvis & Hacc). fold (restart_at c t part start w').
  split; [lia|]. split; [|done]. intros x b Hx Hlt. apply (Hvis x b Hx). lia.
Qed.

Definition kafka_willing : Client Cmd := {| answer := λ _ _, None; random6 := λ n, pretty n |}.

Definition demo_cfg : KafkaConfig := {| kc_brokers := ["localhost:9092"]; kc_clientId := "demo" |}.

(** A partition without gaps. *)
Definition consecutive : Fetching.
Proof. refine {| next_position pos s := default (pos + 1)%Z s |}; [intros; simpl; lia|done]. Defined.

(** A client whose commits fail, all but those of even offsets. *)
Definition kafka_failing : Client Cmd := {|
  answer _ cmd := match cmd with
                  | CommitOffsets _ _ _ o => if Z.even o then None else Some (OtherError "rebalance")
                  | _ => None
                  end;
  random6 := λ n, pretty n |}.

Lemma restart_skips_nothing_witness :
  let _ := kafka_failing in let _ := consecutive in
  let runs := [Settles Ack (λ _, Returns); Throws (OtherError "boom"); Settles (Nack false) (λ _, Returns)] in
  let '(visited, pos', w') := session 0 "t" 0 (λ _, "x") 0 runs (fresh demo_cfg 0 0) in
  let commit := default 0%Z (committed 0 "t" 0 (re_log w')) in
  Forall (λ v, v.1 < 2 ^ 53)%Z visited →
  (commit ≤ pos')%Z ∧ (∀ x b, (x, b) ∈ visited → (x < commit)%Z → (x, true) ∈ visited) ∧
  ((∀ log o, answer log (CommitOffsets 0 "t" 0 o) = None) → ∀ x, (x, true) ∈ visited → (x < commit)%Z).
Proof.
  apply (@restart_skips_nothing kafka_failing consecutive 0 "t" 0 (λ _, "x") 0 0
    [Settles Ack (λ _, Returns); Throws (OtherError "boom"); Settles (Nack false) (λ _, Returns)]
    (fresh demo_cfg 0 0)); [done| |done|done].
  repeat constructor; discriminate.
Defined.

(** A handler that returns without settling leaves its record behind: the next ack
    commits past it. *)
Theorem ack_skips_unsettled :
  let _ := kafka_willing in let _ := consecutive in
  let '(_, w') := session 0 "t" 0 (λ _, "x") 0 [Returns; Settles Ack (λ _, Returns)] (fresh demo_cfg 0 0) in
  committed 0 "t" 0 (re_log w') = Some 2%Z.
Proof. reflexivity. Qed.

(** At offset 2^53 the committed offset is the record's own: it is read again after
    every restart. *)
Theorem commit_stuck_at_2_53 : next_offset (2 ^ 53) = (2 ^ 53)%Z.
Proof. by vm_compute. Qed.

(** a failed first connect is never repaired.  The producer is stored before it is
    connected, so when its connect is rejected a second [connect] (the retry decorator's)
    reports success while no operation of any later run ever connects the producer. *)
Theorem failed_connect_not_retried `{Client Cmd} (cfg : KafkaConfig) (t : Z) (draws : nat) (e : Error) :
  answer [] ProducerConnect = Some e → answer [] AdminConnect = None →
  let w1 := (connect (fresh cfg t draws)).2 in
  (connect (fresh cfg t draws)).1 = inl e ∧ (connect w1).1 = inr tt ∧
  ∀ ops, (ProducerConnect ∉ re_log (kafka_run ops w1)).
Proof.
  intros He Ha w1. unfold w1, connect, ensureClient, mbind, M_bind, asks, when, update, call. simpl.
  rewrite He. simpl. rewrite Ha. split; [done|]. split; [done|]. intros ops.
  set (I := λ w : KafkaW, kf_producer (re_self w) = true ∧ (ProducerConnect ∉ re_log w)).
  assert (HI : steady I).
  { split; [by intros w []|]. split; [|split].
    - intros w cmd [Hp Hl] Hc. split; [done|]. simpl. set_solver.
    - intros w f [Hp Hl] Hf. split; [|done]. simpl. destruct (Hf (re_self w)) as [->| ->]; done.
    - by intros w n []. }
  apply (kafka_run_steady I ops _ HI). split; [done|]. simpl. set_solver.
Qed.

Definition kafka_flaky : Client Cmd := {|
  answer := λ _ c, match c with ProducerConnect => Some (OtherError "ECONNREFUSED") | _ => None end;
  random6 := λ n, pretty n |}.

Lemma failed_connect_not_retried_witness :
  let _ := kafka_flaky in
  let w1 := (connect (fresh demo_cfg 0 0)).2 in
  (connect (fresh demo_cfg 0 0)).1 = inl (OtherError "ECONNREFUSED") ∧ (connect w1).1 = inr tt ∧
  ∀ ops, (ProducerConnect ∉ re_log (kafka_run ops w1)).
Proof. apply (@failed_connect_not_retried kafka_flaky demo_cfg 0 0); reflexivity. Defined.
