(* ===== verification/Emitter.v ===== *)
(** [once] of adapters/artemis.ts: a promise over the events of a rhea connection or
    link, as listeners of a Node EventEmitter. *)

From S2P Require Import Prelude Abstractions.

(** ** Node's EventEmitter *)

(** The functions that are registered: the [ok] and [err] of [once], and the listeners of
    other code. *)
Inductive Listener := Ok_ | Err_ | Foreign (n : nat).

#[export] Instance Listener_eq : EqDecision Listener.
Proof. solve_decision. Defined.

Abbreviation Listeners := (list (string * Listener)).

(** [removeListener(event, f)] removes the most recently added [f]. *)
Fixpoint remove_first (x : string * Listener) (l : Listeners) : Listeners :=
  match l with
  | [] => []
  | y :: l' => if decide (x = y) then l' else y :: remove_first x l'
  end.

Definition removeListener (event : string) (f : Listener) (l : Listeners) : Listeners :=
  reverse (remove_first (event, f) (reverse l)).

(** ** The promise *)

(** The emitter and the promise: pending, or settled. *)
Record Waiting := { wt_listeners : Listeners; wt_settled : option (Error + unit) }.

Definition with_listeners (l : Listeners) (w : Waiting) : Waiting :=
  {| wt_listeners := l; wt_settled := wt_settled w |}.

(** Settling a promise again does nothing. *)
Definition settle_promise (r : Error + unit) (w : Waiting) : Waiting :=
  {| wt_listeners := wt_listeners w; wt_settled := Some (default r (wt_settled w)) |}.

Definition cleanup (event : string) (w : Waiting) : Waiting :=
  with_listeners
    (removeListener "error" Err_ (removeListener "connection_error" Err_
      (removeListener event Ok_ (wt_listeners w)))) w.

(** [ok] and [err]; [e] is the [error] of the event's argument. *)
Definition ok (event : string) (w : Waiting) : Waiting := settle_promise (inr tt) (cleanup event w).

Definition err (event : string) (e : option Error) (w : Waiting) : Waiting :=
  settle_promise (inl (default (OtherError ("error on '" +:+ event +:+ "'")) e)) (cleanup event w).

(** [once]: the promise waits for [event] or for an error. *)
Definition once (event : string) (l : Listeners) : Waiting := {|
  wt_listeners := l ++ [(event, Ok_); ("connection_error", Err_); ("error", Err_)];
  wt_settled := None |}.

(** A listener that was registered with [once] is removed before it is called. *)
Definition call_listener (event name : string) (e : option Error) (w : Waiting) (f : Listener) : Waiting :=
  match f with
  | Foreign _ => w
  | Ok_ => ok event (with_listeners (removeListener name f (wt_listeners w)) w)
  | Err_ => err event e (with_listeners (removeListener name f (wt_listeners w)) w)
  end.

(** [emit(name, arg)] calls the listeners that are registered at that moment. *)
Definition emit (event : string) (w : Waiting) (ev : string * option Error) : Waiting :=
  foldl (call_listener event ev.1 ev.2) w (filter (λ x, x.1 = ev.1) (wt_listeners w)).*2.

(** ** The first event that matters decides *)

Definition outcome (event : string) (ev : string * option Error) : option (Error + unit) :=
  if decide (ev.1 = event) then Some (inr tt)
  else if decide (ev.1 = "connection_error" ∨ ev.1 = "error")
  then Some (inl (default (OtherError ("error on '" +:+ event +:+ "'")) ev.2))
  else None.

(** The listeners of other code. *)
Definition foreign (l : Listeners) : Prop := ∀ x, x ∈ l → ∃ n, x.2 = Foreign n.

Lemma remove_first_absent x l : x ∉ l → remove_first x l = l.
Proof.
  induction l as [|y l IH]; [done|]. rewrite not_elem_of_cons. intros [Hne Hin]. simpl.
  rewrite decide_False by done. by rewrite IH.
Qed.

Lemma foreign_absent l event f : foreign l → f = Ok_ ∨ f = Err_ → (event, f) ∉ l.
Proof. intros Hl Hf Hin. destruct (Hl _ Hin) as [n E]. simpl in E. destruct Hf; congruence. Qed.

(** Removing a listener of [once] from the end of the list. *)
Lemma removeListener_app event f l1 l2 :
  foreign l1 → f = Ok_ ∨ f = Err_ → removeListener event f (l1 ++ l2) = l1 ++ removeListener event f l2.
Proof.
  intros Hl Hf. unfold removeListener. rewrite reverse_app. pose proof (foreign_absent _ event _ Hl Hf) as Hn.
  assert (E : ∀ k, remove_first (event, f) (k ++ reverse l1) = remove_first (event, f) k ++ reverse l1).
  { induction k as [|y k IH]; simpl; [apply remove_first_absent; by rewrite elem_of_reverse|].
    case_decide; [done|]. by rewrite IH. }
  by rewrite E, reverse_app, reverse_involutive.
Qed.

Lemma removeListener_filter event f l : NoDup l → removeListener event f l = filter (λ x, x ≠ (event, f)) l.
Proof.
  intros Hnd. unfold removeListener.
  assert (E : ∀ k, NoDup k → remove_first (event, f) k = filter (λ x, x ≠ (event, f)) k).
  { induction k as [|y k IH]; [done|]. intros [Hy Hk]%NoDup_cons. simpl. rewrite filter_cons.
    destruct (decide ((event, f) = y)) as [<-|Hne].
    - rewrite decide_False by naive_solver. rewrite <- IH by done. by rewrite remove_first_absent.
    - rewrite decide_True by done. by rewrite IH. }
  rewrite E by by rewrite reverse_Permutation. by rewrite filter_reverse, reverse_involutive.
Qed.

(** What [once] adds. *)
Definition waiting_for (event : string) : Listeners := [(event, Ok_); ("connection_error", Err_); ("error", Err_)].

Lemma waiting_NoDup event : NoDup (waiting_for event).
Proof. unfold waiting_for. rewrite !NoDup_cons, !not_elem_of_cons. split_and!; try congruence; try apply not_elem_of_nil; constructor. Qed.

(** [cleanup] leaves nothing of it. *)
Lemma cleanup_all event l k s :
  foreign l → NoDup k → (∀ x, x ∈ k → x ∈ waiting_for event) →
  cleanup event {| wt_listeners := l ++ k; wt_settled := s |} = {| wt_listeners := l; wt_settled := s |}.
Proof.
  intros Hl Hnd Hk. unfold cleanup, with_listeners. cbn [wt_listeners wt_settled]. f_equal.
  rewrite !removeListener_app by auto. rewrite <- (app_nil_r l) at 2. f_equal.
  rewrite (removeListener_filter event), (removeListener_filter "connection_error"), (removeListener_filter "error")
    by (repeat apply NoDup_filter; done).
  apply elem_of_nil_inv. intros x (Hx1 & (Hx2 & (Hx3 & Hx)%list_elem_of_filter)%list_elem_of_filter)%list_elem_of_filter.
  apply Hk in Hx. unfold waiting_for in Hx. rewrite !elem_of_cons in Hx. set_solver.
Qed.

Definition verdict (event : string) (e : option Error) (f : Listener) : Error + unit :=
  match f with Err_ => inl (default (OtherError ("error on '" +:+ event +:+ "'")) e) | _ => inr tt end.

Lemma call_settles event name e l f :
  foreign l → f = Ok_ ∨ f = Err_ →
  call_listener event name e (once event l) f = {| wt_listeners := l; wt_settled := Some (verdict event e f) |}.
Proof.
  intros Hl Hf. assert (E : with_listeners (removeListener name f (wt_listeners (once event l))) (once event l) =
    {| wt_listeners := l ++ removeListener name f (waiting_for event); wt_settled := None |})
    by (unfold with_listeners, once; simpl; by rewrite removeListener_app).
  destruct Hf as [->| ->]; unfold call_listener, ok, err; rewrite E; (rewrite cleanup_all; [done|done|..]);
    rewrite removeListener_filter by apply waiting_NoDup; try (apply NoDup_filter, waiting_NoDup);
    by intros x [_ Hx]%list_elem_of_filter.
Qed.

(** Calling other code's listeners leaves the promise alone. *)
Lemma call_foreign event name e l w : foreign l → foldl (call_listener event name e) w (filter (λ x, x.1 = name) l).*2 = w.
Proof.
  intros Hl. induction l as [|[n f] l IH]; [done|]. rewrite filter_cons.
  assert (Hl' : foreign l) by (intros x Hx; apply Hl; by right).
  destruct (Hl (n, f) ltac:(by left)) as [k E]. simpl in E. subst. case_decide; [|by apply IH].
  rewrite fmap_cons. simpl. by apply IH.
Qed.

(** The three listeners of [once], and none of them once it is settled. *)
Definition state (event : string) (l : Listeners) (r : option (Error + unit)) : Waiting :=
  match r with None => once event l | Some _ => {| wt_listeners := l; wt_settled := r |} end.

Lemma emit_state event l r ev :
  foreign l → event ≠ "connection_error" → event ≠ "error" →
  emit event (state event l r) ev = state event l (match r with Some _ => r | None => outcome event ev end).
Proof.
  intros Hl Hn1 Hn2. unfold emit. destruct r as [r|]; [by apply call_foreign|]. change (state event l None) with (once event l).
  change (wt_listeners (once event l)) with (l ++ waiting_for event).
  rewrite filter_app, fmap_app, foldl_app, (call_foreign _ _ _ l) by done. destruct ev as [name e].
  unfold outcome. cbn [fst snd]. unfold waiting_for. rewrite !filter_cons, filter_nil. cbn [fst].
  destruct (decide (name = event)) as [->|Hne].
  - rewrite (decide_True (P := event = event)), (decide_False (P := "connection_error" = event)),
      (decide_False (P := "error" = event)) by congruence.
    cbn [fmap list_fmap foldl snd]. rewrite call_settles by auto. done.
  - rewrite (decide_False (P := event = name)) by congruence.
    destruct (decide ("connection_error" = name)) as [<-|Hn3]; [|destruct (decide ("error" = name)) as [<-|Hn4]].
    + rewrite (decide_False (P := "error" = "connection_error")), (decide_True (P := _ ∨ _)) by auto.
      cbn [fmap list_fmap foldl snd]. rewrite call_settles by auto. done.
    + rewrite (decide_True (P := _ ∨ _)) by auto. cbn [fmap list_fmap foldl snd]. rewrite call_settles by auto. done.
    + rewrite (decide_False (P := _ ∨ _)) by naive_solver. done.
Qed.

(** The first event of the list that matters. *)
Fixpoint first_outcome (event : string) (evs : list (string * option Error)) : option (Error + unit) :=
  match evs with
  | [] => None
  | ev :: evs' => match outcome event ev with Some r => Some r | None => first_outcome event evs' end
  end.

(** ** Properties *)

(** waiting for an event.  Whatever a connection or a link emits, in whatever order, the
    promise of [once] settles with the first of the awaited event and the two errors; it
    then leaves none of its three listeners behind, changes no more, and never touches
    the listeners of other code. *)
Theorem once_settles_with_first (event : string) (l : Listeners) (evs : list (string * option Error)) :
  foreign l → event ≠ "connection_error" → event ≠ "error" →
  let w := foldl (emit event) (once event l) evs in
  wt_settled w = first_outcome event evs ∧
  wt_listeners w = l ++ (if first_outcome event evs is Some _ then [] else waiting_for event).
Proof.
  intros Hl H1 H2 w.
  assert (H : ∀ r, foldl (emit event) (state event l r) evs =
    state event l (match r with Some _ => r | None => first_outcome event evs end)).
  { induction evs as [|ev evs IH]; intros r; [by destruct r|]. cbn [foldl]. rewrite emit_state, IH by done.
    destruct r; [done|]. simpl. by destruct (outcome event ev). }
  specialize (H None). unfold w. change (once event l) with (state event l None). rewrite H.
  destruct (first_outcome event evs); simpl; [by rewrite app_nil_r|done].
Qed.

Lemma once_settles_with_first_witness :
  let evs := [("receiver_flow", None); ("connection_error", Some (OtherError "refused")); ("receiver_open", None)] in
  let w := foldl (emit "receiver_open") (once "receiver_open" [("message", Foreign 1)]) evs in
  wt_settled w = Some (inl (OtherError "refused")) ∧ wt_listeners w = [("message", Foreign 1)].
Proof.
  apply (once_settles_with_first "receiver_open" [("message", Foreign 1)]
    [("receiver_flow", None); ("connection_error", Some (OtherError "refused")); ("receiver_open", None)]);
    [|discriminate..].
  intros x Hx. apply list_elem_of_singleton in Hx as ->. by exists 1.
Defined.
