(* ===== verification/Artemis.v ===== *)
(** The Artemis adapter (adapters/artemis.ts) and its Jolokia client
    (adapters/artemis-jolokia.ts): the links it opens, the messages it sends, the
    selector a routing pattern becomes, and the management calls behind [cancel] and
    [listScheduled]. *)

From stdpp Require Import pretty.
From S2P Require Import Prelude Abstractions Ports Client TopicMatch Numbers.
From Stdlib Require Import Ascii.

(** ** Configuration *)

Record ArtemisConfig := {
  ac_host : string;
  ac_port : Number;
  ac_username : string;
  ac_password : string;
  ac_jolokiaUrl : string
}.

(** The environment variables of [artemisConfigFromEnv]. *)
Definition artemisConfigFromEnv (env : string → option string) : ArtemisConfig :=
  let host := default "localhost" (env "ARTEMIS_HOST") in
  {| ac_host := host;
     ac_port := match env "ARTEMIS_PORT" with Some p => to_number p | None => of_Z 5672 end;
     ac_username := default "admin" (env "ARTEMIS_USER");
     ac_password := default "admin" (env "ARTEMIS_PASSWORD");
     ac_jolokiaUrl := default ("http://" +:+ host +:+ ":8161/console/jolokia") (env "ARTEMIS_JOLOKIA_URL") |}.

(** The addresses broker.xml routes dead letters and expired messages to; the
    environment may override them. *)
Definition ARTEMIS_DLA (env : string → option string) : string := default "mbc.DLQ" (env "ARTEMIS_DLA").
Definition ARTEMIS_EXPIRY (env : string → option string) : string :=
  default "mbc.EXPIRY" (env "ARTEMIS_EXPIRY").

Definition ROUTING_KEY_PROP : string := "routingKey".
Definition ARTEMIS_GROUP_ID : string := "_AMQ_GROUP_ID".
Definition ARTEMIS_DUPL_ID : string := "_AMQ_DUPL_ID".
Definition SCHEDULE_ID : string := "scheduleId".
Definition DELIVERY_TIME_ANNOTATION : string := "x-opt-delivery-time".

(** ** rhea and Jolokia *)

(** A message sent or received; fields absent from the code are not set. *)
Record Message := {
  ms_body : JsVal;
  ms_message_id : option JsVal;
  ms_annotations : gmap string Z;
  ms_properties : option (gmap string JsVal);
  ms_group_id : option string;
  ms_priority : option Z;
  ms_reply_to : option string;
  ms_correlation_id : option JsVal;
  ms_ttl : option Z;
  ms_delivery_count : option Z
}.

Definition plain_message (payload : string) : Message := {|
  ms_body := VStr payload; ms_message_id := None; ms_annotations := ∅; ms_properties := None;
  ms_group_id := None; ms_priority := None; ms_reply_to := None; ms_correlation_id := None;
  ms_ttl := None; ms_delivery_count := None |}.

(** The calls; waiting for [connection_open], [sendable] and [receiver_open] is part of
    opening.  Links are numbered by their creation. *)
Inductive Cmd :=
  | OpenConnection (host : string) (port : Number)
  | OpenSender (link : nat) (address : string) (capability : string)
  | OpenReceiver (link : nat) (address : string) (capability : string) (selector : option string)
      (autoaccept : bool)
  | SendMsg (link : nat) (m : Message)
  | CloseLink (link : nat)
  | CloseConnection
  | Accept (delivery : N)
  | Modified (delivery : N) (delivery_failed undeliverable_here : bool)
  | Reject (delivery : N)
  | JolokiaSearch (mbean : string)
  | JolokiaExec (mbean operation : string) (arguments : list string).

(** What the library and the broker report: whether the connection or a link is open,
    and the [value] of a Jolokia reply. *)
Class ArtemisClient := {
  rhea :: Client Cmd;
  connection_open : list Cmd → bool;
  link_open : list Cmd → nat → bool;
  jolokia_value : list Cmd → JsVal
}.

(** ** The adapter's state *)

Record ArtemisAdapter := {
  ar_cfg : ArtemisConfig;
  ar_env : string → option string;
  ar_connection : bool;
  ar_senders : list (string * nat);    (* by address, in insertion order *)
  ar_busSenders : list (string * nat);
  ar_links : nat                    (* links created so far *)
}.

Definition new_ArtemisScheduler (cfg : ArtemisConfig) (env : string → option string) : ArtemisAdapter := {|
  ar_cfg := cfg; ar_env := env; ar_connection := false; ar_senders := []; ar_busSenders := [];
  ar_links := 0 |}.

Definition set_connection (a : ArtemisAdapter) : ArtemisAdapter := {|
  ar_cfg := ar_cfg a; ar_env := ar_env a; ar_connection := true; ar_senders := ar_senders a;
  ar_busSenders := ar_busSenders a; ar_links := ar_links a |}.

Definition next_link (a : ArtemisAdapter) : ArtemisAdapter := {|
  ar_cfg := ar_cfg a; ar_env := ar_env a; ar_connection := ar_connection a;
  ar_senders := ar_senders a; ar_busSenders := ar_busSenders a; ar_links := S (ar_links a) |}.

Definition set_sender (address : string) (link : nat) (a : ArtemisAdapter) : ArtemisAdapter := {|
  ar_cfg := ar_cfg a; ar_env := ar_env a; ar_connection := ar_connection a;
  ar_senders := map_set (ar_senders a) address link; ar_busSenders := ar_busSenders a;
  ar_links := ar_links a |}.

Definition set_busSender (address : string) (link : nat) (a : ArtemisAdapter) : ArtemisAdapter := {|
  ar_cfg := ar_cfg a; ar_env := ar_env a; ar_connection := ar_connection a;
  ar_senders := ar_senders a; ar_busSenders := map_set (ar_busSenders a) address link;
  ar_links := ar_links a |}.

Definition artemis_bus_capabilities : BusCapabilities := {|
  supportsTopic := true; supportsFanout := true; supportsManualAck := true;
  supportsDeadLetter := true; reportsDeliveryCount := true; supportsDedup := true;
  supportsStreamReplay := false; supportsMessageGroups := Some true |}.

Definition artemis_capabilities : Capabilities := {|
  protocol := "AMQP 1.0"; nativeScheduling := true; supportsCancel := true; supportsList := true;
  cap_bus := Some artemis_bus_capabilities |}.

Definition artemis_name : string := "Apache ActiveMQ Artemis".

(** ** Names and selectors *)

Definition fqqn (d : Destination) : string := d +:+ "::" +:+ d.

(** [topic.endsWith(suffix)]. *)
Fixpoint ends_with (suffix s : string) : bool :=
  bool_decide (s = suffix) || match s with String _ s' => ends_with suffix s' | "" => false end.

Definition subscription_address (env : string → option string) (t : Destination) : string :=
  if ends_with ".dlq" t then ARTEMIS_DLA env
  else if ends_with ".expiry" t then ARTEMIS_EXPIRY env
  else t.

Definition source_address (env : string → option string) (t subscriberId : string) (transient : bool) : string :=
  let fqqn := subscription_address env t +:+ "::" +:+ subscriberId in
  if transient then fqqn +:+ "?auto-delete=true&max-consumers=1" else fqqn.

Definition is_wildcard (a : ascii) : bool := bool_decide (a = "*"%char ∨ a = "#"%char).

(** [s.replace(/[*#]/g, '%')]. *)
Fixpoint percent (s : string) : string :=
  match s with
  | "" => ""
  | String a s' => String (if is_wildcard a then "%"%char else a) (percent s')
  end.

Fixpoint has_wildcard (s : string) : bool :=
  match s with "" => false | String a s' => is_wildcard a || has_wildcard s' end.

Definition toSelector (routingKey : string) : string :=
  if has_wildcard routingKey
  then ROUTING_KEY_PROP +:+ " LIKE '" +:+ percent routingKey +:+ "'"
  else ROUTING_KEY_PROP +:+ " = '" +:+ routingKey +:+ "'".

(** ** Messages *)

(** [JSON.stringify] of a structured body belongs to the parameter [render]. *)
Definition bodyToString (render : JsVal → string) (body : JsVal) : string :=
  match body with
  | VNull => ""
  | VStr s => s
  | VArr _ | VObj _ => render body
  | _ => js_String body
  end.

Definition stringifyProps (props : option (gmap string JsVal)) : gmap string string :=
  js_String <$> default ∅ props.

(** [String(x ?? '')]. *)
Definition id_of (x : option JsVal) : string :=
  match x with None | Some VNull => "" | Some v => js_String v end.

Definition group_of_message (m : Message) : option string :=
  match ms_group_id m with
  | Some g => Some g
  | None => match ms_properties m ≫= (.!! ARTEMIS_GROUP_ID) with Some (VStr g) => Some g | _ => None end
  end.

(** The data of [toIncoming]. *)
Definition toIncoming (render : JsVal → string) (address : Destination) (m : Message) : IncomingMessage := {|
  im_id := id_of (ms_message_id m); im_destination := address;
  im_body := bodyToString render (ms_body m); im_headers := stringifyProps (ms_properties m);
  im_deliveryCount := Some (default 0 (ms_delivery_count m) + 1)%Z; im_replyTo := ms_reply_to m;
  im_correlationId := js_String <$> ms_correlation_id m; im_groupId := group_of_message m;
  im_priority := ms_priority m |}.

Definition to_received (render : JsVal → string) (d : Destination) (m : Message) : ReceivedMessage := {|
  rm_id := id_of (ms_message_id m); rm_destination := d;
  rm_body := bodyToString render (ms_body m); rm_headers := stringifyProps (ms_properties m) |}.

(** The application properties of a publish: headers override the routing key, the
    dedup and group ids override both. *)
Definition application_properties (t : Destination) (routingKey : option string) (o : PublishOptions) :
    gmap string JsVal :=
  let props := (VStr <$> default ∅ (po_headers o)) ∪ {[ROUTING_KEY_PROP := VStr (default t routingKey)]} in
  let props := match nonempty (po_dedupId o) with
               | Some d => <[ARTEMIS_DUPL_ID := VStr d]> props | None => props end in
  match nonempty (po_groupId o) with Some g => <[ARTEMIS_GROUP_ID := VStr g]> props | None => props end.

Definition publish_message (t : Destination) (payload : string) (routingKey : option string)
    (o : PublishOptions) : Message := {|
  ms_body := VStr payload; ms_message_id := None; ms_annotations := ∅;
  ms_properties := Some (application_properties t routingKey o); ms_group_id := nonempty (po_groupId o);
  ms_priority := po_priority o; ms_reply_to := nonempty (po_replyTo o);
  ms_correlation_id := VStr <$> nonempty (po_correlationId o); ms_ttl := po_ttlMs o;
  ms_delivery_count := None |}.

Definition scheduled_message (payload : string) (deliverAt : Z) (id : string) : Message := {|
  ms_body := VStr payload; ms_message_id := None;
  ms_annotations := {[DELIVERY_TIME_ANNOTATION := deliverAt]};
  ms_properties := Some {[SCHEDULE_ID := VStr id]}; ms_group_id := None; ms_priority := None;
  ms_reply_to := None; ms_correlation_id := None; ms_ttl := None; ms_delivery_count := None |}.

(** ** Operations *)

Abbreviation ArtemisW := (Remote Cmd ArtemisAdapter).

(** A double quote as a string. *)
Definition dq : string := String (ascii_of_nat 34) "".

Section adapter.
Context `{ArtemisClient}.

Definition undefined_error : Error := OtherError "Cannot read properties of undefined".

(** What the library reports now. *)
Definition observe {A} (f : list Cmd → A) : M ArtemisW A := λ w, (inr (f (re_log w)), w).

Definition ensureConnection : M ArtemisW unit :=
  connection ← asks ar_connection;
  open ← observe connection_open;
  if connection && open then mret tt
  else
    cfg ← asks ar_cfg;
    _ ← update set_connection;
    call (OpenConnection (ac_host cfg) (ac_port cfg)).

Definition connect : M ArtemisW unit := ensureConnection.
Definition connectBus : M ArtemisW unit := ensureConnection.

(** [this.connection!.open_...]: a fresh link. *)
Definition open_link (c : nat → Cmd) : M ArtemisW nat :=
  connection ← asks ar_connection;
  if (connection : bool) then
    link ← asks ar_links;
    _ ← update next_link;
    _ ← call (c link);
    mret link
  else throw undefined_error.

(** The open sender cached under [address], if any. *)
Definition cached (senders : ArtemisAdapter → list (string * nat)) (address : string) :
    M ArtemisW (option nat) :=
  sender ← asks (λ a, map_get (senders a) address);
  match sender with
  | Some link => open ← observe (λ log, link_open log link); mret (if open : bool then Some link else None)
  | None => mret None
  end.

Definition getSender (d : Destination) : M ArtemisW nat :=
  let address := fqqn d in
  sender ← cached ar_senders address;
  match sender with
  | Some link => mret link
  | None =>
      link ← open_link (λ link, OpenSender link address "queue");
      _ ← update (set_sender address link);
      mret link
  end.

Definition getBusSender (address : Destination) : M ArtemisW nat :=
  sender ← cached ar_busSenders address;
  match sender with
  | Some link => mret link
  | None =>
      link ← open_link (λ link, OpenSender link address "topic");
      _ ← update (set_busSender address link);
      mret link
  end.

Definition sendNow (d : Destination) (payload : string) : M ArtemisW unit :=
  sender ← getSender d;
  call (SendMsg sender (plain_message payload)).

Definition schedule (d : Destination) (payload : string) (deliverAt : Z) : M ArtemisW ScheduleHandle :=
  t ← now;
  rand ← draw;
  let id := "art-" +:+ pretty t +:+ "-" +:+ rand in
  sender ← getSender d;
  _ ← call (SendMsg sender (scheduled_message payload deliverAt id));
  mret {| sh_id := id; sh_destination := d; sh_deliverAt := deliverAt |}.

(** ** Jolokia *)

(** [post]: a rejected request throws, otherwise the reply's [value]. *)
Definition post (c : Cmd) : M ArtemisW JsVal :=
  _ ← call c;
  observe jolokia_value.

Definition mbean_pattern (queueName : string) : string :=
  "org.apache.activemq.artemis:broker=*,component=addresses," +:+
  "address=" +:+ dq +:+ queueName +:+ dq +:+ ",subcomponent=queues,routing-type=" +:+ dq +:+ "anycast"
  +:+ dq +:+ "," +:+ "queue=" +:+ dq +:+ queueName +:+ dq.

Definition findQueueMBean (queueName : string) : M ArtemisW (option string) :=
  value ← post (JolokiaSearch (mbean_pattern queueName));
  mret match value with VArr (VStr mbean :: _) => nonempty (Some mbean) | _ => None end.

Definition listScheduledMessages (queueName : string) : M ArtemisW (list JsVal) :=
  mbean ← findQueueMBean queueName;
  match mbean with
  | None => mret []
  | Some mbean =>
      value ← post (JolokiaExec mbean "listScheduledMessages()" []);
      mret match value with VArr l => l | _ => [] end
  end.

Definition removeMessages (queueName filter : string) : M ArtemisW Z :=
  mbean ← findQueueMBean queueName;
  match mbean with
  | None => mret 0%Z
  | Some mbean =>
      value ← post (JolokiaExec mbean "removeMessages(java.lang.String)" [filter]);
      mret match value with VNum n => n | _ => 0%Z end
  end.

Definition cancel_filter (id : string) : string := SCHEDULE_ID +:+ " = '" +:+ id +:+ "'".

Definition cancel (h : ScheduleHandle) : M ArtemisW unit :=
  _ ← removeMessages (sh_destination h) (cancel_filter (sh_id h));
  mret tt.

(** [m[k]] on a listed message. *)
Definition field_of (k : string) (m : JsVal) : option JsVal :=
  match m with VObj fields => map_get fields k | _ => None end.

(** [a ?? b]. *)
Definition coalesce (a b : option JsVal) : option JsVal :=
  match a with None | Some VNull => b | _ => a end.

(** The delivery time Jolokia reports, a number. *)
Definition scheduled_info (d : Destination) (m : JsVal) : ScheduledInfo := {|
  si_id := id_of (coalesce (field_of SCHEDULE_ID m) (field_of "messageID" m)); si_destination := d;
  si_deliverAt := match field_of "scheduledDeliveryTime" m with
                  | Some (VNum t) => if decide (t = 0)%Z then None else Some t
                  | _ => None
                  end |}.

Definition listScheduled (d : Destination) : M ArtemisW (list ScheduledInfo) :=
  raw ← listScheduledMessages d;
  mret (scheduled_info d <$> raw).

(** ** Consuming *)

Definition consume (d : Destination) (handler : MessageHandler) : M ArtemisW nat :=
  open_link (λ link, OpenReceiver link (fqqn d) "queue" None true).

(** The [unsubscribe] of a subscription. *)
Definition close_receiver (link : nat) : M ArtemisW unit := call (CloseLink link).

Definition publish (t : Destination) (payload : string) (routingKey : option string)
    (o : PublishOptions) : M ArtemisW unit :=
  sender ← getBusSender t;
  call (SendMsg sender (publish_message t payload routingKey o)).

Definition selector_of (o : SubscribeOptions) : option string :=
  match default topic (so_kind o) with
  | topic => toSelector <$> nonempty (so_routingKey o)
  | fanout => None
  end.

Definition subscribe (t : Destination) (handler : AckHandler) (o : SubscribeOptions) : M ArtemisW nat :=
  subscriberId ← match so_subscriberId o with
                 | Some s => mret s
                 | None => rand ← draw; mret ("sub-" +:+ rand)
                 end;
  env ← asks ar_env;
  open_link (λ link, OpenReceiver link (source_address env t subscriberId (default false (so_transient o)))
    "topic" (selector_of o) false).

(** The [ack] and [nack] of [toIncoming]. *)
Definition settle (delivery : N) (s : Settlement) : M ArtemisW unit :=
  call match s with
       | Ack => Accept delivery
       | Nack true => Modified delivery true false
       | Nack false => Reject delivery
       end.

(** [onMessage] of a bus subscription. *)
Definition bus_message (delivery : N) (run : HandlerRun) : M ArtemisW unit := λ w,
  let '(r, sw) := deliver_isolated (settle delivery) run (false, w) in (r, sw.2).

(** The closes of [Symbol.asyncDispose], in order. *)
Fixpoint close_all (links : list nat) : M ArtemisW unit :=
  match links with [] => mret tt | l :: links' => _ ← call (CloseLink l); close_all links' end.

Definition asyncDispose : M ArtemisW unit :=
  senders ← asks ar_senders;
  _ ← close_all senders.*2;
  busSenders ← asks ar_busSenders;
  _ ← close_all busSenders.*2;
  connection ← asks ar_connection;
  when connection (call CloseConnection).

#[export] Instance artemis_IMessageScheduler : IMessageScheduler ArtemisW := {|
  sched_sub := nat; sched_name := artemis_name; sched_capabilities := artemis_capabilities;
  sched_connect := connect; sched_sendNow := sendNow; sched_schedule := schedule;
  sched_cancel := cancel; sched_listScheduled := listScheduled; sched_consume := consume;
  sched_unsubscribe := close_receiver;
  sched_dispose := asyncDispose |}.

#[export] Instance artemis_IMessageBus : IMessageBus ArtemisW := {|
  bus_sub := nat; bus_capabilities := artemis_bus_capabilities; bus_connectBus := connectBus;
  bus_publish := publish; bus_subscribe := subscribe; bus_unsubscribe := close_receiver |}.

#[export] Instance artemis_contract : SchedulerContract ArtemisW.
Proof. split; done. Qed.
End adapter.

(** ** Selectors

    SQL [LIKE]: ['%'] stands for any characters, ['_'] for one. *)
Fixpoint like (p k : string) : bool :=
  match p with
  | "" => match k with "" => true | String _ _ => false end
  | String a p' =>
      if decide (a = "%"%char) then
        (fix any (k : string) : bool :=
           if like p' k then true else match k with "" => false | String _ k' => any k' end) k
      else
        match k with
        | "" => false
        | String b k' => if decide (a = "_"%char ∨ a = b) then like p' k' else false
        end
  end.

(** What the broker's selectors mean for the forms the adapter writes: they compare a
    message property with a quoted literal, which holds no quote itself. *)
Fixpoint no_quote (s : string) : bool :=
  match s with "" => true | String a s' => bool_decide (a ≠ "'"%char) && no_quote s' end.

Class Selectors := {
  selects : string → gmap string JsVal → bool;
  selects_eq prop v props k :
    prop = ROUTING_KEY_PROP ∨ prop = SCHEDULE_ID → no_quote v = true → props !! prop = Some (VStr k) →
    selects (prop +:+ " = '" +:+ v +:+ "'") props = bool_decide (k = v);
  selects_like p props k :
    no_quote p = true → props !! ROUTING_KEY_PROP = Some (VStr k) →
    selects (ROUTING_KEY_PROP +:+ " LIKE '" +:+ p +:+ "'") props = like p k
}.

Lemma like_any p k : like (String "%" p) k = true ↔ ∃ s k', k = s +:+ k' ∧ like p k' = true.
Proof.
  simpl. split.
  - induction k as [|b k IH].
    + case_match; [|done]. intros _. by exists "", "".
    + case_match; [intros _; by exists "", (String b k)|].
      intros (s & k' & -> & ?)%IH. by exists (String b s), k'.
  - intros (s & k' & -> & Hl). induction s as [|b s IH]; sapp; simpl.
    + destruct k'; by rewrite Hl.
    + by case_match.
Qed.

Lemma like_char a p k : a ≠ "%"%char → like p k = true → like (String a p) (String a k) = true.
Proof. intros Ha Hl. simpl. rewrite decide_False by done. by rewrite decide_True by auto. Qed.

Lemma percent_app s t : percent (s +:+ t) = percent s +:+ percent t.
Proof. induction s as [|a s IH]; sapp; [done|]. simpl. by rewrite IH. Qed.

(** A literal word matches itself, wildcard characters included. *)
Lemma like_literal w p k : like p k = true → like (percent w +:+ p) (w +:+ k) = true.
Proof.
  intros Hl. induction w as [|a w IH]; [done|]. cbn [percent]. sapp.
  destruct (is_wildcard a) eqn:Ha.
  - apply like_any. by exists (String a ""), (w +:+ k).
  - destruct (decide (a = "%"%char)) as [->|Hne]; [|by apply like_char].
    apply like_any. by exists (String "%" ""), (w +:+ k).
Qed.

(** Without ["#"] words, a key that matches the pattern matches its [LIKE] form. *)
Lemma match_like p k :
  Forall (.≠ "#") p → p ≠ [] → match_ p k = true →
  like (percent (join_with dot p)) (join_with dot k) = true.
Proof.
  revert k. induction p as [|w p IH]; intros k Hp Hne Hm; [done|].
  apply Forall_cons in Hp as [Hw Hp]. destruct k as [|x k]; [by rewrite match_plain_nil in Hm|].
  apply match_plain in Hm as [Hx Hm]; [|done]. destruct p as [|w2 p].
  - destruct k; [|done]. simpl. destruct Hx as [->| ->].
    + apply (like_any "" x). exists x, "". by rewrite string_app_empty_r.
    + pose proof (like_literal x "" "" eq_refl) as Hl. by rewrite !string_app_empty_r in Hl.
  - assert (k ≠ []) as Hk by (intros ->; apply Forall_cons in Hp as [? _]; by rewrite match_plain_nil in Hm).
    specialize (IH k Hp ltac:(done) Hm). rewrite (join_cons dot w), (join_cons dot x k Hk), percent_app by done. cbn [percent].
    change (is_wildcard dot) with false.
    assert (Hd : like (String dot (percent (join_with dot (w2 :: p)))) (String dot (join_with dot k)) = true)
      by (by apply like_char).
    destruct Hx as [->| ->]; [|by apply like_literal].
    apply (like_any (String dot (percent (join_with dot (w2 :: p))))). by exists x, (String dot (join_with dot k)).
Qed.

Lemma has_wildcard_app s t : has_wildcard (s +:+ t) = has_wildcard s || has_wildcard t.
Proof. induction s as [|a s IH]; sapp; [done|]. simpl. by rewrite IH, orb_assoc. Qed.

Lemma no_wildcard_plain p : has_wildcard p = false → plain_key p.
Proof.
  unfold plain_key. rewrite <- (join_split dot p) at 1. induction (split_on dot p) as [|w ws IH]; [done|].
  destruct ws as [|w2 ws].
  - intros Hw. constructor; [|done]. split; intros ->; by vm_compute in Hw.
  - rewrite join_cons, has_wildcard_app by done. intros [Hw Hws]%orb_false_iff.
    constructor; [split; intros ->; by vm_compute in Hw|]. by apply IH.
Qed.

Lemma percent_no_quote s : no_quote s = true → no_quote (percent s) = true.
Proof.
  induction s as [|a s IH]; [done|]. simpl. rewrite !andb_true_iff. intros [Ha Hs]. split; [|auto].
  by destruct (is_wildcard a).
Qed.

(** A reader of the three forms of selector. *)
Fixpoint strip_prefix (p s : string) : option string :=
  match p, s with
  | "", _ => Some s
  | String a p', String b s' => if decide (a = b) then strip_prefix p' s' else None
  | _, "" => None
  end.

Fixpoint strip_last (s : string) : string :=
  match s with "" => "" | String a "" => "" | String a s' => String a (strip_last s') end.

Definition property_is (prop : string) (f : string → bool) (props : gmap string JsVal) : bool :=
  match props !! prop with Some (VStr k) => f k | _ => false end.

Definition read_selector (s : string) (props : gmap string JsVal) : bool :=
  match strip_prefix (ROUTING_KEY_PROP +:+ " = '") s with
  | Some v => property_is ROUTING_KEY_PROP (λ k, bool_decide (k = strip_last v)) props
  | None =>
      match strip_prefix (SCHEDULE_ID +:+ " = '") s with
      | Some v => property_is SCHEDULE_ID (λ k, bool_decide (k = strip_last v)) props
      | None =>
          match strip_prefix (ROUTING_KEY_PROP +:+ " LIKE '") s with
          | Some p => property_is ROUTING_KEY_PROP (like (strip_last p)) props
          | None => false
          end
      end
  end.

Lemma strip_prefix_app p s : strip_prefix p (p +:+ s) = Some s.
Proof. induction p as [|a p IH]; sapp; [by destruct s|]. simpl. by rewrite decide_True. Qed.

Lemma strip_last_app v : strip_last (v +:+ "'") = v.
Proof.
  induction v as [|a v IH]; sapp; [done|]. simpl. rewrite IH.
  destruct (v +:+ "'") eqn:E; [by destruct v|done].
Qed.

#[export] Instance demo_selectors : Selectors.
Proof.
  refine {| selects := read_selector |}.
  - intros prop v props k Hp _ Hk. unfold read_selector, property_is. destruct Hp as [->| ->].
    + rewrite <- (string_app_assoc ROUTING_KEY_PROP), strip_prefix_app, strip_last_app. by rewrite Hk.
    + rewrite <- (string_app_assoc SCHEDULE_ID). change (strip_prefix (ROUTING_KEY_PROP +:+ " = '") _) with (@None string).
      rewrite strip_prefix_app, strip_last_app. by rewrite Hk.
  - intros p props k _ Hk. unfold read_selector, property_is.
    rewrite <- (string_app_assoc ROUTING_KEY_PROP).
    change (strip_prefix (ROUTING_KEY_PROP +:+ " = '") _) with (@None string).
    change (strip_prefix (SCHEDULE_ID +:+ " = '") _) with (@None string).
    by rewrite strip_prefix_app, strip_last_app, Hk.
Defined.

(** ** Properties *)

(** C40: topic filters.  A subscription pattern without wildcards selects exactly the
    keys it matches, and one without ["#"] words selects every key it matches: the
    selector loses no message. *)
Theorem selector_sound `{Selectors} (pattern key : string) (props : gmap string JsVal) :
  no_quote pattern = true → props !! ROUTING_KEY_PROP = Some (VStr key) →
  (has_wildcard pattern = false → selects (toSelector pattern) props = topicMatch pattern key) ∧
  (Forall (.≠ "#") (split_on dot pattern) → topicMatch pattern key = true →
   selects (toSelector pattern) props = true).
Proof.
  intros Hq Hk. unfold toSelector.
  assert (Heq : has_wildcard pattern = false →
    selects (ROUTING_KEY_PROP +:+ " = '" +:+ pattern +:+ "'") props = topicMatch pattern key).
  { intros Hw. rewrite (selects_eq _ _ _ key) by auto. apply eq_true_iff_eq.
    rewrite bool_decide_eq_true. unfold topicMatch. rewrite match_plain_eq by (by apply no_wildcard_plain).
    split; [by intros ->|]. intros E. symmetry. by eapply split_on_inj. }
  split; [intros Hw; rewrite Hw; by apply Heq|]. intros Hp Hm.
  destruct (has_wildcard pattern) eqn:Hw; [|by rewrite Heq].
  rewrite (selects_like _ _ key) by (by auto using percent_no_quote).
  rewrite <- (join_split dot pattern), <- (join_split dot key).
  apply match_like; [done|apply split_on_not_nil|exact Hm].
Qed.

Lemma selector_sound_witness :
  let props : gmap string JsVal := {[ROUTING_KEY_PROP := VStr "order.created"]} in
  (has_wildcard "order.*" = false → selects (toSelector "order.*") props = topicMatch "order.*" "order.created") ∧
  (Forall (.≠ "#") (split_on dot "order.*") → topicMatch "order.*" "order.created" = true →
   selects (toSelector "order.*") props = true).
Proof. apply (selector_sound "order.*" "order.created"); reflexivity. Defined.

(** the selector is not the topic pattern.  ["order.#"] matches the key ["order"]
    but its selector rejects it; ["order.*"] does not match ["order.eu.new"] but its
    selector accepts it, as it accepts everything ["order.#"] selects. *)
Theorem selector_is_not_topic_match `{Selectors} :
  let routed k : gmap string JsVal := {[ROUTING_KEY_PROP := VStr k]} in
  (topicMatch "order.#" "order" = true ∧ selects (toSelector "order.#") (routed "order") = false) ∧
  (topicMatch "order.*" "order.eu.new" = false ∧ selects (toSelector "order.*") (routed "order.eu.new") = true) ∧
  toSelector "order.*" = toSelector "order.#".
Proof.
  intros routed. assert (Hr : ∀ k, routed k !! ROUTING_KEY_PROP = Some (VStr k))
    by (intros; apply lookup_singleton_eq).
  assert (Hl : ∀ k, selects (ROUTING_KEY_PROP +:+ " LIKE '" +:+ "order.%" +:+ "'") (routed k) = like "order.%" k)
    by (intros; by apply selects_like).
  change (toSelector "order.#") with (ROUTING_KEY_PROP +:+ " LIKE '" +:+ "order.%" +:+ "'").
  change (toSelector "order.*") with (ROUTING_KEY_PROP +:+ " LIKE '" +:+ "order.%" +:+ "'").
  by rewrite !Hl.
Qed.

(** Dead-letter subscriptions of different topics with one subscriber id are the same
    queue: each gets only some of its own dead letters, and some of the other's. *)
Theorem dlq_subscriptions_shared env s transient :
  source_address env (deadLetterAddress "orders") s transient =
  source_address env (deadLetterAddress "billing") s transient.
Proof. reflexivity. Qed.

(** A message header named "routingKey" replaces the routing key of the publish. *)
Theorem header_replaces_routing_key t routingKey v :
  application_properties t routingKey
    {| po_priority := None; po_groupId := None; po_dedupId := None; po_replyTo := None;
       po_correlationId := None; po_ttlMs := None; po_headers := Some {[ROUTING_KEY_PROP := v]} |}
    !! ROUTING_KEY_PROP = Some (VStr v).
Proof. unfold application_properties. simpl. by rewrite map_fmap_singleton, lookup_union_l', lookup_singleton_eq. Qed.

Definition runs_to `{ArtemisClient} {A} (m : M ArtemisW A) (w : ArtemisW) (a : A) (w' : ArtemisW) : Prop :=
  m w = (inr a, w').

Lemma bind_inv `{ArtemisClient} {A B} (m : M ArtemisW A) (k : A → M ArtemisW B) w b w' :
  runs_to (m ≫= k) w b w' → ∃ a w1, runs_to m w a w1 ∧ runs_to (k a) w1 b w'.
Proof.
  unfold runs_to, mbind, M_bind. destruct (m w) as [[e|a] w1]; [done|]. intros Hk. by exists a, w1.
Qed.

Lemma call_inv `{ArtemisClient} c (w : ArtemisW) u w' : runs_to (call c) w u w' → w' = push c w.
Proof. unfold runs_to, call. destruct (answer (re_log w) c); [done|]. by intros [= _ <-]. Qed.

(** cancellation by id.  [schedule] sends a message that carries the id of its
    handle, and [cancel] of that handle asks the queue to remove exactly the messages
    that carry this id; it asks nothing when the queue does not exist. *)
Theorem cancel_targets_schedule `{ArtemisClient} `{Selectors} (d payload : string) (deliverAt : Z)
    (h : ScheduleHandle) (w w1 w2 w3 : ArtemisW) :
  schedule d payload deliverAt w = (inr h, w1) → cancel h w2 = (inr tt, w3) →
  no_quote (sh_id h) = true →
  (∃ link m props, last (re_log w1) = Some (SendMsg link m) ∧ ms_properties m = Some props ∧
     props !! SCHEDULE_ID = Some (VStr (sh_id h)) ∧
     ms_annotations m !! DELIVERY_TIME_ANNOTATION = Some deliverAt) ∧
  let search := JolokiaSearch (mbean_pattern d) in
  (re_log w3 = re_log w2 ++ [search] ∨
   ∃ mbean f, re_log w3 = re_log w2 ++ [search; JolokiaExec mbean "removeMessages(java.lang.String)" [f]] ∧
     ∀ props id, props !! SCHEDULE_ID = Some (VStr id) → selects f props = bool_decide (id = sh_id h)).
Proof.
  intros Hs Hc Hq. split.
  - apply bind_inv in Hs as (t & wa & Ha & Hs). apply bind_inv in Hs as (rand & wb & Hb & Hs).
    apply bind_inv in Hs as (sender & wc & _ & Hs). apply bind_inv in Hs as ([] & wd & Hsend & Hs).
    apply call_inv in Hsend. injection Hs as <- <-. rewrite Hsend. simpl.
    eexists sender, _, _. rewrite last_app. split; [reflexivity|]. split; [reflexivity|].
    split; apply lookup_singleton_eq.
  - assert (Hd : sh_destination h = d).
    { apply bind_inv in Hs as (t & wa & Ha & Hs). apply bind_inv in Hs as (rand & wb & Hb & Hs).
      apply bind_inv in Hs as (sender & wc & _ & Hs). apply bind_inv in Hs as ([] & wd & Hsend & Hs).
      by injection Hs as <- <-. }
    intros search. apply bind_inv in Hc as (n & wa & Hrm & Hc). injection Hc as ->.
    unfold removeMessages in Hrm. apply bind_inv in Hrm as (mb & wb & Hf & Hrm).
    apply bind_inv in Hf as (value & wc & Hp & Hf). apply bind_inv in Hp as ([] & wd & Hcall & Hp).
    apply call_inv in Hcall. injection Hp as _ <-. injection Hf as Hmb <-. rewrite Hd in Hcall.
    destruct mb as [mbean|]; [|injection Hrm as _ <-; left; by rewrite Hcall].
    right. apply bind_inv in Hrm as (v2 & we & Hp2 & Hrm). apply bind_inv in Hp2 as ([] & wf & Hcall2 & Hp2).
    apply call_inv in Hcall2. injection Hp2 as _ <-. injection Hrm as _ <-.
    exists mbean, (cancel_filter (sh_id h)). rewrite Hcall2, Hcall. simpl. rewrite <- app_assoc.
    split; [done|]. intros props id Hid. by apply (selects_eq SCHEDULE_ID); auto.
Qed.

(** A broker that accepts every call and finds every queue. *)
#[export] Instance demo_artemis : ArtemisClient := {|
  rhea := {| answer := λ _ _, None; random6 := λ n, pretty n |};
  connection_open := λ _, true;
  link_open := λ _ _, true;
  jolokia_value := λ log, match last log with
                          | Some (JolokiaSearch _) => VArr [VStr "queue-mbean"]
                          | _ => VNum 1
                          end |}.

Definition demo_artemis_state : ArtemisW := {|
  re_self := set_connection (new_ArtemisScheduler
    {| ac_host := "localhost"; ac_port := of_Z 5672; ac_username := "admin"; ac_password := "admin";
       ac_jolokiaUrl := "http://localhost:8161/console/jolokia" |} (λ _, None));
  re_log := []; re_now := 1000; re_draws := 7 |}.

Definition demo_handle : ScheduleHandle :=
  {| sh_id := "art-1000-7"; sh_destination := "reminders"; sh_deliverAt := 61000 |}.

Lemma cancel_targets_schedule_witness :
  let w1 := (schedule "reminders" "tea" 61000 demo_artemis_state).2 in
  let w3 := (cancel demo_handle w1).2 in
  (∃ link m props, last (re_log w1) = Some (SendMsg link m) ∧ ms_properties m = Some props ∧
     props !! SCHEDULE_ID = Some (VStr "art-1000-7") ∧
     ms_annotations m !! DELIVERY_TIME_ANNOTATION = Some 61000%Z) ∧
  let search := JolokiaSearch (mbean_pattern "reminders") in
  (re_log w3 = re_log w1 ++ [search] ∨
   ∃ mbean f, re_log w3 = re_log w1 ++ [search; JolokiaExec mbean "removeMessages(java.lang.String)" [f]] ∧
     ∀ props id, props !! SCHEDULE_ID = Some (VStr id) → selects f props = bool_decide (id = "art-1000-7")).
Proof.
  apply (cancel_targets_schedule "reminders" "tea" 61000 demo_handle demo_artemis_state
    (schedule "reminders" "tea" 61000 demo_artemis_state).2
    (schedule "reminders" "tea" 61000 demo_artemis_state).2
    (cancel demo_handle (schedule "reminders" "tea" 61000 demo_artemis_state).2).2);
    vm_compute; reflexivity.
Defined.
