(* ===== verification/Isolation.v ===== *)
(** Fault isolation (S20) of the three remote adapters: one interface, [isolated], and
    their delivery callbacks as its instances. *)

From S2P Require Import Prelude Abstractions Ports Client.
From S2P Require RabbitMq RabbitMqProofs Kafka Artemis.

(** The calls that settle a message. *)
Definition rabbit_settles (c : RabbitMq.Cmd) : bool :=
  match c with RabbitMq.AckMsg _ _ | RabbitMq.NackMsg _ _ _ => true | _ => false end.

Definition kafka_settles (c : Kafka.Cmd) : bool :=
  match c with Kafka.CommitOffsets _ _ _ _ | Kafka.Seek _ _ _ _ => true | _ => false end.

Definition artemis_settles (c : Artemis.Cmd) : bool :=
  match c with Artemis.Accept _ | Artemis.Modified _ _ _ | Artemis.Reject _ => true | _ => false end.

Lemma rabbit_stream_isolated `{Client RabbitMq.Cmd} c msg :
  RabbitMq.cs_callback c = RabbitMq.Stream →
  isolated (RabbitMq.on_message c (Some msg)) (RabbitMq.stream_settle (RabbitMq.cs_channel c) msg) rabbit_settles.
Proof.
  intros Hc. split; [|intros s w; by apply call_settles_once].
  intros run w. unfold RabbitMq.on_message. rewrite Hc. apply RabbitMqProofs.settled_run_eq.
Qed.

Lemma rabbit_bus_isolated `{Client RabbitMq.Cmd} c msg retry :
  RabbitMq.cs_callback c = RabbitMq.Bus retry →
  isolated (RabbitMq.on_message c (Some msg)) (RabbitMq.bus_settle (RabbitMq.cs_channel c) msg retry) rabbit_settles.
Proof.
  intros Hc. split.
  - intros run w. unfold RabbitMq.on_message. rewrite Hc. apply RabbitMqProofs.settled_run_eq.
  - intros s w. apply RabbitMqProofs.bus_settle_grows.
Qed.

Lemma kafka_isolated `{Client Kafka.Cmd} consumer p :
  isolated (Kafka.bus_message consumer p) (Kafka.settle consumer p) kafka_settles.
Proof.
  split; [intros run w; apply Kafka.bus_message_eq|].
  intros [|[]] w; apply call_settles_once.
Qed.

Lemma artemis_isolated `{Artemis.ArtemisClient} delivery :
  isolated (Artemis.bus_message delivery) (Artemis.settle delivery) artemis_settles.
Proof.
  split; [|intros s w; apply call_settles_once].
  intros run w. unfold Artemis.bus_message. rewrite deliver_isolated_eq. by destruct (first_settlement run).
Qed.

(** C38: fault isolation (S20) of every remote adapter.  Whatever a bus handler does with
    a message (settle it once, several times, never, throw before or after settling),
    and whichever calls the client library rejects, the delivery callback of RabbitMQ,
    of Kafka and of Artemis does not throw; all it does to the broker is the handler's
    first settlement, or one requeue when the handler throws without any; and the
    message is settled at most once. *)
Theorem handler_faults_contained `{Client RabbitMq.Cmd} `{Client Kafka.Cmd} `{Artemis.ArtemisClient} :
  (∀ c msg,
    match RabbitMq.cs_callback c with
    | RabbitMq.Scheduled => True
    | RabbitMq.Stream =>
        isolated (RabbitMq.on_message c (Some msg)) (RabbitMq.stream_settle (RabbitMq.cs_channel c) msg) rabbit_settles
    | RabbitMq.Bus retry =>
        isolated (RabbitMq.on_message c (Some msg)) (RabbitMq.bus_settle (RabbitMq.cs_channel c) msg retry) rabbit_settles
    end) ∧
  (∀ consumer p, isolated (Kafka.bus_message consumer p) (Kafka.settle consumer p) kafka_settles) ∧
  (∀ delivery, isolated (Artemis.bus_message delivery) (Artemis.settle delivery) artemis_settles).
Proof.
  split; [|split; [apply kafka_isolated|apply artemis_isolated]].
  intros c msg. destruct (RabbitMq.cs_callback c) eqn:Hc; [done|by apply rabbit_stream_isolated|by apply rabbit_bus_isolated].
Qed.
