(* ===== verification/EventLoop.v ===== *)
(** The Node event loop the scenarios run in (scenarios/scenario.ts): the clock, the
    turns queued by an [await] or by an adapter, timers, and the message handlers whose
    closures share variables with the scenario that created them.

    An adapter whose bus calls handlers does so through the class [BusHost]: its queued
    microtasks, its timers, and the settlement of a delivery.  The loop is first in,
    first out: an [await] of the scenario or of a handler resumes after the turns that
    were queued before it, timers run in the order they fall due, and only when no turn
    is left. *)

From stdpp Require Import pretty.
From S2P Require Import Prelude Abstractions Ports Client InMemoryBus InMemoryScheduler Idempotency.
From Stdlib Require Import Ascii.

(** ** Variables and handler bodies *)

(** The values of the variables that closures share. *)
Inductive Val :=
  | UNum (n : Z)
  | UNums (l : list (option Z))            (* [None]: NaN *)
  | UStrs (l : list string)                (* an array or a [Set] of strings *)
  | UPairs (l : list (string * option Z))  (* an array of pairs, or a [Map] *)
  | UMsgs (l : list IncomingMessage)
  | UStore (s : InMemoryIdempotencyStore).

(** A variable that is absent is [undefined]. *)
Abbreviation Vars := (gmap string Val).

Definition num (x : string) (vs : Vars) : option Z :=
  match vs !! x with Some (UNum n) => Some n | _ => None end.
Definition nums (x : string) (vs : Vars) : list (option Z) :=
  match vs !! x with Some (UNums l) => l | _ => [] end.
Definition strs (x : string) (vs : Vars) : list string :=
  match vs !! x with Some (UStrs l) => l | _ => [] end.
Definition pairs (x : string) (vs : Vars) : list (string * option Z) :=
  match vs !! x with Some (UPairs l) => l | _ => [] end.
Definition msgs (x : string) (vs : Vars) : list IncomingMessage :=
  match vs !! x with Some (UMsgs l) => l | _ => [] end.

(** [x = n], [x += 1] and [array.push(v)]. *)
Definition assign (x : string) (v : Val) (vs : Vars) : Vars := <[x := v]> vs.
Definition assign_opt (x : string) (v : option Z) (vs : Vars) : Vars :=
  match v with Some n => <[x := UNum n]> vs | None => delete x vs end.
Definition incr (x : string) (vs : Vars) : Vars := <[x := UNum (default 0%Z (num x vs) + 1)]> vs.
Definition push_num (x : string) (n : option Z) (vs : Vars) : Vars := <[x := UNums (nums x vs ++ [n])]> vs.
Definition push_str (x s : string) (vs : Vars) : Vars := <[x := UStrs (strs x vs ++ [s])]> vs.
Definition push_pair (x : string) (p : string * option Z) (vs : Vars) : Vars :=
  <[x := UPairs (pairs x vs ++ [p])]> vs.
Definition push_msg (x : string) (m : IncomingMessage) (vs : Vars) : Vars :=
  <[x := UMsgs (msgs x vs ++ [m])]> vs.

(** What a handler may await. *)
Inductive Awaited :=
  | Settling (s : Settlement)                         (* [m.ack()], [m.nack(requeue)] *)
  | Publishing (topic : Destination) (body : string) (routingKey : option string) (options : PublishOptions)
  | Sleeping (ms : Z)                                 (* [delay(ms)] *)
  | Disposing                                         (* [bus[Symbol.asyncDispose]()] *)
  | Ticking.                                          (* a promise already resolved *)

(** The body of an async handler: statements over the shared variables, awaits (with
    the error of a rejected promise), and its end. *)
Inductive Body :=
  | Return
  | Raise (e : Error)
  | Do (f : Vars → Vars) (k : Vars → Body)
  | Clock (k : Z → Body)
  | Await (c : Awaited) (k : option Error → Body).

(** An [await] outside any [try]. *)
Definition plainly (k : Body) (r : option Error) : Body :=
  match r with None => k | Some e => Raise e end.

(** ** The world *)

Record Thread := { th_delivery : nat; th_body : Body }.

Inductive Turn := AdapterTurn | ThreadTurn (t : Thread).

Record Loop := {
  lp_vars : Vars;
  lp_bodies : list (AckHandler * (IncomingMessage → Body));
  lp_ready : list Turn;
  lp_sleeping : list (Z * Thread);  (* due time *)
  lp_due : list Z                   (* due times of the adapter's timers *)
}.

Definition new_Loop : Loop := {|
  lp_vars := ∅; lp_bodies := []; lp_ready := []; lp_sleeping := []; lp_due := [] |}.

(** The clock of an adapter's world, what happens while some milliseconds pass outside
    the loop below, and the messages a scheduler-port handler was called with. *)
Class Timed (W : Type) := {
  clock : W → Z;
  elapse : Z → W → W;
  handled : W → MessageHandler → list ReceivedMessage;
  elapse_clock ms w : (clock w + ms ≤ clock (elapse ms w))%Z
}.

(** The module variable [counter], the handler objects created so far, the adapter, and
    the event loop. *)
Record World (W : Type) := {
  wd_counter : nat;
  wd_handlers : nat;
  wd_adapter : W;
  wd_loop : Loop
}.
Arguments wd_counter {W}.
Arguments wd_handlers {W}.
Arguments wd_adapter {W}.
Arguments wd_loop {W}.

Definition world {W} (a : W) : World W :=
  {| wd_counter := 0; wd_handlers := 0; wd_adapter := a; wd_loop := new_Loop |}.

Definition put_adapter {W} (a : W) (w : World W) : World W := {|
  wd_counter := wd_counter w; wd_handlers := wd_handlers w; wd_adapter := a; wd_loop := wd_loop w |}.

Definition put_loop {W} (l : Loop) (w : World W) : World W := {|
  wd_counter := wd_counter w; wd_handlers := wd_handlers w; wd_adapter := wd_adapter w; wd_loop := l |}.

Definition vars_of {W} (w : World W) : Vars := lp_vars (wd_loop w).

Definition put_vars {W} (vs : Vars) (w : World W) : World W :=
  let l := wd_loop w in
  put_loop {| lp_vars := vs; lp_bodies := lp_bodies l; lp_ready := lp_ready l;
              lp_sleeping := lp_sleeping l; lp_due := lp_due l |} w.

Definition put_ready {W} (r : list Turn) (w : World W) : World W :=
  let l := wd_loop w in
  put_loop {| lp_vars := lp_vars l; lp_bodies := lp_bodies l; lp_ready := r;
              lp_sleeping := lp_sleeping l; lp_due := lp_due l |} w.

Definition put_timers {W} (s : list (Z * Thread)) (d : list Z) (w : World W) : World W :=
  let l := wd_loop w in
  put_loop {| lp_vars := lp_vars l; lp_bodies := lp_bodies l; lp_ready := lp_ready l;
              lp_sleeping := s; lp_due := d |} w.

Definition add_body {W} (h : AckHandler) (f : IncomingMessage → Body) (w : World W) : World W :=
  let l := wd_loop w in
  put_loop {| lp_vars := lp_vars l; lp_bodies := lp_bodies l ++ [(h, f)]; lp_ready := lp_ready l;
              lp_sleeping := lp_sleeping l; lp_due := lp_due l |} w.

(** ** An adapter in the loop *)

(** [host_turn] runs the adapter's next microtask, which may call a handler with a
    message (and the number of the delivery); [host_timers] are the delays of the
    adapter's armed timers, a new one at the end. *)
Class BusHost (W : Type) `{Timed W} `{IMessageBus W} := {
  host_microtasks : W → nat;
  host_turn : W → option (nat * AckHandler * IncomingMessage) * W;
  host_settle : nat → Settlement → M W unit;
  host_dispose : M W unit;
  host_finished : nat → option Error → W → W;
  host_timers : W → list Z;
  host_fire : nat → W → W;
  host_advance : Z → W → W
}.

Section loop.
Context {W : Type} `{BusHost W}.

Definition is_adapter_turn (t : Turn) : bool := match t with AdapterTurn => true | ThreadTurn _ => false end.

(** Queue the microtasks and arm the timers an adapter call left. *)
Definition sync (w : World W) : World W :=
  let l := wd_loop w in
  let queued := length (filter is_adapter_turn (lp_ready l)) in
  let fresh := drop (length (lp_due l)) (host_timers (wd_adapter w)) in
  put_loop {| lp_vars := lp_vars l; lp_bodies := lp_bodies l;
              lp_ready := lp_ready l ++ replicate (host_microtasks (wd_adapter w) - queued) AdapterTurn;
              lp_sleeping := lp_sleeping l;
              lp_due := lp_due l ++ ((λ d, clock (wd_adapter w) + timer_delay d)%Z <$> fresh) |} w.

(** A call on the adapter. *)
Definition on {A} (m : M W A) : M (World W) A := lift wd_adapter put_adapter m.

Definition error_of {A} (r : Error + A) : option Error := match r with inl e => Some e | inr _ => None end.

Definition enqueue (t : Turn) (w : World W) : World W := put_ready (lp_ready (wd_loop w) ++ [t]) w.

(** Run a handler's body up to its next await. *)
Fixpoint run_body (d : nat) (b : Body) (w : World W) : World W :=
  match b with
  | Return => sync (put_adapter (host_finished d None (wd_adapter w)) w)
  | Raise e => sync (put_adapter (host_finished d (Some e) (wd_adapter w)) w)
  | Do f k => let vs := f (vars_of w) in run_body d (k vs) (put_vars vs w)
  | Clock k => run_body d (k (clock (wd_adapter w))) w
  | Await (Settling s) k =>
      let '(r, w) := on (host_settle d s) w in
      enqueue (ThreadTurn {| th_delivery := d; th_body := k (error_of r) |}) (sync w)
  | Await (Publishing t b rk o) k =>
      let '(r, w) := on (bus_publish t b rk o) w in
      enqueue (ThreadTurn {| th_delivery := d; th_body := k (error_of r) |}) (sync w)
  | Await Disposing k =>
      let '(r, w) := on host_dispose w in
      enqueue (ThreadTurn {| th_delivery := d; th_body := k (error_of r) |}) (sync w)
  | Await (Sleeping ms) k =>
      let l := wd_loop w in
      put_timers (lp_sleeping l ++ [((clock (wd_adapter w) + timer_delay ms)%Z,
                                     {| th_delivery := d; th_body := k None |})]) (lp_due l) w
  | Await Ticking k => enqueue (ThreadTurn {| th_delivery := d; th_body := k None |}) w
  end.

(** The body of a handler: the newest one registered under its identity. *)
Definition body_of (h : AckHandler) (w : World W) : option (IncomingMessage → Body) :=
  snd <$> last (filter (λ p, p.1 = h) (lp_bodies (wd_loop w))).

(** One turn of the queue. *)
Definition take_turn (w : World W) : World W :=
  match lp_ready (wd_loop w) with
  | [] => w
  | ThreadTurn t :: rest => run_body (th_delivery t) (th_body t) (put_ready rest w)
  | AdapterTurn :: rest =>
      let w := put_ready rest w in
      let '(call, a) := host_turn (wd_adapter w) in
      let w := sync (put_adapter a w) in
      match call with
      | Some (d, h, m) =>
          match body_of h w with
          | Some f => run_body d (f m) w
          | None => w
          end
      | None => w
      end
  end.

Fixpoint turns (n : nat) (w : World W) : World W :=
  match n with 0 => w | S n => turns n (take_turn w) end.

(** Resume after the turns queued so far. *)
Definition tick (w : World W) : World W := turns (length (lp_ready (wd_loop w))) w.

(** [await adapter.call(...)] in the scenario. *)
Definition awaiting {A} (m : M W A) : M (World W) A := λ w,
  let '(r, w) := on m w in (r, tick (sync w)).

(** The earliest entry of a list of due times, the first among equals. *)
Fixpoint earliest (l : list Z) : option (nat * Z) :=
  match l with
  | [] => None
  | t :: l' =>
      match earliest l' with
      | Some (i, t') => if decide (t' < t)%Z then Some (S i, t') else Some (0, t)
      | None => Some (0, t)
      end
  end.

Inductive TimerEvent := AdapterTimer (i : nat) | Wake (i : nat).

Definition next_event (w : World W) : option (TimerEvent * Z) :=
  let l := wd_loop w in
  match earliest (lp_due l), earliest (fst <$> lp_sleeping l) with
  | Some (i, t), Some (j, u) => if decide (u < t)%Z then Some (Wake j, u) else Some (AdapterTimer i, t)
  | Some (i, t), None => Some (AdapterTimer i, t)
  | None, Some (j, u) => Some (Wake j, u)
  | None, None => None
  end.

Definition advance_to (t : Z) (w : World W) : World W :=
  put_adapter (host_advance (t - clock (wd_adapter w)) (wd_adapter w)) w.

(** A timer callback. *)
Definition fire_event (e : TimerEvent) (w : World W) : World W :=
  let l := wd_loop w in
  match e with
  | AdapterTimer i =>
      sync (put_adapter (host_fire i (wd_adapter w)) (put_timers (lp_sleeping l) (delete i (lp_due l)) w))
  | Wake i =>
      match lp_sleeping l !! i with
      | Some (_, t) => run_body (th_delivery t) (th_body t) (put_timers (delete i (lp_sleeping l)) (lp_due l) w)
      | None => w
      end
  end.

(** Run turns and timers up to a time, cut off after [fuel] of them. *)
Fixpoint run_until (fuel : nat) (deadline : Z) (w : World W) : option (World W) :=
  match fuel with
  | 0 => None
  | S fuel =>
      match lp_ready (wd_loop w) with
      | _ :: _ => run_until fuel deadline (take_turn w)
      | [] =>
          match next_event w with
          | Some (e, t) =>
              if decide (t ≤ deadline)%Z then run_until fuel deadline (fire_event e (advance_to t w))
              else Some (advance_to deadline w)
          | None => Some (advance_to deadline w)
          end
      end
  end.

Definition loop_fuel : nat := 1000.

(** [await delay(ms)] in the scenario; it throws when the loop is cut off. *)
Definition sleep (ms : Z) : M (World W) unit := λ w,
  match run_until loop_fuel (clock (wd_adapter w) + timer_delay ms) w with
  | Some w' => (inr tt, w')
  | None => (inl (OtherError "event loop still busy"), w)
  end.
End loop.

(** ** The helpers of the scenarios *)

(** The base-36 digits of [Number.prototype.toString(36)]. *)
Definition digit36 (d : N) : ascii :=
  ascii_of_N (if decide (d < 10)%N then 48 + d else 87 + d).

Fixpoint base36_aux (fuel : nat) (n : N) (acc : string) : string :=
  match fuel with
  | 0 => acc
  | S fuel =>
      let acc := String (digit36 (n mod 36)) acc in
      if decide (n / 36 = 0)%N then acc else base36_aux fuel (n / 36) acc
  end.

Definition base36 (n : Z) : string := base36_aux (S (N.size_nat (Z.to_N n))) (Z.to_N n) "".

Section helpers.
Context {W : Type} `{Timed W} (random6 : nat → string).

Definition time : M (World W) Z := λ w, (inr (clock (wd_adapter w)), w).

Definition nonce : M (World W) string := λ w,
  let counter := S (wd_counter w) in
  (inr (base36 (clock (wd_adapter w)) +:+ "-" +:+ pretty counter +:+ "-" +:+ random6 counter),
   {| wd_counter := counter; wd_handlers := wd_handlers w; wd_adapter := wd_adapter w; wd_loop := wd_loop w |}).

Definition delay (ms : Z) : M (World W) unit := λ w, (inr tt, put_adapter (elapse ms (wd_adapter w)) w).

(** The loop of [waitUntil], cut off after [fuel] rounds; [pause] is [delay] in the
    scheduling scenarios and [sleep] in those of the bus. *)
Fixpoint wait_loop (pause : Z → M (World W) unit) (fuel : nat) (predicate : World W → bool)
    (deadline intervalMs : Z) : M (World W) bool := λ w,
  match fuel with
  | 0 => (inr (predicate w), w)
  | S fuel =>
      if decide (clock (wd_adapter w) < deadline)%Z then
        if predicate w then (inr true, w)
        else (_ ← pause intervalMs; wait_loop pause fuel predicate deadline intervalMs) w
      else (inr (predicate w), w)
  end.

(** The rounds [waitUntil] can make. *)
Definition wait_fuel (timeoutMs intervalMs : Z) : nat := S (Z.to_nat (timeoutMs / intervalMs + 1)).

Definition waitUntil (pause : Z → M (World W) unit) (predicate : World W → bool)
    (timeoutMs intervalMs : Z) : M (World W) bool :=
  t ← time;
  wait_loop pause (wait_fuel timeoutMs intervalMs) predicate (t + timeoutMs) intervalMs.
End helpers.
