(* ===== verification/Scenarios.v ===== *)
(** The scheduling scenarios S1-S4 (scenarios/s1-immediate.ts to s4-list.ts), as
    programs over any implementation of the scheduler port.

    Time and deliveries come from the world the adapter lives in (class [Timed] of
    EventLoop.v). *)

From stdpp Require Import pretty.
From S2P Require Import Prelude Abstractions Ports Client Kafka InMemoryBus InMemoryScheduler EventLoop.
From Stdlib Require Import Ascii.

(** ** Results *)

Inductive ScenarioStatus := pass | fail | unsupported | skipped.
#[export] Instance ScenarioStatus_eq_dec : EqDecision ScenarioStatus.
Proof. solve_decision. Defined.

Record ScenarioResult := {
  sr_name : string;
  sr_status : ScenarioStatus;
  sr_detail : string;
  sr_durationMs : Z
}.

(** ** Reporting *)

Section helpers.
Context {W : Type} `{Timed W} (random6 : nat → string).

(** [pass], [fail] and [unsupported]. *)
Definition result (status : ScenarioStatus) (name detail : string) (t0 : Z) : M (World W) ScenarioResult :=
  t ← time;
  mret {| sr_name := name; sr_status := status; sr_detail := detail; sr_durationMs := (t - t0)%Z |}.

(** ** Collectors *)

Record MessageCollector `{IMessageScheduler W} := { mc_handler : MessageHandler; mc_sub : sched_sub }.

Definition start_collector `{IMessageScheduler W} (destination : string) : M (World W) MessageCollector := λ w,
  let h := wd_handlers w in
  let '(r, w) := on (sched_consume destination h)
    {| wd_counter := wd_counter w; wd_handlers := S h; wd_adapter := wd_adapter w; wd_loop := wd_loop w |} in
  (match r with inr sub => inr {| mc_handler := h; mc_sub := sub |} | inl e => inl e end, w).

Definition bodies `{IMessageScheduler W} (c : MessageCollector) (w : World W) : list string :=
  rm_body <$> handled (wd_adapter w) (mc_handler c).

(** [collector.bodies().includes(token)]. *)
Definition collected `{IMessageScheduler W} (c : MessageCollector) (token : string) (w : World W) : bool :=
  bool_decide (token ∈ bodies c w).

Definition stop_collector `{IMessageScheduler W} (c : MessageCollector) : M (World W) unit :=
  on (sched_unsubscribe (mc_sub c)).

(** ** The scenarios *)

Context `{IMessageScheduler W}.

Definition DELAY_MS : Z := 3000.

Definition s1_name : string := "S1 immediate send/receive".

Definition immediateDelivery : M (World W) ScenarioResult :=
  t0 ← time;
  n ← nonce random6;
  let dest := "mbc.s1." +:+ n in
  n ← nonce random6;
  let token := "now-" +:+ n in
  collector ← start_collector dest;
  finally (
    _ ← on (sched_sendNow dest token);
    got ← waitUntil delay (collected collector token) 5000 50;
    if (got : bool) then result pass s1_name "delivered immediately" t0
    else result fail s1_name "message never arrived within 5s" t0)
    (stop_collector collector).

Definition s2_name : string := "S2 scheduled delivery".

Definition scheduledDelivery : M (World W) ScenarioResult :=
  t0 ← time;
  n ← nonce random6;
  let dest := "mbc.s2." +:+ n in
  n ← nonce random6;
  let token := "sched-" +:+ n in
  collector ← start_collector dest;
  finally (
    t ← time;
    _ ← on (sched_schedule dest token (t + DELAY_MS));
    _ ← delay 1200;
    early ← (λ w, (inr (collected collector token w), w));
    if (early : bool) then result fail s2_name "message delivered early (not withheld)" t0
    else
      arrived ← waitUntil delay (collected collector token) (DELAY_MS + 4000) 50;
      if (arrived : bool)
      then result pass s2_name ("withheld then delivered after ~" +:+ pretty DELAY_MS +:+ "ms") t0
      else result fail s2_name "scheduled message never arrived" t0)
    (stop_collector collector).

Definition s3_name : string := "S3 cancel scheduled".

Definition cancelScheduled : M (World W) ScenarioResult :=
  t0 ← time;
  n ← nonce random6;
  let dest := "mbc.s3." +:+ n in
  n ← nonce random6;
  let token := "cancel-" +:+ n in
  collector ← start_collector dest;
  finally (
    t ← time;
    handle ← on (sched_schedule dest token (t + DELAY_MS));
    gap ← try_catch (_ ← on (sched_cancel handle); mret false)
            (λ e, if is_NotSupported e then mret true else throw e);
    if (gap : bool) then result unsupported s3_name "no cancel API on this broker" t0
    else
      _ ← delay (DELAY_MS + 2000);
      arrived ← (λ w, (inr (collected collector token w), w));
      if (arrived : bool) then result fail s3_name "cancel returned but message still delivered" t0
      else result pass s3_name "scheduled message successfully cancelled" t0)
    (stop_collector collector).

Definition s4_name : string := "S4 list pending".

Fixpoint cancel_all (dest : string) (left_ : list ScheduledInfo) : M (World W) unit :=
  match left_ with
  | [] => mret tt
  | p :: left_ =>
      t ← time;
      _ ← on (sched_cancel {| sh_id := si_id p; sh_destination := dest; sh_deliverAt := t |});
      cancel_all dest left_
  end.

(** The best-effort cleanup of S4. *)
Definition cleanup (dest : string) : M (World W) unit :=
  try_catch (left_ ← on (sched_listScheduled dest); cancel_all dest left_) (λ _, mret tt).

Definition listPending : M (World W) ScenarioResult :=
  t0 ← time;
  n ← nonce random6;
  let dest := "mbc.s4." +:+ n in
  finally (
    n ← nonce random6;
    t ← time;
    _ ← on (sched_schedule dest ("a-" +:+ n) (t + 60000));
    n ← nonce random6;
    t ← time;
    _ ← on (sched_schedule dest ("b-" +:+ n) (t + 60000));
    listed ← try_catch (l ← on (sched_listScheduled dest); mret (Some l))
               (λ e, if is_NotSupported e then mret None else throw e);
    match listed with
    | None => result unsupported s4_name "no inspection API on this broker" t0
    | Some pending =>
        if decide (2 ≤ length pending)
        then result pass s4_name ("reported " +:+ pretty (length pending) +:+ " pending") t0
        else result fail s4_name ("expected >=2 pending, saw " +:+ pretty (length pending)) t0
    end)
    (cleanup dest).

Record Scenario := { sn_name : string; sn_run : M (World W) ScenarioResult }.

Definition ALL_SCENARIOS : list Scenario := [
  {| sn_name := s1_name; sn_run := immediateDelivery |};
  {| sn_name := s2_name; sn_run := scheduledDelivery |};
  {| sn_name := s3_name; sn_run := cancelScheduled |};
  {| sn_name := s4_name; sn_run := listPending |}].
End helpers.
Arguments Scenario : clear implicits.

(** ** The in-memory adapter's world

    While time passes, the queued dispatches run, the clock moves, every timer that is
    due fires, and the dispatches those queue run. *)

Fixpoint run_dispatches (n : nat) (st : Scheduler) : Scheduler :=
  match n with 0 => st | S n => run_dispatches n (run_dispatch st) end.

(** Fire the due timers among the first [n], from the last. *)
Fixpoint fire_due (n : nat) (st : Scheduler) : Scheduler :=
  match n with 0 => st | S n => fire_due n (fire n st) end.

Definition drain (st : Scheduler) : Scheduler := run_dispatches (length (sc_microtasks st)) st.

Definition in_memory_elapse (ms : Z) (st : Scheduler) : Scheduler :=
  let st := advance ms (drain st) in
  drain (fire_due (length (sc_timers st)) st).

Lemma run_dispatches_now n st : sc_now (run_dispatches n st) = sc_now st.
Proof. revert st. induction n as [|n IH]; intros st; [done|]. simpl. rewrite IH. unfold run_dispatch. by case_match. Qed.

Lemma fire_due_now n st : sc_now (fire_due n st) = sc_now st.
Proof.
  revert st. induction n as [|n IH]; intros st; [done|]. simpl. rewrite IH. unfold fire.
  repeat case_match; done.
Qed.

#[export] Instance in_memory_Timed : Timed Scheduler.
Proof.
  refine {| clock := sc_now; elapse := in_memory_elapse;
            handled st h := (filter (λ c, c.1 = h) (sc_calls st)).*2 |}.
  intros ms st. unfold in_memory_elapse, drain. rewrite run_dispatches_now, fire_due_now. simpl.
  rewrite run_dispatches_now. lia.
Defined.

Definition in_memory_world (now : Z) : World Scheduler := world (new_InMemoryScheduler now).

(** ** Lemmas *)

Section waiting.
Context {W : Type} `{Timed W}.

Lemma wait_loop_spec fuel p deadline i w :
  (0 < i)%Z → (deadline - clock (wd_adapter w) ≤ i * Z.of_nat fuel)%Z →
  ∃ b w', wait_loop delay fuel p deadline i w = (inr b, w') ∧ b = p w' ∧
    (b = false → (deadline ≤ clock (wd_adapter w'))%Z) ∧
    ∀ k, wait_loop delay (fuel + k) p deadline i w = (inr b, w').
Proof.
  intros Hi. revert w. induction fuel as [|fuel IH]; intros w Hf.
  - exists (p w), w. split; [done|]. split; [done|]. split; [intros; lia|].
    intros [|k]; [done|]. simpl. by rewrite decide_False by lia.
  - simpl. case_decide as Hc; [|exists (p w), w; repeat split; intros; lia].
    destruct (p w) eqn:Hp; [by exists true, w|].
    apply IH. simpl. pose proof (elapse_clock i (wd_adapter w)). lia.
Qed.
End waiting.

(** [m] returns from every state in [I], into [I]. *)
Definition returns {W A} (I : W → Prop) (m : M W A) : Prop :=
  ∀ w, I w → ∃ a w', m w = (inr a, w') ∧ I w'.

Section gaps.
Context {W : Type} `{Timed W} (random6 : nat → string) `{SchedulerContract W} (I : W → Prop).

Definition world_in (w : World W) : Prop := I (wd_adapter w).

Lemma on_returns {A} (m : M W A) : returns I m → returns world_in (on m).
Proof.
  intros Hm w Hw. destruct (Hm _ Hw) as (a & w' & E & Hi). unfold on, lift. rewrite E.
  by exists a, (put_adapter w' w).
Qed.

(** [m] run from [w] returns a value satisfying [Q], in a world of [I]. *)
Definition yields {A} (m : M (World W) A) (Q : A → Prop) (w : World W) : Prop :=
  ∃ a w', m w = (inr a, w') ∧ Q a ∧ world_in w'.

Lemma yields_bind {A B} (m : M (World W) A) (k : A → M (World W) B) Q w :
  returns world_in m → world_in w → (∀ a w', world_in w' → yields (k a) Q w') → yields (m ≫= k) Q w.
Proof.
  intros Hm Hw Hk. destruct (Hm w Hw) as (a & w' & E & Hi). unfold yields, mbind, M_bind. rewrite E.
  by apply Hk.
Qed.

Lemma yields_finally {A} (m : M (World W) A) (f : M (World W) unit) Q w :
  yields m Q w → returns world_in f → yields (finally m f) Q w.
Proof.
  intros (a & w' & E & HQ & Hi) Hf. unfold yields, finally. rewrite E.
  destruct (Hf w' Hi) as ([] & w'' & -> & Hi'). by exists a, w''.
Qed.

(** A refused call, caught as [gap]. *)
Lemma refused_bind {A B C} (m : M W A) (k : A → M (World W) B) (gap : B) (h : B → M (World W) C) Q w :
  refuses m → keeps I m → world_in w → (∀ w', world_in w' → yields (h gap) Q w') →
  yields (b ← try_catch (a ← on m; k a) (λ e, if is_NotSupported e then mret gap else throw e); h b) Q w.
Proof.
  intros Hr Hk Hw Hh. destruct (Hr (wd_adapter w)) as (e & He & Hn). specialize (Hk _ Hw).
  unfold yields, mbind, M_bind, try_catch, on, lift. destruct (m (wd_adapter w)) as [r w'] eqn:E.
  simpl in He. subst r. rewrite Hn. apply Hh. exact Hk.
Qed.

Lemma time_returns : returns world_in time.
Proof. intros w Hw. by eexists _, w. Qed.

Lemma nonce_returns : returns world_in (nonce random6).
Proof. intros w Hw. by eexists _, _. Qed.

Lemma start_returns d : (∀ h, returns I (sched_consume d h)) → returns world_in (start_collector d).
Proof.
  intros Hc w Hw. unfold start_collector, on, lift. simpl.
  destruct (Hc (wd_handlers w) _ Hw) as (sub & w' & -> & Hi). by eexists _, _.
Qed.

Lemma result_yields status name detail t0 w :
  world_in w → yields (result status name detail t0) (λ r, sr_status r = status) w.
Proof. intros Hw. by eexists _, w. Qed.

Lemma cancel_all_keeps dest l :
  (∀ h, keeps I (sched_cancel h)) → keeps world_in (cancel_all dest l).
Proof.
  intros Hc. induction l as [|p l IH]; [by intros w Hw|]. simpl.
  eapply triple_bind with (Q' := λ _, world_in); [by intros w Hw|]. intros t.
  eapply triple_bind with (Q' := λ _, world_in); [|intros _; exact IH].
  intros w Hw. unfold on, lift. specialize (Hc {| sh_id := si_id p; sh_destination := dest; sh_deliverAt := t |} _ Hw).
  destruct (sched_cancel _ (wd_adapter w)) as [[e|a] w']; exact Hc.
Qed.

Lemma cleanup_returns dest :
  (∀ h, keeps I (sched_cancel h)) → keeps I (sched_listScheduled dest) →
  returns world_in (cleanup dest).
Proof.
  intros Hc Hl w Hw. unfold cleanup, try_catch.
  assert (Hk : keeps world_in (left_ ← on (sched_listScheduled dest); cancel_all dest left_)).
  { eapply triple_bind with (Q' := λ _, world_in); [|intros l; by apply cancel_all_keeps].
    intros w1 Hw1. unfold on, lift. specialize (Hl _ Hw1).
    destruct (sched_listScheduled dest (wd_adapter w1)) as [[e|a] w']; exact Hl. }
  specialize (Hk w Hw).
  destruct (mbind _ (on (sched_listScheduled dest)) w) as [[e|[]] w']; by exists tt, w'.
Qed.
End gaps.

(** ** Properties *)

(** polling.  With a positive interval [waitUntil] always returns: true in a world
    where the predicate holds, false only once the timeout has passed; the rounds the
    model allows are never the reason it stops. *)
Theorem waitUntil_decides {W : Type} `{Timed W} (predicate : World W → bool) (timeoutMs intervalMs : Z)
    (w : World W) :
  (0 < intervalMs)%Z →
  ∃ b w', waitUntil delay predicate timeoutMs intervalMs w = (inr b, w') ∧ b = predicate w' ∧
    (b = false → (clock (wd_adapter w) + timeoutMs ≤ clock (wd_adapter w'))%Z) ∧
    ∀ k, wait_loop delay (wait_fuel timeoutMs intervalMs + k) predicate (clock (wd_adapter w) + timeoutMs)
           intervalMs w = (inr b, w').
Proof.
  intros Hi. unfold waitUntil, time, mbind, M_bind. apply wait_loop_spec; [done|].
  unfold wait_fuel. pose proof (Z.mul_div_le timeoutMs intervalMs Hi).
  pose proof (Z.mod_pos_bound timeoutMs intervalMs Hi). pose proof (Z.div_mod timeoutMs intervalMs).
  destruct (decide (0 ≤ timeoutMs / intervalMs + 1)%Z); nia.
Qed.

Lemma waitUntil_decides_witness :
  let w := in_memory_world 0 in
  ∃ b w', waitUntil delay (λ _, false) 200 50 w = (inr b, w') ∧ b = false ∧
    (b = false → (clock (wd_adapter w) + 200 ≤ clock (wd_adapter w'))%Z) ∧
    ∀ k, wait_loop delay (wait_fuel 200 50 + k) (λ _, false) (clock (wd_adapter w) + 200) 50 w = (inr b, w').
Proof. apply (waitUntil_decides (λ _, false) 200 50 (in_memory_world 0)). reflexivity. Defined.

(** honest gaps.  Run against any adapter that keeps the port's contract and whose
    other calls return, S3 reports "unsupported" when the adapter declares no cancel,
    and S4 does when it declares no listing: never a pass, a failure or an error. *)
Theorem declared_gaps_are_unsupported {W : Type} `{Timed W} (random6 : nat → string) `{SchedulerContract W}
    (I : W → Prop) (w : World W) :
  (∀ d h, returns I (sched_consume d h)) → (∀ d p t, returns I (sched_schedule d p t)) →
  (∀ s, returns I (sched_unsubscribe s)) → (∀ h, keeps I (sched_cancel h)) →
  (∀ d, keeps I (sched_listScheduled d)) → I (wd_adapter w) →
  (supportsCancel sched_capabilities = false →
   yields I (cancelScheduled random6) (λ r, sr_status r = unsupported) w) ∧
  (supportsList sched_capabilities = false →
   yields I (listPending random6) (λ r, sr_status r = unsupported) w).
Proof.
  intros Hcon Hsch Hun Hcan Hlist Hw. split; intros Hno.
  - unfold cancelScheduled. apply yields_bind; [apply time_returns|done|intros t0 w1 Hw1].
    apply yields_bind; [apply nonce_returns|done|intros n w2 Hw2].
    apply yields_bind; [apply nonce_returns|done|intros n' w3 Hw3].
    apply yields_bind; [by apply start_returns|done|intros c w4 Hw4].
    apply yields_finally; [|apply on_returns, Hun].
    apply yields_bind; [apply time_returns|done|intros t w5 Hw5].
    apply yields_bind; [by apply on_returns|done|intros h w6 Hw6].
    apply refused_bind; [by apply contract_cancel|done|done|intros w7 Hw7].
    by apply result_yields.
  - unfold listPending. apply yields_bind; [apply time_returns|done|intros t0 w1 Hw1].
    apply yields_bind; [apply nonce_returns|done|intros n w2 Hw2].
    apply yields_finally; [|by apply cleanup_returns].
    apply yields_bind; [apply nonce_returns|done|intros n' w3 Hw3].
    apply yields_bind; [apply time_returns|done|intros t w4 Hw4].
    apply yields_bind; [by apply on_returns|done|intros h w5 Hw5].
    apply yields_bind; [apply nonce_returns|done|intros n2 w6 Hw6].
    apply yields_bind; [apply time_returns|done|intros t' w7 Hw7].
    apply yields_bind; [by apply on_returns|done|intros h' w8 Hw8].
    apply refused_bind; [by apply contract_list|done|done|intros w9 Hw9].
    by apply result_yields.
Qed.

(** The Kafka adapter, connected, on a client that completes every call. *)
#[export] Instance kafka_Timed : Timed KafkaW.
Proof.
  refine {| clock := re_now; handled := λ _ _, [];
            elapse ms w := {| re_self := re_self w; re_log := re_log w; re_now := (re_now w + ms)%Z;
                              re_draws := re_draws w |} |}.
  done.
Defined.

Definition kafka_connected (w : KafkaW) : Prop :=
  kf_producer (re_self w) = true ∧ kf_admin (re_self w) = true.

Section kafka_returns.
Local Existing Instance kafka_willing.

(** What a connected adapter's operations do on this client. *)
Lemma kafka_ensureTopic_returns t : returns kafka_connected (Kafka.ensureTopic t).
Proof.
  intros w [Hp Ha]. unfold Kafka.ensureTopic, on_admin, mbind, M_bind, asks, when.
  destruct (bool_decide _); [by eexists _, w|]. cbn [negb]. rewrite Ha. simpl. by eexists _, _.
Qed.

Lemma kafka_start_returns t g : returns kafka_connected (startConsumer t g).
Proof.
  intros w [Hp Ha]. unfold startConsumer, mbind, M_bind, asks. rewrite Hp. simpl. by eexists _, _.
Qed.

Lemma kafka_consume_returns d h : returns kafka_connected (Kafka.consume d h).
Proof. intros w Hw. apply kafka_start_returns. exact Hw. Qed.

Lemma kafka_schedule_returns d p t : returns kafka_connected (Kafka.schedule d p t).
Proof.
  intros w Hw. unfold Kafka.schedule, Kafka.sendNow, on_producer, mbind, M_bind, asks.
  destruct (kafka_ensureTopic_returns d w Hw) as ([] & w' & -> & [Hp Ha]). rewrite Hp. simpl. by eexists _, _.
Qed.

Lemma kafka_unsubscribe_returns c : returns kafka_connected (Kafka.unsubscribe c).
Proof. intros w Hw. by eexists _, _. Qed.
End kafka_returns.

Lemma declared_gaps_are_unsupported_witness :
  let _ := kafka_willing in
  let w : World KafkaW := world (Kafka.connect (fresh demo_cfg 0 0)).2 in
  (supportsCancel kafka_capabilities = false →
   yields kafka_connected (cancelScheduled (λ n, pretty n)) (λ r, sr_status r = unsupported) w) ∧
  (supportsList kafka_capabilities = false →
   yields kafka_connected (listPending (λ n, pretty n)) (λ r, sr_status r = unsupported) w).
Proof.
  apply (@declared_gaps_are_unsupported KafkaW kafka_Timed (λ n, pretty n)
    (@kafka_IMessageScheduler kafka_willing) (@kafka_contract kafka_willing) kafka_connected).
  - exact kafka_consume_returns.
  - exact kafka_schedule_returns.
  - exact kafka_unsubscribe_returns.
  - intros h w Hw. exact Hw.
  - intros d w Hw. exact Hw.
  - vm_compute. split; reflexivity.
Defined.

(** The status a scenario reports, if it reports one. *)
Definition status_of {V} (m : M V ScenarioResult) (v : V) : option ScenarioStatus :=
  match (m v).1 with inr r => Some (sr_status r) | inl _ => None end.

(** the reference adapter passes its scheduling suite: S1 to S4 run one after the
    other against a fresh in-memory adapter all report "pass". *)
Theorem in_memory_passes_scheduling :
  let run := λ '(statuses, w) s,
    (statuses ++ [status_of (sn_run s) w], (sn_run s w).2) in
  (foldl run ([], in_memory_world 1750000000000) (ALL_SCENARIOS (λ n, pretty n))).1 =
  [Some pass; Some pass; Some pass; Some pass].
Proof. vm_compute. reflexivity. Qed.
