(* ===== verification/BusScenarios.v ===== *)
(** The bus scenarios (scenarios/s5-pubsub.ts to s20-handler-fault-isolation.ts) as
    programs over any bus in the event loop: the helpers of scenarios/scenario.ts they
    use, and S5 to S10.

    The variables of a scenario that its handlers assign live in the loop's variables
    under the scenario's number; a check of what was observed is a function of them. *)

From stdpp Require Import pretty.
From S2P Require Import Prelude Abstractions Ports Client TopicMatch Idempotency EventLoop Scenarios.
From Stdlib Require Import Ascii.

(** ** Options *)

Definition subscriber (id : string) : SubscribeOptions := {|
  so_kind := None; so_routingKey := None; so_subscriberId := Some id; so_deadLetter := None;
  so_maxDeliveries := None; so_retryDelayMs := None; so_partitionByGroup := None;
  so_singleActiveConsumer := None; so_streamReplay := None; so_transient := None;
  so_priorityQueue := None; so_ttlMs := None |}.

Definition of_kind (k : TopologyKind) (rk : option string) (id : string) : SubscribeOptions := {|
  so_kind := Some k; so_routingKey := rk; so_subscriberId := Some id; so_deadLetter := None;
  so_maxDeliveries := None; so_retryDelayMs := None; so_partitionByGroup := None;
  so_singleActiveConsumer := None; so_streamReplay := None; so_transient := None;
  so_priorityQueue := None; so_ttlMs := None |}.

Definition retrying (id : string) (max : Z) (delayMs : option Z) : SubscribeOptions := {|
  so_kind := None; so_routingKey := None; so_subscriberId := Some id; so_deadLetter := Some true;
  so_maxDeliveries := Some max; so_retryDelayMs := delayMs; so_partitionByGroup := None;
  so_singleActiveConsumer := None; so_streamReplay := None; so_transient := None;
  so_priorityQueue := None; so_ttlMs := None |}.

(** ** Helpers *)

(** [if (m.ack) ...]: the settlements a handler awaits last. *)
Definition ack_and (k : Body) : Body := Await (Settling Ack) (plainly k).
Definition ack : Body := ack_and Return.
Definition nack_requeue : Body := Await (Settling (Nack true)) (plainly Return).

(** A scenario ends early with a result, or goes on with a note. *)
Definition or_return {V A} (m : M V (A + string)) (k : string → M V A) : M V A :=
  r ← m; match r with inl a => mret a | inr note => k note end.

(** [notes.join('; ')], [array.join(',')]. *)
Fixpoint join (sep : string) (l : list string) : string :=
  match l with [] => "" | [x] => x | x :: l' => x +:+ sep +:+ join sep l' end.

(** [`${x}`] of a number or [undefined]. *)
Definition show (x : option Z) : string := match x with Some n => pretty n | None => "undefined" end.

Section kit.
Context {W : Type} `{BusHost W} (random6 : nat → string).

Definition read {A} (f : Vars → A) : M (World W) A := λ w, (inr (f (vars_of w)), w).

Definition declare (x : string) (v : Val) : M (World W) unit :=
  pure_step (λ w, put_vars (assign x v (vars_of w)) w).

Definition undeclared (x : string) : M (World W) unit := pure_step (λ w, put_vars (delete x (vars_of w)) w).

Definition wait (predicate : Vars → bool) (timeoutMs : Z) : M (World W) bool :=
  waitUntil sleep (λ w, predicate (vars_of w)) timeoutMs 50.

Definition publish (t : Destination) (body : string) (rk : option string) (o : PublishOptions) :
    M (World W) unit := awaiting (bus_publish t body rk o).

Fixpoint publish_all (l : list (M (World W) unit)) : M (World W) unit :=
  match l with [] => mret tt | m :: l' => _ ← m; publish_all l' end.

(** A new handler object. *)
Definition new_handler (f : IncomingMessage → Body) : M (World W) AckHandler := λ w,
  (inr (wd_handlers w),
   add_body (wd_handlers w) f
     {| wd_counter := wd_counter w; wd_handlers := S (wd_handlers w); wd_adapter := wd_adapter w;
        wd_loop := wd_loop w |}).

Definition subscribe (t : Destination) (f : IncomingMessage → Body) (o : SubscribeOptions) :
    M (World W) bus_sub := h ← new_handler f; awaiting (bus_subscribe t h o).

Definition unsubscribe (s : bus_sub) : M (World W) unit := awaiting (bus_unsubscribe s).

(** ** Collectors *)

(** [received] is the variable of that name of the collector. *)
Record AckCollector := { ac_received : string; ac_sub : bus_sub }.

(** The handler of [AckCollector.start]. *)
Definition collector_handler (x : string) (onMessage : option (IncomingMessage → Body)) (autoAck : bool)
    (m : IncomingMessage) : Body :=
  Do (push_msg x m) (λ _,
    match onMessage with
    | Some f => f m
    | None => if autoAck then ack else Return
    end).

Definition start (x : string) (t : Destination) (onMessage : option (IncomingMessage → Body))
    (autoAck : bool) (o : SubscribeOptions) : M (World W) AckCollector :=
  _ ← declare x (UMsgs []);
  sub ← subscribe t (collector_handler x onMessage autoAck) o;
  mret {| ac_received := x; ac_sub := sub |}.

Definition stop (c : AckCollector) : M (World W) unit := unsubscribe (ac_sub c).

Definition bodies (c : AckCollector) (vs : Vars) : list string := im_body <$> msgs (ac_received c) vs.
Definition count (c : AckCollector) (vs : Vars) : nat := length (msgs (ac_received c) vs).

Definition seen (n : nat) (c : AckCollector) (vs : Vars) : bool := bool_decide (n ≤ count c vs).

(** ** S5 *)

Definition s5_name : string := "S5 pub/sub (topic)".

Definition pubSub : M (World W) ScenarioResult :=
  t0 ← time;
  if negb (supportsTopic bus_capabilities) then result unsupported s5_name "no topic routing on this broker" t0
  else
    n ← nonce random6;
    let t := "mbc.s5." +:+ n in
    n ← nonce random6;
    created ← start "s5.created" t None true (of_kind topic (Some "order.created") ("created-" +:+ n));
    n ← nonce random6;
    all ← start "s5.all" t None true (of_kind topic (Some "order.#") ("all-" +:+ n));
    finally (
      _ ← publish t "created-1" (Some "order.created") no_publish_options;
      _ ← publish t "shipped-1" (Some "order.shipped") no_publish_options;
      ok ← wait (λ vs, seen 1 created vs && seen 2 all vs) 5000;
      vs ← read id;
      if negb ok then
        result fail s5_name ("timed out (created=" +:+ pretty (count created vs) +:+ ", all=" +:+
                             pretty (count all vs) +:+ ")") t0
      else if decide (count created vs ≠ 1 ∨ head (bodies created vs) ≠ Some "created-1") then
        result fail s5_name "filtered subscriber saw the wrong events" t0
      else
        result pass s5_name ("order.created→1 sub, order.#→both (" +:+ pretty (count all vs) +:+ ")") t0)
      (_ ← stop created; stop all).

(** ** S6 *)

Definition SUBSCRIBERS : nat := 3.

Definition s6_name : string := "S6 fanout multicast".

(** [Promise.all]: every call is made before any is awaited; the first error wins. *)
Fixpoint call_all {A} (l : list (M (World W) A)) : M (World W) (list (Error + A)) := λ w,
  match l with
  | [] => (inr [], w)
  | m :: l' =>
      let '(r, w) := m w in
      (rs ← call_all l'; mret (r :: rs)) w
  end.

Fixpoint first_error {A} (l : list (Error + A)) : Error + list A :=
  match l with
  | [] => inr []
  | inl e :: _ => inl e
  | inr a :: l' => match first_error l' with inl e => inl e | inr l => inr (a :: l) end
  end.

Definition promise_all {A} (l : list (M (World W) A)) : M (World W) (list A) := λ w,
  match call_all l w with
  | (inr rs, w) => (first_error rs, tick w)
  | (inl e, w) => (inl e, w)
  end.

(** [start] and [stop] up to their await. *)
Definition calling {A} (m : M W A) : M (World W) A := λ w, let '(r, w) := on m w in (r, sync w).

Definition start_call (x : string) (t : Destination) (o : SubscribeOptions) : M (World W) AckCollector :=
  _ ← declare x (UMsgs []);
  h ← new_handler (collector_handler x None true);
  sub ← calling (bus_subscribe t h o);
  mret {| ac_received := x; ac_sub := sub |}.

Definition stop_call (c : AckCollector) : M (World W) unit :=
  calling (bus_unsubscribe (ac_sub c)).

Fixpoint nonces (n : nat) : M (World W) (list string) :=
  match n with 0 => mret [] | S n => x ← nonce random6; xs ← nonces n; mret (x :: xs) end.

Definition fanout_ : M (World W) ScenarioResult :=
  t0 ← time;
  if negb (supportsFanout bus_capabilities) then result unsupported s6_name "no fanout on this broker" t0
  else
    n ← nonce random6;
    let t := "mbc.s6." +:+ n in
    ns ← nonces SUBSCRIBERS;
    subs ← promise_all (imap (λ i n, start_call ("s6.s" +:+ pretty i) t
                                       (of_kind fanout None ("s" +:+ pretty i +:+ "-" +:+ n))) ns);
    finally (
      _ ← publish t "broadcast-1" None no_publish_options;
      ok ← wait (λ vs, forallb (λ s, seen 1 s vs) subs) 5000;
      counts ← read (λ vs, (λ s, count s vs) <$> subs);
      if negb ok || existsb (λ n, bool_decide (n ≠ 1)) counts then
        result fail s6_name ("subscriber counts were [" +:+ join "," (pretty <$> counts) +:+ "]") t0
      else
        result pass s6_name ("1 publish → " +:+ pretty SUBSCRIBERS +:+ " subscribers each received it") t0)
      (_ ← promise_all (stop_call <$> subs); mret tt).

(** ** S7 *)

Definition s7_name : string := "S7 explicit ack".

(** (a) ack removes. *)
Definition s7_ack (t0 : Z) : M (World W) (ScenarioResult + string) :=
  n ← nonce random6;
  let t := "mbc.s7a." +:+ n in
  n ← nonce random6;
  c ← start "s7.a" t None true (subscriber ("ack-" +:+ n));
  finally (
    _ ← publish t "ack-1" None no_publish_options;
    _ ← wait (seen 1 c) 4000;
    _ ← sleep 500;
    n ← read (count c);
    if decide (n ≠ 1) then
      r ← result fail s7_name ("(a) acked msg delivered " +:+ pretty n +:+ "×") t0; mret (inl r)
    else mret (inr "ack→once"))
    (stop c).

(** (b) the handler requeues the first delivery and acks the others. *)
Definition s7_nack_handler (m : IncomingMessage) : Body :=
  Do (incr "s7.attempts") (λ vs,
    if decide (num "s7.attempts" vs = Some 1%Z) then nack_requeue
    else Do (assign_opt "s7.secondCount" (im_deliveryCount m)) (λ _, ack)).

Definition s7_nack (t0 : Z) : M (World W) (ScenarioResult + string) :=
  n ← nonce random6;
  let t := "mbc.s7b." +:+ n in
  _ ← declare "s7.attempts" (UNum 0);
  _ ← undeclared "s7.secondCount";
  n ← nonce random6;
  c ← start "s7.b" t (Some s7_nack_handler) false (subscriber ("nack-" +:+ n));
  finally (
    _ ← publish t "nack-1" None no_publish_options;
    ok ← wait (λ vs, bool_decide (2 ≤ default 0 (num "s7.attempts" vs))%Z) 5000;
    secondCount ← read (num "s7.secondCount");
    if negb ok then r ← result fail s7_name "(b) nacked msg was not redelivered" t0; mret (inl r)
    else if decide (reportsDeliveryCount bus_capabilities = true ∧ secondCount ≠ Some 2%Z) then
      r ← result fail s7_name ("(b) expected deliveryCount 2, got " +:+ show secondCount) t0; mret (inl r)
    else mret (inr (if reportsDeliveryCount bus_capabilities then "nack→redelivered (count=2)"
                    else "nack→redelivered (count n/a)")))
    (stop c).

(** (c) a consumer drops with its message un-acked; a fresh one on its queue gets it. *)
Definition s7_crash (t0 : Z) : M (World W) (ScenarioResult + string) :=
  n ← nonce random6;
  let t := "mbc.s7c." +:+ n in
  n ← nonce random6;
  let queueId := "crash-" +:+ n in
  crashed ← start "s7.crashed" t (Some (λ _, Return)) false (subscriber queueId);
  _ ← publish t "crash-1" None no_publish_options;
  _ ← wait (seen 1 crashed) 4000;
  _ ← stop crashed;
  fresh ← start "s7.fresh" t None true (subscriber queueId);
  finally (
    got ← wait (seen 1 fresh) 5000;
    if (got : bool) then mret (inr "crash→redelivered")
    else r ← result fail s7_name "(c) crashed consumer msg was lost" t0; mret (inl r))
    (stop fresh).

Definition explicitAck : M (World W) ScenarioResult :=
  t0 ← time;
  if negb (supportsManualAck bus_capabilities) then result unsupported s7_name "no manual ack on this broker" t0
  else
    or_return (s7_ack t0) (λ a,
    or_return (s7_nack t0) (λ b,
    or_return (s7_crash t0) (λ c,
    result pass s7_name (join "; " [a; b; c]) t0))).

(** ** S8 *)

Definition MAX_DELIVERIES : Z := 3.

Definition s8_name : string := "S8 poison → dead-letter".

Definition s8_handler (m : IncomingMessage) : Body :=
  Do (incr "s8.attempts") (λ _, Do (assign_opt "s8.lastCount" (im_deliveryCount m)) (λ _, nack_requeue)).

(** [ (final deliveryCount=n)] when the broker reports one. *)
Definition count_note (lastCount : option Z) : string :=
  match lastCount with
  | Some n => if reportsDeliveryCount bus_capabilities then " (final deliveryCount=" +:+ pretty n +:+ ")" else ""
  | None => ""
  end.

Definition poisonDlq : M (World W) ScenarioResult :=
  t0 ← time;
  if negb (supportsDeadLetter bus_capabilities) then
    result unsupported s8_name "no dead-letter support on this broker" t0
  else
    n ← nonce random6;
    let t := "mbc.s8." +:+ n in
    _ ← declare "s8.attempts" (UNum 0);
    _ ← undeclared "s8.lastCount";
    n ← nonce random6;
    main ← start "s8.main" t (Some s8_handler) false (retrying ("poison-" +:+ n) MAX_DELIVERIES None);
    n ← nonce random6;
    dlq ← start "s8.dlq" (deadLetterAddress t) None true (of_kind fanout None ("dlq-" +:+ n));
    finally (
      _ ← publish t "poison-1" None no_publish_options;
      landed ← wait (seen 1 dlq) 8000;
      vs ← read id;
      let attempts := default 0%Z (num "s8.attempts" vs) in
      if negb landed then
        result fail s8_name ("never dead-lettered (attempts=" +:+ pretty attempts +:+ ", dlq=" +:+
                             pretty (count dlq vs) +:+ ")") t0
      else if decide (attempts < 2 ∨ MAX_DELIVERIES + 1 < attempts)%Z then
        result fail s8_name ("delivery attempts out of range: " +:+ pretty attempts +:+ " (limit " +:+
                             pretty MAX_DELIVERIES +:+ ")") t0
      else
        result pass s8_name ("dead-lettered after " +:+ pretty attempts +:+ " attempts" +:+
                             count_note (num "s8.lastCount" vs)) t0)
      (_ ← stop main; stop dlq).

(** ** S9 *)

Definition MESSAGE_COUNT : nat := 10.

Definition s9_name : string := "S9 competing consumers".

Definition s9_handler (x : string) (m : IncomingMessage) : Body :=
  Do (push_str x (im_body m)) (λ _, ack).

(** The checks on what the two consumers received: the failure to report, if any. *)
Definition s9_check (ok : bool) (a b : list string) : option string :=
  let all := a ++ b in
  if decide (ok = false ∨ length all ≠ MESSAGE_COUNT) then
    Some ("received " +:+ pretty (length all) +:+ "/" +:+ pretty MESSAGE_COUNT)
  else if decide (length (remove_dups all) ≠ MESSAGE_COUNT) then
    Some ("duplicate delivery (" +:+ pretty (length (remove_dups all)) +:+ " unique)")
  else if decide (length a = 0 ∨ length b = 0) then Some "one consumer was starved (not balanced)"
  else None.

Definition competingConsumers : M (World W) ScenarioResult :=
  t0 ← time;
  if negb (supportsManualAck bus_capabilities) then result unsupported s9_name "no manual ack on this broker" t0
  else
    n ← nonce random6;
    let t := "mbc.s9." +:+ n in
    n ← nonce random6;
    let queueId := "workers-" +:+ n in
    _ ← declare "s9.byConsumer[0]" (UStrs []);
    _ ← declare "s9.byConsumer[1]" (UStrs []);
    subA ← subscribe t (s9_handler "s9.byConsumer[0]") (subscriber queueId);
    subB ← subscribe t (s9_handler "s9.byConsumer[1]") (subscriber queueId);
    finally (
      _ ← publish_all ((λ i, publish t ("job-" +:+ pretty i) None no_publish_options) <$> seq 0 MESSAGE_COUNT);
      ok ← wait (λ vs, bool_decide (MESSAGE_COUNT ≤ length (strs "s9.byConsumer[0]" vs) +
                                                    length (strs "s9.byConsumer[1]" vs))) 6000;
      vs ← read id;
      let a := strs "s9.byConsumer[0]" vs in
      let b := strs "s9.byConsumer[1]" vs in
      match s9_check ok a b with
      | Some detail => result fail s9_name detail t0
      | None =>
          result pass s9_name ("split " +:+ pretty (length a) +:+ "/" +:+ pretty (length b) +:+ ", no dupes") t0
      end)
      (_ ← unsubscribe subA; unsubscribe subB).

(** ** S10 *)

Definition s10_name : string := "S10 idempotent consumer".

(** [idempotentHandler] as a handler in the loop, with the default key and window;
    [mark] is the store's [tryMarkSeen] at a time.  The [catch] block only logs. *)
Definition idempotent (mark : Z → string → Z → Vars → (Error + bool) * Vars)
    (inner : IncomingMessage → Body) (m : IncomingMessage) : Body :=
  Clock (λ now, Do id (λ vs,
    let '(r, vs') := mark now (default_key m) 300%Z vs in
    let alreadySeen := match r with inr seen => seen | inl _ => false end in
    Do (λ _, vs') (λ _, Await Ticking (λ _, if alreadySeen then ack else inner m)))).

(** The in-memory store in a variable. *)
Definition mark_in (x : string) (now : Z) (key : string) (ttl : Z) (vs : Vars) : (Error + bool) * Vars :=
  let s := match vs !! x with Some (UStore s) => is_seen s | _ => ∅ end in
  let '(r, s) := tryMarkSeen key ttl {| is_now := now; is_seen := s |} in (r, assign x (UStore s) vs).

(** [brokenStore]. *)
Definition mark_broken (_ : Z) (_ : string) (_ : Z) (vs : Vars) : (Error + bool) * Vars :=
  (inl (OtherError "Redis connection refused"), vs).

(** Publish to a first consumer, drop it, and let a fresh one on its queue get the
    message: whether it did, and how often the business logic ran. *)
Definition s10_crash (t queueId body count_ : string) (first_ second_ : string)
    (onFirst onSecond : IncomingMessage → Body) : M (World W) (bool * Z) :=
  first ← start first_ t (Some onFirst) false (subscriber queueId);
  _ ← publish t body None no_publish_options;
  _ ← wait (seen 1 first) 4000;
  _ ← stop first;
  second ← start second_ t (Some onSecond) false (subscriber queueId);
  redelivered ← wait (seen 1 second) 5000;
  _ ← stop second;
  n ← read (λ vs, default 0%Z (num count_ vs));
  mret (redelivered, n).

(** (a) without idempotency the side effect runs twice. *)
Definition s10_without (t0 : Z) : M (World W) (ScenarioResult + string) :=
  n ← nonce random6;
  let t := "mbc.s10a." +:+ n in
  n ← nonce random6;
  let queueId := "idm-a-" +:+ n in
  _ ← declare "s10a.processCount" (UNum 0);
  n ← nonce random6;
  '(redelivered, processCount) ←
    s10_crash t queueId ("order-a-" +:+ n) "s10a.processCount" "s10a.first" "s10a.second"
      (λ _, Do (incr "s10a.processCount") (λ _, Return))
      (λ _, Do (incr "s10a.processCount") (λ _, ack));
  if negb redelivered then r ← result fail s10_name "(a) redelivery did not happen" t0; mret (inl r)
  else if decide (processCount ≠ 2%Z) then
    r ← result fail s10_name ("(a) expected 2 processings, got " +:+ pretty processCount) t0; mret (inl r)
  else mret (inr ("no-store→processed×" +:+ pretty processCount)).

(** (b) with the store it runs once. *)
Definition s10_with (t0 : Z) : M (World W) (ScenarioResult + string) :=
  n ← nonce random6;
  let t := "mbc.s10b." +:+ n in
  n ← nonce random6;
  let queueId := "idm-b-" +:+ n in
  n ← nonce random6;
  let msgBody := "order-b-" +:+ n in
  _ ← declare "s10b.processCount" (UNum 0);
  _ ← declare "s10b.store" (UStore {| is_now := 0; is_seen := ∅ |});
  '(redelivered, processCount) ←
    s10_crash t queueId msgBody "s10b.processCount" "s10b.first" "s10b.second"
      (idempotent (mark_in "s10b.store") (λ _, Do (incr "s10b.processCount") (λ _, Return)))
      (idempotent (mark_in "s10b.store") (λ _, Do (incr "s10b.processCount") (λ _, ack)));
  if negb redelivered then r ← result fail s10_name "(b) redelivery did not happen" t0; mret (inl r)
  else if decide (processCount ≠ 1%Z) then
    r ← result fail s10_name ("(b) expected 1 processing, got " +:+ pretty processCount) t0; mret (inl r)
  else mret (inr "with-store→processed×1").

(** (c) with a store that throws it still runs. *)
Definition s10_broken_handler : IncomingMessage → Body :=
  idempotent mark_broken (λ _, Do (incr "s10c.processCount") (λ _,
    Await (Settling Ack) (λ r, match r with
      | None => Return
      | Some e => Do (assign "s10c.caughtError" (UStrs ["Error: " +:+ error_message e])) (λ _, ack)
      end))).

Definition s10_down (t0 : Z) : M (World W) (ScenarioResult + string) :=
  n ← nonce random6;
  let t := "mbc.s10c." +:+ n in
  n ← nonce random6;
  let queueId := "idm-c-" +:+ n in
  _ ← declare "s10c.processCount" (UNum 0);
  _ ← undeclared "s10c.caughtError";
  sub ← start "s10c.sub" t (Some s10_broken_handler) false (subscriber queueId);
  finally (
    n ← nonce random6;
    _ ← publish t ("order-c-" +:+ n) None no_publish_options;
    ok ← wait (seen 1 sub) 4000;
    if negb ok then r ← result fail s10_name "(c) message was not delivered" t0; mret (inl r)
    else
      _ ← sleep 200;
      vs ← read id;
      let processCount := default 0%Z (num "s10c.processCount" vs) in
      match strs "s10c.caughtError" vs with
      | e :: _ => r ← result fail s10_name ("(c) store error leaked to caller: " +:+ e) t0; mret (inl r)
      | [] =>
          if decide (processCount ≠ 1%Z) then
            r ← result fail s10_name ("(c) expected fail-open processing, got " +:+ pretty processCount) t0;
            mret (inl r)
          else mret (inr "store-down→fail-open,processed×1")
      end)
    (stop sub).

Definition idempotentConsumer : M (World W) ScenarioResult :=
  t0 ← time;
  if negb (supportsManualAck bus_capabilities) then result unsupported s10_name "no manual ack on this broker" t0
  else
    or_return (s10_without t0) (λ a,
    or_return (s10_with t0) (λ b,
    or_return (s10_down t0) (λ c,
    result pass s10_name (join "; " [a; b; c]) t0))).
End kit.
