(* ===== verification/FeatureScenarios.v ===== *)
(** The bus scenarios S11 to S20 (scenarios/s11-retry-queue.ts to
    s20-handler-fault-isolation.ts): retry queues, groups, deduplication, priority,
    request/reply, expiry, durable, exclusive and replaying subscriptions, and handlers
    that throw.  The checks of S12 and S18 are functions of what the two consumers
    received. *)

From stdpp Require Import pretty.
From S2P Require Import Prelude Abstractions Ports Client TopicMatch EventLoop Scenarios BusScenarios.
From Stdlib Require Import Ascii.

(** ** Options *)

Definition partitioned (id : string) : SubscribeOptions := {|
  so_kind := None; so_routingKey := None; so_subscriberId := Some id; so_deadLetter := None;
  so_maxDeliveries := None; so_retryDelayMs := None; so_partitionByGroup := Some true;
  so_singleActiveConsumer := None; so_streamReplay := None; so_transient := None;
  so_priorityQueue := None; so_ttlMs := None |}.

Definition exclusive (id : string) : SubscribeOptions := {|
  so_kind := None; so_routingKey := None; so_subscriberId := Some id; so_deadLetter := None;
  so_maxDeliveries := None; so_retryDelayMs := None; so_partitionByGroup := None;
  so_singleActiveConsumer := Some true; so_streamReplay := None; so_transient := None;
  so_priorityQueue := None; so_ttlMs := None |}.

Definition replaying : SubscribeOptions := {|
  so_kind := None; so_routingKey := None; so_subscriberId := None; so_deadLetter := None;
  so_maxDeliveries := None; so_retryDelayMs := None; so_partitionByGroup := None;
  so_singleActiveConsumer := None; so_streamReplay := Some true; so_transient := None;
  so_priorityQueue := None; so_ttlMs := None |}.

Definition prioritized (id : string) : SubscribeOptions := {|
  so_kind := None; so_routingKey := None; so_subscriberId := Some id; so_deadLetter := None;
  so_maxDeliveries := None; so_retryDelayMs := None; so_partitionByGroup := None;
  so_singleActiveConsumer := None; so_streamReplay := None; so_transient := None;
  so_priorityQueue := Some true; so_ttlMs := None |}.

Definition expiring (id : string) (ttl : Z) : SubscribeOptions := {|
  so_kind := None; so_routingKey := None; so_subscriberId := Some id; so_deadLetter := None;
  so_maxDeliveries := None; so_retryDelayMs := None; so_partitionByGroup := None;
  so_singleActiveConsumer := None; so_streamReplay := None; so_transient := None;
  so_priorityQueue := None; so_ttlMs := Some ttl |}.

Definition in_group (g : string) : PublishOptions := {|
  po_priority := None; po_groupId := Some g; po_dedupId := None; po_replyTo := None;
  po_correlationId := None; po_ttlMs := None; po_headers := None |}.

Definition deduplicated (d : string) : PublishOptions := {|
  po_priority := None; po_groupId := None; po_dedupId := Some d; po_replyTo := None;
  po_correlationId := None; po_ttlMs := None; po_headers := None |}.

Definition with_priority (p : Z) : PublishOptions := {|
  po_priority := Some p; po_groupId := None; po_dedupId := None; po_replyTo := None;
  po_correlationId := None; po_ttlMs := None; po_headers := None |}.

Definition correlated (replyTo correlationId : option string) : PublishOptions := {|
  po_priority := None; po_groupId := None; po_dedupId := None; po_replyTo := replyTo;
  po_correlationId := correlationId; po_ttlMs := None; po_headers := None |}.

Definition with_ttl (ttl : Z) : PublishOptions := {|
  po_priority := None; po_groupId := None; po_dedupId := None; po_replyTo := None;
  po_correlationId := None; po_ttlMs := Some ttl; po_headers := None |}.

(** ** Numbers *)

(** [Number(s)] of the empty string and of decimal digits; [None] stands for NaN. *)
Fixpoint digits_value (acc : Z) (s : string) : option Z :=
  match s with
  | "" => Some acc
  | String a s' =>
      let n := nat_of_ascii a in
      if decide (48 ≤ n ∧ n ≤ 57) then digits_value (acc * 10 + Z.of_nat (n - 48))%Z s' else None
  end.

Definition js_Number (s : option string) : option Z := s ≫= digits_value 0.

(** [x <= y]; a comparison with NaN is false. *)
Definition num_le (x y : option Z) : bool :=
  match x, y with Some x, Some y => bool_decide (x ≤ y)%Z | _, _ => false end.

(** Some [seq[k] <= seq[k - 1]]. *)
Fixpoint out_of_order (seqs : list (option Z)) : bool :=
  match seqs with
  | a :: ((b :: _) as rest) => num_le b a || out_of_order rest
  | _ => false
  end.

(** [array.join(',')] of numbers. *)
Definition join_nums (l : list (option Z)) : string :=
  join "," ((λ n, match n with Some n => pretty n | None => "NaN" end) <$> l).

(** A text between double quotes. *)
Definition quoted (s : string) : string := String (ascii_of_nat 34) (s +:+ String (ascii_of_nat 34) "").

(** ** The check of S12 *)

Definition GROUPS : list string := ["a"; "b"; "c"].
Definition PER_GROUP : nat := 6.
Definition TOTAL12 : nat := length GROUPS * PER_GROUP.

(** The entry a handler pushes for a body "group:seq". *)
Definition group_entry (body : string) : string * option Z :=
  let parts := split_on ":" body in (default "" (head parts), js_Number (parts !! 1)).

(** One entry of consumer [i]: the owners of its group and the sequences so far. *)
Definition note_entry (i : nat) (acc : list (string * list nat) * list (string * list (option Z)))
    (e : string * option Z) : list (string * list nat) * list (string * list (option Z)) :=
  let owners := default [] (map_get acc.1 e.1) in
  (map_set acc.1 e.1 (if decide (i ∈ owners) then owners else owners ++ [i]),
   map_set acc.2 e.1 (default [] (map_get acc.2 e.1) ++ [e.2])).

(** The loop over the consumers: the owners of each group, or a failure. *)
Fixpoint scan_consumers (i : nat) (by_ : list (list (string * option Z)))
    (owners : list (string * list nat)) : string + list (string * list nat) :=
  match by_ with
  | [] => inr owners
  | entries :: rest =>
      let '(owners, perGroupSeqs) := foldl (note_entry i) (owners, []) entries in
      match filter (λ p, out_of_order p.2 = true) perGroupSeqs with
      | (group, seqs) :: _ =>
          inl ("group " +:+ group +:+ " out of order on consumer " +:+ pretty i +:+ ": " +:+ join_nums seqs)
      | [] => scan_consumers (S i) rest owners
      end
  end.

(** The sequences of a group a consumer saw. *)
Definition seqs_of (g : string) (entries : list (string * option Z)) : list (option Z) :=
  (filter (λ e, e.1 = g) entries).*2.

Fixpoint check_groups (gs : list string) (by_ : list (list (string * option Z)))
    (owners : list (string * list nat)) : option string :=
  match gs with
  | [] => None
  | g :: gs' =>
      match map_get owners g with
      | None | Some [] => Some ("group " +:+ g +:+ " was never delivered")
      | Some (_ :: _ :: _) => Some ("group " +:+ g +:+ " split across consumers")
      | Some [i] =>
          let seen := seqs_of g (default [] (by_ !! i)) in
          if decide (length seen ≠ PER_GROUP)
          then Some ("group " +:+ g +:+ " got " +:+ pretty (length seen) +:+ "/" +:+ pretty PER_GROUP +:+ " messages")
          else check_groups gs' by_ owners
      end
  end.

Definition s12_check (by_ : list (list (string * option Z))) : option string :=
  match scan_consumers 0 by_ [] with
  | inl detail => Some detail
  | inr owners => check_groups GROUPS by_ owners
  end.

(** ** The check of S18 *)

Definition BATCH : nat := 5.
Definition TOTAL18 : nat := BATCH * 2.

(** [Math.max(...seq)]. *)
Fixpoint js_max (l : list (option Z)) : option Z :=
  match l with
  | [] => None
  | [x] => x
  | x :: l' => match x, js_max l' with Some x, Some y => Some (Z.max x y) | _, _ => None end
  end.

(** The checks after the failover, of what the active and the standby consumer saw. *)
Definition s18_check (activeIdx standbyIdx : nat) (active standby : list (option Z)) : option string :=
  if decide (length standby = 0) then Some "standby never took over after failover"
  else
    match filter (λ i, Some (Z.of_nat i) ∉ active ++ standby) (seq 0 TOTAL18) with
    | i :: _ => Some ("message m-" +:+ pretty i +:+ " was lost across failover")
    | [] =>
        if out_of_order active then
          Some ("consumer " +:+ pretty activeIdx +:+ " out of order: " +:+ join_nums active)
        else if out_of_order standby then
          Some ("consumer " +:+ pretty standbyIdx +:+ " out of order: " +:+ join_nums standby)
        else
          match js_max standby with
          | Some m =>
              if decide (m < Z.of_nat BATCH)%Z
              then Some ("standby did not take over the post-failover batch (got " +:+ join_nums standby +:+ ")")
              else None
          | None => None
          end
    end.

Section features.
Context {W : Type} `{BusHost W} (random6 : nat → string).

(** ** S11 *)

Definition S11_MAX_DELIVERIES : Z := 6.
Definition RETRY_DELAY_MS : Z := 250.
Definition GOOD_COUNT : nat := 8.

Definition s11_name : string := "S11 retry queue".

Definition s11_handler (m : IncomingMessage) : Body :=
  if String.prefix "poison" (im_body m) then
    Do (incr "s11.attempts") (λ _, Do (assign_opt "s11.lastCount" (im_deliveryCount m)) (λ _, nack_requeue))
  else
    Do (push_str "s11.good" (im_body m)) (λ vs,
      if decide (length (strs "s11.good" vs) = GOOD_COUNT)
      then Clock (λ now, Do (assign "s11.goodDrainedAt" (UNum now)) (λ _, ack))
      else ack).

Definition s11_dlq_handler (_ : IncomingMessage) : Body :=
  Clock (λ now, Do (λ vs, match num "s11.dlqAt" vs with
                          | None => assign "s11.dlqAt" (UNum now) vs
                          | Some _ => vs
                          end) (λ _, ack)).

Definition fmt (at_ : option Z) (t0 : Z) : string :=
  match at_ with None => "n/a" | Some t => pretty (t - t0)%Z +:+ "ms" end.

Definition jobs (t : Destination) (from n : nat) : list (M (World W) unit) :=
  (λ i, publish t ("job-" +:+ pretty i) None no_publish_options) <$> seq from n.

Definition retryQueue : M (World W) ScenarioResult :=
  t0 ← time;
  if negb (supportsDeadLetter bus_capabilities) then
    result unsupported s11_name "no dead-letter support on this broker" t0
  else
    n ← nonce random6;
    let t := "mbc.s11." +:+ n in
    _ ← declare "s11.good" (UStrs []);
    _ ← declare "s11.attempts" (UNum 0);
    _ ← undeclared "s11.lastCount";
    _ ← undeclared "s11.goodDrainedAt";
    _ ← undeclared "s11.dlqAt";
    n ← nonce random6;
    main ← start "s11.main" t (Some s11_handler) false
             (retrying ("worker-" +:+ n) S11_MAX_DELIVERIES (Some RETRY_DELAY_MS));
    n ← nonce random6;
    dlq ← start "s11.dlq" (deadLetterAddress t) (Some s11_dlq_handler) true
            (of_kind fanout None ("dlq-" +:+ n));
    finally (
      _ ← publish_all (jobs t 0 3);
      _ ← publish t "poison-1" None no_publish_options;
      _ ← publish_all (jobs t 3 (GOOD_COUNT - 3));
      done ← wait (λ vs, bool_decide (GOOD_COUNT ≤ length (strs "s11.good" vs)) && seen 1 dlq vs)
               (S11_MAX_DELIVERIES * RETRY_DELAY_MS + 4000);
      vs ← read id;
      let good := strs "s11.good" vs in
      let attempts := default 0%Z (num "s11.attempts" vs) in
      let unique := length (remove_dups good) in
      if negb done then
        result fail s11_name ("pipeline did not drain (good=" +:+ pretty (length good) +:+ "/" +:+
          pretty GOOD_COUNT +:+ ", dlq=" +:+ pretty (count dlq vs) +:+ ", attempts=" +:+ pretty attempts +:+ ")") t0
      else if decide (unique ≠ GOOD_COUNT) then
        result fail s11_name ("good messages not delivered exactly once (" +:+ pretty unique +:+
          " unique of " +:+ pretty (length good) +:+ ")") t0
      else if decide (attempts < 2 ∨ S11_MAX_DELIVERIES + 1 < attempts)%Z then
        result fail s11_name ("retry attempts out of range: " +:+ pretty attempts +:+ " (limit " +:+
          pretty S11_MAX_DELIVERIES +:+ ")") t0
      else
        match num "s11.goodDrainedAt" vs, num "s11.dlqAt" vs with
        | Some g, Some d =>
            if decide (d ≤ g)%Z then
              result fail s11_name ("main queue was blocked by the poison message (good done " +:+
                fmt (Some g) t0 +:+ ", dlq " +:+ fmt (Some d) t0 +:+ ")") t0
            else
              result pass s11_name (pretty GOOD_COUNT +:+ " ok in " +:+ pretty (g - t0)%Z +:+
                "ms; poison→DLQ after " +:+ pretty attempts +:+ " attempts" +:+
                count_note (num "s11.lastCount" vs) +:+ " in " +:+ pretty (d - t0)%Z +:+
                "ms; main unblocked (ok done " +:+ pretty (d - g)%Z +:+ "ms before DLQ)") t0
        | g, d =>
            result fail s11_name ("main queue was blocked by the poison message (good done " +:+
              fmt g t0 +:+ ", dlq " +:+ fmt d t0 +:+ ")") t0
        end)
      (_ ← stop main; stop dlq).

(** ** S12 *)

Definition s12_name : string := "S12 message groups".

Definition s12_handler (x : string) (m : IncomingMessage) : Body :=
  Do (push_pair x (group_entry (im_body m))) (λ _, ack).

(** [a:0, b:0, c:0, a:1, ...]. *)
Definition s12_bodies : list (string * string) :=
  concat ((λ seq, (λ g, (g, g +:+ ":" +:+ pretty seq)) <$> GROUPS) <$> seq 0 PER_GROUP).

Definition messageGroups : M (World W) ScenarioResult :=
  t0 ← time;
  if negb (supportsManualAck bus_capabilities) then result unsupported s12_name "no manual ack on this broker" t0
  else if decide (supportsMessageGroups bus_capabilities = Some false) then
    result unsupported s12_name "no broker-native message grouping" t0
  else
    n ← nonce random6;
    let t := "mbc.s12." +:+ n in
    n ← nonce random6;
    let queueId := "groups-" +:+ n in
    _ ← declare "s12.byConsumer[0]" (UPairs []);
    _ ← declare "s12.byConsumer[1]" (UPairs []);
    subA ← subscribe t (s12_handler "s12.byConsumer[0]") (partitioned queueId);
    subB ← subscribe t (s12_handler "s12.byConsumer[1]") (partitioned queueId);
    finally (
      _ ← publish_all ((λ '(g, body), publish t body None (in_group g)) <$> s12_bodies);
      let total vs := length (pairs "s12.byConsumer[0]" vs) + length (pairs "s12.byConsumer[1]" vs) in
      ok ← wait (λ vs, bool_decide (TOTAL12 ≤ total vs)) 10000;
      vs ← read id;
      let byConsumer := [pairs "s12.byConsumer[0]" vs; pairs "s12.byConsumer[1]" vs] in
      if negb ok then
        result fail s12_name ("received " +:+ pretty (total vs) +:+ "/" +:+ pretty TOTAL12) t0
      else
        match s12_check byConsumer with
        | Some detail => result fail s12_name detail t0
        | None =>
            result pass s12_name ("per-group order preserved, each group pinned to one consumer (split " +:+
              join "/" ((λ c : list (string * option Z), pretty (length c)) <$> byConsumer) +:+ ")") t0
        end)
      (_ ← unsubscribe subA; unsubscribe subB).

(** ** S13 *)

Definition s13_name : string := "S13 broker-native dedup".

Definition brokerNativeDedup : M (World W) ScenarioResult :=
  t0 ← time;
  if negb (supportsDedup bus_capabilities) then result unsupported s13_name "no broker-native producer dedup" t0
  else
    n ← nonce random6;
    let t := "mbc.s13." +:+ n in
    n ← nonce random6;
    let dedupId := "dup-" +:+ n in
    n ← nonce random6;
    sub ← start "s13.sub" t None true (subscriber ("dedup-" +:+ n));
    finally (
      _ ← publish t "order-42" None (deduplicated dedupId);
      _ ← publish t "order-42" None (deduplicated dedupId);
      arrived ← wait (seen 1 sub) 6000;
      if negb arrived then result fail s13_name "no delivery at all" t0
      else
        _ ← sleep 800;
        n ← read (count sub);
        if decide (n ≠ 1) then result fail s13_name ("expected 1 delivery, got " +:+ pretty n) t0
        else result pass s13_name "duplicate dropped by the broker (1 delivery)" t0)
      (stop sub).

(** ** S14 *)

Definition LOW_COUNT : nat := 8.
Definition HANDLER_DELAY_MS : Z := 60.

Definition s14_name : string := "S14 priority".

Definition s14_handler (m : IncomingMessage) : Body :=
  Do (push_str "s14.received" (im_body m)) (λ _,
    Await (Sleeping HANDLER_DELAY_MS) (λ _,
      Await (Settling Ack) (λ _, Do (incr "s14.settled") (λ _, Return)))).

(** [received.indexOf('HIGH')]. *)
Definition high_index (received : list string) : Z :=
  match index_of "HIGH" received with Some i => Z.of_nat i | None => -1 end.

Definition priority : M (World W) ScenarioResult :=
  t0 ← time;
  n ← nonce random6;
  let t := "mbc.s14." +:+ n in
  _ ← declare "s14.received" (UStrs []);
  _ ← declare "s14.settled" (UNum 0);
  n ← nonce random6;
  sub ← subscribe t s14_handler (prioritized ("prio-" +:+ n));
  finally (
    _ ← publish_all ((λ i, publish t ("low-" +:+ pretty i) None (with_priority 1)) <$> seq 0 LOW_COUNT);
    _ ← publish t "HIGH" None (with_priority 9);
    ok ← wait (λ vs, bool_decide (LOW_COUNT + 1 ≤ length (strs "s14.received" vs))) 8000;
    if negb ok then
      received ← read (strs "s14.received");
      result fail s14_name ("received " +:+ pretty (length received) +:+ "/" +:+ pretty (LOW_COUNT + 1)) t0
    else
      _ ← wait (λ vs, bool_decide (Z.of_nat LOW_COUNT + 1 ≤ default 0 (num "s14.settled" vs))%Z) 2000;
      received ← read (strs "s14.received");
      let highIndex := high_index received in
      if decide (highIndex < 0 ∨ 1 < highIndex)%Z then
        result fail s14_name ("high-priority message arrived at index " +:+ pretty highIndex +:+
          " (order: " +:+ join "," received +:+ ")") t0
      else
        result pass s14_name ("priority:9 overtook the backlog (arrived at index " +:+ pretty highIndex +:+ ")") t0)
    (unsubscribe sub).

(** ** S15 *)

Definition s15_name : string := "S15 request/reply".

Definition responder (m : IncomingMessage) : Body :=
  match nonempty (im_replyTo m) with
  | Some replyTo =>
      Await (Publishing replyTo ("echo:" +:+ im_body m) None (correlated None (im_correlationId m)))
        (plainly ack)
  | None => ack
  end.

Definition requester (m : IncomingMessage) : Body := Do (push_msg "s15.replies" m) (λ _, ack).

Definition requestReply : M (World W) ScenarioResult :=
  t0 ← time;
  id_ ← nonce random6;
  let reqTopic := "mbc.s15.req." +:+ id_ in
  let replyTopic := "mbc.s15.reply." +:+ id_ in
  let correlationId := "corr-" +:+ id_ in
  respSub ← subscribe reqTopic responder (subscriber ("responder-" +:+ id_));
  _ ← declare "s15.replies" (UMsgs []);
  reqSub ← subscribe replyTopic requester (subscriber ("requester-" +:+ id_));
  finally (
    _ ← publish reqTopic "ping" None (correlated (Some replyTopic) (Some correlationId));
    got ← wait (λ vs, bool_decide (1 ≤ length (msgs "s15.replies" vs))) 6000;
    replies ← read (msgs "s15.replies");
    match (got : bool), replies with
    | true, reply :: _ =>
        if decide (im_body reply ≠ "echo:ping") then
          result fail s15_name ("unexpected reply body " +:+ quoted (im_body reply)) t0
        else if decide (im_correlationId reply ≠ Some correlationId) then
          result fail s15_name ("correlationId mismatch: " +:+ quoted (default "undefined" (im_correlationId reply)) +:+
            " != " +:+ quoted correlationId) t0
        else result pass s15_name ("correlated reply " +:+ quoted (im_body reply) +:+ " (correlationId matched)") t0
    | _, _ => result fail s15_name "no reply received" t0
    end)
    (_ ← unsubscribe respSub; unsubscribe reqSub).

(** ** S16 *)

Definition TTL_MS : Z := 600.

Definition s16_name : string := "S16 TTL → expiry".

Definition ttlExpiry : M (World W) ScenarioResult :=
  t0 ← time;
  n ← nonce random6;
  let t := "mbc.s16." +:+ n in
  n ← nonce random6;
  let subscriberId := "expiring-" +:+ n in
  warmup ← subscribe t (λ _, ack) (expiring subscriberId TTL_MS);
  _ ← unsubscribe warmup;
  n ← nonce random6;
  expiry ← start "s16.expiry" (expiryAddress t) None true (of_kind fanout None ("expiry-watch-" +:+ n));
  finally (
    _ ← publish t "perishable" None (with_ttl TTL_MS);
    landed ← wait (seen 1 expiry) 8000;
    body ← read (λ vs, default "undefined" (head (bodies expiry vs)));
    if negb landed then result fail s16_name "message never reached the expiry address" t0
    else if decide (body ≠ "perishable") then
      result fail s16_name ("unexpected expiry body " +:+ quoted body) t0
    else result pass s16_name "expired message landed on the expiry address" t0)
    (stop expiry).

(** ** S17 *)

Definition GAP_COUNT : nat := 5.

Definition s17_name : string := "S17 durable subscription".

Definition collect (x : string) (m : IncomingMessage) : Body := Do (push_str x (im_body m)) (λ _, ack).

(** The first of the expected bodies that was not received. *)
Definition first_missing (expected received : list string) : option string :=
  head (filter (λ e, e ∉ received) expected).

Definition durableSubscription : M (World W) ScenarioResult :=
  t0 ← time;
  n ← nonce random6;
  let t := "mbc.s17." +:+ n in
  n ← nonce random6;
  let subscriberId := "durable-" +:+ n in
  warmup ← subscribe t (λ _, ack) (subscriber subscriberId);
  _ ← unsubscribe warmup;
  _ ← sleep 200;
  let gap := (λ i, "gap-" +:+ pretty i) <$> seq 0 GAP_COUNT in
  _ ← publish_all ((λ body, publish t body None no_publish_options) <$> gap);
  _ ← sleep 200;
  _ ← declare "s17.received" (UStrs []);
  sub ← subscribe t (collect "s17.received") (subscriber subscriberId);
  finally (
    ok ← wait (λ vs, bool_decide (GAP_COUNT ≤ length (strs "s17.received" vs))) 8000;
    received ← read (strs "s17.received");
    if negb ok then
      result fail s17_name ("received " +:+ pretty (length received) +:+ "/" +:+ pretty GAP_COUNT +:+
        " after reattach") t0
    else
      match first_missing gap received with
      | Some e => result fail s17_name ("lost message " +:+ e +:+ " across the gap") t0
      | None =>
          result pass s17_name ("all " +:+ pretty GAP_COUNT +:+
            " offline messages retained and delivered on reattach") t0
      end)
    (unsubscribe sub).

(** ** S18 *)

Definition s18_name : string := "S18 single active consumer".

Definition s18_handler (x : string) (m : IncomingMessage) : Body :=
  Do (push_num x (js_Number (split_on "-" (im_body m) !! 1))) (λ _, Await (Settling Ack) (λ _, Return)).

Definition batch (t : Destination) (from n : nat) : list (M (World W) unit) :=
  (λ i, publish t ("m-" +:+ pretty i) None no_publish_options) <$> seq from n.

Definition singleActiveConsumer : M (World W) ScenarioResult :=
  t0 ← time;
  if negb (supportsManualAck bus_capabilities) then result unsupported s18_name "no manual ack on this broker" t0
  else
    n ← nonce random6;
    let t := "mbc.s18." +:+ n in
    n ← nonce random6;
    let queueId := "sac-" +:+ n in
    let a := "s18.byConsumer[0]" in
    let b := "s18.byConsumer[1]" in
    _ ← declare a (UNums []);
    _ ← declare b (UNums []);
    subA ← subscribe t (s18_handler a) (exclusive queueId);
    subB ← subscribe t (s18_handler b) (exclusive queueId);
    finally (
      _ ← publish_all (batch t 0 BATCH);
      firstBatchDone ← wait (λ vs, bool_decide (BATCH ≤ length (nums a vs) + length (nums b vs))) 8000;
      first_ ← read (λ vs, length (nums a vs) + length (nums b vs));
      if negb firstBatchDone then
        result fail s18_name ("only " +:+ pretty first_ +:+ "/" +:+ pretty BATCH +:+
          " of the first batch delivered") t0
      else
        _ ← sleep 200;
        vs ← read id;
        let activeIdx := if decide (length (nums b vs) ≤ length (nums a vs)) then 0 else 1 in
        let standbyIdx := if decide (activeIdx = 0) then 1 else 0 in
        let seq_of (i : nat) := nums (if decide (i = 0) then a else b) in
        if decide (length (seq_of standbyIdx vs) ≠ 0) then
          result fail s18_name ("both consumers were active before failover (" +:+
            pretty (length (nums a vs)) +:+ "/" +:+ pretty (length (nums b vs)) +:+ ")") t0
        else
          _ ← unsubscribe (if decide (activeIdx = 0) then subA else subB);
          _ ← sleep 300;
          _ ← publish_all (batch t BATCH (TOTAL18 - BATCH));
          let seen vs := length (remove_dups (nums a vs ++ nums b vs)) in
          ok ← wait (λ vs, bool_decide (TOTAL18 ≤ seen vs)) 8000;
          vs ← read id;
          if negb ok then
            result fail s18_name ("only " +:+ pretty (seen vs) +:+ "/" +:+ pretty TOTAL18 +:+
              " distinct messages delivered after failover") t0
          else
            _ ← sleep 200;
            vs ← read id;
            let active := seq_of activeIdx vs in
            let standby := seq_of standbyIdx vs in
            match s18_check activeIdx standbyIdx active standby with
            | Some detail => result fail s18_name detail t0
            | None =>
                result pass s18_name ("active served " +:+ pretty (length active) +:+
                  ", standby took over " +:+ pretty (length standby) +:+ " after failover, order preserved") t0
            end)
      (_ ← try_catch (unsubscribe subA) (λ _, mret tt); try_catch (unsubscribe subB) (λ _, mret tt)).

(** ** S19 *)

Definition N19 : nat := 8.

Definition s19_name : string := "S19 stream replay".

Definition streamReplay : M (World W) ScenarioResult :=
  t0 ← time;
  if negb (supportsStreamReplay bus_capabilities) then
    result unsupported s19_name "broker cannot replay consumed history (no stream/offset support)" t0
  else
    n ← nonce random6;
    let t := "mbc.s19." +:+ n in
    _ ← declare "s19.firstSeen" (UStrs []);
    first_ ← subscribe t (collect "s19.firstSeen") replaying;
    _ ← sleep 300;
    let events := (λ i, "evt-" +:+ pretty i) <$> seq 0 N19 in
    _ ← publish_all ((λ body, publish t body None no_publish_options) <$> events);
    firstOk ← wait (λ vs, bool_decide (N19 ≤ length (strs "s19.firstSeen" vs))) 10000;
    if negb firstOk then
      _ ← unsubscribe first_;
      firstSeen ← read (strs "s19.firstSeen");
      result fail s19_name ("establishing subscriber saw " +:+ pretty (length firstSeen) +:+ "/" +:+
        pretty N19 +:+ " live messages") t0
    else
      _ ← unsubscribe first_;
      _ ← sleep 300;
      _ ← declare "s19.replayed" (UStrs []);
      replay ← subscribe t (collect "s19.replayed") replaying;
      finally (
        ok ← wait (λ vs, bool_decide (N19 ≤ length (strs "s19.replayed" vs))) 12000;
        replayed ← read (strs "s19.replayed");
        if negb ok then
          result fail s19_name ("fresh subscriber replayed " +:+ pretty (length replayed) +:+ "/" +:+
            pretty N19 +:+ " from offset 0") t0
        else
          match first_missing events replayed with
          | Some e => result fail s19_name ("replay missing " +:+ e) t0
          | None =>
              result pass s19_name ("fresh subscriber replayed all " +:+ pretty N19 +:+
                " messages from offset 0 (full history)") t0
          end)
        (unsubscribe replay).

(** ** S20 *)

Definition COUNT : nat := 6.

Definition s20_name : string := "S20 handler fault isolation".

(** [attempts.set(body, (attempts.get(body) ?? 0) + 1)]. *)
Definition attempt_of (body : string) (vs : Vars) : Z :=
  default 0%Z (default None (map_get (pairs "s20.attempts" vs) body)).

Definition note_attempt (body : string) (vs : Vars) : Vars :=
  assign "s20.attempts" (UPairs (map_set (pairs "s20.attempts" vs) body (Some (attempt_of body vs + 1)%Z))) vs.

(** [acked.add(body)]. *)
Definition add_acked (body : string) (vs : Vars) : Vars :=
  if decide (body ∈ strs "s20.acked" vs) then vs else push_str "s20.acked" body vs.

Definition s20_handler (m : IncomingMessage) : Body :=
  Do (note_attempt (im_body m)) (λ vs,
    if decide (attempt_of (im_body m) vs = 1%Z) then
      Do (incr "s20.thrown") (λ _, Raise (OtherError ("simulated handler failure for " +:+ im_body m)))
    else Await (Settling Ack) (plainly (Do (add_acked (im_body m)) (λ _, Return)))).

Definition handlerFaultIsolation : M (World W) ScenarioResult :=
  t0 ← time;
  if negb (supportsManualAck bus_capabilities) then
    result unsupported s20_name "needs manual ack/redelivery to recover from a thrown handler" t0
  else
    n ← nonce random6;
    let t := "mbc.s20." +:+ n in
    n ← nonce random6;
    let subscriberId := "fault-" +:+ n in
    _ ← declare "s20.attempts" (UPairs []);
    _ ← declare "s20.acked" (UStrs []);
    _ ← declare "s20.thrown" (UNum 0);
    sub ← subscribe t s20_handler (subscriber subscriberId);
    finally (
      _ ← publish_all ((λ i, publish t ("msg-" +:+ pretty i) None no_publish_options) <$> seq 0 COUNT);
      ok ← wait (λ vs, bool_decide (COUNT ≤ length (strs "s20.acked" vs))) 30000;
      vs ← read id;
      let thrown := default 0%Z (num "s20.thrown" vs) in
      if (ok : bool) then
        result pass s20_name ("consumer survived " +:+ pretty thrown +:+ " handler exceptions; all " +:+
          pretty COUNT +:+ " messages processed on retry") t0
      else
        result fail s20_name ("only " +:+ pretty (length (strs "s20.acked" vs)) +:+ "/" +:+ pretty COUNT +:+
          " recovered after a thrown handler (exceptions=" +:+ pretty thrown +:+ ")") t0)
      (unsubscribe sub).
End features.
