(* ===== verification/Verdicts.v ===== *)
(** What the checks of the bus scenarios decide: the group check of S12 accepts exactly
    the histories in which every group was delivered whole, in order, to one consumer,
    and the check of S9 exactly the fair splits without loss or repetition. *)

From stdpp Require Import pretty.
From S2P Require Import Prelude Abstractions TopicMatch EventLoop BusScenarios FeatureScenarios.
From Stdlib Require Import Ascii.

(** ** Ordered runs *)

(** A strictly increasing run below [b] fits under it. *)
Lemma in_order_fits x l b :
  out_of_order (Some <$> x :: l) = false → Forall (λ y, y < b)%Z (x :: l) → (x + Z.of_nat (length l) < b)%Z.
Proof.
  revert x. induction l as [|y l IH]; intros x Ho Hb; [rewrite Forall_singleton in Hb; simpl in *; lia|].
  cbn in Ho. apply orb_false_iff in Ho as [Hxy Ho]. apply Forall_cons in Hb as [_ Hb].
  specialize (IH y Ho Hb). apply bool_decide_eq_false in Hxy. simpl in *. lia.
Qed.

(** In a strictly increasing run the first is the least. *)
Lemma in_order_head x l : out_of_order (Some <$> x :: l) = false → Forall (λ y, x < y)%Z l.
Proof.
  revert x. induction l as [|y l IH]; intros x Ho; [done|].
  cbn in Ho. apply orb_false_iff in Ho as [Hxy Ho]. apply bool_decide_eq_false in Hxy.
  constructor; [lia|]. eapply Forall_impl; [exact (IH y Ho)|]. intros z Hz. simpl in *. lia.
Qed.

(** A strictly increasing run that fills an interval is the interval. *)
Lemma in_order_interval a l :
  out_of_order (Some <$> l) = false → Forall (λ y, a ≤ y < a + Z.of_nat (length l))%Z l →
  l = seqZ a (Z.of_nat (length l)).
Proof.
  revert a. induction l as [|x l IH]; intros a Ho Hf; [done|].
  assert (Hx : x = a).
  { assert (Hb : Forall (λ y, y < a + Z.of_nat (S (length l)))%Z (x :: l)).
    { eapply Forall_impl; [exact Hf|]. simpl. intros y Hy. lia. }
    pose proof (in_order_fits x l _ Ho Hb). apply Forall_cons in Hf as [Hf _]. simpl in *. lia. }
  subst x. pose proof (in_order_head _ _ Ho) as Hh. rewrite seqZ_cons by (simpl; lia). f_equal.
  replace (Z.pred (Z.of_nat (length (a :: l)))) with (Z.of_nat (length l)) by (simpl; lia).
  apply IH.
  - destruct l as [|y l]; [done|]. cbn in Ho. by apply orb_false_iff in Ho as [_ Ho].
  - apply Forall_cons in Hf as [_ Hf]. rewrite Forall_forall in *. intros y Hy.
    specialize (Hf y Hy). specialize (Hh y Hy). simpl in *. lia.
Qed.

(** ** The group check of S12 *)

Implicit Types entries : list (string * option Z).

Lemma seqs_of_snoc g entries e :
  seqs_of g (entries ++ [e]) = seqs_of g entries ++ (if decide (e.1 = g) then [e.2] else []).
Proof.
  unfold seqs_of. rewrite filter_app, fmap_app. f_equal. rewrite filter_cons. by case_decide.
Qed.

Lemma seqs_of_nil g entries : seqs_of g entries = [] ↔ g ∉ entries.*1.
Proof.
  induction entries as [|e entries IH]; [by split; [intros _ Hn%elem_of_nil|]|].
  unfold seqs_of in *. rewrite filter_cons, fmap_cons, not_elem_of_cons. case_decide as Hg.
  - split; [done|]. by intros [Hn _]; destruct Hn.
  - rewrite IH. split; [intros; by split|by intros [_ ?]].
Qed.

(** The owners of a group, in order of consumer. *)
Definition owners_of (g : string) (owners : list (string * list nat)) : list nat :=
  default [] (map_get owners g).

(** One consumer's entries: the sequences of each group, and the owners afterwards. *)
Lemma note_entries i entries owners :
  (∀ g, NoDup (owners_of g owners)) →
  let '(owners', per) := foldl (note_entry i) (owners, []) entries in
  NoDup per.*1 ∧ (∀ g, default [] (map_get per g) = seqs_of g entries) ∧
  (∀ g, NoDup (owners_of g owners')) ∧
  (∀ g j, j ∈ owners_of g owners' ↔ j ∈ owners_of g owners ∨ (j = i ∧ g ∈ entries.*1)).
Proof.
  intros Ho. induction entries as [|e entries IH] using rev_ind.
  - simpl. split_and!; [apply NoDup_nil_2|done|done|]. intros g j. set_solver.
  - rewrite foldl_app. simpl. destruct (foldl (note_entry i) (owners, []) entries) as [ow per].
    destruct IH as (Hnd & Hper & Hown & Hmem). unfold note_entry. simpl.
    split; [by apply map_set_NoDup|]. split; [|split].
    + intros g. rewrite seqs_of_snoc. destruct (decide (e.1 = g)) as [<-|Hne].
      * by rewrite map_get_set_eq, Hper.
      * by rewrite map_get_set_ne, Hper, app_nil_r.
    + intros g. unfold owners_of in *. destruct (decide (e.1 = g)) as [<-|Hne].
      * rewrite map_get_set_eq. simpl. case_decide; [done|]. apply NoDup_app.
        split; [done|]. split; [set_solver|apply NoDup_singleton].
      * by rewrite map_get_set_ne.
    + intros g j. rewrite fmap_app, elem_of_app. cbn [fmap list_fmap]. rewrite list_elem_of_singleton.
      unfold owners_of in *. destruct (decide (e.1 = g)) as [<-|Hne].
      * rewrite map_get_set_eq. simpl. specialize (Hmem e.1 j).
        destruct (decide (i ∈ default [] (map_get ow e.1))) as [Hi|Hi].
        -- naive_solver.
        -- rewrite elem_of_app, list_elem_of_singleton. naive_solver.
      * rewrite map_get_set_ne by done. specialize (Hmem g j). naive_solver.
Qed.

Lemma per_out_of_order (per : list (string * list (option Z))) entries :
  NoDup per.*1 → (∀ g, default [] (map_get per g) = seqs_of g entries) →
  filter (λ p, out_of_order p.2 = true) per = [] ↔ ∀ g, out_of_order (seqs_of g entries) = false.
Proof.
  intros Hnd Hper. split.
  - intros Hf g. rewrite <- Hper. destruct (map_get per g) as [l|] eqn:E; [|done]. simpl.
    apply not_true_iff_false. intros Ho. apply map_get_Some_elem in E.
    assert (Hin : (g, l) ∈ filter (λ p, out_of_order p.2 = true) per) by by apply list_elem_of_filter.
    rewrite Hf in Hin. by apply elem_of_nil in Hin.
  - intros Ho. destruct (filter _ per) as [|[g l] rest] eqn:E; [done|]. exfalso.
    assert (Hin : (g, l) ∈ filter (λ p, out_of_order p.2 = true) per) by (rewrite E; left).
    apply list_elem_of_filter in Hin as [Hl Hin]. simpl in Hl. specialize (Ho g).
    rewrite <- Hper, (map_get_elem _ _ _ Hnd Hin) in Ho. simpl in Ho. congruence.
Qed.

Lemma scan_spec i by_ owners :
  (∀ g, NoDup (owners_of g owners)) →
  match scan_consumers i by_ owners with
  | inl _ => ∃ entries g, entries ∈ by_ ∧ out_of_order (seqs_of g entries) = true
  | inr owners' =>
      (∀ entries g, entries ∈ by_ → out_of_order (seqs_of g entries) = false) ∧
      (∀ g, NoDup (owners_of g owners')) ∧
      (∀ g j, j ∈ owners_of g owners' ↔
         j ∈ owners_of g owners ∨ ∃ k entries, by_ !! k = Some entries ∧ j = i + k ∧ g ∈ entries.*1)
  end.
Proof.
  revert i owners. induction by_ as [|entries by_ IH]; intros i owners Ho; simpl.
  - split; [by intros ? ? ?%elem_of_nil|]. split; [done|]. intros g j. split; [by left|].
    by intros [?|(k & e & Hk & _)].
  - pose proof (note_entries i entries owners Ho) as Hn.
    destruct (foldl (note_entry i) (owners, []) entries) as [ow per]. destruct Hn as (Hnd & Hper & Hown & Hmem).
    pose proof (per_out_of_order per entries Hnd Hper) as Hf.
    destruct (filter (λ p, out_of_order p.2 = true) per) as [|[g l] rest] eqn:Ef.
    + specialize (IH (S i) ow Hown). destruct (scan_consumers (S i) by_ ow) as [d|ow'].
      * destruct IH as (e & g & He & Hg). exists e, g. split; [by right|done].
      * destruct IH as (Hord & Hnd' & Hmem'). split; [|split; [done|]].
        -- intros e g [->|He]%elem_of_cons; [by apply Hf|by apply Hord].
        -- intros g j. rewrite Hmem', Hmem. split.
           ++ intros [[?|[-> Hin]]|(k & e & Hk & -> & Hin)]; [by left|right; exists 0, entries|right; exists (S k), e].
              ** split; [done|]. split; [lia|done].
              ** split; [done|]. split; [lia|done].
           ++ intros [?|([|k] & e & Hk & -> & Hin)]; [by left; left| |].
              ** simpl in Hk. injection Hk as <-. left. right. split; [lia|done].
              ** right. exists k, e. split; [done|]. split; [lia|done].
    + assert (Hin : (g, l) ∈ filter (λ p, out_of_order p.2 = true) per) by (rewrite Ef; left).
      apply list_elem_of_filter in Hin as [Hl Hin]. exists entries, g. split; [by left|].
      by rewrite <- Hper, (map_get_elem _ _ _ Hnd Hin).
Qed.

Lemma check_groups_spec gs by_ owners :
  check_groups gs by_ owners = None ↔
  ∀ g, g ∈ gs → ∃ i, owners_of g owners = [i] ∧ length (seqs_of g (default [] (by_ !! i))) = PER_GROUP.
Proof.
  induction gs as [|g gs IH]; [by split; [intros _ ? ?%elem_of_nil|]|]. simpl. unfold owners_of in *.
  setoid_rewrite elem_of_cons.
  destruct (map_get owners g) as [[|i [|i' l]]|] eqn:E; simpl.
  - split; [done|]. intros Hg. destruct (Hg g (or_introl eq_refl)) as (i & Hi & _). by rewrite E in Hi.
  - case_decide as Hl.
    + split; [done|]. intros Hg. destruct (Hg g (or_introl eq_refl)) as (j & Hj & Hn). rewrite E in Hj.
      simpl in Hj. injection Hj as <-. done.
    + rewrite IH. split.
      * intros Hg g' [->|Hin]; [|by apply Hg]. exists i. by rewrite E.
      * intros Hg g' Hin. apply Hg. by right.
  - split; [done|]. intros Hg. destruct (Hg g (or_introl eq_refl)) as (j & Hj & _). by rewrite E in Hj.
  - split; [done|]. intros Hg. destruct (Hg g (or_introl eq_refl)) as (j & Hj & _). by rewrite E in Hj.
Qed.

(** What the check accepts, of any history. *)
Lemma s12_check_spec by_ :
  s12_check by_ = None ↔
  (∀ entries g, entries ∈ by_ → out_of_order (seqs_of g entries) = false) ∧
  ∀ g, g ∈ GROUPS → ∃ i entries, by_ !! i = Some entries ∧ length (seqs_of g entries) = PER_GROUP ∧
    ∀ j entries', by_ !! j = Some entries' → j ≠ i → seqs_of g entries' = [].
Proof.
  unfold s12_check. pose proof (scan_spec 0 by_ [] (λ g, NoDup_nil_2)) as Hs.
  destruct (scan_consumers 0 by_ []) as [d|owners].
  - split; [done|]. intros [Hord _]. destruct Hs as (e & g & He & Hg). by rewrite Hord in Hg.
  - destruct Hs as (Hord & Hnd & Hmem). rewrite check_groups_spec.
    assert (Hown : ∀ g j, j ∈ owners_of g owners ↔ ∃ entries, by_ !! j = Some entries ∧ g ∈ entries.*1).
    { intros g j. rewrite Hmem. split.
      - intros [?%elem_of_nil|(k & e & Hk & -> & Hin)]; [done|]. by exists e.
      - intros (e & He & Hin). right. by exists j, e. }
    split.
    + intros Hg. split; [done|]. intros g Hin. destruct (Hg g Hin) as (i & Ho & Hl).
      assert (Hi : i ∈ owners_of g owners) by (rewrite Ho; left).
      apply Hown in Hi as (e & He & _). exists i, e. rewrite He in Hl. split; [done|]. split; [done|].
      intros j e' He' Hne. apply seqs_of_nil. intros Hg'. apply Hne.
      assert (Hj : j ∈ owners_of g owners) by (apply Hown; by exists e').
      rewrite Ho in Hj. by apply list_elem_of_singleton in Hj.
    + intros [_ Hg] g Hin. destruct (Hg g Hin) as (i & e & He & Hl & Hoth). exists i.
      rewrite He. split; [|done].
      assert (Hi : g ∈ e.*1).
      { destruct (decide (g ∈ e.*1)) as [?|Hn]; [done|]. rewrite (proj2 (seqs_of_nil _ _) Hn) in Hl. done. }
      assert (Hall : ∀ j, j ∈ owners_of g owners ↔ j = i).
      { intros j. rewrite Hown. split.
        - intros (e' & He' & Hin'). destruct (decide (j = i)) as [|Hne]; [done|].
          by apply (Hoth j e' He'), seqs_of_nil in Hne.
        - intros ->. by exists e. }
      specialize (Hnd g). destruct (owners_of g owners) as [|x [|y l]].
      * pose proof (proj2 (Hall i) eq_refl) as Hi'. by apply elem_of_nil in Hi'.
      * f_equal. apply Hall. left.
      * exfalso. apply NoDup_cons in Hnd as [Hx _]. apply Hx.
        assert (x = i) as -> by (apply Hall; left). assert (y = i) as -> by (apply Hall; right; left). left.
Qed.

(** Lists of numbers that are all present. *)
Lemma somes (l : list (option Z)) P :
  Forall (λ x, ∃ n, x = Some n ∧ P n) l → ∃ ns, l = Some <$> ns ∧ Forall P ns.
Proof.
  induction 1 as [|x l (n & -> & Hn) Hl (ns & -> & Hns)]; [by exists []|]. exists (n :: ns). by split; [|constructor].
Qed.

(** Everything a consumer received was published. *)
Definition published_entries entries : Prop :=
  ∀ e, e ∈ entries → e ∈ (λ p, group_entry p.2) <$> s12_bodies.

Lemma published_entry e :
  e ∈ (λ p, group_entry p.2) <$> s12_bodies → e.1 ∈ GROUPS ∧ ∃ n, e.2 = Some n ∧ (0 ≤ n < 6)%Z.
Proof.
  revert e. apply Forall_forall. vm_compute.
  repeat (apply Forall_cons; split; [split; [set_solver|eexists; split; [reflexivity|split; done]]|]). done.
Qed.

Definition whole_group : list (option Z) := [Some 0; Some 1; Some 2; Some 3; Some 4; Some 5]%Z.

Lemma ordered_group_whole g entries :
  published_entries entries → out_of_order (seqs_of g entries) = false →
  length (seqs_of g entries) = PER_GROUP ↔ seqs_of g entries = whole_group.
Proof.
  intros Hp Ho. split; [|by intros ->]. intros Hl.
  assert (Hall : Forall (λ x, ∃ n, x = Some n ∧ (0 ≤ n < 6)%Z) (seqs_of g entries)).
  { apply Forall_forall. intros x Hx. unfold seqs_of in Hx.
    apply list_elem_of_fmap in Hx as (e & -> & He). apply list_elem_of_filter in He as [_ He].
    by apply published_entry, Hp. }
  destruct (somes _ _ Hall) as (ns & Ens & Hns). rewrite Ens in *. rewrite length_fmap in Hl.
  rewrite (in_order_interval 0 ns Ho); [by rewrite Hl|].
  eapply Forall_impl; [exact Hns|]. simpl. rewrite Hl. unfold PER_GROUP. intros; lia.
Qed.

(** ** The check of S9 *)

Lemma remove_dups_length (l : list string) : length (remove_dups l) ≤ length l.
Proof. induction l as [|x l IH]; simpl; [done|]. case_decide; simpl; lia. Qed.

Lemma remove_dups_full (l : list string) : length (remove_dups l) = length l ↔ NoDup l.
Proof.
  induction l as [|x l IH]; simpl; [split; [by intros _; apply NoDup_nil_2|done]|].
  rewrite NoDup_cons. case_decide as Hx; simpl.
  - pose proof (remove_dups_length l). split; [lia|]. by intros [? _].
  - rewrite <- IH. split; [intros; split; [done|lia]|intros [_ ->]; done].
Qed.

Definition job_bodies : list string := (λ i, "job-" +:+ pretty i) <$> seq 0 MESSAGE_COUNT.

(** ** Properties *)

(** C23: the check of S12 is exact.  When the consumers received only what the scenario
    published, the check passes if and only if every group was delivered to one
    consumer, which saw its whole sequence 0 to 5 in order, and to no other. *)
Theorem group_check_exact (by_ : list (list (string * option Z))) :
  (∀ entries, entries ∈ by_ → published_entries entries) →
  s12_check by_ = None ↔
  ∀ g, g ∈ GROUPS → ∃ i entries, by_ !! i = Some entries ∧ seqs_of g entries = whole_group ∧
    ∀ j entries', by_ !! j = Some entries' → j ≠ i → seqs_of g entries' = [].
Proof.
  intros Hp. rewrite s12_check_spec. split.
  - intros [Ho Hg] g Hin. destruct (Hg g Hin) as (i & e & He & Hl & Hoth).
    exists i, e. split; [done|]. split; [|done]. apply list_elem_of_lookup_2 in He.
    apply ordered_group_whole; [by apply Hp|by apply Ho|done].
  - intros Hg. split.
    + intros e g He. destruct (decide (g ∈ GROUPS)) as [Hin|Hin].
      * destruct (Hg g Hin) as (i & e' & He' & Hw & Hoth). apply list_elem_of_lookup in He as (j & Hj).
        destruct (decide (j = i)) as [->|Hne]; [|by rewrite (Hoth j e Hj Hne)].
        rewrite Hj in He'. injection He' as <-. by rewrite Hw.
      * rewrite (proj2 (seqs_of_nil g e)); [done|]. intros (x & -> & Hx)%list_elem_of_fmap.
        apply Hin. by apply published_entry, (Hp e).
    + intros g Hin. destruct (Hg g Hin) as (i & e & He & Hw & Hoth). exists i, e. by rewrite Hw.
Qed.

(** A fair history: groups a and b on one consumer, c on the other. *)
Definition fair_groups : list (list (string * option Z)) :=
  let of_group g := (λ e : string * string, group_entry e.2) <$> filter (λ e, e.1 = g) s12_bodies in
  [of_group "a" ++ of_group "b"; of_group "c"].

Lemma group_check_exact_witness :
  s12_check fair_groups = None ↔
  ∀ g, g ∈ GROUPS → ∃ i entries, fair_groups !! i = Some entries ∧ seqs_of g entries = whole_group ∧
    ∀ j entries', fair_groups !! j = Some entries' → j ≠ i → seqs_of g entries' = [].
Proof.
  apply (group_check_exact fair_groups). intros entries He e Hin.
  assert (Hall : Forall (λ l, Forall (λ e, e ∈ (λ p, group_entry p.2) <$> s12_bodies) l) fair_groups).
  { apply (bool_decide_unpack _). vm_compute. exact Logic.I. }
  rewrite Forall_forall in Hall. specialize (Hall entries He). rewrite Forall_forall in Hall. by apply Hall.
Defined.

(** the check of S9 is exact.  When the two consumers received only published jobs,
    the check passes if and only if together they received every job exactly once and
    neither received none. *)
Theorem competing_check_exact (a b : list string) :
  (∀ x, x ∈ a ++ b → x ∈ job_bodies) →
  s9_check true a b = None ↔ a ++ b ≡ₚ job_bodies ∧ a ≠ [] ∧ b ≠ [].
Proof.
  intros Hin. unfold s9_check.
  assert (Hlen : length job_bodies = MESSAGE_COUNT) by done.
  assert (Hperm : length (a ++ b) = MESSAGE_COUNT → NoDup (a ++ b) → a ++ b ≡ₚ job_bodies).
  { intros Hl Hnd. apply submseteq_length_Permutation; [by apply NoDup_submseteq|by rewrite Hl, Hlen]. }
  case_decide as H1; [|case_decide as H2; [|case_decide as H3]].
  - split; [done|]. intros (Hp & _). apply Permutation_length in Hp. rewrite Hlen in Hp. naive_solver.
  - split; [done|]. intros (Hp & _). exfalso. apply H2. rewrite <- Hlen, <- (Permutation_length Hp).
    apply remove_dups_full. rewrite Hp. apply (bool_decide_unpack _). vm_compute. exact Logic.I.
  - split; [done|]. intros (_ & Ha & Hb). by destruct H3 as [->%nil_length_inv| ->%nil_length_inv].
  - split; [|done]. intros _.
    assert (Hl : length (a ++ b) = MESSAGE_COUNT).
    { destruct (decide (length (a ++ b) = MESSAGE_COUNT)); [done|]. destruct H1. by right. }
    split; [|split; intros ->; apply H3; [by left|by right]].
    apply Hperm; [done|]. apply remove_dups_full. by rewrite Hl.
Qed.

Lemma competing_check_exact_witness :
  s9_check true ["job-1"] ["job-0"] = None ↔
  ["job-1"] ++ ["job-0"] ≡ₚ job_bodies ∧ ["job-1"] ≠ [] ∧ ["job-0"] ≠ [].
Proof.
  apply (competing_check_exact ["job-1"] ["job-0"]). apply Forall_forall.
  apply (bool_decide_unpack _). vm_compute. exact Logic.I.
Defined.
