(* ===== verification/LoopTheory.v ===== *)
(** What the event loop of EventLoop.v guarantees over any adapter that obeys the laws
    of a host: the loop's queue and its timers are exactly the adapter's, time only
    moves forward, and a pause ends with no turn and no timer left that could run. *)

From S2P Require Import Prelude Abstractions Ports Client InMemoryScheduler EventLoop.

(** ** The laws of a host

    [I] is an invariant of the adapter.  A call queues microtasks and arms timers but
    takes none away and does not move the clock. *)
Section laws.
Context {W : Type} `{BusHost W}.

Record calm (a a' : W) : Prop := {
  calm_clock : clock a' = clock a;
  calm_microtasks : host_microtasks a ≤ host_microtasks a';
  calm_timers : length (host_timers a) ≤ length (host_timers a')
}.

Class HostLaws (I : W → Prop) := {
  law_publish t b rk o a : I a → I (bus_publish t b rk o a).2 ∧ calm a (bus_publish t b rk o a).2;
  law_subscribe t h o a : I a → I (bus_subscribe t h o a).2 ∧ calm a (bus_subscribe t h o a).2;
  law_unsubscribe s a : I a → I (bus_unsubscribe s a).2 ∧ calm a (bus_unsubscribe s a).2;
  law_settle d s a : I a → I (host_settle d s a).2 ∧ calm a (host_settle d s a).2;
  law_dispose a : I a → I (host_dispose a).2 ∧ calm a (host_dispose a).2;
  law_finished d r a : I a → I (host_finished d r a) ∧ calm a (host_finished d r a);
  law_turn a : I a → 0 < host_microtasks a →
    I (host_turn a).2 ∧ clock (host_turn a).2 = clock a ∧
    host_microtasks a ≤ S (host_microtasks (host_turn a).2) ∧
    length (host_timers a) ≤ length (host_timers (host_turn a).2);
  law_fire i a : I a → i < length (host_timers a) →
    I (host_fire i a) ∧ clock (host_fire i a) = clock a ∧
    host_microtasks a ≤ host_microtasks (host_fire i a) ∧
    length (host_timers a) ≤ S (length (host_timers (host_fire i a)));
  law_advance ms a : I a → (0 ≤ ms)%Z →
    I (host_advance ms a) ∧ clock (host_advance ms a) = (clock a + ms)%Z ∧
    host_microtasks (host_advance ms a) = host_microtasks a ∧
    host_timers (host_advance ms a) = host_timers a
}.
End laws.
Arguments HostLaws {W H H0 H1} I.

Section theory.
Context {W : Type} `{BusHost W} (I : W → Prop) `{!HostLaws I}.
Implicit Types w : World W.

(** ** The invariant *)

Definition adapter_turns w : nat := length (filter is_adapter_turn (lp_ready (wd_loop w))).

(** Every timer of the loop, the adapter's and the sleeping handlers'. *)
Definition due_times w : list Z := lp_due (wd_loop w) ++ (lp_sleeping (wd_loop w)).*1.

Record in_step w : Prop := {
  st_adapter : I (wd_adapter w);
  st_turns : adapter_turns w = host_microtasks (wd_adapter w);
  st_timers : length (lp_due (wd_loop w)) = length (host_timers (wd_adapter w));
  st_late : Forall (λ t, clock (wd_adapter w) ≤ t)%Z (due_times w)
}.

(** Between a call on the adapter and [sync]. *)
Record behind w : Prop := {
  bh_adapter : I (wd_adapter w);
  bh_turns : adapter_turns w ≤ host_microtasks (wd_adapter w);
  bh_timers : length (lp_due (wd_loop w)) ≤ length (host_timers (wd_adapter w));
  bh_late : Forall (λ t, clock (wd_adapter w) ≤ t)%Z (due_times w)
}.

Lemma timer_delay_pos ms : (1 ≤ timer_delay ms)%Z.
Proof. unfold timer_delay. case_decide; lia. Qed.

Lemma filter_adapter_replicate n : length (filter is_adapter_turn (replicate n AdapterTurn)) = n.
Proof. induction n as [|n IH]; [done|]. simpl. by f_equal. Qed.

Lemma sync_in_step w : behind w → in_step (sync w).
Proof.
  intros [Hi Ht Hd Hl]. unfold sync, adapter_turns, due_times in *. split; simpl; [done|..].
  - unfold adapter_turns. simpl. rewrite filter_app, length_app, filter_adapter_replicate. lia.
  - rewrite length_app, length_fmap, length_drop. lia.
  - unfold due_times. simpl. apply Forall_app in Hl as [Hl Hs].
    rewrite !Forall_app. split; [split; [done|]|done].
    apply Forall_fmap, Forall_true. intros d. simpl. pose proof (timer_delay_pos d). lia.
Qed.

Lemma sync_clock w : clock (wd_adapter (sync w)) = clock (wd_adapter w).
Proof. done. Qed.

Lemma calm_behind w a : in_step w → I a → calm (wd_adapter w) a → behind (put_adapter a w).
Proof.
  intros [Hi Ht Hd Hl] Ha [Hc Hm Hn]. split; simpl; [done|..].
  - unfold adapter_turns in *. simpl. lia.
  - lia.
  - unfold due_times in *. simpl. by rewrite Hc.
Qed.

(** A state reached at the same time. *)
Definition same_time w w' : Prop := in_step w' ∧ clock (wd_adapter w') = clock (wd_adapter w).

Lemma call_in_step {A} (m : M W A) w :
  in_step w → I (m (wd_adapter w)).2 → calm (wd_adapter w) (m (wd_adapter w)).2 →
  same_time w (sync (on m w).2).
Proof.
  intros Hw Hi Hc. unfold on, lift. destruct (m (wd_adapter w)) as [r a]. simpl in *. split.
  - by apply sync_in_step, calm_behind.
  - rewrite sync_clock. simpl. by destruct Hc.
Qed.

Lemma put_vars_in_step vs w : in_step w → in_step (put_vars vs w).
Proof. intros [Hi Ht Hd Hl]. by split. Qed.

Lemma add_body_in_step h f w : in_step w → in_step (add_body h f w).
Proof. intros [Hi Ht Hd Hl]. by split. Qed.

Lemma enqueue_in_step t w : in_step w → in_step (enqueue (ThreadTurn t) w).
Proof.
  intros [Hi Ht Hd Hl]. split; simpl; try done. unfold adapter_turns in *. simpl.
  by rewrite filter_app, length_app, Nat.add_0_r.
Qed.

Lemma run_body_in_step d b w : in_step w → same_time w (run_body d b w).
Proof.
  revert w. induction b as [|e|f k IH|k IH|c k IH]; intros w Hw; simpl.
  - destruct (law_finished d None _ (st_adapter _ Hw)) as [Hi Hc].
    split; [by apply sync_in_step, calm_behind|]. by destruct Hc.
  - destruct (law_finished d (Some e) _ (st_adapter _ Hw)) as [Hi Hc].
    split; [by apply sync_in_step, calm_behind|]. by destruct Hc.
  - exact (IH _ _ (put_vars_in_step (f (vars_of w)) w Hw)).
  - by apply IH.
  - destruct c as [s|t b rk o|ms| |].
    + destruct (law_settle d s _ (st_adapter _ Hw)) as [Hi Hc].
      pose proof (call_in_step (host_settle d s) w Hw Hi Hc) as [Hs Ht].
      destruct (on (host_settle d s) w) as [r w']. split; [by apply enqueue_in_step|done].
    + destruct (law_publish t b rk o _ (st_adapter _ Hw)) as [Hi Hc].
      pose proof (call_in_step (bus_publish t b rk o) w Hw Hi Hc) as [Hs Ht].
      destruct (on (bus_publish t b rk o) w) as [r w']. split; [by apply enqueue_in_step|done].
    + split; [|done]. destruct Hw as [Hi Ht Hd Hl]. split; simpl; try done.
      unfold due_times in *. simpl. rewrite fmap_app, app_assoc, Forall_app. split; [done|].
      apply Forall_singleton. simpl. pose proof (timer_delay_pos ms). lia.
    + destruct (law_dispose _ (st_adapter _ Hw)) as [Hi Hc].
      pose proof (call_in_step host_dispose w Hw Hi Hc) as [Hs Ht].
      destruct (on host_dispose w) as [r w']. split; [by apply enqueue_in_step|done].
    + split; [by apply enqueue_in_step|done].
Qed.

Lemma put_ready_thread w t rest :
  in_step w → lp_ready (wd_loop w) = ThreadTurn t :: rest → in_step (put_ready rest w).
Proof.
  intros [Hi Ht Hd Hl] E. split; simpl; try done. rewrite <- Ht. unfold adapter_turns. by rewrite E.
Qed.

Lemma take_turn_in_step w : in_step w → same_time w (take_turn w).
Proof.
  intros Hw. unfold take_turn. destruct (lp_ready (wd_loop w)) as [|[|t] rest] eqn:E; [by split| |].
  - assert (Hpos : adapter_turns w = S (adapter_turns (put_ready rest w))).
    { unfold adapter_turns. by rewrite E. }
    destruct Hw as [Hi Ht Hd Hl]. rewrite Ht in Hpos.
    destruct (law_turn (wd_adapter w) Hi) as (Hi' & Hc & Hm & Hn); [lia|]. simpl.
    destruct (host_turn (wd_adapter w)) as [call a]. simpl in *.
    assert (Hs : same_time w (sync (put_adapter a (put_ready rest w)))).
    { split; [|done]. apply sync_in_step. split; simpl; [done|..].
      - change (adapter_turns (put_adapter a (put_ready rest w))) with (adapter_turns (put_ready rest w)). lia.
      - lia.
      - unfold due_times in *. simpl. by rewrite Hc. }
    destruct call as [[[d h] m]|]; [|done]. destruct (body_of h _) as [f|]; [|done].
    destruct Hs as [Hs Htime]. destruct (run_body_in_step d (f m) _ Hs) as [? Heq]. split; [done|].
    by rewrite Heq.
  - destruct (run_body_in_step (th_delivery t) (th_body t) _ (put_ready_thread w t rest Hw E)) as [? Heq].
    split; [done|]. exact Heq.
Qed.

Lemma turns_in_step n w : in_step w → same_time w (turns n w).
Proof.
  revert w. induction n as [|n IH]; intros w Hw; [by split|]. simpl.
  destruct (take_turn_in_step w Hw) as [H1' E1]. destruct (IH _ H1') as [H2' E2]. split; [done|]. congruence.
Qed.

Lemma tick_in_step w : in_step w → same_time w (tick w).
Proof. apply turns_in_step. Qed.

(** ** Timers *)

Lemma earliest_Some l i t : earliest l = Some (i, t) → l !! i = Some t ∧ Forall (Z.le t) l.
Proof.
  revert i t. induction l as [|u l IH]; intros i t; simpl; [done|].
  destruct (earliest l) as [[j v]|] eqn:E.
  - destruct (IH j v eq_refl) as [Hj Hl]. case_decide; intros [= <- <-]; simpl.
    + split; [done|]. constructor; [lia|done].
    + split; [done|]. constructor; [lia|]. eapply Forall_impl; [exact Hl|]. intros; lia.
  - intros [= <- <-]. split; [done|]. constructor; [lia|]. destruct l as [|x l]; [done|]. simpl in E.
    destruct (earliest l) as [[? ?]|]; [case_decide; done|done].
Qed.

Lemma earliest_None l : earliest l = None → l = [].
Proof. destruct l as [|x l]; [done|]. simpl. destruct (earliest l) as [[? ?]|]; [case_decide; done|done]. Qed.

(** The timer an event stands for falls due at [t]. *)
Definition event_at (e : TimerEvent) (t : Z) w : Prop :=
  match e with
  | AdapterTimer i => lp_due (wd_loop w) !! i = Some t
  | Wake j => (lp_sleeping (wd_loop w)).*1 !! j = Some t
  end.

Lemma next_event_spec w :
  match next_event w with
  | Some (e, t) => event_at e t w ∧ Forall (Z.le t) (due_times w)
  | None => due_times w = []
  end.
Proof.
  unfold next_event, due_times.
  destruct (earliest (lp_due (wd_loop w))) as [[i t]|] eqn:E1;
    destruct (earliest (lp_sleeping (wd_loop w)).*1) as [[j u]|] eqn:E2.
  - apply earliest_Some in E1 as [Hi Hl], E2 as [Hj Hs]. case_decide; simpl; (split; [done|]);
      apply Forall_app; (split; [|]); try done; (eapply Forall_impl; [eassumption|]); intros; simpl in *; lia.
  - apply earliest_Some in E1 as [Hi Hl]. apply earliest_None in E2. rewrite E2, app_nil_r. by split.
  - apply earliest_Some in E2 as [Hj Hs]. apply earliest_None in E1. rewrite E1. by split.
  - apply earliest_None in E1, E2. by rewrite E1, E2.
Qed.

Lemma advance_to_in_step t w :
  in_step w → (clock (wd_adapter w) ≤ t)%Z → Forall (Z.le t) (due_times w) →
  in_step (advance_to t w) ∧ clock (wd_adapter (advance_to t w)) = t.
Proof.
  intros [Hi Ht Hd Hl] Hc Hf.
  destruct (law_advance (t - clock (wd_adapter w)) _ Hi) as (Hi' & Hc' & Hm & Hn); [lia|].
  assert (E : clock (wd_adapter (advance_to t w)) = t) by (simpl; lia). split; [|done].
  unfold advance_to in *. split; simpl in *; [done|..].
  - rewrite Hm. exact Ht.
  - by rewrite Hn.
  - rewrite E. exact Hf.
Qed.

Lemma delete_length {A} (l : list A) i x : l !! i = Some x → length l = S (length (delete i l)).
Proof. intros Hi. pose proof (length_delete l i (mk_is_Some _ _ Hi)). apply lookup_lt_Some in Hi. lia. Qed.

Lemma Forall_delete {A} (P : A → Prop) (l : list A) i : Forall P l → Forall P (delete i l).
Proof. intros Hl. rewrite delete_take_drop. apply Forall_app; split; [by apply Forall_take|by apply Forall_drop]. Qed.

Lemma fire_event_in_step e t w : in_step w → event_at e t w → same_time w (fire_event e w).
Proof.
  intros Hw He. destruct Hw as [Hi Ht Hd Hl]. unfold due_times in Hl. apply Forall_app in Hl as [Hl Hs].
  destruct e as [i|j]; simpl in *.
  - pose proof (delete_length _ _ _ He) as Hlen. apply lookup_lt_Some in He.
    destruct (law_fire i (wd_adapter w) Hi) as (Hi' & Hc & Hm & Hn); [lia|].
    split; [|done]. apply sync_in_step. split; simpl; [done|unfold adapter_turns in *; simpl; lia|lia|].
    rewrite Hc. unfold due_times. simpl. apply Forall_app; split; [by apply Forall_delete|done].
  - rewrite list_lookup_fmap in He. destruct (lp_sleeping (wd_loop w) !! j) as [[u th]|]; [|done].
    refine (run_body_in_step _ _ (put_timers _ _ w) _). split; simpl; try done.
    unfold due_times. simpl. rewrite list_fmap_delete. apply Forall_app; split; [done|by apply Forall_delete].
Qed.

(** A world in which nothing is left to do before a later time. *)
Definition at_rest (t : Z) w : Prop :=
  in_step w ∧ clock (wd_adapter w) = t ∧ lp_ready (wd_loop w) = [] ∧ Forall (Z.lt t) (due_times w).

Lemma run_until_at_rest fuel t w w' :
  in_step w → (clock (wd_adapter w) ≤ t)%Z → run_until fuel t w = Some w' → at_rest t w'.
Proof.
  revert w. induction fuel as [|fuel IH]; intros w Hw Hc; simpl; [done|].
  destruct (lp_ready (wd_loop w)) as [|x rest] eqn:Er.
  - pose proof (next_event_spec w) as Hn. destruct (next_event w) as [[e u]|].
    + destruct Hn as [He Hf]. case_decide as Hu.
      * assert (Hcu : (clock (wd_adapter w) ≤ u)%Z).
        { pose proof (st_late _ Hw) as Hl. rewrite Forall_forall in Hl. apply Hl. unfold due_times.
          destruct e; simpl in He; apply list_elem_of_lookup_2 in He; set_solver. }
        destruct (advance_to_in_step u w Hw Hcu Hf) as [Ha Eu].
        destruct (fire_event_in_step e u (advance_to u w) Ha He) as [Hb Eb].
        apply IH; [done|]. rewrite Eb, Eu. done.
      * intros [= <-]. assert (Hlt : Forall (Z.lt t) (due_times w)).
        { eapply Forall_impl; [exact Hf|]. intros; simpl in *; lia. }
        assert (Hle : Forall (Z.le t) (due_times w)).
        { eapply Forall_impl; [exact Hlt|]. intros; simpl in *; lia. }
        destruct (advance_to_in_step t w Hw Hc Hle) as [Ha Et]. by split_and!.
    + intros [= <-]. assert (Hle : Forall (Z.le t) (due_times w)) by (by rewrite Hn).
      destruct (advance_to_in_step t w Hw Hc Hle) as [Ha Et]. split_and!; [done..|].
      change (due_times (advance_to t w)) with (due_times w). by rewrite Hn.
  - destruct (take_turn_in_step w Hw) as [Ht Et]. apply IH; [done|]. by rewrite Et.
Qed.

Lemma sleep_cases ms w :
  (∃ w', sleep ms w = (inr tt, w') ∧
     run_until loop_fuel (clock (wd_adapter w) + timer_delay ms) w = Some w') ∨
  (∃ e, sleep ms w = (inl e, w)).
Proof. unfold sleep. generalize loop_fuel. intros n. destruct (run_until n _ w); [left|right]; by eexists. Qed.

Lemma sleep_at_rest ms w w' :
  in_step w → sleep ms w = (inr tt, w') → at_rest (clock (wd_adapter w) + timer_delay ms) w'.
Proof.
  intros Hw E. destruct (sleep_cases ms w) as [(v & E' & Hr)|[e E']]; rewrite E' in E; [|discriminate].
  injection E as <-. apply run_until_at_rest in Hr; [done..|]. pose proof (timer_delay_pos ms). lia.
Qed.

Lemma sleep_in_step ms w : in_step w → in_step (sleep ms w).2.
Proof.
  intros Hw. destruct (sleep_cases ms w) as [(v & E & Hr)|[e E]]; rewrite E; simpl; [|done].
  by destruct (sleep_at_rest ms w v Hw E).
Qed.
End theory.
