(* ===== verification/BusSuite.v ===== *)
(** The bus suite (scenarios/index.ts): the sixteen scenarios in order, what any run of
    them preserves, what they report of a bus without a capability, and the in-memory
    bus as a host of the event loop. *)

From stdpp Require Import pretty.
From S2P Require Import Prelude Abstractions Ports Client BusQueue InMemoryBus BusStore InMemoryScheduler.
From S2P Require Import Resilience EventLoop LoopTheory Scenarios BusScenarios FeatureScenarios.

(** ** The suite *)

Record BusScenario (W : Type) := { bs_name : string; bs_run : M (World W) ScenarioResult }.
Arguments bs_name {W}.
Arguments bs_run {W}.

Definition ALL_BUS_SCENARIOS {W} `{BusHost W} (random6 : nat → string) : list (BusScenario W) := [
  {| bs_name := s5_name; bs_run := pubSub random6 |};
  {| bs_name := s6_name; bs_run := fanout_ random6 |};
  {| bs_name := s7_name; bs_run := explicitAck random6 |};
  {| bs_name := s8_name; bs_run := poisonDlq random6 |};
  {| bs_name := s9_name; bs_run := competingConsumers random6 |};
  {| bs_name := s10_name; bs_run := idempotentConsumer random6 |};
  {| bs_name := s11_name; bs_run := retryQueue random6 |};
  {| bs_name := s12_name; bs_run := messageGroups random6 |};
  {| bs_name := s13_name; bs_run := brokerNativeDedup random6 |};
  {| bs_name := s14_name; bs_run := priority random6 |};
  {| bs_name := s15_name; bs_run := requestReply random6 |};
  {| bs_name := s16_name; bs_run := ttlExpiry random6 |};
  {| bs_name := s17_name; bs_run := durableSubscription random6 |};
  {| bs_name := s18_name; bs_run := singleActiveConsumer random6 |};
  {| bs_name := s19_name; bs_run := streamReplay random6 |};
  {| bs_name := s20_name; bs_run := handlerFaultIsolation random6 |}].

(** ** The in-memory bus in the loop *)

(** The next microtask of the bus calls the handler of its delivery. *)
Definition in_memory_turn (st : Scheduler) : option (nat * AckHandler * IncomingMessage) * Scheduler :=
  let st' := sched_exec (BusStep OpMicrotask) st in
  match b_microtasks (sc_bus st) with
  | [] => (None, st)
  | i :: _ =>
      ((λ d, (i, dl_consumer d, dl_incoming d)) <$> b_deliveries (sc_bus st) !! i, st')
  end.

Definition settle_op (d : nat) (s : Settlement) : BusOp :=
  match s with Ack => OpAck d | Nack requeue => OpNack d requeue end.

#[export] Instance in_memory_BusHost : BusHost Scheduler := {|
  host_microtasks st := length (b_microtasks (sc_bus st));
  host_turn := in_memory_turn;
  host_settle d s := pure_step (sched_exec (BusStep (settle_op d s)));
  host_dispose := sched_dispose;
  host_finished d r st := match r with Some _ => sched_exec (BusStep (OpThrow d)) st | None => st end;
  host_timers st := fst <$> b_timers (sc_bus st);
  host_fire i := sched_exec (BusStep (OpTimer i));
  host_advance ms := sched_exec (Advance ms) |}.

(** ** Programs in the loop *)

Section kept.
Context {W : Type} `{BusHost W} (random6 : nat → string) (I : W → Prop) `{!HostLaws I}.

(** A method of the adapter that obeys the host's laws. *)
Definition lawful {A} (m : M W A) : Prop := ∀ a, I a → I (m a).2 ∧ calm a (m a).2.

Definition kept {A} (m : M (World W) A) : Prop := keeps (in_step I) m.

Lemma kept_step {A} (m : M (World W) A) : (∀ w, in_step I w → in_step I (m w).2) → kept m.
Proof. intros Hm w Hw. specialize (Hm w Hw). by destruct (m w) as [[e|a] w']. Qed.

Lemma kept_ret {A} (a : A) : kept (mret a).
Proof. by intros w Hw. Qed.

Lemma kept_throw {A} e : kept (throw e : M (World W) A).
Proof. by intros w Hw. Qed.

Lemma kept_bind {A B} (m : M (World W) A) (k : A → M (World W) B) :
  kept m → (∀ a, kept (k a)) → kept (m ≫= k).
Proof. intros Hm Hk. by eapply triple_bind. Qed.

Lemma kept_finally {A} (m : M (World W) A) f : kept m → kept f → kept (finally m f).
Proof.
  intros Hm Hf w Hw. specialize (Hm w Hw). unfold finally. destruct (m w) as [r w'].
  assert (Hw' : in_step I w') by (by destruct r). specialize (Hf w' Hw').
  destruct (f w') as [[e|[]] w'']; [done|]. by destruct r.
Qed.

Lemma kept_try {A} (m : M (World W) A) h : kept m → (∀ e, kept (h e)) → kept (try_catch m h).
Proof. intros Hm Hh. by eapply triple_try. Qed.

Lemma kept_calling {A} (m : M W A) : lawful m → kept (calling m).
Proof.
  intros Hm. apply kept_step. intros w Hw. destruct (Hm _ (st_adapter _ _ Hw)) as [Hi Hc].
  destruct (call_in_step I m w Hw Hi Hc) as [Hs _]. unfold calling. by destruct (on m w).
Qed.

Lemma kept_awaiting {A} (m : M W A) : lawful m → kept (awaiting m).
Proof.
  intros Hm. apply kept_step. intros w Hw. destruct (Hm _ (st_adapter _ _ Hw)) as [Hi Hc].
  destruct (call_in_step I m w Hw Hi Hc) as [Hs _]. unfold awaiting.
  destruct (on m w) as [r w']. cbn [snd] in *. by destruct (tick_in_step I _ Hs).
Qed.

Lemma kept_sleep ms : kept (sleep ms).
Proof. apply kept_step. apply (sleep_in_step I). Qed.

Lemma kept_time : kept time.
Proof. by intros w Hw. Qed.

Lemma kept_nonce : kept (nonce random6).
Proof. intros w [? ? ? ?]. by split. Qed.

Lemma kept_read {A} (f : Vars → A) : kept (read f).
Proof. by intros w Hw. Qed.

Lemma kept_declare x v : kept (declare x v).
Proof. intros w [? ? ? ?]. by split. Qed.

Lemma kept_undeclared x : kept (undeclared x).
Proof. intros w [? ? ? ?]. by split. Qed.

Lemma kept_new_handler f : kept (new_handler f).
Proof. intros w [? ? ? ?]. by split. Qed.

Lemma kept_result status name detail t0 : kept (result status name detail t0).
Proof. by intros w Hw. Qed.

Lemma kept_wait_loop fuel p d i : kept (wait_loop sleep fuel p d i).
Proof.
  induction fuel as [|fuel IH]; [by intros w Hw|]. intros w Hw. simpl.
  case_decide; [|done]. destruct (p w); [done|]. by apply (kept_bind _ _ (kept_sleep i) (λ _, IH)).
Qed.

Lemma kept_wait p t : kept (wait p t).
Proof. intros w Hw. by apply kept_wait_loop. Qed.

Lemma kept_publish t b rk o : kept (publish t b rk o).
Proof. apply kept_awaiting. intros a. apply law_publish. Qed.

Lemma kept_subscribe t f o : kept (subscribe t f o).
Proof.
  apply kept_bind; [apply kept_new_handler|]. intros h. apply kept_awaiting. intros a. apply law_subscribe.
Qed.

Lemma kept_unsubscribe s : kept (unsubscribe s).
Proof. apply kept_awaiting. intros a. apply law_unsubscribe. Qed.

Lemma kept_publish_all l : Forall kept l → kept (publish_all l).
Proof. induction 1 as [|m l Hm Hl IH]; [apply kept_ret|]. by apply kept_bind. Qed.

Lemma kept_nonces n : kept (nonces random6 n).
Proof.
  induction n as [|n IH]; [apply kept_ret|]. apply kept_bind; [apply kept_nonce|intros x].
  apply kept_bind; [done|intros xs; apply kept_ret].
Qed.

Lemma kept_call_all {A} (l : list (M (World W) A)) : Forall kept l → kept (call_all l).
Proof.
  induction 1 as [|m l Hm Hl IH]; [by intros w Hw|]. apply kept_step. intros w Hw. simpl.
  specialize (Hm w Hw). destruct (m w) as [r w'].
  assert (Hw' : in_step I w') by (by destruct r).
  assert (Hk : kept (rs ← call_all l; mret (r :: rs))) by (apply kept_bind; [done|intros; apply kept_ret]).
  specialize (Hk w' Hw'). revert Hk. generalize (rs ← call_all l; mret (r :: rs)). intros m' Hk.
  by destruct (m' w') as [[e|a] w''].
Qed.

Lemma kept_promise_all {A} (l : list (M (World W) A)) : Forall kept l → kept (promise_all l).
Proof.
  intros Hl. apply kept_step. intros w Hw. unfold promise_all. pose proof (kept_call_all l Hl w Hw) as Hk.
  destruct (call_all l w) as [[e|rs] w']; [done|]. cbn [snd]. by destruct (tick_in_step I _ Hk).
Qed.

Lemma kept_start_call x t o : kept (start_call x t o).
Proof.
  apply kept_bind; [apply kept_declare|intros _]. apply kept_bind; [apply kept_new_handler|intros h].
  apply kept_bind; [|intros s; apply kept_ret]. apply kept_calling. intros a. apply law_subscribe.
Qed.

Lemma kept_start x t f b o : kept (start x t f b o).
Proof.
  apply kept_bind; [apply kept_declare|intros _]. apply kept_bind; [apply kept_subscribe|intros s; apply kept_ret].
Qed.

Lemma kept_stop c : kept (stop c).
Proof. apply kept_unsubscribe. Qed.

Lemma kept_stop_call c : kept (stop_call c).
Proof. apply kept_calling. intros a. apply law_unsubscribe. Qed.
End kept.

Create HintDb loop discriminated.
#[export] Hint Resolve kept_ret kept_throw kept_calling kept_awaiting kept_sleep kept_time kept_nonce
  kept_read kept_declare kept_undeclared kept_new_handler kept_result kept_wait kept_publish kept_subscribe
  kept_unsubscribe kept_nonces kept_start kept_start_call kept_stop kept_stop_call : loop.

(** Follow a program through its binds, branches and blocks. *)
Ltac keep_going :=
  repeat (cbv beta zeta; match goal with
    | |- kept _ (_ ≫= _) => apply kept_bind; [|let a := fresh "a" in intros a]
    | |- kept _ (finally _ _) => apply kept_finally
    | |- kept _ (try_catch _ _) => apply kept_try; [|let e := fresh "e" in intros e]
    | |- kept _ (or_return _ _) => unfold or_return
    | |- kept _ (publish_all _) => apply kept_publish_all, Forall_fmap, Forall_true; intros; simpl
    | |- kept _ (promise_all _) => apply kept_promise_all; [assumption|]
    | |- kept _ (match ?x with _ => _ end) => destruct x
    | |- kept _ _ => solve [eauto with loop]
    end).

Section scenarios_kept.
Context {W : Type} `{BusHost W} (random6 : nat → string) (I : W → Prop) `{!HostLaws I}.

Lemma s7_ack_kept t0 : kept I (s7_ack random6 t0).
Proof. unfold s7_ack. keep_going. Qed.

Lemma s7_nack_kept t0 : kept I (s7_nack random6 t0).
Proof. unfold s7_nack. keep_going. Qed.

Lemma s7_crash_kept t0 : kept I (s7_crash random6 t0).
Proof. unfold s7_crash. keep_going. Qed.

Lemma s10_crash_kept t q b c f s hf hs : kept I (s10_crash t q b c f s hf hs).
Proof. unfold s10_crash. keep_going. Qed.

Hint Resolve s7_ack_kept s7_nack_kept s7_crash_kept s10_crash_kept : loop.

Lemma s10_without_kept t0 : kept I (s10_without random6 t0).
Proof. unfold s10_without. keep_going. Qed.

Lemma s10_with_kept t0 : kept I (s10_with random6 t0).
Proof. unfold s10_with. keep_going. Qed.

Lemma s10_down_kept t0 : kept I (s10_down random6 t0).
Proof. unfold s10_down. keep_going. Qed.

Hint Resolve s10_without_kept s10_with_kept s10_down_kept : loop.

Lemma fanout_kept : kept I (fanout_ random6).
Proof.
  unfold fanout_. keep_going.
  - apply Forall_forall. intros m (i & n & -> & _)%elem_of_lookup_imap. by apply kept_start_call.
  - apply Forall_fmap, Forall_true. intros c. by apply kept_stop_call.
Qed.

Hint Resolve fanout_kept : loop.

(** Whatever it observes, a scenario leaves the loop in step with the adapter. *)
Lemma all_kept : Forall (λ s, kept I (bs_run s)) (ALL_BUS_SCENARIOS random6).
Proof.
  unfold ALL_BUS_SCENARIOS. repeat (apply Forall_cons; split); [..|by apply Forall_nil]; simpl.
  - unfold pubSub. keep_going.
  - apply fanout_kept.
  - unfold explicitAck. keep_going.
  - unfold poisonDlq. keep_going.
  - unfold competingConsumers. keep_going.
  - unfold idempotentConsumer. keep_going.
  - unfold retryQueue, jobs. keep_going.
  - unfold messageGroups. keep_going.
  - unfold brokerNativeDedup. keep_going.
  - unfold priority. keep_going.
  - unfold requestReply. keep_going.
  - unfold ttlExpiry. keep_going.
  - unfold durableSubscription. keep_going.
  - unfold singleActiveConsumer, batch. keep_going.
  - unfold streamReplay. keep_going.
  - unfold handlerFaultIsolation. keep_going.
Qed.
End scenarios_kept.

(** ** The laws of the in-memory host *)

Section in_memory_laws.

(** Calls of the bus append microtasks and timers. *)
Record appends (st st' : Bus) : Prop := {
  ap_microtasks : b_microtasks st `prefix_of` b_microtasks st';
  ap_timers : b_timers st `prefix_of` b_timers st'
}.

#[local] Instance appends_preorder : PreOrder appends.
Proof.
  split; [by intros st; split|]. intros a b c [? ?] [? ?]. by split; etrans.
Qed.

Lemma appends_same st st' :
  b_microtasks st' = b_microtasks st → b_timers st' = b_timers st → appends st st'.
Proof. intros E1 E2. split; by rewrite ?E1, ?E2. Qed.

Lemma grows_appends st st' : grows st st' → appends st st'.
Proof. intros [_ _ (ds & _ & Hm & _) (ts & Ht & _)]. split; rewrite ?Hm, ?Ht; by eexists. Qed.

Lemma guarded_appends i r st : appends st (guarded i r st).
Proof.
  unfold guarded. destruct (b_deliveries st !! i); [|done]. case_match; [|done].
  etrans; [|apply grows_appends, settle_grows]. by apply appends_same.
Qed.

Lemma throws_appends i st : appends st (handler_throws i st).
Proof. unfold handler_throws. repeat case_match; try done. apply guarded_appends. Qed.

Lemma fire_appends i st :
  b_microtasks st `prefix_of` b_microtasks (fire_timer i st) ∧
  delete i (b_timers st) `prefix_of` b_timers (fire_timer i st).
Proof.
  unfold fire_timer. destruct (b_timers st !! i) as [[d t]|] eqn:E.
  - by destruct (grows_appends _ _ (run_timer_grows t (with_timers (delete i (b_timers st)) st))).
  - apply lookup_ge_None_1 in E. rewrite delete_take_drop, take_ge, drop_ge, app_nil_r by lia. done.
Qed.

Lemma bus_step_calm (st st' : Scheduler) :
  sc_now st' = sc_now st → appends (sc_bus st) (sc_bus st') → calm st st'.
Proof.
  intros Hn [Hm Ht]. split; simpl; [done|by apply prefix_length|].
  rewrite !length_fmap. by apply prefix_length.
Qed.
End in_memory_laws.

(** The in-memory adapter obeys the laws, with its reachable states as the invariant:
    everything the loop does to it is an operation of the scheduler's transition system. *)
#[export] Instance in_memory_HostLaws : HostLaws sched_reachable.
Proof.
  split.
  - intros t b rk o a Ha. split; [by apply (sched_step a (BusStep (OpPublish t b rk o)))|].
    apply bus_step_calm; [done|apply grows_appends, publish_grows].
  - intros t h o a Ha. simpl.
    pose proof (sched_step a (BusStep (OpSubscribe t h o)) Ha) as Hs.
    pose proof (grows_appends _ _ (subscribe_grows t h o (sc_bus a))) as Hp. simpl in Hs.
    destruct (InMemoryBus.subscribe t h o (sc_bus a)) as [s b]. split; [done|by apply bus_step_calm].
  - intros s a Ha. split; [by apply (sched_step a (BusStep (OpUnsubscribe s)))|].
    apply bus_step_calm; [done|apply grows_appends, unsubscribe_grows].
  - intros d s a Ha. split; [by apply sched_step|]. apply bus_step_calm; [done|].
    destruct s; simpl; apply guarded_appends.
  - intros a Ha. split; [by apply (sched_step a AsyncDispose)|]. by apply bus_step_calm; [|split].
  - intros d r a Ha. destruct r; [|by split; [|apply bus_step_calm]].
    split; [by apply sched_step|]. apply bus_step_calm; [done|apply throws_appends].
  - intros a Ha Hm. simpl in *. unfold in_memory_turn.
    destruct (b_microtasks (sc_bus a)) as [|i rest] eqn:E; [simpl in Hm; lia|]. simpl.
    pose proof (sched_step a (BusStep OpMicrotask) Ha) as Hs. simpl in Hs.
    split; [exact Hs|]. unfold run_microtask. rewrite E. simpl. by split_and!.
  - intros i a Ha Hi. simpl in *. rewrite !length_fmap in *.
    pose proof (sched_step a (BusStep (OpTimer i)) Ha) as Hs. simpl in Hs.
    destruct (fire_appends i (sc_bus a)) as [Hm Ht]. apply prefix_length in Hm, Ht.
    destruct (lookup_lt_is_Some_2 _ _ Hi) as [x Hx]. pose proof (delete_length _ _ _ Hx).
    split_and!; [done|done|done|simpl; lia].
  - intros ms a Ha Hms. simpl. split; [by apply (sched_step a (Advance ms))|]. split; [lia|done].
Qed.

(** ** Decorated adapters *)

(** The host of a decorator around an adapter: its calls of handlers are the adapter's. *)
Section decorated.
Context {V W : Type} `{BusHost W} (T : Timed V) (B : IMessageBus V) (get : V → W) (put : W → V → V).

Definition lifted_host : BusHost V := {|
  host_microtasks v := host_microtasks (get v);
  host_turn v := let '(call, a) := host_turn (get v) in (call, put a v);
  host_settle d s := lift get put (host_settle d s);
  host_dispose := lift get put host_dispose;
  host_finished d r v := put (host_finished d r (get v)) v;
  host_timers v := host_timers (get v);
  host_fire i v := put (host_fire i (get v)) v;
  host_advance ms v := put (host_advance ms (get v)) v |}.
End decorated.

(** ** Properties *)

(** The capability each scenario asks for first. *)
Definition gates `{IMessageBus W} : list bool :=
  let c := bus_capabilities in
  [supportsTopic c; supportsFanout c; supportsManualAck c; supportsDeadLetter c; supportsManualAck c;
   supportsManualAck c; supportsDeadLetter c;
   supportsManualAck c && negb (bool_decide (supportsMessageGroups c = Some false));
   supportsDedup c; true; true; true; true; supportsManualAck c; supportsStreamReplay c; supportsManualAck c].

Lemma gated_unsupported {W} `{Timed W} (b : bool) name detail (k : Z → M (World W) ScenarioResult) w :
  b = false →
  (t0 ← time; if negb b then result unsupported name detail t0 else k t0) w =
  (inr {| sr_name := name; sr_status := unsupported; sr_detail := detail; sr_durationMs := 0 |}, w).
Proof. intros ->. unfold result, mbind, M_bind, time, mret, M_ret. simpl. by rewrite Z.sub_diag. Qed.

Lemma messageGroups_unsupported {W} `{BusHost W} (random6 : nat → string) (w : World W) :
  supportsManualAck bus_capabilities && negb (bool_decide (supportsMessageGroups bus_capabilities = Some false)) =
    false →
  ∃ detail, messageGroups random6 w =
    (inr {| sr_name := s12_name; sr_status := unsupported; sr_detail := detail; sr_durationMs := 0 |}, w).
Proof.
  intros Hg. destruct (supportsManualAck bus_capabilities) eqn:Ha; [|eexists; by apply gated_unsupported].
  apply negb_false_iff, bool_decide_eq_true_1 in Hg. eexists. simpl. unfold messageGroups, mbind, M_bind, time.
  rewrite Ha. simpl. rewrite decide_True by done. unfold result, mbind, M_bind, time, mret, M_ret.
  by rewrite Z.sub_diag.
Qed.

(** C32: honest gaps of the bus.  On a bus that lacks the capability a scenario asks for,
    the scenario reports "unsupported" at once, under its own name, and leaves the
    adapter and the loop untouched. *)
Theorem bus_gaps_unsupported {W : Type} `{BusHost W} (random6 : nat → string) (i : nat) (s : BusScenario W)
    (w : World W) :
  gates !! i = Some false → ALL_BUS_SCENARIOS random6 !! i = Some s →
  ∃ detail, bs_run s w =
    (inr {| sr_name := bs_name s; sr_status := unsupported; sr_detail := detail; sr_durationMs := 0 |}, w).
Proof.
  intros Hg Hs.
  do 16 (destruct i as [|i]; [simpl in Hg, Hs; injection Hs as <-; (discriminate Hg || injection Hg as Hg);
    first [eexists; by apply gated_unsupported|by apply messageGroups_unsupported]|]).
  discriminate Hg.
Qed.

(** A bus without any capability. *)
Definition mute_bus : IMessageBus Scheduler := {|
  bus_sub := Subscription; bus_capabilities := ALL_BUS_FALSE; bus_connectBus := mret tt;
  bus_publish _ _ _ _ := mret tt; bus_subscribe _ _ _ := throw (OtherError "no bus");
  bus_unsubscribe _ := mret tt |}.

Definition mute_host : @BusHost Scheduler _ mute_bus := {|
  host_microtasks _ := 0; host_turn st := (None, st); host_settle _ _ := mret tt;
  host_dispose := mret tt; host_finished _ _ st := st; host_timers _ := []; host_fire _ st := st;
  host_advance ms := sched_exec (Advance ms) |}.

Lemma bus_gaps_unsupported_witness :
  let w := in_memory_world 5 in
  ∃ detail, (@brokerNativeDedup _ _ _ mute_host (λ n, pretty n)) w =
    (inr {| sr_name := s13_name; sr_status := unsupported; sr_detail := detail; sr_durationMs := 0 |}, w).
Proof.
  apply (@bus_gaps_unsupported _ _ _ mute_host (λ n, pretty n) 8
    {| bs_name := s13_name; bs_run := @brokerNativeDedup _ _ _ mute_host (λ n, pretty n) |} (in_memory_world 5));
    reflexivity.
Defined.

(** the loop never loses step.  Over any adapter that obeys the laws of a host, and
    whatever its handlers are called with, running a bus scenario keeps the adapter's
    invariant, one queued turn per microtask and one armed timer per timer of the
    adapter, and no timer in the past. *)
Theorem scenario_in_step {W : Type} `{BusHost W} (random6 : nat → string) (I : W → Prop) `{!HostLaws I}
    (s : BusScenario W) (w : World W) :
  s ∈ ALL_BUS_SCENARIOS random6 → in_step I w → in_step I (bs_run s w).2.
Proof.
  intros Hs Hw. pose proof (all_kept random6 I) as Hk. rewrite Forall_forall in Hk.
  specialize (Hk s Hs w Hw). by destruct (bs_run s w) as [[e|r] w'].
Qed.

Lemma scenario_in_step_witness :
  in_step sched_reachable
    (bs_run {| bs_name := s11_name; bs_run := retryQueue (λ n, pretty n) |} (in_memory_world 1750000000000)).2.
Proof.
  apply (scenario_in_step (λ n, pretty n) sched_reachable).
  - unfold ALL_BUS_SCENARIOS. do 6 right. left.
  - split; [apply sched_init|reflexivity|reflexivity|apply Forall_nil_2].
Defined.

(** a pause ends at rest.  When [delay(ms)] returns in the loop, exactly that time has
    passed, no turn is left to run, and every timer left falls due later. *)
Theorem sleep_ends_at_rest {W : Type} `{BusHost W} (I : W → Prop) `{!HostLaws I} (ms : Z) (w w' : World W) :
  in_step I w → sleep ms w = (inr tt, w') →
  in_step I w' ∧ clock (wd_adapter w') = (clock (wd_adapter w) + timer_delay ms)%Z ∧
  lp_ready (wd_loop w') = [] ∧ Forall (Z.lt (clock (wd_adapter w'))) (due_times w').
Proof.
  intros Hw E. destruct (sleep_at_rest I ms w w' Hw E) as (Hs & Hc & Hr & Hd). by rewrite Hc.
Qed.

(** A world with a message that expires in 30 ms. *)
Definition expiring_world : World Scheduler :=
  (publish "t" "x" None (with_ttl 30) ((subscribe "t" (λ _, Return) no_subscribe_options (in_memory_world 0)).2)).2.

Lemma expiring_world_in_step : in_step sched_reachable expiring_world.
Proof.
  assert (H0 : in_step sched_reachable (in_memory_world 0)).
  { split; [apply sched_init|reflexivity|reflexivity|apply Forall_nil_2]. }
  assert (Hs : in_step sched_reachable (subscribe "t" (λ _, Return) no_subscribe_options (in_memory_world 0)).2)
    by exact (kept_subscribe sched_reachable "t" (λ _, Return) no_subscribe_options _ H0).
  exact (kept_publish sched_reachable "t" "x" None (with_ttl 30) _ Hs).
Qed.

Lemma sleep_ends_at_rest_witness :
  let w := expiring_world in
  let w' := (sleep 50 w).2 in
  in_step sched_reachable w' ∧ clock (wd_adapter w') = (clock (wd_adapter w) + timer_delay 50)%Z ∧
  lp_ready (wd_loop w') = [] ∧ Forall (Z.lt (clock (wd_adapter w'))) (due_times w').
Proof.
  apply (sleep_ends_at_rest sched_reachable 50 expiring_world).
  - apply expiring_world_in_step.
  - vm_compute. reflexivity.
Defined.
