(* ===== verification/Simulation.v ===== *)
(** Two adapters seen through the same program: a relational logic for the programs of
    the suite.  [par P Q m n] runs [m] and [n] from related states; both fail with one
    error, or return related values, and leave related states.

    [HostSim P] states that one adapter in the event loop answers like another in states
    related by [P]; then every scenario reports the same over both. *)

From S2P Require Import Prelude Abstractions Ports Client InMemoryScheduler EventLoop Scenarios BusScenarios FeatureScenarios BusSuite.

(** ** Programs side by side *)

Definition agree {A B} (Q : A → B → Prop) (r : Error + A) (s : Error + B) : Prop :=
  match r, s with
  | inl e, inl e' => e = e'
  | inr a, inr b => Q a b
  | _, _ => False
  end.

Definition par {X Y A B} (P : X → Y → Prop) (Q : A → B → Prop) (m : M X A) (n : M Y B) : Prop :=
  ∀ x y, P x y → agree Q (m x).1 (n y).1 ∧ P (m x).2 (n y).2.

Lemma agree_eq {A} (r s : Error + A) : agree eq r s ↔ r = s.
Proof. destruct r, s; simpl; naive_solver. Qed.

Section par.
Context {X Y : Type} (P : X → Y → Prop).

Lemma par_ret {A B} (Q : A → B → Prop) a b : Q a b → par P Q (mret a) (mret b).
Proof. by intros HQ x y. Qed.

Lemma par_throw {A B} (Q : A → B → Prop) e : par P Q (throw e) (throw e).
Proof. by intros x y. Qed.

Lemma par_bind {A B A' B'} (Q' : A → B → Prop) (Q : A' → B' → Prop) m n k l :
  par P Q' m n → (∀ a b, Q' a b → par P Q (k a) (l b)) → par P Q (m ≫= k) (n ≫= l).
Proof.
  intros Hm Hk x y Hxy. destruct (Hm x y Hxy) as [Hr Hs]. unfold mbind, M_bind.
  destruct (m x) as [[e|a] x'], (n y) as [[e'|b] y']; simpl in *; try done. by apply Hk.
Qed.

Lemma par_conseq {A B} (Q Q' : A → B → Prop) m n :
  par P Q' m n → (∀ a b, Q' a b → Q a b) → par P Q m n.
Proof.
  intros Hm HQ x y Hxy. destruct (Hm x y Hxy) as [Hr Hs]. split; [|done].
  destruct (m x).1, (n y).1; simpl in *; auto.
Qed.

Lemma par_finally {A B} (Q : A → B → Prop) m n f g :
  par P Q m n → par P eq f g → par P Q (finally m f) (finally n g).
Proof.
  intros Hm Hf x y Hxy. destruct (Hm x y Hxy) as [Hr Hs]. unfold finally.
  destruct (m x) as [r x'], (n y) as [s y']. simpl in *. destruct (Hf x' y' Hs) as [Hr' Hs'].
  destruct (f x') as [[e|[]] x''], (g y') as [[e'|[]] y'']; simpl in *; done.
Qed.

Lemma par_try {A B} (Q : A → B → Prop) m n h k :
  par P Q m n → (∀ e, par P Q (h e) (k e)) → par P Q (try_catch m h) (try_catch n k).
Proof.
  intros Hm Hh x y Hxy. destruct (Hm x y Hxy) as [Hr Hs]. unfold try_catch.
  destruct (m x) as [[e|a] x'], (n y) as [[e'|b] y']; simpl in *; try done. subst. by apply Hh.
Qed.

Lemma par_step (f : X → X) (g : Y → Y) :
  (∀ x y, P x y → P (f x) (g y)) → par P eq (pure_step f) (pure_step g).
Proof. intros Hf x y Hxy. split; [done|]. by apply Hf. Qed.
End par.

(** ** Adapters side by side *)

Class HostSim {V W : Type} `{BusHost V} `{BusHost W} (P : V → W → Prop) := {
  sim_sub : @bus_sub V _ → @bus_sub W _ → Prop;
  sim_capabilities : @bus_capabilities V _ = @bus_capabilities W _;
  sim_clock a b : P a b → clock a = clock b;
  sim_microtasks a b : P a b → host_microtasks a = host_microtasks b;
  sim_timers a b : P a b → host_timers a = host_timers b;
  sim_publish t body rk o : par P eq (bus_publish t body rk o) (bus_publish t body rk o);
  sim_subscribe t h o : par P sim_sub (bus_subscribe t h o) (bus_subscribe t h o);
  sim_unsubscribe s s' : sim_sub s s' → par P eq (bus_unsubscribe s) (bus_unsubscribe s');
  sim_settle d s : par P eq (host_settle d s) (host_settle d s);
  sim_dispose : par P eq host_dispose host_dispose;
  sim_finished d r a b : P a b → P (host_finished d r a) (host_finished d r b);
  sim_turn a b : P a b → (host_turn a).1 = (host_turn b).1 ∧ P (host_turn a).2 (host_turn b).2;
  sim_fire i a b : P a b → P (host_fire i a) (host_fire i b);
  sim_advance ms a b : P a b → P (host_advance ms a) (host_advance ms b)
}.

(** Worlds that differ in the adapter only. *)
Record linked {V W} (P : V → W → Prop) (v : World V) (w : World W) : Prop := {
  ln_counter : wd_counter v = wd_counter w;
  ln_handlers : wd_handlers v = wd_handlers w;
  ln_loop : wd_loop v = wd_loop w;
  ln_adapter : P (wd_adapter v) (wd_adapter w)
}.

Section loop.
Context {V W : Type} `{BusHost V} `{BusHost W} (P : V → W → Prop) `{!HostSim P}.
Implicit Types (v : World V) (w : World W).

Lemma put_adapter_linked a b v w : linked P v w → P a b → linked P (put_adapter a v) (put_adapter b w).
Proof. intros [? ? ? ?] Hab. by split. Qed.

Lemma put_loop_linked l v w : linked P v w → linked P (put_loop l v) (put_loop l w).
Proof. intros [? ? ? ?]. by split. Qed.

Lemma put_ready_linked r v w : linked P v w → linked P (put_ready r v) (put_ready r w).
Proof. intros [Hc Hh Hl Ha]. unfold put_ready. rewrite Hl. by apply put_loop_linked. Qed.

Lemma put_timers_linked s d v w : linked P v w → linked P (put_timers s d v) (put_timers s d w).
Proof. intros [Hc Hh Hl Ha]. unfold put_timers. rewrite Hl. by apply put_loop_linked. Qed.

Lemma put_vars_linked x v w : linked P v w → linked P (put_vars x v) (put_vars x w).
Proof. intros [Hc Hh Hl Ha]. unfold put_vars. rewrite Hl. by apply put_loop_linked. Qed.

Lemma vars_linked v w : linked P v w → vars_of v = vars_of w.
Proof. intros [_ _ Hl _]. unfold vars_of. by rewrite Hl. Qed.

Lemma clock_linked v w : linked P v w → clock (wd_adapter v) = clock (wd_adapter w).
Proof. intros [_ _ _ Ha]. by apply sim_clock. Qed.

Lemma sync_linked v w : linked P v w → linked P (sync v) (sync w).
Proof.
  intros Hl. pose proof Hl as [_ _ El Ha]. unfold sync. rewrite El, (sim_microtasks _ _ Ha), (sim_timers _ _ Ha), (sim_clock _ _ Ha).
  by apply put_loop_linked.
Qed.

Lemma enqueue_linked t v w : linked P v w → linked P (enqueue t v) (enqueue t w).
Proof. intros Hl. unfold enqueue. rewrite (ln_loop _ _ _ Hl). by apply put_ready_linked. Qed.

Lemma par_on {A B} (Q : A → B → Prop) (m : M V A) (n : M W B) : par P Q m n → par (linked P) Q (on m) (on n).
Proof.
  intros Hm v w Hl. destruct (Hm _ _ (ln_adapter _ _ _ Hl)) as [Hr Hs]. unfold on, lift.
  destruct (m (wd_adapter v)) as [r a], (n (wd_adapter w)) as [s b]. split; [done|]. by apply put_adapter_linked.
Qed.

(** A call of a handler, up to its continuation. *)
Lemma call_linked (m : M V unit) (n : M W unit) d (k : option Error → Body) v w :
  par P eq m n → linked P v w →
  let settled {X} `{BusHost X} (r : Error + unit) (x : World X) :=
    enqueue (ThreadTurn {| th_delivery := d; th_body := k (error_of r) |}) (sync x) in
  linked P (let '(r, v) := on m v in settled r v) (let '(r, w) := on n w in settled r w).
Proof.
  intros Hm Hl settled. destruct (par_on _ _ _ Hm v w Hl) as [Hr Hs]. apply agree_eq in Hr.
  destruct (on m v) as [r v'], (on n w) as [s w']. simpl in *. subst. by apply enqueue_linked, sync_linked.
Qed.

Lemma run_body_linked d b v w : linked P v w → linked P (run_body d b v) (run_body d b w).
Proof.
  revert v w. induction b as [|e|f k IH|k IH|c k IH]; intros v w Hl; simpl.
  - apply sync_linked, put_adapter_linked; [done|]. apply sim_finished, Hl.
  - apply sync_linked, put_adapter_linked; [done|]. apply sim_finished, Hl.
  - rewrite (vars_linked _ _ Hl). by apply IH, put_vars_linked.
  - rewrite (clock_linked _ _ Hl). by apply IH.
  - destruct c as [s|t body rk o|ms| |].
    + by apply (call_linked _ _ d k), Hl; apply sim_settle.
    + by apply (call_linked _ _ d k), Hl; apply sim_publish.
    + rewrite (ln_loop _ _ _ Hl), (clock_linked _ _ Hl). by apply put_timers_linked.
    + by apply (call_linked _ _ d k), Hl; apply sim_dispose.
    + by apply enqueue_linked.
Qed.

Lemma take_turn_linked v w : linked P v w → linked P (take_turn v) (take_turn w).
Proof.
  intros Hl. unfold take_turn. rewrite (ln_loop _ _ _ Hl). destruct (lp_ready (wd_loop w)) as [|[|t] rest]; [done| |].
  - assert (Hr : linked P (put_ready rest v) (put_ready rest w)) by by apply put_ready_linked.
    destruct (sim_turn _ _ (ln_adapter _ _ _ Hr)) as [Hc Ha].
    destruct (host_turn (wd_adapter (put_ready rest v))) as [call a], (host_turn (wd_adapter (put_ready rest w))) as [call' b].
    simpl in Hc, Ha. subst call'.
    assert (Hs : linked P (sync (put_adapter a (put_ready rest v))) (sync (put_adapter b (put_ready rest w))))
      by by apply sync_linked, put_adapter_linked.
    destruct call as [[[d h] m]|]; [|done]. unfold body_of. rewrite (ln_loop _ _ _ Hs).
    destruct (snd <$> last _); [|done]. by apply run_body_linked.
  - by apply run_body_linked, put_ready_linked.
Qed.

Lemma turns_linked n v w : linked P v w → linked P (turns n v) (turns n w).
Proof. revert v w. induction n as [|n IH]; intros v w Hl; [done|]. by apply IH, take_turn_linked. Qed.

Lemma tick_linked v w : linked P v w → linked P (tick v) (tick w).
Proof. intros Hl. unfold tick. rewrite (ln_loop _ _ _ Hl). by apply turns_linked. Qed.

Lemma advance_linked t v w : linked P v w → linked P (advance_to t v) (advance_to t w).
Proof.
  intros Hl. unfold advance_to. rewrite (clock_linked _ _ Hl). apply put_adapter_linked; [done|]. apply sim_advance, Hl.
Qed.

Lemma fire_linked e v w : linked P v w → linked P (fire_event e v) (fire_event e w).
Proof.
  intros Hl. unfold fire_event. rewrite (ln_loop _ _ _ Hl). destruct e as [i|i].
  - apply sync_linked, put_adapter_linked; [by apply put_timers_linked|]. apply sim_fire, Hl.
  - destruct (lp_sleeping (wd_loop w) !! i) as [[u t]|]; [|done]. by apply run_body_linked, put_timers_linked.
Qed.

Lemma run_until_linked fuel t v w :
  linked P v w → option_Forall2 (linked P) (run_until fuel t v) (run_until fuel t w).
Proof.
  revert v w. induction fuel as [|fuel IH]; intros v w Hl; simpl; [constructor|]. unfold next_event.
  rewrite (ln_loop _ _ _ Hl). destruct (lp_ready (wd_loop w)); [|by apply IH, take_turn_linked].
  match goal with |- option_Forall2 _ (match ?x with _ => _ end) _ => destruct x as [[e u]|] end.
  - case_decide; [by apply IH, fire_linked, advance_linked|]. constructor. by apply advance_linked.
  - constructor. by apply advance_linked.
Qed.

(** ** The helpers of the scenarios *)

Lemma par_same {A} (f : World V → A) (g : World W → A) :
  (∀ v w, linked P v w → f v = g w) → par (linked P) eq (λ v, (inr (f v), v)) (λ w, (inr (g w), w)).
Proof. intros Hf v w Hl. split; [by apply Hf|done]. Qed.

Lemma par_sleep ms : par (linked P) eq (sleep ms) (sleep ms).
Proof.
  intros v w Hl. unfold sleep. rewrite (clock_linked _ _ Hl).
  destruct (run_until_linked loop_fuel (clock (wd_adapter w) + timer_delay ms) v w Hl); by split.
Qed.

Lemma par_awaiting {A B} (Q : A → B → Prop) (m : M V A) (n : M W B) :
  par P Q m n → par (linked P) Q (awaiting m) (awaiting n).
Proof.
  intros Hm v w Hl. destruct (par_on _ _ _ Hm v w Hl) as [Hr Hs]. unfold awaiting.
  destruct (on m v) as [r v'], (on n w) as [s w']. split; [done|]. by apply tick_linked, sync_linked.
Qed.

Lemma par_calling {A B} (Q : A → B → Prop) (m : M V A) (n : M W B) :
  par P Q m n → par (linked P) Q (calling m) (calling n).
Proof.
  intros Hm v w Hl. destruct (par_on _ _ _ Hm v w Hl) as [Hr Hs]. unfold calling.
  destruct (on m v) as [r v'], (on n w) as [s w']. split; [done|]. by apply sync_linked.
Qed.

Lemma par_time : par (linked P) eq time time.
Proof. apply par_same. apply clock_linked. Qed.

Lemma par_nonce random6 : par (linked P) eq (nonce random6) (nonce random6).
Proof. intros v w [Hc Hh Hl Ha]. unfold nonce. simpl. rewrite Hc, (sim_clock _ _ Ha). by split. Qed.

Lemma par_read {A} (f : Vars → A) : par (linked P) eq (read f) (read f).
Proof. apply par_same. intros v w Hl. by rewrite (vars_linked _ _ Hl). Qed.

Lemma par_declare x u : par (linked P) eq (declare x u) (declare x u).
Proof. apply par_step. intros v w Hl. rewrite (vars_linked _ _ Hl). by apply put_vars_linked. Qed.

Lemma par_undeclared x : par (linked P) eq (undeclared x) (undeclared x).
Proof. apply par_step. intros v w Hl. rewrite (vars_linked _ _ Hl). by apply put_vars_linked. Qed.

Lemma par_new_handler f : par (linked P) eq (new_handler f) (new_handler f).
Proof.
  intros v w [Hc Hh Hl Ha]. unfold new_handler, add_body. simpl. rewrite Hh, Hc, Hl. by split.
Qed.

Lemma par_result status name detail t0 : par (linked P) eq (result status name detail t0) (result status name detail t0).
Proof. eapply par_bind; [apply par_time|]. intros ? t ->. by apply par_ret. Qed.

Lemma par_wait_loop pause pause' fuel p q d i :
  par (linked P) eq (pause i) (pause' i) → (∀ v w, linked P v w → p v = q w) →
  par (linked P) eq (wait_loop pause fuel p d i) (wait_loop pause' fuel q d i).
Proof.
  intros Hp Hpq. induction fuel as [|fuel IH]; intros v w Hl; simpl; [split; [by apply Hpq|done]|].
  rewrite (clock_linked _ _ Hl), (Hpq _ _ Hl). case_decide; [|done]. destruct (q w); [done|].
  by apply (par_bind _ eq _ _ _ _ _ Hp (λ _ _ _, IH)).
Qed.

Lemma par_waitUntil pause pause' p q t i :
  par (linked P) eq (pause i) (pause' i) → (∀ v w, linked P v w → p v = q w) →
  par (linked P) eq (waitUntil pause p t i) (waitUntil pause' q t i).
Proof. intros Hp Hpq. eapply par_bind; [apply par_time|]. intros ? t0 ->. by apply par_wait_loop. Qed.

Lemma par_wait (p q : Vars → bool) t : (∀ x, p x = q x) → par (linked P) eq (wait p t) (wait q t).
Proof. intros Hpq. apply par_waitUntil; [apply par_sleep|]. intros v w Hl. by rewrite (vars_linked _ _ Hl). Qed.

Lemma par_publish t b rk o : par (linked P) eq (publish t b rk o) (publish t b rk o).
Proof. apply par_awaiting, sim_publish. Qed.

Lemma par_subscribe t f o : par (linked P) sim_sub (subscribe t f o) (subscribe t f o).
Proof. eapply par_bind; [apply par_new_handler|]. intros ? h ->. apply par_awaiting, sim_subscribe. Qed.

Lemma par_unsubscribe s s' : sim_sub s s' → par (linked P) eq (unsubscribe s) (unsubscribe s').
Proof. intros Hs. by apply par_awaiting, sim_unsubscribe. Qed.

Lemma par_publish_all {A} (f g : A → _) (l : list A) :
  (∀ x, par (linked P) eq (f x) (g x)) → par (linked P) eq (publish_all (f <$> l)) (publish_all (g <$> l)).
Proof. intros Hf. induction l as [|x l IH]; [by apply par_ret|]. eapply par_bind; [apply Hf|done]. Qed.

Lemma par_nonces random6 n : par (linked P) eq (nonces random6 n) (nonces random6 n).
Proof.
  induction n as [|n IH]; [by apply par_ret|]. eapply par_bind; [apply par_nonce|]. intros ? x ->.
  eapply par_bind; [apply IH|]. intros ? xs ->. by apply par_ret.
Qed.

(** Collectors of one variable. *)
Definition same_collector (c : @AckCollector V _) (d : @AckCollector W _) : Prop :=
  ac_received c = ac_received d ∧ sim_sub (ac_sub c) (ac_sub d).

Lemma par_start x t f b o : par (linked P) same_collector (start x t f b o) (start x t f b o).
Proof.
  eapply par_bind; [apply par_declare|]. intros _ _ _. eapply par_bind; [apply par_subscribe|].
  intros s s' Hs. by apply par_ret.
Qed.

Lemma par_start_call x t o : par (linked P) same_collector (start_call x t o) (start_call x t o).
Proof.
  eapply par_bind; [apply par_declare|]. intros _ _ _. eapply par_bind; [apply par_new_handler|]. intros ? h ->.
  eapply par_bind; [apply par_calling, sim_subscribe|]. intros s s' Hs. by apply par_ret.
Qed.

Lemma par_stop c d : sim_sub (ac_sub c) (ac_sub d) → par (linked P) eq (stop c) (stop d).
Proof. apply par_unsubscribe. Qed.

Lemma par_stop_call c d : sim_sub (ac_sub c) (ac_sub d) → par (linked P) eq (stop_call c) (stop_call d).
Proof. intros Hs. by apply par_calling, sim_unsubscribe. Qed.

(** [Promise.all]: related calls give related results. *)
Lemma par_call_all {A B} (Q : A → B → Prop) l l' :
  Forall2 (par (linked P) Q) l l' → par (linked P) (Forall2 (agree Q)) (call_all l) (call_all l').
Proof.
  induction 1 as [|m n l l' Hm _ IH]; [by intros v w Hl; split; [constructor|]|]. intros v w Hl. simpl.
  destruct (Hm v w Hl) as [Hr Hs]. destruct (m v) as [r v'], (n w) as [s w']. simpl in *.
  refine (par_bind _ _ _ _ _ _ _ IH _ v' w' Hs). intros rs ss Hrs. apply par_ret. by constructor.
Qed.

Lemma first_error_agree {A B} (Q : A → B → Prop) l l' :
  Forall2 (agree Q) l l' → agree (Forall2 Q) (first_error l) (first_error l').
Proof.
  induction 1 as [|r s l l' Hrs _ IH]; [constructor|]. destruct r as [e|a], s as [e'|b]; simpl in *; try done.
  destruct (first_error l), (first_error l'); simpl in *; [done..|]. by constructor.
Qed.

Lemma par_promise_all {A B} (Q : A → B → Prop) l l' :
  Forall2 (par (linked P) Q) l l' → par (linked P) (Forall2 Q) (promise_all l) (promise_all l').
Proof.
  intros Hl v w Hvw. destruct (par_call_all Q l l' Hl v w Hvw) as [Hr Hs]. unfold promise_all.
  destruct (call_all l v) as [[e|rs] v'], (call_all l' w) as [[e'|ss] w']; simpl in *; try done.
  split; [by apply first_error_agree|by apply tick_linked].
Qed.
End loop.
