(* ===== verification/Runner.v ===== *)
(** The broker registry (adapters/index.ts), the suite runner (runner.ts) and the
    command line entry (index.ts): which scenarios run against which adapter, what a
    report contains, and the exit code. *)

From stdpp Require Import pretty.
From S2P Require Import Prelude Abstractions Ports Client RabbitMq Kafka.
From S2P Require Import Artemis InMemoryBus InMemoryScheduler Resilience EventLoop Scenarios BusScenarios FeatureScenarios BusSuite.
From Stdlib Require Import Ascii.

(** ** Adapters behind the two ports *)

Record Adapter := {
  ad_state : Type;
  ad_sched : IMessageScheduler ad_state;
  ad_bus : IMessageBus ad_state;
  ad_timed : Timed ad_state;  (* the world it lives in *)
  ad_host : @BusHost ad_state ad_timed ad_bus;  (* its callbacks in the event loop *)
  ad_init : ad_state
}.

(** What the registered factories need: the client libraries, the retry and breaker
    package, and the environment. *)
Record Platform := {
  pf_rabbit : Client RabbitMq.Cmd;
  pf_kafka : Client Kafka.Cmd;
  pf_artemis : ArtemisClient;
  pf_cockatiel : Cockatiel;
  pf_rabbitTimed : Timed RabbitW;
  pf_rabbitHost : @BusHost RabbitW pf_rabbitTimed (@rabbit_IMessageBus pf_rabbit);
  pf_kafkaTimed : Timed KafkaW;
  pf_kafkaHost : @BusHost KafkaW pf_kafkaTimed (@kafka_IMessageBus pf_kafka);
  pf_artemisTimed : Timed ArtemisW;
  pf_artemisHost : @BusHost ArtemisW pf_artemisTimed (@artemis_IMessageBus pf_artemis);
  pf_rabbitConfig : RabbitConfig;
  pf_kafkaConfig : KafkaConfig;
  pf_artemisConfig : ArtemisConfig;
  pf_env : string → option string;
  pf_now : Z
}.

Definition remote {Cmd S} (now : Z) (s : S) : Remote Cmd S :=
  {| re_self := s; re_log := []; re_now := now; re_draws := 0 |}.

(** The factory of each broker. *)
Definition REGISTRY (pf : Platform) : list (string * Adapter) := [
  ("artemis", {| ad_state := ArtemisW; ad_sched := @artemis_IMessageScheduler (pf_artemis pf);
                 ad_bus := @artemis_IMessageBus (pf_artemis pf); ad_timed := pf_artemisTimed pf; ad_host := pf_artemisHost pf;
                 ad_init := remote (pf_now pf) (new_ArtemisScheduler (pf_artemisConfig pf) (pf_env pf)) |});
  ("rabbitmq", {| ad_state := RabbitW; ad_sched := @rabbit_IMessageScheduler (pf_rabbit pf);
                  ad_bus := @rabbit_IMessageBus (pf_rabbit pf); ad_timed := pf_rabbitTimed pf; ad_host := pf_rabbitHost pf;
                  ad_init := remote (pf_now pf) (new_RabbitMqScheduler (pf_rabbitConfig pf)) |});
  ("kafka", {| ad_state := KafkaW; ad_sched := @kafka_IMessageScheduler (pf_kafka pf);
               ad_bus := @kafka_IMessageBus (pf_kafka pf); ad_timed := pf_kafkaTimed pf; ad_host := pf_kafkaHost pf;
               ad_init := remote (pf_now pf) (new_KafkaScheduler (pf_kafkaConfig pf)) |});
  ("in-memory", {| ad_state := Scheduler; ad_sched := in_memory_IMessageScheduler;
                   ad_bus := in_memory_IMessageBus; ad_timed := in_memory_Timed; ad_host := in_memory_BusHost;
                   ad_init := new_InMemoryScheduler (pf_now pf) |})].

Definition KNOWN_BROKERS (pf : Platform) : list string := (REGISTRY pf).*1.

(** The world under the decorator. *)
Definition resilient_Timed `{Cockatiel} {W} (T : Timed W) : Timed (Resilient W).
Proof.
  refine {| clock r := clock (ob_inner r.2);
            elapse ms r := (r.1, ob_put (elapse ms (ob_inner r.2)) r.2);
            handled r h := handled (ob_inner r.2) h |}.
  intros ms r. apply elapse_clock.
Defined.

Definition resilient_adapter (pf : Platform) (a : Adapter) : Adapter := {|
  ad_state := @breaker (pf_cockatiel pf) * Observed (ad_state a);
  ad_sched := @Resilient_IMessageScheduler (pf_cockatiel pf) DEFAULT_RESILIENCE _ (ad_sched a);
  ad_bus := @Resilient_IMessageBus (pf_cockatiel pf) DEFAULT_RESILIENCE _ (ad_sched a) (ad_bus a);
  ad_timed := @resilient_Timed (pf_cockatiel pf) _ (ad_timed a);
  ad_host := @lifted_host _ _ (ad_timed a) (ad_bus a) (ad_host a) _ _
    (λ r, ob_inner r.2) (λ w r, (r.1, ob_put w r.2));
  ad_init := @new_Resilient (pf_cockatiel pf) DEFAULT_RESILIENCE _ (ad_init a) |}.

(** [', '] between the known ids. *)
Fixpoint join_comma (l : list string) : string :=
  match l with [] => "" | [x] => x | x :: l' => x +:+ ", " +:+ join_comma l' end.

Definition createScheduler (pf : Platform) (id : string) (resilient : bool) : Error + Adapter :=
  match map_get (REGISTRY pf) id with
  | None => inl (OtherError ("Unknown broker '" +:+ id +:+ "'. Known: " +:+ join_comma (KNOWN_BROKERS pf)))
  | Some a => inr (if resilient then resilient_adapter pf a else a)
  end.

(** ** The suite *)

Record RunReport := {
  rr_broker : string;
  rr_capabilities : Capabilities;
  rr_results : list ScenarioResult
}.

(** A scenario as the runner sees it: a name and a program over the runner's world. *)
Record Runnable (V : Type) := { ru_name : string; ru_run : M V ScenarioResult }.
Arguments ru_name {V}.
Arguments ru_run {V}.

Definition naResult (name detail : string) : ScenarioResult :=
  {| sr_name := name; sr_status := unsupported; sr_detail := detail; sr_durationMs := 0 |}.

Definition failResult (name : string) (err : Error) : ScenarioResult :=
  {| sr_name := name; sr_status := fail; sr_detail := "threw: " +:+ error_message err; sr_durationMs := 0 |}.

Section suite.
Context {V : Type}.

(** [runOne] and [runOneBus]. *)
Definition runOne (scenario : Runnable V) : M V ScenarioResult :=
  try_catch (ru_run scenario) (λ err, mret (failResult (ru_name scenario) err)).

Fixpoint run_each (f : Runnable V → M V ScenarioResult) (l : list (Runnable V)) : M V (list ScenarioResult) :=
  match l with
  | [] => mret []
  | s :: l' => r ← f s; rs ← run_each f l'; mret (r :: rs)
  end.

(** [runSuite]; [connectBus] is the adapter's call in the runner's world. *)
Definition runSuite (name : string) (capabilities : Capabilities) (connectBus : M V unit)
    (scenarios busScenarios : list (Runnable V)) : M V RunReport :=
  results ← run_each runOne scenarios;
  busResults ←
    match cap_bus capabilities with
    | Some _ =>
        connectError ← try_catch (_ ← connectBus; mret None) (λ e, mret (Some e));
        run_each (λ s, match connectError with
                       | Some e => mret (failResult (ru_name s) e)
                       | None => runOne s
                       end) busScenarios
    | None => run_each (λ s, mret (naResult (ru_name s) "adapter has no bus port")) busScenarios
    end;
  mret {| rr_broker := name; rr_capabilities := capabilities; rr_results := results ++ busResults |}.

Definition countBy (r : RunReport) (s : ScenarioStatus) : nat :=
  length (filter (λ x, sr_status x = s) (rr_results r)).

(** [runAgainst]: [None] when the broker cannot be reached. *)
Definition runAgainst (connect dispose : M V unit) (suite : M V RunReport) : M V (option RunReport) :=
  connected ← try_catch (_ ← connect; mret true) (λ _, mret false);
  if (connected : bool) then finally (r ← suite; mret (Some r)) dispose else mret None.
End suite.

(** ** The entry point *)

(** How the process ends: an exit code, or an error nobody catches. *)
Inductive Ending := Exit (code : Z) | Uncaught (e : Error).

(** The scenarios to run against an adapter, over its world. *)
Record Suites := {
  su_scenarios : ∀ a : Adapter, list (Runnable (World (ad_state a)));
  su_busScenarios : ∀ a : Adapter, list (Runnable (World (ad_state a)))
}.

Definition new_world (a : Adapter) : World (ad_state a) :=
  world (ad_init a).

(** The run against one adapter, in the runner's world. *)
Definition suite_on (su : Suites) (a : Adapter) : M (World (ad_state a)) (option RunReport) :=
  runAgainst (on (@sched_connect _ (ad_sched a))) (on (@sched_dispose _ (ad_sched a)))
    (runSuite (@sched_name _ (ad_sched a)) (@sched_capabilities _ (ad_sched a))
       (on (@bus_connectBus _ (ad_bus a))) (su_scenarios su a) (su_busScenarios su a)).

Definition run_adapter (su : Suites) (a : Adapter) : Error + option RunReport := (suite_on su a (new_world a)).1.

(** The loop over the brokers: the reports in order, or the first uncaught error. *)
Fixpoint run_brokers (pf : Platform) (su : Suites) (ids : list string) : Error + list RunReport :=
  match ids with
  | [] => inr []
  | id :: ids' =>
      match createScheduler pf id true with
      | inl e => inl e
      | inr a =>
          match run_adapter su a with
          | inl e => inl e
          | inr report =>
              match run_brokers pf su ids' with
              | inl e => inl e
              | inr reports => inr (match report with Some r => r :: reports | None => reports end)
              end
          end
      end
  end.

(** [toLowerCase] on ASCII. *)
Definition lower (a : ascii) : ascii :=
  let n := nat_of_ascii a in
  if decide (65 ≤ n ∧ n ≤ 90) then ascii_of_nat (n + 32) else a.

Fixpoint toLowerCase (s : string) : string :=
  match s with "" => "" | String a s' => String (lower a) (toLowerCase s') end.

Definition any_failed (reports : list RunReport) : bool :=
  existsb (λ r, existsb (λ x, bool_decide (sr_status x = fail)) (rr_results r)) reports.

Definition main (pf : Platform) (su : Suites) (argument : option string) : Ending :=
  let arg := toLowerCase (default "in-memory" argument) in
  let brokers := if decide (arg = "all") then filter (.≠ "in-memory") (KNOWN_BROKERS pf) else [arg] in
  if decide (arg ≠ "all" ∧ arg ∉ KNOWN_BROKERS pf) then Exit 2
  else
    match run_brokers pf su brokers with
    | inl e => Uncaught e
    | inr reports => Exit (if any_failed reports then 1 else 0)
    end.

(** The scheduling suite of scenarios/index.ts. *)
Definition scheduling_suite (random6 : nat → string) (a : Adapter) : list (Runnable (World (ad_state a))) :=
  (λ s : Scenario _, {| ru_name := sn_name s; ru_run := sn_run s |}) <$>
  @ALL_SCENARIOS (ad_state a) (ad_timed a) random6 (ad_sched a).

(** The bus suite of scenarios/index.ts. *)
Definition bus_suite (random6 : nat → string) (a : Adapter) : list (Runnable (World (ad_state a))) :=
  (λ s : BusScenario _, {| ru_name := bs_name s; ru_run := bs_run s |}) <$>
  @ALL_BUS_SCENARIOS (ad_state a) (ad_timed a) (ad_bus a) (ad_host a) random6.

Definition suites (random6 : nat → string) : Suites := {|
  su_scenarios := scheduling_suite random6; su_busScenarios := bus_suite random6 |}.

(** ** Lemmas *)

Section suite_lemmas.
Context {V : Type}.

(** A step that never throws and reports under the scenario's name. *)
Definition reports (f : Runnable V → M V ScenarioResult) (s : Runnable V) : Prop :=
  ∀ w, ∃ r w', f s w = (inr r, w') ∧ sr_name r = ru_name s.

(** The scenario's own results carry its name. *)
Definition own_name (s : Runnable V) : Prop := ∀ v r v', ru_run s v = (inr r, v') → sr_name r = ru_name s.

Lemma runOne_reports s : own_name s → reports runOne s.
Proof.
  intros Hs w. unfold runOne, try_catch. destruct (ru_run s w) as [[e|r] w'] eqn:E.
  - by eexists _, w'.
  - exists r, w'. split; [done|]. by eapply Hs.
Qed.

Lemma run_each_reports f l w :
  Forall (reports f) l → ∃ rs w', run_each f l w = (inr rs, w') ∧ sr_name <$> rs = ru_name <$> l.
Proof.
  intros Hl. revert w. induction Hl as [|s l Hs Hl IH]; intros w; [by exists [], w|].
  destruct (Hs w) as (r & w1 & E & Hr). destruct (IH w1) as (rs & w2 & E2 & Hrs).
  exists (r :: rs), w2. cbn [run_each]. rewrite (bind_inr _ _ _ _ _ E), (bind_inr _ _ _ _ _ E2).
  split; [done|]. rewrite !fmap_cons. by rewrite Hr, Hrs.
Qed.
End suite_lemmas.

(** ** Properties *)

(** complete reports.  The suite never throws, whatever its scenarios and the bus
    connection do: the report has exactly one result per scenario, in order and under
    the scenario's name. *)
Theorem suite_complete {V : Type} (name : string) (capabilities : Capabilities) (connectBus : M V unit)
    (scenarios busScenarios : list (Runnable V)) (w : V) :
  Forall own_name (scenarios ++ busScenarios) →
  ∃ report w', runSuite name capabilities connectBus scenarios busScenarios w = (inr report, w') ∧
    sr_name <$> rr_results report = ru_name <$> (scenarios ++ busScenarios).
Proof.
  intros [Hs Hb]%Forall_app. unfold runSuite.
  destruct (run_each_reports runOne scenarios w) as (rs & w1 & E & Hrs).
  { eapply Forall_impl; [exact Hs|]. apply runOne_reports. }
  rewrite (bind_inr _ _ _ _ _ E).
  assert (Hbus : ∃ bs w2, match cap_bus capabilities with
    | Some _ =>
        connectError ← try_catch (_ ← connectBus; mret None) (λ e, mret (Some e));
        run_each (λ s, match connectError with
                       | Some e => mret (failResult (ru_name s) e)
                       | None => runOne s
                       end) busScenarios
    | None => run_each (λ s, mret (naResult (ru_name s) "adapter has no bus port")) busScenarios
    end w1 = (inr bs, w2) ∧ sr_name <$> bs = ru_name <$> busScenarios).
  { destruct (cap_bus capabilities).
    - assert (Hc : ∃ c w2, try_catch (_ ← connectBus; mret None) (λ e, mret (Some e)) w1 = (inr c, w2)).
      { unfold try_catch, mbind, M_bind. by destruct (connectBus w1) as [[e|[]] w2]; eexists _, _. }
      destruct Hc as (c & w2 & Ec). rewrite (bind_inr _ _ _ _ _ Ec). apply run_each_reports.
      eapply Forall_impl; [exact Hb|]. intros s Hn. destruct c as [e|]; [|by apply runOne_reports].
      intros w3. by eexists _, w3.
    - apply run_each_reports, Forall_true. intros s w3. by eexists _, w3. }
  destruct Hbus as (bs & w2 & Eb & Hbs). rewrite (bind_inr _ _ _ _ _ Eb).
  eexists _, w2. split; [reflexivity|]. simpl. by rewrite !fmap_app, Hrs, Hbs.
Qed.

Lemma suite_complete_witness :
  let throwing := {| ru_name := "S1"; ru_run := throw (OtherError "boom") |} in
  let passing := {| ru_name := "S5"; ru_run := mret {| sr_name := "S5"; sr_status := pass;
                                                       sr_detail := ""; sr_durationMs := 3 |} |} in
  ∃ report w', runSuite "demo" in_memory_capabilities (throw (OtherError "no bus")) [throwing] [passing] 0 =
      (inr report, w') ∧
    sr_name <$> rr_results report = ["S1"; "S5"].
Proof.
  apply (suite_complete "demo" in_memory_capabilities (throw (OtherError "no bus"))
    [{| ru_name := "S1"; ru_run := throw (OtherError "boom") |}]
    [{| ru_name := "S5"; ru_run := mret {| sr_name := "S5"; sr_status := pass;
                                           sr_detail := ""; sr_durationMs := 3 |} |}] 0).
  apply Forall_app. split; apply Forall_singleton; intros v r v' E; inversion E; reflexivity.
Defined.

Lemma map_get_known {A} (l : list (string * A)) id a : map_get l id = Some a → id ∈ l.*1.
Proof. intros E%map_get_Some_elem. by apply (list_elem_of_fmap_2 fst _ (id, a)). Qed.

(** ** What the exit code means *)

(** The scenarios run one after the other, each in the world its predecessor left; one
    that throws is reported as failed, under its name and with what it threw. *)
Inductive in_turn {V} : list (Runnable V) → V → list ScenarioResult → V → Prop :=
  | turn_end v : in_turn [] v [] v
  | turn_returns s l v r v1 rs v2 :
      ru_run s v = (inr r, v1) → in_turn l v1 rs v2 → in_turn (s :: l) v (r :: rs) v2
  | turn_throws s l v e v1 rs v2 :
      ru_run s v = (inl e, v1) → in_turn l v1 rs v2 →
      in_turn (s :: l) v (failResult (ru_name s) e :: rs) v2.

(** The suite: every scheduling scenario in turn, then every bus scenario, which is not
    applicable on an adapter without a bus and failed when the bus cannot be connected. *)
Definition suite_run {V} (capabilities : Capabilities) (connectBus : M V unit)
    (scenarios busScenarios : list (Runnable V)) (w : V) (results : list ScenarioResult) (w' : V) : Prop :=
  ∃ rs bs w1, results = rs ++ bs ∧ in_turn scenarios w rs w1 ∧
  match cap_bus capabilities with
  | None => w' = w1 ∧ bs = (λ s, naResult (ru_name s) "adapter has no bus port") <$> busScenarios
  | Some _ =>
      match connectBus w1 with
      | (inr _, w2) => in_turn busScenarios w2 bs w'
      | (inl e, w2) => w' = w2 ∧ bs = (λ s, failResult (ru_name s) e) <$> busScenarios
      end
  end.

Section runs.
Context {V : Type}.

Lemma run_each_in_turn (l : list (Runnable V)) w :
  ∃ rs w', run_each runOne l w = (inr rs, w') ∧ in_turn l w rs w'.
Proof.
  revert w. induction l as [|s l IH]; intros w; [exists [], w; split; [done|constructor]|].
  destruct (ru_run s w) as [[e|r] w1] eqn:E; destruct (IH w1) as (rs & w2 & E2 & Hrs).
  - exists (failResult (ru_name s) e :: rs), w2. cbn [run_each]. split; [|by econstructor].
    erewrite bind_inr; [by rewrite (bind_inr _ _ _ _ _ E2)|]. unfold runOne, try_catch. by rewrite E.
  - exists (r :: rs), w2. cbn [run_each]. split; [|by econstructor].
    erewrite bind_inr; [by rewrite (bind_inr _ _ _ _ _ E2)|]. unfold runOne, try_catch. by rewrite E.
Qed.

Lemma run_each_const (f : Runnable V → ScenarioResult) l w :
  run_each (λ s, mret (f s)) l w = (inr (f <$> l), w).
Proof.
  induction l as [|s l IH]; [done|]. cbn [run_each]. erewrite bind_inr; [|done].
  by rewrite (bind_inr _ _ _ _ _ IH).
Qed.

(** The suite never throws. *)
Lemma runSuite_total name capabilities (connectBus : M V unit) scenarios busScenarios w :
  ∃ results w', runSuite name capabilities connectBus scenarios busScenarios w =
      (inr {| rr_broker := name; rr_capabilities := capabilities; rr_results := results |}, w') ∧
    suite_run capabilities connectBus scenarios busScenarios w results w'.
Proof.
  unfold runSuite, suite_run. destruct (run_each_in_turn scenarios w) as (rs & w1 & E & Hrs).
  rewrite (bind_inr _ _ _ _ _ E). destruct (cap_bus capabilities).
  - assert (Hc : ∃ c w2, try_catch (_ ← connectBus; mret None) (λ e, mret (Some e)) w1 = (inr c, w2) ∧
      connectBus w1 = (match c with Some e => inl e | None => inr tt end, w2)).
    { unfold try_catch, mbind, M_bind. by destruct (connectBus w1) as [[e|[]] w2]; eexists _, w2. }
    destruct Hc as ([e|] & w2 & Hc & Hv).
    + exists (rs ++ ((λ s, failResult (ru_name s) e) <$> busScenarios)), w2.
      split; [|by exists rs, ((λ s, failResult (ru_name s) e) <$> busScenarios), w1; rewrite Hv].
      erewrite bind_inr; [done|]. rewrite (bind_inr _ _ _ _ _ Hc).
      apply (run_each_const (λ s, failResult (ru_name s) e)).
    + destruct (run_each_in_turn busScenarios w2) as (bs & w3 & Eb & Hbs).
      exists (rs ++ bs), w3. split; [|by exists rs, bs, w1; rewrite Hv].
      erewrite bind_inr; [done|]. by rewrite (bind_inr _ _ _ _ _ Hc).
  - exists (rs ++ ((λ s, naResult (ru_name s) "adapter has no bus port") <$> busScenarios)), w1.
    split; [|by exists rs, ((λ s, naResult (ru_name s) "adapter has no bus port") <$> busScenarios), w1].
    erewrite bind_inr; [done|].
    apply (run_each_const (λ s, naResult (ru_name s) "adapter has no bus port")).
Qed.
End runs.

(** The brokers an argument asks for. *)
Definition targets (pf : Platform) (arg : string) : list string :=
  if decide (arg = "all") then filter (.≠ "in-memory") (KNOWN_BROKERS pf) else [arg].

(** The run against broker [id], [outcome] being an error nobody catches, nothing or a
    report.  Its adapter is behind the decorator; when it cannot be connected there is no
    report; otherwise the suite runs and the adapter is disposed of, and an error of
    the disposal replaces the report. *)
Definition attempt (pf : Platform) (su : Suites) (id : string) (outcome : Error + option RunReport) : Prop :=
  ∃ a, createScheduler pf id true = inr a ∧
  match on (@sched_connect _ (ad_sched a)) (new_world a) with
  | (inl _, _) => outcome = inr None
  | (inr _, w1) =>
      ∃ results w2,
        suite_run (@sched_capabilities _ (ad_sched a)) (on (@bus_connectBus _ (ad_bus a)))
          (su_scenarios su a) (su_busScenarios su a) w1 results w2 ∧
        outcome =
          match on (@sched_dispose _ (ad_sched a)) w2 with
          | (inl e, _) => inl e
          | (inr _, _) => inr (Some {| rr_broker := @sched_name _ (ad_sched a);
              rr_capabilities := @sched_capabilities _ (ad_sched a); rr_results := results |})
          end
  end.

Definition some_failed (reports : list (option RunReport)) : Prop :=
  ∃ r x, Some r ∈ reports ∧ x ∈ rr_results r ∧ sr_status x = fail.

Lemma connected_spec {V} (connect : M V unit) w r w1 :
  connect w = (r, w1) →
  try_catch (_ ← connect; mret true) (λ _, mret false) w =
    (inr (match r with inr _ => true | inl _ => false end), w1).
Proof. intros E. unfold try_catch, mbind, M_bind. rewrite E. by destruct r. Qed.

Lemma run_adapter_attempt pf su id a :
  createScheduler pf id true = inr a → attempt pf su id (run_adapter su a).
Proof.
  intros Ha. exists a. split; [done|]. unfold run_adapter, suite_on, runAgainst.
  destruct (on (@sched_connect _ (ad_sched a)) (new_world a)) as [[e|[]] w1] eqn:Ec;
    rewrite (bind_inr _ _ _ _ _ (connected_spec _ _ _ _ Ec)).
  - done.
  - destruct (runSuite_total (@sched_name _ (ad_sched a)) (@sched_capabilities _ (ad_sched a))
      (on (@bus_connectBus _ (ad_bus a))) (su_scenarios su a) (su_busScenarios su a) w1)
      as (results & w2 & E & Hr).
    exists results, w2. split; [done|]. unfold finally. rewrite (bind_inr _ _ _ _ _ E). cbn [mret M_ret].
    by destruct (on sched_dispose w2) as [[e|[]] w3].
Qed.

Lemma run_brokers_attempts pf su ids :
  match run_brokers pf su ids with
  | inl e => ∃ id, id ∈ ids ∧ (createScheduler pf id true = inl e ∨ attempt pf su id (inl e))
  | inr reports =>
      ∃ outcomes, Forall2 (λ id o, attempt pf su id (inr o)) ids outcomes ∧ reports = omap id outcomes
  end.
Proof.
  induction ids as [|i ids IH]; simpl; [by exists []|].
  destruct (createScheduler pf i true) as [e|a] eqn:Ha; [exists i; set_solver|].
  pose proof (run_adapter_attempt pf su i a Ha) as Hi.
  destruct (run_adapter su a) as [e|o]; [exists i; set_solver|].
  destruct (run_brokers pf su ids) as [e|reports].
  - destruct IH as (j & Hj & H). exists j. set_solver.
  - destruct IH as (os & Hos & ->). exists (o :: os). split; [by constructor|]. by destruct o.
Qed.

Lemma any_failed_spec outcomes : any_failed (omap id outcomes) = true ↔ some_failed outcomes.
Proof.
  unfold any_failed, some_failed. rewrite existsb_exists. setoid_rewrite existsb_exists.
  setoid_rewrite <- list_elem_of_In. setoid_rewrite bool_decide_eq_true.
  setoid_rewrite list_elem_of_omap. split.
  - intros (r & (o & Ho & E) & x & Hx & Hf). unfold id in E. subst o. eauto.
  - intros (r & x & Hr & Hx & Hf). exists r. split; [by exists (Some r)|eauto].
Qed.

Lemma known_created pf id : id ∈ KNOWN_BROKERS pf → ∃ a, createScheduler pf id true = inr a.
Proof.
  intros Hk%map_get_is_Some. unfold createScheduler. destruct Hk as [a ->]. eauto.
Qed.

Lemma targets_known pf arg id :
  ¬ (arg ≠ "all" ∧ arg ∉ KNOWN_BROKERS pf) → id ∈ targets pf arg → id ∈ KNOWN_BROKERS pf.
Proof.
  intros Hn. unfold targets. case_decide as Hall.
  - by intros [_ Hin]%list_elem_of_filter.
  - intros ->%list_elem_of_singleton. destruct (decide (arg ∈ KNOWN_BROKERS pf)); [done|].
    by destruct Hn.
Qed.

(** C17: exit codes.  Whatever the platform, the scenarios and the argument, the process
    exits with 2 exactly for an argument that is neither a known broker nor all;
    otherwise every broker asked for is attempted in order, each report holding one
    result per scenario, and the process exits with 1 if some report has a failed
    result and with 0 if none has, brokers that cannot be connected adding nothing.
    The only error that escapes is one thrown by the disposal of an adapter. *)
Theorem process_outcome (pf : Platform) (su : Suites) (argument : option string) :
  let arg := toLowerCase (default "in-memory" argument) in
  match main pf su argument with
  | Exit code =>
      if decide (arg ≠ "all" ∧ arg ∉ KNOWN_BROKERS pf) then code = 2%Z
      else
        ∃ outcomes, Forall2 (λ id o, attempt pf su id (inr o)) (targets pf arg) outcomes ∧
          (code = 1%Z ∧ some_failed outcomes ∨ code = 0%Z ∧ ¬ some_failed outcomes)
  | Uncaught e => ∃ id, id ∈ targets pf arg ∧ attempt pf su id (inl e)
  end.
Proof.
  simpl. unfold main. set (arg := toLowerCase _). fold (targets pf arg).
  case_decide as Hu; [done|].
  pose proof (run_brokers_attempts pf su (targets pf arg)) as H.
  destruct (run_brokers pf su (targets pf arg)) as [e|reports].
  - destruct H as (id & Hid & [He|Hd]); [|by exists id].
    destruct (known_created pf id) as [a Ha]; [by eapply targets_known|congruence].
  - destruct H as (os & Hos & ->). exists os. split; [done|].
    destruct (any_failed (omap id os)) eqn:E.
    + left. split; [done|]. by apply any_failed_spec.
    + right. split; [done|]. intros Hf%any_failed_spec. congruence.
Qed.

(** A known broker that is created runs alone. *)
Lemma main_one pf su arg a :
  createScheduler pf (toLowerCase arg) true = inr a → toLowerCase arg ≠ "all" →
  main pf su (Some arg) =
  match run_adapter su a with
  | inl e => Uncaught e
  | inr report => Exit (if any_failed (match report with Some r => [r] | None => [] end) then 1 else 0)
  end.
Proof.
  intros Ha Hall. unfold main. simpl. rewrite (decide_False (P := toLowerCase arg = "all")) by done.
  rewrite decide_False.
  - cbn [run_brokers]. rewrite Ha. by destruct (run_adapter su a) as [e|[r|]].
  - intros [_ Hk]. apply Hk. unfold createScheduler in Ha.
    destruct (map_get _ _) as [x|] eqn:E; [|done]. by eapply map_get_known.
Qed.

(** an unreachable broker is a success.  When the broker named on the command line
    cannot be connected, no scenario runs and the process exits with code 0. *)
Theorem unreachable_exits_zero (pf : Platform) (su : Suites) (arg : string) (a : Adapter) (e : Error) :
  createScheduler pf (toLowerCase arg) true = inr a → toLowerCase arg ≠ "all" →
  (@sched_connect _ (ad_sched a) (ad_init a)).1 = inl e →
  main pf su (Some arg) = Exit 0.
Proof.
  intros Ha Hall He. rewrite (main_one pf su arg a Ha Hall). unfold run_adapter, suite_on, runAgainst.
  unfold mbind, M_bind, try_catch, on, lift. simpl.
  destruct (@sched_connect _ (ad_sched a) (ad_init a)) as [r w']. simpl in He. by subst r.
Qed.

(** The world of a remote adapter none of whose consumers is ever called. *)
Definition remote_Timed (Cmd S : Type) : Timed (Remote Cmd S).
Proof.
  refine {| clock := re_now; handled := λ _ _, [];
            elapse ms w := {| re_self := re_self w; re_log := re_log w; re_now := (re_now w + ms)%Z;
                              re_draws := re_draws w |} |}.
  done.
Defined.

Definition remote_host {Cmd S} (dispose : M (Remote Cmd S) unit) (B : IMessageBus (Remote Cmd S)) :
    @BusHost _ (remote_Timed Cmd S) B := {|
  host_microtasks _ := 0; host_turn w := (None, w); host_settle _ _ := mret tt;
  host_dispose := dispose; host_finished _ _ w := w; host_timers _ := []; host_fire _ w := w; host_advance := @elapse _ (remote_Timed Cmd S) |}.

Definition no_rabbit : Client RabbitMq.Cmd :=
  {| answer := λ _ _, Some (OtherError "ECONNREFUSED"); random6 := λ n, pretty n |}.

(** A platform with no RabbitMQ broker. *)
Definition demo_platform : Platform := {|
  pf_rabbit := no_rabbit;
  pf_kafka := kafka_willing;
  pf_artemis := demo_artemis;
  pf_cockatiel := demo_cockatiel;
  pf_rabbitTimed := remote_Timed _ _; pf_kafkaTimed := remote_Timed _ _; pf_artemisTimed := remote_Timed _ _;
  pf_rabbitHost := remote_host (@sched_dispose _ (@rabbit_IMessageScheduler no_rabbit)) _;
  pf_kafkaHost := remote_host (@sched_dispose _ (@kafka_IMessageScheduler kafka_willing)) _;
  pf_artemisHost := remote_host (@sched_dispose _ (@artemis_IMessageScheduler demo_artemis)) _;
  pf_rabbitConfig := rabbitConfigFromEnv (λ _, None);
  pf_kafkaConfig := kafkaConfigFromEnv (λ _, None);
  pf_artemisConfig := artemisConfigFromEnv (λ _, None);
  pf_env := λ _, None;
  pf_now := 1750000000000 |}.

Definition demo_suites : Suites := suites (λ n, pretty n).

Lemma unreachable_exits_zero_witness : main demo_platform demo_suites (Some "RabbitMQ") = Exit 0.
Proof.
  eapply (unreachable_exits_zero demo_platform demo_suites "RabbitMQ"); [reflexivity|done|vm_compute; reflexivity].
Defined.

(** The statuses a run against one broker reports. *)
Definition statuses (pf : Platform) (su : Suites) (id : string) : list ScenarioStatus :=
  match run_brokers pf su [id] with
  | inr reports => concat ((λ r, sr_status <$> rr_results r) <$> reports)
  | inl _ => []
  end.

(** the command line, end to end.  The in-memory broker, wrapped in the resilience
    decorator as every broker is, passes all twenty scenarios, the scheduling suite and
    the bus suite, and the process exits with code 0; a Kafka whose consumers receive
    nothing makes it exit with 1; an unknown broker is refused with 2. *)
Theorem command_line_outcomes :
  statuses demo_platform demo_suites "in-memory" = replicate 20 pass ∧
  main demo_platform demo_suites None = Exit 0 ∧
  main demo_platform demo_suites (Some "kafka") = Exit 1 ∧
  main demo_platform demo_suites (Some "nats") = Exit 2.
Proof. vm_compute. done. Qed.

(** An adapter behind the fault injector, with no fault armed. *)
Definition faulted_Timed {W} (T : Timed W) : Timed (Faulted W).
Proof.
  refine {| clock f := clock (fi_inner f); elapse ms f := fi_put (elapse ms (fi_inner f)) f;
            handled f h := handled (fi_inner f) h |}.
  intros ms f. apply elapse_clock.
Defined.

Definition faulted_adapter (a : Adapter) : Adapter := {|
  ad_state := Faulted (ad_state a);
  ad_sched := @FaultInjecting_IMessageScheduler _ (ad_sched a);
  ad_bus := @FaultInjecting_IMessageBus _ (ad_bus a);
  ad_timed := faulted_Timed (ad_timed a);
  ad_host := @lifted_host _ _ (ad_timed a) (ad_bus a) (ad_host a) _ _ fi_inner fi_put;
  ad_init := {| failuresRemaining := 0; fi_inner := ad_init a |} |}.

Definition in_memory_adapter (now : Z) : Adapter := {|
  ad_state := Scheduler; ad_sched := in_memory_IMessageScheduler; ad_bus := in_memory_IMessageBus;
  ad_timed := in_memory_Timed; ad_host := in_memory_BusHost; ad_init := new_InMemoryScheduler now |}.

(** the fault injector is not transparent.  With no fault armed, the in-memory bus
    behind it fails deduplication, priority, request/reply and expiry, because its
    publish drops the options; the group scenario passes although no message has a
    group any more, since its check accepts one consumer taking everything. *)
Theorem fault_injector_not_transparent :
  match run_adapter demo_suites (faulted_adapter (in_memory_adapter 1750000000000)) with
  | inr (Some r) =>
      sr_name <$> filter (λ x, sr_status x = fail) (rr_results r) =
        [s13_name; s14_name; s15_name; s16_name] ∧
      sr_detail <$> filter (λ x, sr_name x = s12_name) (rr_results r) =
        ["per-group order preserved, each group pinned to one consumer (split 18/0)"]
  | _ => False
  end.
Proof. vm_compute. done. Qed.
