(* ===== verification/Transparency.v ===== *)
(** The suite over two adapters that answer alike: every scenario reports the same
    (Simulation.v).  The resilience decorator over a dependable adapter answers like the
    adapter, so its report is that of the bare adapter, and no resilience event occurs. *)

From stdpp Require Import pretty.
From S2P Require Import Prelude Abstractions Ports Client InMemoryScheduler Resilience.
From S2P Require Import EventLoop Scenarios BusScenarios FeatureScenarios BusSuite Simulation Runner.

(** ** Automation *)

Create HintDb sim discriminated.
#[export] Hint Resolve par_time par_nonce par_read par_declare par_undeclared par_sleep par_publish par_subscribe
  par_unsubscribe par_start par_start_call par_stop par_stop_call par_nonces par_result : sim.

(** Values two related calls returned: one value, or collectors of one variable. *)
Ltac unify_results :=
  repeat match goal with
    | H : ?a = ?b |- _ => is_var a; subst a
    | H : same_collector _ ?c ?d |- _ =>
        destruct c, d; destruct H as [? ?]; cbn [ac_received ac_sub] in *
    | H : (_, _) = (_, _) |- _ => injection H as ? ?
    end.

(** What a collector holds is a function of its variable. *)
Ltac normalize := cbv beta delta [seen count bodies ac_received ac_sub count_note or_return] iota.

Ltac go_step :=
  match goal with
  | |- par ?P ?Q (let x := ?e in @?k x) (let y := ?e in @?l y) =>
      change ((λ z, par P Q (k z) (l z)) e); let z := fresh "z" in generalize e as z; intros z
  | |- par _ _ (_ ≫= _) (_ ≫= _) =>
      first [ eapply par_bind; [solve [eauto with sim]|] | apply (par_bind _ eq) ];
      [..|let a := fresh "a" in let b := fresh "b" in let E := fresh "E" in intros a b E; unify_results]
  | |- par _ _ (finally _ _) (finally _ _) => apply par_finally
  | |- par _ _ (try_catch _ _) (try_catch _ _) => apply par_try; [|let e := fresh "e" in intros e]
  | |- par _ _ (publish_all (_ <$> _)) _ => apply par_publish_all; intros
  | |- par _ _ (wait _ _) (wait _ _) => apply par_wait; [typeclasses eauto|intros ?; reflexivity]
  | |- par _ _ (mret _) (mret _) => apply par_ret; solve [eauto]
  | |- par _ _ (throw _) (throw _) => apply par_throw
  | |- par _ _ (unsubscribe (match ?x with _ => _ end)) (unsubscribe (match ?x with _ => _ end)) => destruct x
  | |- par _ _ (match ?x with _ => _ end) (match ?x with _ => _ end) => destruct x
  | |- par _ _ _ _ => solve [eauto with sim]
  end.

Ltac side_by_side := normalize; rewrite ?sim_capabilities; repeat (cbv beta; go_step).

Section scenarios.
Context {V W : Type} `{BusHost V} `{BusHost W} (P : V → W → Prop) `{!HostSim P} (random6 : nat → string).

Lemma pubSub_par : par (linked P) eq (pubSub random6) (pubSub random6).
Proof. unfold pubSub. side_by_side. Qed.

Lemma s7_ack_par t0 : par (linked P) eq (s7_ack random6 t0) (s7_ack random6 t0).
Proof. unfold s7_ack. side_by_side. Qed.

Lemma s7_nack_par t0 : par (linked P) eq (s7_nack random6 t0) (s7_nack random6 t0).
Proof. unfold s7_nack. side_by_side. Qed.

Lemma s7_crash_par t0 : par (linked P) eq (s7_crash random6 t0) (s7_crash random6 t0).
Proof. unfold s7_crash. side_by_side. Qed.

Hint Resolve s7_ack_par s7_nack_par s7_crash_par : sim.

Lemma explicitAck_par : par (linked P) eq (explicitAck random6) (explicitAck random6).
Proof. unfold explicitAck. side_by_side. Qed.

Lemma poisonDlq_par : par (linked P) eq (poisonDlq random6) (poisonDlq random6).
Proof. unfold poisonDlq. side_by_side. Qed.

Lemma competingConsumers_par : par (linked P) eq (competingConsumers random6) (competingConsumers random6).
Proof. unfold competingConsumers. side_by_side. Qed.

Lemma s10_crash_par t q b c f s hf hs :
  par (linked P) eq (s10_crash t q b c f s hf hs) (s10_crash t q b c f s hf hs).
Proof. unfold s10_crash. side_by_side. Qed.

Hint Resolve s10_crash_par : sim.

Lemma s10_without_par t0 : par (linked P) eq (s10_without random6 t0) (s10_without random6 t0).
Proof. unfold s10_without. side_by_side. Qed.

Lemma s10_with_par t0 : par (linked P) eq (s10_with random6 t0) (s10_with random6 t0).
Proof. unfold s10_with. side_by_side. Qed.

Lemma s10_down_par t0 : par (linked P) eq (s10_down random6 t0) (s10_down random6 t0).
Proof. unfold s10_down. side_by_side. Qed.

Hint Resolve s10_without_par s10_with_par s10_down_par : sim.

Lemma idempotentConsumer_par : par (linked P) eq (idempotentConsumer random6) (idempotentConsumer random6).
Proof. unfold idempotentConsumer. side_by_side. Qed.

Lemma retryQueue_par : par (linked P) eq (retryQueue random6) (retryQueue random6).
Proof. unfold retryQueue, jobs. side_by_side. Qed.

Lemma messageGroups_par : par (linked P) eq (messageGroups random6) (messageGroups random6).
Proof. unfold messageGroups. side_by_side. Qed.

Lemma brokerNativeDedup_par : par (linked P) eq (brokerNativeDedup random6) (brokerNativeDedup random6).
Proof. unfold brokerNativeDedup. side_by_side. Qed.

Lemma priority_par : par (linked P) eq (priority random6) (priority random6).
Proof. unfold priority. side_by_side. Qed.

Lemma requestReply_par : par (linked P) eq (requestReply random6) (requestReply random6).
Proof. unfold requestReply. side_by_side. Qed.

Lemma ttlExpiry_par : par (linked P) eq (ttlExpiry random6) (ttlExpiry random6).
Proof. unfold ttlExpiry. side_by_side. Qed.

Lemma durableSubscription_par : par (linked P) eq (durableSubscription random6) (durableSubscription random6).
Proof. unfold durableSubscription. side_by_side. Qed.

Lemma singleActiveConsumer_par : par (linked P) eq (singleActiveConsumer random6) (singleActiveConsumer random6).
Proof. cbv delta [singleActiveConsumer batch]. side_by_side. Qed.

Lemma streamReplay_par : par (linked P) eq (streamReplay random6) (streamReplay random6).
Proof. unfold streamReplay. side_by_side. Qed.

Lemma handlerFaultIsolation_par : par (linked P) eq (handlerFaultIsolation random6) (handlerFaultIsolation random6).
Proof. unfold handlerFaultIsolation. side_by_side. Qed.

Lemma received_same subs subs' :
  Forall2 (same_collector P) subs subs' → (@ac_received V _ <$> subs) = (@ac_received W _ <$> subs').
Proof. induction 1 as [|c d l l' [E _] _ IH]; [done|]. rewrite !fmap_cons, E. by f_equal. Qed.

(** What the check of S6 reads is a function of the collectors' variables. *)
Lemma counts_received {X} `{IMessageBus X} (subs : list (@AckCollector X _)) vs :
  (λ s, count s vs) <$> subs = (λ x, length (msgs x vs)) <$> (ac_received <$> subs).
Proof. by rewrite <- list_fmap_compose. Qed.

Lemma seen_received {X} `{IMessageBus X} (subs : list (@AckCollector X _)) vs :
  forallb (λ s, seen 1 s vs) subs = forallb (λ x, bool_decide (1 ≤ length (msgs x vs))) (ac_received <$> subs).
Proof. induction subs as [|c subs IH]; [done|]. rewrite fmap_cons. simpl. by rewrite IH. Qed.

Lemma fanout_par : par (linked P) eq (fanout_ random6) (fanout_ random6).
Proof.
  unfold fanout_. repeat (rewrite ?sim_capabilities; go_step).
  eapply par_bind; [apply (par_promise_all P (same_collector P))|].
  { apply Forall2_imap_same. intros i x. apply par_start_call. }
  intros subs subs' Hs. pose proof (received_same _ _ Hs) as E. apply par_finally.
  - go_step. eapply par_bind; [apply par_wait; [typeclasses eauto|]; intros vs; by rewrite !seen_received, E|]. intros ? ok ->.
    eapply par_bind with (Q' := eq); [|intros ? counts ->; repeat go_step].
    apply par_same. intros v w Hl. by rewrite (vars_linked _ _ _ Hl), !counts_received, E.
  - apply (par_bind _ (λ _ _, True)); [|intros; by apply par_ret]. eapply par_conseq; [|done].
    apply (par_promise_all P eq). apply Forall2_fmap. eapply Forall2_impl; [exact Hs|].
    intros c d [_ Hc]. by apply (par_stop_call P).
Qed.

(** The bus suite, scenario by scenario. *)
Lemma bus_suite_par :
  Forall2 (λ s s', bs_name s = bs_name s' ∧ par (linked P) eq (bs_run s) (bs_run s'))
    (@ALL_BUS_SCENARIOS V _ _ _ random6) (@ALL_BUS_SCENARIOS W _ _ _ random6).
Proof.
  unfold ALL_BUS_SCENARIOS. repeat (apply Forall2_cons; split; [split; [done|]|]); [..|constructor]; simpl.
  - apply pubSub_par.
  - apply fanout_par.
  - apply explicitAck_par.
  - apply poisonDlq_par.
  - apply competingConsumers_par.
  - apply idempotentConsumer_par.
  - apply retryQueue_par.
  - apply messageGroups_par.
  - apply brokerNativeDedup_par.
  - apply priority_par.
  - apply requestReply_par.
  - apply ttlExpiry_par.
  - apply durableSubscription_par.
  - apply singleActiveConsumer_par.
  - apply streamReplay_par.
  - apply handlerFaultIsolation_par.
Qed.
End scenarios.

(** ** The scheduling port *)

Class SchedSim {V W : Type} `{Timed V} `{IMessageScheduler V} `{Timed W} `{IMessageScheduler W} (P : V → W → Prop) := {
  ssim_sub : @sched_sub V _ → @sched_sub W _ → Prop;
  ssim_sendNow d p : par P eq (sched_sendNow d p) (sched_sendNow d p);
  ssim_schedule d p at_ : par P eq (sched_schedule d p at_) (sched_schedule d p at_);
  ssim_cancel h : par P eq (sched_cancel h) (sched_cancel h);
  ssim_list d : par P eq (sched_listScheduled d) (sched_listScheduled d);
  ssim_consume d h : par P ssim_sub (sched_consume d h) (sched_consume d h);
  ssim_unsubscribe s s' : ssim_sub s s' → par P eq (sched_unsubscribe s) (sched_unsubscribe s');
  ssim_handled a b h : P a b → handled a h = handled b h;
  ssim_elapse ms a b : P a b → P (elapse ms a) (elapse ms b)
}.

Section scheduling.
Context {V W : Type} `{BusHost V} `{BusHost W} `{!IMessageScheduler V} `{!IMessageScheduler W}.
Context (P : V → W → Prop) `{!HostSim P} `{!SchedSim P} (random6 : nat → string).

Definition same_messages (c : @MessageCollector V _) (d : @MessageCollector W _) : Prop :=
  mc_handler c = mc_handler d ∧ ssim_sub (mc_sub c) (mc_sub d).

Lemma par_delay ms : par (linked P) eq (delay ms) (delay ms).
Proof. intros v w Hl. split; [done|]. apply put_adapter_linked; [done|]. apply ssim_elapse, Hl. Qed.

Lemma par_start_collector dest : par (linked P) same_messages (start_collector dest) (start_collector dest).
Proof.
  intros v w Hl. pose proof Hl as [Hc Hh El Ha]. unfold start_collector. rewrite Hc, Hh, El.
  set (v' := {| wd_adapter := wd_adapter v |}). set (w' := {| wd_adapter := wd_adapter w |}).
  assert (Hl' : linked P v' w') by by split.
  destruct (par_on P _ _ _ (ssim_consume dest (wd_handlers w)) v' w' Hl') as [Hr Hs].
  destruct (on _ v') as [r v2], (on _ w') as [s w2]. simpl in *. split; [|done].
  by destruct r, s; simpl in *.
Qed.

Lemma collected_same c d token v w :
  same_messages c d → linked P v w → collected c token v = collected d token w.
Proof.
  intros [E _] Hl. unfold collected, Scenarios.bodies. by rewrite E, (ssim_handled _ _ _ (ln_adapter _ _ _ Hl)).
Qed.

Lemma par_collected c d token :
  same_messages c d → par (linked P) eq (λ v, (inr (collected c token v), v)) (λ w, (inr (collected d token w), w)).
Proof. intros Hc. apply par_same. intros v w. by apply collected_same. Qed.

Lemma par_arrives c d token t i :
  same_messages c d → par (linked P) eq (waitUntil delay (collected c token) t i) (waitUntil delay (collected d token) t i).
Proof. intros Hc. apply (par_waitUntil P); [apply par_delay|]. intros v w. by apply collected_same. Qed.

Lemma par_stop_collector c d : same_messages c d → par (linked P) eq (stop_collector c) (stop_collector d).
Proof. intros [_ Hs]. by apply par_on, ssim_unsubscribe. Qed.

Lemma par_sendNow d p : par (linked P) eq (on (sched_sendNow d p)) (on (sched_sendNow d p)).
Proof. apply par_on, ssim_sendNow. Qed.

Lemma par_schedule d p t : par (linked P) eq (on (sched_schedule d p t)) (on (sched_schedule d p t)).
Proof. apply par_on, ssim_schedule. Qed.

Lemma par_cancel h : par (linked P) eq (on (sched_cancel h)) (on (sched_cancel h)).
Proof. apply par_on, ssim_cancel. Qed.

Lemma par_list d : par (linked P) eq (on (sched_listScheduled d)) (on (sched_listScheduled d)).
Proof. apply par_on, ssim_list. Qed.

Hint Resolve par_delay par_start_collector par_collected par_arrives par_stop_collector par_sendNow par_schedule
  par_cancel par_list : sim.

Lemma immediateDelivery_par : par (linked P) eq (immediateDelivery random6) (immediateDelivery random6).
Proof. unfold immediateDelivery. side_by_side. Qed.

Lemma scheduledDelivery_par : par (linked P) eq (scheduledDelivery random6) (scheduledDelivery random6).
Proof. unfold scheduledDelivery. side_by_side. Qed.

Lemma cancelScheduled_par : par (linked P) eq (cancelScheduled random6) (cancelScheduled random6).
Proof. unfold cancelScheduled. side_by_side. Qed.

Lemma cancel_all_par d l : par (linked P) eq (cancel_all d l) (cancel_all d l).
Proof. induction l as [|p l IH]; simpl; side_by_side. Qed.

Hint Resolve cancel_all_par : sim.

Lemma listPending_par : par (linked P) eq (listPending random6) (listPending random6).
Proof. unfold listPending, cleanup. side_by_side. Qed.

Lemma scheduling_suite_par :
  Forall2 (λ s s', sn_name s = sn_name s' ∧ par (linked P) eq (sn_run s) (sn_run s'))
    (@ALL_SCENARIOS V _ random6 _) (@ALL_SCENARIOS W _ random6 _).
Proof.
  unfold ALL_SCENARIOS. repeat (apply Forall2_cons; split; [split; [done|]|]); [..|constructor]; simpl.
  - apply immediateDelivery_par.
  - apply scheduledDelivery_par.
  - apply cancelScheduled_par.
  - apply listPending_par.
Qed.
End scheduling.

(** ** The runner over both *)

(** One report up to the name of the broker. *)
Definition renamed (name : string) (r : RunReport) : RunReport :=
  {| rr_broker := name; rr_capabilities := rr_capabilities r; rr_results := rr_results r |}.

Section runner.
Context {V W : Type} (P : V → W → Prop).

Definition twins (s : Runnable V) (s' : Runnable W) : Prop :=
  ru_name s = ru_name s' ∧ par P eq (ru_run s) (ru_run s').

Lemma runOne_par s s' : twins s s' → par P eq (runOne s) (runOne s').
Proof. intros [E Hs]. apply par_try; [done|]. intros e. rewrite E. by apply par_ret. Qed.

Lemma run_each_par f g l l' :
  Forall2 (λ s s', par P eq (f s) (g s')) l l' → par P eq (run_each f l) (run_each g l').
Proof.
  induction 1 as [|s s' l l' Hs _ IH]; [by apply par_ret|]. eapply par_bind; [apply Hs|]. intros ? r ->.
  eapply par_bind; [apply IH|]. intros ? rs ->. by apply par_ret.
Qed.

Lemma runSuite_par name name' caps (connect : M V unit) (connect' : M W unit) sched sched' bus bus' :
  par P eq connect connect' → Forall2 twins sched sched' → Forall2 twins bus bus' →
  par P (λ r r', r = renamed name r') (runSuite name caps connect sched bus) (runSuite name' caps connect' sched' bus').
Proof.
  intros Hc Hs Hb. eapply par_bind; [apply run_each_par; eapply Forall2_impl; [exact Hs|apply runOne_par]|].
  intros ? rs ->. apply (par_bind _ eq); [|intros ? bs ->; by apply par_ret]. destruct (cap_bus caps).
  - eapply par_bind.
    + apply (par_try _ eq); [eapply par_bind; [exact Hc|]|]; intros; by apply par_ret.
    + intros ? c ->. apply run_each_par. eapply Forall2_impl; [exact Hb|]. intros s s' Ht.
      destruct c; [|by apply runOne_par]. destruct Ht as [-> _]. by apply par_ret.
  - apply run_each_par. eapply Forall2_impl; [exact Hb|]. intros s s' [-> _]. by apply par_ret.
Qed.

Lemma runAgainst_par (connect dispose : M V unit) (connect' dispose' : M W unit) name suite suite' :
  par P eq connect connect' → par P eq dispose dispose' → par P (λ r r', r = renamed name r') suite suite' →
  par P (λ r r', r = renamed name <$> r') (runAgainst connect dispose suite) (runAgainst connect' dispose' suite').
Proof.
  intros Hc Hd Hs. apply (par_bind _ eq).
  { apply par_try; [eapply par_bind; [exact Hc|]|]; intros; by apply par_ret. }
  intros ? connected ->. destruct connected; [|by apply par_ret]. apply par_finally; [|done].
  eapply par_bind; [exact Hs|]. intros ? r ->. by apply par_ret.
Qed.
End runner.

(** ** A dependable adapter *)

(** The call keeps the invariant, and fails at most with a declared gap. *)
Definition sound {W A} (I : W → Prop) (m : M W A) : Prop :=
  ∀ w, I w → I (m w).2 ∧ ∀ e, (m w).1 = inl e → is_NotSupported e = true.

Definition preserved {W A} (I : W → Prop) (m : M W A) : Prop := ∀ w, I w → I (m w).2.

(** What an adapter promises while its broker answers.  Only the calls the decorator
    sends through its policies have to succeed. *)
Class Dependable {W : Type} `{BusHost W} `{!IMessageScheduler W} (I : W → Prop) := {
  dep_is_bus : cap_bus sched_capabilities = Some bus_capabilities;
  dep_connect : sound I sched_connect;
  dep_sendNow d p : sound I (sched_sendNow d p);
  dep_schedule d p at_ : sound I (sched_schedule d p at_);
  dep_cancel h : sound I (sched_cancel h);
  dep_list d : sound I (sched_listScheduled d);
  dep_consume d h : sound I (sched_consume d h);
  dep_connectBus : sound I bus_connectBus;
  dep_publish t p rk o : sound I (bus_publish t p rk o);
  dep_subscribe t h o : sound I (bus_subscribe t h o);
  dep_stop s : preserved I (sched_unsubscribe s);
  dep_unsubscribe s : preserved I (bus_unsubscribe s);
  dep_dispose : preserved I sched_dispose;
  dep_settle d s : preserved I (host_settle d s);
  dep_host_dispose : preserved I host_dispose;
  dep_finished d r w : I w → I (host_finished d r w);
  dep_turn w : I w → I (host_turn w).2;
  dep_fire i w : I w → I (host_fire i w);
  dep_advance ms w : I w → I (host_advance ms w);
  dep_elapse ms w : I w → I (elapse ms w)
}.

(** The in-memory adapter is dependable in every state: none of its calls throws. *)
Lemma never_throws {W A} (m : M W A) : (∀ w, ∃ a, (m w).1 = inr a) → sound (λ _, True) m.
Proof. intros Hm w _. split; [done|]. destruct (Hm w) as [a ->]. done. Qed.

#[export] Instance in_memory_Dependable : @Dependable Scheduler _ _ _ _ (λ _, True).
Proof.
  split; try done; intros; apply never_throws; intros w; cbn; first [by eexists|case_match; by eexists].
Qed.

(** ** The decorator at rest *)

Section decorated.
Context `{Cockatiel} (options : ResilienceOptions) {W : Type} (I : W → Prop).

(** The decorator around [w] with a closed circuit, nothing counted, nothing reported. *)
Record quiet (r : Resilient W) (w : W) : Prop := {
  qt_circuit : circuit r.1 = Closed 0;
  qt_attempt : ob_attempt r.2 = 0;
  qt_events : ob_events r.2 = [];
  qt_inner : ob_inner r.2 = w;
  qt_inv : I w
}.

Lemma quiet_put b o w w' : quiet (b, o) w → I w' → quiet (b, ob_put w' o) w'.
Proof. intros [? ? ? ? ?] Hw. by split. Qed.

Lemma new_quiet w : I w → quiet (new_Resilient options w) w.
Proof. intros Hw. split; try done. simpl. apply new_breaker_spec. Qed.

(** A call through the policies runs once. *)
Lemma run_op_par {A} (m : M W A) : sound I m → par quiet eq (run_op options m) m.
Proof.
  intros Hm [b o] w Hq. pose proof Hq as [Hb _ _ Ei Hw]. simpl in *. destruct (Hm w Hw) as [HI He].
  destruct (m w) as [[e|a] w'] eqn:E; simpl in *.
  - rewrite <- Ei in E. destruct (run_not_supported options m b 0 o e w' Hb E (He e eq_refl)) as (b' & -> & Hb' & _).
    split; [done|]. destruct Hq. by split.
  - rewrite <- Ei in E. pose proof (lift_inner_ok m o a w' E) as Hl.
    destruct (closed_success is_transient on_circuit _ b 0 _ _ _ Hb Hl) as (b' & Hex & Hb' & _).
    unfold run_op. rewrite (retry_ok _ _ _ _ _ _ _ Hex). split; [done|]. destruct Hq. by split.
Qed.

(** A call of the decorated adapter itself. *)
Lemma inner_par {A} (m : M W A) :
  preserved I m → par quiet eq (lift (λ r, ob_inner r.2) (λ w r, (r.1, ob_put w r.2)) m) m.
Proof.
  intros Hm [b o] w Hq. pose proof (Hm w (qt_inv _ _ Hq)) as HI. unfold lift. simpl.
  rewrite (qt_inner _ _ Hq : ob_inner o = w). destruct (m w) as [r w']. split; [by apply agree_eq|].
  by apply (quiet_put _ _ w).
Qed.

Lemma bypass_par {A} (m : M W A) : preserved I m → par quiet eq (bypass m) m.
Proof.
  intros Hm r w Hq. pose proof (inner_par m Hm r w Hq) as Hp. unfold bypass, lift in *.
  by destruct (m (ob_inner r.2)).
Qed.

Lemma inner_keeps (f : W → W) r w :
  (I w → I (f w)) → quiet r w → quiet (r.1, ob_put (f (ob_inner r.2)) r.2) (f w).
Proof. intros Hf Hq. rewrite (qt_inner _ _ Hq). destruct r. eapply quiet_put; [done|]. apply Hf, Hq. Qed.
End decorated.

(** The decorated adapter answers like the adapter, on both ports and in the loop. *)
Section transparent.
Context `{Cockatiel} (options : ResilienceOptions).
Context {W : Type} (T : Timed W) (S : IMessageScheduler W) (B : IMessageBus W) (L : BusHost W).
Context (I : W → Prop) `{!Dependable I}.

#[local] Instance decorated_Timed : Timed (Resilient W) := resilient_Timed T.
#[local] Instance decorated_bus : IMessageBus (Resilient W) := Resilient_IMessageBus options.
#[local] Instance decorated_sched : IMessageScheduler (Resilient W) := Resilient_IMessageScheduler options.
#[local] Instance decorated_host : BusHost (Resilient W) :=
  lifted_host _ _ (λ r, ob_inner r.2) (λ w r, (r.1, ob_put w r.2)).

Lemma quiet_HostSim : HostSim (quiet I).
Proof.
  apply (@Build_HostSim (Resilient W) W decorated_Timed decorated_bus decorated_host T B L (quiet I) (@eq (@bus_sub W B))).
  - simpl. by rewrite dep_is_bus.
  - intros r w Hq. simpl. by rewrite (qt_inner _ _ _ Hq).
  - intros r w Hq. simpl. by rewrite (qt_inner _ _ _ Hq).
  - intros r w Hq. simpl. by rewrite (qt_inner _ _ _ Hq).
  - intros. apply run_op_par, dep_publish.
  - intros. apply run_op_par, dep_subscribe.
  - intros ? s ->. apply bypass_par, dep_unsubscribe.
  - intros. apply inner_par, dep_settle.
  - apply inner_par, dep_host_dispose.
  - intros. by apply inner_keeps; [apply dep_finished|].
  - intros r w Hq. pose proof (inner_keeps I (λ w, (host_turn w).2) r w (dep_turn w) Hq) as Hk. simpl in *.
    rewrite (qt_inner _ _ _ Hq) in *. by destruct (host_turn w).
  - intros. by apply inner_keeps; [apply dep_fire|].
  - intros. by apply inner_keeps; [apply dep_advance|].
Qed.

Lemma quiet_SchedSim : SchedSim (quiet I).
Proof.
  apply (@Build_SchedSim (Resilient W) W decorated_Timed decorated_sched T S (quiet I) (@eq (@sched_sub W S))).
  - intros. apply run_op_par, dep_sendNow.
  - intros. apply run_op_par, dep_schedule.
  - intros. apply run_op_par, dep_cancel.
  - intros. apply run_op_par, dep_list.
  - intros. apply run_op_par, dep_consume.
  - intros ? s ->. apply bypass_par, dep_stop.
  - intros r w h Hq. simpl. by rewrite (qt_inner _ _ _ Hq).
  - intros. by apply inner_keeps; [apply dep_elapse|].
Qed.
End transparent.

(** Any two adapters that answer alike get one report. *)
Lemma suite_on_par (random6 : nat → string) (a b : Adapter) (P : ad_state a → ad_state b → Prop) :
  @HostSim _ _ (ad_timed a) (ad_bus a) (ad_host a) (ad_timed b) (ad_bus b) (ad_host b) P →
  @SchedSim _ _ (ad_timed a) (ad_sched a) (ad_timed b) (ad_sched b) P →
  @sched_capabilities _ (ad_sched a) = @sched_capabilities _ (ad_sched b) →
  par P eq (@sched_connect _ (ad_sched a)) (@sched_connect _ (ad_sched b)) →
  par P eq (@sched_dispose _ (ad_sched a)) (@sched_dispose _ (ad_sched b)) →
  par P eq (@bus_connectBus _ (ad_bus a)) (@bus_connectBus _ (ad_bus b)) →
  par (linked P) (λ r r', r = renamed (@sched_name _ (ad_sched a)) <$> r')
    (suite_on (suites random6) a) (suite_on (suites random6) b).
Proof.
  destruct a as [V S B T L v0], b as [W S' B' T' L' w0]; simpl. intros Hh Hs Hcaps Hc Hd Hb.
  apply runAgainst_par; [by apply par_on..|]. simpl. rewrite Hcaps. apply runSuite_par; [by apply par_on|..].
  - apply Forall2_fmap. apply (@scheduling_suite_par V W T B L T' B' L' S S' P Hh Hs random6).
  - apply Forall2_fmap. apply (@bus_suite_par V W T B L T' B' L' P Hh random6).
Qed.

(** ** Properties *)

(** C18: the decorator is transparent.  Over an adapter whose calls through the policies
    fail at most with a declared gap, the whole suite, its handlers, timers and waiting
    included, reports behind the resilience decorator exactly what it reports on the bare
    adapter, under the decorated name; it leaves the adapter in the same state, and no
    retry and no change of the circuit is reported. *)
Theorem decorator_transparent (pf : Platform) (random6 : nat → string) (a : Adapter) (I : ad_state a → Prop) :
  @Dependable _ (ad_timed a) (ad_bus a) (ad_host a) (ad_sched a) I → I (ad_init a) →
  let bare := suite_on (suites random6) a (new_world a) in
  let run := suite_on (suites random6) (resilient_adapter pf a) (new_world (resilient_adapter pf a)) in
  let after := wd_adapter run.2 : @breaker (pf_cockatiel pf) * Observed (ad_state a) in
  agree (λ r r', r = renamed (@sched_name _ (ad_sched a) +:+ " + Cockatiel") <$> r') run.1 bare.1 ∧
  ob_inner after.2 = wd_adapter bare.2 ∧ ob_events after.2 = [].
Proof.
  intros Hd Hi. destruct (suite_on_par random6 (resilient_adapter pf a) a (@quiet (pf_cockatiel pf) _ I))
    with (x := new_world (resilient_adapter pf a)) (y := new_world a) as [Hr [_ _ _ Hl]].
  - exact (quiet_HostSim DEFAULT_RESILIENCE (ad_timed a) (ad_sched a) (ad_bus a) (ad_host a) I).
  - exact (quiet_SchedSim DEFAULT_RESILIENCE (ad_timed a) (ad_sched a) (ad_bus a) (ad_host a) I).
  - done.
  - apply run_op_par, (@dep_connect _ _ _ _ _ _ Hd).
  - apply bypass_par, (@dep_dispose _ _ _ _ _ _ Hd).
  - apply run_op_par, (@dep_connectBus _ _ _ _ _ _ Hd).
  - split; [done..|]. by apply new_quiet.
  - split; [exact Hr|]. split; apply Hl.
Qed.

Lemma decorator_transparent_witness :
  let a := in_memory_adapter 1750000000000 in
  let bare := suite_on demo_suites a (new_world a) in
  let run := suite_on demo_suites (resilient_adapter demo_platform a) (new_world (resilient_adapter demo_platform a)) in
  let after := wd_adapter run.2 : demo_breaker * Observed Scheduler in
  agree (λ r r', r = renamed ("In-Memory (reference)" +:+ " + Cockatiel") <$> r') run.1 bare.1 ∧
  ob_inner after.2 = wd_adapter bare.2 ∧ ob_events after.2 = [].
Proof.
  apply (decorator_transparent demo_platform (λ n, pretty n) (in_memory_adapter 1750000000000) (λ _, True)).
  - apply in_memory_Dependable.
  - exact Logic.I.
Defined.
