(* ===== verification/Console.v ===== *)
(** What the command line prints: the terminal vocabulary (ansi.ts), the report of a run
    ([printReport] of runner.ts) and the timeline of the fault demos
    (fault/fault-narrator.ts).  Printing appends a line to a list; a string is its UTF-8
    bytes, and its JS length counts code units of UTF-16. *)

From stdpp Require Import pretty.
From S2P Require Import Prelude Abstractions Scenarios Runner.
From Stdlib Require Import Ascii.

(** ** The terminal vocabulary *)

Definition esc (code_ : string) : string := String (ascii_of_nat 27) ("[" +:+ code_ +:+ "m").

Definition c_reset : string := esc "0".
Definition c_bold : string := esc "1".
Definition c_dim : string := esc "2".
Definition c_green : string := esc "32".
Definition c_red : string := esc "31".
Definition c_yellow : string := esc "33".
Definition c_cyan : string := esc "36".
Definition c_magenta : string := esc "35".

Definition GLYPH (s : ScenarioStatus) : string :=
  match s with
  | pass => c_green +:+ "✓ pass" +:+ c_reset
  | fail => c_red +:+ "✗ fail" +:+ c_reset
  | unsupported => c_yellow +:+ "⊘ n/a " +:+ c_reset
  | skipped => c_dim +:+ "- skip" +:+ c_reset
  end.

(** [s.repeat(n)]. *)
Fixpoint repeat_string (s : string) (n : nat) : string :=
  match n with 0 => "" | S n => s +:+ repeat_string s n end.

Definition HR : string := c_dim +:+ repeat_string "─" 76 +:+ c_reset.

Definition yn (b : bool) : string := if b then "yes" else "no".

(** ** Padding *)

(** [s.length]: one unit per leading byte of a UTF-8 sequence, two for four-byte ones. *)
Fixpoint js_length (s : string) : nat :=
  match s with
  | "" => 0
  | String a s' =>
      let n := nat_of_ascii a in
      (if decide (n < 128) then 1 else if decide (n < 192) then 0 else if decide (n < 240) then 1 else 2)
      + js_length s'
  end.

Definition padEnd (s : string) (n : nat) : string := s +:+ repeat_string " " (n - js_length s).
Definition padStart (s : string) (n : nat) : string := repeat_string " " (n - js_length s) +:+ s.

(** ** The report *)

Definition cap_line (cap : Capabilities) : string :=
  "protocol=" +:+ protocol cap +:+ "  " +:+
  "native-scheduling=" +:+ yn (nativeScheduling cap) +:+ "  " +:+
  "cancel=" +:+ yn (supportsCancel cap) +:+ "  " +:+
  "list=" +:+ yn (supportsList cap).

Definition bus_line (b : BusCapabilities) : string :=
  "pub/sub=" +:+ yn (supportsTopic b) +:+ "  " +:+
  "fanout=" +:+ yn (supportsFanout b) +:+ "  " +:+
  "manual-ack=" +:+ yn (supportsManualAck b) +:+ "  " +:+
  "dead-letter=" +:+ yn (supportsDeadLetter b) +:+ "  " +:+
  "delivery-count=" +:+ yn (reportsDeliveryCount b).

Definition result_line (r : ScenarioResult) : string :=
  "  " +:+ GLYPH (sr_status r) +:+ "  " +:+ padEnd (sr_name r) 28 +:+ " " +:+ c_dim +:+
  (padStart (pretty (sr_durationMs r)) 5 +:+ "ms") +:+ c_reset +:+ "  " +:+ sr_detail r.

Definition summary_line (passed na failed : nat) : string :=
  "  " +:+ c_green +:+ pretty passed +:+ " passed" +:+ c_reset +:+ ", " +:+
  c_yellow +:+ pretty na +:+ " unsupported" +:+ c_reset +:+ ", " +:+
  (if decide (failed = 0) then c_dim else c_red) +:+ pretty failed +:+ " failed" +:+ c_reset.

(** The lines [printReport] writes. *)
Definition printReport (report : RunReport) : list string :=
  let cap := rr_capabilities report in
  [""; c_bold +:+ c_cyan +:+ rr_broker report +:+ c_reset; c_dim +:+ cap_line cap +:+ c_reset] ++
  match cap_bus cap with Some b => [c_dim +:+ bus_line b +:+ c_reset] | None => [] end ++
  [HR] ++ (result_line <$> rr_results report) ++
  [HR; summary_line (countBy report pass) (countBy report unsupported) (countBy report fail)].

(** ** The narrator *)

Definition n_header (title : string) : list string :=
  [""; c_bold +:+ c_cyan +:+ title +:+ c_reset +:+ "  —  fault-tolerance demo"; HR].
Definition n_step (text : string) : string := "  " +:+ c_dim +:+ "▸" +:+ c_reset +:+ " " +:+ text.
Definition n_ok (text : string) (millis : option Z) : string :=
  "  " +:+ c_green +:+ "✓" +:+ c_reset +:+ " " +:+ text +:+
  match millis with None => "" | Some ms => "  " +:+ c_dim +:+ pretty ms +:+ "ms" +:+ c_reset end.
Definition n_recover (text : string) : string := "  " +:+ c_cyan +:+ "⟳" +:+ c_reset +:+ " " +:+ text.
Definition n_retry (text : string) : string := "  " +:+ c_yellow +:+ "⚠" +:+ c_reset +:+ " " +:+ text.
Definition n_breaker (text : string) : string := "  " +:+ c_magenta +:+ "◍" +:+ c_reset +:+ " " +:+ text.
Definition n_dead (text : string) : string := "  " +:+ c_red +:+ "☠" +:+ c_reset +:+ " " +:+ text.
Definition n_footer (demonstrated failed : nat) : list string :=
  [HR; "  " +:+ c_green +:+ pretty demonstrated +:+ " demonstrated" +:+ c_reset +:+ ", " +:+
       (if decide (failed = 0) then c_dim else c_red) +:+ pretty failed +:+ " failed" +:+ c_reset].

(** ** Lemmas *)

Lemma js_length_app s t : js_length (s +:+ t) = js_length s + js_length t.
Proof. induction s as [|a s IH]; [done|]. simpl. rewrite IH. lia. Qed.

Lemma repeat_space_length n : js_length (repeat_string " " n) = n.
Proof.
  induction n as [|n IH]; [done|]. cbn [repeat_string]. by rewrite js_length_app, IH.
Qed.

Lemma padEnd_length s n : js_length (padEnd s n) = Nat.max n (js_length s).
Proof. unfold padEnd. rewrite js_length_app, repeat_space_length. lia. Qed.

Lemma padStart_length s n : js_length (padStart s n) = Nat.max n (js_length s).
Proof. unfold padStart. rewrite js_length_app, repeat_space_length. lia. Qed.

(** The statuses counted apart. *)
Lemma counts_add_up (r : RunReport) :
  countBy r pass + countBy r unsupported + countBy r fail + countBy r skipped = length (rr_results r).
Proof.
  unfold countBy. induction (rr_results r) as [|x l IH]; [done|].
  rewrite !filter_cons, length_cons. destruct (sr_status x); repeat case_decide; simpl in *; try done; lia.
Qed.

(** ** Properties *)

(** the report is a table.  When every name fits its column and every duration its own,
    the detail of a result starts at a column that depends on its status glyph only, and
    the three counts of the summary miss exactly the skipped results. *)
Theorem report_aligned (report : RunReport) :
  Forall (λ r, js_length (sr_name r) ≤ 28 ∧ js_length (pretty (sr_durationMs r)) ≤ 5) (rr_results report) →
  Forall (λ r, ∃ prefix, result_line r = prefix +:+ sr_detail r ∧ js_length prefix = 50 + js_length (GLYPH (sr_status r))) (rr_results report) ∧
  countBy report pass + countBy report unsupported + countBy report fail =
    length (rr_results report) - countBy report skipped.
Proof.
  intros Hf. split; [|pose proof (counts_add_up report); lia].
  eapply Forall_impl; [exact Hf|]. intros r [Hn Hd]. simpl in Hn, Hd. unfold result_line.
  exists ("  " +:+ GLYPH (sr_status r) +:+ "  " +:+ padEnd (sr_name r) 28 +:+ " " +:+ c_dim +:+
    (padStart (pretty (sr_durationMs r)) 5 +:+ "ms") +:+ c_reset +:+ "  ").
  split; [by rewrite !string_app_assoc|].
  rewrite !js_length_app, padEnd_length, padStart_length.
  change (js_length c_dim) with 4. change (js_length c_reset) with 4. simpl. lia.
Qed.
