(* ===== verification/FaultDemo.v ===== *)
(** The fault-tolerance demos (fault.ts): a crashing consumer, a broker outage behind
    the two decorators, and a poison message, narrated on the console, over any adapter
    in the event loop; and the entry point that runs them and sets the exit code.

    The narrator's lines are the variable "console".  The decorators of the outage demo
    wrap the adapter for its duration; their listener runs inside a call, so its lines
    are written when the call returns. *)

From stdpp Require Import pretty.
From S2P Require Import Prelude Abstractions Ports Client InMemoryScheduler Resilience.
From S2P Require Import EventLoop LoopTheory Scenarios BusScenarios FeatureScenarios BusSuite Runner Console.

(** Time passes for a circuit breaker. *)
Class Cooling `{Cockatiel} := cool : Z → breaker → breaker.

Definition say_line (line : string) (vs : Vars) : Vars := push_str "console" line vs.

Section single_adapter.
Context {W : Type} `{BusHost W} (random6 : nat → string).

Definition say (line : string) : M (World W) unit := pure_step (λ w, put_vars (say_line line (vars_of w)) w).

Fixpoint say_all (lines : list string) : M (World W) unit :=
  match lines with [] => mret tt | l :: lines' => _ ← say l; say_all lines' end.

(** Demo 1: a consumer receives a message and drops it un-acked. *)
Definition consumerCrashDemo : M (World W) bool :=
  n ← nonce random6;
  let t := "mbc.fault.crash." +:+ n in
  n ← nonce random6;
  let queueId := "worker-" +:+ n in
  crashed ← start "fault.crashed" t (Some (λ _, Return)) false (subscriber queueId);
  _ ← publish t "job-A" None no_publish_options;
  got ← wait (seen 1 crashed) 4000;
  if negb got then
    _ ← say (n_step "consumer never received the message");
    _ ← stop crashed;
    mret false
  else
    _ ← say (n_ok "message delivered to consumer" None);
    _ ← say (n_step "consumer crashes (drops the link with the message un-acked)");
    _ ← stop crashed;
    fresh ← start "fault.fresh" t None true (subscriber queueId);
    t0 ← time;
    redelivered ← wait (seen 1 fresh) 6000;
    _ ← stop fresh;
    if (redelivered : bool) then
      t1 ← time;
      _ ← say (n_recover ("broker redelivered the message to a fresh consumer  (" +:+ pretty (t1 - t0)%Z +:+ "ms)"));
      mret true
    else
      _ ← say (n_step "redelivery did NOT happen — message lost");
      mret false.

(** Demo 3: a message that always fails is dead-lettered. *)
Definition poison_handler (m : IncomingMessage) : Body :=
  Do (incr "fault.attempts") (λ vs,
    let attempts := default 0%Z (num "fault.attempts" vs) in
    Do (say_line (n_retry ("delivery attempt #" +:+ pretty (default attempts (im_deliveryCount m)) +:+
                           " failed → nack"))) (λ _, nack_requeue)).

Definition poisonDemo : M (World W) bool :=
  if negb (supportsDeadLetter bus_capabilities) then
    _ ← say (n_step "broker has no dead-letter support — skipping poison demo");
    mret false
  else
    n ← nonce random6;
    let t := "mbc.fault.poison." +:+ n in
    _ ← declare "fault.attempts" (UNum 0);
    n ← nonce random6;
    main ← start "fault.main" t (Some poison_handler) false (retrying ("poison-" +:+ n) 3 None);
    n ← nonce random6;
    dlq ← start "fault.dlq" (deadLetterAddress t) None true (of_kind fanout None ("dlq-" +:+ n));
    _ ← say (n_step "publish a poison message (handler always fails)");
    _ ← publish t "poison" None no_publish_options;
    landed ← wait (seen 1 dlq) 8000;
    _ ← stop main;
    _ ← stop dlq;
    attempts ← read (λ vs, default 0%Z (num "fault.attempts" vs));
    if (landed : bool) then
      _ ← say (n_dead ("dead-lettered after " +:+ pretty attempts +:+ " attempts → " +:+ deadLetterAddress t));
      mret true
    else
      _ ← say (n_step ("poison message was not dead-lettered (attempts=" +:+ pretty attempts +:+ ")"));
      mret false.
End single_adapter.

(** ** Demo 2 *)

Section outage.
Context `{Cooling} {W : Type} `{IMessageScheduler W} `{BusHost W} (random6 : nat → string).

(** The raw adapter behind the fault injector behind the resilience decorator. *)
Abbreviation Decorated := (Resilient (Faulted W)).

Definition DEMO_RESILIENCE : ResilienceOptions := {|
  maxRetryAttempts := 3; initialDelayMs := 60; maxDelayMs := 200; consecutiveFailures := 3;
  halfOpenAfterMs := 800 |}.

Definition raw_of (d : Decorated) : W := fi_inner (ob_inner d.2).
Definition put_raw (a : W) (d : Decorated) : Decorated := (d.1, ob_put (fi_put a (ob_inner d.2)) d.2).

(** The raw adapter's own port and host, in the decorated world. *)
#[local] Instance raw_bus : IMessageBus Decorated := {|
  bus_sub := bus_sub; bus_capabilities := bus_capabilities;
  bus_connectBus := lift raw_of put_raw bus_connectBus;
  bus_publish t b rk o := lift raw_of put_raw (bus_publish t b rk o);
  bus_subscribe t h o := lift raw_of put_raw (bus_subscribe t h o);
  bus_unsubscribe s := lift raw_of put_raw (bus_unsubscribe s) |}.

#[local] Instance decorated_Timed : Timed Decorated.
Proof.
  refine {| clock d := clock (raw_of d); elapse ms d := put_raw (elapse ms (raw_of d)) d;
            handled d h := handled (raw_of d) h |}.
  intros ms d. apply elapse_clock.
Defined.

#[local] Instance raw_host : @BusHost Decorated _ raw_bus := lifted_host decorated_Timed raw_bus raw_of put_raw.

(** The port of the resilient decorator. *)
Definition resilient_bus : IMessageBus Decorated :=
  Resilient_IMessageBus DEMO_RESILIENCE (W := Faulted W).

Definition events (w : World Decorated) : list ResilienceEvent := ob_events (wd_adapter w).2.

Definition breakerOpen (w : World Decorated) : bool :=
  existsb (λ e, match e with BreakerOpen => true | _ => false end) (events w).

Definition event_line (e : ResilienceEvent) : string :=
  match e with
  | RetryEvent attempt _ => n_retry ("retry #" +:+ pretty attempt +:+ " after transient fault")
  | BreakerOpen => n_breaker "circuit OPENED — failing fast to protect the broker"
  | BreakerHalfOpen => n_breaker "circuit HALF-OPEN — probing for recovery"
  | BreakerClose => n_breaker "circuit CLOSED — fully recovered"
  end.

(** [resilient.publish], with the lines of the listener, and whether it succeeded. *)
Definition resilient_publish (t body : string) : M (World Decorated) bool := λ w,
  let n := length (events w) in
  let '(r, w) := on (@bus_publish _ resilient_bus t body None no_publish_options) w in
  let w := (say_all (event_line <$> drop n (events w)) w).2 in
  (inr (match r with inr _ => true | inl _ => false end), tick (sync w)).

Definition inject (n : nat) : M (World Decorated) unit :=
  pure_step (λ w, put_adapter ((wd_adapter w).1, ob_put (injectFailures n (ob_inner (wd_adapter w).2)) (wd_adapter w).2) w).

Definition pause (ms : Z) : M (World Decorated) unit :=
  _ ← sleep ms; pure_step (λ w, put_adapter (cool ms (wd_adapter w).1, (wd_adapter w).2) w).

(** [for (i < n && !breakerOpen) try { publish } catch {}]. *)
Fixpoint until_open (n : nat) (t : string) : M (World Decorated) unit := λ w,
  match n with
  | 0 => (inr tt, w)
  | S n => if breakerOpen w then (inr tt, w)
           else (_ ← resilient_publish t "during-outage"; until_open n t) w
  end.

(** [for (i < n && !recovered) ...]: whether a publish got through. *)
Fixpoint until_recovered (n : nat) (t : string) : M (World Decorated) bool :=
  match n with
  | 0 => mret false
  | S n =>
      ok ← resilient_publish t "recovered";
      if (ok : bool) then mret true else _ ← pause 300; until_recovered n t
  end.

Definition show_bool (b : bool) : string := if b then "true" else "false".

Definition outage_body : M (World Decorated) bool :=
  n ← nonce random6;
  let t := "mbc.fault.net." +:+ n in
  n ← nonce random6;
  collector ← start "fault.collector" t None true (subscriber ("obs-" +:+ n));
  _ ← say (n_step "publish during a brief blip (2 transient faults)");
  _ ← inject 2;
  ok ← resilient_publish t "blip";
  _ ← say (if (ok : bool) then n_ok "publish succeeded despite the blip (retries absorbed it)" None
           else n_step "publish failed unexpectedly during the blip");
  _ ← say (n_step "broker connection severed (sustained outage)");
  _ ← inject 100;
  _ ← until_open 8 t;
  _ ← inject 0;
  _ ← pause 1000;
  recovered ← until_recovered 5 t;
  delivered ← waitUntil pause (λ w, bool_decide ("recovered" ∈ bodies collector (vars_of w))) 4000 50;
  _ ← stop collector;
  opened ← (λ w, (inr (breakerOpen w), w));
  if opened && recovered && delivered then
    _ ← say (n_ok "post-recovery message delivered end-to-end" None);
    mret true
  else
    _ ← say (n_step ("incomplete (breakerOpen=" +:+ show_bool opened +:+ ", recovered=" +:+
                     show_bool recovered +:+ ", delivered=" +:+ show_bool delivered +:+ ")"));
    mret opened.

(** Wrap the adapter of a world, and unwrap it. *)
Definition wrap_world (w : World W) : World Decorated := {|
  wd_counter := wd_counter w; wd_handlers := wd_handlers w;
  wd_adapter := new_Resilient DEMO_RESILIENCE {| failuresRemaining := 0; fi_inner := wd_adapter w |};
  wd_loop := wd_loop w |}.

Definition unwrap_world (w : World Decorated) : World W := {|
  wd_counter := wd_counter w; wd_handlers := wd_handlers w; wd_adapter := raw_of (wd_adapter w);
  wd_loop := wd_loop w |}.

Definition disconnectDemo : M (World W) bool := λ w,
  let '(r, v) := outage_body (wrap_world w) in (r, unwrap_world v).

(** ** The run *)

(** Count a demo: [(demonstrated, failed)]. *)
Definition tally (c : nat * nat) (ok : bool) : nat * nat := if ok then (S c.1, c.2) else (c.1, S c.2).

(** [runFaultDemos] on a created adapter: the number of failed demos.  The footer shows
    the counts reached when a demo throws. *)
Definition runFaultDemos : M (World W) nat :=
  connected ← try_catch (_ ← on sched_connect; _ ← on bus_connectBus; mret true) (λ _, mret false);
  if negb connected then mret 0
  else
    _ ← say_all (n_header sched_name);
    let close (c : nat * nat) : M (World W) unit :=
      _ ← say_all (n_footer c.1 c.2); on sched_dispose in
    let demo (c : nat * nat) (m : M (World W) bool) (k : nat * nat → M (World W) nat) : M (World W) nat :=
      r ← try_catch (b ← m; mret (inr b)) (λ e, mret (inl e));
      match r with
      | inr b => k (tally c b)
      | inl e => _ ← close c; throw e
      end in
    demo (0, 0) (consumerCrashDemo random6) (λ c,
    demo c disconnectDemo (λ c,
    demo c (poisonDemo random6) (λ c,
    _ ← close c; mret c.2))).
End outage.

(** ** The entry point *)

(** The demos against one adapter, in a fresh world: the failures, and what was printed. *)
Definition demo_adapter (pf : Platform) (cooling : @Cooling (pf_cockatiel pf)) (random6 : nat → string)
    (a : Adapter) : (Error + nat) * list string :=
  let '(r, w) := @runFaultDemos (pf_cockatiel pf) cooling _ (ad_sched a) (ad_timed a) (ad_bus a) (ad_host a)
                   random6 (new_world a) in
  (r, strs "console" (vars_of w)).

Fixpoint demo_brokers (pf : Platform) (cooling : @Cooling (pf_cockatiel pf)) (random6 : nat → string)
    (ids : list string) : Error + nat :=
  match ids with
  | [] => inr 0
  | id :: ids' =>
      match createScheduler pf id false with
      | inl e => inl e
      | inr a =>
          match (demo_adapter pf cooling random6 a).1 with
          | inl e => inl e
          | inr failures =>
              match demo_brokers pf cooling random6 ids' with
              | inl e => inl e
              | inr more => inr (failures + more)
              end
          end
      end
  end.

Definition fault_main (pf : Platform) (cooling : @Cooling (pf_cockatiel pf)) (random6 : nat → string)
    (argument : option string) : Ending :=
  let arg := toLowerCase (default "in-memory" argument) in
  if decide (arg ≠ "all" ∧ arg ∉ KNOWN_BROKERS pf) then Exit 2
  else
    match demo_brokers pf cooling random6 (if decide (arg = "all") then KNOWN_BROKERS pf else [arg]) with
    | inl e => Uncaught e
    | inr failures => Exit (if decide (failures = 0) then 0 else 1)
    end.

(** ** Properties *)

Definition demo_cooling : @Cooling demo_cockatiel := demo_cool.

(** The narration of a run, without colours and the lines around it. *)
Definition narration : list string := [
  n_ok "message delivered to consumer" None;
  n_step "consumer crashes (drops the link with the message un-acked)";
  n_recover "broker redelivered the message to a fresh consumer  (0ms)";
  n_step "publish during a brief blip (2 transient faults)";
  n_retry "retry #1 after transient fault";
  n_retry "retry #2 after transient fault";
  n_ok "publish succeeded despite the blip (retries absorbed it)" None;
  n_step "broker connection severed (sustained outage)";
  n_retry "retry #3 after transient fault";
  n_retry "retry #4 after transient fault";
  n_breaker "circuit OPENED — failing fast to protect the broker";
  n_retry "retry #5 after transient fault";
  n_breaker "circuit HALF-OPEN — probing for recovery";
  n_breaker "circuit CLOSED — fully recovered";
  n_ok "post-recovery message delivered end-to-end" None;
  n_step "publish a poison message (handler always fails)";
  n_retry "delivery attempt #1 failed → nack";
  n_retry "delivery attempt #2 failed → nack";
  n_retry "delivery attempt #3 failed → nack"].

(** the fault demos, end to end.  Against the in-memory adapter all three demos
    succeed: the crashed consumer's message is redelivered, the blip is absorbed, the
    outage opens the circuit which closes again after the half-open time, and the
    poison message is dead-lettered after three attempts; the process exits with 0. *)
Theorem fault_demos_succeed :
  (let '(r, lines) := demo_adapter demo_platform demo_cooling (λ n, pretty n) (in_memory_adapter 1750000000000) in
   r = inr 0 ∧ take 19 (drop 3 lines) = narration ∧
   drop 22 lines = n_dead ("dead-lettered after 3 attempts → mbc.fault.poison.mbxsteqw-5-5.dlq") :: n_footer 3 0) ∧
  fault_main demo_platform demo_cooling (λ n, pretty n) None = Exit 0.
Proof. vm_compute. done. Qed.
