(* ===== verification/Interactive.v ===== *)
(** The interactive demo processes (src/typescript/src/interactive/): the argument
    parser and helpers of common.ts, and the programs of publish.ts, schedule.ts,
    subscribe.ts and worker.ts over any adapter in the event loop.

    A program's console is the variable "console"; its result is the exit code.  The
    programs are for command lines whose [--kind] is one of the two kinds and whose
    [--max] is an integer.  A subscriber that crashes disposes of its adapter, stores the
    exit code in the variable "exit" and settles nothing. *)

From stdpp Require Import pretty.
From S2P Require Import Prelude Abstractions Ports Client InMemoryScheduler Resilience.
From S2P Require Import EventLoop Numbers Scenarios BusScenarios FeatureScenarios LoopTheory BusSuite Runner Console FaultDemo.
From Stdlib Require Import Ascii SpecFloat.

(** ** Arguments *)

Record Cli := {
  cli_broker : string;
  cli_positionals : list string;
  cli_flags : gmap string string;
  cli_bools : gset string
}.

(** What the loop of [parseCli] has collected. *)
Record Scanned := {
  sc_positionals : list string;
  sc_flags : gmap string string;
  sc_bools : gset string
}.

Definition nothing_scanned : Scanned := {| sc_positionals := []; sc_flags := ∅; sc_bools := ∅ |}.

Definition add_positional (a : string) (s : Scanned) : Scanned := {|
  sc_positionals := sc_positionals s ++ [a]; sc_flags := sc_flags s; sc_bools := sc_bools s |}.
Definition add_flag (k v : string) (s : Scanned) : Scanned := {|
  sc_positionals := sc_positionals s; sc_flags := <[k := v]> (sc_flags s); sc_bools := sc_bools s |}.
Definition add_bool (k : string) (s : Scanned) : Scanned := {|
  sc_positionals := sc_positionals s; sc_flags := sc_flags s; sc_bools := {[k]} ∪ sc_bools s |}.

(** The key of an argument that starts with two dashes. *)
Definition option_key (a : string) : option string :=
  match a with String "-" (String "-" k) => Some k | _ => None end.

Fixpoint scan (argv : list string) (s : Scanned) : Scanned :=
  match argv with
  | [] => s
  | a :: rest =>
      match option_key a with
      | Some key =>
          match rest with
          | next :: rest' =>
              if decide (option_key next = None) then scan rest' (add_flag key next s)
              else scan rest (add_bool key s)
          | [] => scan rest (add_bool key s)
          end
      | None => scan rest (add_positional a s)
      end
  end.

(** [parseCli]: the exit code when the broker is unknown. *)
Definition parseCli (known argv : list string) : Z + Cli :=
  let s := scan argv nothing_scanned in
  let broker := default "" (head (sc_positionals s)) in
  if decide (broker ∈ known) then
    inr {| cli_broker := broker; cli_positionals := tail (sc_positionals s);
           cli_flags := sc_flags s; cli_bools := sc_bools s |}
  else inl 2%Z.

Definition cli_flag (c : Cli) (name : string) : option string := cli_flags c !! name.
Definition cli_bool (c : Cli) (name : string) : bool := bool_decide (name ∈ cli_bools c).
Definition cli_num (c : Cli) (name : string) (fallback : Number) : Number :=
  match cli_flags c !! name with None => fallback | Some v => to_number v end.

Definition label (text : string) : string := c_bold +:+ c_cyan +:+ text +:+ c_reset.
Definition bold (text : string) : string := c_bold +:+ text +:+ c_reset.
Definition dim (text : string) : string := c_dim +:+ text +:+ c_reset.

(** The delay of [setTimeout(r, ms)]. *)
Definition timer_ms (ms : Number) : Z :=
  if le_num (of_Z 1) ms && le_num ms (of_Z max_delay) then default 1%Z (trunc ms) else 1%Z.

(** [n % x === 0], for a positive integer [n]. *)
Definition multiple_of (x : Number) (n : Z) : bool :=
  match x with
  | S754_finite _ m e => bool_decide ((n * 2 ^ Z.max (- e) 0) mod (Z.pos m * 2 ^ Z.max e 0) = 0)%Z
  | _ => false
  end.

Definition positive_num (x : Number) : bool := lt_num (of_Z 0) x.

(** [new Date(now + ms)]: whole milliseconds within the range of dates. *)
Definition date_at (now : Z) (ms : Number) : option Z :=
  t ← trunc (SFadd 53 1024 (of_Z now) ms);
  if decide (Z.abs t ≤ 8640000000000000)%Z then Some t else None.

Definition kind_of (kind : string) : TopologyKind := if decide (kind = "fanout") then fanout else topic.

(** The text of a delivery count, when there is one. *)
Definition count_note (word : string) (m : IncomingMessage) : string :=
  match im_deliveryCount m with
  | Some n => if decide (n = 0)%Z then "" else " " +:+ dim ("(" +:+ word +:+ " " +:+ pretty n +:+ ")")
  | None => ""
  end.

(** ** The flaky worker's choice *)

Definition FNV_PRIME : Z := 16777619.
Definition FNV_OFFSET : Z := 2166136261.

Definition hash_unit (h c : Z) : Z := imul (xor32 h c) FNV_PRIME.

(** The thousandths of [pseudoRandom]. *)
Definition thousandths (s : string) : Z := ushr0 (foldl hash_unit FNV_OFFSET (code_units s)) mod 1000.

Definition pseudoRandom (s : string) : Number := SFdiv 53 1024 (of_Z (thousandths s)) (of_Z 1000).

(** ** Handlers *)

(** [if (ms > 0) await new Promise((r) => setTimeout(r, ms))]. *)
Definition work_for (ms : Number) (k : Body) : Body :=
  if positive_num ms then Await (Sleeping (timer_ms ms)) (plainly k) else k.

Definition log_then (line : string) (k : Body) : Body := Do (say_line line) (λ _, k).

(** The handler of worker.ts. *)
Definition worker_handler (id : string) (failRate work : Number) (m : IncomingMessage) : Body :=
  work_for work (
    Clock (λ t,
      if lt_num (pseudoRandom (im_body m)) failRate then
        log_then ("  " +:+ c_yellow +:+ "↺" +:+ c_reset +:+ " " +:+ iso_time t +:+ " [" +:+ id +:+ "] " +:+
                  im_body m +:+ count_note "attempt" m +:+ " → nack") nack_requeue
      else
        log_then ("  " +:+ c_green +:+ "✓" +:+ c_reset +:+ " " +:+ iso_time t +:+ " [" +:+ id +:+ "] " +:+
                  im_body m +:+ count_note "attempt" m +:+ " → ack") ack)).

(** The counter [n] of a subscriber. *)
Definition count_n (vs : Vars) : Z := default 0%Z (num "subscribe.n" vs).

(** The handler of subscribe.ts. *)
Definition subscribe_handler (id : string) (nackEvery crashAfter work : Number) (m : IncomingMessage) : Body :=
  Do (incr "subscribe.n") (λ _,
    Clock (λ t,
      log_then ("  " +:+ c_green +:+ "↓" +:+ c_reset +:+ " " +:+ iso_time t +:+ "  " +:+
                bold ("[" +:+ id +:+ "]") +:+ " " +:+ im_body m +:+ count_note "delivery" m) (
      work_for work (
        Do (λ vs, vs) (λ vs,
          if positive_num crashAfter && le_num crashAfter (of_Z (count_n vs)) then
            log_then ("  " +:+ c_red +:+ "✖ [" +:+ id +:+ "] crashing (leaving msg un-acked)" +:+ c_reset)
              (Await Disposing (plainly (Do (assign "exit" (UNum 1)) (λ _, Return))))
          else if positive_num nackEvery && multiple_of nackEvery (count_n vs) then
            log_then ("  " +:+ c_yellow +:+ "↺ [" +:+ id +:+ "] nack (requeue)" +:+ c_reset) nack_requeue
          else ack))))).

(** ** The processes *)

Section processes.
Context {W : Type} `{IMessageScheduler W} `{BusHost W}.

Definition connect : M (World W) unit := _ ← awaiting sched_connect; awaiting bus_connectBus.

Definition say_now (f : string → string) : M (World W) unit := t ← time; say (f (iso_time t)).

(** The loop of publish.ts, cut off after [fuel] rounds. *)
Fixpoint publish_loop (fuel : nat) (i : Z) (count rate : Number) (t : Destination) (rk : option string) :
    M (World W) unit :=
  match fuel with
  | 0 => throw (OtherError "still publishing")
  | S fuel =>
      if le_num (of_Z i) count then
        let body := t +:+ "#" +:+ pretty i in
        _ ← publish t body rk no_publish_options;
        _ ← say_now (λ ts, "  " +:+ c_green +:+ "↑" +:+ c_reset +:+ " " +:+ ts +:+ "  sent " +:+ bold body);
        _ ← (if lt_num (of_Z i) count && positive_num rate then sleep (timer_ms rate) else mret tt);
        publish_loop fuel (i + 1) count rate t rk
      else mret tt
  end.

(** publish.ts. *)
Definition publish_main (fuel : nat) (cli : Cli) : M (World W) Z :=
  let t := default "orders" (head (cli_positionals cli)) in
  let count := cli_num cli "count" (of_Z 1) in
  let kind := default "topic" (cli_flag cli "kind") in
  let rate := cli_num cli "rate" (of_Z 250) in
  let key := default t (cli_flag cli "key") in
  _ ← connect;
  _ ← say (label sched_name +:+ "  publishing " +:+ show_number count +:+ " message(s) to " +:+ bold t +:+
           " (kind=" +:+ kind +:+ ", key=" +:+ key +:+ ")");
  _ ← publish_loop fuel 1 count rate t (if decide (kind = "topic") then Some key else None);
  _ ← awaiting sched_dispose;
  mret 0%Z.

(** An operation of schedule.ts that a broker may not support. *)
Definition reportUnsupported (op : string) (m : M (World W) unit) : M (World W) unit :=
  try_catch m (λ e,
    if is_NotSupported e then
      say ("  " +:+ c_yellow +:+ "⊘ " +:+ op +:+ " is not supported by this broker" +:+ c_reset)
    else throw e).

(** The outcome schedule.ts reports. *)
Definition outcome_line (doCancel arrived : bool) : string :=
  match doCancel, arrived with
  | true, true => "  " +:+ c_red +:+ "✗ cancel failed — message was delivered anyway" +:+ c_reset
  | true, false => "  " +:+ c_green +:+ "✓ cancelled message never arrived" +:+ c_reset
  | false, true => "  " +:+ c_green +:+ "✓ scheduled message delivered on time" +:+ c_reset
  | false, false => "  " +:+ c_red +:+ "✗ scheduled message never arrived" +:+ c_reset
  end.

(** The consumer of schedule.ts prints a line when it is called; what arrived since the
    last look is printed before the program goes on. *)
Definition log_arrivals (arrivals : MessageCollector) : M (World W) unit := λ w,
  let received := Scenarios.bodies arrivals w in
  let seen := Z.to_nat (default 0%Z (num "schedule.arrived" (vars_of w))) in
  (_ ← pure_step (λ w, put_vars (assign "schedule.arrived" (UNum (Z.of_nat (length received))) (vars_of w)) w);
   t ← time;
   say_all ((λ body, "  " +:+ c_green +:+ "↓" +:+ c_reset +:+ " " +:+ iso_time t +:+ "  delivered " +:+ bold body) <$>
            drop seen received)) w.

(** A pause, millisecond by millisecond, so that arrivals are printed at their time. *)
Fixpoint watch (fuel : nat) (arrivals : MessageCollector) (deadline : Z) : M (World W) unit :=
  match fuel with
  | 0 => mret tt
  | S fuel =>
      now ← time;
      if decide (now < deadline)%Z then
        _ ← delay 1;
        _ ← log_arrivals arrivals;
        watch fuel arrivals deadline
      else mret tt
  end.

(** schedule.ts.  A date out of range ends the process, here before the broker is
    asked to schedule. *)
Definition schedule_main (cli : Cli) : M (World W) Z :=
  let dest := default "reminders" (head (cli_positionals cli)) in
  let seconds := cli_num cli "in" (of_Z 5) in
  let ms := SFmul 53 1024 seconds (of_Z 1000) in
  _ ← connect;
  _ ← say (label sched_name +:+ "  scheduling on " +:+ bold dest +:+ " (+" +:+ show_number seconds +:+ "s)");
  arrivals ← start_collector dest;
  now ← time;
  let body := "reminder-" +:+ pretty now in
  match date_at now ms with
  | None => throw (OtherError "Invalid time value")
  | Some deliverAt =>
      handle ← on (sched_schedule dest body deliverAt);
      _ ← log_arrivals arrivals;
      _ ← say_now (λ ts, "  " +:+ c_cyan +:+ "⏰" +:+ c_reset +:+ " " +:+ ts +:+ "  scheduled " +:+ bold body +:+
                         " for " +:+ iso_seconds deliverAt);
      _ ← (if cli_bool cli "list" then
             reportUnsupported "list" (
               pending ← on (sched_listScheduled dest);
               _ ← log_arrivals arrivals;
               say ("  " +:+ dim "list →" +:+ " " +:+ pretty (length pending) +:+ " pending: " +:+
                    join_comma (si_id <$> pending)))
           else mret tt);
      _ ← (if cli_bool cli "cancel" then
             reportUnsupported "cancel" (
               _ ← on (sched_cancel handle);
               _ ← log_arrivals arrivals;
               say_now (λ ts, "  " +:+ c_yellow +:+ "✖" +:+ c_reset +:+ " " +:+ ts +:+ "  cancelled " +:+ bold body))
           else mret tt);
      now ← time;
      let pause := timer_ms (SFadd 53 1024 ms (of_Z 2500)) in
      _ ← watch (Z.to_nat pause) arrivals (now + pause);
      arrived ← (λ w, (inr (collected arrivals body w), w));
      _ ← say (outcome_line (cli_bool cli "cancel") arrived);
      _ ← stop_collector arrivals;
      _ ← on sched_dispose;
      mret 0%Z
  end.

(** [keepAlive]: what Ctrl-C runs, for a subscriber. *)
Definition shut_down (sub : bus_sub) : M (World W) Z :=
  _ ← say (String (ascii_of_nat 10) (dim "shutting down…"));
  _ ← try_catch (_ ← unsubscribe sub; awaiting sched_dispose) (λ _, mret tt);
  mret 0%Z.

(** subscribe.ts, up to the point where it waits for messages; [random4] is the suffix
    of a generated name. *)
Definition subscribe_main (random4 : string) (cli : Cli) : M (World W) bus_sub :=
  let t := default "orders" (head (cli_positionals cli)) in
  let id := default ("sub-" +:+ random4) (cli_flag cli "id") in
  let kind := default "topic" (cli_flag cli "kind") in
  let routingKey := cli_flag cli "key" in
  let nackEvery := cli_num cli "nack-every" (of_Z 0) in
  let crashAfter := cli_num cli "crash-after" (of_Z 0) in
  let work := cli_num cli "work" (of_Z 0) in
  _ ← connect;
  _ ← declare "subscribe.n" (UNum 0);
  sub ← subscribe t (subscribe_handler id nackEvery crashAfter work) (of_kind (kind_of kind) routingKey id);
  _ ← say (label sched_name +:+ "  " +:+ bold ("[" +:+ id +:+ "]") +:+ " subscribed to " +:+ bold t +:+
           " (kind=" +:+ kind +:+
           match routingKey with Some "" | None => "" | Some rk => ", key=" +:+ rk end +:+ ")  " +:+
           dim "Ctrl-C to stop");
  mret sub.

(** worker.ts, likewise. *)
Definition worker_main (random4 : string) (cli : Cli) : M (World W) bus_sub :=
  let t := default "orders" (head (cli_positionals cli)) in
  let id := default ("worker-" +:+ random4) (cli_flag cli "id") in
  let failRate := cli_num cli "fail-rate" (of_Z 1) in
  let max := cli_num cli "max" (of_Z DEFAULT_MAX_DELIVERIES) in
  let work := cli_num cli "work" (of_Z 100) in
  _ ← connect;
  sub ← subscribe t (worker_handler id failRate work) (retrying id (default DEFAULT_MAX_DELIVERIES (trunc max)) None);
  _ ← say (label sched_name +:+ "  " +:+ bold ("[" +:+ id +:+ "]") +:+ " working " +:+ bold t +:+
           " (fail-rate=" +:+ show_number failRate +:+ ", max=" +:+ show_number max +:+ " → " +:+
           deadLetterAddress t +:+ ")  " +:+ dim "Ctrl-C to stop");
  mret sub.
End processes.

(** A process: the arguments, the adapter behind the resilience decorator, and a fresh
    world; how it ends and what it printed. *)
Definition run_process (pf : Platform) (argv : list string)
    (program : ∀ a : Adapter, Cli → M (World (ad_state a)) Z) : Ending * list string :=
  match parseCli (KNOWN_BROKERS pf) argv with
  | inl code => (Exit code, [])
  | inr cli =>
      match createScheduler pf (cli_broker cli) true with
      | inl e => (Uncaught e, [])
      | inr a =>
          let '(r, w) := program a cli (new_world a) in
          (match r with inl e => Uncaught e | inr code => Exit code end, strs "console" (vars_of w))
      end
  end.

(** The processes that run to their end. *)
Definition publish_process (pf : Platform) (fuel : nat) (argv : list string) : Ending * list string :=
  run_process pf argv (λ a, @publish_main _ (ad_sched a) (ad_timed a) (ad_bus a) (ad_host a) fuel).
Definition schedule_process (pf : Platform) (argv : list string) : Ending * list string :=
  run_process pf argv (λ a, @schedule_main _ (ad_sched a) (ad_timed a) (ad_bus a) (ad_host a)).

(** ** Sessions *)

(** The command line of a session with the in-memory broker. *)
Definition session_cli (argv : list string) : Cli :=
  match parseCli ["in-memory"] ("in-memory" :: argv) with
  | inr c => c
  | inl _ => {| cli_broker := ""; cli_positionals := []; cli_flags := ∅; cli_bools := ∅ |}
  end.

(** A worker at its topic, four messages, and what reaches the dead-letter topic. *)
Definition worker_session : M (World Scheduler) (list string) :=
  sub ← worker_main "x1y2" (session_cli ["jobs"; "--id"; "w1"; "--fail-rate"; "0.35"; "--work"; "20"]);
  dlq ← start "session.dlq" "jobs.dlq" None true (of_kind fanout None "dlq");
  _ ← publish_loop 10 1 (of_Z 4) (of_Z 0) "jobs" (Some "jobs");
  _ ← sleep 1000;
  _ ← shut_down sub;
  read (bodies dlq).

(** A subscriber that requeues every second message it is handed. *)
Definition subscriber_session : M (World Scheduler) unit :=
  sub ← subscribe_main "x1y2" (session_cli ["jobs"; "--id"; "s1"; "--nack-every"; "2"]);
  _ ← publish_loop 10 1 (of_Z 3) (of_Z 0) "jobs" (Some "jobs");
  _ ← sleep 1000;
  mret ().

(** The exit code of a process that ended itself. *)
Definition exit_code : M (World Scheduler) (option Z) := λ w, (inr (num "exit" (vars_of w)), w).

(** A subscriber that crashes on its second message. *)
Definition crash_session : M (World Scheduler) (option Z) :=
  sub ← subscribe_main "x1y2" (session_cli ["jobs"; "--id"; "s1"; "--crash-after"; "2"]);
  _ ← publish_loop 10 1 (of_Z 3) (of_Z 0) "jobs" (Some "jobs");
  _ ← sleep 1000;
  exit_code.

Definition printed {A} (m : M (World Scheduler) A) : (Error + A) * list string :=
  let '(r, w) := m (world (new_InMemoryScheduler 1750000000000)) in (r, strs "console" (vars_of w)).

(** A message as a handler sees it. *)
Definition demo_incoming : IncomingMessage := {|
  im_id := "1"; im_destination := "jobs"; im_body := "jobs#1"; im_headers := ∅; im_deliveryCount := Some 1%Z;
  im_replyTo := None; im_correlationId := None; im_groupId := None; im_priority := None |}.

(** ** The grammar of the command lines *)

(** A positional, an option with its value, or a switch. *)
Inductive Arg := Positional (a : string) | Valued (k v : string) | Switch (k : string).

Definition dashed (k : string) : string := "--" +:+ k.

Fixpoint render (l : list Arg) : list string :=
  match l with
  | [] => []
  | Positional a :: l' => a :: render l'
  | Valued k v :: l' => dashed k :: v :: render l'
  | Switch k :: l' => dashed k :: render l'
  end.

(** What may be read: only an option's value, or a positional, has no dashes, and a
    switch is not followed by a positional. *)
Fixpoint legible (l : list Arg) : Prop :=
  match l with
  | [] => True
  | Positional a :: l' => option_key a = None ∧ legible l'
  | Valued _ v :: l' => option_key v = None ∧ legible l'
  | Switch _ :: l' => match l' with Positional _ :: _ => False | _ => True end ∧ legible l'
  end.

Fixpoint read_args (argv : list string) : list Arg :=
  match argv with
  | [] => []
  | a :: rest =>
      match option_key a with
      | None => Positional a :: read_args rest
      | Some k =>
          match rest with
          | v :: rest' => if decide (option_key v = None) then Valued k v :: read_args rest' else Switch k :: read_args rest
          | [] => Switch k :: read_args rest
          end
      end
  end.

Definition collect (s : Scanned) (a : Arg) : Scanned :=
  match a with Positional a => add_positional a s | Valued k v => add_flag k v s | Switch k => add_bool k s end.

Lemma option_key_Some a k : option_key a = Some k → a = dashed k.
Proof. unfold option_key. intros E. repeat case_match; simplify_eq/=. done. Qed.

(** Two arguments at a time. *)
Lemma argv_ind (P : list string → Prop) :
  P [] → (∀ a, P [a]) → (∀ a b l, P (b :: l) → P l → P (a :: b :: l)) → ∀ l, P l.
Proof.
  intros H0 H1 H2 l. assert (H' : P l ∧ ∀ a, P (a :: l)); [|apply H'].
  induction l as [|b l [IH1 IH2]]; [done|]. auto.
Qed.

Lemma read_args_Switch argv :
  match argv with v :: _ => option_key v ≠ None | [] => True end →
  match read_args argv with Positional _ :: _ => False | _ => True end.
Proof. destruct argv as [|v l]; [done|]. simpl. intros Hv. by repeat case_match. Qed.

Lemma read_args_legible argv : legible (read_args argv) ∧ render (read_args argv) = argv.
Proof.
  induction argv as [|a|a b l [IH1 E1] [IH2 E2]] using argv_ind; [done| |].
  - simpl. destruct (option_key a) as [k|] eqn:Ek; [|done]. by rewrite (option_key_Some _ _ Ek).
  - cbn [read_args]. destruct (option_key a) as [k|] eqn:Ek.
    + rewrite (option_key_Some _ _ Ek). case_decide as Hb.
      * split; [done|]. simpl. by rewrite E2.
      * split; [|simpl; by f_equal].
        split; [by apply (read_args_Switch (b :: l))|done].
    + split; [done|]. simpl. by f_equal.
Qed.

Lemma read_render l : legible l → read_args (render l) = l.
Proof.
  induction l as [|[a|k v|k] l IH]; [done|..]; simpl; intros [Ha Hl].
  - by rewrite Ha, IH.
  - by rewrite decide_True, IH.
  - destruct l as [|[a|k' v'|k'] l]; [done|done|..]; simpl in *; by rewrite IH.
Qed.

Lemma scan_collect argv s : scan argv s = foldl collect s (read_args argv).
Proof.
  revert s. induction argv as [|a|a b l IH1 IH2] using argv_ind; intros s; [done| |].
  - simpl. by destruct (option_key a).
  - cbn [scan read_args]. destruct (option_key a) as [k|].
    + case_decide; simpl; [apply IH2|apply IH1].
    + simpl. apply IH1.
Qed.
Definition positionals_of (l : list Arg) : list string :=
  omap (λ a, match a with Positional p => Some p | _ => None end) l.

Lemma collected_positionals l s : sc_positionals (foldl collect s l) = sc_positionals s ++ positionals_of l.
Proof.
  revert s. induction l as [|[a|k v|k] l IH]; intros s; simpl; [by rewrite app_nil_r|..]; rewrite IH; simpl; try done.
  by rewrite <- app_assoc.
Qed.

(** ** Settlements *)

(** What a handler settles when nothing it awaits is rejected, at a given time. *)
Fixpoint settlements (t : Z) (b : Body) (vs : Vars) : list Settlement :=
  match b with
  | Return | Raise _ => []
  | Do f k => let vs := f vs in settlements t (k vs) vs
  | Clock k => settlements t (k t) vs
  | Await (Settling s) k => s :: settlements t (k None) vs
  | Await _ k => settlements t (k None) vs
  end.

Lemma settlements_work t ms k vs : settlements t (work_for ms k) vs = settlements t k vs.
Proof. unfold work_for. by destruct (positive_num ms). Qed.

Lemma hash_unit_mod h c :
  (0 ≤ c < 2 ^ 16)%Z → (hash_unit h c mod 2 ^ 32 = Z.lxor (h mod 2 ^ 32) c * FNV_PRIME mod 2 ^ 32)%Z.
Proof.
  intros Hc. unfold hash_unit. rewrite imul_mod, xor32_mod.
  rewrite (Z.mod_small c) by lia. by rewrite (Z.mod_small FNV_PRIME).
Qed.

Lemma hash_mod l h :
  Forall (λ u, 0 ≤ u < 2 ^ 16)%Z l →
  (foldl hash_unit h l mod 2 ^ 32 = foldl (λ h c, Z.lxor h c * FNV_PRIME mod 2 ^ 32) (h mod 2 ^ 32) l)%Z.
Proof.
  intros Hl. revert h. induction Hl as [|c l Hc Hl IH]; intros h; [done|]. cbn [foldl].
  by rewrite IH, hash_unit_mod.
Qed.

Lemma thousandths_range s : (0 ≤ thousandths s < 1000)%Z.
Proof. unfold thousandths. apply Z.mod_pos_bound. lia. Qed.

(** The comparisons of [pseudoRandom] with whole rates and thousandths. *)
Definition thousandth (k : Z) : Number := SFdiv 53 1024 (of_Z k) (of_Z 1000).

Lemma thousandth_checks k : (0 ≤ k < 1000)%Z →
  lt_num (thousandth k) (of_Z 1) = true ∧ lt_num (thousandth k) (of_Z 0) = false ∧
  thousandth k = of_decimal k (-3).
Proof.
  intros Hk.
  assert (Hall : forallb (λ i, bool_decide (lt_num (thousandth (Z.of_nat i)) (of_Z 1) = true ∧
      lt_num (thousandth (Z.of_nat i)) (of_Z 0) = false ∧ thousandth (Z.of_nat i) = of_decimal (Z.of_nat i) (-3))) (seq 0 1000) = true)
    by (vm_compute; reflexivity).
  rewrite forallb_forall in Hall. specialize (Hall (Z.to_nat k)). rewrite Z2Nat.id in Hall by lia.
  eapply bool_decide_eq_true, Hall. apply in_seq. lia.
Qed.

Lemma bind_ext {V A B} (m : M V A) (k1 k2 : A → M V B) v :
  (∀ a v', k1 a v' = k2 a v') → (m ≫= k1) v = (m ≫= k2) v.
Proof. intros Hk. unfold mbind, M_bind. destruct (m v) as [[e|a] v']; [done|apply Hk]. Qed.

Lemma multiple_of_Z k n : (0 < k < 2 ^ 53)%Z → multiple_of (of_Z k) n = bool_decide (n mod k = 0)%Z.
Proof.
  intros Hk. pose proof (of_Z_exactly k ltac:(lia)) as E. destruct k as [|p|p]; [lia| |lia].
  destruct E as (m & e & -> & He & Em & _). cbn [multiple_of].
  rewrite (Z.max_l (- - e)), (Z.max_r (- e)), Z.pow_0_r, Z.mul_1_r, Z.opp_involutive by lia.
  rewrite Em. assert (0 < 2 ^ e)%Z by (apply Z.pow_pos_nonneg; lia).
  rewrite Z.mul_mod_distr_r by lia. apply bool_decide_ext. rewrite Z.mul_eq_0. split; [|by left].
  intros [Hm|?]; [done|lia].
Qed.

Lemma positive_of_Z a : (0 ≤ a < 2 ^ 53)%Z → positive_num (of_Z a) = bool_decide (0 < a)%Z.
Proof. intros. apply lt_of_Z; lia. Qed.

Lemma count_n_incr vs : count_n (incr "subscribe.n" vs) = (count_n vs + 1)%Z.
Proof. unfold count_n, incr, num. by rewrite lookup_insert_eq. Qed.

Lemma count_n_push line vs : count_n (say_line line vs) = count_n vs.
Proof. unfold count_n, say_line, push_str, num. by rewrite lookup_insert_ne. Qed.

(** The loop of publish.ts over the numbers still to send. *)
Section sending_spec.
Context {W : Type} `{BusHost W}.

Fixpoint send_all (rate : Number) (t : Destination) (rk : option string) (l : list Z) : M (World W) unit :=
  match l with
  | [] => mret tt
  | i :: l' =>
      let body := t +:+ "#" +:+ pretty i in
      _ ← publish t body rk no_publish_options;
      _ ← say_now (λ ts, "  " +:+ c_green +:+ "↑" +:+ c_reset +:+ " " +:+ ts +:+ "  sent " +:+ bold body);
      _ ← (if negb (bool_decide (l' = [])) && positive_num rate then sleep (timer_ms rate) else mret tt);
      send_all rate t rk l'
  end.
End sending_spec.

(** ** Properties *)

(** C34: the command line has one reading.  Every argument list is the rendering of exactly
    one list of positionals, options and switches in which only a value or a positional
    has no dashes and no switch is followed by a positional, and the scanner collects
    that list; so a switch written before a positional is read as an option. *)
Theorem command_line_grammar (argv : list string) (l : list Arg) :
  (legible l ∧ render l = argv ↔ l = read_args argv) ∧
  scan argv nothing_scanned = foldl collect nothing_scanned (read_args argv) ∧
  sc_positionals (scan argv nothing_scanned) = positionals_of (read_args argv) ∧
  (∀ k v, option_key v = None → read_args (dashed k :: v :: argv) = Valued k v :: read_args argv).
Proof.
  split_and!.
  - split; [intros [Hl <-]; by rewrite read_render|intros ->; apply read_args_legible].
  - apply scan_collect.
  - by rewrite scan_collect, collected_positionals.
  - intros k v Hv. simpl. by rewrite decide_True.
Qed.

(** C35: the flaky worker's hash.  It is 32-bit FNV-1a over the code units, reduced to a
    thousandth below one: the double of a three-digit decimal. *)
Theorem pseudoRandom_is_fnv (s : string) :
  let h := foldl (λ h c, Z.lxor h c * FNV_PRIME mod 2 ^ 32)%Z FNV_OFFSET (code_units s) in
  pseudoRandom s = of_decimal (h mod 1000) (-3) ∧ (0 ≤ h mod 1000 < 1000)%Z.
Proof.
  intros h. assert (E : thousandths s = (h mod 1000)%Z).
  { unfold thousandths, ushr0. by rewrite hash_mod by apply code_units_bounded. }
  rewrite <- E. split; [|apply thousandths_range].
  by destruct (thousandth_checks (thousandths s) (thousandths_range s)) as (_ & _ & <-).
Qed.

(** the flaky worker settles every message once: with a requeueing nack or an ack, by
    the hash of its body; at the default rate of 1 it fails every message, and at 0
    none. *)
Theorem worker_settles (id : string) (failRate work : Number) (m : IncomingMessage) (t : Z) (vs : Vars) :
  settlements t (worker_handler id failRate work m) vs =
    [if lt_num (pseudoRandom (im_body m)) failRate then Nack true else Ack] ∧
  settlements t (worker_handler id (of_Z 1) work m) vs = [Nack true] ∧
  settlements t (worker_handler id (of_Z 0) work m) vs = [Ack].
Proof.
  assert (Hs : ∀ r, settlements t (worker_handler id r work m) vs =
                    [if lt_num (pseudoRandom (im_body m)) r then Nack true else Ack]).
  { intros r. unfold worker_handler. rewrite settlements_work. simpl. by destruct (lt_num _ r). }
  rewrite !Hs. destruct (thousandth_checks _ (thousandths_range (im_body m))) as (H1 & H0 & _).
  unfold pseudoRandom. unfold thousandth in H1, H0. by rewrite H1, H0.
Qed.

(** the live subscriber.  With [--crash-after c] and [--nack-every k] (0: never), the
    n-th message is left unsettled from the c-th on, is requeued when k divides n, and is
    acknowledged otherwise. *)
Theorem subscriber_settles (id : string) (k c : Z) (work : Number) (m : IncomingMessage) (t : Z) (vs : Vars) :
  (0 ≤ k < 2 ^ 53)%Z → (0 ≤ c < 2 ^ 53)%Z → (0 ≤ count_n vs < 2 ^ 53 - 1)%Z →
  settlements t (subscribe_handler id (of_Z k) (of_Z c) work m) vs =
    let n := (count_n vs + 1)%Z in
    if decide (0 < c ≤ n)%Z then [] else if decide (0 < k ∧ n mod k = 0)%Z then [Nack true] else [Ack].
Proof.
  intros Hk Hc Hn. unfold subscribe_handler. cbn [settlements log_then]. rewrite settlements_work.
  cbn [settlements]. rewrite count_n_push, count_n_incr.
  rewrite !positive_of_Z, le_of_Z by lia. rewrite <- bool_decide_and. cbv zeta.
  destruct (decide (0 < c ≤ count_n vs + 1)%Z) as [H1|H1].
  - by rewrite bool_decide_true.
  - rewrite bool_decide_false by done. destruct (decide (0 < k)%Z) as [Hk'|Hk'].
    + rewrite multiple_of_Z, <- bool_decide_and by lia.
      by destruct (decide (0 < k ∧ (count_n vs + 1) mod k = 0)%Z); [rewrite bool_decide_true|rewrite bool_decide_false].
    + rewrite bool_decide_false by done. rewrite decide_False by lia. done.
Qed.

Section watching.
Context {W : Type} `{IMessageScheduler W} `{BusHost W}.

Lemma say_all_keeps lines (w : World W) :
  ∃ w', say_all lines w = (inr (), w') ∧ wd_adapter w' = wd_adapter w.
Proof.
  revert w. induction lines as [|l lines IH]; intros w; [by exists w|].
  destruct (IH (put_vars (say_line l (vars_of w)) w)) as (w' & E & Ha). by exists w'.
Qed.

Lemma log_arrivals_keeps arrivals (w : World W) :
  ∃ w', log_arrivals arrivals w = (inr (), w') ∧ wd_adapter w' = wd_adapter w.
Proof.
  unfold log_arrivals, mbind, M_bind, pure_step, time at 1.
  match goal with |- ∃ _, say_all ?l ?w1 = _ ∧ _ => destruct (say_all_keeps l w1) as (w' & E & Ha) end.
  by exists w'.
Qed.

(** The schedule demo waits out its pause: the rounds it is given are enough. *)
Lemma watch_ends fuel arrivals deadline (w : World W) :
  (deadline - clock (wd_adapter w) ≤ Z.of_nat fuel)%Z →
  ∃ w', watch fuel arrivals deadline w = (inr (), w') ∧ (deadline ≤ clock (wd_adapter w'))%Z.
Proof.
  revert w. induction fuel as [|fuel IH]; intros w Hf; [exists w; split; [done|lia]|].
  cbn [watch]. unfold mbind, M_bind, time at 1. case_decide; [|by exists w; split; [|lia]].
  unfold delay. set (w1 := put_adapter (elapse 1 (wd_adapter w)) w).
  destruct (log_arrivals_keeps arrivals w1) as (w2 & -> & Ha). apply IH. rewrite Ha.
  pose proof (elapse_clock 1 (wd_adapter w)). simpl. lia.
Qed.
End watching.

Section sending.
Context {W : Type} `{BusHost W}.

(** the publisher sends what it was asked for.  [--count n] publishes the bodies
    [topic#1] to [topic#n], pausing between two but not after the last; [n + 1] rounds
    of the loop suffice. *)
Theorem publishes_count (fuel n : nat) (rate : Number) (t : Destination) (rk : option string) (w : World W) :
  (Z.of_nat n < 2 ^ 53 - 1)%Z → n < fuel →
  publish_loop fuel 1 (to_number (pretty (Z.of_nat n))) rate t rk w = send_all rate t rk (seqZ 1 (Z.of_nat n)) w.
Proof.
  intros Hn Hf. rewrite to_number_pretty by lia.
  assert (Hloop : ∀ fuel i left_ w, (0 ≤ left_)%Z → (0 < i)%Z → (i + left_ < 2 ^ 53)%Z → (left_ < Z.of_nat fuel)%Z →
    publish_loop fuel i (of_Z (i + left_ - 1)) rate t rk w = send_all rate t rk (seqZ i left_) w).
  { clear. induction fuel as [|fuel IH]; intros i left_ w Hl Hi Hb Hf; [lia|]. cbn [publish_loop].
    rewrite le_of_Z, lt_of_Z by lia. destruct (decide (left_ = 0)%Z) as [->|Hne].
    - rewrite bool_decide_false by lia. done.
    - rewrite bool_decide_true, seqZ_cons by lia. cbn [send_all]. cbv zeta.
      replace (negb (bool_decide (seqZ (Z.succ i) (Z.pred left_) = []))) with (bool_decide (i < i + left_ - 1)%Z).
      2: { destruct (decide (left_ = 1)%Z) as [->|]; [by rewrite bool_decide_false by lia|].
           rewrite bool_decide_true, seqZ_cons by lia. done. }
      apply bind_ext. intros _ w'. apply bind_ext. intros _ w''. apply bind_ext. intros _ w3.
      replace (i + left_ - 1)%Z with (Z.succ i + Z.pred left_ - 1)%Z by lia. apply IH; lia. }
  specialize (Hloop fuel 1%Z (Z.of_nat n) w). replace (1 + Z.of_nat n - 1)%Z with (Z.of_nat n) in Hloop by lia.
  apply Hloop; lia.
Qed.
End sending.

(** the live demos, end to end.  A worker that fails a third of the messages dead-letters
    those it fails, after three attempts each, and a subscriber that requeues every
    second delivery is handed the requeued messages again; one that crashes on its second
    message ends with code 1 and settles nothing more; the schedule demo sees its message
    arrive on time, or not once it is cancelled, and reports a cancellation even where
    the broker has refused it; and a switch before the broker is taken for an option. *)
Theorem live_demos_outcomes :
  (let '(r, lines) := printed worker_session in
   r = inr ["jobs#1"; "jobs#2"] ∧ length lines = 14 ∧
   lines !! 8 = Some ("  " +:+ c_green +:+ "✓" +:+ c_reset +:+ " 15:06:40.080 [w1] jobs#4 " +:+ dim "(attempt 1)" +:+ " → ack") ∧
   lines !! 12 = Some ("  " +:+ c_yellow +:+ "↺" +:+ c_reset +:+ " 15:06:40.160 [w1] jobs#2 " +:+ dim "(attempt 3)" +:+ " → nack")) ∧
  (let '(r, lines) := printed subscriber_session in
   r = inr () ∧ last lines =
     Some ("  " +:+ c_green +:+ "↓" +:+ c_reset +:+ " 15:06:40.000  " +:+ bold "[s1]" +:+ " jobs#3 " +:+ dim "(delivery 2)")) ∧
  (let '(e, lines) := schedule_process demo_platform ["in-memory"; "--in"; "0.5"] in
   e = Exit 0 ∧ drop 2 lines =
     ["  " +:+ c_green +:+ "↓" +:+ c_reset +:+ " 15:06:40.500  delivered " +:+ bold "reminder-1750000000000";
      outcome_line false true]) ∧
  (let '(r, lines) := printed crash_session in
   r = inr (Some 1%Z) ∧
   lines !! 4 = Some ("  " +:+ c_red +:+ "✖ [s1] crashing (leaving msg un-acked)" +:+ c_reset) ∧ length lines = 7) ∧
  (let '(e, lines) := schedule_process demo_platform ["in-memory"; "--in"; "0.5"; "--cancel"] in
   e = Exit 0 ∧ last lines = Some (outcome_line true false)) ∧
  (let '(e, lines) := schedule_process demo_platform ["kafka"; "--cancel"] in
   e = Exit 0 ∧ drop 2 lines =
     ["  " +:+ c_yellow +:+ "⊘ cancel is not supported by this broker" +:+ c_reset; outcome_line true false]) ∧
  schedule_process demo_platform ["--list"; "in-memory"] = (Exit 2, []).
Proof. vm_compute. split_and!; reflexivity. Qed.

Lemma subscriber_settles_witness :
  settlements 0 (subscribe_handler "s1" (of_Z 2) (of_Z 9) (of_Z 0) demo_incoming)
    (assign "subscribe.n" (UNum 3) ∅) = [Nack true].
Proof.
  rewrite (subscriber_settles "s1" 2 9 (of_Z 0) demo_incoming 0 (assign "subscribe.n" (UNum 3) ∅));
    [vm_compute; reflexivity|vm_compute; split; congruence..].
Defined.

Lemma publishes_count_witness :
  publish_loop 10 1 (to_number (pretty 3%Z)) (of_Z 0) "jobs" None (world (new_InMemoryScheduler 0)) =
  send_all (of_Z 0) "jobs" None (seqZ 1 3) (world (new_InMemoryScheduler 0)).
Proof. apply (publishes_count 10 3 (of_Z 0) "jobs" None (world (new_InMemoryScheduler 0))); [reflexivity|lia]. Defined.
