(* ===== verification/SseServer.v ===== *)
(** The process entry points of the SSE cluster: the environment an instance reads and
    how it starts and stops (sse/server.ts), and the environments the launcher gives its
    instances (sse/cluster.ts).

    Node's HTTP server stops accepting when it is closed.  The callback of [close] runs on
    the server's 'close' event, which comes once no connection is left that waits for the
    end of a response; it gets an error when the server was not open at the call.  Both
    are documented behaviour of the server.  A signal the launcher sends a child reaches
    the server the child runs. *)

From S2P Require Import Prelude Abstractions Ports Client Numbers Sse SseHttp EventLoop Runner Interactive.
From Stdlib Require Import SpecFloat.

(** ** Starting *)

Abbreviation Env := (string → option string).

(** What the CLI entry reads. *)
Record ServerConfig := { sv_port : Number; sv_instanceId : string; sv_broker : string }.

Definition server_config (env : Env) : ServerConfig :=
  let port := match env "PORT" with Some p => to_number p | None => of_Z 7001 end in
  {| sv_port := port;
     sv_instanceId := default ("inst-" +:+ show_number port) (env "INSTANCE_ID");
     sv_broker := default "artemis" (env "BROKER") |}.

(** [main] up to the running server: the exit code of an unknown broker, the error of a
    broker that cannot be reached, or the adapter connected as both ports. *)
Definition start_instance (pf : Platform) (env : Env) : Ending + {a : Adapter & World (ad_state a)} :=
  let c := server_config env in
  if decide (sv_broker c ∈ KNOWN_BROKERS pf) then
    match createScheduler pf (sv_broker c) true with
    | inl e => inl (Uncaught e)
    | inr a =>
        match @connect _ (ad_sched a) (ad_timed a) (ad_bus a) (ad_host a) (new_world a) with
        | (inl e, _) => inl (Uncaught e)
        | (inr _, w) => inr (existT a w)
        end
    end
  else inl (Exit 2).

(** ** The launcher *)

Definition instances : list (Z * string) := [(7001%Z, "inst-7001"); (7002%Z, "inst-7002")].

(** The environment of a child: that of the launcher, with three variables set. *)
Definition child_env (env : Env) (port : Z) (id : string) : Env := λ x,
  if decide (x = "PORT") then Some (pretty port)
  else if decide (x = "INSTANCE_ID") then Some id
  else if decide (x = "BROKER") then Some (default "artemis" (env "BROKER"))
  else env x.

Definition children (env : Env) : list Env := (λ p, child_env env p.1 p.2) <$> instances.

(** ** Running and stopping *)

(** Where [stop] stands; how many calls of it wait for the 'close' event. *)
Inductive Stage := Serving | Stopping (signals : nat) | Disposing | Exited (code : Z).

(** The disposal of the adapter. *)
Inductive Disposal := Untouched | Begun | Complete.

Record Server := {
  in_id : string;
  in_streams : list Conn;
  in_stage : Stage;
  in_disposal : Disposal
}.

Definition new_server (instanceId : string) : Server := {|
  in_id := instanceId; in_streams := []; in_stage := Serving; in_disposal := Untouched |}.

Inductive ServerEvent :=
  | ClientConnects (userId orgId : string)
  | OnStream (i : nat) (ev : ConnEvent)
  | StopSignal                               (* SIGINT or SIGTERM *)
  | DisposalSettles.                         (* the adapter's disposal, either way *)

(** The response of the stream is still open. *)
Definition open_response (c : Conn) : bool := negb (cn_closed c) && negb (cn_ended c).

Definition with_streams (l : list Conn) (s : Server) : Server := {|
  in_id := in_id s; in_streams := l; in_stage := in_stage s; in_disposal := in_disposal s |}.

Definition with_stage (st : Stage) (d : Disposal) (s : Server) : Server := {|
  in_id := in_id s; in_streams := in_streams s; in_stage := st; in_disposal := d |}.

(** The 'close' event, when the last response is over.  The first [stop] goes on to dispose
    of the adapter; the [close] of any other one rejects, and its [finally] exits while
    that disposal is under way. *)
Definition try_exit (s : Server) : Server :=
  match in_stage s with
  | Stopping signals =>
      if existsb open_response (in_streams s) then s
      else with_stage (if decide (signals ≤ 1) then Disposing else Exited 0) Begun s
  | _ => s
  end.

Definition server_step (s : Server) (ev : ServerEvent) : Server :=
  match in_stage s, ev with
  | Exited _, _ => s
  | Serving, ClientConnects u o => with_streams (in_streams s ++ [open_stream (in_id s) u o]) s
  | _, ClientConnects _ _ => s
  | _, OnStream i ev => try_exit (with_streams (alter (conn_step ev) i (in_streams s)) s)
  | Serving, StopSignal => try_exit (with_stage (Stopping 1) (in_disposal s) s)
  | Stopping n, StopSignal => with_stage (Stopping (S n)) (in_disposal s) s
  | Disposing, StopSignal => with_stage (Exited 0) (in_disposal s) s   (* [close] rejects at once *)
  | Disposing, DisposalSettles => with_stage (Exited 0) Complete s
  | _, DisposalSettles => s
  end.

Definition server_run (evs : list ServerEvent) (s : Server) : Server := foldl server_step s evs.

(** *** The launcher's life *)

Record Cluster := {
  cl_servers : list Server;
  cl_exits : list nat;      (* 'exit' events of children, not handled yet *)
  cl_exitTimers : nat;      (* armed [process.exit] timers *)
  cl_done : bool
}.

Definition new_cluster (env : Env) : Cluster := {|
  cl_servers := (λ c, new_server (sv_instanceId (server_config c))) <$> children env;
  cl_exits := []; cl_exitTimers := 0; cl_done := false |}.

Definition exited (s : Server) : bool := match in_stage s with Exited _ => true | _ => false end.

(** An event at server [i]; its process ending is an event for the launcher. *)
Definition at_server (i : nat) (ev : ServerEvent) (c : Cluster) : Cluster :=
  match cl_servers c !! i with
  | None => c
  | Some s =>
      let s' := server_step s ev in
      {| cl_servers := <[i := s']> (cl_servers c);
         cl_exits := cl_exits c ++ (if exited s' && negb (exited s) then [i] else []);
         cl_exitTimers := cl_exitTimers c; cl_done := cl_done c |}
  end.

(** [stop]: SIGTERM to every child, and the launcher's own exit in 500 ms. *)
Definition launcher_stop (c : Cluster) : Cluster :=
  let c := foldl (λ c i, at_server i StopSignal c) c (seq 0 (length (cl_servers c))) in
  {| cl_servers := cl_servers c; cl_exits := cl_exits c; cl_exitTimers := S (cl_exitTimers c); cl_done := cl_done c |}.

Inductive ClusterEvent :=
  | LauncherSignal                           (* SIGINT or SIGTERM *)
  | ChildExit                                (* the next 'exit' event *)
  | ExitTimer
  | AtServer (i : nat) (ev : ServerEvent).

Definition cluster_step (c : Cluster) (ev : ClusterEvent) : Cluster :=
  match ev with
  | AtServer i ev => at_server i ev c
  | _ =>
      if cl_done c then c
      else
        match ev, cl_exits c with
        | LauncherSignal, _ => launcher_stop c
        | ChildExit, _ :: rest =>
            launcher_stop {| cl_servers := cl_servers c; cl_exits := rest; cl_exitTimers := cl_exitTimers c; cl_done := cl_done c |}
        | ExitTimer, _ =>
            if decide (cl_exitTimers c = 0) then c
            else {| cl_servers := cl_servers c; cl_exits := cl_exits c; cl_exitTimers := cl_exitTimers c; cl_done := true |}
        | _, _ => c
        end
  end.

Definition cluster_run (evs : list ClusterEvent) (c : Cluster) : Cluster := foldl cluster_step c evs.

(** ** Lemmas *)

(** A bound stream stays open while its client does not close it. *)
Lemma bound_stays_open ev c :
  ev ≠ ClientCloses → cn_phase c = Bound → open_response c = true →
  cn_phase (conn_step ev c) = Bound ∧ open_response (conn_step ev c) = true.
Proof.
  intros Hev Hp Ho. unfold conn_step. rewrite Hp. destruct ev as [|m| |s b|n]; try done.
  - by case_decide.
  - by destruct (cn_heartbeat c).
Qed.

Lemma try_exit_open i c s :
  in_streams s !! i = Some c → open_response c = true → try_exit s = s.
Proof.
  intros Hi Ho. unfold try_exit. destruct (in_stage s); try done.
  replace (existsb open_response (in_streams s)) with true; [done|]. symmetry. apply existsb_exists.
  exists c. split; [|done]. apply list_elem_of_In. by eapply list_elem_of_lookup_2.
Qed.

(** Stopping on [n] signals with stream [i] open. *)
Definition waiting (i n : nat) (s : Server) : Prop :=
  in_stage s = Stopping n ∧ in_disposal s = Untouched ∧
  ∃ c, in_streams s !! i = Some c ∧ cn_phase c = Bound ∧ open_response c = true.

Definition signals (evs : list ServerEvent) : nat :=
  length (filter (λ ev, match ev with StopSignal => true | _ => false end = true) evs).

Lemma waiting_step i n ev s :
  ev ≠ OnStream i ClientCloses → waiting i n s → waiting i (signals [ev] + n) (server_step s ev).
Proof.
  intros H2 (Hs & Hd & c & Hc & Hp & Ho). unfold server_step. rewrite Hs.
  destruct ev as [u o|j ev| |]; [by split_and!; eauto| |by split_and!; eauto|by split_and!; eauto].
  assert (Hj : ∃ c', alter (conn_step ev) j (in_streams s) !! i = Some c' ∧ cn_phase c' = Bound ∧ open_response c' = true).
  { destruct (decide (j = i)) as [->|Hne].
    - rewrite list_lookup_alter_eq, Hc. simpl. eexists. split; [done|].
      apply bound_stays_open; [|done..]. intros ->. by apply H2.
    - rewrite list_lookup_alter_ne by done. eauto. }
  destruct Hj as (c' & Hc' & Hp' & Ho').
  rewrite (try_exit_open i c'); [|done..]. split_and!; eauto.
Qed.

Lemma signals_cons ev evs : signals (ev :: evs) = signals evs + signals [ev].
Proof. unfold signals. change (ev :: evs) with ([ev] ++ evs). rewrite filter_app, length_app. lia. Qed.

Lemma waiting_run i n evs s :
  OnStream i ClientCloses ∉ evs → waiting i n s → waiting i (signals evs + n) (server_run evs s).
Proof.
  revert n s. induction evs as [|ev evs IH]; intros n s Hno Hw; [done|].
  apply not_elem_of_cons in Hno as [Hev Hno].
  replace (signals (ev :: evs) + n) with (signals evs + (signals [ev] + n)) by (pose proof (signals_cons ev evs); lia).
  change (server_run (ev :: evs) s) with (server_run evs (server_step s ev)).
  apply IH; [done|]. apply waiting_step; [|done]. intros ->. by apply Hev.
Qed.

Lemma stop_waits i c s :
  in_stage s = Serving → in_disposal s = Untouched → in_streams s !! i = Some c → cn_phase c = Bound →
  open_response c = true → waiting i 1 (server_step s StopSignal).
Proof.
  intros Hs Hd Hc Hp Ho. unfold server_step. rewrite Hs. rewrite (try_exit_open i c); [|done..].
  split_and!; eauto.
Qed.

(** The last client leaves. *)
Lemma last_leaves i n s :
  in_stage s = Stopping n → existsb open_response (alter (conn_step ClientCloses) i (in_streams s)) = false →
  let s' := server_step s (OnStream i ClientCloses) in
  in_stage s' = (if decide (n ≤ 1) then Disposing else Exited 0) ∧ in_disposal s' = Begun.
Proof. intros Hs Hno. unfold server_step, try_exit. rewrite Hs. cbn [in_stage with_streams in_streams]. by rewrite Hs, Hno. Qed.

(** ** Properties *)

(** the launcher's instances.  Whatever the environment, its two children listen on 7001
    and 7002 under distinct names and share the launcher's broker. *)
Theorem cluster_instances (env : Env) :
  server_config <$> children env =
    (λ p, {| sv_port := of_Z p.1; sv_instanceId := p.2; sv_broker := default "artemis" (env "BROKER") |}) <$> instances.
Proof. vm_compute. reflexivity. Qed.

(** C30: shutdown waits for the clients, and a second signal cuts it short.  While the
    client of a bound stream stays connected, a stopped process neither exits nor begins
    to dispose of its adapter, however many signals and other events follow.  When the
    last client leaves, it begins to dispose and exits once that is complete if it got one
    signal; if it got more it exits with the disposal only begun.  With no stream open the
    first signal begins the disposal, and a second one before its end cuts it short too. *)
Theorem shutdown_waits (i : nat) (c : Conn) (s : Server) (evs : list ServerEvent) :
  in_stage s = Serving → in_disposal s = Untouched →
  in_streams s !! i = Some c → cn_phase c = Bound → open_response c = true →
  OnStream i ClientCloses ∉ evs →
  let stopped := server_run (StopSignal :: evs) s in
  in_stage stopped = Stopping (signals evs + 1) ∧ in_disposal stopped = Untouched ∧
  (existsb open_response (alter (conn_step ClientCloses) i (in_streams stopped)) = false →
   let last := server_run [OnStream i ClientCloses; DisposalSettles] stopped in
   in_stage last = Exited 0 ∧ in_disposal last = if decide (signals evs = 0) then Complete else Begun) ∧
  ∀ s', in_stage s' = Serving → existsb open_response (in_streams s') = false →
    in_disposal (server_run [StopSignal; DisposalSettles] s') = Complete ∧
    in_disposal (server_run [StopSignal; StopSignal; DisposalSettles] s') = Begun ∧
    in_stage (server_run [StopSignal; StopSignal] s') = Exited 0.
Proof.
  intros Hs Hd Hc Hp Ho Hno. cbv zeta. change (server_run (StopSignal :: evs) s) with (server_run evs (server_step s StopSignal)).
  pose proof (waiting_run i 1 evs _ Hno (stop_waits i c s Hs Hd Hc Hp Ho)) as (E & Ed & _).
  split; [done|]. split; [done|]. split.
  - intros Hlast. destruct (last_leaves i _ _ E Hlast) as [El Ed']. cbn [server_run foldl].
    set (s1 := server_step _ (OnStream i ClientCloses)) in *. unfold server_step. rewrite El.
    case_decide; case_decide; rewrite ?El; simpl; try done; lia.
  - intros s' Hs' Hno'. unfold server_run, server_step, try_exit. simpl.
    rewrite Hs'. simpl. rewrite Hno'. by simpl.
Qed.

(** An instance with one client. *)
Definition one_client : Server := {|
  in_id := "inst-7001"; in_streams := [conn_run [SubscribeOk; SubscribeOk] (open_stream "inst-7001" "u1" "o1")];
  in_stage := Serving; in_disposal := Untouched |}.

Lemma shutdown_waits_witness :
  let evs := [ClientConnects "u2" "o2"; StopSignal; OnStream 0 (Heartbeat 5)] in
  let stopped := server_run (StopSignal :: evs) one_client in
  in_stage stopped = Stopping (signals evs + 1) ∧ in_disposal stopped = Untouched ∧
  (existsb open_response (alter (conn_step ClientCloses) 0 (in_streams stopped)) = false →
   let last := server_run [OnStream 0 ClientCloses; DisposalSettles] stopped in
   in_stage last = Exited 0 ∧ in_disposal last = if decide (signals evs = 0) then Complete else Begun) ∧
  ∀ s', in_stage s' = Serving → existsb open_response (in_streams s') = false →
    in_disposal (server_run [StopSignal; DisposalSettles] s') = Complete ∧
    in_disposal (server_run [StopSignal; StopSignal; DisposalSettles] s') = Begun ∧
    in_stage (server_run [StopSignal; StopSignal] s') = Exited 0.
Proof.
  apply (shutdown_waits 0 (conn_run [SubscribeOk; SubscribeOk] (open_stream "inst-7001" "u1" "o1")) one_client
           [ClientConnects "u2" "o2"; StopSignal; OnStream 0 (Heartbeat 5)]); try reflexivity; set_solver.
Defined.

(** How [main] ended before the server ran; [None]: it runs. *)
Definition startup (pf : Platform) (env : Env) : option Ending :=
  match start_instance pf env with inl e => Some e | inr _ => None end.

Definition env_broker (b : string) : Env := λ x, if decide (x = "BROKER") then Some b else None.

(** an instance starts.  With the in-memory broker it runs; an unknown broker is refused
    with exit code 2, and one that cannot be reached ends the process with its error. *)
Theorem instance_starts :
  startup demo_platform (env_broker "in-memory") = None ∧
  startup demo_platform (env_broker "nats") = Some (Exit 2) ∧
  startup demo_platform (env_broker "rabbitmq") = Some (Uncaught (OtherError "ECONNREFUSED")).
Proof. vm_compute. split_and!; reflexivity. Qed.

(** a stopped cluster cuts the shutdown of a busy server short.  Signalled while one of
    its two servers has no client and the other serves a bound stream, the launcher stops
    both; handling the exit of the first it signals the second again, which therefore
    exits, when its client leaves, with the disposal of its adapter only begun. *)
Theorem cluster_double_signal (s1 s2 : Server) (i : nat) (c : Conn) :
  in_stage s1 = Serving → existsb open_response (in_streams s1) = false →
  in_stage s2 = Serving → in_disposal s2 = Untouched → in_streams s2 !! i = Some c → open_response c = true →
  existsb open_response (alter (conn_step ClientCloses) i (in_streams s2)) = false →
  let stopped := cluster_run [LauncherSignal; AtServer 0 DisposalSettles; ChildExit]
    {| cl_servers := [s1; s2]; cl_exits := []; cl_exitTimers := 0; cl_done := false |} in
  in_disposal <$> cl_servers stopped = [Complete; Untouched] ∧
  in_stage <$> cl_servers stopped = [Exited 0; Stopping 2] ∧
  cl_done (cluster_step stopped ExitTimer) = true ∧
  let last := cluster_run [ExitTimer; AtServer 1 (OnStream i ClientCloses); AtServer 1 DisposalSettles] stopped in
  in_disposal <$> cl_servers last = [Complete; Begun] ∧ in_stage <$> cl_servers last = [Exited 0; Exited 0].
Proof.
  intros H1 Hno H2 Hd Hc Ho Hlast.
  assert (E1 : server_step s1 StopSignal = with_stage Disposing Begun (with_stage (Stopping 1) (in_disposal s1) s1)).
  { unfold server_step. rewrite H1. unfold try_exit. simpl. by rewrite Hno. }
  assert (E2 : server_step s2 StopSignal = with_stage (Stopping 1) Untouched s2).
  { unfold server_step. rewrite H2, Hd. by apply (try_exit_open i c). }
  unfold cluster_run. simpl. unfold launcher_stop, at_server, exited. simpl.
  rewrite E1. simpl. rewrite E2. simpl. rewrite ?H1, ?H2. simpl.
  unfold server_step, try_exit. simpl. rewrite Hlast. by simpl.
Qed.

Lemma cluster_double_signal_witness :
  let stopped := cluster_run [LauncherSignal; AtServer 0 DisposalSettles; ChildExit]
    {| cl_servers := [new_server "inst-7002"; one_client]; cl_exits := []; cl_exitTimers := 0; cl_done := false |} in
  in_disposal <$> cl_servers stopped = [Complete; Untouched] ∧
  in_stage <$> cl_servers stopped = [Exited 0; Stopping 2] ∧
  cl_done (cluster_step stopped ExitTimer) = true ∧
  let last := cluster_run [ExitTimer; AtServer 1 (OnStream 0 ClientCloses); AtServer 1 DisposalSettles] stopped in
  in_disposal <$> cl_servers last = [Complete; Begun] ∧ in_stage <$> cl_servers last = [Exited 0; Exited 0].
Proof.
  apply (cluster_double_signal (new_server "inst-7002") one_client 0
    (conn_run [SubscribeOk; SubscribeOk] (open_stream "inst-7001" "u1" "o1"))); reflexivity.
Defined.
