(* ===== verification/SseDocs.v ===== *)
(** The self-describing SSE contract (sse/domain/contract.ts, [SSE_CONTRACT]) and the
    documentation generator (sse/docs/generate.ts): the Markdown catalog and the
    AsyncAPI document as functions of the contract. *)

From S2P Require Import Prelude Json TopicMatch Sse.
From Stdlib Require Import Ascii.

(** ** The contract data *)

Inductive OperationDirection := dir_publish | dir_subscribe.

Record FieldDoc := { fd_name : string; fd_type : string; fd_description : string }.

Record OperationDoc := {
  op_id : string;
  op_summary : string;
  op_direction : OperationDirection;
  op_routingKeyPattern : string;
  op_when : string
}.

Record AddressSchemeDoc := { as_scope : Scope; as_pattern : string; as_description : string }.

Record SseContract := {
  ct_channel : string;
  ct_channelDescription : string;
  ct_addressSchemes : list AddressSchemeDoc;
  ct_operations : list OperationDoc;
  ct_envelopeFields : list FieldDoc;
  ct_frameFields : list FieldDoc
}.

Definition direction_name (d : OperationDirection) : string :=
  match d with dir_publish => "publish" | dir_subscribe => "subscribe" end.

(** A literal with double quotes, written [^] here. *)
Fixpoint Q (s : string) : string :=
  match s with "" => "" | String a s' => String (if decide (a = "^"%char) then quote else a) (Q s') end.

Definition SSE_CONTRACT : SseContract := {|
  ct_channel := SSE_CHANNEL;
  ct_channelDescription :=
    "Single broker topic backing the cross-instance SSE cluster. Every browser " +:+
    "connection opens two transient (exclusive + auto-delete) subscriptions on " +:+
    "this topic — one user-direct, one org-broadcast — so the broker fans " +:+
    "messages across server instances with no presence registry.";
  ct_addressSchemes := [
    {| as_scope := user; as_pattern := "user.{userId}";
       as_description := "User-direct routing key. A message published here reaches only the " +:+
         "connection(s) for that single user." |};
    {| as_scope := org; as_pattern := "org.{orgId}";
       as_description := "Org-broadcast routing key. A message published here fans out to every " +:+
         "connection in that org, across all server instances." |}];
  ct_operations := [
    {| op_id := "publish-to-user"; op_summary := "Publish a message directly to one user.";
       op_direction := dir_publish; op_routingKeyPattern := "user.{userId}";
       op_when := Q "On `POST /publish` with `{ to: { type: ^user^, id } }`." |};
    {| op_id := "publish-to-org"; op_summary := "Broadcast a message to every member of an org.";
       op_direction := dir_publish; op_routingKeyPattern := "org.{orgId}";
       op_when := Q "On `POST /publish` with `{ to: { type: ^org^, id } }`." |};
    {| op_id := "subscribe-user-stream"; op_summary := "Receive user-direct messages on an SSE connection.";
       op_direction := dir_subscribe; op_routingKeyPattern := "user.{userId}";
       op_when := "When a client opens `GET /events?userId&orgId`; bound as a transient " +:+
         "subscription for the connection lifetime." |};
    {| op_id := "subscribe-org-stream"; op_summary := "Receive org-broadcast messages on an SSE connection.";
       op_direction := dir_subscribe; op_routingKeyPattern := "org.{orgId}";
       op_when := "When a client opens `GET /events?userId&orgId`; bound as a transient " +:+
         "subscription for the connection lifetime." |}];
  ct_envelopeFields := [
    {| fd_name := "from"; fd_type := "string"; fd_description := "Display name of the sender (defaults to `anon`)." |};
    {| fd_name := "text"; fd_type := "string"; fd_description := "Free-text body of the message." |};
    {| fd_name := "to"; fd_type := "object";
       fd_description := Q "The publish target: `{ type: ^user^ | ^org^, id }`." |};
    {| fd_name := "via"; fd_type := "string";
       fd_description := "Id of the instance that accepted and published the message." |};
    {| fd_name := "at"; fd_type := "string (ISO-8601)";
       fd_description := "Timestamp set when the message was published." |}];
  ct_frameFields := [
    {| fd_name := "scope"; fd_type := Q "^user^ | ^org^";
       fd_description := "Which subscription matched: user-direct or org-broadcast." |};
    {| fd_name := "instanceId"; fd_type := "string";
       fd_description := "Id of the instance whose SSE stream delivered this frame." |};
    {| fd_name := "message"; fd_type := "SseEnvelope"; fd_description := "The published message envelope." |}] |}.

(** ** Markdown *)

Definition field_row (f : FieldDoc) : string :=
  "| `" +:+ fd_name f +:+ "` | `" +:+ fd_type f +:+ "` | " +:+ fd_description f +:+ " |".

(** The first element of [head] is the header row, the second the rule. *)
Definition field_head : list string := ["| Field | Type | Description |"; "| --- | --- | --- |"].

Definition fieldTable (fields : list FieldDoc) : string :=
  join_with newline (field_head ++ (field_row <$> fields)).

Definition scheme_row (a : AddressSchemeDoc) : string :=
  "| `" +:+ scope_name (as_scope a) +:+ "` | `" +:+ as_pattern a +:+ "` | " +:+ as_description a +:+ " |".

Definition operation_lines (op : OperationDoc) : list string := [
  "### `" +:+ op_id op +:+ "` (" +:+ direction_name (op_direction op) +:+ ")"; "";
  op_summary op; "";
  "- **Direction:** " +:+ direction_name (op_direction op);
  "- **Routing key:** `" +:+ op_routingKeyPattern op +:+ "`";
  "- **When:** " +:+ op_when op; ""].

Definition renderMarkdown (c : SseContract) : string :=
  join_with newline (
    ["# SSE event catalog"; "";
     "> Generated from `typescript/src/sse/domain/contract.ts` via `npm run sse:docs`. Do not edit by hand.";
     ""; "## Channel `" +:+ ct_channel c +:+ "`"; ""; ct_channelDescription c; "";
     "## Address schemes"; ""; "| Scope | Routing key | Description |"; "| --- | --- | --- |"] ++
    (scheme_row <$> ct_addressSchemes c) ++
    [""; "## Operations"; ""] ++
    concat (operation_lines <$> ct_operations c) ++
    ["## Message envelope"; "";
     "The payload published to the channel and re-emitted as the `message` of an SSE frame."; "";
     fieldTable (ct_envelopeFields c); "";
     "## SSE frame"; ""; "The `data:` frame delivered to a connected client."; "";
     fieldTable (ct_frameFields c); ""]).

(** ** AsyncAPI *)

(** [/^[A-Za-z0-9_.\-]+$/]. *)
Definition bare_char (a : ascii) : bool :=
  let n := nat_of_ascii a in
  bool_decide (65 ≤ n ∧ n ≤ 90) || bool_decide (97 ≤ n ∧ n ≤ 122) || bool_decide (48 ≤ n ∧ n ≤ 57) ||
  bool_decide (a = "_"%char ∨ a = "."%char ∨ a = "-"%char).

Fixpoint all_bare (s : string) : bool :=
  match s with "" => true | String a s' => bare_char a && all_bare s' end.

Definition is_bare (s : string) : bool := bool_decide (s ≠ "") && all_bare s.

(** The two replacements. *)
Fixpoint yaml_escape (s : string) : string :=
  match s with
  | "" => ""
  | String a s' =>
      if decide (a = backslash ∨ a = quote) then String backslash (String a (yaml_escape s'))
      else String a (yaml_escape s')
  end.

Definition yamlScalar (value : string) : string :=
  if is_bare value then value else String quote (yaml_escape value +:+ String quote "").

(** [type.startsWith(prefix)]. *)
Fixpoint starts_with (prefix s : string) : bool :=
  match prefix, s with
  | "", _ => true
  | String a p, String b s' => bool_decide (a = b) && starts_with p s'
  | _, "" => false
  end.

Definition asyncApiType (type : string) : string :=
  if starts_with "object" type || bool_decide (type = "SseEnvelope") then "object" else "string".

(** The operations grouped by routing-key pattern, in order of first appearance. *)
Definition byPattern (ops : list OperationDoc) : list (string * list OperationDoc) :=
  foldl (λ m op,
    let list := default [] (map_get m (op_routingKeyPattern op)) in
    map_set m (op_routingKeyPattern op) (list ++ [op])) [] ops.

Definition operation_yaml (op : OperationDoc) : list string :=
  let verb := match op_direction op with dir_subscribe => "subscribe" | dir_publish => "publish" end in [
  "    " +:+ verb +:+ ":";
  "      operationId: " +:+ yamlScalar (op_id op);
  "      summary: " +:+ yamlScalar (op_summary op);
  "      description: " +:+ yamlScalar (op_when op);
  "      message:";
  "        $ref: '#/components/messages/" +:+
    match op_direction op with dir_subscribe => "SseFrame" | dir_publish => "SseEnvelope" end +:+ "'"].

Definition parameter_yaml (c : SseContract) (pattern : string) : list string :=
  match find (λ a, starts_with (scope_name (as_scope a) +:+ ".") pattern) (ct_addressSchemes c) with
  | Some a => [
      "      " +:+ scope_name (as_scope a) +:+ "Id:";
      "        description: " +:+ yamlScalar (as_description a);
      "        schema:";
      "          type: string"]
  | None => []
  end.

Definition channel_yaml (c : SseContract) (g : string * list OperationDoc) : list string :=
  ["  " +:+ yamlScalar g.1 +:+ ":";
   "    description: " +:+ yamlScalar ("Channel " +:+ ct_channel c +:+ ", routing key " +:+ g.1 +:+ ".");
   "    parameters:"] ++
  parameter_yaml c g.1 ++ concat (operation_yaml <$> g.2).

Definition property_yaml (f : FieldDoc) : list string := [
  "        " +:+ fd_name f +:+ ":";
  "          type: " +:+ asyncApiType (fd_type f);
  "          description: " +:+ yamlScalar (fd_description f)].

Definition frame_property_yaml (f : FieldDoc) : list string :=
  if decide (fd_name f = "message")
  then ["        " +:+ fd_name f +:+ ":"; "          $ref: '#/components/schemas/SseEnvelope'"]
  else property_yaml f.

Definition renderAsyncApi (c : SseContract) : string :=
  join_with newline (
    ["asyncapi: 2.6.0"; "info:"; "  title: SSE cross-instance cluster"; "  version: 1.0.0";
     "  description: " +:+ yamlScalar (ct_channelDescription c); "defaultContentType: application/json";
     "channels:"] ++
    concat (channel_yaml c <$> byPattern (ct_operations c)) ++
    ["components:"; "  messages:"; "    SseEnvelope:"; "      name: SseEnvelope";
     "      title: Published message envelope"; "      contentType: application/json"; "      payload:";
     "        $ref: '#/components/schemas/SseEnvelope'";
     "    SseFrame:"; "      name: SseFrame"; "      title: SSE data frame delivered to a client";
     "      contentType: application/json"; "      payload:";
     "        $ref: '#/components/schemas/SseFrame'";
     "  schemas:"; "    SseEnvelope:"; "      type: object"; "      properties:"] ++
    concat (property_yaml <$> ct_envelopeFields c) ++
    ["    SseFrame:"; "      type: object"; "      properties:"] ++
    concat (frame_property_yaml <$> ct_frameFields c)) +:+ String newline "".

(** ** The committed documents *)

(** docs/sse-events.md. *)
Definition committed_sse_events : string := Q "# SSE event catalog

> Generated from `typescript/src/sse/domain/contract.ts` via `npm run sse:docs`. Do not edit by hand.

## Channel `mbc.sse`

Single broker topic backing the cross-instance SSE cluster. Every browser connection opens two transient (exclusive + auto-delete) subscriptions on this topic — one user-direct, one org-broadcast — so the broker fans messages across server instances with no presence registry.

## Address schemes

| Scope | Routing key | Description |
| --- | --- | --- |
| `user` | `user.{userId}` | User-direct routing key. A message published here reaches only the connection(s) for that single user. |
| `org` | `org.{orgId}` | Org-broadcast routing key. A message published here fans out to every connection in that org, across all server instances. |

## Operations

### `publish-to-user` (publish)

Publish a message directly to one user.

- **Direction:** publish
- **Routing key:** `user.{userId}`
- **When:** On `POST /publish` with `{ to: { type: ^user^, id } }`.

### `publish-to-org` (publish)

Broadcast a message to every member of an org.

- **Direction:** publish
- **Routing key:** `org.{orgId}`
- **When:** On `POST /publish` with `{ to: { type: ^org^, id } }`.

### `subscribe-user-stream` (subscribe)

Receive user-direct messages on an SSE connection.

- **Direction:** subscribe
- **Routing key:** `user.{userId}`
- **When:** When a client opens `GET /events?userId&orgId`; bound as a transient subscription for the connection lifetime.

### `subscribe-org-stream` (subscribe)

Receive org-broadcast messages on an SSE connection.

- **Direction:** subscribe
- **Routing key:** `org.{orgId}`
- **When:** When a client opens `GET /events?userId&orgId`; bound as a transient subscription for the connection lifetime.

## Message envelope

The payload published to the channel and re-emitted as the `message` of an SSE frame.

| Field | Type | Description |
| --- | --- | --- |
| `from` | `string` | Display name of the sender (defaults to `anon`). |
| `text` | `string` | Free-text body of the message. |
| `to` | `object` | The publish target: `{ type: ^user^ | ^org^, id }`. |
| `via` | `string` | Id of the instance that accepted and published the message. |
| `at` | `string (ISO-8601)` | Timestamp set when the message was published. |

## SSE frame

The `data:` frame delivered to a connected client.

| Field | Type | Description |
| --- | --- | --- |
| `scope` | `^user^ | ^org^` | Which subscription matched: user-direct or org-broadcast. |
| `instanceId` | `string` | Id of the instance whose SSE stream delivered this frame. |
| `message` | `SseEnvelope` | The published message envelope. |
".

(** docs/sse-asyncapi.yaml. *)
Definition committed_sse_asyncapi : string := Q "asyncapi: 2.6.0
info:
  title: SSE cross-instance cluster
  version: 1.0.0
  description: ^Single broker topic backing the cross-instance SSE cluster. Every browser connection opens two transient (exclusive + auto-delete) subscriptions on this topic — one user-direct, one org-broadcast — so the broker fans messages across server instances with no presence registry.^
defaultContentType: application/json
channels:
  ^user.{userId}^:
    description: ^Channel mbc.sse, routing key user.{userId}.^
    parameters:
      userId:
        description: ^User-direct routing key. A message published here reaches only the connection(s) for that single user.^
        schema:
          type: string
    publish:
      operationId: publish-to-user
      summary: ^Publish a message directly to one user.^
      description: ^On `POST /publish` with `{ to: { type: \^user\^, id } }`.^
      message:
        $ref: '#/components/messages/SseEnvelope'
    subscribe:
      operationId: subscribe-user-stream
      summary: ^Receive user-direct messages on an SSE connection.^
      description: ^When a client opens `GET /events?userId&orgId`; bound as a transient subscription for the connection lifetime.^
      message:
        $ref: '#/components/messages/SseFrame'
  ^org.{orgId}^:
    description: ^Channel mbc.sse, routing key org.{orgId}.^
    parameters:
      orgId:
        description: ^Org-broadcast routing key. A message published here fans out to every connection in that org, across all server instances.^
        schema:
          type: string
    publish:
      operationId: publish-to-org
      summary: ^Broadcast a message to every member of an org.^
      description: ^On `POST /publish` with `{ to: { type: \^org\^, id } }`.^
      message:
        $ref: '#/components/messages/SseEnvelope'
    subscribe:
      operationId: subscribe-org-stream
      summary: ^Receive org-broadcast messages on an SSE connection.^
      description: ^When a client opens `GET /events?userId&orgId`; bound as a transient subscription for the connection lifetime.^
      message:
        $ref: '#/components/messages/SseFrame'
components:
  messages:
    SseEnvelope:
      name: SseEnvelope
      title: Published message envelope
      contentType: application/json
      payload:
        $ref: '#/components/schemas/SseEnvelope'
    SseFrame:
      name: SseFrame
      title: SSE data frame delivered to a client
      contentType: application/json
      payload:
        $ref: '#/components/schemas/SseFrame'
  schemas:
    SseEnvelope:
      type: object
      properties:
        from:
          type: string
          description: ^Display name of the sender (defaults to `anon`).^
        text:
          type: string
          description: ^Free-text body of the message.^
        to:
          type: object
          description: ^The publish target: `{ type: \^user\^ | \^org\^, id }`.^
        via:
          type: string
          description: ^Id of the instance that accepted and published the message.^
        at:
          type: string
          description: ^Timestamp set when the message was published.^
    SseFrame:
      type: object
      properties:
        scope:
          type: string
          description: ^Which subscription matched: user-direct or org-broadcast.^
        instanceId:
          type: string
          description: ^Id of the instance whose SSE stream delivered this frame.^
        message:
          $ref: '#/components/schemas/SseEnvelope'
".

(** ** Lemmas *)

(** A reader of the scalars written: a bare word, or a double-quoted string with
    backslash escapes. *)
Fixpoint read_quoted (s : string) : option string :=
  match s with
  | "" => None
  | String a s' =>
      if decide (a = quote) then (if decide (s' = "") then Some "" else None)
      else if decide (a = backslash) then
        match s' with String b s'' => String b <$> read_quoted s'' | "" => None end
      else String a <$> read_quoted s'
  end.

Definition read_scalar (s : string) : option string :=
  match s with
  | "" => None
  | String a s' => if decide (a = quote) then read_quoted s' else if all_bare s then Some s else None
  end.

Lemma read_escaped v : read_quoted (yaml_escape v +:+ String quote "") = Some v.
Proof.
  induction v as [|a v IH]; [done|]. cbn [yaml_escape]. destruct (decide (a = backslash ∨ a = quote)) as [Ha|Ha].
  - sapp. cbn [read_quoted]. rewrite decide_False by done. rewrite decide_True by done. by rewrite IH.
  - sapp. cbn [read_quoted]. rewrite !decide_False by naive_solver. by rewrite IH.
Qed.

(** One more operation in a grouping. *)
Definition add_operation (m : list (string * list OperationDoc)) (op : OperationDoc) :=
  let list := default [] (map_get m (op_routingKeyPattern op)) in
  map_set m (op_routingKeyPattern op) (list ++ [op]).

Lemma byPattern_snoc ops op : byPattern (ops ++ [op]) = add_operation (byPattern ops) op.
Proof. unfold byPattern. by rewrite foldl_app. Qed.

(** ** Properties *)

(** the committed documents are the generated ones.  Rendering the contract gives
    docs/sse-events.md and docs/sse-asyncapi.yaml, byte for byte. *)
Theorem documents_up_to_date :
  renderMarkdown SSE_CONTRACT = committed_sse_events ∧
  renderAsyncApi SSE_CONTRACT = committed_sse_asyncapi.
Proof. split; by vm_compute. Qed.

(** quoting.  Every string written as a YAML scalar reads back as itself. *)
Theorem yamlScalar_roundtrip (value : string) : read_scalar (yamlScalar value) = Some value.
Proof.
  unfold yamlScalar, is_bare. destruct (decide (value = "")) as [->|Hne]; [done|].
  rewrite bool_decide_eq_true_2 by done. destruct (all_bare value) eqn:Hb; simpl.
  - destruct value as [|a s]; [done|]. cbn [read_scalar]. rewrite decide_False; [by rewrite Hb|].
    intros ->. by vm_compute in Hb.
  - apply read_escaped.
Qed.

(** grouping.  The AsyncAPI document has one channel per routing-key pattern, and
    the channel of a pattern holds exactly the operations with that pattern, in the
    contract's order. *)
Theorem byPattern_groups (ops : list OperationDoc) :
  NoDup (byPattern ops).*1 ∧
  ∀ p, default [] (map_get (byPattern ops) p) = filter (λ op, op_routingKeyPattern op = p) ops.
Proof.
  induction ops as [|op ops [Hn Hg]] using rev_ind; [split; [constructor|done]|].
  rewrite byPattern_snoc. unfold add_operation. split; [by apply map_set_NoDup|].
  intros p. rewrite filter_app, <- Hg. destruct (decide (op_routingKeyPattern op = p)) as [<-|Hne].
  - rewrite map_get_set_eq, filter_cons_True by done. done.
  - rewrite map_get_set_ne, filter_cons_False by done. by rewrite app_nil_r.
Qed.

(** The cells of a Markdown row: the texts between unescaped bars. *)
Definition cells (row : string) : nat := length (split_on "|"%char row) - 2.

(** The row of the [scope] field has four cells in a table of three columns: the type's
    own bar splits its cell. *)
Theorem scope_row_has_four_cells :
  cells (default "" (head field_head)) = 3 ∧
  cells <$> (field_row <$> ct_frameFields SSE_CONTRACT) = [4; 3; 3].
Proof. by vm_compute. Qed.

(** A value YAML reads as a boolean stays unquoted. *)
Theorem boolean_stays_bare : yamlScalar "true" = "true".
Proof. reflexivity. Qed.
