(* ===== verification/RepositoryTests.v ===== *)
(** The repository's own tests (test/bus.test.ts, test/fault.test.ts,
    test/scenarios.test.ts) as programs over the model, each with the list of its
    expectations: what the authors assert of the code holds of the definitions.

    The tests of sse.test.ts run against brokers and are not here. *)

From stdpp Require Import pretty sorting.
From S2P Require Import Prelude Abstractions Ports Client TopicMatch InMemoryBus InMemoryScheduler Resilience.
From S2P Require Import EventLoop Scenarios BusScenarios FeatureScenarios BusSuite Runner FaultDemo.

(** ** bus.test.ts *)

Section bus_tests.
Context {W : Type} `{BusHost W}.

(** [expect(...)]: whether each expectation of a test holds. *)
Definition expect (l : list (Vars → bool)) : M (World W) (list bool) := read (λ vs, (λ f, f vs) <$> l).

Definition number (x : string) (n : Z) (vs : Vars) : bool := bool_decide (num x vs = Some n).

(** [m => { x++; await m.ack(); }] *)
Definition counting (x : string) (_ : IncomingMessage) : Body := Do (incr x) (λ _, ack).

(** [m => { x.push(m.body); await m.ack(); }] *)
Definition collecting (x : string) (m : IncomingMessage) : Body := Do (push_str x (im_body m)) (λ _, ack).

Definition subscribing (t : Destination) (f : IncomingMessage → Body) (o : SubscribeOptions) : M (World W) bus_sub :=
  h ← new_handler f; calling (bus_subscribe t h o).

Definition fans_out : M (World W) (list bool) :=
  _ ← declare "got0" (UNum 0); _ ← declare "got1" (UNum 0); _ ← declare "got2" (UNum 0);
  _ ← promise_all ((λ i, subscribing "t.fan" (counting ("got" +:+ i)) (of_kind fanout None ("s" +:+ i))) <$> ["0"; "1"; "2"]);
  _ ← publish "t.fan" "hello" None no_publish_options;
  _ ← sleep 60;
  expect [number "got0" 1; number "got1" 1; number "got2" 1].

Definition working (x : string) (m : IncomingMessage) : Body :=
  Do (incr x) (λ _, Do (push_str "seen" (im_body m)) (λ _, ack)).

Definition shares_load : M (World W) (list bool) :=
  _ ← declare "seen" (UStrs []); _ ← declare "counts0" (UNum 0); _ ← declare "counts1" (UNum 0);
  _ ← subscribe "t.work" (working "counts0") (subscriber "shared");
  _ ← subscribe "t.work" (working "counts1") (subscriber "shared");
  _ ← publish_all ((λ n, publish "t.work" ("job-" +:+ pretty n) None no_publish_options) <$> seq 0 10);
  _ ← sleep 120;
  expect [λ vs, bool_decide (size (list_to_set (strs "seen" vs) : gset string) = 10);
          λ vs, bool_decide (0 < default 0 (num "counts0" vs))%Z;
          λ vs, bool_decide (0 < default 0 (num "counts1" vs))%Z].

Definition nacking_once (m : IncomingMessage) : Body :=
  Do (incr "attempts") (λ _,
    Do (assign "lastCount" (UNum (default 0%Z (im_deliveryCount m)))) (λ vs,
      if decide (num "attempts" vs = Some 1%Z) then nack_requeue else ack)).

Definition redelivers_nacked : M (World W) (list bool) :=
  _ ← declare "attempts" (UNum 0); _ ← declare "lastCount" (UNum 0);
  _ ← subscribe "t.nack" nacking_once (subscriber "s");
  _ ← publish "t.nack" "x" None no_publish_options;
  _ ← sleep 120;
  expect [number "attempts" 2; number "lastCount" 2].

Definition dead_letters : M (World W) (list bool) :=
  _ ← declare "attempts" (UNum 0); _ ← declare "dead" (UStrs []);
  _ ← subscribe "t.poison" (λ _, Do (incr "attempts") (λ _, nack_requeue)) (retrying "main" 3 None);
  _ ← subscribe (deadLetterAddress "t.poison") (collecting "dead") (of_kind fanout None "dlq");
  _ ← publish "t.poison" "rotten" None no_publish_options;
  _ ← sleep 200;
  expect [number "attempts" 3; λ vs, bool_decide (strs "dead" vs = ["rotten"])].

Definition routes_by_key : M (World W) (list bool) :=
  _ ← declare "created" (UStrs []); _ ← declare "all" (UStrs []);
  _ ← subscribe "t.topic" (collecting "created") (of_kind topic (Some "order.created") "c");
  _ ← subscribe "t.topic" (collecting "all") (of_kind topic (Some "order.#") "a");
  _ ← publish "t.topic" "c1" (Some "order.created") no_publish_options;
  _ ← publish "t.topic" "s1" (Some "order.shipped") no_publish_options;
  _ ← sleep 60;
  expect [λ vs, bool_decide (strs "created" vs = ["c1"]);
          λ vs, bool_decide (strs "all" vs ≡ₚ ["c1"; "s1"])].

(** fault.test.ts, the third test. *)
Definition survives_crash : M (World W) (list bool) :=
  crashed ← subscribe "t.crash" (λ _, Return) (subscriber "q");
  _ ← publish "t.crash" "job" None no_publish_options;
  _ ← sleep 60;
  _ ← unsubscribe crashed;
  _ ← declare "got" (UStrs []);
  _ ← subscribe "t.crash" (collecting "got") (subscriber "q");
  _ ← sleep 60;
  expect [λ vs, bool_decide (strs "got" vs = ["job"])].
End bus_tests.

(** Run a test on a fresh [InMemoryScheduler]. *)
Definition in_memory_test (m : M (World Scheduler) (list bool)) : Error + list bool :=
  ((_ ← on bus_connectBus; m) (in_memory_world 1750000000000)).1.

(** ** fault.test.ts *)

Section fault_tests.
Context `{Cockatiel} (options : ResilienceOptions).

(** [new ResilientScheduler(new FaultInjectingBus(new InMemoryScheduler()), options)]. *)
Definition faulted_in_memory : Faulted Scheduler :=
  {| failuresRemaining := 0; fi_inner := new_InMemoryScheduler 1750000000000 |}.

#[local] Instance fault_bus : IMessageBus (Resilient (Faulted Scheduler)) := Resilient_IMessageBus options.

#[local] Instance fault_timed : Timed (Resilient (Faulted Scheduler)) :=
  resilient_Timed (faulted_Timed in_memory_Timed).

#[local] Instance fault_host : BusHost (Resilient (Faulted Scheduler)) :=
  lifted_host _ _ raw_of put_raw.

Definition fault_world : World (Resilient (Faulted Scheduler)) := world (new_Resilient options faulted_in_memory).

Definition is_retry (e : ResilienceEvent) : bool := match e with RetryEvent _ _ => true | _ => false end.
Definition is_open (e : ResilienceEvent) : bool := match e with BreakerOpen => true | _ => false end.

Definition some_event (f : ResilienceEvent → bool) : M (World (Resilient (Faulted Scheduler))) (list bool) :=
  λ w, (inr [existsb f (ob_events (wd_adapter w).2)], w).

Definition absorbs_transients : M (World (Resilient (Faulted Scheduler))) (list bool) :=
  _ ← awaiting bus_connectBus;
  _ ← declare "received" (UStrs []);
  _ ← subscribe "t.fault" (collecting "received") (subscriber "s");
  _ ← inject 2;
  _ ← publish "t.fault" "survives" None no_publish_options;
  _ ← sleep 120;
  l1 ← expect [λ vs, bool_decide ("survives" ∈ strs "received" vs)];
  l2 ← some_event is_retry;
  mret (l1 ++ l2).

Definition opens_circuit : M (World (Resilient (Faulted Scheduler))) (list bool) :=
  _ ← awaiting bus_connectBus;
  _ ← inject 100;
  _ ← publish_all (replicate 6 (try_catch (publish "t.out" "x" None no_publish_options) (λ _, mret tt)));
  some_event is_open.
End fault_tests.

Definition brief_blip : ResilienceOptions := {|
  maxRetryAttempts := 3; initialDelayMs := 5; maxDelayMs := 20; consecutiveFailures := 5; halfOpenAfterMs := 50 |}.

Definition sustained_outage : ResilienceOptions := {|
  maxRetryAttempts := 2; initialDelayMs := 5; maxDelayMs := 20; consecutiveFailures := 2; halfOpenAfterMs := 50 |}.

(** ** scenarios.test.ts *)

Module CancelUnsupportedFake.

(** The fake's map of handler sets, Node's microtasks and timers for its [fire] calls,
    the clock, and the handler calls made. *)
Record Fake := {
  fk_handlers : list (Destination * list MessageHandler);
  fk_microtasks : list (Destination * string);
  fk_timers : list (Z * (Destination * string));
  fk_now : Z;
  fk_calls : list (MessageHandler * ReceivedMessage)
}.

Definition new_Fake (now : Z) : Fake :=
  {| fk_handlers := []; fk_microtasks := []; fk_timers := []; fk_now := now; fk_calls := [] |}.

Definition name : string := "Fake (no cancel/list)".

Definition capabilities : Capabilities := {|
  protocol := "fake"; nativeScheduling := false; supportsCancel := false; supportsList := false; cap_bus := None |}.

Definition sendNow (d : Destination) (p : string) : M Fake unit := pure_step (λ f,
  {| fk_handlers := fk_handlers f; fk_microtasks := fk_microtasks f ++ [(d, p)]; fk_timers := fk_timers f;
     fk_now := fk_now f; fk_calls := fk_calls f |}).

Definition schedule (d : Destination) (p : string) (at_ : Z) : M Fake ScheduleHandle := λ f,
  (inr {| sh_id := "x"; sh_destination := d; sh_deliverAt := at_ |},
   {| fk_handlers := fk_handlers f; fk_microtasks := fk_microtasks f;
      fk_timers := fk_timers f ++ [((fk_now f + timer_delay (Z.max 0 (at_ - fk_now f)))%Z, (d, p))];
      fk_now := fk_now f; fk_calls := fk_calls f |}).

Definition set_handlers (d : Destination) (hs : list MessageHandler) (f : Fake) : Fake :=
  {| fk_handlers := map_set (fk_handlers f) d hs; fk_microtasks := fk_microtasks f; fk_timers := fk_timers f;
     fk_now := fk_now f; fk_calls := fk_calls f |}.

Definition handlers_of (d : Destination) (f : Fake) : list MessageHandler := default [] (map_get (fk_handlers f) d).

(** The close deletes the handler from the set it was added to. *)
Definition consume (d : Destination) (h : MessageHandler) : M Fake (Destination * MessageHandler) := λ f,
  (inr (d, h), set_handlers d (if decide (h ∈ handlers_of d f) then handlers_of d f else handlers_of d f ++ [h]) f).

Definition unsubscribe (s : Destination * MessageHandler) : M Fake unit :=
  pure_step (λ f, set_handlers s.1 (filter (.≠ s.2) (handlers_of s.1 f)) f).

Definition fire (f : Fake) (e : Destination * string) : Fake :=
  let m := {| rm_id := "m"; rm_destination := e.1; rm_body := e.2; rm_headers := ∅ |} in
  {| fk_handlers := fk_handlers f; fk_microtasks := fk_microtasks f; fk_timers := fk_timers f; fk_now := fk_now f;
     fk_calls := fk_calls f ++ ((., m) <$> handlers_of e.1 f) |}.

Definition not_later (a b : Z * (Destination * string)) : Prop := (a.1 ≤ b.1)%Z.
#[export] Instance not_later_dec : RelDecision not_later.
Proof. intros a b. unfold not_later. apply _. Defined.

(** While time passes the queued calls are made, then the due timers in their order. *)
Definition elapse_fake (ms : Z) (f : Fake) : Fake :=
  let now := (fk_now f + ms)%Z in
  let due := merge_sort not_later (filter (λ t, (t.1 ≤ now)%Z) (fk_timers f)) in
  let f' := foldl fire f (fk_microtasks f ++ due.*2) in
  {| fk_handlers := fk_handlers f'; fk_microtasks := []; fk_timers := filter (λ t, ¬ (t.1 ≤ now)%Z) (fk_timers f);
     fk_now := now; fk_calls := fk_calls f' |}.

#[global] Instance fake_IMessageScheduler : IMessageScheduler Fake := {|
  sched_sub := Destination * MessageHandler;
  sched_name := name; sched_capabilities := capabilities;
  sched_connect := mret tt; sched_sendNow := sendNow; sched_schedule := schedule;
  sched_cancel _ := throw (NotSupportedError "cancel" name None);
  sched_listScheduled _ := throw (NotSupportedError "listScheduled" name None);
  sched_consume := consume; sched_unsubscribe := unsubscribe; sched_dispose := mret tt |}.

(** It keeps the contract of an adapter that declares neither capability. *)
#[global] Instance fake_contract : SchedulerContract Fake.
Proof. split; intros _ x w; by eexists. Qed.

#[global] Instance fake_Timed : Timed Fake.
Proof.
  refine {| clock := fk_now; elapse := elapse_fake; handled f h := (filter (λ c, c.1 = h) (fk_calls f)).*2 |}.
  done.
Defined.
End CancelUnsupportedFake.

(** The registered suites: S1 to S4 against an adapter, and the names of the others. *)
Definition scheduling_of {W} `{Timed W} `{IMessageScheduler W} : list (Runnable (World W)) :=
  (λ s : Scenario W, {| ru_name := sn_name s; ru_run := sn_run s |}) <$> ALL_SCENARIOS (λ n, pretty n).

Definition bus_names : list string := bs_name <$> ALL_BUS_SCENARIOS (W := Scheduler) (λ n, pretty n).

(** The runner's bus scenarios where no bus is declared: their bodies are never run. *)
Definition bus_unreached {W} : list (Runnable (World W)) :=
  (λ n, {| ru_name := n; ru_run := throw (OtherError "unreached") |}) <$> bus_names.

Definition fake_report {W} `{Timed W} `{IMessageScheduler W} (w : W) : Error + list (string * ScenarioStatus) :=
  match (runSuite sched_name sched_capabilities (mret tt) scheduling_of bus_unreached (world w)).1 with
  | inr r => inr ((λ x, (sr_name x, sr_status x)) <$> rr_results r)
  | inl e => inl e
  end.

(** The first word of a scenario's name. *)
Fixpoint first_word (s : string) : string :=
  match s with
  | String a s' => if decide (a = Ascii.ascii_of_nat 32) then "" else String a (first_word s')
  | "" => ""
  end.

(** ** The expectations hold *)

Example bus_tests_hold :
  in_memory_test fans_out = inr [true; true; true] ∧
  in_memory_test shares_load = inr [true; true; true] ∧
  in_memory_test redelivers_nacked = inr [true; true] ∧
  in_memory_test dead_letters = inr [true; true] ∧
  in_memory_test routes_by_key = inr [true; true].
Proof. vm_compute. done. Qed.

Example fault_tests_hold :
  (absorbs_transients brief_blip (fault_world brief_blip)).1 = inr [true; true] ∧
  (opens_circuit sustained_outage (fault_world sustained_outage)).1 = inr [true] ∧
  in_memory_test survives_crash = inr [true].
Proof. vm_compute. done. Qed.

(** Scheduling scenarios pass or are reported as gaps, and the bus suite as one gap per
    scenario; the decorator changes nothing of it and its breaker stays closed. *)
Definition degraded : list ScenarioStatus := [pass; pass; unsupported; unsupported] ++ replicate 16 unsupported.

Example degradation_tests_hold :
  let names := ["S1"; "S2"; "S3"; "S4"] ++ (first_word <$> bus_names) in
  let graceful r := match r with inr l => (first_word <$> l.*1, l.*2) = (names, degraded) | inl _ => False end in
  graceful (fake_report (CancelUnsupportedFake.new_Fake 1750000000000)) ∧
  graceful (@fake_report _ (resilient_Timed CancelUnsupportedFake.fake_Timed)
    (Resilient_IMessageScheduler DEFAULT_RESILIENCE)
    (new_Resilient DEFAULT_RESILIENCE (CancelUnsupportedFake.new_Fake 1750000000000))) ∧
  first_word <$> bus_names = (λ n : nat, "S" +:+ pretty n) <$> seq 5 16.
Proof. vm_compute. done. Qed.

(** The in-memory adapter passes everything, also behind the decorator. *)
Example suite_tests_hold :
  (match run_adapter demo_suites (in_memory_adapter 1750000000000) with
   | inr (Some r) => sr_status <$> rr_results r = replicate 20 pass
   | _ => False
   end) ∧
  (match run_adapter demo_suites (resilient_adapter demo_platform (in_memory_adapter 1750000000000)) with
   | inr (Some r) => sr_status <$> rr_results r = replicate 20 pass ∧ rr_broker r = "In-Memory (reference) + Cockatiel"
   | _ => False
   end).
Proof. vm_compute. done. Qed.
